(* ===== verification/_CoqProject ===== *)
-Q . S2P
Prelude.v
Config.v
TrapPtr.v
Bounds.v
Derive.v
Memory.v
ShadowSpace.v
BoundsStack.v
ShadowMap.v
Report.v
Runtime.v
TinyAllocs.v
TypeChecks.v
Verdicts.v
Fetch.v
OutOfLine.v
Wrappers.v
Fault.v
Init.v
Stubs.v
Provenance.v
ProvWrappers.v
ProvStart.v
Leonardo.v
Qsort.v
DevOnes.v
CppCasts.v
SlotMemory.v
Program.v
Calls.v
Transparency.v
BoundsLayout.v
CallLayout.v
Casts.v
CastChecks.v
CastRules.v
AddrBounds.v
BoundsDescr.v
PtrIntArith.v
FaultText.v
StubgenWrappers.v
Plugin.v
MkstempStubs.v
Cilpp.v
