(* ===== verification/Prelude.v ===== *)
(** * The libcrunch run-time: verification library

    libcrunch checks, while a C program runs, that its pointers have the types
    the program believes (casts) and stay in the bounds of the objects they were
    derived from (arithmetic).  The compiler front end inserts calls to inlined
    functions ([src/include/libcrunch_cil_inlines.h]); the slow paths of these
    are in a preloaded run-time ([src/src/libcrunch.c], [src/src/shadow.c]),
    which asks liballocs what lies where in memory.  This library models that
    run-time in C, with the parts of the front end that it depends on, and
    proves what each part promises the next.

    ** How the parts interact

    - A pointer is a 64-bit word; one that is out of bounds carries a tag in
      bits 49 and 50 so that dereferencing it faults ([TrapPtr.v]).
    - A bounds value says where an object starts and how long it is
      ([Bounds.v]); pointer arithmetic is checked against it, by a fast primary
      and a slow secondary check ([Derive.v]), which fetch bounds when the
      local ones are invalid.
    - Bounds follow a pointer through memory in the shadow space
      ([ShadowSpace.v]) and through calls on the bounds stack
      ([BoundsStack.v]); both live in the byte memory of [Memory.v].
    - [ShadowMap.v] is the start-up code that maps the shadow space, keeps new
      mappings out of its way, and gives [argv], [environ] and libc's globals
      their bounds.
    - The run-time proper has one state ([Runtime.v]): what liballocs knows,
      the caches, the counters and the reporter of [Report.v].  The type checks
      on it are in [TypeChecks.v], their retyping members specified in
      [Verdicts.v]; fetching bounds out of line is in [Fetch.v].
    - A fault on a tagged pointer ends in the handler of [Fault.v], which strips
      the tag and restarts the instruction; [FaultText.v] has what it writes
      meanwhile.
    - [Init.v] has initialisation and the summary at exit, [Wrappers.v] the libc
      wrappers of the SoftBound-like mode, [Stubs.v] the run-time that stands in
      when libcrunch is not loaded; then the sizes of the shadow space are
      mapped from the kernel device of [DevOnes.v]
      ([src/kernel/dev-ones/linux/dev_ones.c]).
    - The library itself is compiled with the bounds ABI only, whatever the
      program is compiled with ([config_libcrunch] in [Config.v]); the
      out-of-line copies of the inlines at the end of [libcrunch.c] are in
      [OutOfLine.v], with what this difference entails.
    - The shadow-provenance front end replaces bounds by one byte.  Its helpers
      ([frontend/c/shadowprov/shadowprov_helpers.h]) are in [Provenance.v], its
      libc and allocation wrappers ([shadowprov_libc_wrappers.c]) in
      [ProvWrappers.v], its start-up code and [qsort] callback in
      [ProvStart.v], and the sort that is compiled with the instrumentation
      ([qsort.c]) in [Qsort.v], on top of [Leonardo.v].
    - C++ programs get their checks from class templates that take the place of
      the cast operators ([frontend/c++/include/checked_cast.hpp]):
      [CppCasts.v].
    - [Program.v] puts the parts together: the pointer instructions of a
      function as [frontend/c/crunchbound/crunchbound.ml] instruments them, on
      the typed memory of [SlotMemory.v]; [Calls.v] adds calls between such
      functions, and [Transparency.v] the fault handler.
    - Six parts of the front end itself, which is written in OCaml, are
      modelled on the expressions it emits: how the bounds variable of a local
      is laid out and indexed ([BoundsLayout.v]); in which order the bounds of
      the pointers inside arguments and results are pushed and peeked
      ([CallLayout.v]); the bounds of the address of a variable, and pointer
      differences ([AddrBounds.v]); where the bounds of a pointer expression are
      taken from, and the code that sets a bounds variable for it
      ([BoundsDescr.v]); the pass that merges pointer additions
      ([PtrIntArith.v], [frontend/c/ptrintarith/ptrintarith.ml]); and the pass
      that decides which casts, stores of generic pointers and indirect calls
      are checked, and how ([Casts.v], [frontend/c/trumptr/trumptr.ml]), whose
      code runs on the checks of [TypeChecks.v] ([CastChecks.v]); the rules that
      it follows, on types and values alone, are in [CastRules.v].
    - The passes run in a stand-in for the preprocessor
      ([frontend/cilpp/src/cilpp.ml], [Cilpp.v]), which makes its temporary file
      through two C stubs ([mkstemp_stubs.c], [MkstempStubs.v]).
    - The allocation wrappers that liballocs generates expand the macros of
      [include/stubgen_softbound.h] ([StubgenWrappers.v]); programs in the
      provenance mode are linked with the plug-in
      [frontend/c/shadowprov/gold-plugin.cpp] ([Plugin.v]).

    ** Conventions

    A definition has the name of the C function without leading underscores.
    Words are [Z], with the wrap-around of the source written out ([add64],
    [wrap32], ... below).  A function that may call [abort], or run into
    [__builtin_unreachable], a null dereference or a division by zero, returns
    an [outcome]: [Ret], [Abort] or [Unreachable].  State is passed explicitly.
    The macros that change what the inlines do are the fields of the class
    [Config] of [Config.v], whose instances are the configurations that the
    compiler wrappers build; a theorem names the ones it is about by a class
    ([SplitConfig], [SinglePathConfig], [WideBounds], [TrapConfig]).

    Code outside the repository is a parameter.  liballocs (a submodule) is the
    class [Liballocs] with the laws [LiballocsLaws]: types nest finitely and
    chains of pointer types end.  [TinyAllocs.v] is a concrete instance, on
    which the witnesses run.  The out-of-line functions that the inlines call
    are classes as well ([DeriveEnv], [ShadowEnv], [StackEnv]): the theorems
    on the inlines hold for every instance, [Fetch.v] gives the run-time's and
    [Stubs.v] that of the stub library.  liballocs' walk over the mappings of
    the process is the class [MapsWalker] of [ShadowMap.v], with its law.  The
    kernel's [mmap], the instruction decoder, the hooks of liballocs that are
    wrapped, and the libc functions that are wrapped are function arguments.
    The value of a C function that returns none where one is read is an argument
    too.

    ** What the theorems show

    - [Program.v]: a program instrumented for the split-path configurations
      behaves like an ideal machine whose pointers know their objects, and which
      stops before an access outside of them, as long as it respects the
      discipline stated there: bounds at hand, no derivation from outside an
      object to outside it, aligned accesses that end in the object they start
      in, pointers kept in pointer slots.  Block copies, which libc makes and
      the run-time is told of, take the bounds along.  An example shows that the
      discipline is needed.
    - [Calls.v]: the same for disciplined trees of calls, as long as the bounds
      stack has room for the deepest path; the calls leave the stack as it was.
    - [Transparency.v]: with the fault handler, a disciplined program is
      spatially safe up to the first fix-up, which is counted; and a program
      makes the accesses it would make without instrumentation, out of bounds or
      not, except that a pointer stored through a pointer with tag 1 or 3 ends
      it (tag 2 is recovered from; block copies through tagged pointers are left
      aside).
    - [TrapPtr.v], [Bounds.v]: tags and bounds encode and decode without loss
      on user addresses; a bounds check is exact; where an encoding loses
      (32-bit sizes, word-size bounds), how; with word-size bounds the base and
      the size are swapped when a bounds value is made.
    - [Derive.v]: a checked derivation refines a two-field abstract machine
      (address, tag) in both the split and the single-path configurations; runs
      of derivations that never go from one out-of-bounds address to another
      are tagged exactly when they are out of bounds; invalid bounds are
      fetched; and the cases in which the exclusive or of tags goes wrong.
    - [ShadowSpace.v]: the shadow space refines a map from pointer slots to
      bounds, under stores, ordinary writes and [memcpy]; entries never overlap.
    - [BoundsStack.v], [Wrappers.v]: a callee gets its caller's bounds, the
      caller the callee's, and code that is not instrumented disturbs neither.
    - [BoundsLayout.v], [CallLayout.v], [AddrBounds.v]: the bounds variable of a
      local mirrors its pointers, one element each, and the index the front end
      computes is in range and meets no other pointer; pointers inside arguments
      arrive with their bounds, and so do those inside a result that goes to
      memory, while those inside a result that goes to a local do not; the bounds
      of an address are those of the whole object around it; a negative pointer
      difference is wrong.
    - [BoundsDescr.v]: the code that sets a bounds variable gives it the bounds
      of the object that the pointer expression belongs to, or asks the run-time,
      which it does if and only if the expression does not say; it asks with a
      null pointer where the derived one is expected, which can cost other
      pointers their bounds; a flexible array member ends the front end.
    - [CastRules.v]: an instrumented program computes what it computed before
      and makes the checks that the rules of that file ask of its casts, stores
      and calls, which leave nothing open.
    - [CastChecks.v]: a cast to an ordinary type of which no failure is reported
      holds; with sloppy function pointers an indirect call gets through only to
      a function that liballocs knows, with the right number of arguments; a
      cast inside a checked cast is not checked, and the checks after a store or
      a call evaluate the place anew.
    - [Cilpp.v], [MkstempStubs.v]: the driver understands its command line; a
      preprocessor that cannot be started is taken for one that succeeded, and
      the stubs lose the file descriptor.
    - [PtrIntArith.v]: merging pointer additions preserves the value of every
      expression when the index arithmetic it introduces is exact, and leaves
      one derivation per nest; two expressions that it changes.
    - [StubgenWrappers.v]: an instrumented caller gets the bounds of the whole
      allocation from a generated wrapper, and finds its stack as it was.
    - [ShadowMap.v]: start-up accepts only layouts the shadow space can live
      with, as far as its walk goes (its callback returns no value, so that the
      walk may stop early); the [mmap] hook never hands out memory twice while
      there is room, which it does not test; and [main]'s arguments have the
      bounds of their strings.
    - [Report.v]: suppression lists round-trip; each site is reported once; no
      failure is lost from the output.
    - [TypeChecks.v], [Verdicts.v]: every check returns 1 and is counted once,
      or ends by retyping an allocation, or is about something that liballocs
      does not know; the checks end where no suppressions are loaded; what each
      of them accepts; what is retyped and cached.
    - [Fetch.v]: the bounds found by the walk over subobjects, that they
      contain the object and stay inside the allocation, and that fetched
      bounds are valid where no range is empty.
    - [Fault.v], [FaultText.v], [Init.v], [Stubs.v], [Provenance.v]: the handler
      resumes exactly when it changed a register, which is never the stack
      pointer, and then not forever; its
      messages say which, and from what to what; initialisation happens once
      whatever the order of the calls, with one signal handler installed; the
      exit summary adds up; the stub run-time lets everything through;
      provenance crosses memory and calls.
    - [ProvWrappers.v], [ProvStart.v]: the caller of a wrapped function gets the
      provenance of the object the result points into, on every path of every
      wrapper; reallocation clears what it adds; [main] finds the shadows of its
      arguments and of the strings they point to; [qsort] comes back with the
      stack as it was if its comparator does not sort, and two ways in which
      its callback goes wrong.
    - [Leonardo.v], [Qsort.v]: the sort returns without undefined behaviour,
      sorts, permutes, and touches nothing but the array, up to 2^44 elements;
      beyond, its bit vector search goes wrong.
    - [DevOnes.v]: [read] returns, and sets exactly the bytes it reports, also
      when the buffer faults half-way; bounds loaded from the device let every
      check pass.
    - [CppCasts.v]: when a checked cast has the value of the cast it stands for,
      and that it counts one check; a cast to a class type is the language's,
      but moves from a variable.
    - [Plugin.v]: for every vector that the linker can pass, which files the
      plug-in adds to the link, in which order.
    - [OutOfLine.v]: which copies agree with the inlines of the program, and
      that a one-past pointer fetched by the library gets bounds without limits.

    Loops that are not structural have fuel: the depth or the pointer rank of a
    type, the number of members, the length of a string or vector.  For each of
    them a lemma shows that the fuel given is enough ([_total], [_enough]).

    ** Not modelled

    Diagnostics that change no state (trace messages, the text of a report of
    a failed check); of the compiler front ends (OCaml), the traversal of the
    program, the rewriting of lvalues, and the generation of type descriptors;
    the wrapper scripts, of which only the macros appear; liballocs' own
    initialisation; the static [from] functions of the C++ casts
    that go through a temporary, which do not compile when used;
    concurrency (the code keeps its caches and reporter in unsynchronised
    globals). *)
From Stdlib Require Export ZArith Lia.
From stdpp Require Export base numbers option list gmap strings.

#[global] Open Scope Z_scope.

(** ** Machine words

    A C [unsigned long] is a [Z] in [0, 2^64), an [unsigned] one in [0, 2^32);
    every arithmetic operation of the source that can wrap is followed by the
    reduction written out here. *)

Declare Scope word_scope.
Delimit Scope word_scope with word.

Definition wrap64 (x : Z) : Z := x mod 2 ^ 64.
Definition wrap32 (x : Z) : Z := x mod 2 ^ 32.
Definition u64 (x : Z) : Prop := 0 <= x < 2 ^ 64.
Definition u32 (x : Z) : Prop := 0 <= x < 2 ^ 32.

Definition add64 (a b : Z) : Z := wrap64 (a + b).
Definition sub64 (a b : Z) : Z := wrap64 (a - b).
Definition shl64 (a n : Z) : Z := wrap64 (Z.shiftl a n).
Definition shr64 (a n : Z) : Z := Z.shiftr a n.

(** The two's complement reading of a 64-bit word, and the arithmetic right
    shift the compiler gives [>>] on a [signed long]. *)
Definition signed64 (a : Z) : Z := if a <? 2 ^ 63 then a else a - 2 ^ 64.
Definition sar64 (a n : Z) : Z := wrap64 (Z.shiftr (signed64 a) n).
Definition not64 (a : Z) : Z := 2 ^ 64 - 1 - a.

Notation "a +w b" := (add64 a b) (at level 50, left associativity) : word_scope.
Notation "a -w b" := (sub64 a b) (at level 50, left associativity) : word_scope.
#[global] Open Scope word_scope.

(** ** Outcomes

    A C function of the source returns, calls [abort], or runs into
    [__builtin_unreachable] (undefined behaviour). *)
Inductive outcome (A : Type) : Type :=
| Ret (a : A)
| Abort
| Unreachable.
Arguments Ret {A} a.
Arguments Abort {A}.
Arguments Unreachable {A}.

#[export] Instance outcome_ret : MRet outcome := fun A a => Ret a.
#[export] Instance outcome_bind : MBind outcome := fun A B f m =>
  match m with Ret a => f a | Abort => Abort | Unreachable => Unreachable end.

#[export] Instance outcome_eq_dec {A} `{!EqDecision A} : EqDecision (outcome A).
Proof. solve_decision. Defined.

(** ** Generic lemmas and automation *)

(** A sequence of steps that returns: each of them did. *)
Lemma bind_Ret {A B : Type} (m : outcome A) (k : A -> outcome B) y :
  m ≫= k = Ret y -> exists x, m = Ret x /\ k x = Ret y.
Proof. destruct m as [x| |]; [by exists x|done..]. Qed.

Create HintDb word.

(** [mod_lia] is [lia] with the equations of every quotient and remainder of
    the goal and the context. *)
Ltac mod_lia := Z.div_mod_to_equations; lia.

(** [unfold_words] exposes the arithmetic behind the word operations, with the
    powers of two evaluated. *)
Ltac eval_pow2 :=
  repeat match goal with
  | |- context [2 ^ ?k] =>
      let v := eval vm_compute in (2 ^ k) in
      lazymatch v with Z.pow _ _ => fail | _ => change (2 ^ k) with v end
  | H : context [2 ^ ?k] |- _ =>
      let v := eval vm_compute in (2 ^ k) in
      lazymatch v with Z.pow _ _ => fail | _ => change (2 ^ k) with v in H end
  end.
Ltac unfold_words :=
  unfold add64, sub64, shl64, shr64, sar64, not64, signed64, u64, u32,
    wrap64, wrap32 in *.
Ltac word_lia := unfold_words; eval_pow2; mod_lia.

(** Case analysis on every boolean comparison of the goal. *)
Ltac zcases :=
  repeat match goal with
  | |- context [?a <? ?b] => destruct (Z.ltb_spec a b)
  | |- context [?a <=? ?b] => destruct (Z.leb_spec a b)
  | |- context [?a =? ?b] => destruct (Z.eqb_spec a b)
  end.

Lemma wrap64_small x : u64 x -> wrap64 x = x.
Proof. intros H. by apply Z.mod_small. Qed.

Lemma wrap32_small x : u32 x -> wrap32 x = x.
Proof. intros H. by apply Z.mod_small. Qed.

Lemma wrap64_u64 x : u64 (wrap64 x).
Proof. by apply Z.mod_pos_bound. Qed.

Lemma wrap32_u32 x : u32 (wrap32 x).
Proof. by apply Z.mod_pos_bound. Qed.

#[export] Hint Resolve wrap64_u64 wrap32_u32 : word.

(** Subtraction is exact when the first operand is at least the second. *)
Lemma sub64_exact a b : u64 a -> u64 b -> b <= a -> a -w b = a - b.
Proof. intros ???. apply wrap64_small. unfold u64 in *. lia. Qed.

Lemma sub64_borrow a b : u64 a -> u64 b -> a < b -> a -w b = a - b + 2 ^ 64.
Proof.
  intros ???. unfold sub64, wrap64.
  rewrite <- (Z.mod_add _ 1) by lia. apply Z.mod_small. unfold u64 in *. lia.
Qed.

(** Masks of low bits are remainders, masks of high bits are what is left. *)
Lemma land_low a n : 0 <= n -> Z.land a (2 ^ n - 1) = a mod 2 ^ n.
Proof.
  intros Hn. rewrite <- Z.land_ones by done.
  by rewrite Z.ones_equiv, <- Z.sub_1_r.
Qed.

Lemma testbit_not64 a i : 0 <= i < 64 -> Z.testbit (not64 a) i = negb (Z.testbit a i).
Proof.
  intros Hi. unfold not64.
  replace (2 ^ 64 - 1 - a) with (Z.lnot a + 1 * 2 ^ 64)
    by (unfold Z.lnot; lia).
  rewrite <- (Z.mod_pow2_bits_low _ 64) by lia.
  rewrite Z.mod_add by lia. rewrite Z.mod_pow2_bits_low by lia.
  apply Z.lnot_spec. lia.
Qed.

Lemma u64_testbit_high a i : u64 a -> 64 <= i -> Z.testbit a i = false.
Proof.
  intros Ha Hi. rewrite <- (Z.mod_small a (2 ^ 64)) by exact Ha.
  apply Z.mod_pow2_bits_high. lia.
Qed.

(** Two words are equal when their low and high parts are. *)
Lemma split_low_high n a b :
  0 <= n -> a mod 2 ^ n = b mod 2 ^ n -> a / 2 ^ n = b / 2 ^ n -> a = b.
Proof.
  intros Hn Hm Hd.
  rewrite (Z.div_mod a (2 ^ n)), (Z.div_mod b (2 ^ n)) by lia. congruence.
Qed.

Lemma lxor_mod_pow2 a b n :
  0 <= n -> Z.lxor a b mod 2 ^ n = Z.lxor (a mod 2 ^ n) (b mod 2 ^ n).
Proof.
  intros Hn. apply Z.bits_inj'. intros i Hi. rewrite Z.lxor_spec.
  destruct (decide (i < n)).
  - by rewrite !Z.mod_pow2_bits_low, Z.lxor_spec by lia.
  - by rewrite !Z.mod_pow2_bits_high by lia.
Qed.

Lemma lxor_div_pow2 a b n :
  0 <= n -> Z.lxor a b / 2 ^ n = Z.lxor (a / 2 ^ n) (b / 2 ^ n).
Proof. intros Hn. by rewrite <- !Z.shiftr_div_pow2, Z.shiftr_lxor by done. Qed.

(** Or-ing a word with its high bits clear into one with its low bits clear is
    addition. *)
Lemma lor_high_low x y n :
  0 <= n -> Z.lor (x * 2 ^ n) (y mod 2 ^ n) = x * 2 ^ n + y mod 2 ^ n.
Proof.
  intros Hn. rewrite <- Z.add_lor_land.
  assert (Z.land (x * 2 ^ n) (y mod 2 ^ n) = 0) as ->; [|by rewrite Z.add_0_r].
  apply Z.bits_inj'. intros i Hi. rewrite Z.land_spec, Z.testbit_0_l.
  destruct (decide (i < n)).
  - by rewrite Z.mul_pow2_bits_low.
  - by rewrite Z.mod_pow2_bits_high, andb_false_r by lia.
Qed.
