(* ===== verification/Config.v ===== *)
(** * Compile-time configuration

    The inlined runtime of [include/libcrunch_cil_inlines.h] is one text that
    the preprocessor turns into many programs.  [Config] has one boolean per
    macro that changes what the code does (the macros that only add
    diagnostics are not listed); the definitions of the development test
    these booleans where the source tests the macros.  The instances below are
    the configurations the compiler wrappers of [frontend/c] build. *)
From S2P Require Import Prelude.

Class Config := {
  noop_inlines : bool;               (* LIBCRUNCH_NOOP_INLINES *)
  wordsize_bounds : bool;            (* LIBCRUNCH_WORDSIZE_BOUNDS *)
  long_size : bool;                  (* LIBCRUNCH_LONG_SIZE *)
  no_denorm_bounds : bool;           (* LIBCRUNCH_NO_DENORM_BOUNDS *)
  using_trap_ptrs : bool;            (* LIBCRUNCH_USING_TRAP_PTRS *)
  using_trap_pointers : bool;        (* LIBCRUNCH_USING_TRAP_POINTERS *)
  kernel_pointers : bool;            (* LIBCRUNCH_KERNEL_POINTERS *)
  check_derive : bool;               (* LIBCRUNCH_CHECK_DERIVE *)
  no_split_path : bool;              (* LIBCRUNCH_NO_SPLIT_PATH *)
  one_past_in_primary : bool;        (* LIBCRUNCH_TRAP_ONE_PAST_IN_PRIMARY_CHECK *)
  abort_on_invalid_derive : bool;    (* LIBCRUNCH_ABORT_ON_INVALID_DERIVE *)
  abort_on_oob_deref : bool;         (* LIBCRUNCH_ABORT_ON_OOB_DEREF *)
  no_pointer_type_info : bool;       (* LIBCRUNCH_NO_POINTER_TYPE_INFO *)
  no_shadow_space : bool;            (* LIBCRUNCH_NO_SHADOW_SPACE *)
  no_bounds_stack : bool;            (* LIBCRUNCH_NO_BOUNDS_STACK *)
  keep_expensive_counts : bool;      (* LIBCRUNCH_KEEP_EXPENSIVE_COUNTS *)
}.

(** The bounds ABI of [frontend/c/lib/bounds-abi] (64-bit sizes), with the
    letter-specific macros of [bounds-config-<letter>] as arguments. *)
Definition bounds_abi_config (trap derive nosplit onepast abort_derive abort_deref
    notypes : bool) : Config := {|
  noop_inlines := false; wordsize_bounds := false; long_size := true;
  no_denorm_bounds := true; using_trap_ptrs := trap;
  using_trap_pointers := false; kernel_pointers := false;
  check_derive := derive; no_split_path := nosplit;
  one_past_in_primary := onepast; abort_on_invalid_derive := abort_derive;
  abort_on_oob_deref := abort_deref; no_pointer_type_info := notypes;
  no_shadow_space := false; no_bounds_stack := false;
  keep_expensive_counts := false |}.

Definition config_p : Config :=
  bounds_abi_config true true false true false false false.
Definition config_P : Config :=
  bounds_abi_config true true false true true false false.
Definition config_m : Config :=
  bounds_abi_config true true false false false false false.
Definition config_M : Config :=
  bounds_abi_config true true false false true false false.
Definition config_f : Config :=
  bounds_abi_config true true true false false false false.
Definition config_F : Config :=
  bounds_abi_config true true true false true false false.
Definition config_t : Config :=
  bounds_abi_config true true false true false false true.
Definition config_T : Config :=
  bounds_abi_config true true true false true false true.
Definition config_s : Config :=
  bounds_abi_config false false false false false false true.
Definition config_S : Config :=
  bounds_abi_config false false true false false true true.

(** [frontend/c/bin/crunchxcc] passes its own list of macros, without
    [LIBCRUNCH_CHECK_DERIVE]. *)
Definition config_crunchxcc : Config :=
  bounds_abi_config true false false false false false false.

(** The run-time library itself ([src/Makefile]): the bounds ABI and nothing
    else, so that trap pointers are off in its own copies of the inlines. *)
Definition config_libcrunch : Config :=
  bounds_abi_config false false false false false false false.

(** [frontend/c/bin/crunchbwscc]: bounds in one 64-bit word. *)
Definition config_crunchbwscc : Config := {|
  noop_inlines := false; wordsize_bounds := true; long_size := false;
  no_denorm_bounds := true; using_trap_ptrs := true;
  using_trap_pointers := false; kernel_pointers := false;
  check_derive := false; no_split_path := false;
  one_past_in_primary := false; abort_on_invalid_derive := false;
  abort_on_oob_deref := false; no_pointer_type_info := false;
  no_shadow_space := false; no_bounds_stack := false;
  keep_expensive_counts := false |}.

(** Configurations in which pointers carry trap tags the way the checks need:
    the inlines are live, trap pointers are on, kernel pointers are not
    supported, and a bound is a full base and a 64-bit size. *)
Class TrapConfig (C : Config) : Prop := {
  trap_live : noop_inlines = false;
  trap_on : using_trap_ptrs = true;
  trap_user : kernel_pointers = false;
}.
Class WideBounds (C : Config) : Prop := {
  wide_word : wordsize_bounds = false;
  wide_size : long_size = true;
}.
(** ... and derivation checks are on with separate primary and secondary paths. *)
Class SplitConfig (C : Config) : Prop := {
  split_trap :: TrapConfig C;
  split_wide :: WideBounds C;
  split_derive : check_derive = true;
  split_path : no_split_path = false;
  split_spelling : using_trap_pointers = false;
  split_counts : keep_expensive_counts = false;
}.

#[export] Instance config_p_split : SplitConfig config_p.
Proof. repeat split. Qed.
#[export] Instance config_m_split : SplitConfig config_m.
Proof. repeat split. Qed.
#[export] Instance config_P_split : SplitConfig config_P.
Proof. repeat split. Qed.
#[export] Instance config_M_split : SplitConfig config_M.
Proof. repeat split. Qed.
#[export] Instance config_t_split : SplitConfig config_t.
Proof. repeat split. Qed.
#[export] Instance config_libcrunch_wide : WideBounds config_libcrunch.
Proof. by split. Qed.
