(* ===== verification/TrapPtr.v ===== *)
(** * Trap pointers

    [include/libcrunch_cil_inlines.h]: a pointer that must not be
    dereferenced keeps its address and gets a two-bit tag in bits 49 and 50,
    which makes it non-canonical.  This file models the operations that set,
    clear and read the tag, and proves that they are inverse to one another on
    canonical addresses. *)
From S2P Require Import Prelude Config.

Definition LIBCRUNCH_TRAP_TAG_SHIFT : Z := 49.
Definition LIBCRUNCH_TRAP_ONE_PAST : Z := 1.
Definition LIBCRUNCH_TRAP_ONE_BEFORE : Z := 2.
Definition LIBCRUNCH_TRAP_INVALID : Z := 3.
Definition LIBCRUNCH_TRAP_TAG_WIDTH : Z := 2.
Definition LIBCRUNCH_TRAP_TAG_MASK : Z :=
  shl64 (Z.shiftl 1 LIBCRUNCH_TRAP_TAG_WIDTH - 1) LIBCRUNCH_TRAP_TAG_SHIFT.
Definition LIBCRUNCH_TRAP_BOTTOM_MASK : Z :=
  Z.shiftl 1 LIBCRUNCH_TRAP_TAG_SHIFT - 1.

(** [SHIFT_AMOUNT]: the word bits above the address bits. *)
Definition SHIFT_AMOUNT : Z := 8 * 8 - LIBCRUNCH_TRAP_TAG_SHIFT.

Section operations.
Context `{Config}.

Definition libcrunch_trap (ptr tag : Z) : Z :=
  if noop_inlines then ptr
  else Z.lxor ptr (shl64 tag LIBCRUNCH_TRAP_TAG_SHIFT).

Definition libcrunch_like_trapped (maybe_trapped ptr : Z) : Z :=
  if noop_inlines then ptr
  else Z.lor (Z.land maybe_trapped (not64 LIBCRUNCH_TRAP_BOTTOM_MASK))
             (Z.land ptr LIBCRUNCH_TRAP_BOTTOM_MASK).

Definition libcrunch_retrap (any_ptr tag : Z) : Z :=
  if noop_inlines then any_ptr
  else if using_trap_ptrs then
    if kernel_pointers then
      libcrunch_trap (sar64 (shl64 any_ptr SHIFT_AMOUNT) SHIFT_AMOUNT) tag
    else
      Z.lor (Z.land any_ptr (not64 LIBCRUNCH_TRAP_TAG_MASK))
            (shl64 tag LIBCRUNCH_TRAP_TAG_SHIFT)
  else any_ptr.

Definition libcrunch_detrap (any_ptr : Z) : Z :=
  if noop_inlines then any_ptr
  else if using_trap_ptrs then
    sar64 (shl64 any_ptr SHIFT_AMOUNT) SHIFT_AMOUNT
  else any_ptr.

Definition libcrunch_untrap (trapptr tag : Z) : Z :=
  if noop_inlines then trapptr else libcrunch_detrap trapptr.

Definition libcrunch_ptr_trap_bits (maybe_trap : Z) : Z :=
  if noop_inlines then 0
  else if using_trap_ptrs then
    let bits := shr64 maybe_trap LIBCRUNCH_TRAP_TAG_SHIFT in
    let bits := if kernel_pointers
                then Z.lxor bits (sar64 maybe_trap (8 * 8 - 1))
                else bits in
    Z.land bits (Z.shiftl 1 LIBCRUNCH_TRAP_TAG_WIDTH - 1)
  else 0.

Definition libcrunch_is_trap_ptr (maybe_trap : Z) : bool :=
  if noop_inlines then false
  else if using_trap_ptrs then
    negb (libcrunch_detrap maybe_trap =? maybe_trap)
  else false.
End operations.

(** The fix-up the fault handler applies to a register (an unsigned shift, in
    [try_register_fixup] of [src/libcrunch.c]). *)
Definition fixup_value (savedval : Z) : Z :=
  let shiftamount := 8 * 8 - LIBCRUNCH_TRAP_TAG_SHIFT in
  shr64 (shl64 savedval shiftamount) shiftamount.

(** An address the hardware accepts: the bits above bit 48 all equal bit 48;
    a user address has them clear. *)
Definition user_addr (a : Z) : Prop := 0 <= a < 2 ^ 48.
Definition canonical (a : Z) : Prop :=
  0 <= a < 2 ^ 48 \/ 2 ^ 64 - 2 ^ 48 <= a < 2 ^ 64.
#[export] Instance user_addr_dec a : Decision (user_addr a).
Proof. unfold user_addr. apply _. Defined.
#[export] Instance canonical_dec a : Decision (canonical a).
Proof. unfold canonical. apply _. Defined.

Lemma user_canonical a : user_addr a -> canonical a.
Proof. by left. Qed.
Lemma user_u64 a : user_addr a -> u64 a.
Proof. unfold user_addr, u64. lia. Qed.
Lemma canonical_u64 a : canonical a -> u64 a.
Proof. unfold canonical, u64. lia. Qed.
#[export] Hint Resolve user_canonical user_u64 canonical_u64 : word.

(** The sign extension of the low 49 bits, in arithmetic. *)
Definition sext49 (a : Z) : Z :=
  let q := a mod 2 ^ 49 in if q <? 2 ^ 48 then q else q + 2 ^ 64 - 2 ^ 49.

Lemma sar_shl_sext49 a : sar64 (shl64 a SHIFT_AMOUNT) SHIFT_AMOUNT = sext49 a.
Proof.
  unfold sext49, SHIFT_AMOUNT, LIBCRUNCH_TRAP_TAG_SHIFT, sar64, shl64, signed64, wrap64.
  change (8 * 8 - 49) with 15.
  rewrite Z.shiftl_mul_pow2 by lia.
  change (2 ^ 64) with (2 ^ 49 * 2 ^ 15) at 1 2.
  rewrite Z.mul_mod_distr_r by lia.
  pose proof (Z.mod_pos_bound a (2 ^ 49) ltac:(lia)) as Hq.
  rewrite !Z.shiftr_div_pow2 by lia. eval_pow2. zcases; mod_lia.
Qed.

Lemma sext49_canonical a : canonical (sext49 a).
Proof.
  unfold sext49, canonical. pose proof (Z.mod_pos_bound a (2 ^ 49) ltac:(lia)).
  zcases; lia.
Qed.

Lemma sext49_id a : canonical a -> sext49 a = a.
Proof. unfold sext49, canonical. intros [Ha|Ha]; eval_pow2; zcases; mod_lia. Qed.

Lemma sext49_mod a b : a mod 2 ^ 49 = b mod 2 ^ 49 -> sext49 a = sext49 b.
Proof. unfold sext49. by intros ->. Qed.

Lemma shl64_tag tag : 0 <= tag < 2 ^ 15 -> shl64 tag 49 = tag * 2 ^ 49.
Proof. intros Ht. unfold shl64. rewrite Z.shiftl_mul_pow2 by lia. word_lia. Qed.

Lemma shl64_tag_low tag : shl64 tag 49 mod 2 ^ 49 = 0.
Proof.
  unfold shl64. rewrite Z.shiftl_mul_pow2 by lia. unfold wrap64.
  change (2 ^ 64) with (2 ^ 15 * 2 ^ 49). rewrite Z.mul_mod_distr_r by lia.
  apply Z.mod_mul. lia.
Qed.

Lemma shl64_tag_high tag : shl64 tag 49 / 2 ^ 49 = tag mod 2 ^ 15.
Proof.
  unfold shl64. rewrite Z.shiftl_mul_pow2 by lia. unfold wrap64.
  change (2 ^ 64) with (2 ^ 15 * 2 ^ 49). rewrite Z.mul_mod_distr_r by lia.
  apply Z.div_mul. lia.
Qed.

(** What exclusive-or with a tag does to each half of the word. *)
Lemma trap_low p tag : Z.lxor p (shl64 tag 49) mod 2 ^ 49 = p mod 2 ^ 49.
Proof.
  rewrite lxor_mod_pow2 by lia. by rewrite shl64_tag_low, Z.lxor_0_r.
Qed.
Lemma trap_high p tag :
  Z.lxor p (shl64 tag 49) / 2 ^ 49 = Z.lxor (p / 2 ^ 49) (tag mod 2 ^ 15).
Proof. rewrite lxor_div_pow2 by lia. by rewrite shl64_tag_high. Qed.

(** On a user address, trapping is adding the tag above bit 49. *)
Lemma trap_user_eq a tag :
  user_addr a -> 0 <= tag < 2 ^ 15 -> Z.lxor a (shl64 tag 49) = a + tag * 2 ^ 49.
Proof.
  unfold user_addr. intros Ha Ht. apply (split_low_high 49); [lia| |].
  - rewrite trap_low, Z.mod_add by lia. done.
  - rewrite trap_high, Z.div_add, (Z.div_small a) by lia.
    by rewrite Z.lxor_0_l, Z.add_0_l, Z.mod_small by lia.
Qed.

Section laws.
Context `{TC : TrapConfig}.

Lemma trap_unfold p tag : libcrunch_trap p tag = Z.lxor p (shl64 tag 49).
Proof. unfold libcrunch_trap. by rewrite trap_live. Qed.

Lemma detrap_sext p : libcrunch_detrap p = sext49 p.
Proof. unfold libcrunch_detrap. rewrite trap_live, trap_on. apply sar_shl_sext49. Qed.

Lemma detrap_id p : canonical p -> libcrunch_detrap p = p.
Proof. rewrite detrap_sext. apply sext49_id. Qed.

Lemma detrap_trap_low p tag : libcrunch_detrap (libcrunch_trap p tag) = libcrunch_detrap p.
Proof. rewrite !detrap_sext, trap_unfold. apply sext49_mod, trap_low. Qed.

Lemma detrap_add p q d :
  p mod 2 ^ 49 = q mod 2 ^ 49 -> libcrunch_detrap (p +w d) = libcrunch_detrap (q +w d).
Proof.
  intros Hm. rewrite !detrap_sext. apply sext49_mod. word_lia.
Qed.

Lemma is_trap_ptr_spec p : libcrunch_is_trap_ptr p = negb (sext49 p =? p).
Proof. unfold libcrunch_is_trap_ptr. by rewrite trap_live, trap_on, detrap_sext. Qed.

Lemma is_trap_ptr_canonical p : canonical p -> libcrunch_is_trap_ptr p = false.
Proof. intros Hp. rewrite is_trap_ptr_spec, sext49_id by done. by rewrite Z.eqb_refl. Qed.

Lemma like_trapped_eq m p :
  u64 m -> libcrunch_like_trapped m p = m / 2 ^ 49 * 2 ^ 49 + p mod 2 ^ 49.
Proof.
  intros Hm. unfold libcrunch_like_trapped. rewrite trap_live.
  unfold LIBCRUNCH_TRAP_BOTTOM_MASK. change (Z.shiftl 1 LIBCRUNCH_TRAP_TAG_SHIFT - 1) with (2 ^ 49 - 1).
  rewrite land_low by lia.
  assert (Z.land m (not64 (2 ^ 49 - 1)) = m / 2 ^ 49 * 2 ^ 49) as ->.
  { rewrite <- Z.shiftr_div_pow2, <- Z.shiftl_mul_pow2 by lia.
    apply Z.bits_inj'. intros i Hi. rewrite Z.land_spec.
    destruct (decide (i < 64)).
    - rewrite testbit_not64 by lia. change (2 ^ 49 - 1) with (Z.ones 49).
      destruct (decide (i < 49)).
      + rewrite Z.ones_spec_low, Z.shiftl_spec_low by lia. by rewrite andb_false_r.
      + rewrite Z.ones_spec_high, Z.shiftl_spec, Z.shiftr_spec by lia.
        rewrite andb_true_r. f_equal. lia.
    - rewrite u64_testbit_high, Z.shiftl_spec, Z.shiftr_spec by (done || lia).
      symmetry. apply u64_testbit_high; [done|lia]. }
  by rewrite lor_high_low.
Qed.
End laws.

(** ** Properties *)
Section properties.
Context `{TC : TrapConfig}.

Lemma ptr_trap_bits_div p : libcrunch_ptr_trap_bits p = p / 2 ^ 49 mod 4.
Proof.
  unfold libcrunch_ptr_trap_bits. rewrite trap_live, trap_on, trap_user.
  unfold shr64, LIBCRUNCH_TRAP_TAG_SHIFT, LIBCRUNCH_TRAP_TAG_WIDTH.
  change (Z.shiftl 1 2 - 1) with (2 ^ 2 - 1).
  rewrite land_low, Z.shiftr_div_pow2 by lia. done.
Qed.

Lemma trap_user_add a tag :
  user_addr a -> 0 <= tag < 4 -> libcrunch_trap a tag = a + tag * 2 ^ 49.
Proof. intros Ha Ht. rewrite trap_unfold. apply trap_user_eq; [done|lia]. Qed.

Lemma detrap_user_tagged a tag :
  user_addr a -> libcrunch_detrap (a + tag * 2 ^ 49) = a.
Proof.
  intros Ha. rewrite detrap_sext, (sext49_mod _ a) by (apply Z.mod_add; lia).
  apply sext49_id. auto with word.
Qed.

Lemma trap_trap p t1 t2 :
  libcrunch_trap (libcrunch_trap p t1) t2 = libcrunch_trap p (Z.lxor t1 t2).
Proof.
  rewrite !trap_unfold, Z.lxor_assoc. f_equal. unfold shl64, wrap64.
  by rewrite Z.shiftl_lxor, lxor_mod_pow2 by lia.
Qed.

Lemma detrap_tagged a tag :
  user_addr a -> 0 <= tag < 4 -> libcrunch_detrap (libcrunch_trap a tag) = a.
Proof. intros Ha Ht. rewrite detrap_trap_low. apply detrap_id. auto with word. Qed.

Lemma is_trap_tagged a tag :
  user_addr a -> 0 <= tag < 4 ->
  libcrunch_is_trap_ptr (libcrunch_trap a tag) = negb (tag =? 0).
Proof.
  intros Ha Ht. rewrite is_trap_ptr_spec, <- detrap_sext, detrap_tagged by done.
  rewrite trap_user_add by done. f_equal. zcases; lia.
Qed.

Lemma trap_0 a : libcrunch_trap a 0 = a.
Proof. rewrite trap_unfold. change (shl64 0 49) with 0. apply Z.lxor_0_r. Qed.

Lemma ptr_trap_bits_tagged a tag :
  user_addr a -> 0 <= tag < 4 -> libcrunch_ptr_trap_bits (libcrunch_trap a tag) = tag.
Proof.
  intros Ha Ht. rewrite ptr_trap_bits_div, trap_user_add by done. unfold user_addr in Ha.
  rewrite Z.div_add, Z.div_small, Z.add_0_l by lia. by apply Z.mod_small.
Qed.

(** Pointer arithmetic on a tagged user address moves the address and keeps
    the tag. *)
Lemma trap_add a tag d :
  user_addr a -> user_addr (a + d) -> 0 <= tag < 4 ->
  libcrunch_trap a tag +w d = libcrunch_trap (a + d) tag.
Proof.
  intros Ha Hd Ht. rewrite !trap_user_add by done. unfold user_addr in *.
  word_lia.
Qed.

(** C33. Tagging is a faithful encoding: for every canonical address and every
    tag, [__libcrunch_detrap] recovers the address that [__libcrunch_trap]
    tagged, the pointer counts as trapped exactly when the tag is not zero, and
    on user addresses [__libcrunch_ptr_trap_bits] reads back the two-bit tag. *)
Theorem trap_roundtrip p tag :
  canonical p -> 0 <= tag < 4 ->
  libcrunch_detrap (libcrunch_trap p tag) = p /\
  libcrunch_is_trap_ptr (libcrunch_trap p tag) = negb (tag =? 0) /\
  (user_addr p -> libcrunch_ptr_trap_bits (libcrunch_trap p tag) = tag).
Proof.
  intros Hp Ht. split_and!.
  - by rewrite detrap_trap_low, detrap_id.
  - rewrite is_trap_ptr_spec, <- detrap_sext, detrap_trap_low, detrap_id by done.
    destruct (Z.eqb_spec tag 0) as [->|Hne]; f_equal.
    + rewrite trap_unfold. change (shl64 0 49) with 0. by rewrite Z.lxor_0_r, Z.eqb_refl.
    + apply Z.eqb_neq. intros Heq. apply Hne.
      assert (p / 2 ^ 49 = Z.lxor (p / 2 ^ 49) (tag mod 2 ^ 15)) as Hx
        by (rewrite <- trap_high, <- trap_unfold; congruence).
      rewrite <- (Z.mod_small tag (2 ^ 15)) by lia.
      rewrite <- (Z.lxor_0_l (tag mod _)), <- (Z.lxor_nilpotent (p / 2 ^ 49)).
      by rewrite Z.lxor_assoc, <- Hx.
  - intros Hu. by apply ptr_trap_bits_tagged.
Qed.

(** [__libcrunch_retrap] sets the tag to exactly the one asked for,
    whatever tag the pointer had before, while [__libcrunch_trap] composes tags
    by exclusive or: trapping twice with one tag restores the pointer. *)
Theorem retrap_vs_trap a old new :
  user_addr a -> 0 <= old < 4 -> 0 <= new < 4 ->
  libcrunch_retrap (libcrunch_trap a old) new = libcrunch_trap a new /\
  libcrunch_trap (libcrunch_trap a old) new = libcrunch_trap a (Z.lxor old new).
Proof.
  intros Ha Ho Hn. split; [|apply trap_trap].
  unfold libcrunch_retrap. rewrite trap_live, trap_on, trap_user.
  rewrite !trap_user_add by done.
  assert (Z.land (a + old * 2 ^ 49) (not64 LIBCRUNCH_TRAP_TAG_MASK) = a) as ->.
  { apply Z.bits_inj'. intros i Hi. rewrite Z.land_spec.
    unfold user_addr in Ha.
    assert (Ha64 : Z.testbit a i = if decide (i < 48) then Z.testbit a i else false).
    { case_decide; [done|]. rewrite <- (Z.mod_small a (2 ^ 48)) by lia.
      apply Z.mod_pow2_bits_high. lia. }
    assert (Hd : a + old * 2 ^ 49 = Z.lxor a (shl64 old 49))
      by (symmetry; apply trap_user_eq; [done|lia]).
    rewrite Hd, Z.lxor_spec, shl64_tag, Ha64 by lia.
    destruct (decide (i < 64)); cycle 1.
    { rewrite decide_False by lia. rewrite (u64_testbit_high (not64 _)); [apply andb_false_r| |lia].
      vm_compute. by split. }
    rewrite testbit_not64 by lia.
    change LIBCRUNCH_TRAP_TAG_MASK with (3 * 2 ^ 49).
    destruct (decide (i < 49)).
    - rewrite !Z.mul_pow2_bits_low by lia. by rewrite xorb_false_r, andb_true_r.
    - rewrite decide_False by lia. rewrite !Z.mul_pow2_bits by lia.
      assert (i = 49 \/ i = 50 \/ 51 <= i) as [->|[->|Hge]] by lia.
      + by rewrite andb_false_r.
      + by rewrite andb_false_r.
      + rewrite <- (Z.mod_small old (2 ^ 2)) by lia.
        by rewrite Z.mod_pow2_bits_high by lia. }
  rewrite shl64_tag, Z.lor_comm, <- (Z.mod_small a (2 ^ 49)) by (unfold user_addr in Ha; lia).
  rewrite lor_high_low by lia. lia.
Qed.

(** [__libcrunch_like_trapped] transplants the tag of one pointer onto the
    address of another: the result has the address bits of the second and the
    tag of the first. *)
Theorem like_trapped_transplants m p :
  u64 m ->
  libcrunch_detrap (libcrunch_like_trapped m p) = libcrunch_detrap p /\
  libcrunch_ptr_trap_bits (libcrunch_like_trapped m p) = libcrunch_ptr_trap_bits m.
Proof.
  intros Hm. rewrite like_trapped_eq by done. split.
  - rewrite !detrap_sext. apply sext49_mod.
    by rewrite Z.add_comm, Z.mod_add, Z.mod_mod by lia.
  - rewrite !ptr_trap_bits_div, Z.add_comm, Z.div_add by lia.
    by rewrite Z.div_small, Z.add_0_l by (apply Z.mod_pos_bound; lia).
Qed.

(** The fault handler's register fix-up, although written with an unsigned
    shift, agrees with [__libcrunch_detrap] on every tagged user pointer, and
    differs from it exactly on addresses with bit 48 set. *)
Theorem fixup_is_detrap p :
  u64 p ->
  fixup_value p = p mod 2 ^ 49 /\
  (fixup_value p = libcrunch_detrap p <-> p mod 2 ^ 49 < 2 ^ 48).
Proof.
  intros Hp.
  assert (fixup_value p = p mod 2 ^ 49) as ->.
  { unfold fixup_value, shr64, shl64, LIBCRUNCH_TRAP_TAG_SHIFT, wrap64. change (8 * 8 - 49) with 15.
    rewrite Z.shiftl_mul_pow2 by lia. change (2 ^ 64) with (2 ^ 49 * 2 ^ 15).
    rewrite Z.mul_mod_distr_r, Z.shiftr_div_pow2, Z.div_mul by lia. done. }
  split; [done|]. rewrite detrap_sext. unfold sext49.
  destruct (Z.ltb_spec (p mod 2 ^ 49) (2 ^ 48)); lia.
Qed.
End properties.

Lemma trap_roundtrip_witness :
  canonical 0x2aaaaaaab000 /\
  @libcrunch_detrap config_p (@libcrunch_trap config_p 0x2aaaaaaab000 1) = 0x2aaaaaaab000.
Proof.
  split; [by left|]. apply (@trap_roundtrip config_p _ 0x2aaaaaaab000 1); [by left|lia].
Defined.

Lemma retrap_vs_trap_witness :
  @libcrunch_retrap config_p (@libcrunch_trap config_p 0x7fff00000010 3) 1 =
  @libcrunch_trap config_p 0x7fff00000010 1.
Proof. apply (@retrap_vs_trap config_p _ 0x7fff00000010 3 1); [by split|lia|lia]. Defined.

Lemma like_trapped_transplants_witness :
  @libcrunch_detrap config_p
    (@libcrunch_like_trapped config_p (@libcrunch_trap config_p 0x1000 1) 0x2000) =
  @libcrunch_detrap config_p 0x2000.
Proof.
  apply (@like_trapped_transplants config_p _ (@libcrunch_trap config_p 0x1000 1) 0x2000).
  by split.
Defined.

Lemma fixup_is_detrap_witness :
  u64 0x4000000001234 /\ fixup_value 0x4000000001234 = 0x1234.
Proof.
  split; [unfold u64; lia|].
  rewrite (proj1 (@fixup_is_detrap config_p _ 0x4000000001234 ltac:(unfold u64; lia))).
  vm_compute. reflexivity.
Defined.
