(* ===== verification/Bounds.v ===== *)
(** * Bounds values

    [struct __libcrunch_bounds_s] and its constructors and accessors
    ([include/libcrunch_cil_inlines.h]).  A bound is a base and a size; the
    width of the two fields depends on the configuration: a full base with a
    32-bit or 64-bit size, or (word-size bounds) the low halves of both.  The
    constructor for word-size bounds swaps the two; [word_bounds] is what it
    means to make. *)
From S2P Require Import Prelude Config TrapPtr.

Record bounds := Bounds { base : Z; size : Z }.
#[export] Instance bounds_eq_dec : EqDecision bounds.
Proof. solve_decision. Defined.

(** [__clear_upper_32] and [__clear_lower_32]. *)
Definition clear_upper_32 (arg : Z) : Z := Z.land arg (2 ^ 32 - 1).
Definition clear_lower_32 (arg : Z) : Z := shl64 (shr64 arg 32) 32.

Section operations.
Context `{Config}.

(** The conversion of an [unsigned long] into the [size] field. *)
Definition to_size (x : Z) : Z :=
  if wordsize_bounds then wrap32 x else if long_size then x else wrap32 x.

(** The initialisers give the members in order: a word-size bound has its size
    first, the initialiser for it does not. *)
Definition make_bounds (b limit : Z) : bounds :=
  if wordsize_bounds then {| size := to_size (clear_upper_32 b); base := wrap32 (limit -w b) |}
  else {| base := b; size := to_size (limit -w b) |}.

Definition libcrunch_max_bounds (ptr : Z) : bounds :=
  if wordsize_bounds then
    make_bounds (clear_lower_32 ptr) (clear_lower_32 ptr +w (2 ^ 32 - 1))
  else make_bounds 0 (2 ^ 64 - 1).

Definition libcrunch_get_base (bnds : bounds) (derivedfrom : Z) : Z :=
  if wordsize_bounds then
    if no_denorm_bounds || (base bnds <=? clear_upper_32 derivedfrom) then
      let ptr := libcrunch_detrap derivedfrom in
      clear_lower_32 ptr +w base bnds
    else (clear_lower_32 derivedfrom -w 0x100000000) +w base bnds
  else base bnds.

Definition libcrunch_get_size (bnds : bounds) (derivedfrom : Z) : Z := size bnds.

Definition libcrunch_get_limit (bnds : bounds) (derivedfrom : Z) : Z :=
  if wordsize_bounds then
    libcrunch_get_base bnds derivedfrom +w libcrunch_get_size bnds derivedfrom
  else base bnds +w size bnds.

Definition libcrunch_make_invalid_bounds (ptr : Z) : bounds :=
  if wordsize_bounds then {| base := clear_upper_32 ptr; size := 0 |}
  else {| base := ptr; size := 0 |}.

Definition libcrunch_bounds_invalid (bnds : bounds) (ptr : Z) : bool :=
  size bnds =? 0.

Definition libcrunch_valid_bounds_equal (bounds1 bounds2 : bounds) : bool :=
  (base bounds1 =? base bounds2) && (size bounds1 =? size bounds2).
End operations.

(** The unsigned-subtraction test of Austin et al. that every check of the
    program reduces to: [addr - base < size] on [unsigned long]. *)
Definition austin (addr b sz : Z) : bool := (addr -w b) <? sz.

Lemma austin_spec addr b sz :
  u64 addr -> u64 b -> 0 <= sz -> b + sz <= 2 ^ 64 ->
  austin addr b sz = true <-> b <= addr < b + sz.
Proof.
  intros Ha Hb Hs Hl. unfold austin. rewrite Z.ltb_lt.
  destruct (decide (b <= addr)).
  - rewrite sub64_exact by done. lia.
  - rewrite sub64_borrow by (done || lia). unfold u64 in *. lia.
Qed.

(** One past the end is the only other address at distance [sz]. *)
Lemma austin_limit addr b sz :
  u64 addr -> u64 b -> 0 <= sz -> b + sz < 2 ^ 64 ->
  (addr -w b) = sz <-> addr = b + sz.
Proof.
  intros Ha Hb Hs Hl. destruct (decide (b <= addr)).
  - rewrite sub64_exact by done. lia.
  - rewrite sub64_borrow by (done || lia). unfold u64 in *. lia.
Qed.

Lemma clear_upper_mod a : clear_upper_32 a = a mod 2 ^ 32.
Proof. unfold clear_upper_32. by rewrite land_low. Qed.

Lemma clear_lower_eq a : u64 a -> clear_lower_32 a = a - a mod 2 ^ 32.
Proof.
  intros Ha. unfold clear_lower_32, shr64, shl64.
  rewrite Z.shiftl_mul_pow2, Z.shiftr_div_pow2 by lia. word_lia.
Qed.

(** The two-field record is exact on wide bounds. *)
Section wide.
Context `{WB : WideBounds}.

Lemma make_bounds_wide b l :
  u64 b -> u64 l -> b <= l -> make_bounds b l = {| base := b; size := l - b |}.
Proof.
  intros Hb Hl Hle. unfold make_bounds, to_size. rewrite wide_word, wide_size.
  by rewrite sub64_exact.
Qed.

Lemma get_base_wide bnds p : libcrunch_get_base bnds p = base bnds.
Proof. unfold libcrunch_get_base. by rewrite wide_word. Qed.

Lemma get_limit_wide bnds p : libcrunch_get_limit bnds p = base bnds +w size bnds.
Proof. unfold libcrunch_get_limit. by rewrite wide_word. Qed.

Lemma max_bounds_wide p :
  libcrunch_max_bounds p = {| base := 0; size := 2 ^ 64 - 1 |}.
Proof.
  unfold libcrunch_max_bounds. rewrite wide_word.
  rewrite make_bounds_wide by (unfold u64; lia). by rewrite Z.sub_0_r.
Qed.

(** With the 64-bit sizes of [bounds-abi], the bounds of every object are
    stored exactly: base and limit are read back whatever pointer is passed
    along, the bounds are invalid exactly when the object is empty, and the
    Austin test on them decides membership of the object. *)
Theorem make_bounds_exact b l p addr :
  u64 b -> u64 l -> u64 addr -> b <= l ->
  libcrunch_get_base (make_bounds b l) p = b /\
  libcrunch_get_limit (make_bounds b l) p = l /\
  (libcrunch_bounds_invalid (make_bounds b l) p = true <-> b = l) /\
  (austin addr (libcrunch_get_base (make_bounds b l) p)
               (libcrunch_get_size (make_bounds b l) p) = true <-> b <= addr < l).
Proof.
  intros Hb Hl Ha Hle. rewrite get_base_wide, get_limit_wide, make_bounds_wide by done.
  unfold libcrunch_bounds_invalid, libcrunch_get_size; cbn [base size].
  split_and!; [done| |rewrite Z.eqb_eq; lia|].
  - word_lia.
  - rewrite austin_spec by (unfold u64 in *; lia || done). lia.
Qed.

(** Maximal bounds let every address through except the last byte of the
    address space, and invalid bounds let none through. *)
Theorem max_and_invalid_bounds p addr :
  u64 addr -> u64 p ->
  (austin addr (libcrunch_get_base (libcrunch_max_bounds p) p)
               (libcrunch_get_size (libcrunch_max_bounds p) p) = true
     <-> addr <> 2 ^ 64 - 1) /\
  libcrunch_bounds_invalid (libcrunch_max_bounds p) p = false /\
  libcrunch_bounds_invalid (libcrunch_make_invalid_bounds p) p = true /\
  austin addr (libcrunch_get_base (libcrunch_make_invalid_bounds p) p)
              (libcrunch_get_size (libcrunch_make_invalid_bounds p) p) = false.
Proof.
  intros Ha Hp. rewrite max_bounds_wide, !get_base_wide.
  unfold libcrunch_make_invalid_bounds, libcrunch_get_size, libcrunch_bounds_invalid.
  rewrite wide_word; cbn [base size]. split_and!; [|done|done|].
  - rewrite austin_spec by (unfold u64 in *; lia). unfold u64 in *. lia.
  - unfold austin. apply Z.ltb_ge, wrap64_u64.
Qed.
End wide.

(** With 32-bit sizes the size field holds the object size modulo 4 GiB:
    objects of a multiple of 4 GiB come out with invalid bounds. *)
Theorem short_size_truncates `{C : Config} b l p :
  wordsize_bounds = false -> long_size = false -> u64 b -> u64 l -> b <= l ->
  libcrunch_get_base (make_bounds b l) p = b /\
  libcrunch_get_size (make_bounds b l) p = (l - b) mod 2 ^ 32 /\
  (libcrunch_bounds_invalid (make_bounds b l) p = true <-> (2 ^ 32 | l - b)).
Proof.
  intros Hw Hs Hb Hl Hle.
  unfold libcrunch_get_base, libcrunch_get_size, libcrunch_bounds_invalid, make_bounds, to_size.
  rewrite Hw, Hs; cbn [base size]. rewrite sub64_exact by done.
  split_and!; [done|done|]. rewrite Z.eqb_eq. unfold wrap32.
  by rewrite Z.mod_divide by lia.
Qed.

(** Word-size bounds: the members as their comments describe them, and the
    reconstruction of the base from its low half. *)
Definition word_bounds (b l : Z) : bounds := {| base := b mod 2 ^ 32; size := l - b |}.

Section word.
Context `{TC : TrapConfig}.
Hypothesis Hword : wordsize_bounds = true.

(** [__make_bounds] gives them the wrong way round: the low half of the base is
    the size, and the size is taken for the low half of the base. *)
Theorem word_make_bounds_swaps b l :
  u64 b -> u64 l -> b <= l -> l - b < 2 ^ 32 ->
  make_bounds b l = Bounds (size (word_bounds b l)) (base (word_bounds b l)).
Proof.
  intros Hb Hl Hle Hlt. unfold make_bounds, to_size, word_bounds. rewrite Hword, clear_upper_mod; cbn [base size].
  rewrite sub64_exact by done. unfold wrap32. rewrite Z.mod_mod, (Z.mod_small (l - b)) by lia. done.
Qed.

Lemma word_base_near b p :
  user_addr b -> user_addr p -> b / 2 ^ 32 = p / 2 ^ 32 ->
  (clear_lower_32 p +w b mod 2 ^ 32) = b.
Proof.
  unfold user_addr. intros Hb Hp Hd. rewrite clear_lower_eq by (unfold u64; lia).
  word_lia.
Qed.

(** With word-size bounds and denormalised bounds supported, the base of
    an object smaller than 4 GiB is recovered from its low 32 bits and any
    untagged pointer from the start of the object to one past its end, also
    when the object straddles a 4 GiB boundary. *)
Theorem word_bounds_roundtrip b l p :
  no_denorm_bounds = false ->
  user_addr b -> user_addr l -> b <= p <= l -> l - b < 2 ^ 32 ->
  libcrunch_get_base (word_bounds b l) p = b /\
  libcrunch_get_limit (word_bounds b l) p = l.
Proof.
  intros Hden Hb Hl Hp Hlt.
  assert (libcrunch_get_base (word_bounds b l) p = b) as Hbase.
  { unfold libcrunch_get_base, word_bounds. rewrite Hword, Hden; cbn [base size orb].
    rewrite ?clear_upper_mod. unfold user_addr in *.
    destruct (Z.leb_spec (b mod 2 ^ 32) (p mod 2 ^ 32)).
    - rewrite detrap_id by (left; lia). apply word_base_near; unfold user_addr; mod_lia.
    - rewrite clear_lower_eq by (unfold u64; lia). word_lia. }
  split; [done|]. unfold libcrunch_get_limit. rewrite Hword, Hbase.
  unfold libcrunch_get_size, word_bounds. cbn [size].
  unfold user_addr in *. word_lia.
Qed.

(** Without denormalised bounds ([LIBCRUNCH_NO_DENORM_BOUNDS], which
    [crunchbwscc] passes) the base is recovered exactly when the pointer lies
    in the same 4 GiB page as the start of the object, and is 4 GiB too high
    when the object straddles a boundary between them. *)
Theorem word_bounds_no_denorm b l p :
  no_denorm_bounds = true ->
  user_addr b -> user_addr l -> b <= p <= l -> l - b < 2 ^ 32 ->
  libcrunch_get_base (word_bounds b l) p =
    if b / 2 ^ 32 =? p / 2 ^ 32 then b else b + 2 ^ 32.
Proof.
  intros Hden Hb Hl Hp Hlt.
  unfold libcrunch_get_base, word_bounds. rewrite Hword, Hden; cbn [base size orb].
  rewrite ?clear_upper_mod. unfold user_addr in *. rewrite detrap_id by (left; lia).
  destruct (Z.eqb_spec (b / 2 ^ 32) (p / 2 ^ 32)) as [Heq|Hne].
  - apply word_base_near; unfold user_addr; lia.
  - rewrite clear_lower_eq by (unfold u64; lia). word_lia.
Qed.
End word.

Lemma make_bounds_exact_witness :
  @libcrunch_get_base config_p (@make_bounds config_p 0x1000 0x1040) 0x1010 = 0x1000.
Proof.
  apply (@make_bounds_exact config_p _ 0x1000 0x1040 0x1010 0x1010); unfold u64; lia.
Defined.

Lemma max_and_invalid_bounds_witness :
  @libcrunch_bounds_invalid (@libcrunch_max_bounds config_p 0x1000) 0x1000 = false.
Proof. apply (@max_and_invalid_bounds config_p _ 0x1000 0x2000); unfold u64; lia. Defined.

(** The default field widths of the header, when no ABI macro is given. *)
Definition config_short_size : Config := {|
  noop_inlines := false; wordsize_bounds := false; long_size := false;
  no_denorm_bounds := false; using_trap_ptrs := true;
  using_trap_pointers := false; kernel_pointers := false;
  check_derive := true; no_split_path := false; one_past_in_primary := false;
  abort_on_invalid_derive := false; abort_on_oob_deref := false;
  no_pointer_type_info := false; no_shadow_space := false;
  no_bounds_stack := false; keep_expensive_counts := false |}.

(** Word-size bounds with denormalised bounds, the header's default for
    [LIBCRUNCH_WORDSIZE_BOUNDS]. *)
Definition config_word_denorm : Config := {|
  noop_inlines := false; wordsize_bounds := true; long_size := false;
  no_denorm_bounds := false; using_trap_ptrs := true;
  using_trap_pointers := false; kernel_pointers := false;
  check_derive := true; no_split_path := false; one_past_in_primary := false;
  abort_on_invalid_derive := false; abort_on_oob_deref := false;
  no_pointer_type_info := false; no_shadow_space := false;
  no_bounds_stack := false; keep_expensive_counts := false |}.
#[export] Instance config_word_denorm_trap : TrapConfig config_word_denorm.
Proof. repeat split. Qed.
#[export] Instance config_crunchbwscc_trap : TrapConfig config_crunchbwscc.
Proof. repeat split. Qed.

(** A 4 GiB object. *)
Lemma short_size_truncates_witness :
  @libcrunch_bounds_invalid (@make_bounds config_short_size 0x1000 0x100001000) 0x1000 = true.
Proof.
  apply (@short_size_truncates config_short_size 0x1000 0x100001000 0x1000);
    [done|done|unfold u64; lia|unfold u64; lia|lia|by exists 1].
Defined.

(** A 32-byte object across a 4 GiB boundary, seen from its second half. *)
Lemma word_bounds_roundtrip_witness :
  @libcrunch_get_base config_word_denorm
    (word_bounds 0x2fffffff0 0x300000010) 0x300000008 = 0x2fffffff0.
Proof.
  apply (@word_bounds_roundtrip config_word_denorm _ eq_refl 0x2fffffff0 0x300000010 0x300000008);
    [done|unfold user_addr; lia|unfold user_addr; lia|lia|lia].
Defined.

(** A 64-byte object at 0x12340: the bounds made for it do not contain it. *)
Lemma word_make_bounds_swaps_witness :
  @make_bounds config_crunchbwscc 0x12340 0x12380 = Bounds 0x40 0x12340.
Proof.
  apply (@word_make_bounds_swaps config_crunchbwscc eq_refl 0x12340 0x12380); unfold u64; lia.
Defined.

Lemma word_bounds_no_denorm_witness :
  @libcrunch_get_base config_crunchbwscc
    (word_bounds 0x2fffffff0 0x300000010) 0x300000008 = 0x3fffffff0.
Proof.
  apply (@word_bounds_no_denorm config_crunchbwscc _ eq_refl 0x2fffffff0 0x300000010 0x300000008);
    [done|unfold user_addr; lia|unfold user_addr; lia|lia|lia].
Defined.
