(* ===== verification/Derive.v ===== *)
(** * Checks on pointer derivation and dereference

    [__primary_check_derive_ptr], [__secondary_check_derive_ptr],
    [__full_check_derive_ptr] and [__check_deref] of
    [include/libcrunch_cil_inlines.h].  What the checks need from the rest of
    the runtime (reporting, counters, fetching bounds that are not at hand) is
    the interface [DeriveEnv]; [Fetch.v] implements it. *)
From S2P Require Import Prelude Config TrapPtr Bounds.

(** The effects of a check on the state [St] of the runtime; [U] is the type
    of pointers to [struct uniqtype]. *)
Class DeriveEnv (St U : Type) := {
  count_ptr_derivation : St -> St;
  count_ptr_deref : St -> St;
  count_transition : St -> St;
  bounds_error : St -> Z -> Z -> bounds -> St;
  soft_deref_error_at : St -> Z -> bounds -> St;
  fetch_bounds_ool_to_use : St -> Z -> Z -> U -> outcome (St * bounds);
}.

Section checks.
Context `{Config} {St U : Type} `{DeriveEnv St U}.

Definition primary_check_derive_ptr (st : St) (derived derivedfrom : Z)
    (derivedfrom_bounds : bounds) : bool * Z * St :=
  let st := if keep_expensive_counts then count_ptr_derivation st else st in
  if noop_inlines then (true, derived, st)
  else if negb check_derive then (true, derived, st)
  else
    let addr := derived in
    let '(b, like_trapped_base) :=
      if wordsize_bounds then
        let like_trapped_base :=
          Z.lor (clear_lower_32 derivedfrom) (base derivedfrom_bounds) in
        (libcrunch_detrap like_trapped_base, like_trapped_base)
      else
        let b := libcrunch_get_base derivedfrom_bounds derivedfrom in
        (b, libcrunch_like_trapped derivedfrom b) in
    let sz := libcrunch_get_size derivedfrom_bounds derivedfrom in
    let '(success, derived) :=
      if no_split_path && using_trap_ptrs then
        if (addr -w like_trapped_base) <? sz then (true, libcrunch_detrap derived)
        else if (addr -w like_trapped_base) =? sz
        then (true, libcrunch_trap derived LIBCRUNCH_TRAP_ONE_PAST)
        else (false, derived)
      else if using_trap_pointers then
        if one_past_in_primary then
          ((addr -w b) <=? sz,
           if (addr -w b) =? sz
           then libcrunch_trap derived LIBCRUNCH_TRAP_ONE_PAST else derived)
        else ((addr -w b) <? sz, derived)
      else ((addr -w b) <? sz, derived) in
    let st := if no_split_path && negb success
              then bounds_error st derived derivedfrom derivedfrom_bounds else st in
    (success, derived, st).

(** The result of a check: the verdict, the new value of [*p_derived], the new
    value of [*p_derivedfrom_bounds] and the state. *)
Definition secondary_check_derive_ptr (st : St) (derived derivedfrom : Z)
    (derivedfrom_bounds : bounds) (t : U) : outcome (bool * Z * bounds * St) :=
  if noop_inlines then Ret (true, derived, derivedfrom_bounds, st)
  else if no_split_path then Abort
  else
    let pre_detrap_addr := derived in
    let addr := libcrunch_detrap derived in
    let derivedfrom_trapped := libcrunch_is_trap_ptr derivedfrom in
    let derivedfrom :=
      if wordsize_bounds then libcrunch_detrap derivedfrom else derivedfrom in
    let b := libcrunch_get_base derivedfrom_bounds derivedfrom in
    let naive_base :=
      if wordsize_bounds then libcrunch_get_base derivedfrom_bounds derived else b in
    let sz := libcrunch_get_size derivedfrom_bounds derivedfrom in
    if negb (sz <=? (pre_detrap_addr -w naive_base)) then Unreachable
    else
      '(st, derivedfrom_bounds) ←
        (if libcrunch_bounds_invalid derivedfrom_bounds derivedfrom
         then fetch_bounds_ool_to_use st derivedfrom derived t
         else Ret (st, derivedfrom_bounds));
      if libcrunch_bounds_invalid derivedfrom_bounds derivedfrom then Unreachable
      else
        let b := libcrunch_get_base derivedfrom_bounds derivedfrom in
        let sz := libcrunch_get_size derivedfrom_bounds derivedfrom in
        if (addr -w b) <? sz then
          Ret (true, if derivedfrom_trapped then addr else derived,
               derivedfrom_bounds, st)
        else if using_trap_ptrs && ((addr -w b) =? sz) then
          Ret (true, libcrunch_trap derived LIBCRUNCH_TRAP_ONE_PAST,
               derivedfrom_bounds, st)
        else
          let st := bounds_error st derived derivedfrom derivedfrom_bounds in
          if abort_on_invalid_derive then Abort
          else if using_trap_ptrs then
            Ret (false, libcrunch_trap derived LIBCRUNCH_TRAP_INVALID,
                 derivedfrom_bounds, st)
          else Ret (false, derived, derivedfrom_bounds, st).

Definition full_check_derive_ptr (st : St) (derived derivedfrom : Z)
    (derivedfrom_bounds : bounds) (t : U) : outcome (bool * Z * bounds * St) :=
  if noop_inlines then Ret (true, derived, derivedfrom_bounds, st)
  else if negb check_derive then Ret (true, derived, derivedfrom_bounds, st)
  else
    let '(ok, derived, st) :=
      primary_check_derive_ptr st derived derivedfrom derivedfrom_bounds in
    if ok then
      if libcrunch_bounds_invalid derivedfrom_bounds derivedfrom then Unreachable
      else if negb no_split_path && libcrunch_is_trap_ptr derivedfrom then Unreachable
      else Ret (true, derived, derivedfrom_bounds, st)
    else secondary_check_derive_ptr st derived derivedfrom derivedfrom_bounds t.

Definition check_deref (st : St) (ptr : Z) (ptr_bounds : bounds) : outcome (bool * St) :=
  let st := if keep_expensive_counts then count_ptr_deref st else st in
  if using_trap_ptrs then Ret (true, st)
  else
    let b := libcrunch_get_base ptr_bounds ptr in
    let sz := libcrunch_get_size ptr_bounds ptr in
    if (ptr -w b) <? sz then Ret (true, st)
    else
      let st := soft_deref_error_at st ptr ptr_bounds in
      if abort_on_oob_deref then Abort else Ret (false, st).

(** The markers that record a jump from the primary to the secondary path. *)
Definition primary_secondary_derive_transition (st : St) : outcome St :=
  if no_split_path then Abort else Ret (count_transition st).
Definition primary_secondary_deref_transition (st : St) : outcome St :=
  if no_split_path then Abort else Ret (count_transition st).
End checks.

(** ** The abstract machine

    A pointer into (or out of) an object [[b, l)] is an address and a tag.
    Deriving a pointer at address [a'] from one with tag [tag] gives the tag
    [next_tag] and the verdict [in_reach]. *)
Definition in_object (b l a : Z) : bool := (b <=? a) && (a <? l).
Definition in_reach (b l a : Z) : bool := (b <=? a) && (a <=? l).
Definition next_tag (b l a' tag : Z) : Z :=
  if in_object b l a' then 0
  else if a' =? l then Z.lxor tag LIBCRUNCH_TRAP_ONE_PAST
  else Z.lxor tag LIBCRUNCH_TRAP_INVALID.

(** One derivation by a signed byte offset [d] that stays in user addresses. *)
Inductive derive_step (b l : Z) : Z * Z -> Z * Z -> Prop :=
| derive_step_intro a tag d :
    user_addr (a + d) ->
    derive_step b l (a, tag) (a + d, next_tag b l (a + d) tag).

(** The same machine when no out-of-bounds (or one-past) pointer is used to
    derive another one. *)
Inductive tame_step (b l : Z) : Z * Z -> Z * Z -> Prop :=
| tame_step_intro a tag d :
    user_addr (a + d) ->
    in_object b l a || in_object b l (a + d) = true ->
    tame_step b l (a, tag) (a + d, next_tag b l (a + d) tag).

Lemma next_tag_range b l a tag : 0 <= tag < 4 -> 0 <= next_tag b l a tag < 4.
Proof.
  intros Ht. unfold next_tag, LIBCRUNCH_TRAP_ONE_PAST, LIBCRUNCH_TRAP_INVALID.
  assert (tag = 0 \/ tag = 1 \/ tag = 2 \/ tag = 3) as [->|[->|[->| ->]]] by lia;
    destruct (in_object b l a), (a =? l); by split.
Qed.

Lemma in_object_spec b l a : reflect (b <= a < l) (in_object b l a).
Proof. apply iff_reflect. unfold in_object. lia. Qed.

Lemma in_reach_spec b l a : reflect (b <= a <= l) (in_reach b l a).
Proof. apply iff_reflect. unfold in_reach. lia. Qed.

Lemma lxor_tags t u : 0 <= t < 4 -> 0 <= u < 4 -> 0 <= Z.lxor t u < 4.
Proof.
  intros Ht Hu.
  assert (t = 0 \/ t = 1 \/ t = 2 \/ t = 3) as [->|[->|[->| ->]]] by lia;
  assert (u = 0 \/ u = 1 \/ u = 2 \/ u = 3) as [->|[->|[->| ->]]] by lia;
    by split.
Qed.

(** ** Split-path configurations *)
Section split.
Context `{SC : SplitConfig} {St U : Type} `{!DeriveEnv St U}.
Implicit Types (st : St) (t : U) (B : bounds).

Lemma primary_split st d p B :
  primary_check_derive_ptr st d p B = (austin d (base B) (size B), d, st).
Proof.
  unfold primary_check_derive_ptr, austin.
  rewrite split_counts, trap_live, split_derive, wide_word, split_path, split_spelling.
  rewrite get_base_wide. done.
Qed.

(** The object bounds of the derived-from pointer, and a tagged pointer. *)
Definition object_bounds (b l : Z) : bounds := {| base := b; size := l - b |}.

Lemma tagged_not_in_bounds b l a tag :
  0 <= b < l -> user_addr l -> user_addr a -> 0 < tag < 4 ->
  austin (libcrunch_trap a tag) b (l - b) = false.
Proof.
  intros Hb Hl Ha Ht. apply not_true_is_false.
  rewrite trap_user_add by (done || lia). unfold user_addr in *.
  rewrite austin_spec by (unfold u64; lia). lia.
Qed.

(** The verdict of the secondary check on the detagged address, once valid
    bounds are at hand. *)
Lemma secondary_split st a' tag' p B t :
  user_addr a' -> 0 <= tag' < 4 ->
  0 <= base B -> 0 < size B -> base B + size B < 2 ^ 48 ->
  austin (libcrunch_trap a' tag') (base B) (size B) = false ->
  secondary_check_derive_ptr st (libcrunch_trap a' tag') p B t =
    if in_object (base B) (base B + size B) a' then
      Ret (true, if libcrunch_is_trap_ptr p then a' else libcrunch_trap a' tag', B, st)
    else if a' =? base B + size B then
      Ret (true, libcrunch_trap a' (Z.lxor tag' LIBCRUNCH_TRAP_ONE_PAST), B, st)
    else if abort_on_invalid_derive then Abort
    else Ret (false, libcrunch_trap a' (Z.lxor tag' LIBCRUNCH_TRAP_INVALID), B,
              bounds_error st (libcrunch_trap a' tag') p B).
Proof.
  intros Ha Ht Hb Hs Hl Hprim. unfold secondary_check_derive_ptr.
  rewrite trap_live, split_path, wide_word, trap_on, get_base_wide. cbn zeta.
  unfold libcrunch_get_size, libcrunch_bounds_invalid.
  unfold austin in Hprim. apply Z.ltb_ge in Hprim.
  rewrite (proj2 (Z.leb_le _ _)) by done. rewrite (proj2 (Z.eqb_neq (size B) 0)) by lia.
  cbn [negb mbind outcome_bind]. rewrite (proj2 (Z.eqb_neq (size B) 0)) by lia.
  rewrite get_base_wide, detrap_tagged, !trap_trap by done.
  pose proof (austin_spec a' (base B) (size B)) as Hin. unfold austin in Hin.
  unfold user_addr in Ha. rewrite Z.ltb_lt in Hin.
  destruct (in_object_spec (base B) (base B + size B) a') as [Hio|Hio].
  - rewrite (proj2 (Z.ltb_lt _ _)) by (apply Hin; unfold u64; lia). done.
  - destruct (Z.ltb_spec (a' -w base B) (size B)) as [Hlt|Hge].
    { exfalso. apply Hio, Hin; unfold u64; lia. }
    pose proof (austin_limit a' (base B) (size B) ltac:(unfold u64; lia)
      ltac:(unfold u64; lia) ltac:(lia) ltac:(lia)) as Hlim.
    cbn [andb]. destruct (Z.eqb_spec (a' -w base B) (size B)) as [He|He];
      destruct (Z.eqb_spec a' (base B + size B)) as [He'|He']; try tauto.
Qed.

(** The full check on tagged pointers follows the abstract machine. *)
Lemma full_check_split st b l a tag a' t :
  0 <= b < l -> user_addr l -> user_addr a -> user_addr a' -> 0 <= tag < 4 ->
  full_check_derive_ptr st (libcrunch_trap a' tag) (libcrunch_trap a tag)
      (object_bounds b l) t =
    if in_reach b l a' then
      Ret (true, libcrunch_trap a' (next_tag b l a' tag), object_bounds b l, st)
    else if abort_on_invalid_derive then Abort
    else Ret (false, libcrunch_trap a' (next_tag b l a' tag), object_bounds b l,
              bounds_error st (libcrunch_trap a' tag) (libcrunch_trap a tag)
                (object_bounds b l)).
Proof.
  intros Hb Hl Ha Ha' Ht. unfold full_check_derive_ptr.
  rewrite trap_live, split_derive, primary_split, split_path.
  destruct (austin _ _ _) eqn:Hprim.
  - destruct (decide (tag = 0)) as [->|Hne].
    + rewrite trap_0 in *. unfold object_bounds in *; cbn [base size] in Hprim.
      unfold user_addr in *. apply austin_spec in Hprim; [|unfold u64; lia..].
      unfold libcrunch_bounds_invalid; cbn [size].
      rewrite (proj2 (Z.eqb_neq _ _)) by lia.
      rewrite (trap_0 a), is_trap_ptr_canonical by (left; lia). cbn.
      unfold next_tag. destruct (in_object_spec b l a'), (in_reach_spec b l a'); try lia.
      by rewrite trap_0.
    + exfalso. unfold object_bounds in Hprim; cbn in Hprim.
      rewrite tagged_not_in_bounds in Hprim by (done || lia). done.
  - assert (user_addr b) as Hub by (unfold user_addr in *; lia).
    cbn. rewrite secondary_split; try done; unfold object_bounds; cbn [base size];
      try (unfold user_addr in *; lia).
    replace (b + (l - b)) with l by lia. unfold next_tag.
    destruct (in_object_spec b l a'), (in_reach_spec b l a'); try lia.
    + rewrite is_trap_tagged by done. destruct (Z.eqb_spec tag 0) as [->|]; cbn; by rewrite ?trap_0.
    + rewrite (proj2 (Z.eqb_eq _ _)) by lia. done.
    + rewrite (proj2 (Z.eqb_neq _ _)) by lia. done.
Qed.

Lemma full_check_untagged st b l a a' t :
  0 <= b < l -> user_addr l -> user_addr a -> user_addr a' ->
  full_check_derive_ptr st a' a (object_bounds b l) t =
    if in_reach b l a' then
      Ret (true, libcrunch_trap a' (next_tag b l a' 0), object_bounds b l, st)
    else if abort_on_invalid_derive then Abort
    else Ret (false, libcrunch_trap a' (next_tag b l a' 0), object_bounds b l,
              bounds_error st a' a (object_bounds b l)).
Proof.
  intros Hb Hl Ha Ha'.
  pose proof (full_check_split st b l a 0 a' t Hb Hl Ha Ha' ltac:(lia)) as Hc.
  by rewrite !trap_0 in Hc.
Qed.
End split.

(** ** Single-path configurations ([LIBCRUNCH_NO_SPLIT_PATH]) *)
Class SinglePathConfig (C : Config) : Prop := {
  single_trap :: TrapConfig C;
  single_wide :: WideBounds C;
  single_derive : check_derive = true;
  single_path : no_split_path = true;
  single_counts : keep_expensive_counts = false;
}.
#[export] Instance config_f_single : SinglePathConfig config_f.
Proof. repeat split. Qed.
#[export] Instance config_F_single : SinglePathConfig config_F.
Proof. repeat split. Qed.
#[export] Instance config_T_single : SinglePathConfig config_T.
Proof. repeat split. Qed.

Section single.
Context `{SP : SinglePathConfig} {St U : Type} `{!DeriveEnv St U}.

Lemma like_trapped_tagged a tag b :
  user_addr a -> user_addr b -> 0 <= tag < 4 ->
  libcrunch_like_trapped (libcrunch_trap a tag) b = b + tag * 2 ^ 49.
Proof.
  intros Ha Hb Ht. rewrite trap_user_add by done. unfold user_addr in *.
  rewrite like_trapped_eq by (unfold u64; lia).
  rewrite Z.div_add, (Z.div_small a), (Z.mod_small b) by lia. lia.
Qed.

Lemma full_check_single (st : St) b l a tag a' (t : U) :
  0 <= b < l -> user_addr l -> user_addr a -> user_addr a' -> 0 <= tag < 4 ->
  full_check_derive_ptr st (libcrunch_trap a' tag) (libcrunch_trap a tag)
      (object_bounds b l) t =
    if in_reach b l a' then
      Ret (true, libcrunch_trap a' (next_tag b l a' tag), object_bounds b l, st)
    else Abort.
Proof.
  intros Hb Hl Ha Ha' Ht. unfold full_check_derive_ptr, primary_check_derive_ptr.
  rewrite single_counts, trap_live, single_derive, wide_word, single_path, trap_on.
  rewrite get_base_wide. unfold libcrunch_get_size, libcrunch_bounds_invalid, object_bounds.
  cbn [negb andb base size].
  unfold user_addr in *. rewrite like_trapped_tagged by (done || unfold user_addr; lia).
  replace (libcrunch_trap a' tag -w (b + tag * 2 ^ 49)) with (a' -w b)
    by (rewrite trap_user_add by done; unfold sub64; f_equal; lia).
  pose proof (austin_spec a' b (l - b) ltac:(unfold u64; lia) ltac:(unfold u64; lia)
    ltac:(lia) ltac:(lia)) as Hin. unfold austin in Hin.
  pose proof (austin_limit a' b (l - b) ltac:(unfold u64; lia) ltac:(unfold u64; lia)
    ltac:(lia) ltac:(lia)) as Hlim.
  unfold next_tag.
  destruct (Z.ltb_spec (a' -w b) (l - b)) as [Hlt|Hge].
  - destruct (in_object_spec b l a'), (in_reach_spec b l a'); try lia.
    rewrite (proj2 (Z.eqb_neq _ _)) by lia.
    by rewrite detrap_tagged, trap_0 by done.
  - destruct (in_object_spec b l a') as [Hio|Hio].
    { exfalso. assert (false = true) by (apply Hin; lia). done. }
    destruct (Z.eqb_spec (a' -w b) (l - b)) as [He|He].
    + destruct (in_reach_spec b l a'); [|lia].
      rewrite (proj2 (Z.eqb_neq _ _)) by lia.
      rewrite (proj2 (Z.eqb_eq a' l)) by lia. by rewrite trap_trap.
    + destruct (in_reach_spec b l a'); [lia|].
      unfold secondary_check_derive_ptr. by rewrite trap_live, single_path.
Qed.
End single.

(** ** Sequences of derivations *)

(** A program that derives one pointer from the previous one by the byte
    offsets [ds], each step checked against the same bounds. *)
Fixpoint derive_all `{Config} {St U : Type} `{DeriveEnv St U} (st : St) (p : Z)
    (B : bounds) (t : U) (ds : list Z) : outcome (Z * bounds * St) :=
  match ds with
  | [] => Ret (p, B, st)
  | d :: ds =>
      '(_, p', B', st') ← full_check_derive_ptr st (p +w d) p B t;
      derive_all st' p' B' t ds
  end.

(** The addresses visited stay in user space. *)
Fixpoint user_path (a : Z) (ds : list Z) : Prop :=
  match ds with
  | [] => True
  | d :: ds => user_addr (a + d) /\ user_path (a + d) ds
  end.

(** ... and no step goes from outside the object to outside the object. *)
Fixpoint tame_path (b l a : Z) (ds : list Z) : Prop :=
  match ds with
  | [] => True
  | d :: ds => in_object b l a || in_object b l (a + d) = true /\ tame_path b l (a + d) ds
  end.

Fixpoint sum_list (ds : list Z) : Z :=
  match ds with [] => 0 | d :: ds => d + sum_list ds end.

(** The invariant of tame runs: the tag says where the pointer is. *)
Definition well_tagged (b l : Z) (s : Z * Z) : Prop :=
  snd s = if in_object b l (fst s) then 0
          else if fst s =? l then LIBCRUNCH_TRAP_ONE_PAST
          else LIBCRUNCH_TRAP_INVALID.

Lemma tame_step_well_tagged b l s s' :
  tame_step b l s s' -> well_tagged b l s -> well_tagged b l s'.
Proof.
  intros [a tag d Hu Ht]. unfold well_tagged, next_tag; cbn [fst snd]. intros ->.
  destruct (in_object b l (a + d)) eqn:Hd; [done|].
  rewrite orb_false_r in Ht. rewrite Ht. by rewrite !Z.lxor_0_l.
Qed.

Lemma tame_steps_well_tagged b l s s' :
  rtc (tame_step b l) s s' -> well_tagged b l s -> well_tagged b l s'.
Proof. induction 1; eauto using tame_step_well_tagged. Qed.

Lemma tame_is_derive b l s s' : tame_step b l s s' -> derive_step b l s s'.
Proof. intros []. by constructor. Qed.

Section runs.
Context `{SC : SplitConfig} {St U : Type} `{!DeriveEnv St U}.
Hypothesis no_abort : abort_on_invalid_derive = false.

Lemma full_check_offset (st : St) b l a tag d (t : U) :
  0 <= b < l -> user_addr l -> user_addr a -> user_addr (a + d) -> 0 <= tag < 4 ->
  exists st',
  full_check_derive_ptr st (libcrunch_trap a tag +w d) (libcrunch_trap a tag)
      (object_bounds b l) t =
    Ret (in_reach b l (a + d), libcrunch_trap (a + d) (next_tag b l (a + d) tag),
         object_bounds b l, st') /\
  (in_reach b l (a + d) = true -> st' = st).
Proof.
  intros Hb Hl Ha Hd Ht. rewrite trap_add, full_check_split, no_abort by done.
  destruct (in_reach b l (a + d)); eauto. eexists; split; [done|]. by intros [=].
Qed.

Lemma derive_all_run ds : forall (st : St) b l a tag (t : U),
  0 <= b < l -> user_addr l -> user_addr a -> 0 <= tag < 4 -> user_path a ds ->
  exists tag' st',
    derive_all st (libcrunch_trap a tag) (object_bounds b l) t ds =
      Ret (libcrunch_trap (a + sum_list ds) tag', object_bounds b l, st') /\
    0 <= tag' < 4 /\
    rtc (derive_step b l) (a, tag) (a + sum_list ds, tag') /\
    (tame_path b l a ds -> rtc (tame_step b l) (a, tag) (a + sum_list ds, tag')).
Proof.
  induction ds as [|d ds IH]; intros st b l a tag t Hb Hl Ha Ht; cbn.
  - intros _. exists tag, st. rewrite Z.add_0_r. split; [done|].
    split; [done|]. split; [|intros _]; apply rtc_refl.
  - intros [Hd Hp]. destruct (full_check_offset st b l a tag d t) as (st1 & -> & _); try done.
    cbn. destruct (IH st1 b l (a + d) (next_tag b l (a + d) tag) t)
      as (tag' & st' & Hrun & Ht' & Hs & Hw); try done.
    { by apply next_tag_range. }
    rewrite Z.add_assoc. exists tag', st'.
    split; [done|]. split; [done|]. split.
    + eapply rtc_l; [by constructor|done].
    + intros [Ht1 Ht2]. eapply rtc_l; [by constructor|auto].
Qed.
End runs.

(** ** Properties *)

(** C10. One checked derivation refines the abstract machine in the split-path
    configurations: a pointer to address [a] with tag [tag] moved by [d] bytes
    passes the check exactly when the new address lies in the object or one
    past its end; the stored pointer is then the address with the tag the
    abstract machine gives.  For an address out of reach the program aborts
    where the configuration says so; elsewhere it is reported and comes back
    with a negative verdict and its tag changed by exclusive or with 3: a
    pointer that was untagged comes back tagged 3, but one that was already
    tagged 3 comes back untagged ([double_oob_untraps]). *)
Theorem full_check_split_refines `{SC : SplitConfig} {St U : Type} `{!DeriveEnv St U}
    (st : St) b l a tag d (t : U) :
  0 <= b < l -> user_addr l -> user_addr a -> user_addr (a + d) -> 0 <= tag < 4 ->
  full_check_derive_ptr st (libcrunch_trap a tag +w d) (libcrunch_trap a tag)
      (make_bounds b l) t =
    if in_reach b l (a + d) then
      Ret (true, libcrunch_trap (a + d) (next_tag b l (a + d) tag), make_bounds b l, st)
    else if abort_on_invalid_derive then Abort
    else Ret (false, libcrunch_trap (a + d) (next_tag b l (a + d) tag), make_bounds b l,
              bounds_error st (libcrunch_trap (a + d) tag) (libcrunch_trap a tag)
                (make_bounds b l)).
Proof.
  intros Hb Hl Ha Hd Ht. unfold user_addr in Hl.
  rewrite make_bounds_wide by (unfold u64; lia). rewrite trap_add by done.
  by apply full_check_split.
Qed.


(** Along any sequence of checked derivations through user addresses in
    which no step goes from outside the object to outside it, the program
    neither aborts nor reaches undefined behaviour, the pointer's address is the
    start plus the sum of the offsets, and the final pointer carries a trap tag
    exactly when it is outside the object: one-past pointers carry
    [LIBCRUNCH_TRAP_ONE_PAST], the others [LIBCRUNCH_TRAP_INVALID]. *)
Theorem tame_derivations_tagged `{SC : SplitConfig} {St U : Type} `{!DeriveEnv St U}
    (st : St) b l a (t : U) ds :
  abort_on_invalid_derive = false ->
  0 <= b < l -> user_addr l -> b <= a < l -> user_path a ds -> tame_path b l a ds ->
  exists p st',
    derive_all st a (make_bounds b l) t ds = Ret (p, make_bounds b l, st') /\
    libcrunch_detrap p = a + sum_list ds /\
    libcrunch_is_trap_ptr p = negb (in_object b l (a + sum_list ds)) /\
    (a + sum_list ds = l -> libcrunch_ptr_trap_bits p = LIBCRUNCH_TRAP_ONE_PAST) /\
    (in_reach b l (a + sum_list ds) = false ->
       libcrunch_ptr_trap_bits p = LIBCRUNCH_TRAP_INVALID).
Proof.
  intros Hab Hb Hl Ha Hp Htame.
  assert (user_addr a) as Hua by (unfold user_addr in *; lia).
  destruct (derive_all_run Hab ds st b l a 0 t) as (tag & st' & Hrun & Ht & Hs & Hw);
    [done|done|done|lia|done|]. specialize (Hw Htame).
  assert (user_addr (a + sum_list ds)) as Hue.
  { clear -Hp Hua. revert a Hp Hua. induction ds as [|d ds IH]; cbn; intros a Hp Hua.
    - by rewrite Z.add_0_r.
    - destruct Hp as [Hd Hp]. rewrite Z.add_assoc. by apply IH. }
  rewrite make_bounds_wide by (unfold user_addr, u64 in *; lia).
  rewrite trap_0 in Hrun. eexists _, _. split; [exact Hrun|].
  apply tame_steps_well_tagged in Hw; unfold well_tagged in *; cbn [fst snd] in *.
  2: { destruct (in_object_spec b l a); [done|lia]. }
  rewrite detrap_tagged, is_trap_tagged, ptr_trap_bits_tagged by done.
  split; [done|]. rewrite Hw. destruct (in_object_spec b l (a + sum_list ds)) as [Hi|Hi].
  - split; [done|]. split; [lia|]. destruct (in_reach_spec b l (a + sum_list ds)); [done|lia].
  - destruct (Z.eqb_spec (a + sum_list ds) l) as [->|Hne]; split; try done; split; try done.
    destruct (in_reach_spec b l l); [done|lia].
Qed.

(** Two derivations in a row to addresses out of reach cancel their trap
    tags: the second out-of-bounds pointer is untagged, so that the
    dereference check of the trap-pointer configurations, and the hardware,
    let it through. *)
Theorem double_oob_untraps `{SC : SplitConfig} {St U : Type} `{!DeriveEnv St U}
    (st : St) b l a d1 d2 (t : U) :
  abort_on_invalid_derive = false ->
  0 <= b < l -> user_addr l -> b <= a < l ->
  user_addr (a + d1) -> user_addr (a + d1 + d2) ->
  in_reach b l (a + d1) = false -> in_reach b l (a + d1 + d2) = false ->
  exists st',
    derive_all st a (make_bounds b l) t [d1; d2] =
      Ret (a + d1 + d2, make_bounds b l, st') /\
    libcrunch_is_trap_ptr (a + d1 + d2) = false /\
    check_deref st' (a + d1 + d2) (make_bounds b l) = Ret (true, st').
Proof.
  intros Hab Hb Hl Ha Hd1 Hd2 Ho1 Ho2.
  assert (user_addr a) as Hua by (unfold user_addr in *; lia).
  rewrite make_bounds_wide by (unfold user_addr, u64 in *; lia).
  cbn [derive_all]. change (Bounds b (l - b)) with (object_bounds b l).
  destruct (full_check_offset Hab st b l a 0 d1 t) as (st1 & H1 & _); try done.
  rewrite trap_0 in H1. rewrite H1.
  cbn [mbind outcome_bind].
  destruct (full_check_offset Hab st1 b l (a + d1) (next_tag b l (a + d1) 0) d2 t)
    as (st2 & -> & _); try done; [by apply next_tag_range|].
  cbn [mbind outcome_bind]. exists st2.
  assert (forall x tg, in_reach b l x = false -> next_tag b l x tg = Z.lxor tg 3) as Hnt.
  { intros x tg Hx. unfold next_tag.
    destruct (in_reach_spec b l x); [done|]. destruct (in_object_spec b l x); [lia|].
    by rewrite (proj2 (Z.eqb_neq x l)) by lia. }
  rewrite !Hnt by done. change (Z.lxor (Z.lxor 0 3) 3) with 0. rewrite trap_0.
  split; [done|]. split; [apply is_trap_ptr_canonical; by left|].
  unfold check_deref. by rewrite split_counts, trap_on.
Qed.

(** Deriving the one-past pointer from itself (for instance [p + 0]) passes
    the check and clears the trap tag, because the tag is set with exclusive
    or: the result is an untagged pointer just outside the object. *)
Theorem one_past_rederived_untraps `{SC : SplitConfig} {St U : Type} `{!DeriveEnv St U}
    (st : St) b l (t : U) :
  0 <= b < l -> user_addr l ->
  exists p,
    full_check_derive_ptr st l (l -w 1) (make_bounds b l) t =
      Ret (true, p, make_bounds b l, st) /\
    libcrunch_is_trap_ptr p = true /\
    full_check_derive_ptr st p p (make_bounds b l) t =
      Ret (true, l, make_bounds b l, st).
Proof.
  intros Hb Hl. assert (user_addr (l - 1)) as Hl1 by (unfold user_addr in *; lia).
  rewrite make_bounds_wide by (unfold user_addr, u64 in *; lia).
  rewrite sub64_exact by (unfold user_addr, u64 in *; lia).
  exists (libcrunch_trap l LIBCRUNCH_TRAP_ONE_PAST).
  assert (in_reach b l l = true) as Hr by (destruct (in_reach_spec b l l); [done|lia]).
  assert (forall tg, next_tag b l l tg = Z.lxor tg LIBCRUNCH_TRAP_ONE_PAST) as Hn.
  { intros tg. unfold next_tag. destruct (in_object_spec b l l); [lia|]. by rewrite Z.eqb_refl. }
  split; [|split; [by apply is_trap_tagged|]].
  - change (Bounds b (l - b)) with (object_bounds b l).
    rewrite full_check_untagged by done. by rewrite Hr, Hn.
  - change (Bounds b (l - b)) with (object_bounds b l).
    rewrite full_check_split by done. by rewrite Hr, Hn, trap_0.
Qed.

(** What the full check does with invalid bounds, once they are fetched. *)
Lemma invalid_check_fetches `{SC : SplitConfig} {St U : Type} `{!DeriveEnv St U}
    (st st' : St) q a d (t : U) B' :
  user_addr q -> user_addr a -> user_addr (a + d) ->
  fetch_bounds_ool_to_use st a (a + d) t = Ret (st', B') ->
  full_check_derive_ptr st (a + d) a (libcrunch_make_invalid_bounds q) t =
    (if libcrunch_bounds_invalid B' a then Unreachable
     else if austin (a + d) (base B') (size B') then Ret (true, a + d, B', st')
     else if (a + d -w base B') =? size B'
       then Ret (true, libcrunch_trap (a + d) LIBCRUNCH_TRAP_ONE_PAST, B', st')
     else if abort_on_invalid_derive then Abort
     else Ret (false, libcrunch_trap (a + d) LIBCRUNCH_TRAP_INVALID, B',
               bounds_error st' (a + d) a B')).
Proof.
  intros Hq Ha Hd Hf. unfold full_check_derive_ptr.
  rewrite trap_live, split_derive, primary_split. cbn [negb].
  unfold libcrunch_make_invalid_bounds. rewrite wide_word. cbn [base size].
  assert (austin (a + d) q 0 = false) as ->
    by (apply Z.ltb_ge, wrap64_u64).
  unfold secondary_check_derive_ptr. rewrite trap_live, split_path, wide_word, trap_on.
  rewrite !get_base_wide, is_trap_ptr_canonical, detrap_id by auto with word.
  unfold libcrunch_get_size, libcrunch_bounds_invalid; cbn [base size]. cbn zeta.
  rewrite (proj2 (Z.leb_le 0 _)) by apply wrap64_u64. cbn [negb Z.eqb].
  rewrite Hf. cbn [mbind outcome_bind]. rewrite get_base_wide. done.
Qed.

(** A check that finds its bounds invalid uses the bounds fetched out of
    line: if these are the bounds of the object the pointer points into, the
    check behaves as if it had them from the start and hands them back; if the
    fetch too yields invalid bounds, the check runs into
    [__builtin_unreachable]. *)
Theorem invalid_bounds_are_fetched `{SC : SplitConfig} {St U : Type} `{!DeriveEnv St U}
    (st st' : St) q a d (t : U) B' :
  user_addr q -> user_addr a -> user_addr (a + d) ->
  fetch_bounds_ool_to_use st a (a + d) t = Ret (st', B') ->
  (forall b l, b <= a < l -> 0 <= b -> user_addr l -> B' = make_bounds b l ->
    full_check_derive_ptr st (a +w d) a (libcrunch_make_invalid_bounds q) t =
    full_check_derive_ptr st' (a +w d) a (make_bounds b l) t) /\
  (libcrunch_bounds_invalid B' a = true ->
    full_check_derive_ptr st (a +w d) a (libcrunch_make_invalid_bounds q) t = Unreachable).
Proof.
  intros Hq Ha Hd Hf.
  assert (a +w d = a + d) as Had by (apply wrap64_small; by apply user_u64).
  rewrite Had. pose proof (invalid_check_fetches st st' q a d t B' Hq Ha Hd Hf) as Hinv.
  rewrite Hinv. split; [|by intros ->].
  intros b l Hab Hb Hl ->. unfold user_addr in Hl.
  rewrite make_bounds_wide by (unfold u64; lia).
  change (Bounds b (l - b)) with (object_bounds b l).
  rewrite full_check_untagged by (done || lia).
  unfold libcrunch_bounds_invalid, object_bounds; cbn [base size].
  rewrite (proj2 (Z.eqb_neq (l - b) 0)) by lia.
  pose proof (austin_spec (a + d) b (l - b) ltac:(by apply user_u64)
    ltac:(unfold u64; lia) ltac:(lia) ltac:(lia)) as Hin.
  pose proof (austin_limit (a + d) b (l - b) ltac:(by apply user_u64)
    ltac:(unfold u64; lia) ltac:(lia) ltac:(lia)) as Hlim.
  unfold next_tag.
  destruct (in_object_spec b l (a + d)) as [Hi|Hi].
  - rewrite (proj2 Hin) by lia. destruct (in_reach_spec b l (a + d)); [|lia].
    by rewrite trap_0.
  - destruct (austin (a + d) b (l - b)); [exfalso; assert (true = true) by done; tauto || lia|].
    destruct (Z.eqb_spec (a + d -w b) (l - b)) as [He|He].
    + destruct (in_reach_spec b l (a + d)); [|lia].
      by rewrite (proj2 (Z.eqb_eq (a + d) l)) by lia.
    + destruct (in_reach_spec b l (a + d)); [lia|].
      by rewrite (proj2 (Z.eqb_neq (a + d) l)) by lia.
Qed.

(** C12. Without trap pointers (the SoftBound-like configurations [s] and [S])
    the dereference check passes exactly on addresses of the object, and
    otherwise reports and returns 0, or aborts where configured. *)
Theorem check_deref_spec `{C : Config} `{!WideBounds C} {St U : Type}
    `{!DeriveEnv St U} (st : St) b l p :
  using_trap_ptrs = false -> keep_expensive_counts = false ->
  u64 b -> u64 l -> u64 p -> b <= l ->
  check_deref st p (make_bounds b l) =
    if in_object b l p then Ret (true, st)
    else if abort_on_oob_deref then Abort
    else Ret (false, soft_deref_error_at st p (make_bounds b l)).
Proof.
  intros Ht Hk Hb Hl Hp Hle. unfold check_deref. rewrite Ht, Hk, get_base_wide.
  rewrite make_bounds_wide by done. unfold libcrunch_get_size; cbn [base size].
  pose proof (austin_spec p b (l - b) Hp Hb ltac:(lia) ltac:(unfold u64 in *; lia)) as Hin.
  unfold austin in Hin.
  destruct (in_object_spec b l p), (Z.ltb_spec (p -w b) (l - b)); try done.
  - exfalso. assert (false = true) by (apply Hin; lia). done.
  - exfalso. assert (b <= p < b + (l - b)) by (by apply Hin). lia.
Qed.

(** Without [LIBCRUNCH_CHECK_DERIVE] no derivation is checked, and with
    trap pointers no dereference is either: the macro list of [crunchxcc]
    gives a program with no bounds checks. *)
Theorem unchecked_without_check_derive `{C : Config} {St U : Type} `{!DeriveEnv St U}
    (st : St) derived derivedfrom B (t : U) :
  check_derive = false -> using_trap_ptrs = true -> keep_expensive_counts = false ->
  full_check_derive_ptr st derived derivedfrom B t = Ret (true, derived, B, st) /\
  primary_check_derive_ptr st derived derivedfrom B = (true, derived, st) /\
  check_deref st derived B = Ret (true, st).
Proof.
  intros Hd Ht Hk. unfold full_check_derive_ptr, primary_check_derive_ptr, check_deref.
  rewrite Hd, Ht, Hk. by destruct noop_inlines.
Qed.

(** [LIBCRUNCH_TRAP_ONE_PAST_IN_PRIMARY_CHECK] has no effect: its code is
    guarded by the misspelt macro [LIBCRUNCH_USING_TRAP_POINTERS], so that the
    configurations [p] and [P] check exactly like [m] and [M]. *)
Theorem one_past_in_primary_is_dead {St U : Type} `{!DeriveEnv St U}
    (st : St) derived derivedfrom B (t : U) :
  @full_check_derive_ptr config_p St U _ st derived derivedfrom B t =
  @full_check_derive_ptr config_m St U _ st derived derivedfrom B t /\
  @full_check_derive_ptr config_P St U _ st derived derivedfrom B t =
  @full_check_derive_ptr config_M St U _ st derived derivedfrom B t /\
  @primary_check_derive_ptr config_p St U _ st derived derivedfrom B =
  @primary_check_derive_ptr config_m St U _ st derived derivedfrom B.
Proof. by repeat split. Qed.

(** In the single-path configurations a derivation by zero from a pointer
    whose bounds are not valid passes the inlined test as if it were a
    one-past derivation, and then reaches [__builtin_unreachable]. *)
Theorem single_path_invalid_bounds `{SP : SinglePathConfig} {St U : Type}
    `{!DeriveEnv St U} (st : St) a (t : U) :
  user_addr a ->
  full_check_derive_ptr st a a (libcrunch_make_invalid_bounds a) t = Unreachable.
Proof.
  intros Ha. unfold full_check_derive_ptr, primary_check_derive_ptr.
  rewrite single_counts, trap_live, single_derive, wide_word, single_path, trap_on.
  unfold libcrunch_make_invalid_bounds. rewrite wide_word, get_base_wide.
  unfold libcrunch_get_size, libcrunch_bounds_invalid; cbn [negb andb base size].
  assert (libcrunch_like_trapped a a = a) as ->.
  { rewrite <- (trap_0 a) at 1. rewrite like_trapped_tagged by (done || lia). lia. }
  rewrite sub64_exact by (done || auto with word). by rewrite Z.sub_diag.
Qed.

(** With word-size bounds, deriving an address that is a multiple of 4 GiB
    away from an in-bounds address fails the primary check, yet satisfies the
    bounds that the secondary check reconstructs from the derived pointer, and
    so reaches [__builtin_unreachable] instead of being reported.  (The bounds
    are those meant; [word_make_bounds_swaps] says what [__make_bounds] makes.) *)
Theorem word_bounds_alias_unreachable `{TC : TrapConfig} {St U : Type}
    `{!DeriveEnv St U} (st : St) b l a k (t : U) :
  wordsize_bounds = true -> check_derive = true -> no_split_path = false ->
  using_trap_pointers = false -> keep_expensive_counts = false ->
  user_addr b -> user_addr l -> b <= a < l -> l - b < 2 ^ 32 ->
  b / 2 ^ 32 = (l - 1) / 2 ^ 32 -> user_addr (a + k * 2 ^ 32) -> k <> 0 ->
  full_check_derive_ptr st (a + k * 2 ^ 32) a (word_bounds b l) t = Unreachable.
Proof.
  intros Hw Hd Hs Hp Hk Hb Hl Ha Hlt Hpage Hd' Hk0.
  assert (Hla : a / 2 ^ 32 = b / 2 ^ 32) by (unfold user_addr in *; mod_lia).
  unfold user_addr in *.
  unfold full_check_derive_ptr, primary_check_derive_ptr, word_bounds.
  rewrite Hw, Hk, trap_live, Hd, Hs, Hp. cbn [negb andb base size].
  unfold libcrunch_get_size; cbn [size].
  assert (Hbase : Z.lor (clear_lower_32 a) (b mod 2 ^ 32) = b).
  { rewrite clear_lower_eq by (unfold u64; lia).
    replace (a - a mod 2 ^ 32) with (a / 2 ^ 32 * 2 ^ 32) by mod_lia.
    rewrite lor_high_low by lia. mod_lia. }
  rewrite Hbase, (detrap_id b) by (left; lia).
  destruct (Z.ltb_spec (a + k * 2 ^ 32 -w b) (l - b)) as [Hc|_].
  { exfalso. word_lia. }
  unfold secondary_check_derive_ptr. rewrite Hw, trap_live, Hs. cbn [andb base size].
  unfold libcrunch_get_size, libcrunch_get_base; cbn [base size]. rewrite Hw.
  assert (b mod 2 ^ 32 <= clear_upper_32 (a + k * 2 ^ 32)) as Hcle
    by (rewrite !clear_upper_mod; mod_lia).
  rewrite (proj2 (Z.leb_le _ _) Hcle), orb_true_r.
  rewrite (detrap_id (a + _)) by (left; lia).
  rewrite (clear_lower_eq (a + _)) by (unfold u64; lia).
  destruct (Z.leb_spec (l - b)
    (a + k * 2 ^ 32 -w (a + k * 2 ^ 32 - (a + k * 2 ^ 32) mod 2 ^ 32 +w b mod 2 ^ 32)));
    [|done].
  exfalso. word_lia.
Qed.

(** ** A concrete environment

    The state counts the errors; fetching always finds the object
    [[0x1000, 0x1040)]. *)
#[local] Instance counting_env : DeriveEnv nat unit := {|
  count_ptr_derivation st := st;
  count_ptr_deref st := st;
  count_transition st := st;
  bounds_error st _ _ _ := S st;
  soft_deref_error_at st _ _ := S st;
  fetch_bounds_ool_to_use st _ _ _ := Ret (st, Bounds 0x1000 0x40);
|}.

(** Four bytes before the object of a one-past pointer: reported, tagged 1 xor 3. *)
Lemma full_check_split_refines_witness :
  @full_check_derive_ptr config_p nat unit _ 0%nat
    (@libcrunch_trap config_p 0x1040 1 +w (-0x44)) (@libcrunch_trap config_p 0x1040 1)
    (@make_bounds config_p 0x1000 0x1040) tt =
  Ret (false, @libcrunch_trap config_p 0xffc 2, Bounds 0x1000 0x40, 1%nat).
Proof.
  etransitivity;
    [apply (@full_check_split_refines config_p _ nat unit _ 0%nat 0x1000 0x1040 0x1040 1 (-0x44) tt);
     unfold user_addr; lia|].
  vm_compute. reflexivity.
Defined.


(** Forward to one past the end, and back to the start. *)
Lemma tame_derivations_tagged_witness :
  exists p st',
    @derive_all config_p nat unit _ 0%nat 0x1000 (@make_bounds config_p 0x1000 0x1040) tt
      [0x40; -0x40] = Ret (p, @make_bounds config_p 0x1000 0x1040, st') /\
    @libcrunch_detrap config_p p = 0x1000.
Proof.
  destruct (@tame_derivations_tagged config_p _ nat unit _ 0%nat 0x1000 0x1040 0x1000 tt
    [0x40; -0x40]) as (p & st' & Hrun & Hd & _);
    [done|lia|unfold user_addr; lia|lia|cbn; unfold user_addr; lia|done|].
  exists p, st'. split; [exact Hrun|exact Hd].
Defined.

Lemma double_oob_untraps_witness :
  exists st',
    @derive_all config_p nat unit _ 0%nat 0x1000 (@make_bounds config_p 0x1000 0x1040) tt
      [0x80; 0x10] = Ret (0x1090, @make_bounds config_p 0x1000 0x1040, st').
Proof.
  destruct (@double_oob_untraps config_p _ nat unit _ 0%nat 0x1000 0x1040 0x1000 0x80 0x10 tt)
    as (st' & Hrun & _);
    [done|lia|unfold user_addr; lia|lia|unfold user_addr; lia|unfold user_addr; lia|done|done|].
  exists st'. exact Hrun.
Defined.

Lemma one_past_rederived_untraps_witness :
  exists p,
    @libcrunch_is_trap_ptr config_p p = true /\
    @full_check_derive_ptr config_p nat unit _ 0%nat p p
      (@make_bounds config_p 0x1000 0x1040) tt =
    Ret (true, 0x1040, @make_bounds config_p 0x1000 0x1040, 0%nat).
Proof.
  destruct (@one_past_rederived_untraps config_p _ nat unit _ 0%nat 0x1000 0x1040 tt)
    as (p & _ & Ht & Hc); [lia|unfold user_addr; lia|].
  exists p. split; [exact Ht|exact Hc].
Defined.

Lemma invalid_bounds_are_fetched_witness :
  @full_check_derive_ptr config_p nat unit _ 0%nat (0x1000 +w 0x20) 0x1000
    (@libcrunch_make_invalid_bounds config_p 0x1000) tt =
  @full_check_derive_ptr config_p nat unit _ 0%nat (0x1000 +w 0x20) 0x1000
    (@make_bounds config_p 0x1000 0x1040) tt.
Proof.
  destruct (@invalid_bounds_are_fetched config_p _ nat unit _ 0%nat 0%nat 0x1000 0x1000 0x20 tt
    (@make_bounds config_p 0x1000 0x1040)) as [Hv _];
    [unfold user_addr; lia|unfold user_addr; lia|unfold user_addr; lia|reflexivity|].
  apply (Hv 0x1000 0x1040); [lia|lia|unfold user_addr; lia|reflexivity].
Defined.

#[local] Instance config_S_wide : WideBounds config_S.
Proof. repeat split. Qed.

Lemma check_deref_spec_witness :
  @check_deref config_S nat unit _ 0%nat 0x103f (@make_bounds config_S 0x1000 0x1040) =
  Ret (true, 0%nat).
Proof.
  apply (@check_deref_spec config_S _ nat unit _ 0%nat 0x1000 0x1040 0x103f);
    first [reflexivity | unfold u64; lia | lia].
Defined.

Lemma unchecked_without_check_derive_witness :
  @full_check_derive_ptr config_crunchxcc nat unit _ 0%nat 0x99999 0x1000
    (@make_bounds config_crunchxcc 0x1000 0x1040) tt =
  Ret (true, 0x99999, @make_bounds config_crunchxcc 0x1000 0x1040, 0%nat).
Proof.
  apply (@unchecked_without_check_derive config_crunchxcc nat unit _ 0%nat 0x99999 0x1000
    (@make_bounds config_crunchxcc 0x1000 0x1040) tt); reflexivity.
Defined.

Lemma single_path_invalid_bounds_witness :
  @full_check_derive_ptr config_f nat unit _ 0%nat 0x1000 0x1000
    (@libcrunch_make_invalid_bounds config_f 0x1000) tt = Unreachable.
Proof.
  apply (@single_path_invalid_bounds config_f _ nat unit _ 0%nat 0x1000 tt).
  unfold user_addr; lia.
Defined.

(** A pointer moved 4 GiB away from its 64-byte object. *)
Lemma word_bounds_alias_unreachable_witness :
  @full_check_derive_ptr config_word_denorm nat unit _ 0%nat (0x1000 + 1 * 2 ^ 32) 0x1000
    (word_bounds 0x1000 0x1040) tt = Unreachable.
Proof.
  apply (@word_bounds_alias_unreachable config_word_denorm _ nat unit _ 0%nat 0x1000 0x1040
    0x1000 1 tt); first [reflexivity | unfold user_addr; lia | lia].
Defined.
