(* ===== verification/Memory.v ===== *)
(** * Byte memory

    The process memory as the runtime sees it: a finite map from addresses to
    byte values, in which an address that was never written reads as zero, like
    the anonymous [MAP_NORESERVE] mappings of the shadow space.  Words are
    little-endian, and [memmove] reads the whole source before it writes. *)
From S2P Require Import Prelude.

Abbreviation mem := (gmap Z Z).

Definition byte (m : mem) (a : Z) : Z := default 0 (m !! a) mod 256.

Fixpoint load (m : mem) (a : Z) (n : nat) : Z :=
  match n with
  | O => 0
  | S n => byte m a + 256 * load m (a + 1) n
  end.

Fixpoint store (m : mem) (a : Z) (n : nat) (v : Z) : mem :=
  match n with
  | O => m
  | S n => <[a := v mod 256]> (store m (a + 1) n (v / 256))
  end.

Fixpoint read_bytes (m : mem) (a : Z) (n : nat) : list Z :=
  match n with
  | O => []
  | S n => byte m a :: read_bytes m (a + 1) n
  end.

Fixpoint write_bytes (m : mem) (a : Z) (bs : list Z) : mem :=
  match bs with
  | [] => m
  | b :: bs => <[a := b]> (write_bytes m (a + 1) bs)
  end.

Definition memmove (m : mem) (dst src n : Z) : mem :=
  write_bytes m dst (read_bytes m src (Z.to_nat n)).

(** The widths the runtime uses: [unsigned long] or [void *], and [unsigned]. *)
Definition load8 (m : mem) (a : Z) : Z := load m a 8.
Definition load4 (m : mem) (a : Z) : Z := load m a 4.
Definition store8 (m : mem) (a v : Z) : mem := store m a 8 v.
Definition store4 (m : mem) (a v : Z) : mem := store m a 4 v.

Lemma byte_range m a : 0 <= byte m a < 256.
Proof. by apply Z.mod_pos_bound. Qed.

Lemma byte_insert_ne m a b v : a <> b -> byte (<[b := v]> m) a = byte m a.
Proof. intros Hne. unfold byte. by rewrite lookup_insert_ne. Qed.

Lemma byte_insert m a v : byte (<[a := v]> m) a = v mod 256.
Proof. unfold byte. by rewrite lookup_insert_eq. Qed.

Lemma load_range m n : forall a, 0 <= load m a n < 2 ^ (8 * Z.of_nat n).
Proof.
  induction n as [|n IH]; intros a; cbn [load]; [by split|].
  pose proof (byte_range m a). specialize (IH (a + 1)).
  replace (8 * Z.of_nat (S n)) with (8 * Z.of_nat n + 8) by lia.
  rewrite Z.pow_add_r by lia. lia.
Qed.

Lemma load8_u64 m a : u64 (load8 m a).
Proof. apply (load_range m 8). Qed.
Lemma load4_u32 m a : u32 (load4 m a).
Proof. apply (load_range m 4). Qed.
#[export] Hint Resolve load8_u64 load4_u32 : word.

(** A load depends on the bytes it covers only. *)
Lemma load_ext m1 m2 n : forall a,
  (forall i, a <= i < a + Z.of_nat n -> byte m1 i = byte m2 i) ->
  load m1 a n = load m2 a n.
Proof.
  induction n as [|n IH]; intros a Heq; cbn [load]; [done|].
  rewrite (Heq a), (IH (a + 1)); [done| |lia]. intros i Hi. apply Heq. lia.
Qed.

Lemma load_ext_shift m1 m2 n : forall a1 a2,
  (forall i, 0 <= i < Z.of_nat n -> byte m1 (a1 + i) = byte m2 (a2 + i)) ->
  load m1 a1 n = load m2 a2 n.
Proof.
  induction n as [|n IH]; intros a1 a2 Heq; cbn [load]; [done|].
  assert (byte m1 a1 = byte m2 a2) as ->.
  { specialize (Heq 0 ltac:(lia)). by rewrite !Z.add_0_r in Heq. }
  rewrite (IH (a1 + 1) (a2 + 1)); [done|].
  intros i Hi. specialize (Heq (i + 1) ltac:(lia)).
  by rewrite <- !Z.add_assoc, !(Z.add_comm 1).
Qed.

Lemma byte_store_other m n : forall a v i,
  i < a \/ a + Z.of_nat n <= i -> byte (store m a n v) i = byte m i.
Proof.
  induction n as [|n IH]; intros a v i Hi; cbn [store]; [done|].
  rewrite byte_insert_ne by lia. apply IH. lia.
Qed.

Lemma load_store_same m n : forall a v,
  load (store m a n v) a n = v mod 2 ^ (8 * Z.of_nat n).
Proof.
  induction n as [|n IH]; intros a v.
  { cbn. by rewrite Z.mod_1_r. }
  cbn [load store]. rewrite byte_insert, Z.mod_mod by lia.
  assert (load (<[a:=v mod 256]> (store m (a + 1) n (v / 256))) (a + 1) n
          = load (store m (a + 1) n (v / 256)) (a + 1) n) as ->.
  { apply load_ext. intros i Hi. apply byte_insert_ne. lia. }
  rewrite IH.
  replace (8 * Z.of_nat (S n)) with (8 + 8 * Z.of_nat n) by lia.
  rewrite Z.pow_add_r by lia. change (2 ^ 8) with 256.
  by rewrite Z.rem_mul_r by lia.
Qed.

Lemma load_store_other m a n b k v :
  a + Z.of_nat n <= b \/ b + Z.of_nat k <= a ->
  load (store m b k v) a n = load m a n.
Proof.
  intros Hd. apply load_ext. intros i Hi. apply byte_store_other. lia.
Qed.

Lemma load_app m n k : forall a,
  load m a (n + k) = load m a n + 2 ^ (8 * Z.of_nat n) * load m (a + Z.of_nat n) k.
Proof.
  induction n as [|n IH]; intros a; cbn [load Nat.add].
  { rewrite Z.add_0_r. cbn [Z.of_nat Z.mul Z.pow]. lia. }
  rewrite IH. replace (8 * Z.of_nat (S n)) with (8 + 8 * Z.of_nat n) by lia.
  rewrite Z.pow_add_r by lia. replace (a + Z.of_nat (S n)) with (a + 1 + Z.of_nat n) by lia.
  change (2 ^ 8) with 256. lia.
Qed.

Lemma load8_store8 m a v : u64 v -> load8 (store8 m a v) a = v.
Proof. intros Hv. unfold load8, store8. rewrite load_store_same. by apply Z.mod_small. Qed.
Lemma load4_store4 m a v : load4 (store4 m a v) a = wrap32 v.
Proof. unfold load4, store4. by rewrite load_store_same. Qed.
Lemma load8_store8_ne m a b v :
  a + 8 <= b \/ b + 8 <= a -> load8 (store8 m b v) a = load8 m a.
Proof. intros. apply load_store_other. lia. Qed.
Lemma load8_store4_ne m a b v :
  a + 8 <= b \/ b + 4 <= a -> load8 (store4 m b v) a = load8 m a.
Proof. intros. apply load_store_other. lia. Qed.
Lemma load4_store8_ne m a b v :
  a + 4 <= b \/ b + 8 <= a -> load4 (store8 m b v) a = load4 m a.
Proof. intros. apply load_store_other. lia. Qed.
Lemma load4_store4_ne m a b v :
  a + 4 <= b \/ b + 4 <= a -> load4 (store4 m b v) a = load4 m a.
Proof. intros. apply load_store_other. lia. Qed.

(** ** Copying *)
Lemma read_bytes_length m n : forall a, length (read_bytes m a n) = n.
Proof. induction n as [|n IH]; intros a; cbn; [done|]. by rewrite IH. Qed.

Lemma read_bytes_lookup m n : forall a i,
  (i < n)%nat -> read_bytes m a n !! i = Some (byte m (a + Z.of_nat i)).
Proof.
  induction n as [|n IH]; intros a i Hi; [lia|].
  destruct i as [|i]; cbn [read_bytes].
  - cbn. by rewrite Z.add_0_r.
  - cbn [lookup list_lookup]. rewrite IH by lia. do 2 f_equal. lia.
Qed.

Lemma byte_write_other m bs : forall a i,
  i < a \/ a + Z.of_nat (length bs) <= i -> byte (write_bytes m a bs) i = byte m i.
Proof.
  induction bs as [|b bs IH]; intros a i Hi; cbn [write_bytes length] in *; [done|].
  rewrite byte_insert_ne by lia. apply IH. lia.
Qed.

Lemma byte_write_same m bs : forall a i b,
  bs !! i = Some b -> byte (write_bytes m a bs) (a + Z.of_nat i) = b mod 256.
Proof.
  induction bs as [|b bs IH]; intros a i x Hx; [done|].
  destruct i as [|i]; cbn [write_bytes lookup list_lookup] in *.
  - simplify_eq. rewrite Z.add_0_r. apply byte_insert.
  - rewrite byte_insert_ne by lia.
    replace (a + Z.of_nat (S i)) with (a + 1 + Z.of_nat i) by lia. by apply IH.
Qed.

Lemma byte_memmove_in m dst src n i :
  0 <= i < n -> byte (memmove m dst src n) (dst + i) = byte m (src + i).
Proof.
  intros Hi. unfold memmove.
  rewrite <- (Z2Nat.id i) by lia.
  rewrite (byte_write_same _ _ _ _ (byte m (src + Z.of_nat (Z.to_nat i)))).
  - unfold byte. by rewrite Z.mod_mod by lia.
  - apply read_bytes_lookup. lia.
Qed.

Lemma byte_memmove_out m dst src n i :
  i < dst \/ dst + n <= i -> byte (memmove m dst src n) i = byte m i.
Proof.
  intros Hi. unfold memmove. destruct (decide (0 <= n)).
  - apply byte_write_other. rewrite read_bytes_length. lia.
  - replace (Z.to_nat n) with 0%nat by lia. done.
Qed.

(** A word of the destination is the word of the source it was copied from. *)
Lemma load_memmove_in m dst src n k w :
  0 <= k -> k + Z.of_nat w <= n ->
  load (memmove m dst src n) (dst + k) w = load m (src + k) w.
Proof.
  intros Hk Hw. apply load_ext_shift. intros i Hi.
  rewrite <- !Z.add_assoc. apply byte_memmove_in. lia.
Qed.

Lemma load_memmove_out m dst src n a w :
  a + Z.of_nat w <= dst \/ dst + n <= a ->
  load (memmove m dst src n) a w = load m a w.
Proof. intros Hd. apply load_ext. intros i Hi. apply byte_memmove_out. lia. Qed.

(** ** C strings

    [strlen] looks for the first zero byte; a finite memory has one among any
    [size m + 1] consecutive addresses, which is the fuel. *)
Fixpoint strlen_fuel (m : mem) (a : Z) (fuel : nat) : option Z :=
  match fuel with
  | O => None
  | S fuel => if byte m a =? 0 then Some 0 else Z.succ <$> strlen_fuel m (a + 1) fuel
  end.
Definition strlen (m : mem) (a : Z) : Z :=
  default 0 (strlen_fuel m a (S (size m))).

Lemma strlen_fuel_spec m fuel : forall a n,
  strlen_fuel m a fuel = Some n ->
  0 <= n /\ byte m (a + n) = 0 /\ forall i, 0 <= i < n -> byte m (a + i) <> 0.
Proof.
  induction fuel as [|fuel IH]; intros a n; cbn [strlen_fuel]; [done|].
  destruct (Z.eqb_spec (byte m a) 0) as [Hz|Hnz].
  - intros [= <-]. split; [lia|]. rewrite Z.add_0_r. split; [done|lia].
  - destruct (strlen_fuel m (a + 1) fuel) as [k|] eqn:Hk; [|done]. intros [= <-].
    destruct (IH _ _ Hk) as (Hk0 & Hb & Hn). split; [lia|]. split.
    + by replace (a + Z.succ k) with (a + 1 + k) by lia.
    + intros i Hi. destruct (decide (i = 0)) as [->|]; [by rewrite Z.add_0_r|].
      replace (a + i) with (a + 1 + (i - 1)) by lia. apply Hn. lia.
Qed.

(** Addresses that are bound in the memory, counted from [a] up. *)
Lemma strlen_fuel_none m fuel : forall a,
  strlen_fuel m a fuel = None ->
  list_to_set (C := gset Z) ((fun i => a + Z.of_nat i) <$> seq 0 fuel) ⊆ dom m.
Proof.
  induction fuel as [|fuel IH]; intros a; [set_solver|]. cbn [strlen_fuel].
  destruct (Z.eqb_spec (byte m a) 0) as [Hz|Hnz]; [done|].
  destruct (strlen_fuel m (a + 1) fuel) eqn:Hk; [done|]. intros _.
  specialize (IH _ Hk). intros x. rewrite elem_of_list_to_set, list_elem_of_fmap.
  intros (i & -> & Hi%elem_of_seq). destruct i as [|i].
  - rewrite Z.add_0_r. apply elem_of_dom. unfold byte in Hnz. by destruct (m !! a).
  - apply IH. rewrite elem_of_list_to_set, list_elem_of_fmap.
    exists i. split; [lia|]. apply elem_of_seq. lia.
Qed.

(** The scan of a C string always ends within the fuel. *)
Lemma strlen_fuel_enough m a : is_Some (strlen_fuel m a (S (size m))).
Proof.
  destruct (strlen_fuel m a (S (size m))) eqn:Hn; [eauto|exfalso].
  apply strlen_fuel_none in Hn. apply subseteq_size in Hn. rewrite size_dom in Hn.
  rewrite size_list_to_set, length_fmap, length_seq in Hn; [lia|].
  apply NoDup_fmap; [intros x y; lia|apply NoDup_seq].
Qed.

Lemma strlen_spec m a :
  0 <= strlen m a /\ byte m (a + strlen m a) = 0 /\
  forall i, 0 <= i < strlen m a -> byte m (a + i) <> 0.
Proof.
  unfold strlen. destruct (strlen_fuel_enough m a) as [n Hn].
  rewrite Hn. by apply (strlen_fuel_spec m (S (size m))).
Qed.

Lemma strlen_unique m a n :
  0 <= n -> byte m (a + n) = 0 -> (forall i, 0 <= i < n -> byte m (a + i) <> 0) ->
  strlen m a = n.
Proof.
  intros Hn Hz Hnz. destruct (strlen_spec m a) as (H0 & Hb & Hi).
  destruct (Z.lt_trichotomy (strlen m a) n) as [Hlt|[?|Hgt]]; [|done|].
  - exfalso. by apply (Hnz (strlen m a)).
  - exfalso. by apply (Hi n).
Qed.

(** The length of a string does not change when bytes outside it do. *)
Lemma strlen_ext m1 m2 a :
  (forall i, a <= i <= a + strlen m1 a -> byte m1 i = byte m2 i) -> strlen m2 a = strlen m1 a.
Proof.
  intros Heq. destruct (strlen_spec m1 a) as (H0 & Hb & Hi).
  apply strlen_unique; [done| |].
  - by rewrite <- Heq by lia.
  - intros i Hr. rewrite <- Heq by lia. by apply Hi.
Qed.
