(* ===== verification/ShadowSpace.v ===== *)
(** * The shadow space

    Every pointer-sized slot of user memory has a shadow: the base of the
    pointer stored there at [__libcrunch_base_stored_loc], and the low 32 bits
    of its size at [__libcrunch_size_stored_loc].  This file models the inline
    operations on it ([include/libcrunch_cil_inlines.h]) and the copy hook of
    [src/libcrunch.c], and proves that shadow entries of different slots never
    overlap one another or user memory, so that bounds stored for a slot are
    the bounds loaded from it until it is stored to again or copied over. *)
From S2P Require Import Prelude Config TrapPtr Bounds Derive Memory.

Definition libcrunch_base_stored_loc (ptr : Z) : Z :=
  Z.lxor (shl64 0x70 0x28) ptr.
Definition libcrunch_size_stored_loc (ptr : Z) : Z :=
  shl64 0x08 0x28 +w shr64 ptr 1.

(** What the shadow-space operations need besides the effects of the checks:
    the process memory inside the state, the cache-and-liballocs lookup, and a
    counter.  A null [struct uniqtype] pointer is [None]. *)
Class ShadowEnv (St U : Type) := {
  shadow_derive :: DeriveEnv St (option U);
  st_mem : St -> mem;
  set_mem : mem -> St -> St;
  count_ptr_store : St -> St;
  fetch_bounds_ool : St -> Z -> Z -> option U -> outcome (St * bounds);
}.
Class ShadowEnvLaws (St U : Type) `{ShadowEnv St U} : Prop := {
  st_mem_set : forall m st, st_mem (set_mem m st) = m;
  st_mem_count : forall st, st_mem (count_ptr_store st) = st_mem st;
}.

Section operations.
Context `{Config}.

(** [__shadow_store_bounds_for], on the memory alone; [typed] says whether the
    type argument is non-null. *)
Definition shadow_store_bounds_for (m : mem) (stored_pointer_addr : Z)
    (val_bounds : bounds) (typed : bool) : mem :=
  let val_bounds :=
    if typed then val_bounds
    else libcrunch_make_invalid_bounds (load8 m stored_pointer_addr) in
  let m := store8 m (libcrunch_base_stored_loc stored_pointer_addr) (base val_bounds) in
  store4 m (libcrunch_size_stored_loc stored_pointer_addr) (size val_bounds).

(** The size field computed from the 32-bit shadow entry. *)
Definition widen_size (stored : Z) : Z :=
  if wordsize_bounds then stored
  else if long_size then wrap64 (wrap32 (stored + 1) - 1)
  else stored.

Definition fetch_bounds_from_shadow_space (m : mem) (ptr loaded_from : Z) : bounds :=
  if no_shadow_space then libcrunch_make_invalid_bounds ptr
  else if ptr =? 0 then make_bounds 0 1
  else if negb (loaded_from =? 0) then
    let base_stored_addr := libcrunch_base_stored_loc loaded_from in
    let size_stored_addr := libcrunch_size_stored_loc loaded_from in
    {| base := if wordsize_bounds then wrap32 (load8 m base_stored_addr)
               else load8 m base_stored_addr;
       size := widen_size (load4 m size_stored_addr) |}
  else libcrunch_make_invalid_bounds ptr.

Definition fetch_bounds_inl (m : mem) (ptr loaded_from : Z) : bounds :=
  fetch_bounds_from_shadow_space m ptr loaded_from.

Context {St U : Type} `{ShadowEnv St U}.

Definition fetch_bounds_full (st : St) (ptr derived loaded_from : Z) (t : option U)
    : outcome (St * bounds) :=
  if ptr =? 0 then Ret (st, libcrunch_make_invalid_bounds derived)
  else match t with
  | None => Ret (st, libcrunch_make_invalid_bounds derived)
  | Some _ =>
      let bnds := fetch_bounds_inl (st_mem st) ptr loaded_from in
      if libcrunch_bounds_invalid bnds ptr then
        '(st, bnds) ← fetch_bounds_ool_to_use st ptr derived t;
        if libcrunch_bounds_invalid bnds ptr then Unreachable else Ret (st, bnds)
      else Ret (st, bnds)
  end.

Definition store_pointer_nonlocal (st : St) (dest val : Z) (val_bounds : bounds)
    (val_pointee_type : option U) : outcome St :=
  let st := if keep_expensive_counts then count_ptr_store st else st in
  if no_shadow_space then Ret st
  else
    let size_stored_addr := libcrunch_size_stored_loc dest in
    let existing_shadow_bounds_valid := negb (load4 (st_mem st) size_stored_addr =? 0) in
    '(st, val_bounds) ←
      (if libcrunch_bounds_invalid val_bounds val then
         if negb no_pointer_type_info then
           '(st, val_bounds) ←
             (if negb (val =? 0) then fetch_bounds_ool st val val val_pointee_type
              else Ret (st, make_bounds 0 1));
           if libcrunch_bounds_invalid val_bounds val then Unreachable
           else Ret (st, val_bounds)
         else Ret (st, val_bounds)
       else Ret (st, val_bounds));
    if negb (libcrunch_bounds_invalid val_bounds val) || existing_shadow_bounds_valid
    then
      let typed := match val_pointee_type with Some _ => true | None => false end in
      Ret (set_mem (shadow_store_bounds_for (st_mem st) dest val_bounds typed) st)
    else Ret st.
End operations.

(** [__wrap___notify_copy]: [initialized] is the test of
    [__libcrunch_bounds_bases_region_00]; the wrapped hook of liballocs is the
    argument [real_notify_copy]. *)
Definition wrap_notify_copy (real_notify_copy : mem -> Z -> Z -> Z -> mem)
    (initialized : bool) (m : mem) (dest src n : Z) : mem :=
  let m :=
    if negb initialized then m
    else
      let m := memmove m (libcrunch_base_stored_loc dest) (libcrunch_base_stored_loc src) n in
      memmove m (libcrunch_size_stored_loc dest) (libcrunch_size_stored_loc src)
        (wrap64 (n * 4) / 8) in
  real_notify_copy m dest src n.

(** ** Layout

    The user ranges the runtime shadows (first byte, last byte), the ones
    [check_maps_cb] of [src/shadow.c] tests for.  [ShadowMap.v] translates the
    test itself, whose third range has one byte more, which is never the last
    byte of a page. *)
Definition user_ranges : list (Z * Z) :=
  [ (0x000000000000, 0x055555555554); (0x2aaaaaaab000, 0x2fffffffffff);
    (0x555555556000, 0x565555555fff); (0x7aaaaaaab000, 0x7fffffffffff) ].

Definition in_range (a : Z) (r : Z * Z) : bool := (r.1 <=? a) && (a <=? r.2).
Definition shadowable (a : Z) : bool := existsb (in_range a) user_ranges.

Lemma shadowable_cases a :
  shadowable a = true ->
  0 <= a <= 0x055555555554 \/ 0x2aaaaaaab000 <= a <= 0x2fffffffffff \/
  0x555555556000 <= a <= 0x565555555fff \/ 0x7aaaaaaab000 <= a <= 0x7fffffffffff.
Proof.
  unfold shadowable, user_ranges, in_range; cbn [existsb fst snd].
  rewrite !orb_true_iff, !andb_true_iff, !Z.leb_le. intuition lia.
Qed.

(** Whole ranges: an address range that stays in one user range is shadowed by
    contiguous entries. *)
Definition one_range (a n : Z) : Prop :=
  Exists (fun r => r.1 <= a /\ a + n <= r.2 + 1) user_ranges.

Lemma one_range_cases a n :
  one_range a n ->
  (0 <= a /\ a + n <= 0x055555555555) \/ (0x2aaaaaaab000 <= a /\ a + n <= 0x300000000000) \/
  (0x555555556000 <= a /\ a + n <= 0x565555556000) \/
  (0x7aaaaaaab000 <= a /\ a + n <= 0x800000000000).
Proof.
  unfold one_range, user_ranges. rewrite !Exists_cons, Exists_nil. cbn. intuition lia.
Qed.

Lemma one_range_shadowable a n i :
  one_range a n -> 0 <= i < n -> shadowable (a + i) = true.
Proof.
  intros Ha%one_range_cases Hi. unfold shadowable, user_ranges, in_range; cbn [existsb fst snd].
  rewrite !orb_true_iff, !andb_true_iff, !Z.leb_le. destruct Ha as [Ha|[Ha|[Ha|Ha]]]; tauto || lia.
Qed.

#[export] Instance one_range_dec a n : Decision (one_range a n).
Proof. unfold one_range. apply _. Defined.

(** A slot: the address of an aligned pointer in user memory. *)
Definition slot (a : Z) : Prop := one_range a 8 /\ a mod 8 = 0.
#[export] Instance slot_dec a : Decision (slot a).
Proof. unfold slot. apply _. Defined.

Lemma slot_shadowable a : slot a -> shadowable a = true.
Proof.
  intros [Ha _]. rewrite <- (Z.add_0_r a). by apply (one_range_shadowable a 8).
Qed.

Lemma shadowable_user a : shadowable a = true -> 0 <= a < 2 ^ 47.
Proof. intros Ha%shadowable_cases. lia. Qed.

(** The base location is the address with its top three bits complemented. *)
Lemma base_stored_loc_eq a :
  0 <= a < 2 ^ 47 ->
  libcrunch_base_stored_loc a = (7 - a / 2 ^ 44) * 2 ^ 44 + a mod 2 ^ 44.
Proof.
  intros Ha. unfold libcrunch_base_stored_loc.
  change (shl64 0x70 0x28) with (7 * 2 ^ 44).
  apply (split_low_high 44); [lia| |].
  - rewrite lxor_mod_pow2 by lia. change (7 * 2 ^ 44) with (7 * 2 ^ 44).
    rewrite Z.mod_mul, Z.lxor_0_l by lia.
    rewrite Z.add_comm, Z.mod_add, Z.mod_mod by lia. done.
  - rewrite lxor_div_pow2, Z.div_mul by lia.
    rewrite Z.add_comm, Z.div_add by lia.
    rewrite (Z.div_small (a mod _)) by (apply Z.mod_pos_bound; lia).
    assert (Hq : 0 <= a / 2 ^ 44 < 8) by mod_lia.
    set (q := a / 2 ^ 44) in *. clearbody q.
    assert (q = 0 \/ q = 1 \/ q = 2 \/ q = 3 \/ q = 4 \/ q = 5 \/ q = 6 \/ q = 7)
      as [->|[->|[->|[->|[->|[->|[->| ->]]]]]]] by lia; done.
Qed.

Lemma size_stored_loc_eq a :
  0 <= a < 2 ^ 47 -> libcrunch_size_stored_loc a = 2 ^ 43 + a / 2.
Proof.
  intros Ha. unfold libcrunch_size_stored_loc, shr64. change (shl64 0x08 0x28) with (2 ^ 43).
  rewrite Z.shiftr_div_pow2 by lia. change (2 ^ 1) with 2. word_lia.
Qed.

(** Region by region, the base location is a translation. *)
Lemma base_stored_loc_cases a :
  shadowable a = true ->
  (0 <= a <= 0x055555555554 /\ libcrunch_base_stored_loc a = a + 0x700000000000) \/
  (0x2aaaaaaab000 <= a <= 0x2fffffffffff /\ libcrunch_base_stored_loc a = a + 0x300000000000) \/
  (0x555555556000 <= a <= 0x565555555fff /\ libcrunch_base_stored_loc a = a - 0x300000000000) \/
  (0x7aaaaaaab000 <= a <= 0x7fffffffffff /\ libcrunch_base_stored_loc a = a - 0x700000000000).
Proof.
  intros Ha. pose proof (shadowable_user a Ha) as Hu. apply shadowable_cases in Ha.
  rewrite base_stored_loc_eq by done. eval_pow2.
  destruct Ha as [Ha|[Ha|[Ha|Ha]]];
    [left|right; left|right; right; left|right; right; right]; split; try done; mod_lia.
Qed.

(** The shadow entries of a slot, as half-open intervals. *)
Definition disjoint (a n b k : Z) : Prop := a + n <= b \/ b + k <= a.

Ltac slot_cases :=
  repeat match goal with
  | H : slot ?a |- _ =>
      let Hs := fresh "Hs" in let Hm := fresh "Hm" in let Hu := fresh "Hu" in
      pose proof (slot_shadowable a H) as Hs; destruct H as [_ Hm];
      pose proof (shadowable_user a Hs) as Hu;
      apply base_stored_loc_cases in Hs;
      rewrite ?(size_stored_loc_eq a Hu) in *
  end.

Lemma base_entries_disjoint a b :
  slot a -> slot b -> a <> b ->
  disjoint (libcrunch_base_stored_loc a) 8 (libcrunch_base_stored_loc b) 8.
Proof.
  intros Ha Hb Hne. slot_cases. unfold disjoint.
  destruct Hs as [[??]|[[??]|[[??]|[??]]]], Hs0 as [[??]|[[??]|[[??]|[??]]]]; mod_lia.
Qed.

Lemma size_entries_disjoint a b :
  slot a -> slot b -> a <> b ->
  disjoint (libcrunch_size_stored_loc a) 4 (libcrunch_size_stored_loc b) 4.
Proof. intros Ha Hb Hne. slot_cases. unfold disjoint. clear Hs Hs0. mod_lia. Qed.

Lemma base_size_disjoint a b :
  slot a -> slot b ->
  disjoint (libcrunch_base_stored_loc a) 8 (libcrunch_size_stored_loc b) 4.
Proof.
  intros Ha Hb. slot_cases. unfold disjoint. eval_pow2.
  destruct Hs as [[??]|[[??]|[[??]|[??]]]], Hs0 as [[??]|[[??]|[[??]|[??]]]]; mod_lia.
Qed.

(** Shadow entries lie outside user memory. *)
Lemma shadow_entries_not_user a i :
  slot a ->
  (0 <= i < 8 -> shadowable (libcrunch_base_stored_loc a + i) = false) /\
  (0 <= i < 4 -> shadowable (libcrunch_size_stored_loc a + i) = false).
Proof.
  intros Ha. split; intros Hi; apply not_true_is_false; intros Hs'%shadowable_cases;
    slot_cases; eval_pow2;
    destruct Hs as [[??]|[[??]|[[??]|[??]]]]; mod_lia.
Qed.

Lemma base_stored_loc_offset a n i :
  one_range a n -> 0 <= i < n ->
  libcrunch_base_stored_loc (a + i) = libcrunch_base_stored_loc a + i.
Proof.
  intros Ha Hi.
  pose proof (one_range_shadowable a n i Ha Hi) as H1.
  pose proof (one_range_shadowable a n 0 Ha ltac:(lia)) as H2. rewrite Z.add_0_r in H2.
  apply base_stored_loc_cases in H1, H2. apply one_range_cases in Ha.
  destruct H1 as [[??]|[[??]|[[??]|[??]]]], H2 as [[??]|[[??]|[[??]|[??]]]]; lia.
Qed.

Lemma size_stored_loc_offset a n k :
  one_range a n -> 0 <= k -> 8 * k + 8 <= n -> a mod 8 = 0 ->
  libcrunch_size_stored_loc (a + 8 * k) = libcrunch_size_stored_loc a + 4 * k.
Proof.
  intros Ha Hk Hn Hm.
  pose proof (one_range_shadowable a n (8 * k) Ha ltac:(lia)) as H1%shadowable_user.
  pose proof (one_range_shadowable a n 0 Ha ltac:(lia)) as H2%shadowable_user.
  rewrite Z.add_0_r in H2. rewrite !size_stored_loc_eq by done. mod_lia.
Qed.

Lemma slot_offset a n k :
  one_range a n -> a mod 8 = 0 -> 0 <= k -> 8 * k + 8 <= n -> slot (a + 8 * k).
Proof.
  intros Ha Hm Hk Hn. split; [|mod_lia]. unfold one_range in *.
  eapply Exists_impl; [exact Ha|]. cbn. lia.
Qed.

(** ** Loading what was stored *)

(** What the shadow of a slot holds of bounds [B] stored there. *)
Definition shadow_image `{Config} (B : bounds) : bounds :=
  {| base := base B; size := widen_size (wrap32 (size B)) |}.

(** The entry of a slot, as the inlined load sees it. *)
Definition entry `{Config} (m : mem) (a : Z) : bounds :=
  {| base := load8 m (libcrunch_base_stored_loc a);
     size := widen_size (load4 m (libcrunch_size_stored_loc a)) |}.

Section wide.
Context `{WB : WideBounds}.

Lemma widen_size_eq s :
  u32 s -> widen_size s = if s =? 2 ^ 32 - 1 then 2 ^ 64 - 1 else s.
Proof.
  intros Hs. unfold widen_size. rewrite wide_word, wide_size.
  destruct (Z.eqb_spec s (2 ^ 32 - 1)) as [->|Hne]; [done|].
  unfold u32 in Hs. word_lia.
Qed.

Lemma widen_size_zero s : u32 s -> widen_size s = 0 <-> s = 0.
Proof. intros Hs. rewrite widen_size_eq by done. unfold u32 in Hs. zcases; lia. Qed.

(** Sizes below 4 GiB - 1 and maximal bounds survive the shadow space. *)
Definition storable (B : bounds) : Prop :=
  u64 (base B) /\ (0 <= size B < 2 ^ 32 - 1 \/ size B = 2 ^ 64 - 1).

Lemma shadow_image_storable B : storable B -> shadow_image B = B.
Proof.
  intros [_ Hs]. unfold shadow_image. rewrite widen_size_eq by apply wrap32_u32.
  destruct B as [b s]; cbn [base size] in *. f_equal.
  destruct Hs as [Hs| ->]; [|done].
  rewrite wrap32_small by (unfold u32; lia). zcases; lia.
Qed.

Lemma fetch_entry m p a :
  no_shadow_space = false -> p <> 0 -> a <> 0 ->
  fetch_bounds_inl m p a = entry m a.
Proof.
  intros Hn Hp Ha. unfold fetch_bounds_inl, fetch_bounds_from_shadow_space.
  rewrite Hn, !(proj2 (Z.eqb_neq _ 0)) by done. by rewrite wide_word.
Qed.

Lemma entry_store_same m a B :
  slot a -> u64 (base B) ->
  entry (shadow_store_bounds_for m a B true) a = shadow_image B.
Proof.
  intros Ha Hb. unfold entry, shadow_store_bounds_for, shadow_image.
  pose proof (base_size_disjoint a a Ha Ha) as Hd. unfold disjoint in Hd.
  by rewrite load8_store4_ne, load8_store8, load4_store4 by (done || lia).
Qed.

Lemma entry_store_other m a b B typed :
  slot a -> slot b -> a <> b ->
  entry (shadow_store_bounds_for m a B typed) b = entry m b.
Proof.
  intros Ha Hb Hne. unfold entry, shadow_store_bounds_for.
  pose proof (base_entries_disjoint a b Ha Hb Hne).
  pose proof (size_entries_disjoint a b Ha Hb Hne).
  pose proof (base_size_disjoint a b Ha Hb). pose proof (base_size_disjoint b a Hb Ha).
  unfold disjoint in *.
  by rewrite load8_store4_ne, load8_store8_ne, load4_store4_ne, load4_store8_ne by lia.
Qed.

(** The entry of a slot depends on its twelve shadow bytes only. *)
Lemma entry_ext m1 m2 a :
  (forall i, 0 <= i < 8 -> byte m1 (libcrunch_base_stored_loc a + i) =
                           byte m2 (libcrunch_base_stored_loc a + i)) ->
  (forall i, 0 <= i < 4 -> byte m1 (libcrunch_size_stored_loc a + i) =
                           byte m2 (libcrunch_size_stored_loc a + i)) ->
  entry m1 a = entry m2 a.
Proof.
  intros Hb Hs. unfold entry, load8, load4. f_equal; [|f_equal]; by apply load_ext_shift.
Qed.

Lemma entry_user_write m a b n v :
  slot a -> one_range b (Z.of_nat n) -> entry (store m b n v) a = entry m a.
Proof.
  intros Ha Hr.   apply entry_ext; intros i Hi; apply byte_store_other.
  - destruct (shadow_entries_not_user a i Ha) as [Hn _]. specialize (Hn Hi).
    destruct (decide (b <= libcrunch_base_stored_loc a + i < b + Z.of_nat n)); [|lia].
    pose proof (one_range_shadowable b _ (libcrunch_base_stored_loc a + i - b) Hr ltac:(lia)) as Hc.
    replace (b + (_ - b)) with (libcrunch_base_stored_loc a + i) in Hc by lia. congruence.
  - destruct (shadow_entries_not_user a i Ha) as [_ Hn]. specialize (Hn Hi).
    destruct (decide (b <= libcrunch_size_stored_loc a + i < b + Z.of_nat n)); [|lia].
    pose proof (one_range_shadowable b _ (libcrunch_size_stored_loc a + i - b) Hr ltac:(lia)) as Hc.
    replace (b + (_ - b)) with (libcrunch_size_stored_loc a + i) in Hc by lia. congruence.
Qed.
End wide.

(** *** Copies *)
Lemma base_entry_outside dest n a :
  one_range dest n -> dest mod 8 = 0 -> n mod 8 = 0 -> 0 < n -> slot a ->
  a < dest \/ dest + n <= a ->
  disjoint (libcrunch_base_stored_loc a) 8 (libcrunch_base_stored_loc dest) n.
Proof.
  intros Hd Hdm Hnm Hn Ha Hout.
  pose proof (one_range_shadowable dest n 0 Hd ltac:(lia)) as Hs%base_stored_loc_cases.
  rewrite Z.add_0_r in Hs. apply one_range_cases in Hd.
  pose proof (slot_shadowable a Ha) as Has%base_stored_loc_cases.
  destruct Ha as [_ Ham]. rename Has into Ha. unfold disjoint.
  destruct Ha as [[??]|[[??]|[[??]|[??]]]], Hs as [[??]|[[??]|[[??]|[??]]]]; mod_lia.
Qed.

Lemma size_entry_outside dest n a :
  one_range dest n -> dest mod 8 = 0 -> n mod 8 = 0 -> 0 < n -> slot a ->
  a < dest \/ dest + n <= a ->
  disjoint (libcrunch_size_stored_loc a) 4 (libcrunch_size_stored_loc dest) (n / 2).
Proof.
  intros Hd Hdm Hnm Hn Ha Hout.
  pose proof (one_range_shadowable dest n 0 Hd ltac:(lia)) as Hs%shadowable_user.
  rewrite Z.add_0_r in Hs. pose proof (slot_shadowable a Ha) as Has%shadowable_user. destruct Ha as [_ Ham].
  rewrite !size_stored_loc_eq by done. unfold disjoint. mod_lia.
Qed.

Lemma base_size_ranges d n s k :
  one_range d n -> one_range s k -> d mod 8 = 0 -> s mod 8 = 0 -> 0 < n -> 0 < k -> k mod 8 = 0 ->
  disjoint (libcrunch_base_stored_loc d) n (libcrunch_size_stored_loc s) (k / 2).
Proof.
  intros Hd Hs Hdm Hsm Hn Hk Hkm.
  pose proof (one_range_shadowable d n 0 Hd ltac:(lia)) as Hb%base_stored_loc_cases.
  pose proof (one_range_shadowable s k 0 Hs ltac:(lia)) as Hu%shadowable_user.
  rewrite Z.add_0_r in Hb, Hu. apply one_range_cases in Hd, Hs.
  rewrite size_stored_loc_eq by done. unfold disjoint. eval_pow2.
  destruct Hb as [[??]|[[??]|[[??]|[??]]]], Hs as [?|[?|[?|?]]]; mod_lia.
Qed.

Lemma slot_one_range a : slot a -> one_range a 8.
Proof. by intros []. Qed.

Section copies.
Context `{WB : WideBounds}.

(** Both halves of the copy, seen from a slot outside the destination. *)
Lemma entry_copy_other m dest src n a :
  one_range dest n -> dest mod 8 = 0 -> n mod 8 = 0 -> 0 < n -> slot a ->
  a < dest \/ dest + n <= a ->
  entry (memmove (memmove m (libcrunch_base_stored_loc dest) (libcrunch_base_stored_loc src) n)
           (libcrunch_size_stored_loc dest) (libcrunch_size_stored_loc src) (n / 2)) a
  = entry m a.
Proof.
  intros Hd Hdm Hnm Hn Ha Hout.
  pose proof (base_entry_outside dest n a Hd Hdm Hnm Hn Ha Hout).
  pose proof (size_entry_outside dest n a Hd Hdm Hnm Hn Ha Hout).
  pose proof (slot_one_range a Ha) as Har. destruct Ha as [_ Ham].
  pose proof (base_size_ranges a 8 dest n Har Hd Ham Hdm ltac:(lia) Hn Hnm).
  pose proof (base_size_ranges dest n a 8 Hd Har Hdm Ham Hn ltac:(lia) ltac:(done)).
  change (8 / 2) with 4 in *. unfold disjoint in *. unfold entry, load8, load4.
  rewrite !load_memmove_out; [done|lia..].
Qed.

Lemma entry_copy_in m dest src n k :
  one_range dest n -> one_range src n -> dest mod 8 = 0 -> src mod 8 = 0 -> n mod 8 = 0 ->
  0 <= k -> 8 * k + 8 <= n ->
  entry (memmove (memmove m (libcrunch_base_stored_loc dest) (libcrunch_base_stored_loc src) n)
           (libcrunch_size_stored_loc dest) (libcrunch_size_stored_loc src) (n / 2))
    (dest + 8 * k) = entry m (src + 8 * k).
Proof.
  intros Hd Hs Hdm Hsm Hnm Hk Hkn.
  pose proof (base_size_ranges dest n dest n Hd Hd Hdm Hdm ltac:(lia) ltac:(lia) Hnm).
  pose proof (base_size_ranges dest n src n Hd Hs Hdm Hsm ltac:(lia) ltac:(lia) Hnm).
  unfold disjoint in *. unfold entry, load8, load4.
  rewrite (base_stored_loc_offset dest n), (base_stored_loc_offset src n),
    (size_stored_loc_offset dest n), (size_stored_loc_offset src n) by (done || lia).
  rewrite load_memmove_out by lia. rewrite load_memmove_in by lia.
  rewrite load_memmove_in by mod_lia. rewrite load_memmove_out by mod_lia. done.
Qed.

Lemma entry_store_same_untyped m a B :
  slot a ->
  entry (shadow_store_bounds_for m a B false) a =
    libcrunch_make_invalid_bounds (load8 m a).
Proof.
  intros Ha. unfold entry, shadow_store_bounds_for, libcrunch_make_invalid_bounds.
  rewrite wide_word; cbn [base size].
  pose proof (base_size_disjoint a a Ha Ha) as Hd. unfold disjoint in Hd.
  rewrite load8_store4_ne, load8_store8, load4_store4 by (lia || auto with word).
  by rewrite (proj2 (widen_size_zero (wrap32 0) (wrap32_u32 0))).
Qed.
End copies.

(** ** The shadow space as a map from slots to bounds *)
Inductive shadow_op :=
| OpStore (dest : Z) (B : bounds)          (* an instrumented pointer store *)
| OpStoreUntyped (dest : Z) (B : bounds)   (* ... with a null type *)
| OpCopy (dest src n : Z)                  (* memcpy, memmove, realloc *)
| OpWrite (a : Z) (n : nat) (v : Z).       (* any other write to user memory *)

Section map.
Context `{WB : WideBounds}.
Variable real_notify_copy : mem -> Z -> Z -> Z -> mem.

(** The hook that the copy wrapper calls keeps its own metadata, none of it in
    the shadow space. *)
Hypothesis real_notify_copy_bytes : forall m dest src n a,
  byte (real_notify_copy m dest src n) a = byte m a.

Definition shadow_step (m : mem) (op : shadow_op) : mem :=
  match op with
  | OpStore dest B => shadow_store_bounds_for m dest B true
  | OpStoreUntyped dest B => shadow_store_bounds_for m dest B false
  | OpCopy dest src n => wrap_notify_copy real_notify_copy true m dest src n
  | OpWrite a n v => store m a n v
  end.

Definition op_ok (op : shadow_op) : Prop :=
  match op with
  | OpStore dest B => slot dest /\ u64 (base B)
  | OpStoreUntyped dest B => slot dest
  | OpCopy dest src n =>
      one_range dest n /\ one_range src n /\ dest mod 8 = 0 /\ src mod 8 = 0 /\
      0 <= n < 2 ^ 47 /\ n mod 8 = 0
  | OpWrite a n v => one_range a (Z.of_nat n)
  end.

(** The abstract operation: what the bounds of every slot become. *)
Definition abs_step (f : Z -> bounds) (m : mem) (op : shadow_op) : Z -> bounds :=
  fun a =>
    match op with
    | OpStore dest B => if a =? dest then shadow_image B else f a
    | OpStoreUntyped dest B =>
        if a =? dest then libcrunch_make_invalid_bounds (load8 m dest) else f a
    | OpCopy dest src n =>
        if (dest <=? a) && (a <? dest + n) then f (a - dest + src) else f a
    | OpWrite _ _ _ => f a
    end.

Lemma memmove_0 m dst src : memmove m dst src 0 = m.
Proof. done. Qed.

Lemma entry_notify_copy m dest src n a :
  slot a -> op_ok (OpCopy dest src n) ->
  entry (shadow_step m (OpCopy dest src n)) a =
    if (dest <=? a) && (a <? dest + n) then entry m (a - dest + src) else entry m a.
Proof.
  intros Ha (Hd & Hs & Hdm & Hsm & Hn & Hnm). cbn [shadow_step].
  unfold wrap_notify_copy; cbn [negb].
  assert (Hn4 : wrap64 (n * 4) / 8 = n / 2) by (word_lia). rewrite Hn4.
  set (m1 := memmove m _ _ n).
  set (m2 := memmove m1 _ _ (n / 2)).
  assert (entry (real_notify_copy m2 dest src n) a = entry m2 a) as ->.
  { apply entry_ext; intros; apply real_notify_copy_bytes. }
  destruct (decide (n = 0)) as [->|Hn0].
  { unfold m2, m1. rewrite !memmove_0. zcases; cbn; done || lia. }
  destruct (Z.leb_spec dest a), (Z.ltb_spec a (dest + n)); cbn [andb].
  2-4: apply entry_copy_other; try done; lia.
  assert (exists k, a = dest + 8 * k /\ 0 <= k /\ 8 * k + 8 <= n) as (k & -> & Hk & Hkn).
  { exists ((a - dest) / 8). destruct Ha as [_ Ha]. mod_lia. }
  replace (dest + 8 * k - dest + src) with (src + 8 * k) by lia.
  by apply entry_copy_in.
Qed.

(** One operation refines the abstract step. *)
Lemma shadow_step_refines m op a :
  slot a -> op_ok op -> entry (shadow_step m op) a = abs_step (entry m) m op a.
Proof.
  intros Ha Hop. destruct op as [dest B|dest B|dest src n|b n v]; cbn [abs_step].
  - destruct Hop as [Hd Hb]. destruct (Z.eqb_spec a dest) as [->|Hne].
    + by apply entry_store_same.
    + by apply entry_store_other.
  - destruct (Z.eqb_spec a dest) as [->|Hne].
    + by apply entry_store_same_untyped.
    + by apply entry_store_other.
  - by apply entry_notify_copy.
  - by apply entry_user_write.
Qed.
End map.

(** A whole sequence of operations, concretely and abstractly. *)
Fixpoint shadow_run `{Config} (real : mem -> Z -> Z -> Z -> mem) (m : mem)
    (ops : list shadow_op) : mem :=
  match ops with
  | [] => m
  | op :: ops => shadow_run real (shadow_step real m op) ops
  end.
Fixpoint abs_run `{Config} (real : mem -> Z -> Z -> Z -> mem) (f : Z -> bounds) (m : mem)
    (ops : list shadow_op) : Z -> bounds :=
  match ops with
  | [] => f
  | op :: ops => abs_run real (abs_step f m op) (shadow_step real m op) ops
  end.

(** An operation uses the previous map on slots only. *)
Lemma abs_step_ext `{Config} f g m op a :
  (forall b, slot b -> f b = g b) -> slot a -> op_ok op ->
  abs_step f m op a = abs_step g m op a.
Proof.
  intros Hfg Ha Hop. destruct op as [dest B|dest B|dest src n|b n v]; cbn [abs_step].
  1-2: destruct (a =? dest); [done|by apply Hfg].
  2: by apply Hfg.
  destruct Hop as (Hd & Hs & Hdm & Hsm & Hn & Hnm). destruct Ha as [Ha Ham].
  destruct (Z.leb_spec dest a), (Z.ltb_spec a (dest + n)); cbn [andb];
    try (by apply Hfg).
  apply Hfg. replace (a - dest + src) with (src + 8 * ((a - dest) / 8)) by mod_lia.
  apply (slot_offset src n); try done; mod_lia.
Qed.

Lemma abs_run_ext `{Config} real ops : forall f g m a,
  (forall b, slot b -> f b = g b) -> slot a -> Forall op_ok ops ->
  abs_run real f m ops a = abs_run real g m ops a.
Proof.
  induction ops as [|op ops IH]; intros f g m a Hfg Ha Hops; cbn [abs_run]; [by apply Hfg|].
  apply Forall_cons in Hops as [Hop Hops]. apply IH; try done.
  intros b Hb. by apply abs_step_ext.
Qed.

(** ** Properties *)

(** The shadow space has room for everything: the base and size entries of
    different pointer slots never overlap, base entries never overlap size
    entries, and no entry overlaps user memory. *)
Theorem shadow_entries_separate a b :
  slot a -> slot b ->
  (a <> b -> disjoint (libcrunch_base_stored_loc a) 8 (libcrunch_base_stored_loc b) 8) /\
  (a <> b -> disjoint (libcrunch_size_stored_loc a) 4 (libcrunch_size_stored_loc b) 4) /\
  disjoint (libcrunch_base_stored_loc a) 8 (libcrunch_size_stored_loc b) 4 /\
  (forall i, 0 <= i < 8 -> shadowable (libcrunch_base_stored_loc a + i) = false) /\
  (forall i, 0 <= i < 4 -> shadowable (libcrunch_size_stored_loc a + i) = false).
Proof.
  intros Ha Hb. split; [|split; [|split; [|split]]].
  - by apply base_entries_disjoint.
  - by apply size_entries_disjoint.
  - by apply base_size_disjoint.
  - intros i. by apply shadow_entries_not_user.
  - intros i. by apply shadow_entries_not_user.
Qed.

Section properties.
Context `{WB : WideBounds}.
Hypothesis shadow_on : no_shadow_space = false.

(** Bounds loaded with a pointer are the bounds stored with it: base always,
    size when it is below 4 GiB - 1 or maximal; a larger size comes back modulo
    4 GiB, so that a multiple of 4 GiB comes back as invalid bounds.  A store
    without a type leaves invalid bounds. *)
Theorem shadow_store_fetch m a p B :
  slot a -> a <> 0 -> p <> 0 -> u64 (base B) -> u64 (size B) ->
  (storable B -> fetch_bounds_inl (shadow_store_bounds_for m a B true) p a = B) /\
  base (fetch_bounds_inl (shadow_store_bounds_for m a B true) p a) = base B /\
  (libcrunch_bounds_invalid (fetch_bounds_inl (shadow_store_bounds_for m a B true) p a) p = true
     <-> (2 ^ 32 | size B)) /\
  libcrunch_bounds_invalid (fetch_bounds_inl (shadow_store_bounds_for m a B false) p a) p = true.
Proof.
  intros Ha Ha0 Hp Hb Hs. rewrite !fetch_entry, entry_store_same, entry_store_same_untyped by done.
  split; [by intros ?%shadow_image_storable|]. split; [done|]. split.
  - unfold libcrunch_bounds_invalid, shadow_image; cbn [size].
    rewrite Z.eqb_eq, widen_size_zero by apply wrap32_u32. unfold wrap32.
    by rewrite Z.mod_divide by lia.
  - unfold libcrunch_bounds_invalid, libcrunch_make_invalid_bounds. by rewrite wide_word.
Qed.

(** C18. The shadow space implements a map from slots to bounds: along any
    sequence of instrumented pointer stores, untyped stores, block copies
    (overlapping ones included) and other writes to user memory, the bounds
    loaded for a slot are those of the abstract map, in which a store updates
    its slot only, a copy moves the bounds of every slot it copies, and other
    writes change nothing. *)
Theorem shadow_space_refines_map real m ops a p :
  (forall m dest src n i, byte (real m dest src n) i = byte m i) ->
  Forall op_ok ops -> slot a -> a <> 0 -> p <> 0 ->
  fetch_bounds_inl (shadow_run real m ops) p a = abs_run real (entry m) m ops a.
Proof.
  intros Hreal Hops Ha Ha0 Hp. rewrite fetch_entry by done.
  revert m. induction ops as [|op ops IH]; intros m; cbn [shadow_run abs_run]; [done|].
  apply Forall_cons in Hops as [Hop Hops]. rewrite IH by done.
  apply abs_run_ext; try done. intros b Hb. by apply shadow_step_refines.
Qed.

Context {St U : Type} `{SL : ShadowEnvLaws St U}.

Lemma st_mem_counted st :
  st_mem (if keep_expensive_counts then count_ptr_store st else st) = st_mem st.
Proof. destruct keep_expensive_counts; [apply st_mem_count|done]. Qed.

(** An instrumented pointer store never leaves the bounds of the pointer
    it overwrites: a pointer with valid bounds leaves those, a null pointer
    leaves the one-byte bounds of null, any other pointer leaves the bounds
    fetched out of line, and where there is no type information to fetch by
    the entry is left invalid.  Other slots keep their bounds. *)
Theorem store_pointer_replaces_bounds (st : St) dest val B (t : U) :
  slot dest -> u64 (base B) ->
  (libcrunch_bounds_invalid B val = false ->
     exists st', store_pointer_nonlocal st dest val B (Some t) = Ret st' /\
       entry (st_mem st') dest = shadow_image B /\
       forall b, slot b -> b <> dest -> entry (st_mem st') b = entry (st_mem st) b) /\
  (libcrunch_bounds_invalid B 0 = true -> no_pointer_type_info = false ->
     exists st', store_pointer_nonlocal st dest 0 B (Some t) = Ret st' /\
       entry (st_mem st') dest = Bounds 0 1) /\
  (forall st1 B1, libcrunch_bounds_invalid B val = true -> no_pointer_type_info = false ->
     val <> 0 -> u64 (base B1) -> libcrunch_bounds_invalid B1 val = false ->
     fetch_bounds_ool (if keep_expensive_counts then count_ptr_store st else st)
       val val (Some t) = Ret (st1, B1) ->
     exists st', store_pointer_nonlocal st dest val B (Some t) = Ret st' /\
       entry (st_mem st') dest = shadow_image B1) /\
  (libcrunch_bounds_invalid B val = true -> no_pointer_type_info = true ->
     exists st', store_pointer_nonlocal st dest val B (Some t) = Ret st' /\
       libcrunch_bounds_invalid (entry (st_mem st') dest) val = true).
Proof.
  intros Hd Hb. unfold store_pointer_nonlocal. rewrite shadow_on, st_mem_counted.
  split; [|split; [|split]].
  - intros Hv. rewrite Hv; cbn [mbind outcome_bind]. rewrite Hv; cbn [negb orb].
    eexists; split; [done|]. rewrite st_mem_set, st_mem_counted. split.
    + by apply entry_store_same.
    + intros b Hsb Hne. by apply entry_store_other.
  - intros Hv Hty. rewrite Hv, Hty; cbn [mbind outcome_bind negb Z.eqb].
    rewrite make_bounds_wide by (unfold u64; lia).
    unfold libcrunch_bounds_invalid; cbn [size Z.eqb Z.sub Z.add Z.opp Z.pos_sub mbind outcome_bind negb orb].
    eexists; split; [done|]. rewrite st_mem_set, entry_store_same by (done || by split).
    by rewrite shadow_image_storable by (split; [by split|left; by cbn]).
  - intros st1 B1 Hv Hty Hnz Hb1 Hv1 Hf. rewrite Hv, Hty, Hf; cbn [negb].
    rewrite (proj2 (Z.eqb_neq val 0)) by done. cbn [negb mbind outcome_bind].
    rewrite Hv1; cbn [mbind outcome_bind]. rewrite Hv1; cbn [negb orb].
    eexists; split; [done|]. rewrite st_mem_set. by apply entry_store_same.
  - intros Hv Hty. rewrite Hv, Hty; cbn [negb mbind outcome_bind]. rewrite Hv; cbn [negb orb].
    destruct (Z.eqb_spec (load4 (st_mem st) (libcrunch_size_stored_loc dest)) 0) as [Hz|Hnz];
      cbn [negb]; eexists; (split; [done|]).
    + rewrite st_mem_counted. unfold libcrunch_bounds_invalid, entry; cbn [size].
      rewrite Hz. by rewrite (proj2 (widen_size_zero 0 ltac:(by split))).
    + rewrite st_mem_set, entry_store_same by done.
      unfold libcrunch_bounds_invalid, shadow_image in *; cbn [size].
      apply Z.eqb_eq in Hv. rewrite Hv.
      by rewrite (proj2 (widen_size_zero _ (wrap32_u32 0))).
Qed.

(** The combined fetch returns the shadow entry when that is valid and the
    out-of-line bounds otherwise; bounds it returns for a typed, non-null
    pointer are never invalid. *)
Theorem fetch_bounds_full_spec (st : St) ptr derived loaded_from (t : U) :
  ptr <> 0 -> loaded_from <> 0 ->
  (libcrunch_bounds_invalid (entry (st_mem st) loaded_from) ptr = false ->
     fetch_bounds_full st ptr derived loaded_from (Some t) =
       Ret (st, entry (st_mem st) loaded_from)) /\
  (forall st' B, fetch_bounds_full st ptr derived loaded_from (Some t) = Ret (st', B) ->
     libcrunch_bounds_invalid B ptr = false /\
     ((st', B) = (st, entry (st_mem st) loaded_from) \/
      fetch_bounds_ool_to_use st ptr derived (Some t) = Ret (st', B))).
Proof.
  intros Hp Hl. unfold fetch_bounds_full. rewrite (proj2 (Z.eqb_neq ptr 0)) by done.
  rewrite fetch_entry by done. split; [by intros ->|].
  intros st' B. destruct (libcrunch_bounds_invalid (entry _ _) _) eqn:Hi; [|naive_solver].
  destruct (fetch_bounds_ool_to_use st ptr derived (Some t)) as [[st2 B2]| |]; [|done..].
  cbn. destruct (libcrunch_bounds_invalid B2 ptr) eqn:Hi2; [done|]. naive_solver.
Qed.
End properties.

(** ** A concrete environment: the state is the memory, and every object that
    is not in the shadow space is [[0x1000, 0x1040)]. *)
#[local] Instance mem_env : ShadowEnv mem unit := {|
  shadow_derive := {|
    count_ptr_derivation st := st; count_ptr_deref st := st; count_transition st := st;
    bounds_error st _ _ _ := st; soft_deref_error_at st _ _ := st;
    fetch_bounds_ool_to_use st _ _ _ := Ret (st, Bounds 0x1000 0x40) |};
  st_mem st := st; set_mem m _ := m; count_ptr_store st := st;
  fetch_bounds_ool st _ _ _ := Ret (st, Bounds 0x1000 0x40);
|}.
#[local] Instance mem_env_laws : ShadowEnvLaws mem unit.
Proof. by split. Qed.
#[local] Instance config_p_wide : WideBounds config_p := split_wide.

Lemma slot_ex : slot 0x2aaaaaaac000.
Proof. by apply (bool_decide_unpack _). Qed.
Lemma slot_ex' : slot 0x7fffffffe008.
Proof. by apply (bool_decide_unpack _). Qed.
Lemma slot_ex8 : slot 0x2aaaaaaac008.
Proof. by apply (bool_decide_unpack _). Qed.

Lemma shadow_entries_separate_witness :
  disjoint (libcrunch_base_stored_loc 0x2aaaaaaac000) 8
    (libcrunch_base_stored_loc 0x7fffffffe008) 8.
Proof.
  destruct (shadow_entries_separate 0x2aaaaaaac000 0x7fffffffe008 slot_ex slot_ex') as [Hb _].
  apply Hb. lia.
Defined.

Lemma shadow_store_fetch_witness :
  @fetch_bounds_inl config_p
    (@shadow_store_bounds_for config_p ∅ 0x2aaaaaaac000 (Bounds 0x1000 0x40) true)
    0x1000 0x2aaaaaaac000 = Bounds 0x1000 0x40.
Proof.
  apply (@shadow_store_fetch config_p _ eq_refl ∅ 0x2aaaaaaac000 0x1000 (Bounds 0x1000 0x40));
    [exact slot_ex|lia|lia|by split|by split|].
  split; [by split|by left].
Defined.

(** Storing a pointer, copying its slot upwards by one overlapping slot. *)
Lemma shadow_space_refines_map_witness :
  @fetch_bounds_inl config_p
    (@shadow_run config_p (fun m _ _ _ => m) ∅
      [OpStore 0x2aaaaaaac000 (Bounds 0x1000 0x40); OpCopy 0x2aaaaaaac008 0x2aaaaaaac000 16])
    0x1000 0x2aaaaaaac008 = Bounds 0x1000 0x40.
Proof.
  etransitivity;
    [apply (@shadow_space_refines_map config_p _ eq_refl (fun m _ _ _ => m) ∅
      [OpStore 0x2aaaaaaac000 (Bounds 0x1000 0x40); OpCopy 0x2aaaaaaac008 0x2aaaaaaac000 16]
      0x2aaaaaaac008 0x1000);
      [done| |exact slot_ex8|lia|lia]|vm_compute; reflexivity].
  repeat apply Forall_cons_2; [split; [exact slot_ex|by split]| |by apply Forall_nil].
  split_and!; first [done | by apply (bool_decide_unpack _)].
Defined.

Lemma store_pointer_replaces_bounds_witness :
  exists st',
    @store_pointer_nonlocal config_p mem unit _ ∅ 0x2aaaaaaac000 0x1008
      (Bounds 0x1008 0) (Some tt) = Ret st' /\
    @entry config_p (st_mem st') 0x2aaaaaaac000 = Bounds 0x1000 0x40.
Proof.
  destruct (@store_pointer_replaces_bounds config_p _ eq_refl mem unit _ _ ∅
    0x2aaaaaaac000 0x1008 (Bounds 0x1008 0) tt) as (_ & _ & Hf & _);
    [exact slot_ex|by split|].
  destruct (Hf ∅ (Bounds 0x1000 0x40)) as (st' & Hst & He);
    [done|done|lia|by split|done|done|].
  exists st'. split; [exact Hst|]. rewrite He. vm_compute. reflexivity.
Defined.

Lemma fetch_bounds_full_spec_witness :
  @fetch_bounds_full config_p mem unit _ ∅ 0x1008 0x1010 0x2aaaaaaac000 (Some tt) =
    Ret (∅, Bounds 0x1000 0x40) /\
  libcrunch_bounds_invalid (Bounds 0x1000 0x40) 0x1008 = false.
Proof.
  assert (@fetch_bounds_full config_p mem unit _ ∅ 0x1008 0x1010 0x2aaaaaaac000 (Some tt) =
    Ret (∅, Bounds 0x1000 0x40)) as Hr by (vm_compute; reflexivity).
  split; [exact Hr|].
  apply (@fetch_bounds_full_spec config_p _ eq_refl mem unit _ ∅ 0x1008 0x1010
    0x2aaaaaaac000 tt ltac:(lia) ltac:(lia)) in Hr as [Hv _]. exact Hv.
Defined.
