(* ===== verification/BoundsStack.v ===== *)
(** * The bounds stack

    Instrumented callers pass the bounds of pointer arguments, and instrumented
    callees the bounds of pointer results, on a second stack
    ([__bounds_sp], [include/libcrunch_cil_inlines.h]).  A caller pushes the
    bounds from right to left and then a cookie, the callee's address; the
    callee recognises the cookie and consumes it by setting a high bit.  The
    file models every operation on the stack and proves the protocol: bounds
    arrive when both sides are instrumented, and are never picked up by anyone
    else. *)
From S2P Require Import Prelude Config TrapPtr Bounds Derive Memory ShadowSpace.

(** The runtime state has a bounds stack pointer besides the memory. *)
Class StackEnv (St U : Type) := {
  stack_shadow :: ShadowEnv St U;
  bounds_sp : St -> Z;
  set_bounds_sp : Z -> St -> St;
}.
Class StackEnvLaws (St U : Type) `{StackEnv St U} : Prop := {
  stack_shadow_laws :: ShadowEnvLaws St U;
  bounds_sp_set : forall v st, bounds_sp (set_bounds_sp v st) = v;
  bounds_sp_set_mem : forall m st, bounds_sp (set_mem m st) = bounds_sp st;
  st_mem_set_sp : forall v st, st_mem (set_bounds_sp v st) = st_mem st;
}.

Section operations.
Context `{Config} {St U : Type} `{StackEnv St U}.

(** [sizeof (__libcrunch_bounds_t)]; with 32-bit sizes and a full base the
    struct has four bytes of padding. *)
Definition sizeof_bounds : Z := if wordsize_bounds then 8 else 16.

(** Copying a bounds struct to and from memory; the word-size struct has its
    size first. *)
Definition write_bounds (m : mem) (a : Z) (B : bounds) : mem :=
  if wordsize_bounds then store4 (store4 m a (size B)) (a + 4) (base B)
  else if long_size then store8 (store8 m a (base B)) (a + 8) (size B)
  else store4 (store8 m a (base B)) (a + 8) (size B).
Definition read_bounds (m : mem) (a : Z) : bounds :=
  if wordsize_bounds then {| base := load4 m (a + 4); size := load4 m a |}
  else if long_size then {| base := load8 m a; size := load8 m (a + 8) |}
  else {| base := load8 m a; size := load4 m (a + 8) |}.

Definition alloc_bounds_stack_space (st : St) (nbytes : Z) : Z * St :=
  let words := if nbytes mod 8 =? 0 then nbytes / 8 else nbytes / 8 + 1 in
  let sp := bounds_sp st -w 8 * words in
  (sp, set_bounds_sp sp st).

Definition push_local_argument_bounds (st : St) (bnds : bounds) : St :=
  if no_bounds_stack then st
  else
    let '(b, st) := alloc_bounds_stack_space st sizeof_bounds in
    set_mem (write_bounds (st_mem st) b bnds) st.

Definition push_argument_bounds_base_limit (st : St) (b limit : Z) : St :=
  if no_bounds_stack then st
  else
    let '(addr, st) := alloc_bounds_stack_space st sizeof_bounds in
    set_mem (write_bounds (st_mem st) addr (make_bounds b limit)) st.

Definition fetch_and_push_argument_bounds (st : St) (ptr loaded_from : Z)
    (t : option U) : outcome St :=
  if no_bounds_stack then Ret st
  else
    let '(b, st) := alloc_bounds_stack_space st sizeof_bounds in
    '(st, tmp) ←
      (if negb (loaded_from =? 0)
       then Ret (st, fetch_bounds_inl (st_mem st) ptr loaded_from)
       else fetch_bounds_ool_to_use st ptr loaded_from t);
    Ret (set_mem (write_bounds (st_mem st) b tmp) st).

Definition push_argument_bounds_cookie (st : St) (callee : Z) : St :=
  if no_bounds_stack then st
  else
    let '(c, st) := alloc_bounds_stack_space st 8 in
    set_mem (store8 (st_mem st) c callee) st.

Definition tweak_argument_bounds_cookie (st : St) (callee : Z) : bool * St :=
  if no_bounds_stack then (false, st)
  else
    let top := load8 (st_mem st) (bounds_sp st) in
    if top =? callee then
      (true, set_mem (store8 (st_mem st) (bounds_sp st) (Z.lor top 0x800000000000)) st)
    else (false, st).

Definition peek_argument_bounds (st : St) (really : bool) (offset ptr : Z) : bounds :=
  if no_bounds_stack then libcrunch_make_invalid_bounds ptr
  else if really then
    let b_addr := bounds_sp st +w 8 * (1 + offset * (sizeof_bounds / 8)) in
    read_bounds (st_mem st) b_addr
  else libcrunch_make_invalid_bounds ptr.

Definition peek_and_shadow_store_argument_bounds (st : St) (really : bool)
    (loaded_from offset ptr : Z) (t : option U) : St :=
  if no_bounds_stack then st
  else if really then
    let b := peek_argument_bounds st really offset ptr in
    let typed := match t with Some _ => true | None => false end in
    set_mem (shadow_store_bounds_for (st_mem st) loaded_from b typed) st
  else st.

Definition push_local_result_bounds (st : St) (really : bool) (bnds : bounds) : St :=
  if no_bounds_stack then st
  else if really then
    let '(b, st) := alloc_bounds_stack_space st sizeof_bounds in
    set_mem (write_bounds (st_mem st) b bnds) st
  else st.

Definition push_result_bounds_base_limit (st : St) (really : bool) (b limit : Z) : St :=
  if no_bounds_stack then st
  else if really then
    let '(addr, st) := alloc_bounds_stack_space st sizeof_bounds in
    set_mem (write_bounds (st_mem st) addr (make_bounds b limit)) st
  else st.

Definition fetch_and_push_result_bounds (st : St) (really : bool) (ptr loaded_from : Z)
    (t : option U) : outcome St :=
  if no_bounds_stack then Ret st
  else if really then
    let '(b, st) := alloc_bounds_stack_space st sizeof_bounds in
    '(st, tmp) ←
      (if negb (loaded_from =? 0)
       then Ret (st, fetch_bounds_inl (st_mem st) ptr loaded_from)
       else fetch_bounds_ool_to_use st ptr loaded_from t);
    Ret (set_mem (write_bounds (st_mem st) b tmp) st)
  else Ret st.

Definition peek_result_bounds (st : St) (really : bool) (offset ptr : Z) : bounds :=
  if no_bounds_stack then libcrunch_make_invalid_bounds ptr
  else if really then
    read_bounds (st_mem st) (bounds_sp st +w 8 * (offset * (sizeof_bounds / 8)))
  else libcrunch_make_invalid_bounds ptr.

Definition cleanup_bounds_stack (st : St) (saved_ptr : Z) : St :=
  if no_bounds_stack then st else set_bounds_sp saved_ptr st.
End operations.

(** ** Structs in memory *)

(** Bounds whose fields have the width of the configuration's struct. *)
Definition wf_bounds `{Config} (B : bounds) : Prop :=
  if wordsize_bounds then u32 (base B) /\ u32 (size B)
  else if long_size then u64 (base B) /\ u64 (size B)
  else u64 (base B) /\ u32 (size B).

#[export] Instance wf_bounds_dec `{Config} B : Decision (wf_bounds B).
Proof. unfold wf_bounds, u64, u32. destruct wordsize_bounds, long_size; apply _. Defined.

Section structs.
Context `{C : Config}.

Lemma sizeof_pos : 8 <= sizeof_bounds <= 16.
Proof. unfold sizeof_bounds. destruct wordsize_bounds; lia. Qed.

Lemma read_write_bounds m a B : wf_bounds B -> read_bounds (write_bounds m a B) a = B.
Proof.
  unfold wf_bounds, read_bounds, write_bounds.
  destruct B as [b s], wordsize_bounds, long_size; cbn [base size]; intros [Hb Hs];
    f_equal; rewrite ?load4_store4, ?load8_store8 by done;
    rewrite ?load4_store4_ne, ?load8_store4_ne, ?load8_store8_ne by lia;
    rewrite ?load4_store4, ?load8_store8, ?wrap32_small by done; done.
Qed.

Lemma byte_write_bounds m a B i :
  i < a \/ a + sizeof_bounds <= i -> byte (write_bounds m a B) i = byte m i.
Proof.
  unfold sizeof_bounds, write_bounds, store4, store8.
  destruct wordsize_bounds, long_size; intros Hi;
    rewrite !byte_store_other by lia; done.
Qed.

(** Reading a struct depends on its bytes only. *)
Lemma read_bounds_ext m1 m2 a :
  (forall i, a <= i < a + sizeof_bounds -> byte m1 i = byte m2 i) ->
  read_bounds m1 a = read_bounds m2 a.
Proof.
  unfold sizeof_bounds, read_bounds, load4, load8.
  destruct wordsize_bounds, long_size; intros Hi; f_equal; apply load_ext;
    intros i ?; apply Hi; lia.
Qed.

Lemma make_bounds_wf b l : u64 b -> wf_bounds (make_bounds b l).
Proof.
  intros Hb. unfold wf_bounds, make_bounds, to_size.
  destruct wordsize_bounds, long_size; cbn [base size]; split;
    rewrite ?clear_upper_mod;
    first [apply wrap32_u32|apply wrap64_u64|done].
Qed.
End structs.

(** ** The protocol

    An instrumented call: the caller saves the stack pointer, pushes the bounds
    of the arguments from right to left, pushes the callee's address as cookie,
    remembers where the cookie is, calls, peeks the result bounds if the cookie
    has changed, and cleans up ([crunchbound.ml] emits this sequence around each
    call). *)
Section protocol.
Context `{C : Config} {St U : Type} `{SL : StackEnvLaws St U}.
Implicit Types (st : St).

(** Pushing the bounds [Bs] of the arguments, the first one last. *)
Fixpoint push_arguments (st : St) (Bs : list bounds) : St :=
  match Bs with
  | [] => st
  | B :: Bs => push_local_argument_bounds (push_arguments st Bs) B
  end.

(** A callee: its body gets the verdict of its cookie test and runs on the
    state; it returns the value and the state. *)
Definition instrumented_call (st : St) (callee : Z) (Bs : list bounds)
    (body : St -> outcome (Z * St)) : outcome (Z * bounds * St) :=
  let saved := bounds_sp st in
  let st := push_arguments st Bs in
  let st := push_argument_bounds_cookie st callee in
  let cookie_stackaddr := bounds_sp st in
  '(ret, st) ← body st;
  let really := negb (load8 (st_mem st) cookie_stackaddr =? callee) in
  let B := peek_result_bounds st really 0 ret in
  Ret (ret, B, cleanup_bounds_stack st saved).

(** An instrumented callee that computes its result and its bounds from the
    bounds it peeks for its pointer arguments [args]; [inner] is whatever it
    calls in between. *)
Definition instrumented_callee (callee : Z) (args : list Z)
    (inner : St -> outcome St) (result : list bounds -> Z * bounds)
    (st : St) : outcome (Z * St) :=
  let '(really, st) := tweak_argument_bounds_cookie st callee in
  let Bs := imap (fun i ptr => peek_argument_bounds st really (Z.of_nat i) ptr) args in
  st ← inner st;
  let '(ret, B) := result Bs in
  Ret (ret, push_local_result_bounds st really B).

(** Stack frames below [sp] are scratch; a well-behaved callee restores [sp]
    and leaves the bytes of the stack from [sp] up alone. *)
Definition keeps_stack (lo hi : Z) (f : St -> outcome St) : Prop :=
  forall st st', lo <= bounds_sp st -> f st = Ret st' ->
    bounds_sp st' = bounds_sp st /\
    forall i, bounds_sp st <= i < hi -> byte (st_mem st') i = byte (st_mem st) i.
End protocol.

Section lemmas.
Context `{C : Config} {St U : Type} `{SL : StackEnvLaws St U}.
Hypothesis stack_on : no_bounds_stack = false.
Implicit Types (st : St).

Lemma alloc_sp st n :
  u64 (bounds_sp st) -> n mod 8 = 0 -> 0 <= n <= bounds_sp st ->
  alloc_bounds_stack_space st n = (bounds_sp st - n, set_bounds_sp (bounds_sp st - n) st).
Proof.
  intros Hu Hn Hr. unfold alloc_bounds_stack_space. rewrite Hn; cbn [Z.eqb].
  replace (8 * (n / 8)) with n by mod_lia.
  rewrite sub64_exact by (unfold u64 in *; lia). done.
Qed.

Lemma sizeof_mod : sizeof_bounds mod 8 = 0.
Proof. unfold sizeof_bounds. by destruct wordsize_bounds. Qed.

Lemma push_local_spec st B :
  u64 (bounds_sp st) -> sizeof_bounds <= bounds_sp st ->
  bounds_sp (push_local_argument_bounds st B) = bounds_sp st - sizeof_bounds /\
  st_mem (push_local_argument_bounds st B) =
    write_bounds (st_mem st) (bounds_sp st - sizeof_bounds) B.
Proof.
  intros Hu Hr. unfold push_local_argument_bounds. rewrite stack_on.
  pose proof sizeof_pos. rewrite alloc_sp by (done || lia || apply sizeof_mod).
  by rewrite bounds_sp_set_mem, bounds_sp_set, st_mem_set, st_mem_set_sp.
Qed.

Lemma push_result_spec st B :
  u64 (bounds_sp st) -> sizeof_bounds <= bounds_sp st ->
  bounds_sp (push_local_result_bounds st true B) = bounds_sp st - sizeof_bounds /\
  st_mem (push_local_result_bounds st true B) =
    write_bounds (st_mem st) (bounds_sp st - sizeof_bounds) B.
Proof.
  intros Hu Hr. unfold push_local_result_bounds. rewrite stack_on.
  pose proof sizeof_pos. rewrite alloc_sp by (done || lia || apply sizeof_mod).
  by rewrite bounds_sp_set_mem, bounds_sp_set, st_mem_set, st_mem_set_sp.
Qed.

Lemma push_cookie_spec st c :
  u64 (bounds_sp st) -> 8 <= bounds_sp st ->
  bounds_sp (push_argument_bounds_cookie st c) = bounds_sp st - 8 /\
  st_mem (push_argument_bounds_cookie st c) = store8 (st_mem st) (bounds_sp st - 8) c.
Proof.
  intros Hu Hr. unfold push_argument_bounds_cookie. rewrite stack_on.
  rewrite alloc_sp by (done || lia).
  by rewrite bounds_sp_set_mem, bounds_sp_set, st_mem_set, st_mem_set_sp.
Qed.

Lemma push_arguments_spec Bs : forall st,
  u64 (bounds_sp st) -> sizeof_bounds * Z.of_nat (length Bs) <= bounds_sp st ->
  Forall wf_bounds Bs ->
  let st' := push_arguments st Bs in
  bounds_sp st' = bounds_sp st - sizeof_bounds * Z.of_nat (length Bs) /\
  (forall i B, Bs !! i = Some B ->
     read_bounds (st_mem st') (bounds_sp st' + sizeof_bounds * Z.of_nat i) = B) /\
  (forall i, bounds_sp st <= i -> byte (st_mem st') i = byte (st_mem st) i).
Proof.
  pose proof sizeof_pos as Hsz.
  induction Bs as [|B Bs IH]; intros st Hu Hr Hwf; cbn [push_arguments length] in *.
  { split; [lia|]. by split. }
  apply Forall_cons in Hwf as [HB Hwf].
  destruct (IH st Hu ltac:(lia) Hwf) as (Hsp & Hrd & Hfr).
  set (st1 := push_arguments st Bs) in *.
  destruct (push_local_spec st1 B) as [Hsp' Hm];
    [rewrite Hsp; unfold u64 in *; lia|rewrite Hsp; lia|].
  rewrite Hsp', Hm. split; [rewrite Hsp; lia|]. split.
  - intros [|i] B' Hi; cbn in Hi; simplify_eq.
    + rewrite Z.mul_0_r, Z.add_0_r. by apply read_write_bounds.
    + rewrite <- (Hrd i B' Hi).
      replace (bounds_sp st1 - sizeof_bounds + sizeof_bounds * Z.of_nat (S i))
        with (bounds_sp st1 + sizeof_bounds * Z.of_nat i) by lia.
      apply read_bounds_ext. intros j Hj. apply byte_write_bounds. lia.
  - intros i Hi. rewrite byte_write_bounds by lia. by apply Hfr.
Qed.

Lemma tweaked_cookie_ne c d : 0 <= c < 2 ^ 47 -> 0 <= d < 2 ^ 47 -> Z.lor c 0x800000000000 <> d.
Proof.
  intros Hc Hd Heq. assert (Z.testbit d 47 = true) as Hb.
  { rewrite <- Heq, Z.lor_spec. by rewrite orb_true_r. }
  rewrite <- (Z.mod_small d (2 ^ 47)), Z.mod_pow2_bits_high in Hb by lia. done.
Qed.

Lemma tweaked_cookie_u64 c : 0 <= c < 2 ^ 47 -> u64 (Z.lor c 0x800000000000).
Proof.
  intros Hc. change 0x800000000000 with (1 * 2 ^ 47).
  rewrite Z.lor_comm, <- (Z.mod_small c (2 ^ 47)), lor_high_low by lia.
  rewrite Z.mod_small by lia. unfold u64. lia.
Qed.

(** The state a callee entered with [Bs] and the cookie [c] on the stack sees. *)
Definition entered st c (Bs : list bounds) : Prop :=
  load8 (st_mem st) (bounds_sp st) = c /\
  forall i B, Bs !! i = Some B ->
    read_bounds (st_mem st) (bounds_sp st + 8 + sizeof_bounds * Z.of_nat i) = B.

Lemma peek_entered st c Bs i B ptr :
  u64 (bounds_sp st + 8 + sizeof_bounds * Z.of_nat (length Bs)) -> u64 (bounds_sp st) ->
  entered st c Bs -> Bs !! i = Some B ->
  peek_argument_bounds st true (Z.of_nat i) ptr = B.
Proof.
  intros Hu Hu' [_ Hb] Hi. unfold peek_argument_bounds. rewrite stack_on.
  rewrite <- (Hb i B Hi). f_equal. apply lookup_lt_Some in Hi.
  pose proof sizeof_pos.
  replace (8 * (1 + Z.of_nat i * (sizeof_bounds / 8)))
    with (8 + sizeof_bounds * Z.of_nat i)
    by (unfold sizeof_bounds; destruct wordsize_bounds; change (8 / 8) with 1; change (16 / 8) with 2; lia).
  rewrite <- Z.add_assoc. apply wrap64_small. unfold u64 in *. nia.
Qed.

Lemma peek_all_entered st c Bs args :
  u64 (bounds_sp st + 8 + sizeof_bounds * Z.of_nat (length Bs)) -> u64 (bounds_sp st) ->
  entered st c Bs -> length args = length Bs ->
  imap (fun i ptr => peek_argument_bounds st true (Z.of_nat i) ptr) args = Bs.
Proof.
  intros Hu Hu' He Hl. apply list_eq. intros i. rewrite list_lookup_imap.
  destruct (Bs !! i) as [B|] eqn:HB.
  - destruct (args !! i) as [p|] eqn:Hp.
    + cbn. f_equal. by eapply peek_entered.
    + apply lookup_ge_None in Hp. apply lookup_lt_Some in HB. lia.
  - apply lookup_ge_None in HB. rewrite (proj2 (lookup_ge_None args i)); [done|lia].
Qed.

(** A matching cookie is consumed, and the stack is otherwise unchanged. *)
Lemma tweak_entered st c Bs :
  0 <= c < 2 ^ 47 -> u64 (bounds_sp st) -> entered st c Bs ->
  exists st', tweak_argument_bounds_cookie st c = (true, st') /\
    bounds_sp st' = bounds_sp st /\
    entered st' (Z.lor c 0x800000000000) Bs /\
    forall i, i < bounds_sp st \/ bounds_sp st + 8 <= i ->
      byte (st_mem st') i = byte (st_mem st) i.
Proof.
  intros Hc Hu [Ht Hb]. unfold tweak_argument_bounds_cookie. rewrite stack_on, Ht, Z.eqb_refl.
  eexists; split; [done|]. rewrite bounds_sp_set_mem. split; [done|].
  assert (forall i, i < bounds_sp st \/ bounds_sp st + 8 <= i ->
    byte (store8 (st_mem st) (bounds_sp st) (Z.lor c 0x800000000000)) i = byte (st_mem st) i)
    as Hfr by (intros i Hi; apply byte_store_other; lia).
  split.
  - unfold entered. rewrite bounds_sp_set_mem, st_mem_set. split.
    + apply load8_store8. by apply tweaked_cookie_u64.
    + intros i B Hi. rewrite <- (Hb i B Hi). apply read_bounds_ext. intros j Hj. apply Hfr.
      pose proof sizeof_pos. lia.
  - by rewrite st_mem_set.
Qed.

Lemma tweak_other st c :
  load8 (st_mem st) (bounds_sp st) <> c -> tweak_argument_bounds_cookie st c = (false, st).
Proof.
  intros Hne. unfold tweak_argument_bounds_cookie. rewrite stack_on.
  by rewrite (proj2 (Z.eqb_neq _ _)).
Qed.

(** What the caller has set up when the callee starts. *)
Lemma caller_enters st c Bs :
  let st' := push_argument_bounds_cookie (push_arguments st Bs) c in
  u64 (bounds_sp st) -> u64 c ->
  sizeof_bounds * Z.of_nat (length Bs) + 8 <= bounds_sp st -> Forall wf_bounds Bs ->
  bounds_sp st' = bounds_sp st - sizeof_bounds * Z.of_nat (length Bs) - 8 /\
  entered st' c Bs /\
  (forall i, bounds_sp st <= i -> byte (st_mem st') i = byte (st_mem st) i).
Proof.
  intros st' Hu Hc Hr Hwf. pose proof sizeof_pos.
  destruct (push_arguments_spec Bs st Hu ltac:(lia) Hwf) as (Hsp & Hrd & Hfr).
  destruct (push_cookie_spec (push_arguments st Bs) c) as [Hsp' Hm];
    [rewrite Hsp; unfold u64 in *; lia|rewrite Hsp; lia|].
  unfold st', entered. rewrite Hsp', Hm. split; [rewrite Hsp; lia|]. split; [split|].
  - by apply load8_store8.
  - intros i B Hi. rewrite <- (Hrd i B Hi). rewrite Z.sub_add.
    apply read_bounds_ext. intros j Hj. apply byte_store_other. lia.
  - intros i Hi. unfold store8. rewrite byte_store_other by (rewrite Hsp; lia). by apply Hfr.
Qed.
End lemmas.

(** ** Properties *)
Section properties.
Context `{C : Config} {St U : Type} `{SL : StackEnvLaws St U}.
Hypothesis stack_on : no_bounds_stack = false.
Implicit Types (st : St).

(** The callee's side of a call it recognises. *)
Lemma callee_run st c Bs args inner result hi st1 :
  0 <= c < 2 ^ 47 -> length args = length Bs -> wf_bounds (result Bs).2 ->
  u64 (bounds_sp st) -> sizeof_bounds <= bounds_sp st ->
  u64 (bounds_sp st + 8 + sizeof_bounds * Z.of_nat (length Bs)) ->
  bounds_sp st + 8 <= hi ->
  entered st c Bs -> (tweak_argument_bounds_cookie st c).1 = true ->
  inner (tweak_argument_bounds_cookie st c).2 = Ret st1 ->
  bounds_sp st1 = bounds_sp st ->
  (forall i, bounds_sp st <= i < hi ->
     byte (st_mem st1) i = byte (st_mem (tweak_argument_bounds_cookie st c).2) i) ->
  exists st2, instrumented_callee c args inner result st = Ret ((result Bs).1, st2) /\
    negb (load8 (st_mem st2) (bounds_sp st) =? c) = true /\
    (forall ptr, peek_result_bounds st2 true 0 ptr = (result Bs).2) /\
    (forall i, bounds_sp st + 8 <= i < hi -> byte (st_mem st2) i = byte (st_mem st) i).
Proof.
  intros Hc Hl Hwf Hu Hsz Huh Hhi He Htr Hin Hsp1 Hb1. pose proof sizeof_pos as Hsp.
  destruct (tweak_entered stack_on st c Bs Hc Hu He) as (stt & Htw & Hspt & Het & Hfr).
  unfold instrumented_callee. rewrite Htw in *; cbn [fst snd] in *.
  rewrite (peek_all_entered stack_on stt _ Bs args) by (rewrite ?Hspt; done).
  rewrite Hin; cbn [mbind outcome_bind]. destruct (result Bs) as [r B] eqn:Hres; cbn [fst snd] in *.
  destruct (push_result_spec stack_on st1 B) as [Hsp2 Hm2]; [by rewrite Hsp1|by rewrite Hsp1|].
  eexists; split; [done|]. rewrite Hm2. split; [|split].
  - apply negb_true_iff, Z.eqb_neq. rewrite Hsp1.
    assert (load8 (write_bounds (st_mem st1) (bounds_sp st - sizeof_bounds) B) (bounds_sp st) =
      Z.lor c 0x800000000000) as ->; [|by apply tweaked_cookie_ne].
    destruct Het as [Hct _]. rewrite Hspt in Hct. rewrite <- Hct. apply load_ext. intros i Hi.
    rewrite byte_write_bounds by lia. apply Hb1. lia.
  - intros ptr. unfold peek_result_bounds. rewrite stack_on, Hm2, Hsp2.
    replace (8 * (0 * (sizeof_bounds / 8))) with 0 by lia.
    assert ((bounds_sp st1 - sizeof_bounds +w 0) = bounds_sp st1 - sizeof_bounds) as ->
      by (rewrite <- (wrap64_small (_ - _)) at 2;
          [unfold add64; by rewrite Z.add_0_r|rewrite Hsp1; unfold u64 in *; lia]).
    by apply read_write_bounds.
  - intros i Hi. rewrite byte_write_bounds by lia. rewrite Hb1 by lia. apply Hfr. lia.
Qed.

(** C19. Bounds cross a call between instrumented code: the callee sees exactly
    the bounds the caller passed, in order, whatever else was on the stack and
    whatever instrumented calls it makes, and the caller sees exactly the
    result bounds the callee pushed.  The call restores the bounds stack
    pointer and leaves every byte of the bounds stack above it unchanged, so
    that calls nest. *)
Theorem instrumented_call_delivers st callee Bs args inner result hi :
  0 <= callee < 2 ^ 47 -> length args = length Bs ->
  Forall wf_bounds Bs -> wf_bounds (result Bs).2 ->
  u64 (bounds_sp st) -> bounds_sp st <= hi ->
  sizeof_bounds * (Z.of_nat (length Bs) + 1) + 8 <= bounds_sp st ->
  keeps_stack 0 hi inner -> (forall st, exists st', inner st = Ret st') ->
  exists st',
    instrumented_call st callee Bs (instrumented_callee callee args inner result) =
      Ret ((result Bs).1, (result Bs).2, st') /\
    bounds_sp st' = bounds_sp st /\
    forall i, bounds_sp st <= i < hi -> byte (st_mem st') i = byte (st_mem st) i.
Proof.
  intros Hc Hl Hwf Hwr Hu Hhi Hr Hk Htot. pose proof sizeof_pos as Hsz.
  destruct (caller_enters stack_on st callee Bs) as (Hsp & He & Hfr);
    [done|unfold u64; lia|lia|done|].
  unfold instrumented_call.
  set (st1 := push_argument_bounds_cookie (push_arguments st Bs) callee) in *.
  destruct (tweak_entered stack_on st1 callee Bs Hc ltac:(rewrite Hsp; unfold u64 in *; lia) He)
    as (stt & Htw & Hspt & _ & _).
  destruct (Htot stt) as [sti Hin].
  destruct (Hk stt sti ltac:(rewrite Hspt, Hsp; lia) Hin) as [Hspi Hbi].
  destruct (callee_run st1 callee Bs args inner result hi sti)
    as (st2 & Hrun & Hck & Hpk & Hfr2); rewrite ?Htw; try done;
    try (rewrite Hsp; unfold u64 in *; lia).
  all: cbn [fst snd]; rewrite ?Hspi, ?Hspt; try done.
  { intros i Hi. apply Hbi. rewrite Hspt. lia. }
  rewrite Hrun; cbn [mbind outcome_bind]. rewrite Hck, Hpk.
  eexists; split; [done|]. unfold cleanup_bounds_stack. rewrite stack_on, bounds_sp_set.
  split; [done|]. intros i Hi. rewrite st_mem_set_sp, Hfr2 by (rewrite Hsp; lia).
  apply Hfr. lia.
Qed.

(** C21. Bounds are never picked up by code they were not meant for.  A callee
    whose address is not the cookie on top of the stack gets invalid bounds for
    every argument and pushes nothing; after a callee has consumed its cookie
    no callee finds a match, not even itself re-entered from uninstrumented
    code; and a call to code that leaves the bounds stack alone returns
    invalid bounds and restores the stack pointer. *)
Theorem bounds_not_misdelivered st callee Bs args inner result :
  0 <= callee < 2 ^ 47 -> Forall wf_bounds Bs -> u64 (bounds_sp st) ->
  sizeof_bounds * (Z.of_nat (length Bs) + 1) + 8 <= bounds_sp st ->
  (load8 (st_mem st) (bounds_sp st) <> callee ->
     instrumented_callee callee args inner result st =
       (st' ← inner st; Ret ((result (libcrunch_make_invalid_bounds <$> args)).1, st'))) /\
  (entered st callee Bs -> forall c', 0 <= c' < 2 ^ 47 ->
     tweak_argument_bounds_cookie (tweak_argument_bounds_cookie st callee).2 c' =
       (false, (tweak_argument_bounds_cookie st callee).2)) /\
  (forall ret, exists st',
     instrumented_call st callee Bs (fun st => Ret (ret, st)) =
       Ret (ret, libcrunch_make_invalid_bounds ret, st') /\
     bounds_sp st' = bounds_sp st).
Proof.
  intros Hc Hwf Hu Hr. pose proof sizeof_pos as Hsz. split; [|split].
  - intros Hne. unfold instrumented_callee. rewrite tweak_other by done.
    assert (imap (fun i ptr => peek_argument_bounds st false (Z.of_nat i) ptr) args =
      libcrunch_make_invalid_bounds <$> args) as ->.
    { apply list_eq. intros i. rewrite list_lookup_imap, list_lookup_fmap.
      unfold peek_argument_bounds. by rewrite stack_on. }
    destruct (inner st) as [st'| |]; [|done..]. cbn [mbind outcome_bind].
    destruct (result _) as [r B]. unfold push_local_result_bounds. by rewrite stack_on.
  - intros He c' Hc'.
    destruct (tweak_entered stack_on st callee Bs Hc Hu He) as (stt & -> & _ & [Ht _] & _).
    cbn [snd]. apply tweak_other; [done|]. rewrite Ht. by apply tweaked_cookie_ne.
  - intros ret. destruct (caller_enters stack_on st callee Bs) as (Hsp & [Ht _] & _);
      [done|unfold u64; lia|lia|done|].
    unfold instrumented_call; cbn [mbind outcome_bind]. rewrite Ht, Z.eqb_refl; cbn [negb].
    unfold peek_result_bounds, cleanup_bounds_stack. rewrite stack_on.
    eexists; split; [done|]. by rewrite bounds_sp_set.
Qed.
End properties.

(** ** A concrete environment: memory and stack pointer. *)
#[local] Instance stack_env : StackEnv (mem * Z) unit := {|
  stack_shadow := {|
    shadow_derive := {|
      count_ptr_derivation st := st; count_ptr_deref st := st; count_transition st := st;
      bounds_error st _ _ _ := st; soft_deref_error_at st _ _ := st;
      fetch_bounds_ool_to_use st _ _ _ := Ret (st, Bounds 0x1000 0x40) |};
    st_mem st := st.1; set_mem m st := (m, st.2); count_ptr_store st := st;
    fetch_bounds_ool st _ _ _ := Ret (st, Bounds 0x1000 0x40) |};
  bounds_sp st := st.2; set_bounds_sp sp st := (st.1, sp);
|}.
#[local] Instance stack_env_laws : StackEnvLaws (mem * Z) unit.
Proof. by split. Qed.

(** A callee with two pointer arguments that returns the second one, with its
    bounds, and calls nothing. *)
Lemma instrumented_call_delivers_witness :
  exists st',
    @instrumented_call config_p (mem * Z) unit _ (∅, 0x7f0000010000) 0x401000
      [Bounds 0x1000 0x40; Bounds 0x2000 0x80]
      (@instrumented_callee config_p (mem * Z) unit _ 0x401000 [0x1000; 0x2008]
        (fun st => Ret st) (fun Bs => (0x2008, default (Bounds 0 0) (Bs !! 1%nat))))
    = Ret (0x2008, Bounds 0x2000 0x80, st').
Proof.
  destruct (@instrumented_call_delivers config_p (mem * Z) unit _ _ eq_refl
    (∅, 0x7f0000010000) 0x401000 [Bounds 0x1000 0x40; Bounds 0x2000 0x80] [0x1000; 0x2008]
    (fun st => Ret st) (fun Bs => (0x2008, default (Bounds 0 0) (Bs !! 1%nat))) 0x7f0000010000)
    as (st' & Hr & _).
  - lia.
  - reflexivity.
  - apply (bool_decide_unpack _); vm_compute; done.
  - vm_compute; done.
  - unfold u64; cbn; lia.
  - vm_compute; discriminate.
  - vm_compute; discriminate.
  - intros st st' _ [= ->]. by split.
  - intros st. by exists st.
  - exists st'. exact Hr.
Defined.

Lemma bounds_not_misdelivered_witness :
  exists st',
    @instrumented_call config_p (mem * Z) unit _ (∅, 0x7f0000010000) 0x401000
      [Bounds 0x1000 0x40] (fun st => Ret (0x2008, st)) =
    Ret (0x2008, @libcrunch_make_invalid_bounds config_p 0x2008, st').
Proof.
  destruct (@bounds_not_misdelivered config_p (mem * Z) unit _ _ eq_refl
    (∅, 0x7f0000010000) 0x401000 [Bounds 0x1000 0x40] [] (fun st => Ret st)
    (fun Bs => (0, Bounds 0 0))) as (_ & _ & Hu).
  { lia. }
  { apply (bool_decide_unpack _); vm_compute; done. }
  { unfold u64; cbn; lia. }
  { vm_compute; discriminate. }
  destruct (Hu 0x2008) as (st' & Hr & _). exists st'. exact Hr.
Defined.
