(* ===== verification/ShadowMap.v ===== *)
(** * Laying out the shadow space

    [src/shadow.c]: the constructor that checks the existing mappings, maps the
    eight shadow regions and initialises the entries of the program's initial
    pointers, and the hook that steers later [mmap]s into the ranges the shadow
    space covers.  The walk over the mappings is liballocs' ([MapsWalker]); what
    the kernel answers is a parameter. *)
From S2P Require Import Prelude Config TrapPtr Bounds Derive Memory ShadowSpace BoundsStack.

(** The globals of the file. *)
Record map_state := MapState {
  bounds_bases_region_00 : Z;
  first_2a_free : Z;
  first_30_free : Z;
}.

Definition is_in_range (range_start range_lastbyte mapping_start mapping_lastbyte : Z) : bool :=
  (range_start <=? mapping_start) && (mapping_lastbyte <=? range_lastbyte).

(** An entry of [/proc/<pid>/maps]: first byte and the byte after the last.  The
    function is declared to return an [int] and falls off its end: its result is
    whatever is [left] where results are returned. *)
Definition check_maps_cb (left : Z) (st : map_state) (ent : Z * Z) : outcome (map_state * Z) :=
  let '(first, second) := ent in
  let last := second -w 1 in
  let st :=
    if is_in_range 0x2aaaaaaab000 0x2fffffffffff first last then
      if (first_2a_free st =? 0) || (first_2a_free st <? second) then
        MapState (bounds_bases_region_00 st) second (first_30_free st)
      else st
    else st in
  if is_in_range 0x000000000000 0x055555555554 first last
     || is_in_range 0x2aaaaaaab000 0x2fffffffffff first last
     || is_in_range 0x555555556000 0x565555556000 first last
     || is_in_range 0x7aaaaaaab000 0x7fffffffffff first last
  then Ret (st, left)
  else if is_in_range 0xffffffff80000000 0xffffffffffffffff first last then Ret (st, left)
  else if is_in_range 0x300000000000 0x4fffffffffff first last then Ret (st, left)
  else Abort.

(** liballocs' [for_each_maps_entry], which is not part of this program: it calls
    a function on one entry after the other, and stops when the function's
    result is not zero. *)
Class MapsWalker :=
  for_each_maps_entry : (map_state -> Z * Z -> outcome (map_state * Z)) -> map_state -> list (Z * Z) -> outcome map_state.
Class MapsWalkerLaws (M : MapsWalker) : Prop := {
  walk_done cb st : for_each_maps_entry cb st [] = Ret st;
  walk_entry cb st ent ents : for_each_maps_entry cb st (ent :: ents) =
    '(st, ret) ← cb st ent; if ret =? 0 then for_each_maps_entry cb st ents else Ret st;
}.

(** The regions [init_shadow_space] maps: start and end. *)
Definition bases_regions : list (Z * Z) :=
  [ (0x700000000000, 0x755555556000); (0x5aaaaaaab000, 0x600000000000);
    (0x255555556000, 0x265555556000); (0x0aaaaaaab000, 0x100000000000) ].
Definition sizes_region_00 : Z * Z := (0x080000000000, 0x0aaaaaaab000).
Definition sizes_regions : list (Z * Z) :=
  [ (0x1d5555556000, 0x22aaaaaab000); (0x32aa80000000, 0x332aaaaab000);
    (0x455555556000, 0x480000000000) ].

Section init.
Context `{M : MapsWalker}.
(** What the callback leaves as its result. *)
Variable left_over : map_state -> Z * Z -> Z.
(** [mmap] with [MAP_FIXED]: the address it returns for a start and a size. *)
Variable mmap_fixed : Z -> Z -> Z.
(** Where [mmap] puts the bounds stack. *)
Variable mmap_stack : Z.

Fixpoint map_regions (regions : list (Z * Z)) : outcome unit :=
  match regions with
  | [] => Ret tt
  | (s, e) :: regions =>
      if mmap_fixed s (e - s) =? s then map_regions regions else Abort
  end.

Definition BOUNDS_STACK_SIZE : Z := 65536.

(** [init_shadow_space] up to the call of [init_shadow_entries]: the maps
    entries [ents] it walks, whether the full libcrunch is loaded, whether
    [/dev/ones] could be opened, and the first word read back from it.  The
    result is the state and the bounds stack pointer. *)
Definition init_shadow_space (st : map_state) (ents : list (Z * Z))
    (libcrunch_is_loaded dev_ones_open : bool) (first_size : Z) : outcome (map_state * Z) :=
  let sp := mmap_stack in
  let sp := sp +w (BOUNDS_STACK_SIZE - 8) in
  st ← for_each_maps_entry (fun st ent => check_maps_cb (left_over st ent) st ent) st ents;
  let st := if first_2a_free st =? 0
            then MapState (bounds_bases_region_00 st) 0x2aaaaaaab000 (first_30_free st) else st in
  let st := if first_30_free st =? 0
            then MapState (bounds_bases_region_00 st) (first_2a_free st) 0x332aaaaab000 else st in
  _ ← map_regions bases_regions;
  let st := MapState 0x700000000000 (first_2a_free st) (first_30_free st) in
  _ ← map_regions [sizes_region_00];
  if negb libcrunch_is_loaded && dev_ones_open && negb (first_size =? 0xffffffff) then Abort
  else
    _ ← map_regions sizes_regions;
    Ret (st, sp).
End init.

(** The state of the file's globals when the constructor starts. *)
Definition initial_map_state : map_state := MapState 0 0 0x332aaaaab000.

(** The arguments of an [mmap] the hook may change. *)
Record mmap_args := MmapArgs { p_addr : Z; p_length : Z; p_flags : Z }.
Definition MAP_FIXED : Z := 0x10.

Section nudge.
(** The hook of liballocs that runs first, its limit on the size of a user
    allocation, and its page index (absent when the weak symbol is null). *)
Variable real_nudge_mmap : mmap_args -> mmap_args.
Variable BIGGEST_SANE_USER_ALLOC : Z.
Variable pageindex : option (Z -> Z).
Variable LOG_PAGE_SIZE : Z.

Definition wrap_nudge_mmap (st : map_state) (args : mmap_args) : outcome (map_state * mmap_args) :=
  let args := real_nudge_mmap args in
  if bounds_bases_region_00 st =? 0 then Ret (st, args)
  else
    '(st, args) ←
      (if negb (p_addr args =? 0) && negb (Z.land (p_flags args) MAP_FIXED =? 0) then
         if is_in_range 0x2aaaaaaab000 0x2fffffffffff (p_addr args)
              (p_addr args +w p_length args -w 1) then
           let limit := p_addr args +w p_length args in
           if (first_2a_free st =? 0) || (first_2a_free st <? limit)
           then Ret (MapState (bounds_bases_region_00 st) limit (first_30_free st), args)
           else Ret (st, args)
         else Ret (st, args)
       else if BIGGEST_SANE_USER_ALLOC <? p_length args then
         Ret (MapState (bounds_bases_region_00 st) (first_2a_free st)
                (first_30_free st +w p_length args),
              MmapArgs (first_30_free st) (p_length args) (p_flags args))
       else if first_2a_free st =? 0 then Abort
       else if p_addr args =? 0 then
         Ret (MapState (bounds_bases_region_00 st) (first_2a_free st +w p_length args)
                (first_30_free st),
              MmapArgs (first_2a_free st) (p_length args) (p_flags args))
       else Ret (st, args));
    match pageindex with
    | Some pageindex =>
        if pageindex (shr64 (p_addr args) LOG_PAGE_SIZE) =? 0 then Ret (st, args) else Abort
    | None => Ret (st, args)
    end.
End nudge.

(** ** Initial entries

    What the auxiliary vector says about the stack the kernel set up. *)
Record auxv_limits := {
  argv_vector_start : Z; argv_vector_terminator : Z;
  env_vector_start : Z; env_vector_terminator : Z;
}.
(** The libc objects whose pointers get bounds by hand: the addresses of the
    pointers, and the size of a [FILE]. *)
Record libc_globals := {
  addr_environ : Z; addr_stdin : Z; addr_stdout : Z; addr_stderr : Z; sizeof_FILE : Z;
  ctype_b_loc : Z; ctype_toupper_loc : Z; ctype_tolower_loc : Z;
}.

(** [*BASE_STORED(p) = b; *SIZE_STORED(p) = n]. *)
Definition set_entry (m : mem) (p b n : Z) : mem :=
  store4 (store8 m (libcrunch_base_stored_loc p) b) (libcrunch_size_stored_loc p) n.

(** The loops over [argv] and [envp]: every string gets its own bounds. *)
Fixpoint init_vector (fuel : nat) (m : mem) (p terminator : Z) : option mem :=
  if p =? terminator then Some m
  else match fuel with
  | O => None
  | S fuel =>
      let s := load8 m p in
      init_vector fuel (set_entry m p s (strlen m s + 1)) (p +w 8) terminator
  end.
Definition vector_fuel (p terminator : Z) : nat := Z.to_nat ((terminator - p) / 8).

Section entries.
Context `{Config} {St U : Type} `{StackEnv St U}.

Definition init_libc_entries (m : mem) (g : libc_globals) (lims : auxv_limits) : mem :=
  let m := set_entry m (addr_environ g) (env_vector_start lims)
             ((env_vector_terminator lims +w 8 -w env_vector_start lims) / 8 * 8) in
  let m := set_entry m (addr_stdin g) (load8 m (addr_stdin g)) (sizeof_FILE g) in
  let m := set_entry m (addr_stdout g) (load8 m (addr_stdout g)) (sizeof_FILE g) in
  let m := set_entry m (addr_stderr g) (load8 m (addr_stderr g)) (sizeof_FILE g) in
  let m := set_entry m (ctype_b_loc g) (load8 m (ctype_b_loc g)) 768 in
  let m := set_entry m (ctype_toupper_loc g) (load8 m (ctype_toupper_loc g)) (384 * 4) in
  set_entry m (ctype_tolower_loc g) (load8 m (ctype_tolower_loc g)) (384 * 4).

(** [init_shadow_entries]; [main_addr] is what looking up [main] gives (null if
    it fails).  [None] stands for a loop that does not end. *)
Definition init_shadow_entries (st : St) (lims : option auxv_limits) (g : libc_globals)
    (main_addr : Z) : option St :=
  match lims with
  | None => Some st
  | Some lims =>
      m ← init_vector (vector_fuel (argv_vector_start lims) (argv_vector_terminator lims))
            (st_mem st) (argv_vector_start lims) (argv_vector_terminator lims);
      m ← init_vector (vector_fuel (env_vector_start lims) (env_vector_terminator lims))
            m (env_vector_start lims) (env_vector_terminator lims);
      let st := set_mem m st in
      let st := push_argument_bounds_base_limit st (argv_vector_start lims)
                  (argv_vector_terminator lims +w 8) in
      let st := push_argument_bounds_cookie st main_addr in
      Some (set_mem (init_libc_entries (st_mem st) g lims) st)
  end.
End entries.

(** ** Layout *)
Definition all_regions : list (Z * Z) := bases_regions ++ sizes_region_00 :: sizes_regions.

(** [[a, a+n)] lies inside one of the regions. *)
Definition covered (regions : list (Z * Z)) (a n : Z) : Prop :=
  Exists (fun r => r.1 <= a /\ a + n <= r.2) regions.

(** The pages of user memory whose size entries start before their region: the
    first page of the second and of the fourth user range. *)
Definition uncovered_page (a : Z) : Prop :=
  0x2aaaaaaab000 <= a < 0x2aaaaaaac000 \/ 0x7aaaaaaab000 <= a < 0x7aaaaaaac000.

(** The mapped regions hold the shadow entries of all user memory, with
    one exception: the base entry of every slot lies in a mapped region, and
    its size entry does exactly if the slot is not in the first page of the
    ranges from 0x2aaaaaaab000 and from 0x7aaaaaaab000, whose size regions are
    mapped from a page boundary half a page above the first entry. *)
Theorem shadow_slots_mapped a :
  slot a ->
  covered bases_regions (libcrunch_base_stored_loc a) 8 /\
  (covered (sizes_region_00 :: sizes_regions) (libcrunch_size_stored_loc a) 4 <->
     ~ uncovered_page a).
Proof.
  intros Ha. pose proof (slot_shadowable a Ha) as Hs. destruct Ha as [Hr Hm].
  pose proof (shadowable_user a Hs) as Hu. apply base_stored_loc_cases in Hs.
  apply one_range_cases in Hr.
  rewrite size_stored_loc_eq by done. unfold covered, uncovered_page, bases_regions,
    sizes_regions, sizes_region_00. rewrite !Exists_cons, !Exists_nil; cbn [fst snd]. eval_pow2.
  destruct Hs as [[? ->]|[[? ->]|[[? ->]|[? ->]]]]; split; mod_lia.
Qed.

(** The eight regions are page-aligned, lie in the user half of the
    address space, do not overlap one another, do not overlap user memory, and
    leave the addresses from which huge mappings are handed out free. *)
Theorem shadow_regions_disjoint :
  (forall r, r ∈ all_regions ->
     r.1 mod 4096 = 0 /\ r.2 mod 4096 = 0 /\ 0 < r.1 < r.2 /\ r.2 < 2 ^ 47 /\
     (r.2 <= first_30_free initial_map_state \/ 0x455555556000 <= r.1) /\
     forall a, r.1 <= a < r.2 -> shadowable a = false) /\
  forall i j r s, all_regions !! i = Some r -> all_regions !! j = Some s -> i <> j ->
    r.2 <= s.1 \/ s.2 <= r.1.
Proof.
  split.
  - unfold all_regions, bases_regions, sizes_regions, sizes_region_00; cbn [app].
    intros r Hr. rewrite !elem_of_cons, elem_of_nil in Hr.
    destruct Hr as [->|[->|[->|[->|[->|[->|[->|[->|[]]]]]]]]]; cbn [fst snd first_30_free initial_map_state];
      (split; [done|]; split; [done|]; split; [lia|]; split; [lia|]; split; [lia|]);
      intros a Ha; apply not_true_is_false; intros Hs%shadowable_cases; lia.
  - intros i j r s Hi Hj Hne.
    assert (forallb (fun i => forallb (fun j => (i =? j)%nat ||
      match all_regions !! i, all_regions !! j with
      | Some r, Some s => (r.2 <=? s.1) || (s.2 <=? r.1) | _, _ => true end)
      (seq 0 8)) (seq 0 8) = true) as Hall by (vm_compute; reflexivity).
    rewrite forallb_forall in Hall.
    assert ((i < 8)%nat /\ (j < 8)%nat) as [Hi8 Hj8].
    { apply lookup_lt_Some in Hi, Hj. by cbn in Hi, Hj. }
    specialize (Hall i ltac:(apply in_seq; lia)). rewrite forallb_forall in Hall.
    specialize (Hall j ltac:(apply in_seq; lia)). rewrite Hi, Hj in Hall.
    rewrite (proj2 (Nat.eqb_neq i j)) in Hall by done. cbn [orb] in Hall.
    apply orb_true_iff in Hall as [H|H]; apply Z.leb_le in H; [by left|by right].
Qed.

(** ** Mappings *)

(** A mapping in the range the hook hands out from. *)
Definition in_2a (r : Z * Z) : bool :=
  is_in_range 0x2aaaaaaab000 0x2fffffffffff r.1 (r.2 - 1).
Definition end_2a : Z := 0x300000000000.
Definition sane_entry (r : Z * Z) : Prop := 0 <= r.1 < r.2 /\ r.2 <= 2 ^ 64 - 1.

Lemma in_2a_end r : in_2a r = true -> r.2 <= end_2a.
Proof. unfold in_2a, is_in_range, end_2a. rewrite andb_true_iff, !Z.leb_le. lia. Qed.

(** The mappings the shadow space can live with. *)
Definition acceptable (r : Z * Z) : Prop :=
  (exists u, u ∈ user_ranges /\ u.1 <= r.1 /\ r.2 <= u.2 + 2) \/
  (0x300000000000 <= r.1 /\ r.2 <= 0x500000000000) \/ 0xffffffff80000000 <= r.1.

Lemma check_maps_cb_acceptable left st r st' left' :
  sane_entry r -> check_maps_cb left st r = Ret (st', left') -> acceptable r.
Proof.
  destruct r as [s e]. unfold check_maps_cb, sane_entry, acceptable; cbn [fst snd]. intros [Hs He].
  rewrite sub64_exact by (unfold u64; lia). unfold is_in_range. intros Hcb.
  repeat match type of Hcb with
  | context [if ?b then Ret _ else _] => destruct b eqn:?
  end; try done.
  - left. rewrite !orb_true_iff, !andb_true_iff, !Z.leb_le in *. unfold user_ranges.
    destruct Heqb as [[[Hb|Hb]|Hb]|Hb];
      [exists (0x000000000000, 0x055555555554)|exists (0x2aaaaaaab000, 0x2fffffffffff)
      |exists (0x555555556000, 0x565555555fff)|exists (0x7aaaaaaab000, 0x7fffffffffff)];
      (split; [rewrite !elem_of_cons; tauto|cbn; lia]).
  - right; right. rewrite !andb_true_iff, !Z.leb_le in *; cbn; lia.
  - right; left. rewrite !andb_true_iff, !Z.leb_le in *; cbn; lia.
Qed.

Lemma check_maps_cb_spec left st r st' left' :
  sane_entry r -> first_2a_free st <= end_2a -> check_maps_cb left st r = Ret (st', left') ->
  first_2a_free st <= first_2a_free st' <= end_2a /\
  bounds_bases_region_00 st' = bounds_bases_region_00 st /\
  first_30_free st' = first_30_free st /\ left' = left /\
  (in_2a r = true -> r.2 <= first_2a_free st').
Proof.
  intros Hsane Hst. pose proof (in_2a_end r) as Hend. revert Hsane Hend.
  destruct r as [s e]. unfold sane_entry, in_2a, check_maps_cb; cbn [fst snd]. intros [Hs He] Hend.
  rewrite sub64_exact by (unfold u64; lia).
  set (st1 := if is_in_range 0x2aaaaaaab000 0x2fffffffffff s (e - 1) then _ else _).
  intros Hret. assert (st' = st1 /\ left' = left) as [-> ->].
  { repeat match type of Hret with context [if ?b then _ else _] => destruct b end; split; congruence. }
  unfold st1. destruct (is_in_range 0x2aaaaaaab000 0x2fffffffffff s (e - 1)) eqn:Hr;
    [|split_and!; done || lia]. specialize (Hend eq_refl).
  destruct (Z.eqb_spec (first_2a_free st) 0), (Z.ltb_spec (first_2a_free st) e);
    cbn [orb first_2a_free bounds_bases_region_00 first_30_free]; split_and!; done || lia.
Qed.

Lemma check_maps_cb_cases left st r :
  (exists st' left', check_maps_cb left st r = Ret (st', left')) \/ check_maps_cb left st r = Abort.
Proof. destruct r as [a b]. unfold check_maps_cb. repeat (case_match; eauto). Qed.

(** Walking the process's mappings leaves [first_2a_free] at or above the end
    of every mapping in the 2a range that is visited, and only passes mappings the
    shadow space can live with.  All are visited if the results left over are
    zeros. *)
Section walk.
Context `{M : MapsWalker} {ML : MapsWalkerLaws M} (left_over : map_state -> Z * Z -> Z).
Abbreviation walk := (for_each_maps_entry (fun st ent => check_maps_cb (left_over st ent) st ent)).

Definition visited_spec (st st' : map_state) (visited : list (Z * Z)) : Prop :=
  first_2a_free st <= first_2a_free st' <= end_2a /\
  Forall (fun r => in_2a r = true -> r.2 <= first_2a_free st') visited /\
  bounds_bases_region_00 st' = bounds_bases_region_00 st /\
  first_30_free st' = first_30_free st /\ Forall acceptable visited.

Lemma visited_cons left left' st st1 st' r visited :
  sane_entry r -> first_2a_free st <= end_2a -> check_maps_cb left st r = Ret (st1, left') ->
  visited_spec st1 st' visited -> visited_spec st st' (r :: visited).
Proof.
  intros Hr Hst Hcb (Hle2 & Hf & Hb2 & H32 & Hok).
  destruct (check_maps_cb_spec _ _ _ _ _ Hr Hst Hcb) as (Hle1 & Hb1 & H31 & _ & Hin).
  split; [lia|]. split; [|split; [congruence|split; [congruence|]]]; apply Forall_cons_2; try done.
  - intros Hd. specialize (Hin Hd). lia.
  - by eapply check_maps_cb_acceptable.
Qed.

Lemma maps_walk_finds_frontier ents : forall st st',
  Forall sane_entry ents -> first_2a_free st <= end_2a -> walk st ents = Ret st' ->
  exists visited rest, ents = visited ++ rest /\ visited_spec st st' visited /\
    ((forall st ent, left_over st ent = 0) -> rest = []).
Proof.
  induction ents as [|r ents IH]; intros st st' Hs Hst.
  { rewrite walk_done. intros [= <-]. exists [], []. split; [done|]. split; [|done].
    split; [lia|]. split; [by apply Forall_nil|]. split; [done|]. split; [done|]. by apply Forall_nil. }
  rewrite walk_entry. apply Forall_cons in Hs as [Hr Hs]. intros ([st1 left] & Hcb & Hw)%bind_Ret.
  destruct (check_maps_cb_spec _ _ _ _ _ Hr Hst Hcb) as (Hle & _ & _ & -> & _).
  assert (Hlater : forall visited rest, visited_spec st1 st' visited -> ents = visited ++ rest ->
    r :: ents = (r :: visited) ++ rest /\ visited_spec st st' (r :: visited)).
  { intros visited rest Hv ->. split; [done|]. by eapply visited_cons. }
  destruct (Z.eqb_spec (left_over st r) 0) as [H0|Hn0].
  - destruct (IH st1 st' Hs ltac:(lia) Hw) as (visited & rest & He & Hv & Hall).
    exists (r :: visited), rest. destruct (Hlater _ _ Hv He) as [-> ?]. done.
  - injection Hw as <-. exists [r], ents. destruct (Hlater [] ents) as [? ?].
    { split; [lia|]. split; [by apply Forall_nil|]. split; [done|]. split; [done|]. by apply Forall_nil. }
    { done. }
    split; [done|]. split; [done|]. intros Hz. by rewrite Hz in Hn0.
Qed.

(** The walk of the mappings ends in a state or in [abort]. *)
Lemma maps_walk_cases ents : forall st, (exists st', walk st ents = Ret st') \/ walk st ents = Abort.
Proof.
  induction ents as [|r ents IH]; intros st; rewrite ?walk_done, ?walk_entry; [eauto|].
  destruct (check_maps_cb_cases (left_over st r) st r) as [(st1 & l & ->) | ->]; cbn [mbind outcome_bind]; [|by right].
  destruct (l =? 0); eauto.
Qed.
End walk.

(** ** Handing out mappings *)
Section grants.
Variable real_nudge_mmap : mmap_args -> mmap_args.
Variable BIGGEST_SANE_USER_ALLOC : Z.
Variable pageindex : option (Z -> Z).
Variable LOG_PAGE_SIZE : Z.

Abbreviation nudge := (wrap_nudge_mmap real_nudge_mmap BIGGEST_SANE_USER_ALLOC pageindex LOG_PAGE_SIZE).

(** What kind of request the hook sees after liballocs' own. *)
Definition fixed (args : mmap_args) : bool :=
  negb (p_addr args =? 0) && negb (Z.land (p_flags args) MAP_FIXED =? 0).
Definition huge (args : mmap_args) : bool :=
  negb (fixed args) && (BIGGEST_SANE_USER_ALLOC <? p_length args).
Definition unhinted (args : mmap_args) : bool :=
  negb (fixed args) && negb (huge args) && (p_addr args =? 0).

Definition extent (args : mmap_args) : Z * Z := (p_addr args, p_addr args + p_length args).

(** There is room: the request and both frontiers stay in the address space, and
    what is handed out from the 2a range fits there (which the hook does not
    test, [nudge_leaves_2a]). *)
Definition room (st : map_state) (args : mmap_args) : Prop :=
  0 <= p_addr args /\ 0 < p_length args /\ p_addr args + p_length args < 2 ^ 64 /\
  0 <= first_2a_free st /\ first_2a_free st + p_length args < 2 ^ 64 /\
  0 <= first_30_free st /\ first_30_free st + p_length args < 2 ^ 64 /\
  (unhinted args = true -> first_2a_free st + p_length args <= end_2a).

(** The hook running on a sequence of requests, with the mappings it has placed
    or seen in the 2a range and the huge ones it has placed. *)
Inductive nudge_step :
    map_state * list (Z * Z) * list (Z * Z) ->
    map_state * list (Z * Z) * list (Z * Z) -> Prop :=
| nudge_step_intro st s2a s30 args st' args' :
    room st (real_nudge_mmap args) ->
    nudge st args = Ret (st', args') ->
    nudge_step (st, s2a, s30)
      (st',
       (if unhinted (real_nudge_mmap args) || (fixed (real_nudge_mmap args) && in_2a (extent args'))
        then extent args' :: s2a else s2a),
       (if huge (real_nudge_mmap args) then extent args' :: s30 else s30)).

Definition tracked (s : map_state * list (Z * Z) * list (Z * Z)) : Prop :=
  let '(st, s2a, s30) := s in
  bounds_bases_region_00 st <> 0 /\ 0 <= first_2a_free st <= end_2a /\
  first_30_free initial_map_state <= first_30_free st /\
  Forall (fun r => r.2 <= first_2a_free st) s2a /\
  Forall (fun r => first_30_free initial_map_state <= r.1 /\ r.2 <= first_30_free st) s30.

Lemma nudge_spec st args st' args' :
  bounds_bases_region_00 st <> 0 -> room st (real_nudge_mmap args) ->
  nudge st args = Ret (st', args') ->
  bounds_bases_region_00 st' = bounds_bases_region_00 st /\
  first_2a_free st <= first_2a_free st' /\ first_30_free st <= first_30_free st' /\
  (first_2a_free st <= end_2a -> first_2a_free st' <= end_2a) /\
  (fixed (real_nudge_mmap args) = true -> args' = real_nudge_mmap args /\
     (in_2a (extent args') = true -> (extent args').2 <= first_2a_free st')) /\
  (huge (real_nudge_mmap args) = true ->
     p_addr args' = first_30_free st /\ p_length args' = p_length (real_nudge_mmap args) /\
     (extent args').2 <= first_30_free st') /\
  (unhinted (real_nudge_mmap args) = true ->
     p_addr args' = first_2a_free st /\ first_2a_free st <> 0 /\
     p_length args' = p_length (real_nudge_mmap args) /\
     (extent args').2 <= first_2a_free st').
Proof.
  intros Hb Hroom. unfold wrap_nudge_mmap, unhinted, huge, room, fixed, extent, in_2a, end_2a in *.
  generalize dependent (real_nudge_mmap args). clear args. intros [addr len flags].
  unfold unhinted, huge, fixed. cbn [p_addr p_length p_flags]. intros (Ha & Hl & Hal & H2 & H2l & H3 & H3l & Hfit) Hret.
  rewrite (proj2 (Z.eqb_neq _ 0)) in Hret by done.
  assert ((addr +w len) = addr + len) as Hal' by (apply wrap64_small; unfold u64; lia).
  assert ((first_2a_free st +w len) = first_2a_free st + len) as H2l'
    by (apply wrap64_small; unfold u64; lia).
  assert ((first_30_free st +w len) = first_30_free st + len) as H3l'
    by (apply wrap64_small; unfold u64; lia).
  rewrite Hal', H2l', H3l' in Hret. rewrite sub64_exact in Hret by (unfold u64; lia).
  destruct (negb (addr =? 0) && negb (Z.land flags MAP_FIXED =? 0)) eqn:Hfix; cbn [negb andb] in *.
  - (* fixed *)
    set (st1 := if is_in_range 0x2aaaaaaab000 0x2fffffffffff addr (addr + len - 1) then
      if (first_2a_free st =? 0) || (first_2a_free st <? addr + len)
      then MapState (bounds_bases_region_00 st) (addr + len) (first_30_free st) else st else st).
    assert (st' = st1 /\ args' = MmapArgs addr len flags) as [-> ->].
    { unfold st1. clear st1. destruct (is_in_range _ _ _ _);
        [destruct ((first_2a_free st =? 0) || (first_2a_free st <? addr + len))|];
        cbn [mbind outcome_bind] in Hret;
        (destruct pageindex as [pi|]; [destruct (pi _ =? 0)|]); split; congruence. }
    unfold st1; clear Hret st1. cbn [p_addr p_length fst snd].
    destruct (is_in_range _ _ _ _) eqn:Hir; [|split_and!; naive_solver lia].
    apply andb_true_iff in Hir as [Hlo%Z.leb_le Hhi%Z.leb_le].
    destruct (Z.eqb_spec (first_2a_free st) 0), (Z.ltb_spec (first_2a_free st) (addr + len));
      cbn [orb first_2a_free bounds_bases_region_00 first_30_free]; split_and!; naive_solver lia.
  - destruct (BIGGEST_SANE_USER_ALLOC <? len) eqn:Hhuge; cbn [negb andb] in *.
    + assert (st' = MapState (bounds_bases_region_00 st) (first_2a_free st) (first_30_free st + len) /\
        args' = MmapArgs (first_30_free st) len flags) as [-> ->].
      { cbn [mbind outcome_bind] in Hret. destruct pageindex as [pi|]; [destruct (pi _ =? 0)|];
          split; congruence. }
      cbn. split_and!; naive_solver lia.
    + destruct (Z.eqb_spec (first_2a_free st) 0) as [|Hn0]; [done|].
      destruct (Z.eqb_spec addr 0) as [->|Hna].
      * assert (st' = MapState (bounds_bases_region_00 st) (first_2a_free st + len) (first_30_free st) /\
          args' = MmapArgs (first_2a_free st) len flags) as [-> ->].
        { cbn [mbind outcome_bind] in Hret. destruct pageindex as [pi|]; [destruct (pi _ =? 0)|];
            split; congruence. }
        cbn. split_and!; naive_solver lia.
      * assert (st' = st) as ->.
        { cbn [mbind outcome_bind] in Hret. destruct pageindex as [pi|]; [destruct (pi _ =? 0)|];
            congruence. }
        split_and!; naive_solver lia.
Qed.

Lemma nudge_step_tracked s s' : nudge_step s s' -> tracked s -> tracked s'.
Proof.
  intros [st s2a s30 args st' args' Hroom Hn] (Hb & H2 & H3 & Hs2 & Hs3).
  destruct (nudge_spec _ _ _ _ Hb Hroom Hn) as (Hb' & Hle2 & Hle3 & He2 & Hf & Hh & Hu).
  unfold tracked. split; [congruence|]. split; [lia|]. split; [lia|].
  assert (Forall (fun r => r.2 <= first_2a_free st') s2a) as Hs2'
    by (eapply Forall_impl; [exact Hs2|cbn; lia]).
  assert (Forall (fun r => first_30_free initial_map_state <= r.1 /\ r.2 <= first_30_free st') s30) as Hs3'
    by (eapply Forall_impl; [exact Hs3|cbn; lia]).
  split.
  - destruct (unhinted (real_nudge_mmap args)).
    { destruct (Hu eq_refl) as (_ & _ & _ & ?). cbn [orb]. by apply Forall_cons. }
    destruct (fixed (real_nudge_mmap args)); [|done]. destruct (Hf eq_refl) as [_ Hf'].
    cbn [orb andb]. destruct (in_2a (extent args')); [|done]. apply Forall_cons. auto.
  - destruct (huge (real_nudge_mmap args)); [|done].
    destruct (Hh eq_refl) as (Hat & _ & ?). apply Forall_cons_2; [|done]. split; [|done].
    unfold extent. cbn [fst]. by rewrite Hat.
Qed.

(** Mapping a list of regions works exactly when each goes where it must. *)
Lemma map_regions_cases mmap_fixed regs :
  (map_regions mmap_fixed regs = Ret tt /\
    forall r, r ∈ regs -> mmap_fixed r.1 (r.2 - r.1) = r.1) \/
  (map_regions mmap_fixed regs = Abort /\
    exists r, r ∈ regs /\ mmap_fixed r.1 (r.2 - r.1) <> r.1).
Proof.
  induction regs as [|[s e] regs [[IH1 IH2]|[IH1 (r & Hr & Hne)]]]; cbn [map_regions].
  - left. split; [done|]. intros r Hr. by apply elem_of_nil in Hr.
  - destruct (Z.eqb_spec (mmap_fixed s (e - s)) s).
    + left. split; [done|]. intros r [->|Hr]%elem_of_cons; [done|auto].
    + right. split; [done|]. exists (s, e). split; [left|done].
  - right. destruct (mmap_fixed s (e - s) =? s) eqn:He.
    + split; [done|]. exists r. split; [by right|done].
    + split; [done|]. exists (s, e). split; [left|]. cbn. by apply Z.eqb_neq.
Qed.

(** C28. A start-up that returns has every shadow region mapped where it must
    be; the mappings its walk has visited are ones the shadow space can live with
    (in a user range, in the libcrunch-controlled 3s and 4s, or the kernel's), and
    it leaves the frontier for new mappings above those of them that are in the
    2a range, so that the [mmap] hook starts in a tracked state.  The walk visits
    the process's mappings in order, and all of them if its callback's result,
    which the callback leaves undefined, is always zero.  The start-up aborts when
    any of the regions cannot be mapped in place. *)
Theorem init_shadow_space_spec `{M : MapsWalker} {ML : MapsWalkerLaws M} left_over mmap_fixed mmap_stack ents loaded ones_open first_size :
  Forall sane_entry ents ->
  (forall st sp, init_shadow_space left_over mmap_fixed mmap_stack initial_map_state ents loaded ones_open
       first_size = Ret (st, sp) ->
     (exists visited rest, ents = visited ++ rest /\ Forall acceptable visited /\
        tracked (st, List.filter in_2a visited, []) /\
        ((forall st ent, left_over st ent = 0) -> rest = [])) /\
     (forall r, r ∈ all_regions -> mmap_fixed r.1 (r.2 - r.1) = r.1) /\ sp = (mmap_stack +w 65528)) /\
  (forall r, r ∈ all_regions -> mmap_fixed r.1 (r.2 - r.1) <> r.1 ->
     init_shadow_space left_over mmap_fixed mmap_stack initial_map_state ents loaded ones_open first_size
     = Abort).
Proof.
  intros Hs. pose proof (map_regions_cases mmap_fixed) as Hmap. split.
  - intros st sp. unfold init_shadow_space. intros (st1 & Hw & Hret)%bind_Ret.
    destruct (maps_walk_finds_frontier left_over ents initial_map_state st1 Hs ltac:(by cbn; unfold end_2a; lia) Hw)
      as (visited & rest & -> & (Hle & Hf & _ & H3 & Hok) & Hall).
    cbn [initial_map_state first_2a_free first_30_free] in *. revert Hret.
    destruct (Hmap bases_regions) as [[-> Hb]|[-> _]]; [|done].
    destruct (Hmap [sizes_region_00]) as [[-> H00]|[-> _]]; [|done].
    cbn [mbind outcome_bind].
    destruct (negb loaded && ones_open && negb _); [done|].
    destruct (Hmap sizes_regions) as [[-> Hsz]|[-> _]]; [|done]. cbn [mbind outcome_bind].
    intros [= <- <-]. split; [|split; [|done]].
    2:{ intros r. unfold all_regions. rewrite elem_of_app, elem_of_cons.
        intros [Hr|[->|Hr]]; [auto|apply H00; left|auto]. }
    exists visited, rest. split; [done|]. split; [done|]. split; [|done].
    unfold tracked. rewrite H3; cbn [Z.eqb].
    assert (Forall (fun r => r.2 <= first_2a_free st1) (List.filter in_2a visited)) as Hf'.
    { apply Forall_forall. intros r Hr%list_elem_of_In%filter_In. destruct Hr as [Hr Hi].
      rewrite Forall_forall in Hf. apply Hf; [by apply list_elem_of_In|done]. }
    unfold end_2a in *.
    destruct (Z.eqb_spec (first_2a_free st1) 0) as [Hz|Hz];
      cbn [bounds_bases_region_00 first_2a_free first_30_free]; rewrite ?H3;
      change (0x332aaaaab000 =? 0) with false; cbn [bounds_bases_region_00 first_2a_free first_30_free];
      (split; [done|]; split; [lia|]; split; [rewrite ?H3; cbn; lia|]; split; [|by apply Forall_nil]);
      [|done].
    eapply Forall_impl; [exact Hf'|]. cbn. lia.
  - intros r Hr Hne. unfold init_shadow_space.
    destruct (maps_walk_cases left_over ents initial_map_state) as [[st1 ->] | ->]; [|done]. cbn [mbind outcome_bind].
    assert (Hin : forall regs, r ∈ regs -> map_regions mmap_fixed regs = Abort).
    { intros regs Hrs. destruct (Hmap regs) as [[_ Hall]|[? _]]; [by apply Hall in Hrs|done]. }
    destruct (Hmap bases_regions) as [[-> Hb]|[-> _]]; [|done].
    destruct (Hmap [sizes_region_00]) as [[-> H00]|[-> _]]; [|done]. cbn [mbind outcome_bind].
    destruct (negb loaded && ones_open && negb _); [done|]. rewrite Hin; [done|].
    unfold all_regions in Hr. rewrite elem_of_app, elem_of_cons in Hr. destruct Hr as [Hr|[->|Hr]]; [|by destruct (Hne (H00 _ ltac:(left)))|done].
    by destruct (Hne (Hb _ Hr)).
Qed.

(** When the result left over is not zero, the walk ends at the first mapping: the
    others are neither checked nor kept clear of. *)
Theorem walk_stops_early `{M : MapsWalker} {ML : MapsWalkerLaws M} left_over st ent ents st' left :
  (forall st ent, left_over st ent <> 0) ->
  check_maps_cb (left_over st ent) st ent = Ret (st', left) ->
  for_each_maps_entry (fun st ent => check_maps_cb (left_over st ent) st ent) st (ent :: ents) = Ret st'.
Proof.
  intros Hl Hcb. rewrite walk_entry, Hcb. cbn [mbind outcome_bind].
  assert (left = left_over st ent) as ->.
  { destruct ent as [a b]. unfold check_maps_cb in Hcb.
    repeat match type of Hcb with context [if ?b then Ret _ else _] => destruct b end; congruence. }
  by rewrite (proj2 (Z.eqb_neq _ _) (Hl _ _)).
Qed.

Definition apart (r q : Z * Z) : Prop := r.2 <= q.1 \/ q.2 <= r.1.

(** C29. The [mmap] hook never hands out memory twice, as long as there is room:
    after any sequence of requests, what it places - from the 2a range for a
    request without an address, from the 3s and 4s for a huge one - does not
    overlap anything it has placed before, nor a mapping of the 2a range that the
    start-up walk visited or that was requested there with [MAP_FIXED].  What is
    asked for with [MAP_FIXED] it leaves alone. *)
Theorem nudged_mappings_fresh s0 st s2a s30 args st' args' :
  tracked s0 -> rtc nudge_step s0 (st, s2a, s30) ->
  room st (real_nudge_mmap args) -> nudge st args = Ret (st', args') ->
  (unhinted (real_nudge_mmap args) = true \/ huge (real_nudge_mmap args) = true ->
     Forall (fun r => apart r (extent args')) (s2a ++ s30) /\ p_addr args' <> 0 /\
     p_length args' = p_length (real_nudge_mmap args)) /\
  (fixed (real_nudge_mmap args) = true -> args' = real_nudge_mmap args).
Proof.
  intros H0 Hsteps Hroom Hn.
  assert (tracked (st, s2a, s30)) as (Hb & H2 & H3 & Hs2 & Hs3).
  { revert H0. remember (st, s2a, s30) as s eqn:Heq. clear Heq.
    induction Hsteps; eauto using nudge_step_tracked. }
  destruct (nudge_spec _ _ _ _ Hb Hroom Hn) as (_ & _ & _ & _ & Hf & Hh & Hu).
  split; [|intros Hfx; by destruct (Hf Hfx) as [-> _]].
  unfold end_2a, apart, extent in *. cbn [initial_map_state first_30_free] in *.
  intros [Hun|Hhu].
  - destruct (Hu Hun) as (Ha & ? & Hl & _). rewrite Ha, Hl. destruct Hroom as (_ & _ & _ & _ & _ & _ & _ & Hfit).
    specialize (Hfit Hun). split; [|done]. unfold end_2a in Hfit. cbn [fst snd]. apply Forall_app. split.
    + eapply Forall_impl; [exact Hs2|]. cbn. lia.
    + eapply Forall_impl; [exact Hs3|]. cbn. lia.
  - destruct (Hh Hhu) as (Ha & Hl & _). rewrite Ha, Hl. split; [|split; [lia|done]]. cbn [fst snd]. apply Forall_app. split.
    + eapply Forall_impl; [exact Hs2|]. cbn. lia.
    + eapply Forall_impl; [exact Hs3|]. cbn. lia.
Qed.

(** Room is needed: the hook hands out what is above the 2a range, too, which the
    shadow space does not cover. *)
Theorem nudge_leaves_2a st args :
  pageindex = None -> bounds_bases_region_00 st <> 0 -> first_2a_free st <> 0 ->
  unhinted (real_nudge_mmap args) = true -> p_length (real_nudge_mmap args) <= BIGGEST_SANE_USER_ALLOC ->
  end_2a < first_2a_free st + p_length (real_nudge_mmap args) ->
  exists st' args', nudge st args = Ret (st', args') /\ end_2a < (extent args').2.
Proof.
  unfold wrap_nudge_mmap, unhinted, fixed. intros -> Hb H2 Hun Hl Hend.
  apply andb_true_iff in Hun as [[Hfix _]%andb_true_iff Ha]. apply negb_true_iff in Hfix.
  rewrite (proj2 (Z.eqb_neq _ _) Hb), Hfix, (proj2 (Z.ltb_ge _ _) Hl), (proj2 (Z.eqb_neq _ _) H2), Ha.
  eexists _, _. split; [reflexivity|]. exact Hend.
Qed.
End grants.

(** ** Entries of the initial vectors *)
Lemma set_entry_store `{Config} m p b n :
  set_entry m p b n = shadow_store_bounds_for m p (Bounds b n) true.
Proof. done. Qed.

Lemma byte_set_entry m p b n a :
  slot p -> shadowable a = true -> byte (set_entry m p b n) a = byte m a.
Proof.
  intros Hp Ha. unfold set_entry, store4, store8.
  rewrite !byte_store_other; [done| |].
  - destruct (decide (libcrunch_base_stored_loc p <= a < libcrunch_base_stored_loc p + 8)); [|lia].
    destruct (shadow_entries_not_user p (a - libcrunch_base_stored_loc p) Hp) as [Hn _].
    specialize (Hn ltac:(lia)). rewrite Z.add_comm, Z.sub_add in Hn. congruence.
  - destruct (decide (libcrunch_size_stored_loc p <= a < libcrunch_size_stored_loc p + 4)); [|lia].
    destruct (shadow_entries_not_user p (a - libcrunch_size_stored_loc p) Hp) as [_ Hn].
    specialize (Hn ltac:(lia)). rewrite Z.add_comm, Z.sub_add in Hn. congruence.
Qed.

(** User memory is the same in both. *)
Definition same_user (m1 m2 : mem) : Prop :=
  forall a, shadowable a = true -> byte m1 a = byte m2 a.

Lemma same_user_load8 m1 m2 a : same_user m1 m2 -> one_range a 8 -> load8 m1 a = load8 m2 a.
Proof.
  intros Hs Ha. apply load_ext. intros i Hi. apply Hs.
  replace i with (a + (i - a)) by lia. apply (one_range_shadowable a 8); [done|lia].
Qed.

Lemma same_user_strlen m1 m2 a :
  same_user m1 m2 -> one_range a (strlen m1 a + 1) -> strlen m2 a = strlen m1 a.
Proof.
  intros Hs Ha. apply strlen_ext. intros i Hi. apply Hs.
  replace i with (a + (i - a)) by lia. apply (one_range_shadowable a _ _ Ha). lia.
Qed.

Section vectors.
Context `{WB : WideBounds}.

(** Every string of the vector lies in user memory. *)
Definition vector_ok (m : mem) (p : Z) (k : nat) : Prop :=
  forall i, (i < k)%nat -> let s := load8 m (p + 8 * Z.of_nat i) in one_range s (strlen m s + 1).

Definition string_bounds (m : mem) (s : Z) : bounds := Bounds s (strlen m s + 1).

Lemma init_vector_spec k : forall fuel m p,
  (k <= fuel)%nat -> p mod 8 = 0 -> one_range p (8 * Z.of_nat k + 8) -> vector_ok m p k ->
  exists m', init_vector fuel m p (p + 8 * Z.of_nat k) = Some m' /\
    (forall i, (i < k)%nat -> entry m' (p + 8 * Z.of_nat i) =
       shadow_image (string_bounds m (load8 m (p + 8 * Z.of_nat i)))) /\
    (forall b, slot b -> b < p \/ p + 8 * Z.of_nat k <= b -> entry m' b = entry m b) /\
    same_user m m'.
Proof.
  induction k as [|k IH]; intros fuel m p Hf Hm Hr Hok.
  { exists m. rewrite Z.mul_0_r, Z.add_0_r. split.
    - destruct fuel; cbn [init_vector]; by rewrite Z.eqb_refl.
    - split; [lia|]. by split. }
  destruct fuel as [|fuel]; [lia|]. cbn [init_vector].
  rewrite (proj2 (Z.eqb_neq p _)) by lia.
  pose proof (one_range_shadowable p _ 0 Hr ltac:(lia)) as Hu%shadowable_user.
  assert ((p +w 8) = p + 8) as -> by (apply wrap64_small; unfold u64; lia).
  pose proof (slot_offset p _ 0 Hr Hm ltac:(lia) ltac:(lia)) as Hsl.
  rewrite Z.mul_0_r, Z.add_0_r in Hsl.
  set (s := load8 m p). set (m1 := set_entry m p s (strlen m s + 1)).
  assert (same_user m m1) as Hsu by (intros a Ha; symmetry; by apply byte_set_entry).
  assert (one_range (p + 8) (8 * Z.of_nat k + 8)) as Hr1.
  { unfold one_range in *. eapply Exists_impl; [exact Hr|]. cbn. lia. }
  assert (Hld : forall i, (i < S k)%nat ->
    load8 m1 (p + 8 * Z.of_nat i) = load8 m (p + 8 * Z.of_nat i)).
  { intros i Hi. symmetry. apply same_user_load8; [done|].
    unfold one_range in *. eapply Exists_impl; [exact Hr|]. cbn. lia. }
  assert (Hstr : forall i, (i < S k)%nat ->
    strlen m1 (load8 m (p + 8 * Z.of_nat i)) = strlen m (load8 m (p + 8 * Z.of_nat i))).
  { intros i Hi. apply same_user_strlen; [done|]. by apply Hok. }
  destruct (IH fuel m1 (p + 8) ltac:(lia) ltac:(mod_lia) Hr1) as (m' & Hrun & He & Ho & Hsu').
  { intros i Hi. cbn zeta. specialize (Hok (S i) ltac:(lia)). cbn zeta in Hok.
    replace (p + 8 + 8 * Z.of_nat i) with (p + 8 * Z.of_nat (S i)) by lia.
    by rewrite Hld, Hstr by lia. }
  exists m'. split; [|split; [|split]].
  - rewrite <- Hrun. f_equal. lia.
  - intros [|i] Hi.
    + rewrite Z.mul_0_r, Z.add_0_r, Ho by (done || lia).
      unfold m1. rewrite set_entry_store, entry_store_same by (done || apply load8_u64). done.
    + replace (p + 8 * Z.of_nat (S i)) with (p + 8 + 8 * Z.of_nat i) by lia.
      rewrite He by lia. replace (p + 8 + 8 * Z.of_nat i) with (p + 8 * Z.of_nat (S i)) by lia.
      rewrite Hld by lia. unfold string_bounds. by rewrite Hstr by lia.
  - intros b Hb Hout. rewrite Ho by (done || lia). unfold m1.
    rewrite set_entry_store, entry_store_other by (done || lia). done.
  - intros a Ha. rewrite Hsu by done. by apply Hsu'.
Qed.

Lemma vector_fuel_enough p k : (k <= vector_fuel p (p + 8 * Z.of_nat k))%nat.
Proof.
  unfold vector_fuel. replace (p + 8 * Z.of_nat k - p) with (Z.of_nat k * 8) by lia.
  rewrite Z.div_mul by lia. lia.
Qed.
End vectors.

Definition libc_slots (g : libc_globals) : list Z :=
  [addr_environ g; addr_stdin g; addr_stdout g; addr_stderr g;
   ctype_b_loc g; ctype_toupper_loc g; ctype_tolower_loc g].

Section startup.
Context `{WB : WideBounds} {St U : Type} `{SL : StackEnvLaws St U}.
Hypothesis stack_on : no_bounds_stack = false.

Lemma entry_shadow_bytes m1 m2 a :
  (forall i, shadowable i = false -> byte m1 i = byte m2 i) -> slot a -> entry m1 a = entry m2 a.
Proof.
  intros Heq Ha. apply entry_ext; intros i Hi; apply Heq;
    by apply (shadow_entries_not_user a i Ha).
Qed.

Lemma init_libc_entries_other m g lims b :
  Forall slot (libc_slots g) -> slot b -> b ∉ libc_slots g ->
  entry (init_libc_entries m g lims) b = entry m b.
Proof.
  intros Hs Hb Hn. unfold libc_slots in *. rewrite !Forall_cons in Hs.
  destruct Hs as (?&?&?&?&?&?&?&_).
  rewrite !not_elem_of_cons in Hn. destruct Hn as (?&?&?&?&?&?&?&_).
  unfold init_libc_entries. rewrite !set_entry_store.
  by rewrite !entry_store_other by done.
Qed.

Lemma init_libc_entries_user m g lims a :
  Forall slot (libc_slots g) -> shadowable a = true ->
  byte (init_libc_entries m g lims) a = byte m a.
Proof.
  intros Hs Ha. unfold libc_slots in *. rewrite !Forall_cons in Hs.
  destruct Hs as (?&?&?&?&?&?&?&_). unfold init_libc_entries.
  by rewrite !byte_set_entry by done.
Qed.

(** A vector of [n] pointers at [p] and its terminator. *)
Definition vector_at (m : mem) (p : Z) (n : nat) : Prop :=
  p mod 8 = 0 /\ one_range p (8 * Z.of_nat n + 8) /\ vector_ok m p n.

(** The two pushes for [main]: 24 bytes of stack, bounds below the old pointer
    and the cookie below them. *)
Lemma push_main_arguments (st : St) m B main_addr :
  u64 (bounds_sp st) -> 24 <= bounds_sp st ->
  let st' := push_argument_bounds_cookie (push_local_argument_bounds (set_mem m st) B) main_addr in
  bounds_sp st' = bounds_sp st - 24 /\
  st_mem st' = store8 (write_bounds m (bounds_sp st - 16) B) (bounds_sp st - 24) main_addr.
Proof.
  intros Hu H24 st'. subst st'.
  assert (Hsz : sizeof_bounds = 16) by (unfold sizeof_bounds; by rewrite wide_word).
  destruct (push_local_spec stack_on (set_mem m st) B) as [Hsp1 Hm1];
    [by rewrite bounds_sp_set_mem|rewrite bounds_sp_set_mem; lia|].
  rewrite bounds_sp_set_mem, Hsz in Hsp1. rewrite st_mem_set, bounds_sp_set_mem, Hsz in Hm1.
  destruct (push_cookie_spec stack_on (push_local_argument_bounds (set_mem m st) B) main_addr)
    as [Hsp2 Hm2]; [rewrite Hsp1; unfold u64 in *; lia|rewrite Hsp1; lia|].
  rewrite Hsp1 in Hsp2, Hm2. rewrite Hm1 in Hm2.
  by replace (bounds_sp st - 16 - 8) with (bounds_sp st - 24) in * by lia.
Qed.

(** Both vectors are walked; the entries of the second do not disturb those of
    the first. *)
Lemma init_vectors_spec m av n ev k :
  vector_at m av n -> vector_at m ev k -> av + 8 * Z.of_nat n + 8 <= ev ->
  exists m1 m2,
    init_vector (vector_fuel av (av + 8 * Z.of_nat n)) m av (av + 8 * Z.of_nat n) = Some m1 /\
    init_vector (vector_fuel ev (ev + 8 * Z.of_nat k)) m1 ev (ev + 8 * Z.of_nat k) = Some m2 /\
    (forall i, (i < n)%nat -> entry m2 (av + 8 * Z.of_nat i) =
       shadow_image (string_bounds m (load8 m (av + 8 * Z.of_nat i)))) /\
    (forall i, (i < k)%nat -> entry m2 (ev + 8 * Z.of_nat i) =
       shadow_image (string_bounds m (load8 m (ev + 8 * Z.of_nat i)))).
Proof.
  intros (Ham & Har & Hav) (Hem & Her & Hev) Hae.
  destruct (init_vector_spec n _ m av (vector_fuel_enough av n) Ham Har Hav)
    as (m1 & Hr1 & Hv1 & Ho1 & Hs1).
  assert (Hld : forall i, (i < k)%nat -> load8 m1 (ev + 8 * Z.of_nat i) = load8 m (ev + 8 * Z.of_nat i)).
  { intros i Hi. symmetry. apply same_user_load8; [done|]. unfold one_range in *.
    eapply Exists_impl; [exact Her|]. cbn. lia. }
  assert (Hst : forall i, (i < k)%nat ->
    strlen m1 (load8 m (ev + 8 * Z.of_nat i)) = strlen m (load8 m (ev + 8 * Z.of_nat i))).
  { intros i Hi. apply same_user_strlen; [done|]. by apply Hev. }
  destruct (init_vector_spec k _ m1 ev (vector_fuel_enough ev k) Hem Her)
    as (m2 & Hr2 & Hv2 & Ho2 & Hs2).
  { intros i Hi. cbn zeta. rewrite Hld, Hst by done. by apply Hev. }
  exists m1, m2. split; [done|]. split; [done|]. split; intros i Hi.
  - pose proof (slot_offset av _ (Z.of_nat i) Har Ham ltac:(lia) ltac:(lia)) as Hsl.
    rewrite Ho2 by (done || lia). by apply Hv1.
  - rewrite Hv2 by done. rewrite Hld by done. unfold string_bounds. by rewrite Hst.
Qed.

(** The stack as the pushes left it is a call of [main] entered. *)
Lemma main_entered (st : St) m B main_addr :
  u64 main_addr -> wf_bounds B ->
  (forall i, bounds_sp st <= i < bounds_sp st + 24 -> byte (st_mem st) i =
     byte (store8 (write_bounds m (bounds_sp st + 8) B) (bounds_sp st) main_addr) i) ->
  entered st main_addr [B].
Proof.
  intros Hmain HB Hby. assert (Hsz : sizeof_bounds = 16) by (unfold sizeof_bounds; by rewrite wide_word).
  split.
  - rewrite <- (load8_store8 (write_bounds m (bounds_sp st + 8) B) (bounds_sp st) main_addr Hmain).
    apply load_ext. intros i Hi. apply Hby. lia.
  - intros [|i] B' Hi; [|done]. cbn in Hi. assert (B' = B) as -> by congruence.
    rewrite Z.mul_0_r, Z.add_0_r. rewrite <- (read_write_bounds m (bounds_sp st + 8) B HB) at 1.
    apply read_bounds_ext. rewrite Hsz. intros j Hj. rewrite Hby by lia.
    unfold store8. apply byte_store_other. lia.
Qed.

(** C30. When [main] starts, its arguments have bounds: after
    [init_shadow_entries] the loops have ended, the shadow entry of every
    [argv] and environment pointer gives its string, from the first character
    to the terminating zero (sizes in 32 bits), and the bounds stack holds
    [main]'s cookie with the bounds of the [argv] vector, terminator included,
    so that an instrumented [main] picks them up like any callee. *)
Theorem init_shadow_entries_spec (st : St) g av n ev k main_addr :
  vector_at (st_mem st) av n -> vector_at (st_mem st) ev k ->
  av + 8 * Z.of_nat n + 8 <= ev ->
  u64 (bounds_sp st) -> 24 <= bounds_sp st -> one_range (bounds_sp st - 24) 24 ->
  Forall slot (libc_slots g) ->
  Forall (fun p => ~ (av <= p < av + 8 * Z.of_nat n) /\ ~ (ev <= p < ev + 8 * Z.of_nat k))
    (libc_slots g) ->
  u64 main_addr ->
  exists st', init_shadow_entries st
      (Some (Build_auxv_limits av (av + 8 * Z.of_nat n) ev (ev + 8 * Z.of_nat k))) g main_addr
      = Some st' /\
    (forall i, (i < n)%nat -> entry (st_mem st') (av + 8 * Z.of_nat i) =
       shadow_image (string_bounds (st_mem st) (load8 (st_mem st) (av + 8 * Z.of_nat i)))) /\
    (forall i, (i < k)%nat -> entry (st_mem st') (ev + 8 * Z.of_nat i) =
       shadow_image (string_bounds (st_mem st) (load8 (st_mem st) (ev + 8 * Z.of_nat i)))) /\
    entered st' main_addr [make_bounds av (av + 8 * Z.of_nat n + 8)].
Proof.
  intros Hav Hev Hae Hu H24 Hsr Hls Hlo Hmain.
  destruct (init_vectors_spec _ _ _ _ _ Hav Hev Hae) as (m1 & m2 & Hr1 & Hr2 & Hv1 & Hv2).
  destruct Hav as (Ham & Har & _), Hev as (Hem & Her & _).
  assert (Hsz : sizeof_bounds = 16) by (unfold sizeof_bounds; by rewrite wide_word).
  pose proof (one_range_shadowable av _ 0 Har ltac:(lia)) as Ha0%shadowable_user.
  pose proof (one_range_shadowable av _ (8 * Z.of_nat n) Har ltac:(lia)) as Ha1%shadowable_user.
  unfold init_shadow_entries; cbn [argv_vector_start argv_vector_terminator env_vector_start
    env_vector_terminator]. rewrite Hr1; cbn [mbind option_bind]. rewrite Hr2; cbn [mbind option_bind].
  set (B := make_bounds av (av + 8 * Z.of_nat n + 8)).
  assert ((av + 8 * Z.of_nat n +w 8) = av + 8 * Z.of_nat n + 8) as ->.
  { apply wrap64_small. unfold u64. lia. }
  change (push_argument_bounds_base_limit (set_mem m2 st) av (av + 8 * Z.of_nat n + 8))
    with (push_local_argument_bounds (set_mem m2 st) B).
  destruct (push_main_arguments st m2 B main_addr Hu H24) as [Hsp2 Hm2].
  set (st4 := push_argument_bounds_cookie _ _) in *.
  assert (Huser : forall i, bounds_sp st - 24 <= i < bounds_sp st -> shadowable i = true).
  { intros i Hi. replace i with (bounds_sp st - 24 + (i - (bounds_sp st - 24))) by lia.
    apply (one_range_shadowable _ 24 _ Hsr). lia. }
  assert (Hent : forall b, slot b -> b ∉ libc_slots g ->
    entry (init_libc_entries (st_mem st4) g
      (Build_auxv_limits av (av + 8 * Z.of_nat n) ev (ev + 8 * Z.of_nat k))) b = entry m2 b).
  { intros b Hb Hin. rewrite init_libc_entries_other by done.
    apply entry_shadow_bytes; [|done]. intros i Hi. rewrite Hm2.
    assert (~ (bounds_sp st - 24 <= i < bounds_sp st)) by (intros Hr; apply Huser in Hr; congruence).
    unfold store8. rewrite byte_store_other by lia. apply byte_write_bounds. lia. }
  rewrite Forall_forall in Hlo.
  eexists. split; [done|]. rewrite st_mem_set. split; [|split].
  - intros i Hi. rewrite Hent; [by apply Hv1|apply (slot_offset av _ _ Har Ham); lia|].
    intros Hin%Hlo. lia.
  - intros i Hi. rewrite Hent; [by apply Hv2|apply (slot_offset ev _ _ Her Hem); lia|].
    intros Hin%Hlo. lia.
  - apply (main_entered _ m2); [done|apply make_bounds_wf; unfold u64; lia|].
    intros i Hi. rewrite st_mem_set, bounds_sp_set_mem, Hsp2 in *.
    rewrite init_libc_entries_user by (done || (apply Huser; lia)). rewrite Hm2.
    by replace (bounds_sp st - 24 + 8) with (bounds_sp st - 16) by lia.
Qed.
End startup.

(** ** Witnesses *)
Lemma slot_ex_2b : slot 0x2aaaaaaac000.
Proof. apply (bool_decide_unpack _); vm_compute; exact I. Qed.

Lemma shadow_slots_mapped_witness :
  covered (sizes_region_00 :: sizes_regions) (libcrunch_size_stored_loc 0x2aaaaaaac000) 4.
Proof.
  apply (shadow_slots_mapped 0x2aaaaaaac000 slot_ex_2b). unfold uncovered_page. lia.
Defined.

(** A process with its executable, a library in the 2a range, and a stack. *)
Definition ex_maps : list (Z * Z) :=
  [(0x400000, 0x401000); (0x2aaaaaaab000, 0x2aaaaaacd000); (0x7ffffffde000, 0x7ffffffff000)].

#[local] Instance ex_walker : MapsWalker := fix walk cb st ents :=
  match ents with
  | [] => Ret st
  | ent :: ents => '(st, ret) ← cb st ent; if ret =? 0 then walk cb st ents else Ret st
  end.
#[local] Instance ex_walker_laws : MapsWalkerLaws ex_walker.
Proof. by split. Qed.

Lemma init_shadow_space_spec_witness :
  exists st, init_shadow_space (fun _ _ => 0) (fun a _ => a) 0x2aaaaaad0000 initial_map_state ex_maps true false 0
    = Ret (st, 0x2aaaaaadfff8) /\
  tracked (st, [(0x2aaaaaaab000, 0x2aaaaaacd000)], []).
Proof.
  eexists; split; [vm_compute; reflexivity|].
  destruct (init_shadow_space_spec (fun _ _ => 0) (fun a _ => a) 0x2aaaaaad0000 ex_maps true false 0) as [Hret _].
  - unfold ex_maps. repeat apply Forall_cons_2; [unfold sane_entry; cbn [fst snd]; lia..|by apply Forall_nil].
  - destruct (Hret (MapState 0x700000000000 0x2aaaaaacd000 0x332aaaaab000) 0x2aaaaaadfff8)
      as [(visited & rest & He & _ & Ht & Hall) _]; [vm_compute; reflexivity|].
    rewrite (Hall (fun _ _ => eq_refl)), app_nil_r in He. rewrite <- He in Ht. exact Ht.
Defined.

(** With a result of 1 left over, the library is missed. *)
Lemma walk_stops_early_witness :
  for_each_maps_entry (fun st ent => check_maps_cb 1 st ent) initial_map_state ex_maps = Ret initial_map_state.
Proof.
  apply (walk_stops_early (fun _ _ => 1) _ (0x400000, 0x401000) _ initial_map_state 1); [intros; lia|reflexivity].
Defined.

Definition ex_nudged : map_state * list (Z * Z) * list (Z * Z) :=
  (MapState 0x700000000000 0x2aaaaaacd000 0x332aaaaab000, [(0x2aaaaaaab000, 0x2aaaaaacd000)], []).
Lemma nudged_mappings_fresh_witness :
  Forall (fun r => apart r (0x2aaaaaacd000, 0x2aaaaaace000)) [(0x2aaaaaaab000, 0x2aaaaaacd000)].
Proof.
  refine (proj1 (proj1 (nudged_mappings_fresh (fun x => x) (2 ^ 36) None 12 ex_nudged
    (MapState 0x700000000000 0x2aaaaaacd000 0x332aaaaab000) [(0x2aaaaaaab000, 0x2aaaaaacd000)] []
    (MmapArgs 0 4096 2) (MapState 0x700000000000 0x2aaaaaace000 0x332aaaaab000)
    (MmapArgs 0x2aaaaaacd000 4096 2) _ (rtc_refl _ _) _ _) _)).
  - split; [done|]. unfold end_2a. cbn. split; [lia|]. split; [lia|]. split; [|by apply Forall_nil].
    apply Forall_cons_2; [cbn; lia|by apply Forall_nil].
  - unfold room, end_2a; cbn. lia.
  - vm_compute. reflexivity.
  - left. reflexivity.
Defined.

Lemma nudge_leaves_2a_witness :
  exists st' args', wrap_nudge_mmap (fun x => x) (2 ^ 36) None 12
      (MapState 0x700000000000 0x300000000000 0x332aaaaab000) (MmapArgs 0 4096 2) = Ret (st', args') /\
    end_2a < (extent args').2.
Proof. apply nudge_leaves_2a; [reflexivity|discriminate|discriminate|reflexivity|cbn; lia|unfold end_2a; cbn; lia]. Defined.

Section ex_startup.
#[local] Instance ex_env : StackEnv (mem * Z) unit := {|
  stack_shadow := {|
    shadow_derive := {|
      count_ptr_derivation st := st; count_ptr_deref st := st; count_transition st := st;
      bounds_error st _ _ _ := st; soft_deref_error_at st _ _ := st;
      fetch_bounds_ool_to_use st _ _ _ := Ret (st, Bounds 0x1000 0x40) |};
    st_mem st := st.1; set_mem m st := (m, st.2); count_ptr_store st := st;
    fetch_bounds_ool st _ _ _ := Ret (st, Bounds 0x1000 0x40) |};
  bounds_sp st := st.2; set_bounds_sp sp st := (st.1, sp);
|}.
#[local] Instance ex_env_laws : StackEnvLaws (mem * Z) unit.
Proof. by split. Qed.

(** [argv = {"a"}], [environ = {"b"}]. *)
Definition ex_mem : mem :=
  store (store (store8 (store8 ∅ 0x7ffffffe0000 0x7ffffffe1000) 0x7ffffffe0010 0x7ffffffe1002)
    0x7ffffffe1000 1 97) 0x7ffffffe1002 1 98.
Definition ex_globals : libc_globals :=
  Build_libc_globals 0x404000 0x404008 0x404010 0x404018 216 0x404020 0x404028 0x404030.

Lemma ex_globals_slots :
  Forall slot (libc_slots ex_globals) /\
  Forall (fun p => ~ (0x7ffffffe0000 <= p < 0x7ffffffe0000 + 8 * Z.of_nat 1) /\
    ~ (0x7ffffffe0010 <= p < 0x7ffffffe0010 + 8 * Z.of_nat 1)) (libc_slots ex_globals).
Proof.
  split; [by apply (bool_decide_unpack _)|].
  repeat apply Forall_cons_2; try (cbn; lia). by apply Forall_nil.
Qed.

Lemma init_shadow_entries_spec_witness :
  exists st', @init_shadow_entries config_p (mem * Z) unit _ (ex_mem, 0x2aaaaaadfff8)
      (Some (Build_auxv_limits 0x7ffffffe0000 0x7ffffffe0008 0x7ffffffe0010 0x7ffffffe0018))
      ex_globals 0x400100 = Some st' /\
    @entered config_p (mem * Z) unit _ st' 0x400100 [Bounds 0x7ffffffe0000 16].
Proof.
  destruct (@init_shadow_entries_spec config_p _ (mem * Z) unit _ _ eq_refl
    (ex_mem, 0x2aaaaaadfff8) ex_globals 0x7ffffffe0000 1 0x7ffffffe0010 1 0x400100)
    as (st' & Hr & _ & _ & He).
  - split; [done|]. split; [by apply (bool_decide_unpack _)|].
    intros i Hi. assert (i = 0%nat) as -> by lia. cbn zeta. apply (bool_decide_unpack _); vm_compute; exact I.
  - split; [done|]. split; [by apply (bool_decide_unpack _)|].
    intros i Hi. assert (i = 0%nat) as -> by lia. cbn zeta. apply (bool_decide_unpack _); vm_compute; exact I.
  - lia.
  - unfold u64; cbn; lia.
  - vm_compute. discriminate.
  - apply (bool_decide_unpack _); vm_compute; exact I.
  - apply ex_globals_slots.
  - apply ex_globals_slots.
  - unfold u64; lia.
  - exists st'. split; [exact Hr|exact He].
Defined.
End ex_startup.
