(* ===== verification/Report.v ===== *)
(** * Reporting failed checks

    The part of [src/libcrunch.c] that decides which failures the user sees:
    the suppression list read from the environment, the patterns in it, the
    filter that shows every failing site once, and the summarising of repeats.
    The set of failure sites is an [addrlist] of liballocs and symbol lookup is
    its [dladdr_with_cache]; both are parameters. *)
From S2P Require Import Prelude.
From Stdlib Require Import Ascii.
#[local] Arguments Ascii.eqb : simpl never.
#[local] Arguments String.append !_ _ / : simpl nomatch.

(** ** C strings

    The characters before the terminating zero. *)
(** [strchr]: the index of the first [c]. *)
Fixpoint strchr (s : string) (c : ascii) : option nat :=
  match s with
  | EmptyString => None
  | String x s => if Ascii.eqb x c then Some O else S <$> strchr s c
  end.

(** [0 == strncmp(a, b, n)]. *)
Fixpoint strneq (a b : string) (n : nat) : bool :=
  match n with
  | O => true
  | S n =>
      match a, b with
      | EmptyString, EmptyString => true
      | String x a, String y b => Ascii.eqb x y && strneq a b n
      | _, _ => false
      end
  end.

(** Suffix from index [n], and the prefix of length [n]. *)
Fixpoint sdrop (n : nat) (s : string) : string :=
  match n, s with
  | O, _ => s
  | S n, EmptyString => EmptyString
  | S n, String _ s => sdrop n s
  end.
Fixpoint stake (n : nat) (s : string) : string :=
  match n, s with
  | O, _ => EmptyString
  | S n, EmptyString => EmptyString
  | S n, String x s => String x (stake n s)
  end.

(** [strchrnul]: the index of the first [c], or the length. *)
Definition strchrnul (s : string) (c : ascii) : nat := default (String.length s) (strchr s c).

(** ** Patterns and words *)

(** [prefix_pattern_matches]: a null pattern is undefined behaviour in
    [strchr], a null string never matches. *)
Definition prefix_pattern_matches (pat str : option string) : outcome bool :=
  match str with
  | None => Ret false
  | Some str =>
      match pat with
      | None => Unreachable
      | Some pat =>
          Ret (strneq pat str
            (match strchr pat "*" with Some star_pos => star_pos | None => String.length pat end))
      end
  end.

Fixpoint count_separated_words_from (fuel : nat) (pos : string) (sep : ascii) (count : Z) : Z :=
  match fuel with
  | O => count
  | S fuel =>
      match strchr pos sep with
      | Some i => count_separated_words_from fuel (sdrop (S i) pos) sep (wrap32 (count + 1))
      | None => count
      end
  end.
Definition count_separated_words (str : string) (sep : ascii) : Z :=
  count_separated_words_from (S (String.length str)) str sep 1.

(** [while ( *pos == sep) ++pos;] *)
Fixpoint skip_sep (pos : string) (sep : ascii) : string :=
  match pos with
  | String x pos' => if Ascii.eqb x sep then skip_sep pos' sep else pos
  | EmptyString => EmptyString
  end.

(** The [do ... while] of [fill_separated_words]: the words written to [out],
    [n_added] of them so far; [fill_separated_words_total] shows that the fuel
    never runs out. *)
Fixpoint fill_loop (fuel : nat) (pos : string) (sep : ascii) (n_added max : nat)
    : outcome (list string) :=
  match fuel with
  | O => Unreachable
  | S fuel =>
      let spacepos := strchrnul pos sep in
      if (0 <? spacepos)%nat && negb (n_added <? max)%nat then Abort
      else
        let n_added' := if (0 <? spacepos)%nat then S n_added else n_added in
        let pos' := skip_sep (sdrop spacepos pos) sep in
        rest ← (if negb (String.eqb pos' EmptyString) && (n_added' <? max)%nat
                then fill_loop fuel pos' sep n_added' max else Ret []);
        Ret (if (0 <? spacepos)%nat then stake spacepos pos :: rest else rest)
  end.
Definition fill_separated_words (str : string) (sep : ascii) (max : nat)
    : outcome (list string) :=
  if (max =? 0)%nat then Ret [] else fill_loop (S (String.length str)) str sep 0 max.

(** ** Suppressions

    An entry of the array, zeroed by [calloc] until its fields are filled. *)
Record suppression := {
  test_type_pat : option string;
  testing_function_pat : option string;
  alloc_type_pat : option string;
}.
Definition null_suppression : suppression :=
  {| test_type_pat := None; testing_function_pat := None; alloc_type_pat := None |}.

(** Filling the three fields, in order, from the words of a triple. *)
Definition suppression_of_words (ws : list string) : suppression :=
  {| test_type_pat := ws !! 0%nat; testing_function_pat := ws !! 1%nat;
     alloc_type_pat := ws !! 2%nat |}.

Definition parse_suppression (word : string) : outcome suppression :=
  if count_separated_words word "," =? 3
  then ws ← fill_separated_words word "," 3; Ret (suppression_of_words ws)
  else Ret null_suppression.

Fixpoint parse_suppression_words (words : list string) : outcome (list suppression) :=
  match words with
  | [] => Ret []
  | w :: words =>
      s ← parse_suppression w;
      ss ← parse_suppression_words words;
      Ret (s :: ss)
  end.

(** The suppressions part of [__libcrunch_global_init]: the argument is the
    value of [LIBCRUNCH_SUPPRESSIONS]; the array is longer than the list by at
    least one zeroed entry, [null_suppression]. *)
Definition load_suppressions (suppressions_str : option string)
    : outcome (option (list suppression)) :=
  match suppressions_str with
  | None => Ret None
  | Some str =>
      let suppressions_count := count_separated_words str " " in
      words ← fill_separated_words str " " (Z.to_nat suppressions_count);
      ss ← parse_suppression_words words;
      Ret (Some (ss ++ [null_suppression]))
  end.

(** ** What is reported *)
Inductive check_kind :=
| IS_A | LIKE_A | NAMED_A | IS_A_FUNCTION_REFINING | CHECK_ARGS | LOOSELY_LIKE_A
| IS_A_POINTER_OF_DEGREE | CAN_HOLD_POINTER | DERIVED_PTR_VALID | DEREFED_PTR_VALID.
#[export] Instance check_kind_eq_dec : EqDecision check_kind.
Proof. solve_decision. Defined.

(** The set of sites: liballocs' [addrlist]. *)
Class Addrlist (S : Type) := {
  addrlist_contains : S -> Z -> bool;
  addrlist_add : S -> Z -> S;
}.
Class AddrlistLaws (S : Type) `{Addrlist S} : Prop := {
  contains_add : forall s a b,
    addrlist_contains (addrlist_add s a) b = (a =? b) || addrlist_contains s b;
}.

(** Symbols and type names, as far as reports use them. *)
Class Names (U : Type) := {
  name_for_uniqtype : U -> string;
  dli_sname : Z -> option string;
}.

(** A line of output: a failure with its site and kind, or the summary of
    further occurrences of the previous one. *)
Inductive report_line :=
| Failed_check (site : Z) (kind : check_kind)
| Further_occurrences (n : Z).

Record report_state (S U : Type) := ReportState {
  verbose : bool;
  suppressions : option (list suppression);
  distinct_failure_sites : S;
  last_failed_site : Z;
  last_failed_decider : option U;
  repeat_summarisation_count : Z;
  failed_and_suppressed : Z;
  output : list report_line;             (* newest first *)
}.
Arguments ReportState {S U}.
Arguments verbose {S U}. Arguments suppressions {S U}. Arguments distinct_failure_sites {S U}.
Arguments last_failed_site {S U}. Arguments last_failed_decider {S U}.
Arguments repeat_summarisation_count {S U}. Arguments failed_and_suppressed {S U}.
Arguments output {S U}.

Section reporting.
Context {S U : Type} `{Addrlist S} `{Names U} `{EqDecision U}.
Implicit Types (r : report_state S U).

Definition test_site_matches (pat : option string) (test_site : Z) : outcome bool :=
  match dli_sname test_site with
  | Some sname => prefix_pattern_matches pat (Some sname)
  | None => prefix_pattern_matches pat (Some EmptyString)
  end.

(** Three tests joined by a short-circuit [&&]. *)
Definition suppression_matches (s : suppression) (test_typestr : option string)
    (test_site : Z) (alloc_typestr : option string) : outcome bool :=
  b ← prefix_pattern_matches (test_type_pat s) test_typestr;
  if negb b then Ret false
  else
    b ← prefix_pattern_matches (alloc_type_pat s) alloc_typestr;
    if negb b then Ret false
    else test_site_matches (testing_function_pat s) test_site.

(** The loop over the array, up to the first entry without a type pattern. *)
Fixpoint any_suppression (ss : list suppression) (test_typestr : option string)
    (test_site : Z) (alloc_typestr : option string) : outcome bool :=
  match ss with
  | [] => Ret false
  | p :: ss =>
      match test_type_pat p with
      | None => Ret false
      | Some _ =>
          b ← suppression_matches p test_typestr test_site alloc_typestr;
          if (b : bool) then Ret true else any_suppression ss test_typestr test_site alloc_typestr
      end
  end.

Definition is_suppressed r (maybe_test_uniqtype : option U) (test_site : Z)
    (maybe_alloc_uniqtype : option U) : outcome (bool * report_state S U) :=
  match suppressions r with
  | None => Ret (false, r)
  | Some ss =>
      b ← any_suppression ss (name_for_uniqtype <$> maybe_test_uniqtype) test_site
            (name_for_uniqtype <$> maybe_alloc_uniqtype);
      if (b : bool) then
        Ret (true, ReportState (verbose r) (suppressions r) (distinct_failure_sites r)
               (last_failed_site r) (last_failed_decider r) (repeat_summarisation_count r)
               (wrap64 (failed_and_suppressed r + 1)) (output r))
      else Ret (false, r)
  end.

Definition add_site r (site : Z) : report_state S U :=
  ReportState (verbose r) (suppressions r) (addrlist_add (distinct_failure_sites r) site)
    (last_failed_site r) (last_failed_decider r) (repeat_summarisation_count r)
    (failed_and_suppressed r) (output r).

Definition should_report_failure_at r (site : Z) (maybe_test_uniqtype maybe_alloc_uniqtype : option U)
    : outcome (bool * report_state S U) :=
  '(b, r) ← is_suppressed r maybe_test_uniqtype site maybe_alloc_uniqtype;
  if (b : bool) then Ret (false, r)
  else if verbose r then Ret (true, r)
  else if negb (addrlist_contains (distinct_failure_sites r) site)
  then Ret (true, add_site r site)
  else Ret (false, r).

Definition with_repeats r (n : Z) (out : list report_line) : report_state S U :=
  ReportState (verbose r) (suppressions r) (distinct_failure_sites r) (last_failed_site r)
    (last_failed_decider r) n (failed_and_suppressed r) out.

Definition report_repeat_failure_summary r : report_state S U :=
  if 0 <? repeat_summarisation_count r
  then with_repeats r 0 (Further_occurrences (repeat_summarisation_count r) :: output r)
  else r.

Definition report_failure r (site : Z) (kind : check_kind) (found_uniqtype : option U)
    : report_state S U :=
  if (last_failed_site r =? site) && bool_decide (last_failed_decider r = found_uniqtype)
  then with_repeats r (wrap64 (repeat_summarisation_count r + 1)) (output r)
  else
    let r := report_repeat_failure_summary r in
    ReportState (verbose r) (suppressions r) (distinct_failure_sites r) site found_uniqtype
      (repeat_summarisation_count r) (failed_and_suppressed r)
      (Failed_check site kind :: output r).

Definition report_failure_if_necessary r (site : Z) (kind : check_kind)
    (found_uniqtype test_uniqtype alloc_uniqtype : option U) : outcome (report_state S U) :=
  '(b, r) ← should_report_failure_at r site test_uniqtype alloc_uniqtype;
  if (b : bool) then Ret (report_failure r site kind found_uniqtype) else Ret r.
End reporting.

(** ** Strings: lemmas *)

(** [a] is a prefix of [b]. *)
Fixpoint is_prefix (a b : string) : bool :=
  match a, b with
  | EmptyString, _ => true
  | String x a, String y b => Ascii.eqb x y && is_prefix a b
  | _, _ => false
  end.

(** The part of a pattern before its first star. *)
Fixpoint stem (pat : string) : string :=
  match pat with
  | EmptyString => EmptyString
  | String x pat => if Ascii.eqb x "*" then EmptyString else String x (stem pat)
  end.

Lemma strneq_stem pat : forall str,
  strneq pat str (match strchr pat "*" with Some n => n | None => String.length pat end)
  = is_prefix (stem pat) str.
Proof.
  induction pat as [|x pat IH]; intros str; [done|]. cbn [strchr stem String.length].
  destruct (Ascii.eqb x "*"); [done|].
  destruct str as [|y str]; cbn [is_prefix].
  - by destruct (strchr pat "*").
  - rewrite <- IH. by destruct (strchr pat "*").
Qed.

(** Cutting at the first separator. *)
Lemma strchr_app w c rest :
  strchr w c = None -> strchr (w +:+ String c rest) c = Some (String.length w).
Proof.
  induction w as [|x w IH]; cbn; [by rewrite Ascii.eqb_refl|].
  destruct (Ascii.eqb x c); [done|]. intros Hn. rewrite IH; [done|].
  by destruct (strchr w c).
Qed.
Lemma stake_app w rest : stake (String.length w) (w +:+ rest) = w.
Proof. induction w as [|x w IH]; cbn; [by destruct rest|]. by rewrite IH. Qed.
Lemma sdrop_app w rest : sdrop (String.length w) (w +:+ rest) = rest.
Proof. by induction w as [|x w IH]; cbn; [destruct rest|]. Qed.
Lemma sapp_nil w : w +:+ EmptyString = w.
Proof. induction w as [|x w IH]; cbn; [done|]. by rewrite IH. Qed.
Lemma stake_all w : stake (String.length w) w = w.
Proof. induction w as [|x w IH]; cbn; [done|]. by rewrite IH. Qed.
Lemma sdrop_all w : sdrop (String.length w) w = EmptyString.
Proof. by induction w. Qed.
Lemma app_assoc_string a b c : (a +:+ b) +:+ c = a +:+ (b +:+ c).
Proof. induction a as [|x a IH]; cbn; [done|]. by rewrite IH. Qed.
Lemma sapp_length a b : String.length (a +:+ b) = (String.length a + String.length b)%nat.
Proof. induction a as [|x a IH]; cbn; [done|]. by rewrite IH. Qed.

(** The first word of a string, what it leaves, and its properties. *)
Lemma strchrnul_split s c :
  s = stake (strchrnul s c) s +:+ sdrop (strchrnul s c) s /\
  strchr (stake (strchrnul s c) s) c = None /\
  String.length (stake (strchrnul s c) s) = strchrnul s c /\
  (sdrop (strchrnul s c) s = EmptyString \/ exists r, sdrop (strchrnul s c) s = String c r).
Proof.
  unfold strchrnul. induction s as [|x s (IH1 & IH2 & IH3 & IH4)]; [by split_and!; try left|].
  cbn [strchr String.length]. destruct (Ascii.eqb x c) eqn:Hx.
  - apply Ascii.eqb_eq in Hx as ->. cbn. split_and!; try done. right. by exists s.
  - assert (default (S (String.length s)) (S <$> strchr s c) =
      S (default (String.length s) (strchr s c))) as -> by (by destruct (strchr s c)).
    set (k := default _ _) in *. cbn [stake sdrop strchr String.length].
    rewrite Hx, IH2, IH3. split_and!; [|done|done|done].
    cbn [String.append]. by rewrite <- IH1.
Qed.

Lemma skip_sep_length s c : (String.length (skip_sep s c) <= String.length s)%nat.
Proof. induction s as [|x s IH]; cbn; [done|]. destruct (Ascii.eqb x c); cbn; lia. Qed.

Definition word_ok (sep : ascii) (w : string) : Prop := w <> EmptyString /\ strchr w sep = None.

Lemma fill_loop_total fuel : forall pos sep n max,
  (String.length pos < fuel)%nat -> (n < max)%nat ->
  exists ws, fill_loop fuel pos sep n max = Ret ws /\ (n + length ws <= max)%nat /\
    Forall (word_ok sep) ws.
Proof.
  induction fuel as [|fuel IH]; intros pos sep n max Hf Hn; [lia|]. cbn [fill_loop].
  rewrite (proj2 (Nat.ltb_lt n max)) by done. rewrite andb_false_r.
  destruct (strchrnul_split pos sep) as (Hsp & Hns & Hln & Hrest).
  set (k := strchrnul pos sep) in *.
  assert (Hlen : String.length pos = (k + String.length (sdrop k pos))%nat).
  { rewrite Hsp at 1. by rewrite sapp_length, Hln. }
  pose proof (skip_sep_length (sdrop k pos) sep) as Hskip.
  set (n' := if (0 <? k)%nat then S n else n).
  assert (exists rest, (if negb (String.eqb (skip_sep (sdrop k pos) sep) EmptyString) && (n' <? max)%nat
      then fill_loop fuel (skip_sep (sdrop k pos) sep) sep n' max else Ret []) = Ret rest /\
    (n' + length rest <= max)%nat /\ Forall (word_ok sep) rest) as (rest & -> & Hr & Hall).
  { assert (n' <= max)%nat by (unfold n'; destruct (0 <? k)%nat; lia).
    destruct (String.eqb _ _) eqn:He; cbn [negb andb]; [exists []; split; [done|]; split; [cbn; lia|by constructor]|].
    destruct (Nat.ltb_spec n' max) as [Hlt|]; [|exists []; split; [done|]; split; [cbn; lia|by constructor]].
    apply IH; [|done].
    destruct Hrest as [Hd|[r Hd]]; rewrite Hd in *.
    - by cbn in He.
    - cbn [skip_sep] in *. rewrite Ascii.eqb_refl in *. cbn [String.length] in *.
      pose proof (skip_sep_length r sep). lia. }
  cbn [mbind outcome_bind]. unfold n' in *.
  destruct (Nat.ltb_spec 0 k); eexists; (split; [done|]); cbn [length]; (split; [lia|]); [|done].
  apply Forall_cons. split; [|done]. split; [|done].
  intros Hw. rewrite Hw in Hln. cbn in Hln. lia.
Qed.

(** A list of words with a separator between them. *)
Definition join (sep : ascii) (ws : list string) : string :=
  String.concat (String sep EmptyString) ws.

Lemma join_cons sep w w' ws :
  join sep (w :: w' :: ws) = w +:+ String sep (join sep (w' :: ws)).
Proof. done. Qed.

Lemma skip_sep_word sep w rest : word_ok sep w -> skip_sep (w +:+ rest) sep = w +:+ rest.
Proof.
  intros [Hne Hs]. destruct w as [|x w]; [done|]. cbn in *.
  by destruct (Ascii.eqb x sep).
Qed.
Lemma join_word sep w ws :
  word_ok sep w -> exists rest, join sep (w :: ws) = w +:+ rest.
Proof.
  intros _. destruct ws as [|w' ws]; [exists EmptyString; cbn; by rewrite sapp_nil|].
  eexists. apply join_cons.
Qed.

Lemma fill_loop_join ws : forall w fuel sep n,
  Forall (word_ok sep) (w :: ws) -> (length (w :: ws) <= fuel)%nat ->
  fill_loop fuel (join sep (w :: ws)) sep n (n + length (w :: ws)) = Ret (w :: ws).
Proof.
  induction ws as [|w' ws IH]; intros w fuel sep n Hall Hf; destruct fuel as [|fuel];
    cbn [length] in Hf; try lia; apply Forall_cons in Hall as [Hw Hall]; cbn [fill_loop].
  - change (join sep [w]) with w. destruct Hw as [Hne Hs]. unfold strchrnul. rewrite Hs. cbn [from_option id].
    rewrite sdrop_all, stake_all. cbn [skip_sep String.eqb negb andb].
    assert ((0 <? String.length w)%nat = true) as -> by (destruct w; done).
    rewrite (proj2 (Nat.ltb_lt _ _)) by (cbn; lia). done.
  - rewrite join_cons. unfold strchrnul. rewrite strchr_app by apply Hw. cbn [from_option id].
    rewrite sdrop_app, stake_app. cbn [skip_sep]. rewrite Ascii.eqb_refl.
    pose proof Hall as Hall'. apply Forall_cons in Hall' as [Hw' _].
    destruct (join_word sep w' ws Hw') as [rest Hrest].
    assert (skip_sep (join sep (w' :: ws)) sep = join sep (w' :: ws)) as ->
      by (rewrite Hrest; by apply skip_sep_word).
    assert (String.eqb (join sep (w' :: ws)) EmptyString = false) as ->.
    { rewrite Hrest. destruct Hw' as [Hne _]. by destruct w'. }
    assert ((0 <? String.length w)%nat = true) as -> by (destruct Hw as [Hne _]; by destruct w).
    rewrite !(proj2 (Nat.ltb_lt _ _)) by (cbn [length]; lia). cbn [negb andb].
    replace (n + length (w :: w' :: ws))%nat with (S n + length (w' :: ws))%nat by (cbn; lia).
    rewrite IH by (done || (cbn [length]; lia)). done.
Qed.

Lemma count_join ws : forall w fuel sep c,
  Forall (word_ok sep) (w :: ws) -> (length (w :: ws) <= fuel)%nat ->
  0 <= c -> c + Z.of_nat (length ws) < 2 ^ 32 ->
  count_separated_words_from fuel (join sep (w :: ws)) sep c = c + Z.of_nat (length ws).
Proof.
  induction ws as [|w' ws IH]; intros w fuel sep c Hall Hf Hc Hb; destruct fuel as [|fuel];
    cbn [length] in Hf; try lia; apply Forall_cons in Hall as [Hw Hall];
    cbn [count_separated_words_from].
  - change (join sep [w]) with w. destruct Hw as [_ ->]. cbn. lia.
  - rewrite join_cons, strchr_app by apply Hw.
    change (String sep (join sep (w' :: ws))) with (String sep EmptyString +:+ join sep (w' :: ws)).
    rewrite <- (app_assoc_string w). cbn [length] in *.
    assert (S (String.length w) = String.length (w +:+ String sep EmptyString)) as ->
      by (rewrite sapp_length; cbn; lia).
    rewrite sdrop_app. unfold wrap32. rewrite Z.mod_small by lia.
    rewrite IH by (done || cbn [length]; lia). cbn [length]. lia.
Qed.

(** What a pattern matches: exactly the strings that start with the part of
    the pattern before its first star; in particular a pattern without a star
    also matches every longer string, and nothing after a star matters.  A null
    string is matched by nothing. *)
Theorem prefix_pattern_matches_spec pat str :
  prefix_pattern_matches (Some pat) (Some str) = Ret (is_prefix (stem pat) str) /\
  prefix_pattern_matches (Some pat) None = Ret false /\
  (strchr pat "*" = None -> forall rest,
     prefix_pattern_matches (Some pat) (Some (pat +:+ rest)) = Ret true).
Proof.
  split; [|split].
  - cbn. by rewrite strneq_stem.
  - done.
  - intros Hs rest. cbn. f_equal. rewrite Hs. clear Hs.
    induction pat as [|x pat IH]; [done|]. cbn. by rewrite Ascii.eqb_refl, IH.
Qed.

(** ** Suppressions *)
Definition triple_ok (t : string * string * string) : Prop :=
  let '(a, b, c) := t in
  Forall (word_ok ",") [a; b; c] /\ strchr (join "," [a; b; c]) " " = None.
Definition triple_word (t : string * string * string) : string :=
  let '(a, b, c) := t in join "," [a; b; c].
Definition triple_suppression (t : string * string * string) : suppression :=
  let '(a, b, c) := t in
  {| test_type_pat := Some a; testing_function_pat := Some b; alloc_type_pat := Some c |}.

Lemma sapp_nonempty w rest : w <> EmptyString -> w +:+ rest <> EmptyString.
Proof. by destruct w. Qed.

Lemma triple_word_ok t : triple_ok t -> word_ok " " (triple_word t).
Proof.
  destruct t as [[a b] c]. intros [Hw Hs]. apply Forall_cons in Hw as [[Ha _] _].
  split; [|done]. cbn [triple_word]. rewrite join_cons. by apply sapp_nonempty.
Qed.

Lemma join_length sep ws : (length ws <= S (String.length (join sep ws)))%nat.
Proof.
  induction ws as [|w [|w' ws] IH]; [cbn; lia..|]. rewrite join_cons, sapp_length.
  cbn [length String.length] in *. lia.
Qed.

Lemma count_words w ws sep :
  Forall (word_ok sep) (w :: ws) -> Z.of_nat (length (w :: ws)) < 2 ^ 32 ->
  count_separated_words (join sep (w :: ws)) sep = Z.of_nat (length (w :: ws)).
Proof.
  intros Hw Hb. unfold count_separated_words. cbn [length] in *.
  rewrite count_join; [lia|done|apply (join_length sep (w :: ws))|lia|lia].
Qed.

Lemma fill_words w ws sep :
  Forall (word_ok sep) (w :: ws) ->
  fill_separated_words (join sep (w :: ws)) sep (length (w :: ws)) = Ret (w :: ws).
Proof.
  intros Hw. unfold fill_separated_words. cbn [Nat.eqb length].
  apply (fill_loop_join ws w _ sep 0 Hw). apply (join_length sep (w :: ws)).
Qed.

Lemma parse_triple t : triple_ok t -> parse_suppression (triple_word t) = Ret (triple_suppression t).
Proof.
  destruct t as [[a b] c]. intros [Hw _]. unfold parse_suppression; cbn [triple_word].
  rewrite count_words by (done || (cbn; lia)). cbn [length Z.of_nat Z.eqb].
  change (Pos.of_succ_nat 2 =? 3)%positive with true. cbn iota.
  by rewrite (fill_words a [b; c] "," Hw : fill_separated_words _ _ 3 = _).
Qed.

(** C36. The suppression list round-trips: the string made of triples of
    non-empty patterns, joined by commas and spaces, is parsed into exactly
    these triples, followed by the null entry that ends the array. *)
Theorem load_suppressions_roundtrip t ts :
  Forall triple_ok (t :: ts) -> Z.of_nat (length (t :: ts)) < 2 ^ 32 ->
  load_suppressions (Some (join " " (triple_word <$> (t :: ts)))) =
    Ret (Some ((triple_suppression <$> (t :: ts)) ++ [null_suppression])).
Proof.
  intros Hok Hb. unfold load_suppressions.
  assert (Forall (word_ok " ") (triple_word <$> (t :: ts))) as Hw.
  { apply Forall_fmap. eapply Forall_impl; [exact Hok|]. apply triple_word_ok. }
  cbn [fmap list_fmap] in *. rewrite count_words by (rewrite ?length_fmap; done || (cbn [length] in *; rewrite length_fmap; lia)).
  rewrite Nat2Z.id, fill_words by done. cbn [mbind outcome_bind].
  assert (forall l, Forall triple_ok l ->
    parse_suppression_words (map triple_word l) = Ret (map triple_suppression l)) as Hparse.
  { clear. induction l as [|u l IH]; [done|]. intros [Hu Hl]%Forall_cons.
    cbn [map parse_suppression_words]. rewrite parse_triple, IH by done. done. }
  match goal with |- context [parse_suppression_words ?l] =>
    replace (parse_suppression_words l) with (Ret (map triple_suppression (t :: ts)))
      by (symmetry; exact (Hparse (t :: ts) Hok)) end.
  done.
Qed.

(** Reading the suppression list never fails: whatever the string, the word
    splitter ends, its assertion holds, it writes at most [max] words, and
    these are non-empty and free of separators. *)
Theorem fill_separated_words_total str sep max :
  exists ws, fill_separated_words str sep max = Ret ws /\ (length ws <= max)%nat /\
    Forall (word_ok sep) ws.
Proof.
  unfold fill_separated_words. destruct (Nat.eqb_spec max 0) as [->|Hne].
  - exists []. split; [done|]. split; [cbn; lia|by constructor].
  - destruct (fill_loop_total (S (String.length str)) str sep 0 max) as (ws & Hr & Hl & Hw);
      [lia|lia|]. by exists ws.
Qed.

Section policy.
Context {S U : Type} `{AL : AddrlistLaws S} `{Names U} `{EqDecision U}.
Implicit Types (r : report_state S U).

(** The declarative reading of a complete suppression. *)
Definition suppresses (t : string * string * string) (tt fn at' : string) : bool :=
  let '(a, b, c) := t in
  is_prefix (stem a) tt && is_prefix (stem c) at' && is_prefix (stem b) fn.

Lemma prefix_matches_some pat str :
  prefix_pattern_matches (Some pat) (Some str) = Ret (is_prefix (stem pat) str).
Proof. cbn. by rewrite strneq_stem. Qed.

Lemma any_suppression_spec ts rest tt site at' :
  any_suppression ((triple_suppression <$> ts) ++ null_suppression :: rest) (Some tt) site (Some at')
  = Ret (existsb (fun t => suppresses t tt (default EmptyString (dli_sname site)) at') ts).
Proof.
  induction ts as [|[[a b] c] ts IH]; [done|].
  cbn [fmap list_fmap app any_suppression triple_suppression test_type_pat existsb suppresses].
  unfold suppression_matches, test_site_matches.
  cbn [test_type_pat alloc_type_pat testing_function_pat]. rewrite !prefix_matches_some.
  cbn [mbind outcome_bind]. destruct (is_prefix (stem a) tt); cbn [negb andb]; [|apply IH].
  destruct (is_prefix (stem c) at'); cbn [negb andb]; [|apply IH].
  destruct (dli_sname site); cbn [from_option id];
    rewrite ?prefix_matches_some; cbn [mbind outcome_bind];
    destruct (is_prefix (stem b) _); cbn [orb]; (done || apply IH).
Qed.

Lemma any_suppression_no_type ss site at' :
  any_suppression ss None site at' = Ret false.
Proof.
  induction ss as [|p ss IH]; [done|]. cbn [any_suppression]. destruct (test_type_pat p); [|done].
  unfold suppression_matches. done.
Qed.

(** What is suppressed: with a well-formed list, a failure is suppressed
    exactly when some triple matches the tested type, the function the check is
    in (the empty string if it has no symbol) and the allocated type; an entry
    that is not a triple hides every suppression after it; and failures
    reported without a tested type, such as those of the bounds checks, are
    never suppressed. *)
Theorem is_suppressed_spec r ts rest (tu au : U) site :
  (suppressions r = Some ((triple_suppression <$> ts) ++ null_suppression :: rest) ->
     exists r', is_suppressed r (Some tu) site (Some au) =
       Ret (existsb (fun t => suppresses t (name_for_uniqtype tu)
              (default EmptyString (dli_sname site)) (name_for_uniqtype au)) ts, r')) /\
  exists r', is_suppressed r None site (Some au) = Ret (false, r').
Proof.
  unfold is_suppressed. split.
  - intros ->. cbn [fmap option_fmap option_map]. rewrite any_suppression_spec.
    cbn [mbind outcome_bind]. destruct (existsb _ ts); eauto.
  - destruct (suppressions r) as [ss|]; [|eauto]. cbn [fmap option_fmap option_map].
    rewrite any_suppression_no_type. cbn. eauto.
Qed.

(** The verdicts on a sequence of failures, given as site, tested and allocated
    type. *)
Fixpoint verdicts r (evs : list (Z * option U * option U)) : outcome (list bool * report_state S U) :=
  match evs with
  | [] => Ret ([], r)
  | (site, tu, au) :: evs =>
      '(b, r) ← should_report_failure_at r site tu au;
      '(bs, r) ← verdicts r evs;
      Ret (b :: bs, r)
  end.

(** Whether a site occurs for the first time. *)
Fixpoint first_occurrences (seen : Z -> bool) (sites : list Z) : list bool :=
  match sites with
  | [] => []
  | s :: sites => negb (seen s) :: first_occurrences (fun x => (s =? x) || seen x) sites
  end.

Lemma first_occurrences_ext f g sites :
  (forall x, f x = g x) -> first_occurrences f sites = first_occurrences g sites.
Proof.
  revert f g. induction sites as [|s sites IH]; intros f g Hfg; [done|]. cbn.
  rewrite Hfg. f_equal. apply IH. intros x. by rewrite Hfg.
Qed.

(** Each failing site is reported once: without suppressions and outside
    verbose mode, a sequence of failures is reported exactly at the first
    occurrence of each site; in verbose mode every failure is. *)
Theorem each_site_reported_once r evs :
  suppressions r = None ->
  exists r', verdicts r evs =
    Ret (if verbose r then map (fun _ => true) evs
         else first_occurrences (addrlist_contains (distinct_failure_sites r))
                (map (fun ev => ev.1.1) evs), r').
Proof.
  revert r. induction evs as [|[[site tu] au] evs IH]; intros r Hs; cbn [verdicts map].
  { exists r. by destruct (verbose r). }
  unfold should_report_failure_at, is_suppressed. rewrite Hs. cbn [mbind outcome_bind].
  destruct (verbose r) eqn:Hv.
  - cbn [mbind outcome_bind]. destruct (IH r Hs) as [r' ->]. rewrite Hv. by exists r'.
  - cbn [fst first_occurrences].
    destruct (addrlist_contains (distinct_failure_sites r) site) eqn:Hc; cbn [negb mbind outcome_bind].
    + destruct (IH r Hs) as [r' ->]. rewrite Hv. cbn. exists r'. do 3 f_equal.
      apply first_occurrences_ext. intros x. destruct (Z.eqb_spec site x) as [->|]; [by rewrite Hc|done].
    + destruct (IH (add_site r site) Hs) as [r' ->]. cbn [verbose add_site distinct_failure_sites].
      rewrite Hv. cbn. exists r'. do 3 f_equal.
      apply first_occurrences_ext. intros x. by rewrite contains_add.
Qed.

(** How many failures a line of output, and the whole report, stand for. *)
Definition line_failures (l : report_line) : Z :=
  match l with Failed_check _ _ => 1 | Further_occurrences n => n end.
Fixpoint output_failures (ls : list report_line) : Z :=
  match ls with [] => 0 | l :: ls => line_failures l + output_failures ls end.
Definition accounted r : Z := output_failures (output r) + repeat_summarisation_count r.

Fixpoint report_failures r (evs : list (Z * check_kind * option U)) : report_state S U :=
  match evs with
  | [] => r
  | (site, kind, found) :: evs => report_failures (report_failure r site kind found) evs
  end.

Lemma report_failure_accounted r site kind found :
  0 <= repeat_summarisation_count r < 2 ^ 64 - 1 ->
  accounted (report_failure r site kind found) = accounted r + 1 /\
  0 <= repeat_summarisation_count (report_failure r site kind found)
    <= repeat_summarisation_count r + 1.
Proof.
  intros Hr. unfold report_failure, accounted.
  destruct ((last_failed_site r =? site) && bool_decide _).
  - cbn [with_repeats output repeat_summarisation_count].
    rewrite wrap64_small by (unfold u64; lia). lia.
  - cbn [output repeat_summarisation_count output_failures line_failures].
    unfold report_repeat_failure_summary.
    destruct (Z.ltb_spec 0 (repeat_summarisation_count r));
      cbn [with_repeats output repeat_summarisation_count output_failures line_failures]; lia.
Qed.

(** No reported failure is lost: after any sequence of failures the lines
    printed, the repeat counts in the summaries among them and the pending
    count of repeats add up to the number of failures. *)
Theorem report_failures_accounted r evs :
  0 <= repeat_summarisation_count r ->
  repeat_summarisation_count r + Z.of_nat (length evs) < 2 ^ 64 ->
  accounted (report_failures r evs) = accounted r + Z.of_nat (length evs).
Proof.
  revert r. induction evs as [|[[site kind] found] evs IH]; intros r Hr0 Hb; cbn [report_failures length] in *;
    [lia|].
  destruct (report_failure_accounted r site kind found) as [Ha Hr]; [lia|].
  rewrite IH by lia. lia.
Qed.
End policy.

(** ** Witnesses: a set of sites as a list, and a few names. *)
#[local] Instance list_sites : Addrlist (list Z) := {|
  addrlist_contains s a := existsb (Z.eqb a) s;
  addrlist_add s a := a :: s;
|}.
#[local] Instance list_sites_laws : AddrlistLaws (list Z).
Proof.
  split. intros s a b. cbn. f_equal. apply Z.eqb_sym.
Qed.
#[local] Instance ex_names : Names nat := {|
  name_for_uniqtype u := if (u =? 0)%nat then "int$32"%string else "foo"%string;
  dli_sname site := if site =? 1 then Some "main"%string else None;
|}.
Definition ex_report (v : bool) (ss : option (list suppression)) : report_state (list Z) nat :=
  ReportState v ss [] 0 None 0 0 [].

Lemma prefix_pattern_matches_spec_witness :
  prefix_pattern_matches (Some "int"%string) (Some "int$32"%string) = Ret true.
Proof. apply (proj2 (proj2 (prefix_pattern_matches_spec "int"%string "int$32"%string))). reflexivity. Defined.

Lemma load_suppressions_roundtrip_witness :
  load_suppressions (Some "int*,main,* foo,*,int$32"%string) =
    Ret (Some [triple_suppression ("int*", "main", "*")%string;
               triple_suppression ("foo", "*", "int$32")%string; null_suppression]).
Proof.
  apply (load_suppressions_roundtrip ("int*", "main", "*")%string
    [("foo", "*", "int$32")%string]).
  - repeat apply Forall_cons_2; try (by apply Forall_nil);
      (split; [repeat apply Forall_cons_2; try (by apply Forall_nil); by split|reflexivity]).
  - reflexivity.
Defined.

Lemma is_suppressed_spec_witness :
  exists r',
    is_suppressed (ex_report false (Some [triple_suppression ("int*", "main", "*")%string;
      null_suppression])) (Some 0%nat) 1 (Some 1%nat) = Ret (true, r').
Proof.
  exact (proj1 (is_suppressed_spec (ex_report false (Some [triple_suppression ("int*", "main", "*")%string;
      null_suppression])) [("int*", "main", "*")%string] [] 0%nat 1%nat 1) eq_refl).
Defined.

Lemma each_site_reported_once_witness :
  exists r', verdicts (ex_report false None)
    [(5, Some 0%nat, None); (6, None, None); (5, None, None)] =
  Ret ([true; true; false], r').
Proof.
  destruct (each_site_reported_once (ex_report false None)
    [(5, Some 0%nat, None); (6, None, None); (5, None, None)] eq_refl) as [r' Hr].
  exists r'. exact Hr.
Defined.

Lemma report_failures_accounted_witness :
  accounted (report_failures (ex_report false None)
    [(5, IS_A, None); (5, IS_A, None); (6, LIKE_A, Some 0%nat)]) = 3.
Proof.
  etransitivity; [apply (report_failures_accounted (ex_report false None)
    [(5, IS_A, None); (5, IS_A, None); (6, LIKE_A, Some 0%nat)])|reflexivity].
  - cbn. lia.
  - cbn. lia.
Defined.
