(* ===== verification/Runtime.v ===== *)
(** * The runtime state and the interface to liballocs

    The out-of-line runtime ([src/libcrunch.c]) asks liballocs what is
    allocated where, walks its type descriptions and keeps its memory-range
    caches.  liballocs is not part of this program: [Liballocs] lists the types
    and operations of it that the code uses, [LiballocsLaws] the little that the
    termination of the code relies on.  The state of libcrunch itself (counters,
    report state, the two caches, memory and the bounds stack) is [runtime]. *)
From S2P Require Import Prelude Config TrapPtr Bounds Derive Memory ShadowSpace BoundsStack Report.

(** What a memory-range cache holds for a range. *)
Record cache_entry (T : Type) := CacheEntry {
  obj_base : Z; obj_limit : Z; entry_uniqtype : option T; entry_period : Z; entry_alloc_base : Z;
}.
Arguments CacheEntry {T}. Arguments obj_base {T}. Arguments obj_limit {T}.
Arguments entry_uniqtype {T}. Arguments entry_period {T}. Arguments entry_alloc_base {T}.

(** What [__liballocs_get_alloc_info] reports. *)
Record alloc_info (T A : Type) := AllocInfo {
  alloc_a : option A; alloc_start : Z; alloc_size_bytes : Z;
  alloc_uniqtype : option T; alloc_site : Z;
}.
Arguments AllocInfo {T A}. Arguments alloc_a {T A}. Arguments alloc_start {T A}.
Arguments alloc_size_bytes {T A}. Arguments alloc_uniqtype {T A}. Arguments alloc_site {T A}.

(** The arguments [__liballocs_find_matching_subobject] updates. *)
Record match_result (T : Type) := MatchResult {
  match_ok : bool; match_type : option T; match_offset : Z; match_cumulative : Z;
  match_containing : option T; match_contained_off : Z;
}.
Arguments MatchResult {T}. Arguments match_ok {T}. Arguments match_type {T}.
Arguments match_offset {T}. Arguments match_cumulative {T}. Arguments match_containing {T}.
Arguments match_contained_off {T}.

(** One call of a subobject-walk callback. *)
Record visit (T : Type) := Visit {
  spans : T; span_start_offset : Z; containing : T; containing_span_start_offset : Z;
}.
Arguments Visit {T}. Arguments spans {T}. Arguments span_start_offset {T}.
Arguments containing {T}. Arguments containing_span_start_offset {T}.

(** The header of an allocation, for its loose-type flag. *)
Record insert := Insert { ins_alloc_site_flag : bool; ins_alloc_site : Z }.

(** A pointer to a [struct uniqtype] is an [option uniqtype], null being
    [None]; macros of liballocs that take such a pointer are functions of it. *)
Class Liballocs := {
  uniqtype : Type;
  uniqtype_eq_dec :: EqDecision uniqtype;
  allocator : Type;
  lib_state : Type;
  cache : Type;
  sites : Type;
  lib_addrlist :: Addrlist sites;
  lib_names :: Names uniqtype;
  (* type descriptions *)
  pos_maxoff : uniqtype -> Z;
  UNIQTYPE_POS_MAXOFF_UNBOUNDED : Z;
  is_array_type : option uniqtype -> bool;
  is_pointer_type : option uniqtype -> bool;
  is_base_type : option uniqtype -> bool;
  is_subprogram_type : option uniqtype -> bool;
  is_abstract : option uniqtype -> bool;
  has_known_length : option uniqtype -> bool;
  array_element_type : option uniqtype -> option uniqtype;
  array_length : option uniqtype -> Z;
  pointee_type : option uniqtype -> option uniqtype;
  signedness_complement : option uniqtype -> option uniqtype;
  composite_member_count : option uniqtype -> Z;
  memb_off : uniqtype -> Z -> Z;                       (* related[i].un.memb.off *)
  memb_ptr : uniqtype -> Z -> option uniqtype;         (* related[i].un.memb.ptr *)
  related_t : uniqtype -> Z -> option uniqtype;        (* related[i].un.t.ptr *)
  subprogram_narg : uniqtype -> Z;
  subprogram_nret : uniqtype -> Z;
  uniqtype_void : option uniqtype;
  uniqtype_signed_char : option uniqtype;
  uniqtype_unsigned_char : option uniqtype;
  typestr_to_uniqtype : string -> option uniqtype;
  (* [make_precise]: null, the array maker, or another function *)
  make_precise : uniqtype -> option bool;
  call_make_precise : lib_state -> uniqtype -> Z -> Z -> lib_state * option uniqtype;
  (* allocations *)
  get_alloc_info : lib_state -> Z -> lib_state * option (alloc_info uniqtype allocator);
  is_cacheable : allocator -> bool;
  set_type : allocator -> option (lib_state -> Z -> option uniqtype -> lib_state);
  get_or_create_array_type : lib_state -> uniqtype -> Z -> lib_state * option uniqtype;
  get_insert : lib_state -> Z -> option insert;
  set_insert : lib_state -> Z -> insert -> lib_state;
  alloc_is_dynamically_sized : Z -> Z -> bool;
  currently_allocating : lib_state -> bool;
  currently_freeing : lib_state -> bool;
  (* walks over subobjects; [first_subobject_spanning] is [None] when it fails
     and leaves its arguments alone *)
  find_matching_subobject : Z -> option uniqtype -> option uniqtype -> match_result uniqtype;
  first_subobject_spanning : Z -> option uniqtype -> option (Z * option uniqtype);
  subobjects_spanning : Z -> option uniqtype -> list (visit uniqtype);
  (* caches *)
  cache_lookup : cache -> Z -> uniqtype -> Z -> cache * option (cache_entry uniqtype);
  cache_lookup_notype : cache -> Z -> Z -> cache * option (cache_entry uniqtype);
  cache_with_type : cache -> Z -> Z -> option uniqtype -> Z -> Z -> Z -> cache;
  cache_set_limit : cache -> cache_entry uniqtype -> Z -> cache;
  cached_object_type : cache -> Z -> cache * option uniqtype;
  (* static symbols: [dladdr] and a lookup in the object's symbol table *)
  static_symbol : Z -> option (Z * Z);
  (* how deep subobjects nest in a type, and how long a chain of pointers it
     starts; used as fuel only *)
  type_depth : option uniqtype -> nat;
  pointer_rank : option uniqtype -> nat;
}.

(** Types nest finitely: what is inside a type is below it, and following
    pointer types ends. *)
Class LiballocsLaws (L : Liballocs) : Prop := {
  lib_addrlist_laws :: AddrlistLaws sites;
  subobject_depth : forall off u off' u',
    first_subobject_spanning off u = Some (off', u') -> (type_depth u' < type_depth u)%nat;
  element_depth : forall u,
    is_array_type u = true -> (type_depth (array_element_type u) < type_depth u)%nat;
  pointee_rank : forall u,
    is_pointer_type u = true -> (pointer_rank (pointee_type u) < pointer_rank u)%nat;
}.

(** ** Counters *)
Inductive counter :=
| begun | aborted_typestr | failed | failed_in_alloc | succeeded | is_a_hit_cache
| created_invalid_pointer | fetch_bounds_called | fetch_bounds_missed_cache
| primary_secondary_transitions | fault_handler_fixups
| ptr_derivations | ptr_derefs | ptr_stores.
#[export] Instance counter_eq_dec : EqDecision counter.
Proof. solve_decision. Defined.

Record runtime `{Liballocs} := Runtime {
  lib : lib_state;
  ool_cache : cache;
  fake_bounds_cache : cache;
  counters : counter -> Z;
  reports : report_state sites uniqtype;
  rt_mem : mem;
  rt_bounds_sp : Z;
}.

Section state.
Context `{L : Liballocs}.
Implicit Types (st : runtime).

Definition set_lib (l : lib_state) st : runtime :=
  Runtime _ l (ool_cache st) (fake_bounds_cache st) (counters st) (reports st) (rt_mem st) (rt_bounds_sp st).
Definition set_ool_cache (c : cache) st : runtime :=
  Runtime _ (lib st) c (fake_bounds_cache st) (counters st) (reports st) (rt_mem st) (rt_bounds_sp st).
Definition set_fake_bounds_cache (c : cache) st : runtime :=
  Runtime _ (lib st) (ool_cache st) c (counters st) (reports st) (rt_mem st) (rt_bounds_sp st).
Definition set_reports (r : report_state sites uniqtype) st : runtime :=
  Runtime _ (lib st) (ool_cache st) (fake_bounds_cache st) (counters st) r (rt_mem st) (rt_bounds_sp st).
Definition set_rt_mem (m : mem) st : runtime :=
  Runtime _ (lib st) (ool_cache st) (fake_bounds_cache st) (counters st) (reports st) m (rt_bounds_sp st).
Definition set_rt_bounds_sp (sp : Z) st : runtime :=
  Runtime _ (lib st) (ool_cache st) (fake_bounds_cache st) (counters st) (reports st) (rt_mem st) sp.

(** [++counter], on an [unsigned long]. *)
Definition inc (c : counter) st : runtime :=
  Runtime _ (lib st) (ool_cache st) (fake_bounds_cache st)
    (fun c' => if decide (c' = c) then wrap64 (counters st c + 1) else counters st c')
    (reports st) (rt_mem st) (rt_bounds_sp st).

(** [report_failure_if_necessary] on the runtime state. *)
Definition report st (site : Z) (kind : check_kind) (found test alloc : option uniqtype)
    : outcome runtime :=
  r ← report_failure_if_necessary (reports st) site kind found test alloc;
  Ret (set_reports r st).

(** The tail of every failing check but one: inside an allocation function the
    failure is only counted. *)
Definition count_failure st (site : Z) (kind : check_kind) (found test alloc : option uniqtype)
    : outcome runtime :=
  if currently_allocating (lib st) || currently_freeing (lib st)
  then Ret (inc failed_in_alloc st)
  else report (inc failed st) site kind found test alloc.

Definition cache_bounds st (obj_base obj_limit : Z) (t : option uniqtype) (period alloc_base : Z)
    : runtime :=
  set_ool_cache (cache_with_type (ool_cache st) obj_base obj_limit t
    (if obj_base =? alloc_base then 0 else 1) (period mod 2 ^ 16) alloc_base) st.
Definition cache_is_a st (obj_base obj_limit : Z) (t : option uniqtype) (depth period alloc_base : Z)
    : runtime :=
  set_ool_cache (cache_with_type (ool_cache st) obj_base obj_limit t depth (period mod 2 ^ 16) alloc_base) st.
Definition cache_fake_bounds st (obj_base obj_limit : Z) (t : option uniqtype)
    (depth period alloc_base : Z) : runtime :=
  set_fake_bounds_cache (cache_with_type (fake_bounds_cache st) obj_base obj_limit t depth
    (period mod 2 ^ 16) alloc_base) st.

(** [DO_ARRAY_PRECISIFY]: the state and the new value of [alloc_uniqtype]. *)
Definition do_array_precisify st (u : option uniqtype) (start size : Z) (a : option allocator)
    : outcome (runtime * option uniqtype) :=
  match u with
  | None => Ret (st, u)
  | Some ut =>
      match make_precise ut with
      | None => Ret (st, u)
      | Some is_array_maker =>
          if is_array_maker && (pos_maxoff ut =? 0) then Unreachable
          else
            let '(st, u') :=
              if is_array_maker && (1 =? size / pos_maxoff ut)
              then (st, array_element_type u)
              else let '(l, u') := call_make_precise (lib st) ut start size in (set_lib l st, u') in
            match a with
            | Some a =>
                match set_type a with
                | Some f => Ret (set_lib (f (lib st) start u') st, u')
                | None => Ret (st, u')
                end
            | None => Ret (st, u')
            end
      end
  end.

(** [DO_QUERY]: [None] is the jump to [out]. *)
Definition do_query st (obj : Z) : runtime * option (alloc_info uniqtype allocator) :=
  let '(l, info) := get_alloc_info (lib st) obj in (set_lib l st, info).

(** The [unsigned] offset of [INIT_SUBOBJ_SEARCH]. *)
Definition target_offset (obj start : Z) : Z := wrap32 (obj - start).

(** Reading a counter. *)
Lemma counters_inc c c' st :
  counters (inc c st) c' = if decide (c' = c) then wrap64 (counters st c + 1) else counters st c'.
Proof. done. Qed.
End state.
