(* ===== verification/TinyAllocs.v ===== *)
(** * A small liballocs

    A concrete instance of the [Liballocs] interface, on which the theorems
    about the out-of-line runtime are exercised: a list of allocations, a
    language of types whose subobjects are found by structural descent, and
    caches that are association lists.  No theorem depends on it; it shows that
    their hypotheses can hold, and lets the definitions be run. *)
From S2P Require Import Prelude Config TrapPtr Bounds Derive Memory ShadowSpace BoundsStack Report.
From S2P Require Import Runtime.

Inductive ty :=
| TVoid | TSChar | TUChar | TInt | TUInt | TFloat
| TPtr (t : ty)
| TArr (n : Z) (t : ty)
| TPair (a : ty) (off : Z) (b : ty)       (* a struct of two members *)
| TFun (narg : Z) (ret arg0 arg1 : ty)
| TMemory (t : ty).                       (* an array of as yet unknown length *)
#[export] Instance ty_eq_dec : EqDecision ty.
Proof. solve_decision. Defined.

Fixpoint ty_size (t : ty) : Z :=
  match t with
  | TVoid => 0 | TSChar | TUChar => 1 | TInt | TUInt | TFloat => 4 | TPtr _ => 8
  | TArr n t => n * ty_size t
  | TPair _ off b => off + ty_size b
  | TFun _ _ _ _ => 1
  | TMemory _ => 2 ^ 31 - 1
  end.
Fixpoint ty_depth (t : ty) : nat :=
  match t with
  | TArr _ t | TMemory t => S (ty_depth t)
  | TPair a _ b => S (Nat.max (ty_depth a) (ty_depth b))
  | _ => O
  end.
Fixpoint ty_rank (t : ty) : nat := match t with TPtr t => S (ty_rank t) | _ => O end.

Definition opt {A : Type} (d : A) (f : ty -> A) (t : option ty) : A :=
  match t with Some t => f t | None => d end.
Definition elem (t : ty) : option ty :=
  match t with TArr _ e | TMemory e => Some e | _ => None end.
Definition is_arr (t : ty) : bool := match elem t with Some _ => true | None => false end.

(** The immediate subobject at an offset: its type, its own offset and the
    offset inside it. *)
Definition child (t : ty) (off : Z) : option (ty * Z * Z) :=
  match t with
  | TArr n e =>
      if (0 <? ty_size e) && (0 <=? off) && (off <? n * ty_size e) && (n <? 2 ^ 30)
      then Some (e, off / ty_size e * ty_size e, off mod ty_size e) else None
  | TPair a o b =>
      if (0 <=? off) && (off <? ty_size a) then Some (a, 0, off)
      else if (o <=? off) && (off <? o + ty_size b) then Some (b, o, off - o) else None
  | _ => None
  end.

(** Descending until the type is the one wanted, at offset zero. *)
Fixpoint find (fuel : nat) (off cum : Z) (t : ty) (cont : option ty) (contained : Z) (want : option ty)
    : match_result ty :=
  if (off =? 0) && bool_decide (want = None \/ want = Some t)
  then MatchResult true (Some t) off cum cont contained
  else match fuel, child t off with
       | S fuel, Some (s, start, inner) => find fuel inner (cum + start) s (Some t) start want
       | _, _ => MatchResult false (Some t) off cum cont contained
       end.

Fixpoint spanning (fuel : nat) (off cum : Z) (t : ty) (cum_t : Z) : list (visit ty) :=
  match fuel, child t off with
  | S fuel, Some (s, start, inner) =>
      Visit s (cum + start) t cum_t :: spanning fuel inner (cum + start) s (cum + start)
  | _, _ => []
  end.

Inductive kind := Stack | Heap.
Record world := World {
  objects : list (alloc_info ty kind);
  inserts : list (Z * insert);
  allocating : bool;
  freeing : bool;
}.
Definition spans_obj (obj : Z) (i : alloc_info ty kind) : bool :=
  (alloc_start i <=? obj) && (obj <? alloc_start i + alloc_size_bytes i)
  && (alloc_size_bytes i <? 2 ^ 64).
Definition retype (start : Z) (t : option ty) (i : alloc_info ty kind) : alloc_info ty kind :=
  if alloc_start i =? start
  then AllocInfo (alloc_a i) (alloc_start i) (alloc_size_bytes i) t (alloc_site i) else i.
Definition set_objects (f : alloc_info ty kind -> alloc_info ty kind) (w : world) : world :=
  World (map f (objects w)) (inserts w) (allocating w) (freeing w).

Definition hits (obj period : Z) (e : cache_entry ty) : bool :=
  (obj_base e <=? obj) && (obj <? obj_limit e) && ((period =? 0) || (period =? entry_period e))
  && (obj_limit e - obj_base e <? 2 ^ 64).
Definition entry_eqb (e e' : cache_entry ty) : bool :=
  (obj_base e =? obj_base e') && (obj_limit e =? obj_limit e').

#[export] Instance tiny_sites : Addrlist (list Z) := {|
  addrlist_contains s a := existsb (Z.eqb a) s;
  addrlist_add s a := a :: s;
|}.
#[export] Instance tiny_sites_laws : AddrlistLaws (list Z).
Proof. split. intros s a b. cbn. f_equal. apply Z.eqb_sym. Qed.
#[export] Instance tiny_names : Names ty := {|
  name_for_uniqtype t := match t with TInt => "int$32"%string | TFloat => "float$32"%string
                         | _ => "other"%string end;
  dli_sname site := if site =? 1 then Some "main"%string else None;
|}.

#[export] Instance tiny : Liballocs := {|
  uniqtype := ty; allocator := kind; lib_state := world;
  cache := list (cache_entry ty); sites := list Z;
  pos_maxoff := ty_size; UNIQTYPE_POS_MAXOFF_UNBOUNDED := 2 ^ 31 - 1;
  is_array_type := opt false is_arr;
  is_pointer_type := opt false (fun t => match t with TPtr _ => true | _ => false end);
  is_base_type := opt false (fun t => match t with
    TSChar | TUChar | TInt | TUInt | TFloat => true | _ => false end);
  is_subprogram_type := opt false (fun t => match t with TFun _ _ _ _ => true | _ => false end);
  is_abstract := opt false (fun t => match t with TUChar | TVoid => true | _ => false end);
  has_known_length := opt false (fun t => match t with TArr _ _ => true | _ => false end);
  array_element_type := opt None elem;
  array_length := opt 0 (fun t => match t with TArr n _ => n | _ => 0 end);
  pointee_type := opt None (fun t => match t with TPtr t => Some t | _ => None end);
  signedness_complement := opt None (fun t => match t with
    TInt => Some TUInt | TUInt => Some TInt | TSChar => Some TUChar | TUChar => Some TSChar
    | _ => None end);
  composite_member_count := opt 0 (fun t => match t with TPair _ _ _ => 2 | _ => 0 end);
  memb_off t i := match t with TPair _ o _ => if i =? 0 then 0 else o | _ => 0 end;
  memb_ptr t i := match t with TPair a _ b => if i =? 0 then Some a else Some b | _ => None end;
  related_t t i := match t with
    | TFun _ r a0 a1 => if i =? 0 then Some r else if i =? 1 then Some a0 else Some a1
    | _ => None end;
  subprogram_narg t := match t with TFun n _ _ _ => n | _ => 0 end;
  subprogram_nret t := 1;
  uniqtype_void := Some TVoid; uniqtype_signed_char := Some TSChar;
  uniqtype_unsigned_char := Some TUChar;
  typestr_to_uniqtype s := if String.eqb s "int" then Some TInt else None;
  make_precise t := match t with TMemory _ => Some true | _ => None end;
  call_make_precise w t start size := match t with
    | TMemory e => (w, Some (TArr (size / ty_size e) e)) | _ => (w, Some t) end;
  get_alloc_info w obj := (w, List.find (spans_obj obj) (objects w));
  is_cacheable a := true;
  set_type a := match a with
    | Heap => Some (fun w start t => set_objects (retype start t) w) | Stack => None end;
  get_or_create_array_type w t n := (w, Some (TArr n t));
  get_insert w a := snd <$> List.find (fun p => fst p =? a) (inserts w);
  set_insert w a i := World (objects w) ((a, i) :: inserts w) (allocating w) (freeing w);
  alloc_is_dynamically_sized start site := true;
  currently_allocating := allocating; currently_freeing := freeing;
  find_matching_subobject off t want := match t with
    | Some t => find (ty_depth t) off 0 t None 0 want
    | None => MatchResult false None off 0 None 0 end;
  first_subobject_spanning off t := match t with
    | Some t => '(s, _, inner) ← child t off; Some (inner, Some s) | None => None end;
  subobjects_spanning off t := match t with
    | Some t => spanning (ty_depth t) off 0 t 0 | None => [] end;
  cache_lookup c obj t period :=
    (c, List.find (fun e => hits obj period e && bool_decide (entry_uniqtype e = Some t)) c);
  cache_lookup_notype c obj period := (c, List.find (hits obj period) c);
  cache_with_type c b l t depth period ab := CacheEntry b l t period ab :: c;
  cache_set_limit c e l := map (fun e' =>
    if entry_eqb e e' then CacheEntry (obj_base e') l (entry_uniqtype e') (entry_period e') (entry_alloc_base e')
    else e') c;
  cached_object_type c obj :=
    (c, e ← List.find (hits obj 0) c; entry_uniqtype e);
  static_symbol p := if p =? 0x5000 then Some (0x5000, 16) else None;
  type_depth := opt O ty_depth;
  pointer_rank := opt O ty_rank;
|}.

Lemma child_depth t off s start inner : child t off = Some (s, start, inner) -> (ty_depth s < ty_depth t)%nat.
Proof.
  destruct t; cbn; try done; intros H; repeat case_match; simplify_eq; cbn; lia.
Qed.

#[export] Instance tiny_laws : LiballocsLaws tiny.
Proof.
  split.
  - exact tiny_sites_laws.
  - intros off [t|] off' u'; cbn; [|done].
    destruct (child t off) as [[[s st] inner]|] eqn:Hc; [|done]. cbn. intros [= <- <-].
    by apply child_depth in Hc.
  - intros [t|]; [|done]. cbn. unfold is_arr. destruct t; cbn; intros; try done; lia.
  - intros [t|]; [|done]. cbn. destruct t; try done. cbn. lia.
Qed.

(** A stack object, an array of two structures, at 0x1000; a heap object of
    raw memory at 0x2000. *)
Definition tiny_world : world := World
  [AllocInfo (Some Stack) 0x1000 16 (Some (TArr 2 (TPair TInt 4 TFloat))) 0;
   AllocInfo (Some Heap) 0x2000 32 (Some (TMemory TUChar)) 7;
   AllocInfo (Some Stack) 0x3000 1 (Some (TFun 2 TInt (TPtr TInt) TInt)) 0;
   AllocInfo (Some Stack) 0x4000 16 (Some (TPair (TPtr TInt) 8 (TPtr (TPtr TVoid)))) 0]
  [(0x2000, Insert true 6)] false false.
Definition tiny_runtime : runtime :=
  Runtime _ tiny_world [] [] (fun _ => 0)
    (ReportState false None [] 0 None 0 0 []) ∅ 0x7000.
