(* ===== verification/TypeChecks.v ===== *)
(** * Type checks

    The inlined entry points [__is_aU], [__is_aS], [__like_aU], ...
    ([include/libcrunch_cil_inlines.h]) and the out-of-line checks they call
    ([src/libcrunch.c]).  A check returns 1 whatever it finds, so that the
    program continues; what it finds goes into the counters, the caches and the
    report.  [site] stands for [__builtin_return_address(0)]. *)
From S2P Require Import Prelude Config TrapPtr Bounds Derive Memory ShadowSpace BoundsStack Report.
From S2P Require Import Runtime TinyAllocs.

Section checks.
Context `{C : Config} `{L : Liballocs}.
Implicit Types (st : runtime) (obj site : Z).

(** ** [__is_a_internal] *)

(** The range of memory a positive result is cached for, as written after the
    subobject search: [off] is [target_offset_within_uniqtype] as the search
    left it, [obj - alloc_start] if there was no search. *)
Definition is_a_range (start obj : Z) (test : uniqtype) (off cumulative contained_off : Z)
    (cont : option uniqtype) : Z * Z :=
  match cont with
  | Some c =>
      if is_array_type cont && has_known_length cont then
        let range_base := start +w cumulative -w contained_off in
        (range_base, range_base +w pos_maxoff c)
      else (start +w off, obj +w pos_maxoff test)
  | None => (start +w off, obj +w pos_maxoff test)
  end.

(** Retyping an allocation of as yet unspecific type; [None] if it does not
    apply. *)
Definition lazy_retype st obj (test : uniqtype) (a : option allocator) (u : option uniqtype)
    (size : Z) : outcome (option runtime) :=
  match a with
  | None => Unreachable
  | Some a =>
      match set_type a with
      | None => Ret None
      | Some f =>
          if is_array_type u && bool_decide (array_element_type u <> None)
             && is_abstract (array_element_type u) && negb (currently_allocating (lib st))
          then
            match get_insert (lib st) obj with
            | None => Abort
            | Some _ =>
                if pos_maxoff test =? 0 then Unreachable
                else
                  let '(l, arr) :=
                    get_or_create_array_type (lib st) test (size / pos_maxoff test) in
                  Ret (Some (set_lib (f l obj arr) st))
            end
          else Ret None
      end
  end.

Definition cacheable (a : option allocator) : bool :=
  match a with Some a => is_cacheable a | None => false end.

Definition is_a_internal st obj (test : uniqtype) site : outcome (Z * runtime) :=
  match do_query st obj with
  | (st, None) => Ret (1, st)
  | (st, Some info) =>
      let a := alloc_a info in
      let start := alloc_start info in
      let u := alloc_uniqtype info in
      let off := target_offset obj start in
      let elem := array_element_type u in
      let fail st cur u :=
        st ← count_failure st site IS_A cur (Some test) u; Ret (1, st) in
      let finish st u (m : match_result uniqtype) :=
        let '(range_base, range_limit) :=
          is_a_range start obj test (match_offset m) (match_cumulative m)
            (match_contained_off m) (match_containing m) in
        if match_ok m then
          let st := if cacheable a
                    then cache_is_a st range_base range_limit (Some test) 1 (pos_maxoff test) start
                    else st in
          Ret (1, inc succeeded st)
        else
          o ← lazy_retype st obj test a u (alloc_size_bytes info);
          match o with
          | Some st =>
              let st := if cacheable a
                        then cache_is_a st range_base range_limit (Some test) 0 (pos_maxoff test) start
                        else st in
              Ret (1, st)
          | None => fail st (match_type m) u
          end in
      match elem with
      | Some e =>
          if is_array_type u && (pos_maxoff e <? pos_maxoff test) then fail st u u
          else if is_array_type u && bool_decide (elem = Some test) && (off =? 0)
          then finish st u (MatchResult true u off 0 None 0)
          else
            '(st, u) ← do_array_precisify st u start (alloc_size_bytes info) a;
            finish st u (find_matching_subobject off u (Some test))
      | None =>
          '(st, u) ← do_array_precisify st u start (alloc_size_bytes info) a;
          finish st u (find_matching_subobject off u (Some test))
      end
  end.

(** ** Descending into subobjects *)

(** [while (target_offset_within_uniqtype != 0) { ... }]: whether offset zero
    was reached, and the last type. *)
Fixpoint descend_to_zero (fuel : nat) (off : Z) (u : option uniqtype)
    : outcome (bool * option uniqtype) :=
  if off =? 0 then Ret (true, u)
  else match fuel with
  | O => Unreachable
  | S fuel =>
      match first_subobject_spanning off u with
      | Some (off, u) => descend_to_zero fuel off u
      | None => Ret (false, u)
      end
  end.

(** [while (success) success = __liballocs_first_subobject_spanning(...)]. *)
Fixpoint descend_to_leaf (fuel : nat) (off : Z) (u : option uniqtype)
    : outcome (Z * option uniqtype) :=
  match fuel with
  | O => Unreachable
  | S fuel =>
      match first_subobject_spanning off u with
      | Some (off, u) => descend_to_leaf fuel off u
      | None => Ret (off, u)
      end
  end.

(** [while (UNIQTYPE_IS_ARRAY_TYPE(u)) u = element type]. *)
Fixpoint strip_arrays (fuel : nat) (u : option uniqtype) : outcome (option uniqtype) :=
  if is_array_type u then
    match fuel with
    | O => Unreachable
    | S fuel => strip_arrays fuel (array_element_type u)
    end
  else Ret u.

(** ** Structural comparison *)

(** [while (i_obj_subobj + 1 < count && off[i_obj_subobj + 1] < target_off)
    ++i_obj_subobj]. *)
Fixpoint skip_fields (fuel : nat) (cur : uniqtype) (i_obj target_off : Z) : Z :=
  match fuel with
  | O => i_obj
  | S fuel =>
      if (i_obj + 1 <? composite_member_count (Some cur)) && (memb_off cur (i_obj + 1) <? target_off)
      then skip_fields fuel cur (i_obj + 1) target_off
      else i_obj
  end.

(** The loop over the members of the two types; [matches] compares one pair.
    The result is whether it ended with every member of the test type
    matched. *)
Fixpoint members_like (fuel : nat) (matches : Z -> Z -> outcome bool) (cur test : uniqtype)
    (i_obj i_test : Z) : outcome bool :=
  match fuel with
  | O => Unreachable
  | S fuel =>
      let n_obj := composite_member_count (Some cur) in
      let n_test := composite_member_count (Some test) in
      if (i_obj <? n_obj) && (i_test <? n_test) then
        let tm := memb_ptr test i_test in
        if is_array_type tm
           && (bool_decide (array_element_type tm = uniqtype_signed_char)
               || bool_decide (array_element_type tm = uniqtype_unsigned_char)) then
          target_off ←
            (if i_test + 1 <? n_test then Ret (memb_off test (i_test + 1))
             else match tm with
                  | Some tm => Ret (wrap32 (memb_off test i_test + pos_maxoff tm))
                  | None => Unreachable
                  end);
          let i_obj := skip_fields (Z.to_nat n_obj) cur i_obj target_off in
          if (n_obj <=? i_obj + 1) && (i_test + 1 <? n_test) then Ret false
          else members_like fuel matches cur test (i_obj + 1) (i_test + 1)
        else
          ok ← matches i_obj i_test;
          if (ok : bool) then members_like fuel matches cur test (i_obj + 1) (i_test + 1)
          else Ret false
      else Ret (negb (i_test <? n_test))
  end.

Definition members_fuel (test : uniqtype) : nat :=
  S (Z.to_nat (composite_member_count (Some test))).

(** The comparison on pointers to types: a type without members never reads
    the pointers. *)
Definition compare_members (matches : uniqtype -> uniqtype -> Z -> Z -> outcome bool)
    (cur : option uniqtype) (test : uniqtype) : outcome bool :=
  match cur with
  | Some c => members_like (members_fuel test) (matches c test) c test 0 0
  | None =>
      if 0 <? composite_member_count None then Unreachable
      else Ret (negb (0 <? composite_member_count (Some test)))
  end.

(** The treatment of arrays both checks share. *)
Definition arrays_match (cur : option uniqtype) (test : uniqtype) : bool :=
  let t := Some test in
  bool_decide (t = cur)
  || (is_array_type t && (array_length t =? 1) && bool_decide (array_element_type t = cur))
  || (is_array_type cur && (array_length cur =? 1) && bool_decide (array_element_type cur = t)).

(** ** [__like_a_internal] *)
Definition like_a_matches (cur test : uniqtype) (i_obj i_test : Z) : outcome bool :=
  Ret ((memb_off test i_test =? memb_off cur i_obj)
       && bool_decide (memb_ptr test i_test = memb_ptr cur i_obj)).

Definition like_a_verdict (cur : option uniqtype) (test : uniqtype) : outcome bool :=
  let t := Some test in
  if bool_decide (t = cur) then Ret true
  else if is_array_type cur || is_array_type t then Ret (arrays_match cur test)
  else if negb (is_base_type cur) && negb (is_base_type t)
          && (bool_decide (signedness_complement cur = t) || bool_decide (signedness_complement t = cur))
  then Ret true
  else compare_members like_a_matches cur test.

Definition like_a_internal st obj (test : uniqtype) site : outcome (Z * runtime) :=
  match do_query st obj with
  | (st, None) => Ret (1, st)
  | (st, Some info) =>
      '(st, u) ← do_array_precisify st (alloc_uniqtype info) (alloc_start info)
                   (alloc_size_bytes info) (alloc_a info);
      let off := target_offset obj (alloc_start info) in
      '(reached, cur) ← descend_to_zero (S (type_depth u)) off u;
      '(ok, cur) ←
        (if (reached : bool) then
           cur ← strip_arrays (type_depth cur) cur;
           ok ← like_a_verdict cur test;
           Ret (ok, cur)
         else Ret (false, cur));
      if (ok : bool) then Ret (1, inc succeeded st)
      else st ← count_failure st site LIKE_A cur (Some test) u; Ret (1, st)
  end.

(** ** [__named_a_internal] *)

(** [__liballocs_walk_subobjects_spanning]: calls the callback on each subobject
    until it returns something other than zero, and returns that. *)
Fixpoint walk_subobjects {A : Type} (cb : visit uniqtype -> A -> Z * A)
    (vs : list (visit uniqtype)) (arg : A) : Z * A :=
  match vs with
  | [] => (0, arg)
  | v :: vs =>
      let '(ret, arg) := cb v arg in
      if ret =? 0 then walk_subobjects cb vs arg else (ret, arg)
  end.

Definition offset_and_name_match_cb (offset : Z) (name : string) (v : visit uniqtype) (arg : unit)
    : Z * unit :=
  (if (offset =? span_start_offset v) && String.eqb (name_for_uniqtype (spans v)) name
   then 1 else 0, arg).

Definition named_a_internal st obj (test_typestr : string) site : outcome (Z * runtime) :=
  match do_query st obj with
  | (st, None) => Ret (1, st)
  | (st, Some info) =>
      '(st, u) ← do_array_precisify st (alloc_uniqtype info) (alloc_start info)
                   (alloc_size_bytes info) (alloc_a info);
      let off := target_offset obj (alloc_start info) in
      let '(ret, _) := walk_subobjects (offset_and_name_match_cb off test_typestr)
                         (subobjects_spanning off u) tt in
      if negb (ret =? 0) then Ret (1, inc succeeded st)
      else st ← count_failure st site NAMED_A u None u; Ret (1, st)
  end.

(** ** Pointer degrees *)
Fixpoint pointer_has_degree_nat (t : option uniqtype) (d : nat) : outcome bool :=
  match d with
  | O => Ret true
  | S d =>
      if negb (is_pointer_type t) then Ret false
      else match pointee_type t with
           | None => Abort
           | Some t => pointer_has_degree_nat (Some t) d
           end
  end.
(** The loop runs while [d > 0]. *)
Definition pointer_has_degree (t : option uniqtype) (d : Z) : outcome bool :=
  pointer_has_degree_nat t (Z.to_nat d).

Fixpoint degree_and_pointee (fuel : nat) (t : option uniqtype) (d : Z)
    : outcome (Z * option uniqtype) :=
  if is_pointer_type t then
    match fuel with
    | O => Unreachable
    | S fuel => degree_and_pointee fuel (pointee_type t) (d + 1)
    end
  else Ret (d, t).
Definition pointer_degree_and_ultimate_pointee_type (t : option uniqtype)
    : outcome (Z * option uniqtype) :=
  degree_and_pointee (pointer_rank t) t 0.

Definition is_generic_ultimate_pointee (u : option uniqtype) : bool :=
  bool_decide (u = uniqtype_void) || bool_decide (u = uniqtype_signed_char)
  || bool_decide (u = uniqtype_unsigned_char).

Definition holds_pointer_of_degree (cur : option uniqtype) (d off : Z) : outcome bool :=
  '(off, cur) ← descend_to_leaf (S (type_depth cur)) off cur;
  if (off =? 0) && is_pointer_type cur then pointer_has_degree cur d else Ret false.

Definition pointer_degree (t : option uniqtype) : outcome Z :=
  '(d, _) ← pointer_degree_and_ultimate_pointee_type t; Ret d.

Definition is_generic_pointer_type_of_degree_at_least (t : option uniqtype) (must_have_d : Z)
    : outcome Z :=
  '(d, ultimate) ← pointer_degree_and_ultimate_pointee_type t;
  Ret (if (must_have_d <=? d) && is_generic_ultimate_pointee ultimate then d else 0).

Definition is_generic_pointer_type (t : option uniqtype) : outcome bool :=
  d ← is_generic_pointer_type_of_degree_at_least t 1; Ret (negb (d =? 0)).

Definition is_abstract_pointer_type (t : option uniqtype) : bool :=
  is_pointer_type t
  && match t with Some t => bool_decide (make_precise t <> None) | None => false end.

(** [reinstate_looseness_if_necessary]; the assertion reads
    [0 == ins->alloc_site & 0x1ul], that is [(0 == ins->alloc_site) & 1]. *)
Definition reinstate_looseness_if_necessary st (start site_of_alloc : Z) (u : option uniqtype)
    : outcome runtime :=
  if alloc_is_dynamically_sized start site_of_alloc && negb (site_of_alloc =? 0)
     && is_pointer_type u
  then
    match get_insert (lib st) start with
    | None => Unreachable
    | Some ins =>
        if ins_alloc_site_flag ins then
          if negb (0 =? ins_alloc_site ins) then Abort
          else Ret (set_lib (set_insert (lib st) start
                      (Insert (ins_alloc_site_flag ins) (Z.lor (ins_alloc_site ins) 1))) st)
        else Ret st
    end
  else Ret st.

(** ** [__loosely_like_a_internal] *)
Definition loosely_matches (cur test : uniqtype) (i_obj i_test : Z) : outcome bool :=
  let tm := memb_ptr test i_test in
  let om := memb_ptr cur i_obj in
  if negb (memb_off test i_test =? memb_off cur i_obj) then Ret false
  else if bool_decide (tm = om) then Ret true
  else
    generic_ptr_degree ← is_generic_pointer_type_of_degree_at_least tm 1;
    loose ← (if negb (generic_ptr_degree =? 0) then pointer_has_degree om generic_ptr_degree
             else Ret false);
    if (loose : bool) then Ret true
    else Ret (is_base_type tm && is_base_type om && bool_decide (signedness_complement tm = om)).

(** One round of the [do] loop: whether the object type matches. *)
Definition loosely_like_a_verdict (cur : option uniqtype) (test : uniqtype) : outcome bool :=
  let t := Some test in
  if bool_decide (t = cur) then Ret true
  else
    real_degree ← (if is_pointer_type t then is_generic_pointer_type_of_degree_at_least t 1
                   else Ret 0);
    if negb (real_degree =? 0) then holds_pointer_of_degree cur real_degree 0
    else if is_array_type cur || is_array_type t then Ret (arrays_match cur test)
    else if (negb (is_base_type cur) || is_base_type t)
            && (bool_decide (signedness_complement cur = t) || bool_decide (signedness_complement t = cur))
    then Ret true
    else compare_members loosely_matches cur test.

(** The [do ... while (1)] loop: success or failure, and the last object type. *)
Fixpoint loosely_like_a_loop (fuel : nat) (off : Z) (cur : option uniqtype) (test : uniqtype)
    : outcome (bool * option uniqtype) :=
  match fuel with
  | O => Unreachable
  | S fuel =>
      ok ← loosely_like_a_verdict cur test;
      if (ok : bool) then Ret (true, cur)
      else match first_subobject_spanning off cur with
           | Some (off, cur) => loosely_like_a_loop fuel off cur test
           | None => Ret (false, cur)
           end
  end.

Definition loosely_like_a_internal st obj (test : uniqtype) site : outcome (Z * runtime) :=
  match do_query st obj with
  | (st, None) => Ret (1, st)
  | (st, Some info) =>
      '(st, u) ← do_array_precisify st (alloc_uniqtype info) (alloc_start info)
                   (alloc_size_bytes info) (alloc_a info);
      let off := target_offset obj (alloc_start info) in
      st ← reinstate_looseness_if_necessary st (alloc_start info) (alloc_site info) u;
      '(reached, cur) ← descend_to_zero (S (type_depth u)) off u;
      '(ok, cur) ←
        (if (reached : bool) then loosely_like_a_loop (S (type_depth cur)) 0 cur test
         else Ret (false, cur));
      if (ok : bool) then Ret (1, inc succeeded st)
      else st ← count_failure st site LOOSELY_LIKE_A cur (Some test) u; Ret (1, st)
  end.

(** ** [__is_a_pointer_of_degree_internal] *)
Definition is_a_pointer_of_degree_internal st obj (d : Z) site : outcome (Z * runtime) :=
  match do_query st obj with
  | (st, None) => Ret (1, st)
  | (st, Some info) =>
      '(st, u) ← do_array_precisify st (alloc_uniqtype info) (alloc_start info)
                   (alloc_size_bytes info) (alloc_a info);
      let off := target_offset obj (alloc_start info) in
      st ← reinstate_looseness_if_necessary st (alloc_start info) (alloc_site info) u;
      ok ← holds_pointer_of_degree u d off;
      if (ok : bool) then Ret (1, inc succeeded st)
      else st ← report (inc failed st) site IS_A_POINTER_OF_DEGREE u None u; Ret (1, st)
  end.

(** ** [__is_a_function_refining_internal] *)
Definition would_always_succeed (from to : option uniqtype) : bool :=
  negb (is_pointer_type to)
  || bool_decide (pointee_type to = uniqtype_void)
  || bool_decide (pointee_type to = uniqtype_signed_char)
  || (is_pointer_type from
      && match_ok (find_matching_subobject 0 (pointee_type from) (pointee_type to))).

(** The loop over [related[i_rel]]. *)
Fixpoint arguments_refine (n : nat) (alloc test : uniqtype) (i_rel : Z) : bool :=
  match n with
  | O => true
  | S n =>
      would_always_succeed (related_t test i_rel) (related_t alloc i_rel)
      && arguments_refine n alloc test (i_rel + 1)
  end.

Definition function_refines (alloc test : uniqtype) : bool :=
  (subprogram_narg alloc =? subprogram_narg test)
  && would_always_succeed (related_t alloc 0) (related_t test 0)
  && arguments_refine (Z.to_nat (subprogram_narg alloc)) alloc test
       (Z.min 1 (subprogram_nret alloc)).

Definition is_a_function_refining_internal st obj (test : uniqtype) site : outcome (Z * runtime) :=
  match do_query st obj with
  | (st, None) => Ret (1, st)
  | (st, Some info) =>
      let u := alloc_uniqtype info in
      success ←
        (if alloc_start info =? obj then
           if bool_decide (u = Some test) then Ret true
           else if is_subprogram_type u then
             match u with
             | Some alloc => Ret (function_refines alloc test)
             | None => Unreachable
             end
           else Ret false
         else Ret false);
      if (success : bool) then Ret (1, inc succeeded st)
      else st ← count_failure st site IS_A_FUNCTION_REFINING u (Some test) u; Ret (1, st)
  end.

(** ** [__can_hold_pointer_internal] *)
Definition match_pointer_subobj_strict_cb (stored_to : option uniqtype) (target_off : Z)
    (t : option uniqtype) (span_off : Z) : outcome bool :=
  Ret ((span_off =? target_off) && bool_decide (pointee_type stored_to = t)).
Definition match_pointer_subobj_generic_cb (stored_to : option uniqtype) (target_off : Z)
    (t : option uniqtype) (span_off : Z) : outcome bool :=
  degree_of_pointer_stored_to ← pointer_degree stored_to;
  if span_off =? 0 then pointer_has_degree t (degree_of_pointer_stored_to - 1) else Ret false.

(** The walk with one of these callbacks. *)
Fixpoint walk_matches (cb : option uniqtype -> Z -> outcome bool) (vs : list (visit uniqtype))
    : outcome bool :=
  match vs with
  | [] => Ret false
  | v :: vs =>
      ok ← cb (Some (spans v)) (span_start_offset v);
      if (ok : bool) then Ret true else walk_matches cb vs
  end.

Definition can_hold_pointer_internal st obj (value : Z) site : outcome (Z * runtime) :=
  match do_query st obj with
  | (st, None) => Ret (1, st)
  | (st, Some info) =>
      '(st, u) ← do_array_precisify st (alloc_uniqtype info) (alloc_start info)
                   (alloc_size_bytes info) (alloc_a info);
      '(off, stored_to) ← descend_to_leaf (S (type_depth u)) (target_offset obj (alloc_start info)) u;
      (* [None] if the check is decided, otherwise the value's type, null if it
         was not queried *)
      '(st, decided, value_u) ←
        (if (off =? 0) && is_pointer_type stored_to then
           '(d, ultimate) ← pointer_degree_and_ultimate_pointee_type stored_to;
           if bool_decide (ultimate = None) then Abort
           else
             let is_generic := is_generic_ultimate_pointee ultimate in
             if (d =? 1) && is_generic then Ret (inc succeeded st, true, None)
             else
               match do_query st value with
               | (st, None) => Ret (st, true, None)
               | (st, Some vinfo) =>
                   '(st, vu) ← do_array_precisify st (alloc_uniqtype vinfo) (alloc_start vinfo)
                                 (alloc_size_bytes vinfo) (alloc_a vinfo);
                   let voff := target_offset value (alloc_start vinfo) in
                   st ← reinstate_looseness_if_necessary st (alloc_start vinfo) (alloc_site vinfo) vu;
                   let cb := (if is_generic then match_pointer_subobj_generic_cb
                              else match_pointer_subobj_strict_cb) stored_to voff in
                   ret ← cb vu 0;
                   ret ← (if (ret : bool) then Ret true
                          else walk_matches cb (subobjects_spanning voff vu));
                   if (ret : bool) then Ret (inc succeeded st, true, None)
                   else Ret (st, false, vu)
               end
         else Ret (st, false, None));
      if (decided : bool) then Ret (1, st)
      else if negb (is_abstract_pointer_type stored_to) && bool_decide (value_u <> None)
              && is_abstract_pointer_type value_u
      then
        match stored_to, alloc_a info with
        | Some t, Some a =>
            if pos_maxoff t =? 0 then Unreachable
            else
              match set_type a with
              | Some f =>
                  let '(l, arr) := get_or_create_array_type (lib st) t
                                     (wrap32 (alloc_size_bytes info / pos_maxoff t)) in
                  Ret (1, set_lib (f l (alloc_start info) arr) st)
              | None => Unreachable
              end
        | _, _ => Unreachable
        end
      else st ← count_failure st site CAN_HOLD_POINTER None None None; Ret (1, st)
  end.

(** ** The inlined entry points *)

(** [(void* ) -1]. *)
Definition minus_one : Z := 2 ^ 64 - 1.
Definition trivial_pointer obj : bool := (obj =? 0) || (obj =? minus_one).
Definition bad_typestr st : runtime := inc aborted_typestr (inc begun st).

Definition is_aU st obj (r : option uniqtype) site : outcome (Z * runtime) :=
  if noop_inlines then Ret (1, st)
  else if trivial_pointer obj then Ret (1, st)
  else match r with
  | None => Ret (1, bad_typestr st)
  | Some r =>
      let st := inc begun st in
      let '(c, hit) := cache_lookup (ool_cache st) obj r 0 in
      let st := set_ool_cache c st in
      match hit with
      | Some _ => Ret (1, inc succeeded (inc is_a_hit_cache st))
      | None => is_a_internal st (libcrunch_detrap obj) r site
      end
  end.

Definition is_aS st obj (typestr : string) site : outcome (Z * runtime) :=
  if noop_inlines then Ret (1, st)
  else if trivial_pointer obj then Ret (1, st)
  else is_aU st obj (typestr_to_uniqtype typestr) site.

(** The other entry points differ only in the check they call. *)
Definition checked_entry {T : Type} st obj (r : option T)
    (internal : runtime -> Z -> T -> outcome (Z * runtime)) : outcome (Z * runtime) :=
  if noop_inlines then Ret (1, st)
  else if trivial_pointer obj then Ret (1, st)
  else match r with
  | None => Ret (1, bad_typestr st)
  | Some r => internal (inc begun st) (libcrunch_detrap obj) r
  end.

Definition like_aU st obj (r : option uniqtype) site : outcome (Z * runtime) :=
  checked_entry st obj r (fun st obj r => like_a_internal st obj r site).
Definition loosely_like_aU st obj (r : option uniqtype) site : outcome (Z * runtime) :=
  checked_entry st obj r (fun st obj r => loosely_like_a_internal st obj r site).
Definition named_aU st obj (s : option string) site : outcome (Z * runtime) :=
  checked_entry st obj s (fun st obj s => named_a_internal st obj s site).
Definition is_a_function_refiningU st obj (r : option uniqtype) site : outcome (Z * runtime) :=
  checked_entry st obj r (fun st obj r => is_a_function_refining_internal st obj r site).

Definition is_a_pointer_of_degree st obj (d : Z) site : outcome (Z * runtime) :=
  if noop_inlines then Ret (1, st)
  else if trivial_pointer obj then Ret (1, st)
  else if d =? 0 then Ret (1, st)
  else is_a_pointer_of_degree_internal (inc begun st) (libcrunch_detrap obj) d site.

Definition can_hold_pointer st (target value : Z) site : outcome (Z * runtime) :=
  if noop_inlines then Ret (1, st)
  else if trivial_pointer target then Ret (1, st)
  else if trivial_pointer value then Ret (1, st)
  else can_hold_pointer_internal (inc begun st) (libcrunch_detrap target) value site.

(** ** [__check_args_internal] *)

(** The loop over the arguments: whether it is still successful, and the index
    where it stopped. *)
Fixpoint check_args_loop st (fun_type : uniqtype) (args : list Z) (i : Z) site
    : outcome (bool * Z * runtime) :=
  match args with
  | [] => Ret (true, i, st)
  | argval :: args =>
      if i <? subprogram_narg fun_type then
        let expected := related_t fun_type (i + Z.min 1 (subprogram_nret fun_type)) in
        '(success, st) ←
          (if is_pointer_type expected then
             '(ret, st) ← is_aU st argval (pointee_type expected) site;
             Ret (Z.odd ret, st)
           else Ret (true, st));
        if negb success then Ret (false, i, st)
        else check_args_loop st fun_type args (i + 1) site
      else Ret (true, i, st)
  end.

Definition check_args_internal st obj (args : list Z) site : outcome (Z * runtime) :=
  match do_query st obj with
  | (st, None) => Ret (1, st)
  | (st, Some info) =>
      match alloc_uniqtype info with
      | None => Abort
      | Some fun_type =>
          if negb (is_subprogram_type (Some fun_type)) then Abort
          else if negb (alloc_start info =? obj) then Abort
          else
            let nargs := Z.of_nat (length args) in
            '(success, i, st) ← check_args_loop st fun_type args 0 site;
            let success := if (i =? nargs) && (i <? subprogram_narg fun_type) then false else success in
            let success := if (i <? nargs) && (i =? subprogram_narg fun_type) then false else success in
            Ret (if success then 0 else i, st)
      end
  end.
End checks.

(** ** Accounting *)

(** What a check that was begun is counted as. *)
Inductive verdict := Passed | PassedFromCache | Failed | FailedInAlloc | BadType | Uncounted.
#[export] Instance verdict_eq_dec : EqDecision verdict.
Proof. solve_decision. Defined.

Definition bump (c : counter) (f : counter -> Z) : counter -> Z :=
  fun c' => if decide (c' = c) then wrap64 (f c + 1) else f c'.
Definition tally (v : verdict) (f : counter -> Z) : counter -> Z :=
  match v with
  | Passed => bump succeeded f
  | PassedFromCache => bump succeeded (bump is_a_hit_cache f)
  | Failed => bump failed f
  | FailedInAlloc => bump failed_in_alloc f
  | BadType => bump aborted_typestr f
  | Uncounted => f
  end.

Section accounting.
Context `{C : Config} `{L : Liballocs}.
Implicit Types (st : runtime) (obj site : Z).

Lemma do_query_counters st obj st' o : do_query st obj = (st', o) ->
  counters st' = counters st /\ o = (get_alloc_info (lib st) obj).2.
Proof. unfold do_query. destruct (get_alloc_info (lib st) obj). by intros [= <- <-]. Qed.

Lemma precisify_counters st u s z a st' u' :
  do_array_precisify st u s z a = Ret (st', u') -> counters st' = counters st.
Proof.
  unfold do_array_precisify. destruct u as [ut|]; [|by intros [= <- <-]].
  destruct (make_precise ut) as [am|]; [|by intros [= <- <-]].
  destruct (am && (pos_maxoff ut =? 0)); [done|].
  destruct (am && (1 =? z / pos_maxoff ut)); [|destruct (call_make_precise _ _ _ _)];
    (destruct a as [a|]; [destruct (set_type a)|]); by intros [= <- <-].
Qed.

Lemma reinstate_counters st s z u st' :
  reinstate_looseness_if_necessary st s z u = Ret st' -> counters st' = counters st.
Proof.
  unfold reinstate_looseness_if_necessary. destruct (_ && _); [|by intros [= <-]].
  destruct (get_insert (lib st) s) as [ins|]; [|done].
  destruct (ins_alloc_site_flag ins); [|by intros [= <-]].
  destruct (negb (0 =? ins_alloc_site ins)); [done|by intros [= <-]].
Qed.

Lemma report_counters st site k f t a st' : report st site k f t a = Ret st' -> counters st' = counters st.
Proof. unfold report. destruct (report_failure_if_necessary _ _ _ _ _ _); [|done..]. by intros [= <-]. Qed.

Lemma count_failure_counters st site k f t a st' :
  count_failure st site k f t a = Ret st' ->
  counters st' = tally Failed (counters st) \/ counters st' = tally FailedInAlloc (counters st).
Proof.
  unfold count_failure. destruct (_ || _); [intros [= <-]; by right|].
  intros Hr%report_counters. by left.
Qed.

Definition knows st obj : bool :=
  match (get_alloc_info (lib st) obj).2 with Some _ => true | None => false end.

(** How the result of an out-of-line check is counted: it is 1, and the check
    counts as passed or as failed, in an allocation function or not.  It goes
    uncounted if the query does not succeed ([known]), and otherwise only with
    the excuse [ex]. *)
Definition counted st (known : bool) (ex : runtime -> Prop) (r : outcome (Z * runtime)) : Prop :=
  forall ret st', r = Ret (ret, st') ->
    ret = 1 /\
    if known then counters st' = tally Passed (counters st) \/
                  counters st' = tally Failed (counters st) \/
                  counters st' = tally FailedInAlloc (counters st) \/
                  (counters st' = counters st /\ ex st')
    else counters st' = counters st.

(** The shape the checks share: a computation that keeps the counters, and then
    a verdict. *)
Lemma counted_passed st st1 ex : counters st1 = counters st -> counted st true ex (Ret (1, inc succeeded st1)).
Proof.
  intros Hc ret st' [= <- <-]. split; [done|]. left.
  change (tally Passed (counters st1) = tally Passed (counters st)). by rewrite Hc.
Qed.

Lemma counted_failure st st1 ex site k f t a :
  counters st1 = counters st ->
  counted st true ex (st ← count_failure st1 site k f t a; Ret (1, st)).
Proof.
  intros Hc ret st'. destruct (count_failure st1 site k f t a) as [st2| |] eqn:Hf; [|done..].
  intros [= <- <-]. split; [done|]. right. rewrite <- Hc. apply count_failure_counters in Hf. tauto.
Qed.

Lemma counted_finish st st1 ex (ok : bool) site k f t a :
  counters st1 = counters st ->
  counted st true ex (if ok then Ret (1, inc succeeded st1)
                      else st ← count_failure st1 site k f t a; Ret (1, st)).
Proof. intros Hc. destruct ok; [by apply counted_passed|by apply counted_failure]. Qed.

Lemma counted_bind {A : Type} st (m : outcome A) (k : A -> outcome (Z * runtime)) b ex :
  (forall x, m = Ret x -> counted st b ex (k x)) -> counted st b ex (m ≫= k).
Proof. intros Hk ret st'. destruct m as [x| |]; [|done..]. by apply Hk. Qed.

Lemma counted_query st obj ex (k : runtime -> alloc_info uniqtype allocator -> outcome (Z * runtime)) :
  (forall st1 info, counters st1 = counters st -> (get_alloc_info (lib st) obj).2 = Some info ->
     counted st true ex (k st1 info)) ->
  counted st (knows st obj) ex
    (match do_query st obj with (st, None) => Ret (1, st) | (st, Some info) => k st info end).
Proof.
  intros Hk. destruct (do_query st obj) as [st1 o] eqn:Hq. apply do_query_counters in Hq as [Hc Ho].
  unfold knows in *. rewrite <- Ho in *. destruct o as [info|]; [by apply Hk|].
  intros ret st'. by intros [= <- <-].
Qed.

(** Most checks have no excuse. *)
Definition no_excuse : runtime -> Prop := fun _ => False.

Lemma like_a_counted st obj test site :
  counted st (knows st obj) no_excuse (like_a_internal st obj test site).
Proof.
  apply counted_query. intros st1 info Hc _.
  apply counted_bind. intros [st2 u] Hp%precisify_counters.
  apply counted_bind. intros [reached cur] _.
  apply counted_bind. intros [ok cur'] _. apply counted_finish. congruence.
Qed.

Lemma named_a_counted st obj s site :
  counted st (knows st obj) no_excuse (named_a_internal st obj s site).
Proof.
  apply counted_query. intros st1 info Hc _.
  apply counted_bind. intros [st2 u] Hp%precisify_counters. cbn zeta.
  destruct (walk_subobjects _ _ _) as [ret []]. apply counted_finish. congruence.
Qed.

Lemma loosely_like_a_counted st obj test site :
  counted st (knows st obj) no_excuse (loosely_like_a_internal st obj test site).
Proof.
  apply counted_query. intros st1 info Hc _.
  apply counted_bind. intros [st2 u] Hp%precisify_counters.
  apply counted_bind. intros st3 Hr%reinstate_counters.
  apply counted_bind. intros [reached cur] _.
  apply counted_bind. intros [ok cur'] _. apply counted_finish. congruence.
Qed.

Lemma function_refining_counted st obj test site :
  counted st (knows st obj) no_excuse (is_a_function_refining_internal st obj test site).
Proof.
  apply counted_query. intros st1 info Hc _.
  apply counted_bind. intros ok _. by apply counted_finish.
Qed.

Lemma pointer_of_degree_counted st obj d site :
  counted st (knows st obj) no_excuse (is_a_pointer_of_degree_internal st obj d site).
Proof.
  apply counted_query. intros st1 info Hc _.
  apply counted_bind. intros [st2 u] Hp%precisify_counters.
  apply counted_bind. intros st3 Hr%reinstate_counters.
  apply counted_bind. intros ok _. destruct ok; [apply counted_passed; congruence|].
  intros ret st'. destruct (report _ _ _ _ _ _) as [st4| |] eqn:Hrep; [|done..]. intros [= <- <-].
  split; [done|]. right; left. apply report_counters in Hrep. rewrite Hrep.
  change (tally Failed (counters st3) = tally Failed (counters st)). congruence.
Qed.

(** The excuse of [__is_a_internal] and [__can_hold_pointer_internal]: the
    last thing done was to give the allocation that [obj] lies in, found at
    [start], a new type, an array of [t], by its own allocator's function. *)
Definition retyped st obj (t : uniqtype)
    (start : alloc_info uniqtype allocator -> Z) (st' : runtime) : Prop :=
  exists info a f w n w1 arr,
    (get_alloc_info (lib st) obj).2 = Some info /\ alloc_a info = Some a /\ set_type a = Some f /\
    get_or_create_array_type w t n = (w1, arr) /\ lib st' = f w1 (start info) arr.

(** The last query of all was for [value], and failed. *)
Definition unknown_to_query (value : Z) (st' : runtime) : Prop :=
  exists w, get_alloc_info w value = (lib st', None).

Lemma lazy_retype_spec st obj test a u size st' :
  lazy_retype st obj test a u size = Ret (Some st') ->
  counters st' = counters st /\ exists al f w n w1 arr,
    a = Some al /\ set_type al = Some f /\ get_or_create_array_type w test n = (w1, arr) /\
    lib st' = f w1 obj arr.
Proof.
  unfold lazy_retype. destruct a as [a|]; [|done]. destruct (set_type a) as [f|] eqn:Hf; [|done].
  destruct (_ && _); [|done]. destruct (get_insert (lib st) obj); [|done].
  destruct (pos_maxoff test =? 0); [done|].
  destruct (get_or_create_array_type _ _ _) eqn:Hg. intros [= <-]. split; [done|].
  by repeat eexists.
Qed.

Lemma is_a_counted st obj test site :
  counted st (knows st obj) (retyped st obj test (fun _ => obj)) (is_a_internal st obj test site).
Proof.
  apply counted_query. intros st1 info Hc Hinfo. cbn zeta.
  assert (Hfin : forall st2 u m, counters st2 = counters st ->
    counted st true (retyped st obj test (fun _ => obj))
      (let '(range_base, range_limit) :=
          is_a_range (alloc_start info) obj test (match_offset m) (match_cumulative m)
            (match_contained_off m) (match_containing m) in
        if match_ok m then
          Ret (1, inc succeeded (if cacheable (alloc_a info)
                    then cache_is_a st2 range_base range_limit (Some test) 1 (pos_maxoff test) (alloc_start info)
                    else st2))
        else
          o ← lazy_retype st2 obj test (alloc_a info) u (alloc_size_bytes info);
          match o with
          | Some st =>
              Ret (1, if cacheable (alloc_a info)
                        then cache_is_a st range_base range_limit (Some test) 0 (pos_maxoff test) (alloc_start info)
                        else st)
          | None => st ← count_failure st2 site IS_A (match_type m) (Some test) u; Ret (1, st)
          end)).
  { intros st2 u m Hc2. destruct (is_a_range _ _ _ _ _ _ _) as [rb rl]. destruct (match_ok m).
    - apply counted_passed. by destruct (cacheable (alloc_a info)).
    - apply counted_bind. intros [st3|] Ho; [|by apply counted_failure].
      apply lazy_retype_spec in Ho as (Hc3 & a & f & w & n & w1 & arr & Ha & Hf & Hg & Hl).
      intros ret st' [= <- <-]. split; [done|]. right; right; right.
      split; [destruct (cacheable (alloc_a info)); cbn; congruence|].
      exists info, a, f, w, n, w1, arr. repeat split; try done.
      by destruct (cacheable (alloc_a info)). }
  destruct (array_element_type (alloc_uniqtype info)) as [e|].
  - destruct (_ && (pos_maxoff e <? pos_maxoff test)); [by apply counted_failure|].
    destruct (_ && _ && _); [by apply Hfin|].
    apply counted_bind. intros [st2 u] Hp%precisify_counters. apply Hfin. congruence.
  - apply counted_bind. intros [st2 u] Hp%precisify_counters. apply Hfin. congruence.
Qed.

(** The excuses of [__can_hold_pointer_internal]: it asks liballocs about the
    value only if the target cannot hold just any pointer, and retypes the
    target's allocation. *)
Definition can_hold_excuse st obj value (st' : runtime) : Prop :=
  unknown_to_query value st' \/ exists t, retyped st obj t (fun info => alloc_start info) st'.

Lemma can_hold_counted st obj value site :
  counted st (knows st obj) (can_hold_excuse st obj value)
    (can_hold_pointer_internal st obj value site).
Proof.
  apply counted_query. intros st1 info Hc Hinfo.
  apply counted_bind. intros [st2 u] Hp%precisify_counters.
  apply counted_bind. intros [off stored_to] _.
  apply counted_bind. intros [[st3 decided] value_u] Hmid.
  assert (Hst3 : counters st3 = counters st /\ (decided = true -> unknown_to_query value st3) \/
    (decided = true /\ counters st3 = tally Passed (counters st))).
  { destruct ((off =? 0) && is_pointer_type stored_to).
    2: { left. injection Hmid as <- <- <-. split; [congruence|done]. }
    destruct (pointer_degree_and_ultimate_pointee_type stored_to) as [[d ult]| |]; [|done..].
    cbn [mbind outcome_bind] in Hmid. destruct (bool_decide (ult = None)); [done|].
    destruct ((d =? 1) && is_generic_ultimate_pointee ult).
    { right. injection Hmid as <- <- <-. split; [done|].
      change (tally Passed (counters st2) = tally Passed (counters st)). congruence. }
    unfold do_query in Hmid. destruct (get_alloc_info (lib st2) value) as [w o] eqn:Hq.
    destruct o as [vinfo|].
    2: { left. injection Hmid as <- <- <-. split; [cbn; congruence|]. intros _. by eexists. }
    apply bind_Ret in Hmid as ([st5 vu] & Hp5%precisify_counters & Hmid).
    apply bind_Ret in Hmid as (st6 & H6%reinstate_counters & Hmid).
    apply bind_Ret in Hmid as (ret1 & _ & Hmid). apply bind_Ret in Hmid as (ret2 & _ & Hmid).
    cbn in Hp5. destruct ret2; injection Hmid as <- <- <-.
    - right. split; [done|].
      change (tally Passed (counters st6) = tally Passed (counters st)). congruence.
    - left. split; [congruence|done]. }
  destruct decided.
  { intros ret st' [= <- <-]. split; [done|].
    destruct Hst3 as [[Hc3 Hq]|[_ ->]]; [|tauto]. right; right; right. split; [done|]. left. auto. }
  destruct Hst3 as [[Hst3 _]|[? _]]; [|done].
  destruct (_ && _ && _); [|by apply counted_failure].
  destruct stored_to as [t|]; [|done]. destruct (alloc_a info) as [a|] eqn:Ha; [|done].
  destruct (pos_maxoff t =? 0); [done|]. destruct (set_type a) as [f|] eqn:Hf; [|done].
  destruct (get_or_create_array_type _ _ _) as [w1 arr] eqn:Hg.
  intros ret st' [= <- <-]. split; [done|]. right; right; right. split; [done|].
  right. exists t, info, a, f. by repeat eexists.
Qed.

(** *** The entry points *)
Inductive check_call :=
| CallIsA (r : option uniqtype) | CallIsAS (typestr : string)
| CallLikeA (r : option uniqtype) | CallLooselyLikeA (r : option uniqtype)
| CallNamedA (s : option string) | CallFunctionRefining (r : option uniqtype)
| CallPointerOfDegree (d : Z) | CallCanHoldPointer (value : Z).

Definition run_check st obj (call : check_call) site : outcome (Z * runtime) :=
  match call with
  | CallIsA r => is_aU st obj r site
  | CallIsAS s => is_aS st obj s site
  | CallLikeA r => like_aU st obj r site
  | CallLooselyLikeA r => loosely_like_aU st obj r site
  | CallNamedA s => named_aU st obj s site
  | CallFunctionRefining r => is_a_function_refiningU st obj r site
  | CallPointerOfDegree d => is_a_pointer_of_degree st obj d site
  | CallCanHoldPointer v => can_hold_pointer st obj v site
  end.

(** Calls that have nothing to check, and calls without a type to check for. *)
Definition trivial_call obj (call : check_call) : bool :=
  trivial_pointer obj ||
  match call with
  | CallPointerOfDegree d => d =? 0
  | CallCanHoldPointer v => trivial_pointer v
  | _ => false
  end.
Definition typeless_call (call : check_call) : bool :=
  match call with
  | CallIsA None | CallLikeA None | CallLooselyLikeA None | CallFunctionRefining None
  | CallNamedA None => true
  | CallIsAS s => bool_decide (typestr_to_uniqtype s = None)
  | _ => false
  end.
(** Calls that may retype an allocation. *)
Definition retyping_call (call : check_call) : bool :=
  match call with CallIsA _ | CallIsAS _ | CallCanHoldPointer _ => true | _ => false end.

(** Why a call that names a type it looked up, on an object that liballocs
    knows, may still go uncounted. *)
Definition excused st obj (call : check_call) (st' : runtime) : Prop :=
  let is_a r := exists t, r = Some t /\ retyped st obj t (fun _ => obj) st' in
  match call with
  | CallIsA r => is_a r
  | CallIsAS s => is_a (typestr_to_uniqtype s)
  | CallCanHoldPointer v => can_hold_excuse st obj v st'
  | _ => False
  end.

(** Calls that may reinstate the looseness of an allocation. *)
Definition reinstating_call (call : check_call) : bool :=
  match call with CallLooselyLikeA _ | CallPointerOfDegree _ => true | _ => false end.

(** The verdict that [counted] leaves to be named. *)
Lemma counted_verdict st st' ret known ex r :
  counted st known ex r -> r = Ret (ret, st') ->
  ret = 1 /\ exists v, counters st' = tally v (counters st) /\
    (known = false -> v = Uncounted) /\ (v = Uncounted -> known = false \/ ex st') /\
    v <> BadType /\ v <> PassedFromCache.
Proof.
  intros Hc Hr. destruct (Hc _ _ Hr) as [-> Hv]. split; [done|]. destruct known.
  - destruct Hv as [Hv|[Hv|[Hv|[Hv He]]]];
      [exists Passed|exists Failed|exists FailedInAlloc|exists Uncounted]; naive_solver.
  - exists Uncounted. naive_solver.
Qed.

Lemma is_aU_counted st obj r site ret st' :
  noop_inlines = false -> trivial_pointer obj = false -> is_aU st obj r site = Ret (ret, st') ->
  ret = 1 /\ exists v, counters st' = tally v (bump begun (counters st)) /\
    (r = None <-> v = BadType) /\
    (v = Uncounted -> knows (inc begun st) (libcrunch_detrap obj) = false \/
       exists t, r = Some t /\
         retyped (inc begun st) (libcrunch_detrap obj) t (fun _ => libcrunch_detrap obj) st').
Proof.
  intros Hn Ht. unfold is_aU. rewrite Hn, Ht. destruct r as [r|].
  - destruct (cache_lookup _ _ _ _) as [c hit]. destruct hit as [e|].
    + intros [= <- <-]. split; [done|]. by exists PassedFromCache.
    + intros Hr. destruct (counted_verdict _ _ _ _ _ _ (is_a_counted _ _ _ _) Hr)
        as (-> & v & Hv & _ & Hu & Hb & _).
      split; [done|]. exists v. split; [exact Hv|]. split; [done|].
      intros [Hk|He]%Hu; [by left|right]. by exists r.
  - intros [= <- <-]. split; [done|]. by exists BadType.
Qed.

Lemma checked_entry_counted {T : Type} st obj (r : option T) internal ret st' :
  noop_inlines = false -> trivial_pointer obj = false ->
  (forall st obj x, counted st (knows st obj) no_excuse (internal st obj x)) ->
  checked_entry st obj r internal = Ret (ret, st') ->
  ret = 1 /\ exists v, counters st' = tally v (bump begun (counters st)) /\
    (r = None <-> v = BadType) /\
    (v = Uncounted -> knows (inc begun st) (libcrunch_detrap obj) = false \/ False).
Proof.
  intros Hn Ht Hc. unfold checked_entry. rewrite Hn, Ht. destruct r as [r|].
  - intros Hr. destruct (counted_verdict _ _ _ _ _ _ (Hc _ _ _) Hr) as (-> & v & Hv & _ & Hu & Hb & _).
    split; [done|]. exists v. split; [exact Hv|]. split; [done|exact Hu].
  - intros [= <- <-]. split; [done|]. by exists BadType.
Qed.
(** [__is_aU] returns 1 whatever it finds, so the loop over the arguments only
    counts them. *)
Lemma is_aU_returns_one st obj r site ret st' : is_aU st obj r site = Ret (ret, st') -> ret = 1.
Proof.
  unfold is_aU. destruct noop_inlines; [by intros [= <- _]|].
  destruct (trivial_pointer obj); [by intros [= <- _]|]. destruct r; [|by intros [= <- _]].
  destruct (cache_lookup _ _ _ _) as [c [e|]]; [by intros [= <- _]|].
  by intros [-> _]%is_a_counted.
Qed.

Lemma check_args_loop_stops st ft args i site success i' st' :
  0 <= subprogram_narg ft -> check_args_loop st ft args i site = Ret (success, i', st') ->
  i <= subprogram_narg ft ->
  success = true /\ i' = Z.min (i + Z.of_nat (length args)) (subprogram_narg ft).
Proof.
  intros Hn. revert st i. induction args as [|v args IH]; intros st i; cbn [check_args_loop length].
  { intros [= <- <- _]. split; [done|]. lia. }
  destruct (Z.ltb_spec i (subprogram_narg ft)) as [Hi|Hi]; [|intros [= <- <- _]; split; [done|lia]].
  intros Hr _. apply bind_Ret in Hr as ([ok st1] & Hok & Hr).
  assert (ok = true) as ->.
  { destruct (is_pointer_type _); [|by injection Hok as <- _].
    apply bind_Ret in Hok as ([r st2] & Ha & Hok). apply is_aU_returns_one in Ha as ->.
    by injection Hok as <- _. }
  cbn [negb] in Hr. destruct (IH _ _ Hr) as [-> ->]; [lia|]. split; [done|]. lia.
Qed.
End accounting.

(** A call that is not trivial, with its verdict. *)
Ltac split_verdict v :=
  split; [done|]; split; [done|]; intros _; exists v; split; [done|]; split; [|done].

Lemma run_check_counted `{C : Config} `{L : Liballocs} (st st' : runtime) obj call site ret :
  noop_inlines = false -> run_check st obj call site = Ret (ret, st') ->
  ret = 1 /\
  (trivial_call obj call = true -> st' = st) /\
  (trivial_call obj call = false ->
     exists v, counters st' = tally v (bump begun (counters st)) /\
       (typeless_call call = true <-> v = BadType) /\
       (v = Uncounted ->
          knows (inc begun st) (libcrunch_detrap obj) = false \/
          excused (inc begun st) (libcrunch_detrap obj) call st')).
Proof.
  intros Hn Hrun. unfold trivial_call. destruct (trivial_pointer obj) eqn:Ht; cbn [orb].
  { assert (Ret (ret, st') = Ret (1, st)) as [= -> ->]; [|done]. rewrite <- Hrun.
    destruct call; cbn [run_check]; unfold is_aU, is_aS, like_aU, loosely_like_aU, named_aU,
      is_a_function_refiningU, is_a_pointer_of_degree, can_hold_pointer, checked_entry;
      by rewrite Hn, Ht. }
  assert (Hnone : forall (T : Type) (o : option T) v, (o = None <-> v = BadType) ->
    (match o with None => true | Some _ => false end = true <-> v = BadType)).
  { intros T [x|] v Hb; [|naive_solver]. split; [done|]. intros Hv. apply Hb in Hv. done. }
  destruct call as [r|s|r|r|s|r|d|v]; cbn [run_check typeless_call excused] in *.
  - destruct (is_aU_counted _ _ _ _ _ _ Hn Ht Hrun) as (-> & v & Hv & Hb & Hu). split_verdict v. by apply Hnone.
  - unfold is_aS in Hrun. rewrite Hn, Ht in Hrun.
    destruct (is_aU_counted _ _ _ _ _ _ Hn Ht Hrun) as (-> & v & Hv & Hb & Hu).
    split_verdict v. by rewrite bool_decide_eq_true.
  - destruct (checked_entry_counted _ _ _ _ _ _ Hn Ht (fun st obj x => like_a_counted st obj x site) Hrun)
      as (-> & v & Hv & Hb & Hu). split_verdict v. by apply Hnone.
  - destruct (checked_entry_counted _ _ _ _ _ _ Hn Ht
      (fun st obj x => loosely_like_a_counted st obj x site) Hrun) as (-> & v & Hv & Hb & Hu).
    split_verdict v. by apply Hnone.
  - destruct (checked_entry_counted _ _ _ _ _ _ Hn Ht (fun st obj x => named_a_counted st obj x site) Hrun)
      as (-> & v & Hv & Hb & Hu). split_verdict v. by apply Hnone.
  - destruct (checked_entry_counted _ _ _ _ _ _ Hn Ht
      (fun st obj x => function_refining_counted st obj x site) Hrun) as (-> & v & Hv & Hb & Hu).
    split_verdict v. by apply Hnone.
  - unfold is_a_pointer_of_degree in Hrun. rewrite Hn, Ht in Hrun.
    destruct (d =? 0); [by injection Hrun as <- <-|].
    destruct (counted_verdict _ _ _ _ _ _ (pointer_of_degree_counted _ _ _ _) Hrun)
      as (-> & v & Hv & _ & Hu & Hb & _). split_verdict v. naive_solver.
  - unfold can_hold_pointer in Hrun. rewrite Hn, Ht in Hrun.
    destruct (trivial_pointer v); [by injection Hrun as <- <-|].
    destruct (counted_verdict _ _ _ _ _ _ (can_hold_counted _ _ _ _) Hrun)
      as (-> & v' & Hv & _ & Hu & Hb & _). split_verdict v'. naive_solver.
Qed.

(** C26. Every type check that is begun is counted exactly once, and never stops
    the program by its result: whatever the check and its verdict, a check that
    returns returns 1; trivial calls (null or -1 pointers, degree 0) change
    nothing; any other call counts as begun and then as exactly one of passed
    (with or without a cache hit), failed, failed inside an allocation
    function, or aborted, the last exactly for want of a type.  It goes
    uncounted only for one of three reasons: liballocs does not know the
    object; [__is_a] or [__can_hold_pointer] ended by retyping the object's
    allocation, which is then the last thing done to liballocs' state; or
    [__can_hold_pointer] had to look at the value's type and liballocs did not
    know the value. *)
Theorem checks_counted_once `{C : Config} `{L : Liballocs} (st st' : runtime) obj call site ret :
  noop_inlines = false -> run_check st obj call site = Ret (ret, st') ->
  ret = 1 /\
  (trivial_call obj call = true -> st' = st) /\
  (trivial_call obj call = false ->
     exists v, counters st' = tally v (bump begun (counters st)) /\
       (typeless_call call = true <-> v = BadType) /\
       (v = Uncounted ->
          knows (inc begun st) (libcrunch_detrap obj) = false \/
          excused (inc begun st) (libcrunch_detrap obj) call st')).
Proof. apply run_check_counted. Qed.

(** ** What the checks decide *)
Section verdicts.
Context `{L : Liballocs} {LL : LiballocsLaws L}.
Implicit Types (u cur : option uniqtype).

(** Types as liballocs builds them. *)
Record wf_types : Prop := {
  null_not_array : is_array_type None = false;
  null_not_pointer : is_pointer_type None = false;
  null_no_members : composite_member_count None = 0;
  members_nonneg : forall t, 0 <= composite_member_count t;
  members_nonnull : forall t i,
    0 <= i < composite_member_count (Some t) -> memb_ptr t i <> None;
  pointees_nonnull : forall t, is_pointer_type t = true -> pointee_type t <> None;
  null_not_function : is_subprogram_type None = false;
  array_makers_sized : forall t, make_precise t = Some true -> pos_maxoff t <> 0;
}.

Lemma descend_to_zero_total fuel off u :
  (type_depth u < fuel)%nat -> exists r, descend_to_zero fuel off u = Ret r.
Proof.
  revert off u. induction fuel as [|fuel IH]; intros off u Hf; [lia|]. cbn.
  destruct (off =? 0); [by eexists|].
  destruct (first_subobject_spanning off u) as [[off' u']|] eqn:Hs; [|by eexists].
  apply IH. apply subobject_depth in Hs. lia.
Qed.

Lemma descend_to_leaf_total fuel off u :
  (type_depth u < fuel)%nat -> exists r, descend_to_leaf fuel off u = Ret r.
Proof.
  revert off u. induction fuel as [|fuel IH]; intros off u Hf; [lia|]. cbn.
  destruct (first_subobject_spanning off u) as [[off' u']|] eqn:Hs; [|by eexists].
  apply IH. apply subobject_depth in Hs. lia.
Qed.

Lemma strip_arrays_total fuel u :
  (type_depth u <= fuel)%nat ->
  exists u', strip_arrays fuel u = Ret u' /\ is_array_type u' = false.
Proof.
  revert u. induction fuel as [|fuel IH]; intros u Hf; cbn;
    destruct (is_array_type u) eqn:Ha; try by eexists.
  - apply element_depth in Ha. lia.
  - apply IH. apply element_depth in Ha. lia.
Qed.

Lemma members_like_total fuel matches c test i_obj i_test (W : wf_types) :
  (forall i j, exists b, matches i j = Ret b) ->
  0 <= i_test ->
  (Z.to_nat (composite_member_count (Some test) - i_test) < fuel)%nat ->
  exists b, members_like fuel matches c test i_obj i_test = Ret b.
Proof.
  intros Hm. revert i_obj i_test. induction fuel as [|fuel IH]; intros i_obj i_test Hi Hf; [lia|].
  cbn [members_like]. destruct (_ && (i_test <? _)) eqn:Hlt; [|by eexists].
  apply andb_true_iff in Hlt as [_ Hlt%Z.ltb_lt].
  destruct (_ && (_ || _)).
  - assert (exists off, (if i_test + 1 <? composite_member_count (Some test)
              then Ret (memb_off test (i_test + 1))
              else match memb_ptr test i_test with
                   | Some tm => Ret (wrap32 (memb_off test i_test + pos_maxoff tm))
                   | None => Unreachable
                   end) = Ret off) as [off ->].
    { destruct (i_test + 1 <? _); [by eexists|].
      destruct (memb_ptr test i_test) eqn:Hp; [by eexists|].
      by apply (members_nonnull W) in Hp. }
    cbn [mbind outcome_bind]. destruct (_ && _); [by eexists|]. apply IH; lia.
  - destruct (Hm i_obj i_test) as [b ->]. cbn [mbind outcome_bind].
    destruct b; [|by eexists]. apply IH; lia.
Qed.

Lemma like_a_verdict_total (W : wf_types) cur test : exists b, like_a_verdict cur test = Ret b.
Proof.
  unfold like_a_verdict. repeat (case_match; [by eexists|]). unfold compare_members.
  destruct cur as [c|].
  - apply members_like_total; [done| |lia|].
    + intros i j. by eexists.
    + unfold members_fuel. pose proof (members_nonneg W (Some test)). lia.
  - rewrite (null_no_members W). by eexists.
Qed.

(** Members one by one, when no member of the test type is an array of
    characters (which would match any padding). *)
Definition no_padding (test : uniqtype) : Prop :=
  forall i, 0 <= i < composite_member_count (Some test) ->
    is_array_type (memb_ptr test i)
    && (bool_decide (array_element_type (memb_ptr test i) = uniqtype_signed_char)
        || bool_decide (array_element_type (memb_ptr test i) = uniqtype_unsigned_char)) = false.

Lemma members_like_prefix fuel (matches : Z -> Z -> bool) c test i :
  no_padding test -> 0 <= i ->
  (Z.to_nat (composite_member_count (Some test) - i) < fuel)%nat ->
  exists b, members_like fuel (fun i j => Ret (matches i j)) c test i i = Ret b /\
    (b = true <-> (composite_member_count (Some test) <= i \/
                   composite_member_count (Some test) <= composite_member_count (Some c)) /\
       forall j, i <= j < composite_member_count (Some test) -> matches j j = true).
Proof.
  intros Hp. revert i. induction fuel as [|fuel IH]; intros i Hi Hf; [lia|]. cbn [members_like].
  destruct (Z.ltb_spec i (composite_member_count (Some c))) as [Hc|Hc];
    destruct (Z.ltb_spec i (composite_member_count (Some test))) as [Ht|Ht]; cbn [andb negb].
  - rewrite Hp by lia. cbn [mbind outcome_bind]. destruct (matches i i) eqn:Hm.
    + destruct (IH (i + 1)) as (b & -> & Hb); [lia..|]. exists b. split; [done|]. rewrite Hb.
      split; intros [Hn Hj]; (split; [lia|]); intros j Hr; [|apply Hj; lia].
      destruct (decide (j = i)) as [->|]; [done|]. apply Hj. lia.
    + exists false. split; [done|]. split; [done|]. intros [_ Hj]. rewrite Hj in Hm by lia. done.
  - exists true. split; [done|]. split; [intros _|done]. split; [by left|]. intros j; lia.
  - exists false. split; [done|]. split; [done|]. lia.
  - exists true. split; [done|]. split; [intros _|done]. split; [by left|]. intros j; lia.
Qed.

Lemma degree_and_pointee_total fuel u d :
  (pointer_rank u <= fuel)%nat -> exists r, degree_and_pointee fuel u d = Ret r.
Proof.
  revert u d. induction fuel as [|fuel IH]; intros u d Hf; cbn;
    destruct (is_pointer_type u) eqn:Hp; try by eexists.
  - apply pointee_rank in Hp. lia.
  - apply IH. apply pointee_rank in Hp. lia.
Qed.

(** The loop of [pointer_has_degree] compares with the number of pointers that
    can be followed. *)
Lemma degree_and_pointee_shift fuel u d d' r :
  degree_and_pointee fuel u d = Ret r -> degree_and_pointee fuel u d' = Ret (r.1 - d + d', r.2).
Proof.
  revert u d d'. induction fuel as [|fuel IH]; intros u d d'; cbn;
    destruct (is_pointer_type u); try done.
  - intros [= <-]. cbn. do 2 f_equal. lia.
  - intros Hr. rewrite (IH _ _ (d' + 1) Hr). do 2 f_equal. lia.
  - intros [= <-]. cbn. do 2 f_equal. lia.
Qed.

Lemma degree_nonneg fuel u d r : degree_and_pointee fuel u d = Ret r -> d <= r.1.
Proof.
  revert u d. induction fuel as [|fuel IH]; intros u d; cbn; destruct (is_pointer_type u); try done.
  - intros [= <-]. done.
  - intros H%IH. lia.
  - intros [= <-]. done.
Qed.

Lemma has_degree_nat (W : wf_types) n fuel u D ult :
  degree_and_pointee fuel u 0 = Ret (D, ult) ->
  pointer_has_degree_nat u n = Ret (bool_decide (Z.of_nat n <= D)).
Proof.
  revert fuel u D. induction n as [|n IH]; intros fuel u D Hd; cbn [pointer_has_degree_nat].
  { pose proof (degree_nonneg _ _ _ _ Hd). cbn in *. rewrite bool_decide_true by lia. done. }
  destruct fuel as [|fuel]; cbn in Hd; destruct (is_pointer_type u) eqn:Hp; cbn [negb].
  - done.
  - injection Hd as <- _. rewrite bool_decide_false by lia. done.
  - destruct (pointee_type u) as [t|] eqn:Ht; [|by apply (pointees_nonnull W) in Hp].
    pose proof (degree_and_pointee_shift _ _ _ 0 _ Hd) as H0. cbn in H0.
    rewrite (IH fuel _ (D - 1 + 0)) by exact H0. f_equal. apply bool_decide_ext. lia.
  - injection Hd as <- _. rewrite bool_decide_false by lia. done.
Qed.

Lemma has_degree_total (W : wf_types) u d : exists b, pointer_has_degree u d = Ret b.
Proof.
  destruct (degree_and_pointee_total (pointer_rank u) u 0) as [[D ult] Hd]; [done|].
  unfold pointer_has_degree. rewrite (has_degree_nat W _ _ _ _ _ Hd). by eexists.
Qed.

Lemma holds_degree_total (W : wf_types) cur d off : exists b, holds_pointer_of_degree cur d off = Ret b.
Proof.
  unfold holds_pointer_of_degree.
  destruct (descend_to_leaf_total (S (type_depth cur)) off cur) as [[o c] ->]; [lia|].
  cbn [mbind outcome_bind]. destruct (_ && _); [|by eexists]. by apply has_degree_total.
Qed.

Lemma generic_degree_total u d : exists r, is_generic_pointer_type_of_degree_at_least u d = Ret r.
Proof.
  unfold is_generic_pointer_type_of_degree_at_least, pointer_degree_and_ultimate_pointee_type.
  destruct (degree_and_pointee_total (pointer_rank u) u 0) as [[D ult] ->]; [done|]. by eexists.
Qed.

Lemma loosely_matches_total (W : wf_types) c t i j : exists b, loosely_matches c t i j = Ret b.
Proof.
  unfold loosely_matches. destruct (negb _); [by eexists|]. destruct (bool_decide _); [by eexists|].
  destruct (generic_degree_total (memb_ptr t j) 1) as [g ->]. cbn [mbind outcome_bind].
  destruct (negb (g =? 0)).
  - destruct (has_degree_total W (memb_ptr c i) g) as [b ->]. cbn [mbind outcome_bind].
    destruct b; by eexists.
  - by eexists.
Qed.

Lemma loosely_verdict_total (W : wf_types) cur test : exists b, loosely_like_a_verdict cur test = Ret b.
Proof.
  unfold loosely_like_a_verdict. destruct (bool_decide (Some test = cur)); [by eexists|].
  assert (exists d, (if is_pointer_type (Some test)
    then is_generic_pointer_type_of_degree_at_least (Some test) 1 else Ret 0) = Ret d) as [d ->].
  { destruct (is_pointer_type _); [apply generic_degree_total|by eexists]. }
  cbn [mbind outcome_bind]. destruct (negb (d =? 0)); [by apply holds_degree_total|].
  repeat (case_match; [by eexists|]). unfold compare_members. destruct cur as [c|].
  - apply members_like_total; [done|by apply loosely_matches_total|lia|].
    unfold members_fuel. pose proof (members_nonneg W (Some test)). lia.
  - rewrite (null_no_members W). by eexists.
Qed.

Lemma loosely_loop_total (W : wf_types) fuel off cur test :
  (type_depth cur < fuel)%nat -> exists r, loosely_like_a_loop fuel off cur test = Ret r.
Proof.
  revert off cur. induction fuel as [|fuel IH]; intros off cur Hf; [lia|]. cbn [loosely_like_a_loop].
  destruct (loosely_verdict_total W cur test) as [[] ->]; cbn [mbind outcome_bind]; [by eexists|].
  destruct (first_subobject_spanning off cur) as [[off' u']|] eqn:Hs; [|by eexists].
  apply IH. apply subobject_depth in Hs. lia.
Qed.
Lemma members_like_mono fuel (m m' : Z -> Z -> outcome bool) c test i j :
  (forall i j, m i j = Ret true -> m' i j = Ret true) ->
  members_like fuel m c test i j = Ret true -> members_like fuel m' c test i j = Ret true.
Proof.
  intros Hm. revert i j. induction fuel as [|fuel IH]; intros i j; [done|]. cbn [members_like].
  destruct (_ && (j <? _)); [|done]. destruct (_ && (_ || _)).
  - intros Hr. apply bind_Ret in Hr as (off & -> & Hr). cbn [mbind outcome_bind].
    destruct (_ && _); [done|]. by apply IH.
  - intros Hr. apply bind_Ret in Hr as (b & Hb & Hr). destruct b; [|done].
    rewrite (Hm _ _ Hb). cbn [mbind outcome_bind]. by apply IH.
Qed.

Lemma like_matches_loosely c test i j :
  like_a_matches c test i j = Ret true -> loosely_matches c test i j = Ret true.
Proof.
  unfold like_a_matches, loosely_matches. intros [= Hm]. apply andb_true_iff in Hm as [-> ->]. done.
Qed.

Lemma degree_and_pointee_end fuel u d D ult :
  degree_and_pointee fuel u d = Ret (D, ult) -> is_pointer_type ult = false.
Proof.
  revert u d. induction fuel as [|fuel IH]; intros u d; cbn; destruct (is_pointer_type u) eqn:Hp;
    try done; [by intros [= _ <-]|apply IH|by intros [= _ <-]].
Qed.

Lemma arguments_refine_spec n alloc test k :
  arguments_refine n alloc test k = true <->
  forall i, 0 <= i < Z.of_nat n ->
    would_always_succeed (related_t test (k + i)) (related_t alloc (k + i)) = true.
Proof.
  revert k. induction n as [|n IH]; intros k; cbn [arguments_refine].
  { split; [intros _ i; lia|done]. }
  rewrite andb_true_iff, IH. split.
  - intros [H0 Hn] i Hi. destruct (decide (i = 0)) as [->|]; [by rewrite Z.add_0_r|].
    replace (k + i) with (k + 1 + (i - 1)) by lia. apply Hn. lia.
  - intros Hall. split; [specialize (Hall 0); rewrite Z.add_0_r in Hall; apply Hall; lia|].
    intros i Hi. replace (k + 1 + i) with (k + (i + 1)) by lia. apply Hall. lia.
Qed.
End verdicts.

Section totality.
Context `{C : Config} `{L : Liballocs} {LL : LiballocsLaws L}.
Implicit Types (st : runtime).

Definition unsuppressed st : Prop := suppressions (reports st) = None.

Lemma do_query_reports st obj st' o : do_query st obj = (st', o) -> reports st' = reports st.
Proof. unfold do_query. destruct (get_alloc_info (lib st) obj). by intros [= <- <-]. Qed.

Lemma precisify_total (W : wf_types) st u s z a :
  exists st' u', do_array_precisify st u s z a = Ret (st', u') /\ reports st' = reports st.
Proof.
  unfold do_array_precisify. destruct u as [ut|]; [|by eexists _, _].
  destruct (make_precise ut) as [am|] eqn:Hm; [|by eexists _, _].
  assert (am && (pos_maxoff ut =? 0) = false) as ->.
  { destruct am; [|done]. apply (array_makers_sized W) in Hm. cbn. by apply Z.eqb_neq. }
  destruct (am && (1 =? z / pos_maxoff ut)); [|destruct (call_make_precise _ _ _ _)];
    (destruct a as [a|]; [destruct (set_type a)|]); by eexists _, _.
Qed.

Lemma report_total st site k f t a : unsuppressed st -> exists st', report st site k f t a = Ret st'.
Proof.
  intros Hs. unfold report, report_failure_if_necessary, should_report_failure_at, is_suppressed.
  rewrite Hs. cbn [mbind outcome_bind]. destruct (verbose (reports st)); [by eexists|].
  destruct (negb _); by eexists.
Qed.

Lemma count_failure_total st site k f t a :
  unsuppressed st -> exists st', count_failure st site k f t a = Ret st'.
Proof.
  intros Hs. unfold count_failure. destruct (_ || _); [by eexists|]. by apply report_total.
Qed.

(** The tail of a check. *)
Lemma finish_total st ok site k f t a : unsuppressed st ->
  exists st', (if (ok : bool) then Ret (1, inc succeeded st)
               else st ← count_failure st site k f t a; Ret (1, st)) = Ret (1, st').
Proof.
  intros Hs. destruct ok; [by eexists|].
  destruct (count_failure_total st site k f t a Hs) as [st' ->]. by eexists.
Qed.

(** The head of a check. *)
Lemma query_total st obj (k : runtime -> alloc_info uniqtype allocator -> outcome (Z * runtime)) :
  unsuppressed st ->
  (forall st1 info, unsuppressed st1 -> exists st', k st1 info = Ret (1, st')) ->
  exists st', match do_query st obj with (st, None) => Ret (1, st) | (st, Some info) => k st info end
              = Ret (1, st').
Proof.
  intros Hs Hk. destruct (do_query st obj) as [st1 o] eqn:Hq. apply do_query_reports in Hq.
  assert (unsuppressed st1) by (unfold unsuppressed; by rewrite Hq).
  destruct o; [by apply Hk|by eexists].
Qed.

Lemma like_a_total (W : wf_types) st obj test site : unsuppressed st ->
  exists st', like_a_internal st obj test site = Ret (1, st').
Proof.
  intros Hs. apply query_total; [done|]. intros st1 info Hs1.
  destruct (precisify_total W st1 (alloc_uniqtype info) (alloc_start info) (alloc_size_bytes info)
    (alloc_a info)) as (st2 & u & -> & Hr). cbn [mbind outcome_bind].
  edestruct (descend_to_zero_total (S (type_depth u))) as [[reached cur] ->]; [lia|].
  cbn [mbind outcome_bind]. assert (unsuppressed st2) by (unfold unsuppressed; by rewrite Hr).
  destruct reached; cbn [mbind outcome_bind].
  - destruct (strip_arrays_total (type_depth cur) cur) as (u' & -> & _); [done|].
    cbn [mbind outcome_bind]. destruct (like_a_verdict_total W u' test) as [b ->].
    cbn [mbind outcome_bind]. by apply finish_total.
  - by apply (finish_total st2 false).
Qed.

Lemma loosely_like_a_total (W : wf_types) st obj test site :
  unsuppressed st -> (forall a s, alloc_is_dynamically_sized a s = false) ->
  exists st', loosely_like_a_internal st obj test site = Ret (1, st').
Proof.
  intros Hs Hd. apply query_total; [done|]. intros st1 info Hs1.
  destruct (precisify_total W st1 (alloc_uniqtype info) (alloc_start info) (alloc_size_bytes info)
    (alloc_a info)) as (st2 & u & -> & Hr). cbn [mbind outcome_bind].
  unfold reinstate_looseness_if_necessary. rewrite Hd. cbn [andb mbind outcome_bind].
  edestruct (descend_to_zero_total (S (type_depth u))) as [[reached cur] ->]; [lia|].
  cbn [mbind outcome_bind]. assert (unsuppressed st2) by (unfold unsuppressed; by rewrite Hr).
  destruct reached; cbn [mbind outcome_bind].
  - destruct (loosely_loop_total W (S (type_depth cur)) 0 cur test) as [[ok c] ->]; [lia|].
    cbn [mbind outcome_bind]. by apply finish_total.
  - by apply (finish_total st2 false).
Qed.

Lemma named_a_total (W : wf_types) st obj s site : unsuppressed st ->
  exists st', named_a_internal st obj s site = Ret (1, st').
Proof.
  intros Hs. apply query_total; [done|]. intros st1 info Hs1.
  destruct (precisify_total W st1 (alloc_uniqtype info) (alloc_start info) (alloc_size_bytes info)
    (alloc_a info)) as (st2 & u & -> & Hr). cbn [mbind outcome_bind]. cbn zeta.
  destruct (walk_subobjects _ _ _) as [ret []]. apply finish_total.
  unfold unsuppressed. by rewrite Hr.
Qed.

Lemma function_refining_total (W : wf_types) st obj test site : unsuppressed st ->
  exists st', is_a_function_refining_internal st obj test site = Ret (1, st').
Proof.
  intros Hs. apply query_total; [done|]. intros st1 info Hs1. cbn zeta.
  assert (exists b, (if alloc_start info =? obj
    then if bool_decide (alloc_uniqtype info = Some test) then Ret true
         else if is_subprogram_type (alloc_uniqtype info)
              then match alloc_uniqtype info with
                   | Some alloc => Ret (function_refines alloc test) | None => Unreachable end
              else Ret false
    else Ret false) = Ret b) as [b ->].
  { destruct (alloc_start info =? obj); [|by eexists]. destruct (bool_decide _); [by eexists|].
    destruct (alloc_uniqtype info); [destruct (is_subprogram_type _); by eexists|].
    rewrite (null_not_function W). by eexists. }
  cbn [mbind outcome_bind]. by apply finish_total.
Qed.

Lemma pointer_of_degree_total (W : wf_types) st obj d site :
  unsuppressed st -> (forall a s, alloc_is_dynamically_sized a s = false) ->
  exists st', is_a_pointer_of_degree_internal st obj d site = Ret (1, st').
Proof.
  intros Hs Hd. apply query_total; [done|]. intros st1 info Hs1.
  destruct (precisify_total W st1 (alloc_uniqtype info) (alloc_start info) (alloc_size_bytes info)
    (alloc_a info)) as (st2 & u & -> & Hr). cbn [mbind outcome_bind].
  unfold reinstate_looseness_if_necessary. rewrite Hd. cbn [andb mbind outcome_bind].
  edestruct (holds_degree_total W u d) as [b ->]. cbn [mbind outcome_bind].
  destruct b; [by eexists|].
  edestruct (report_total (inc failed st2)) as [st' ->].
  { unfold unsuppressed. change (suppressions (reports st2) = None). by rewrite Hr. }
  by eexists.
Qed.
End totality.

(** C27. The structural checks end and never stop the program, as long as no
    suppressions are loaded (a malformed one crashes the report of a failure):
    whatever the state of the caches and of liballocs, and however types nest,
    the like_a, named_a and function-refining checks return 1, and so do the
    loosely_like_a and pointer-degree checks where liballocs sizes no
    allocation dynamically.  (Where it does, the looseness that these two
    reinstate can abort: see [reinstate_looseness_aborts].) *)
Theorem checks_return `{C : Config} `{L : Liballocs} {LL : LiballocsLaws L} (W : wf_types) (st : runtime) obj call site :
  unsuppressed st -> retyping_call call = false ->
  (reinstating_call call = true -> forall a s, alloc_is_dynamically_sized a s = false) ->
  exists st', run_check st obj call site = Ret (1, st').
Proof.
  intros Hs Hr Hd.
  assert (forall (T : Type) (r : option T) internal,
    (forall st obj x, unsuppressed st -> exists st', internal st obj x = Ret (1, st')) ->
    exists st', checked_entry st obj r internal = Ret (1, st')) as Hentry.
  { intros T r internal Hi. unfold checked_entry. destruct noop_inlines; [by eexists|].
    destruct (trivial_pointer obj); [by eexists|]. destruct r; [by apply Hi|by eexists]. }
  destruct call as [| |r|r|s|r|d|v]; try done; cbn [run_check].
  - apply Hentry. intros. by apply like_a_total.
  - apply Hentry. intros. apply loosely_like_a_total; auto.
  - apply Hentry. intros. by apply named_a_total.
  - apply Hentry. intros. by apply function_refining_total.
  - unfold is_a_pointer_of_degree. repeat (case_match; [by eexists|]). apply pointer_of_degree_total; auto.
Qed.

(** What [__like_a] accepts: an object type other than an array is like a
    test type without character-array members exactly when the two are the
    same, or one is recorded as the complement of the other and neither is a
    base type, or the members of the test type are a prefix of the object
    type's: as many or fewer, at the same offsets, of the same types.  In
    particular every non-array type is "like" a test type without members. *)
Theorem like_a_is_prefix `{L : Liballocs} {LL : LiballocsLaws L} (W : wf_types) cur test :
  is_array_type (Some cur) = false -> is_array_type (Some test) = false -> no_padding test ->
  exists b, like_a_verdict (Some cur) test = Ret b /\
    (b = true <->
      cur = test \/
      (is_base_type (Some cur) = false /\ is_base_type (Some test) = false /\
       (signedness_complement (Some cur) = Some test \/ signedness_complement (Some test) = Some cur)) \/
      (composite_member_count (Some test) <= composite_member_count (Some cur) /\
       forall i, 0 <= i < composite_member_count (Some test) ->
         memb_off test i = memb_off cur i /\ memb_ptr test i = memb_ptr cur i)).
Proof.
  intros Hc Ht Hp. unfold like_a_verdict. rewrite Hc, Ht. cbn [orb].
  destruct (bool_decide_reflect (Some test = Some cur)) as [[= ->]|Hne].
  { exists true. split; [done|]. tauto. }
  destruct (negb (is_base_type (Some cur)) && negb (is_base_type (Some test)) && _) eqn:Hs.
  { exists true. split; [done|]. split; [intros _|done]. right; left.
    apply andb_true_iff in Hs as [[Hb1%negb_true_iff Hb2%negb_true_iff]%andb_true_iff Hs].
    split; [done|]. split; [done|].
    by apply orb_true_iff in Hs as [Hs%bool_decide_eq_true|Hs%bool_decide_eq_true]; [left|right]. }
  cbn [compare_members]. unfold like_a_matches.
  destruct (members_like_prefix (members_fuel test)
    (fun i j => (memb_off test j =? memb_off cur i) && bool_decide (memb_ptr test j = memb_ptr cur i))
    cur test 0) as (b & Hb & Hiff); [done|lia|unfold members_fuel; lia|].
  exists b. split; [exact Hb|]. rewrite Hiff. pose proof (members_nonneg W (Some cur)). split.
  - intros [Hn Hj]. right; right. split; [lia|]. intros i Hi. specialize (Hj i Hi).
    apply andb_true_iff in Hj as [?%Z.eqb_eq ?%bool_decide_eq_true]. done.
  - intros [->|[(Hb1 & Hb2 & Hcp)|[Hn Hj]]]; [done| |].
    + rewrite Hb1, Hb2 in Hs. cbn in Hs. apply orb_false_iff in Hs as [Hs1 Hs2].
      apply bool_decide_eq_false in Hs1, Hs2. tauto.
    + split; [by right|]. intros j Hr. destruct (Hj j Hr) as [-> ->].
      by rewrite Z.eqb_refl, bool_decide_true.
Qed.

(** The loose check is looser: whatever pair of types [__like_a] accepts
    member by member, one round of [__loosely_like_a] accepts, unless the test
    type is a pointer type (for which the loose check asks for a pointer of its
    degree in the object). *)
Theorem loosely_like_a_is_looser `{L : Liballocs} {LL : LiballocsLaws L} (W : wf_types) cur test :
  is_pointer_type (Some test) = false -> like_a_verdict cur test = Ret true ->
  loosely_like_a_verdict cur test = Ret true.
Proof.
  intros Hp. unfold like_a_verdict, loosely_like_a_verdict. rewrite Hp. cbn [mbind outcome_bind].
  destruct (bool_decide (Some test = cur)); [done|]. change (negb (0 =? 0)) with false. cbv iota.
  destruct (is_array_type cur || is_array_type (Some test)); [done|].
  destruct (is_base_type cur), (is_base_type (Some test)); cbn [negb andb orb];
    destruct (bool_decide (signedness_complement cur = Some test)
              || bool_decide (signedness_complement (Some test) = cur)); try done;
    destruct cur as [c|]; cbn [compare_members]; try done;
    apply members_like_mono; intros i j; apply like_matches_loosely.
Qed.

(** [pointer_has_degree] compares with the degree that
    [pointer_degree_and_ultimate_pointee_type] computes. *)
Theorem pointer_has_degree_spec `{L : Liballocs} {LL : LiballocsLaws L} (W : wf_types) u d :
  0 <= d ->
  exists D ult, pointer_degree_and_ultimate_pointee_type u = Ret (D, ult) /\
    is_pointer_type ult = false /\ 0 <= D /\
    pointer_has_degree u d = Ret (bool_decide (d <= D)).
Proof.
  intros Hd. destruct (degree_and_pointee_total (pointer_rank u) u 0) as [[D ult] Hr]; [done|].
  exists D, ult. split; [exact Hr|]. split; [by apply degree_and_pointee_end in Hr|].
  split; [by apply degree_nonneg in Hr|]. unfold pointer_has_degree.
  rewrite (has_degree_nat W _ _ _ _ _ Hr). by rewrite Z2Nat.id.
Qed.

(** ** Function types

    When a value of the type [from] can be used wherever one of the type [to]
    is wanted, as the check means it. *)
Inductive usable `{L : Liballocs} (from to : option uniqtype) : Prop :=
| UsableNonPointer : is_pointer_type to = false -> usable from to
| UsableVoidPointer : pointee_type to = uniqtype_void -> usable from to
| UsableCharPointer : pointee_type to = uniqtype_signed_char -> usable from to
| UsablePrefix :                     (* what it points to starts with what is wanted *)
    is_pointer_type from = true ->
    match_ok (find_matching_subobject 0 (pointee_type from) (pointee_type to)) = true ->
    usable from to.

(** The function type [alloc] refines [test]: as many arguments, the result of
    [alloc] usable as that of [test], and what [test] says is passed usable as
    what [alloc] takes.  Entry 0 of [related] is the result; the arguments
    start where [alloc] has them, in both types. *)
Record refines `{L : Liballocs} (alloc test : uniqtype) : Prop := {
  refines_count : subprogram_narg alloc = subprogram_narg test;
  refines_result : usable (related_t alloc 0) (related_t test 0);
  refines_arguments : forall i, 0 <= i < subprogram_narg alloc ->
    let k := Z.min 1 (subprogram_nret alloc) + i in usable (related_t test k) (related_t alloc k);
}.

(** What the check accepts: the address of a function, not one inside it, of
    the test type itself or of a function type that refines it. *)
Definition accepts_function `{L : Liballocs} (info : alloc_info uniqtype allocator) obj (test : uniqtype) : Prop :=
  alloc_start info = obj /\
  (alloc_uniqtype info = Some test \/
   exists alloc, alloc_uniqtype info = Some alloc /\ is_subprogram_type (Some alloc) = true /\
     refines alloc test).

Lemma would_always_succeed_usable `{L : Liballocs} from to :
  would_always_succeed from to = true <-> usable from to.
Proof.
  unfold would_always_succeed. rewrite !orb_true_iff, !bool_decide_eq_true, negb_true_iff, andb_true_iff.
  split; [intros [[[?|?]|?]|[??]]; [by apply UsableNonPointer|by apply UsableVoidPointer|
    by apply UsableCharPointer|by apply UsablePrefix]|]. intros [?|?|?|??]; tauto.
Qed.

Lemma function_refines_spec `{L : Liballocs} (alloc test : uniqtype) :
  function_refines alloc test = true <-> refines alloc test.
Proof.
  unfold function_refines. rewrite !andb_true_iff, Z.eqb_eq, arguments_refine_spec,
    would_always_succeed_usable. setoid_rewrite would_always_succeed_usable.
  split.
  - intros [[Hn Hr] Ha]. split; [done..|]. intros i Hi. apply Ha. lia.
  - intros [Hn Hr Ha]. split; [done|]. intros i Hi. apply Ha. lia.
Qed.

Lemma count_failure_tally `{L : Liballocs} (st st' : runtime) site k f t a :
  count_failure st site k f t a = Ret st' ->
  lib st' = lib st /\
  counters st' = tally (if currently_allocating (lib st) || currently_freeing (lib st)
                        then FailedInAlloc else Failed) (counters st).
Proof.
  unfold count_failure. destruct (_ || _); [by intros [= <-]|]. unfold report.
  destruct (report_failure_if_necessary _ _ _ _ _ _); [|done..]. by intros [= <-].
Qed.

(** C34. What [__is_a_function_refining_internal] decides, where no suppressions
    are loaded: it returns 1 and does no more to liballocs than to ask it; an
    object it does not know leaves the counters alone; a known one is counted
    as passed exactly if the pointer is to the start of its allocation and the
    type there is the test type itself or a function type that refines it: one
    that takes as many arguments, whose result is usable as the test type's
    and to which all the test type's arguments can be passed.  Usable as a
    non-pointer is anything, as a [void *] or [signed char *] too, and as any
    other pointer only a pointer to something that has the wanted pointee at
    offset zero.  Everything else is counted as failed, separately inside an
    allocation function. *)
Theorem is_a_function_refining_decides `{C : Config} `{L : Liballocs} {LL : LiballocsLaws L} (W : wf_types)
    (st : runtime) obj test site :
  unsuppressed st ->
  let '(w, o) := get_alloc_info (lib st) obj in
  exists st', is_a_function_refining_internal st obj test site = Ret (1, st') /\ lib st' = w /\
    match o with
    | None => counters st' = counters st
    | Some info =>
        accepts_function info obj test /\ counters st' = tally Passed (counters st) \/
        ~ accepts_function info obj test /\
          counters st' = tally (if currently_allocating w || currently_freeing w
                                then FailedInAlloc else Failed) (counters st)
    end.
Proof.
  intros Hs. destruct (function_refining_total W st obj test site Hs) as [st' Hr].
  destruct (get_alloc_info (lib st) obj) as [w o] eqn:Hq. exists st'. split; [done|].
  unfold is_a_function_refining_internal, do_query in Hr. rewrite Hq in Hr.
  destruct o as [info|]; [|by injection Hr as <-]. cbn zeta in Hr.
  apply bind_Ret in Hr as (b & Hb & Hr).
  assert (b = true <-> accepts_function info obj test) as Hiff.
  { unfold accepts_function. destruct (Z.eqb_spec (alloc_start info) obj) as [->|Hne];
      [|injection Hb as <-; split; [done|tauto]].
    destruct (bool_decide_reflect (alloc_uniqtype info = Some test)) as [->|Hne];
      [injection Hb as <-; split; auto|].
    destruct (is_subprogram_type (alloc_uniqtype info)) eqn:Hf.
    - destruct (alloc_uniqtype info) as [alloc|]; [|done]. injection Hb as <-.
      rewrite function_refines_spec. split; [eauto 6|].
      intros [_ [?|(al & [= <-] & _ & ?)]]; [done|done].
    - injection Hb as <-. split; [done|].
      intros [_ [?|(al & Ha & Hsub & _)]]; [done|congruence]. }
  destruct b.
  - injection Hr as <-. split; [done|]. left. split; [tauto|done].
  - apply bind_Ret in Hr as (st2 & Hc%count_failure_tally & [= <-]). destruct Hc as [Hl Hc].
    split; [done|]. right. split; [intros Ha%Hiff; done|exact Hc].
Qed.

(** What [__check_args] decides: the type checks on the pointer arguments
    always "succeed", so that of a function that liballocs knows only the
    number of arguments is checked.  The result is 0 for success when it is
    right, otherwise the number of arguments that could be matched up - which
    is 0 again if the call passes none or the function takes none. *)
Theorem check_args_result `{C : Config} `{L : Liballocs} (st st' : runtime) obj args site ret :
  (get_alloc_info (lib st) obj).2 <> None ->
  check_args_internal st obj args site = Ret (ret, st') ->
  exists fun_type, alloc_uniqtype <$> (get_alloc_info (lib st) obj).2 = Some (Some fun_type) /\
    (0 <= subprogram_narg fun_type ->
     ret = if Z.of_nat (length args) =? subprogram_narg fun_type then 0
           else Z.min (Z.of_nat (length args)) (subprogram_narg fun_type)).
Proof.
  intros Hk. unfold check_args_internal, do_query.
  destruct (get_alloc_info (lib st) obj) as [l [info|]]; [|done]. clear Hk. cbn [snd fmap option_fmap option_map].
  destruct (alloc_uniqtype info) as [ft|]; [|done].
  destruct (negb (is_subprogram_type (Some ft))); [done|].
  destruct (negb (alloc_start info =? obj)); [done|]. cbn zeta. intros Hr.
  apply bind_Ret in Hr as ([[success i] st1] & Hloop & Hr).
  exists ft. split; [done|]. intros Hn. destruct (check_args_loop_stops _ _ _ _ _ _ _ _ Hn Hloop) as [-> ->];
    [lia|]. injection Hr as <- _. zcases; cbn [andb]; lia.
Qed.

(** Reinstating the looseness of an allocation aborts whenever it is
    needed: for a dynamically sized allocation of pointer type whose header
    carries the loose flag and an allocation site, the assertion is taken as
    [(0 == ins->alloc_site) & 1] and fails. *)
Theorem reinstate_looseness_aborts `{L : Liballocs} (st : runtime) start site_of_alloc u ins :
  alloc_is_dynamically_sized start site_of_alloc = true -> site_of_alloc <> 0 ->
  is_pointer_type u = true -> get_insert (lib st) start = Some ins ->
  reinstate_looseness_if_necessary st start site_of_alloc u =
    if ins_alloc_site_flag ins
    then if ins_alloc_site ins =? 0
         then Ret (set_lib (set_insert (lib st) start (Insert true 1)) st) else Abort
    else Ret st.
Proof.
  intros Hd Hs Hp Hi. unfold reinstate_looseness_if_necessary.
  rewrite Hd, Hp, Hi, (proj2 (Z.eqb_neq _ _) Hs). cbn [andb negb].
  rewrite (Z.eqb_sym 0). destruct ins as [[] site']; cbn [ins_alloc_site_flag ins_alloc_site]; [|done].
  destruct (Z.eqb_spec site' 0) as [->|]; done.
Qed.

(** ** Witnesses, on the small liballocs *)
#[local] Instance ex_config : Config := config_p.

Lemma tiny_wf : @wf_types tiny.
Proof.
  split; try done.
  - intros [t|]; cbn; [destruct t|]; lia.
  - intros t i; cbn. destruct t, (i =? 0); try done; lia.
  - intros [t|]; cbn; [destruct t|]; done.
  - intros t; cbn. destruct t; done || lia.
Qed.

(** The [float] member of the first structure is a [float]. *)
Lemma checks_counted_once_witness :
  exists v st', @run_check ex_config tiny tiny_runtime 0x1004 (CallIsA (L := tiny) (Some TFloat)) 1 = Ret (1, st') /\
    counters st' = tally v (bump begun (fun _ => 0)) /\ (counters st' succeeded =? 1) = true.
Proof.
  assert (match @run_check ex_config tiny tiny_runtime 0x1004 (CallIsA (L := tiny) (Some TFloat)) 1 with
          | Ret (_, st') => counters st' succeeded =? 1 | _ => false end = true) as Hok
    by (vm_compute; reflexivity).
  destruct (@run_check ex_config tiny tiny_runtime 0x1004 (CallIsA (L := tiny) (Some TFloat)) 1)
    as [[ret st']| |] eqn:Hr; [|discriminate Hok..].
  destruct (checks_counted_once (C := ex_config) (L := tiny) tiny_runtime st' 0x1004
    (CallIsA (L := tiny) (Some TFloat)) 1 ret eq_refl Hr) as (-> & _ & Hc).
  destruct (Hc eq_refl) as (v & Hv & _). exists v, st'.
  split; [reflexivity|]. split; [exact Hv|exact Hok].
Defined.

Lemma checks_return_witness :
  exists st', @run_check ex_config tiny tiny_runtime 0x1004 (CallNamedA (L := tiny) (Some "float$32"%string)) 1 = Ret (1, st').
Proof.
  apply (checks_return (C := ex_config) (L := tiny) tiny_wf); [reflexivity|reflexivity|intros Hr; discriminate Hr].
Defined.

Lemma like_a_is_prefix_witness :
  like_a_verdict (L := tiny) (Some (TPair TInt 4 TFloat)) (TPair TInt 4 TInt) = Ret false /\
  exists b, like_a_verdict (L := tiny) (Some TInt) TFloat = Ret b /\ b = true.
Proof.
  split; [reflexivity|].
  destruct (like_a_is_prefix (L := tiny) tiny_wf TInt TFloat) as (b & Hb & Hiff);
    [reflexivity|reflexivity|intros i Hi; cbn in Hi; lia|].
  exists b. split; [exact Hb|]. apply Hiff. right; right. split; [cbn; lia|].
  intros i Hi; cbn in Hi; lia.
Defined.

Lemma loosely_like_a_is_looser_witness :
  loosely_like_a_verdict (L := tiny) (Some (TPair TInt 4 TFloat)) (TPair TInt 4 TFloat) = Ret true.
Proof. apply (loosely_like_a_is_looser (L := tiny) tiny_wf); reflexivity. Defined.

Lemma pointer_has_degree_spec_witness :
  exists D ult, pointer_degree_and_ultimate_pointee_type (L := tiny) (Some (TPtr (TPtr TVoid))) = Ret (D, ult)
    /\ D = 2.
Proof.
  destruct (pointer_has_degree_spec (L := tiny) tiny_wf (Some (TPtr (TPtr TVoid))) 2) as (D & ult & Hd & _);
    [lia|]. exists D, ult. split; [exact Hd|]. vm_compute in Hd. by injection Hd as <- _.
Defined.

(** The function at 0x3000 takes an [int *] and an [int]; it can stand for one
    that takes an [int *] and a [float] and returns nothing. *)
Lemma is_a_function_refining_decides_witness :
  exists st', is_a_function_refining_internal (L := tiny) tiny_runtime 0x3000 (TFun 2 TVoid (TPtr TInt) TFloat) 1
      = Ret (1, st') /\ counters st' = tally Passed (counters tiny_runtime).
Proof.
  destruct (is_a_function_refining_decides (C := ex_config) (L := tiny) tiny_wf tiny_runtime 0x3000
    (TFun 2 TVoid (TPtr TInt) TFloat) 1 eq_refl) as (st' & Hr & _ & [[_ Hc]|[Hn _]]).
  - exists st'. split; [exact Hr|exact Hc].
  - exfalso. apply Hn. split; [reflexivity|]. right. eexists. split; [reflexivity|].
    split; [reflexivity|]. split; [reflexivity|by apply UsableNonPointer|].
    cbn. intros i Hi. assert (i = 0 \/ i = 1) as [->| ->] by lia.
    + apply UsablePrefix; reflexivity.
    + apply UsableNonPointer. reflexivity.
Defined.

(** Called with no argument, a function of two arguments passes. *)
Lemma check_args_result_witness :
  exists st', @check_args_internal ex_config tiny tiny_runtime 0x3000 [] 1 = Ret (0, st').
Proof.
  assert (match @check_args_internal ex_config tiny tiny_runtime 0x3000 [] 1 with
          | Ret _ => true | _ => false end = true) as Hok by (vm_compute; reflexivity).
  destruct (@check_args_internal ex_config tiny tiny_runtime 0x3000 [] 1) as [[ret st']| |] eqn:Hr;
    [|discriminate Hok..].
  assert (snd (@get_alloc_info tiny tiny_world 0x3000) <> None) as Hk by (vm_compute; discriminate).
  destruct (check_args_result (C := ex_config) (L := tiny) tiny_runtime st' 0x3000 [] 1 ret Hk Hr)
    as (ft & Hft & Hret).
  exists st'. vm_compute in Hft. injection Hft as <-. rewrite Hret by (vm_compute; discriminate).
  reflexivity.
Defined.

Lemma reinstate_looseness_aborts_witness :
  reinstate_looseness_if_necessary (L := tiny) tiny_runtime 0x2000 7 (Some (TPtr TInt)) = Abort.
Proof.
  rewrite (reinstate_looseness_aborts (L := tiny) tiny_runtime 0x2000 7 (Some (TPtr TInt)) (Insert true 6));
    [reflexivity|reflexivity|lia|reflexivity|reflexivity].
Defined.
