(* ===== verification/Verdicts.v ===== *)
(** * What the retyping checks decide

    [__is_a] and [__can_hold_pointer] may change the type of an allocation, so
    what they decide is stated with the state they leave: the subobject search
    and its memory in the cache, the retyping of allocations of as yet
    unspecific type, and the counted failure.  The definitions are those of
    [TypeChecks.v]; this file has their specifications. *)
From S2P Require Import Prelude Config TrapPtr Bounds Derive Memory ShadowSpace BoundsStack Report.
From S2P Require Import Runtime TinyAllocs TypeChecks.

Section is_a.
Context `{L : Liballocs} {LL : LiballocsLaws L}.
Implicit Types (st : runtime) (obj site : Z) (info : alloc_info uniqtype allocator).

(** An array whose elements are smaller than the test type: no search, no
    retyping. *)
Definition too_small info (test : uniqtype) : Prop :=
  is_array_type (alloc_uniqtype info) = true /\
  exists e, array_element_type (alloc_uniqtype info) = Some e /\ pos_maxoff e < pos_maxoff test.
Definition first_element info obj (test : uniqtype) : Prop :=
  is_array_type (alloc_uniqtype info) = true /\
  array_element_type (alloc_uniqtype info) = Some test /\
  target_offset obj (alloc_start info) = 0.

(** Where the test type is looked for: nowhere if the object is the first
    element of an array of it, in the precise type of the allocation
    otherwise. *)
Inductive is_a_search st info obj test : runtime -> option uniqtype -> match_result uniqtype -> Prop :=
| FirstElement :
    first_element info obj test ->
    is_a_search st info obj test st (alloc_uniqtype info)
      (MatchResult true (alloc_uniqtype info) 0 0 None 0)
| Searched st' u :
    ~ first_element info obj test ->
    do_array_precisify st (alloc_uniqtype info) (alloc_start info) (alloc_size_bytes info)
      (alloc_a info) = Ret (st', u) ->
    is_a_search st info obj test st' u
      (find_matching_subobject (target_offset obj (alloc_start info)) u (Some test)).

(** The range that a positive answer is remembered for. *)
Definition remembered st info obj test (m : match_result uniqtype) (depth : Z) : runtime :=
  let r := is_a_range (alloc_start info) obj test (match_offset m) (match_cumulative m)
             (match_contained_off m) (match_containing m) in
  if cacheable (alloc_a info)
  then cache_is_a st r.1 r.2 (Some test) depth (pos_maxoff test) (alloc_start info) else st.

(** An array of elements without a definite type, outside allocation functions. *)
Definition retypable st (u : option uniqtype) : Prop :=
  is_array_type u = true /\ array_element_type u <> None /\ is_abstract (array_element_type u) = true
  /\ currently_allocating (lib st) = false.

(** The three ways a check of a known object ends. *)
Inductive is_a_end st info obj test site : runtime -> Prop :=
| IsAPasses st' u m :
    ~ too_small info test -> is_a_search st info obj test st' u m -> match_ok m = true ->
    is_a_end st info obj test site (inc succeeded (remembered st' info obj test m 1))
| IsARetypes st' u m a f l arr :
    ~ too_small info test -> is_a_search st info obj test st' u m -> match_ok m = false ->
    alloc_a info = Some a -> set_type a = Some f -> retypable st' u ->
    get_or_create_array_type (lib st') test (alloc_size_bytes info / pos_maxoff test) = (l, arr) ->
    is_a_end st info obj test site (remembered (set_lib (f l obj arr) st') info obj test m 0)
| IsATooSmall st' :
    too_small info test ->
    count_failure st site IS_A (alloc_uniqtype info) (Some test) (alloc_uniqtype info) = Ret st' ->
    is_a_end st info obj test site st'
| IsAFails st' u m a st'' :
    ~ too_small info test -> is_a_search st info obj test st' u m -> match_ok m = false ->
    alloc_a info = Some a -> (set_type a = None \/ ~ retypable st' u) ->
    count_failure st' site IS_A (match_type m) (Some test) u = Ret st'' ->
    is_a_end st info obj test site st''.

Lemma retypable_reflect st u :
  reflect (retypable st u)
    (is_array_type u && bool_decide (array_element_type u <> None)
     && is_abstract (array_element_type u) && negb (currently_allocating (lib st))).
Proof.
  apply iff_reflect. unfold retypable.
  rewrite !andb_true_iff, bool_decide_eq_true, negb_true_iff. tauto.
Qed.

Lemma search_reports st info obj test st' u m :
  is_a_search st info obj test st' u m -> reports st' = reports st.
Proof.
  intros [_|st2 u2 _ Hp]; [done|]. revert Hp. unfold do_array_precisify.
  destruct (alloc_uniqtype info) as [ut|]; [|by intros [= <- _]].
  destruct (make_precise ut) as [am|]; [|by intros [= <- _]].
  destruct (am && (pos_maxoff ut =? 0)); [done|].
  destruct (am && (1 =? _)); [|destruct (call_make_precise _ _ _ _)];
    (destruct (alloc_a info) as [a|]; [destruct (set_type a)|]); by intros [= <- _].
Qed.

(** The part of the check after the search. *)
Lemma is_a_finish st info obj test site st' u m a :
  unsuppressed st -> ~ too_small info test -> is_a_search st info obj test st' u m ->
  alloc_a info = Some a -> pos_maxoff test <> 0 ->
  (set_type a <> None -> get_insert (lib st') obj <> None) ->
  exists st'',
    (let '(range_base, range_limit) :=
          is_a_range (alloc_start info) obj test (match_offset m) (match_cumulative m)
            (match_contained_off m) (match_containing m) in
     if match_ok m then
       Ret (1, inc succeeded (if cacheable (alloc_a info)
                 then cache_is_a st' range_base range_limit (Some test) 1 (pos_maxoff test) (alloc_start info)
                 else st'))
     else
       o ← lazy_retype st' obj test (alloc_a info) u (alloc_size_bytes info);
       match o with
       | Some st =>
           Ret (1, if cacheable (alloc_a info)
                   then cache_is_a st range_base range_limit (Some test) 0 (pos_maxoff test) (alloc_start info)
                   else st)
       | None => st ← count_failure st' site IS_A (match_type m) (Some test) u; Ret (1, st)
       end) = Ret (1, st'') /\ is_a_end st info obj test site st''.
Proof.
  intros Hs Hsm Hse Ha Hsz Hins. pose proof (search_reports _ _ _ _ _ _ _ Hse) as Hr.
  destruct (is_a_range _ _ _ _ _ _ _) as [rb rl] eqn:Hrange.
  destruct (match_ok m) eqn:Hm.
  { eexists. split; [done|].
    pose proof (IsAPasses st info obj test site st' u m Hsm Hse Hm) as Hend.
    unfold remembered in Hend. by rewrite Hrange in Hend. }
  assert (Hfail : set_type a = None \/ ~ retypable st' u ->
    exists st'', (st ← count_failure st' site IS_A (match_type m) (Some test) u; Ret (1, st))
      = Ret (1, st'') /\ is_a_end st info obj test site st'').
  { intros Hno. destruct (count_failure_total st' site IS_A (match_type m) (Some test) u) as [st2 Hc].
    { unfold unsuppressed. by rewrite Hr. }
    exists st2. rewrite Hc. split; [done|]. by eapply IsAFails. }
  unfold lazy_retype. rewrite Ha. destruct (set_type a) as [f|] eqn:Hf; [|apply Hfail; by left].
  destruct (retypable_reflect st' u) as [Hre|Hre]; [|apply Hfail; by right].
  destruct (get_insert (lib st') obj); [|by destruct (Hins ltac:(done))].
  destruct (Z.eqb_spec (pos_maxoff test) 0); [done|].
  destruct (get_or_create_array_type _ _ _) as [l arr] eqn:Harr. cbn [mbind outcome_bind].
  eexists. split; [done|].
  pose proof (IsARetypes st info obj test site st' u m a f l arr Hsm Hse Hm Ha Hf Hre Harr) as Hend.
  unfold remembered in Hend. by rewrite Hrange, Ha in Hend.
Qed.
End is_a.

(** A check of an object in an allocation that liballocs knows. *)
Lemma is_a_decided `{L : Liballocs} {LL : LiballocsLaws L} (W : wf_types)
    (st st1 : runtime) obj test site info a :
  unsuppressed st -> do_query st obj = (st1, Some info) ->
  alloc_a info = Some a -> pos_maxoff test <> 0 ->
  (set_type a <> None -> forall st' u m, is_a_search st1 info obj test st' u m ->
     get_insert (lib st') obj <> None) ->
  exists st', is_a_internal st obj test site = Ret (1, st') /\ is_a_end st1 info obj test site st'.
Proof.
  intros Hs Hq Ha Hsz Hins. pose proof (do_query_reports _ _ _ _ Hq) as Hr.
  assert (unsuppressed st1) as Hs1 by (unfold unsuppressed; by rewrite Hr).
  unfold is_a_internal. rewrite Hq. cbn zeta.
  assert (Hsearch : ~ too_small info test -> ~ first_element info obj test ->
    exists st2 u, do_array_precisify st1 (alloc_uniqtype info) (alloc_start info)
        (alloc_size_bytes info) (alloc_a info) = Ret (st2, u) /\
      is_a_search st1 info obj test st2 u
        (find_matching_subobject (target_offset obj (alloc_start info)) u (Some test))).
  { intros _ Hfe. destruct (precisify_total W st1 (alloc_uniqtype info) (alloc_start info)
      (alloc_size_bytes info) (alloc_a info)) as (st2 & u & Hp & _).
    exists st2, u. split; [done|]. by apply Searched. }
  destruct (array_element_type (alloc_uniqtype info)) as [e|] eqn:He.
  - destruct (is_array_type (alloc_uniqtype info)) eqn:Harr; cbn [andb].
    + destruct (Z.ltb_spec (pos_maxoff e) (pos_maxoff test)) as [Hlt|Hge].
      { destruct (count_failure_total st1 site IS_A (alloc_uniqtype info) (Some test)
          (alloc_uniqtype info) Hs1) as [st2 Hc]. rewrite Hc. exists st2. split; [done|].
        apply IsATooSmall; [|done]. split; [done|]. by exists e. }
      assert (~ too_small info test) as Hsm.
      { intros (_ & e' & He' & Hlt). assert (e' = e) as -> by congruence. lia. }
      destruct (bool_decide_reflect (Some e = Some test)) as [[= ->]|Hne]; cbn [andb].
      * destruct (Z.eqb_spec (target_offset obj (alloc_start info)) 0) as [H0|H0].
        { rewrite H0. assert (Hse := FirstElement st1 info obj test (conj Harr (conj He H0))).
          apply (is_a_finish st1 info obj test site _ _ _ a Hs1 Hsm Hse Ha Hsz); eauto. }
        destruct Hsearch as (st2 & u & -> & Hse); [done|by intros (_ & _ & ?)|].
        apply (is_a_finish st1 info obj test site _ _ _ a Hs1 Hsm Hse Ha Hsz); eauto.
      * destruct Hsearch as (st2 & u & -> & Hse); [done|intros (_ & ? & _); congruence|].
        apply (is_a_finish st1 info obj test site _ _ _ a Hs1 Hsm Hse Ha Hsz); eauto.
    + assert (~ too_small info test) as Hsm by (intros [? _]; congruence).
      destruct Hsearch as (st2 & u & -> & Hse); [done|intros [? _]; congruence|].
      apply (is_a_finish st1 info obj test site _ _ _ a Hs1 Hsm Hse Ha Hsz); eauto.
  - assert (~ too_small info test) as Hsm by (intros (_ & e' & ? & _); congruence).
    destruct Hsearch as (st2 & u & -> & Hse); [done|intros (_ & ? & _); congruence|].
    apply (is_a_finish st1 info obj test site _ _ _ a Hs1 Hsm Hse Ha Hsz); eauto.
Qed.

(** C25. What [__is_a] decides, and that it ends, given four conditions: no
    suppressions are loaded, liballocs knows the object and its allocator, the
    test type has a size other than zero (retyping divides by it), and, if the
    allocator can retype, the insert that the retyping asserts is there
    whenever the search ends.  Then the check returns, and it passes exactly
    when the object is the first element of an array of the test type or the
    subobject search finds the test type at its offset; only then, and when an
    allocation of unspecific type is retyped as an array of the test type, is
    a range remembered in the cache.  Arrays whose elements are smaller than
    the test type fail without a search and are never retyped, whatever their
    elements are. *)
Theorem is_a_decides `{L : Liballocs} {LL : LiballocsLaws L} (W : wf_types)
    (st st1 : runtime) obj test site info a :
  unsuppressed st -> do_query st obj = (st1, Some info) ->
  alloc_a info = Some a -> pos_maxoff test <> 0 ->
  (set_type a <> None -> forall st' u m, is_a_search st1 info obj test st' u m ->
     get_insert (lib st') obj <> None) ->
  exists st', is_a_internal st obj test site = Ret (1, st') /\ is_a_end st1 info obj test site st'.
Proof. by apply is_a_decided. Qed.

Section can_hold.
Context `{L : Liballocs} {LL : LiballocsLaws L}.
Implicit Types (st : runtime) (t u : option uniqtype).

(** The types the walk presents, with their offsets: the whole allocation, then
    the subobjects that span the offset pointed to. *)
Definition presented t (off : Z) (s : option uniqtype) (o : Z) : Prop :=
  (s = t /\ o = 0) \/
  exists v, v ∈ subobjects_spanning off t /\ s = Some (spans v) /\ o = span_start_offset v.

Definition degree_at_least t (d : Z) : Prop :=
  exists D ult, pointer_degree_and_ultimate_pointee_type t = Ret (D, ult) /\ d <= D.

(** A value at offset [off] of an object of type [vu] may be stored in a pointer
    of type [stored_to]: through a generic pointer of degree [D], if something
    presented at offset 0 is a pointer of degree [D - 1] at least; otherwise if
    the pointee type is presented at that very offset. *)
Definition storable_in (generic : bool) (D : Z) stored_to (off : Z) vu : Prop :=
  exists s o, presented vu off s o /\
    if generic then o = 0 /\ degree_at_least s (D - 1)
    else o = off /\ s = pointee_type stored_to.

Lemma walk_matches_spec (cb : option uniqtype -> Z -> outcome bool) (P : option uniqtype -> Z -> Prop) vs :
  (forall s o, exists b, cb s o = Ret b /\ (b = true <-> P s o)) ->
  exists b, walk_matches cb vs = Ret b /\
    (b = true <-> exists v, v ∈ vs /\ P (Some (spans v)) (span_start_offset v)).
Proof.
  intros Hcb. induction vs as [|v vs (b & IH & Hb)]; cbn [walk_matches].
  { exists false. split; [done|]. split; [done|]. intros (v & Hv & _). by apply elem_of_nil in Hv. }
  destruct (Hcb (Some (spans v)) (span_start_offset v)) as (b1 & -> & Hb1). cbn [mbind outcome_bind].
  destruct b1.
  - exists true. split; [done|]. split; [|done]. intros _. exists v. split; [left|by apply Hb1].
  - exists b. split; [done|]. rewrite Hb. split.
    + intros (v' & Hv' & HP). exists v'. split; [by right|done].
    + intros (v' & [->|Hv']%elem_of_cons & HP); [by apply Hb1 in HP|by exists v'].
Qed.

Lemma callbacks_spec (W : wf_types) (generic : bool) D ult stored_to off s o :
  pointer_degree_and_ultimate_pointee_type stored_to = Ret (D, ult) -> 1 <= D ->
  exists b, (if generic then match_pointer_subobj_generic_cb else match_pointer_subobj_strict_cb)
              stored_to off s o = Ret b /\
    (b = true <-> if generic then o = 0 /\ degree_at_least s (D - 1)
                  else o = off /\ s = pointee_type stored_to).
Proof.
  intros HD H1. destruct generic.
  - unfold match_pointer_subobj_generic_cb, pointer_degree. rewrite HD. cbn [mbind outcome_bind].
    destruct (Z.eqb_spec o 0) as [->|Ho]; [|exists false; split; [done|]; split; [done|tauto]].
    destruct (degree_and_pointee_total (pointer_rank s) s 0) as [[Ds us] Hs]; [done|].
    unfold pointer_has_degree. rewrite (has_degree_nat W _ _ _ _ _ Hs), Z2Nat.id by lia.
    eexists. split; [done|]. rewrite bool_decide_eq_true. unfold degree_at_least. split.
    + intros Hle. split; [done|]. by exists Ds, us.
    + intros (_ & D' & u' & Hs' & Hle). unfold pointer_degree_and_ultimate_pointee_type in Hs'.
      by assert (D' = Ds) as -> by congruence.
  - unfold match_pointer_subobj_strict_cb. eexists. split; [done|].
    rewrite andb_true_iff, Z.eqb_eq, bool_decide_eq_true. by rewrite (eq_comm s).
Qed.

(** The two tests of the value, of the whole allocation and along the walk. *)
Lemma value_matches (W : wf_types) (generic : bool) D ult stored_to off vu :
  pointer_degree_and_ultimate_pointee_type stored_to = Ret (D, ult) -> 1 <= D ->
  let cb := (if generic then match_pointer_subobj_generic_cb else match_pointer_subobj_strict_cb)
              stored_to off in
  exists b, (ret ← cb vu 0;
             if (ret : bool) then Ret true else walk_matches cb (subobjects_spanning off vu)) = Ret b /\
    (b = true <-> storable_in generic D stored_to off vu).
Proof.
  intros HD H1 cb.
  pose proof (fun s o => callbacks_spec W generic D ult stored_to off s o HD H1) as Hcb. fold cb in Hcb.
  destruct (Hcb vu 0) as (b0 & -> & Hb0). cbn [mbind outcome_bind]. destruct b0.
  { exists true. split; [done|]. split; [|done]. intros _. exists vu, 0.
    split; [by left|by apply Hb0]. }
  destruct (walk_matches_spec cb _ (subobjects_spanning off vu) Hcb) as (b & -> & Hb).
  exists b. split; [done|]. rewrite Hb. split.
  - intros (v & Hv & HP). exists (Some (spans v)), (span_start_offset v).
    split; [right; by exists v|done].
  - intros (s & o & [[-> ->]|(v & Hv & -> & ->)] & HP); [by apply Hb0 in HP|by exists v].
Qed.
End can_hold.


(** ** Witnesses, on the small liballocs *)
Definition queried (st : @runtime tiny) (obj : Z) : @runtime tiny := (do_query st obj).1.

(** The second member of the first structure at 0x1000 is a [float]. *)
Lemma is_a_decides_witness :
  exists st' info, (do_query (L := tiny) tiny_runtime 0x1004).2 = Some info /\
    is_a_internal (L := tiny) tiny_runtime 0x1004 TFloat 1 = Ret (1, st') /\
    is_a_end (L := tiny) (queried tiny_runtime 0x1004) info 0x1004 TFloat 1 st'.
Proof.
  assert (do_query (L := tiny) tiny_runtime 0x1004 = (queried tiny_runtime 0x1004,
    Some (AllocInfo (Some Stack) 0x1000 16 (Some (TArr 2 (TPair TInt 4 TFloat))) 0))) as Hq
    by reflexivity.
  destruct (is_a_decides (L := tiny) tiny_wf tiny_runtime (queried tiny_runtime 0x1004)
    0x1004 TFloat 1 _ Stack eq_refl Hq eq_refl) as (st' & Hr & He).
  - cbn. lia.
  - intros Hs. destruct (Hs eq_refl).
  - eexists st', _. split; [exact (f_equal snd Hq)|]. split; [exact Hr|exact He].
Defined.

