(* ===== verification/Fetch.v ===== *)
(** * Fetching bounds

    Where bounds come from when they are not at hand: the memory-range caches
    ([__fetch_bounds_from_cache], inlined), liballocs' allocation and type
    information ([__fetch_bounds_internal]), or the symbol tables
    ([__fetch_bounds_ool_via_dladdr]); and the entry points of
    [src/libcrunch.c] that report bounds errors and store pointers through
    [void **].  The file implements the interfaces [DeriveEnv], [ShadowEnv] and
    [StackEnv] of the inlined checks with the runtime state. *)
From S2P Require Import Prelude Config TrapPtr Bounds Derive Memory ShadowSpace BoundsStack Report.
From S2P Require Import Runtime TinyAllocs TypeChecks.

(** ** The walk over subobjects *)
Record bounds_cb_arg (T : Type) := BoundsCbArg {
  passed_in_t : T;
  cb_target_offset : Z;
  cb_success : bool;
  matched_t : option T;
  innermost_containing_array_t : option T;
  innermost_containing_array_type_span_start_offset : Z;
  outermost_containing_array_t : option T;
  outermost_containing_array_type_span_start_offset : Z;
  accum_array_bounds : Z;
}.
Arguments BoundsCbArg {T}. Arguments passed_in_t {T}. Arguments cb_target_offset {T}.
Arguments cb_success {T}. Arguments matched_t {T}. Arguments innermost_containing_array_t {T}.
Arguments innermost_containing_array_type_span_start_offset {T}.
Arguments outermost_containing_array_t {T}.
Arguments outermost_containing_array_type_span_start_offset {T}.
Arguments accum_array_bounds {T}.

Section fetch.
Context `{C : Config} `{L : Liballocs}.
Implicit Types (st : runtime) (t : option uniqtype).

Definition note_containing (v : visit uniqtype) (arg : bounds_cb_arg uniqtype) : bounds_cb_arg uniqtype :=
  let c := containing v in
  let n := array_length (Some c) in
  if is_array_type (Some c) then
    match outermost_containing_array_t arg with
    | None =>
        BoundsCbArg (passed_in_t arg) (cb_target_offset arg) (cb_success arg) (matched_t arg)
          (Some c) (containing_span_start_offset v)
          (Some c) (containing_span_start_offset v)
          (if wrap64 n <? 1 then 0 else wrap64 n)
    | Some _ =>
        BoundsCbArg (passed_in_t arg) (cb_target_offset arg) (cb_success arg) (matched_t arg)
          (Some c) (containing_span_start_offset v)
          (outermost_containing_array_t arg)
          (outermost_containing_array_type_span_start_offset arg)
          (wrap64 (accum_array_bounds arg * n))
    end
  else
    BoundsCbArg (passed_in_t arg) (cb_target_offset arg) (cb_success arg) (matched_t arg)
      None 0 None 0 0.

Definition with_success (m : option uniqtype) (arg : bounds_cb_arg uniqtype) : bounds_cb_arg uniqtype :=
  BoundsCbArg (passed_in_t arg) (cb_target_offset arg) true m
    (innermost_containing_array_t arg) (innermost_containing_array_type_span_start_offset arg)
    (outermost_containing_array_t arg) (outermost_containing_array_type_span_start_offset arg)
    (accum_array_bounds arg).

Definition bounds_cb (v : visit uniqtype) (arg : bounds_cb_arg uniqtype)
    : Z * bounds_cb_arg uniqtype :=
  let arg := note_containing v arg in
  if span_start_offset v <? cb_target_offset arg then (0, arg)
  else if cb_target_offset arg <? span_start_offset v then (1, arg)
  else if pos_maxoff (spans v) <? pos_maxoff (passed_in_t arg)
  then (1, with_success (matched_t arg) arg)
  else if pos_maxoff (passed_in_t arg) <? pos_maxoff (spans v) then (0, arg)
  else (1, with_success (Some (spans v)) arg).

(** ** [__fetch_bounds_internal]

    The length of an array and the size of a type are [unsigned] (or narrower)
    members of [struct uniqtype], so that their product has 32 bits. *)

(** [out] and [abort_returning_max_bounds]: bounds for want of knowledge. *)
Definition return_max_bounds st (obj derived : Z) t : runtime * bounds :=
  let sz := match t with Some t => pos_maxoff t | None => 0 end in
  let period := match t with Some t => pos_maxoff t | None => 1 end in
  (cache_fake_bounds st (Z.min obj derived) (Z.max obj derived +w sz) t 1 period 0,
   libcrunch_max_bounds obj).

Definition return_min_bounds st (a : option allocator) (obj alloc_start : Z) : runtime * bounds :=
  (if cacheable a then cache_bounds st obj (obj +w 1) None 1 alloc_start else st,
   make_bounds obj (obj +w 1)).

Definition return_alloc_bounds st (a : option allocator) (obj derived start size : Z) t u
    : runtime * bounds :=
  let limit := start +w size in
  if limit -w start <? obj -w start then return_max_bounds st obj derived t
  else
    (if cacheable a
     then cache_bounds st start limit u (match u with Some u => pos_maxoff u | None => 1 end) start
     else st,
     make_bounds start limit).

Definition fetch_bounds_internal st (obj derived : Z) t : outcome (runtime * bounds) :=
  (* the jump to [return_min_bounds] reads the allocator before it is set *)
  if obj =? 0 then Unreachable
  else match do_query st obj with
  | (st, None) => Ret (return_max_bounds st obj derived t)
  | (st, Some info) =>
      let a := alloc_a info in
      let start := alloc_start info in
      let size := alloc_size_bytes info in
      '(st, u) ← do_array_precisify st (alloc_uniqtype info) start size a;
      let off := target_offset obj start in
      let u := if negb (start =? 0) && negb (size =? 0) && bool_decide (u = None)
               then uniqtype_signed_char else u in
      if bool_decide (t = uniqtype_signed_char) || bool_decide (t = uniqtype_unsigned_char)
      then Ret (return_alloc_bounds st a obj derived start size t u)
      else match t with
      | None => Unreachable
      | Some ty =>
          if pos_maxoff ty =? UNIQTYPE_POS_MAXOFF_UNBOUNDED
          then Ret (return_min_bounds st a obj start)
          else
            let '(_, arg) :=
              walk_subobjects bounds_cb (subobjects_spanning off u)
                (BoundsCbArg ty off false None None 0 None 0 0) in
            if cb_success arg then
              match innermost_containing_array_t arg with
              | Some arr =>
                  let lower := start +w innermost_containing_array_type_span_start_offset arg in
                  let upper :=
                    if negb (has_known_length (Some arr)) then start +w size
                    else start +w innermost_containing_array_type_span_start_offset arg
                         +w wrap32 (array_length (Some arr) * pos_maxoff ty) in
                  match array_element_type (Some arr) with
                  | None => Unreachable
                  | Some e =>
                      Ret (if cacheable a then cache_bounds st lower upper t (pos_maxoff e) start
                           else st, make_bounds lower upper)
                  end
              | None =>
                  let limit := obj +w (if 0 <? pos_maxoff ty then pos_maxoff ty else 1) in
                  match u with
                  | None => if cacheable a then Unreachable else Ret (st, make_bounds obj limit)
                  | Some u =>
                      Ret (if cacheable a then cache_bounds st obj limit t (pos_maxoff u) start
                           else st, make_bounds obj limit)
                  end
              end
            else Ret (return_min_bounds st a obj start)
      end
  end.

(** ** The caches *)
Definition fetch_bounds_from_cache st (ptr derived_ptr_maybetrapped t_sz : Z) : runtime * bounds :=
  let testptr :=
    if libcrunch_ptr_trap_bits ptr =? LIBCRUNCH_TRAP_ONE_PAST
    then libcrunch_untrap ptr LIBCRUNCH_TRAP_ONE_PAST -w t_sz else ptr in
  let derived := libcrunch_detrap derived_ptr_maybetrapped in
  let '(c, hit) := cache_lookup_notype (ool_cache st) testptr t_sz in
  let st := set_ool_cache c st in
  match hit with
  | Some hit => (st, make_bounds (obj_base hit) (obj_limit hit))
  | None =>
      let '(c, hit) := cache_lookup_notype (fake_bounds_cache st) testptr t_sz in
      let st := set_fake_bounds_cache c st in
      match hit with
      | Some hit =>
          let limit_from_derived :=
            derived +w match entry_uniqtype hit with Some u => pos_maxoff u | None => 1 end in
          (if obj_limit hit <? limit_from_derived
           then set_fake_bounds_cache (cache_set_limit (fake_bounds_cache st) hit limit_from_derived) st
           else st,
           libcrunch_max_bounds derived)
      | None => (st, libcrunch_make_invalid_bounds ptr)
      end
  end.

Definition fetch_bounds_ool_rt st (ptr derived_ptr : Z) t : outcome (runtime * bounds) :=
  let st := inc fetch_bounds_called st in
  match t with
  | None => Unreachable
  | Some ty =>
      let one_before p :=
        if libcrunch_ptr_trap_bits p =? LIBCRUNCH_TRAP_ONE_PAST
        then libcrunch_detrap (p -w pos_maxoff ty) else p in
      let ptr := one_before ptr in
      let derived_ptr := one_before derived_ptr in
      let '(st, from_cache) := fetch_bounds_from_cache st ptr derived_ptr (pos_maxoff ty) in
      if negb (libcrunch_bounds_invalid from_cache ptr) then Ret (st, from_cache)
      else fetch_bounds_internal (inc fetch_bounds_missed_cache st) ptr derived_ptr t
  end.

Definition fetch_bounds_ool_via_dladdr (ptr : Z) : bounds :=
  if ptr =? 0 then make_bounds 0 1
  else match static_symbol ptr with
  | Some (b, sz) => make_bounds b (b +w sz)
  | None => libcrunch_make_invalid_bounds ptr
  end.

Definition ensure_bounds_in_cache st (ptr : Z) (ptr_bounds : bounds) t : outcome runtime :=
  if libcrunch_bounds_invalid ptr_bounds ptr then Ret st
  else if libcrunch_get_limit ptr_bounds ptr =? minus_one then Ret st
  else match t with
  | None => Unreachable
  | Some ty =>
      let '(st, from_cache) := fetch_bounds_from_cache st ptr ptr (pos_maxoff ty) in
      Ret (if libcrunch_bounds_invalid from_cache ptr
           then cache_bounds st (libcrunch_get_base ptr_bounds ptr) (libcrunch_get_limit ptr_bounds ptr)
                  t 1 0
           else st)
  end.

(** ** Errors *)
Definition bounds_error_at st (derived derivedfrom : Z) (B : bounds) (addr : Z) : outcome runtime :=
  st ← report st addr DERIVED_PTR_VALID None None None;
  Ret (inc created_invalid_pointer st).
Definition libcrunch_soft_deref_error_at st (ptr : Z) (B : bounds) (addr : Z) : outcome runtime :=
  report st addr DEREFED_PTR_VALID None None None.
End fetch.

(** ** The interfaces of the inlined checks

    The state of a process is the runtime's, and whether it has been stopped by
    a failing report.  [site] is the return address of the inlined check.  The
    inlined code is compiled in the program's configuration, what it calls in
    the library in the library's. *)
Record process `{Liballocs} := Process { rt : runtime; stopped : bool }.

Section process.
Context `{C : Config} `{L : Liballocs} (site : Z).

Definition on_rt (f : runtime -> runtime) (p : process) : process := Process _ (f (rt p)) (stopped p).
Definition or_stop (p : process) (o : outcome runtime) : process :=
  match o with Ret st => Process _ st (stopped p) | _ => Process _ (rt p) true end.
Definition resume (p : process) (o : outcome (runtime * bounds)) : outcome (process * bounds) :=
  '(st, B) ← o; Ret (Process _ st (stopped p), B).

#[export] Instance rt_derive : DeriveEnv process (option uniqtype) := {|
  count_ptr_derivation := on_rt (inc ptr_derivations);
  count_ptr_deref := on_rt (inc ptr_derefs);
  count_transition := on_rt (inc primary_secondary_transitions);
  Derive.bounds_error p d df B := or_stop p (bounds_error_at (rt p) d df B site);
  soft_deref_error_at p ptr B := or_stop p (libcrunch_soft_deref_error_at (rt p) ptr B site);
  fetch_bounds_ool_to_use p ptr derived t :=
    if no_pointer_type_info then Ret (p, fetch_bounds_ool_via_dladdr (C := config_libcrunch) ptr)
    else resume p (fetch_bounds_ool_rt (C := config_libcrunch) (rt p) ptr derived t);
|}.
#[export] Instance rt_shadow : ShadowEnv process uniqtype := {|
  st_mem p := rt_mem (rt p);
  set_mem m := on_rt (set_rt_mem m);
  count_ptr_store := on_rt (inc ptr_stores);
  fetch_bounds_ool p ptr derived t := resume p (fetch_bounds_ool_rt (C := config_libcrunch) (rt p) ptr derived t);
|}.
#[export] Instance rt_stack : StackEnv process uniqtype := {|
  bounds_sp p := rt_bounds_sp (rt p);
  set_bounds_sp v := on_rt (set_rt_bounds_sp v);
|}.
#[export] Instance rt_shadow_laws : ShadowEnvLaws process uniqtype.
Proof. by split. Qed.
#[export] Instance rt_stack_laws : StackEnvLaws process uniqtype.
Proof. by split. Qed.

(** [__store_pointer_nonlocal_via_voidptrptr] *)
Definition store_pointer_nonlocal_via_voidptrptr (p : process) (dest srcval : Z)
    (val_bounds : bounds) (static_guessed : option uniqtype) : outcome process :=
  let p := if keep_expensive_counts then on_rt (inc ptr_stores) p else p in
  if no_shadow_space then Ret p
  else
    let cached_object_type_of addr (p : process) :=
      let '(c, t) := cached_object_type (ool_cache (rt p)) addr in
      (on_rt (set_ool_cache c) p, t) in
    let '(p, toplevel) := cached_object_type_of dest p in
    target ←
      (if bool_decide (toplevel = None) then Ret None
       else
         '(_, u) ← descend_to_leaf (S (type_depth toplevel)) 0 toplevel;
         Ret (if is_pointer_type u then u else None));
    if bool_decide (target = None) then
      let B := libcrunch_make_invalid_bounds srcval in
      Ret (set_mem (shadow_store_bounds_for (st_mem p) dest B false) p)
    else
      let '(p, guess) :=
        if bool_decide (static_guessed = None) then cached_object_type_of srcval p
        else (p, static_guessed) in
      let pointee := pointee_type target in
      if bool_decide (guess = None) || bool_decide (pointee = uniqtype_void)
         || bool_decide (pointee = uniqtype_signed_char)
         || bool_decide (pointee = uniqtype_unsigned_char) || bool_decide (pointee = guess)
      then store_pointer_nonlocal p dest srcval val_bounds pointee
      else Abort.
End process.

(** ** The walk, as a search *)
Section search.
Context `{L : Liballocs}.

(** The subobject the walk settles on: the first one at the target offset that
    is no larger than the pointer's target, before any that overshoots. *)
Fixpoint selected (vs : list (visit uniqtype)) (target sz : Z) : option (visit uniqtype) :=
  match vs with
  | [] => None
  | v :: vs =>
      if span_start_offset v <? target then selected vs target sz
      else if target <? span_start_offset v then None
      else if sz <? pos_maxoff (spans v) then selected vs target sz
      else Some v
  end.

Lemma note_containing_keeps v arg :
  passed_in_t (note_containing v arg) = passed_in_t arg /\
  cb_target_offset (note_containing v arg) = cb_target_offset arg /\
  cb_success (note_containing v arg) = cb_success arg /\
  innermost_containing_array_t (note_containing v arg)
    = (if is_array_type (Some (containing v)) then Some (containing v) else None) /\
  innermost_containing_array_type_span_start_offset (note_containing v arg)
    = (if is_array_type (Some (containing v)) then containing_span_start_offset v else 0).
Proof.
  unfold note_containing. destruct (is_array_type _); [|done].
  by destruct (outermost_containing_array_t arg).
Qed.

Lemma walk_bounds_cb vs arg :
  cb_success arg = false ->
  let arg' := (walk_subobjects bounds_cb vs arg).2 in
  match selected vs (cb_target_offset arg) (pos_maxoff (passed_in_t arg)) with
  | Some v =>
      cb_success arg' = true /\
      innermost_containing_array_t arg'
        = (if is_array_type (Some (containing v)) then Some (containing v) else None) /\
      innermost_containing_array_type_span_start_offset arg'
        = (if is_array_type (Some (containing v)) then containing_span_start_offset v else 0)
  | None => cb_success arg' = false
  end.
Proof.
  cbn zeta. revert arg. induction vs as [|v vs IH]; intros arg Hs; [done|].
  cbn [walk_subobjects selected].
  destruct (note_containing_keeps v arg) as (Ht & Ho & Hsu & Hi & Hio).
  pose proof (IH (note_containing v arg) ltac:(congruence)) as IH'. rewrite Ho, Ht in IH'. clear IH.
  destruct (bounds_cb v arg) as [ret arg1] eqn:Hcb. unfold bounds_cb in Hcb. rewrite Ho, Ht in Hcb.
  destruct (span_start_offset v <? cb_target_offset arg); [by injection Hcb as <- <-|].
  destruct (cb_target_offset arg <? span_start_offset v); [injection Hcb as <- <-; cbn; congruence|].
  destruct (Z.ltb_spec (pos_maxoff (spans v)) (pos_maxoff (passed_in_t arg)));
    destruct (Z.ltb_spec (pos_maxoff (passed_in_t arg)) (pos_maxoff (spans v)));
    try lia; injection Hcb as <- <-; [cbn; tauto|exact IH'|cbn; tauto].
Qed.

(** The bounds fetched for a pointer [obj] into an allocation, in unbounded
    arithmetic, when the walk settles on [v]. *)
Definition expected_bounds (start size obj : Z) (ty : uniqtype) (v : option (visit uniqtype)) : Z * Z :=
  match v with
  | None => (obj, obj + 1)
  | Some v =>
      if is_array_type (Some (containing v)) then
        let lo := start + containing_span_start_offset v in
        (lo, if has_known_length (Some (containing v))
             then lo + array_length (Some (containing v)) * pos_maxoff ty
             else start + size)
      else (obj, obj + Z.max 1 (pos_maxoff ty))
  end.

(** What liballocs promises of a visit to a subobject of an allocation of [size]
    bytes: it lies in it; an array that contains it is an array of it, in which
    it is one of the elements; an array of known length lies in the allocation
    too. *)
Definition wf_visit (size : Z) (v : visit uniqtype) : Prop :=
  0 <= span_start_offset v /\ 0 < pos_maxoff (spans v) /\
  span_start_offset v + pos_maxoff (spans v) <= size /\
  0 <= containing_span_start_offset v <= span_start_offset v /\
  (is_array_type (Some (containing v)) = true ->
     array_element_type (Some (containing v)) = Some (spans v) /\
     (has_known_length (Some (containing v)) = true ->
        span_start_offset v + pos_maxoff (spans v)
          <= containing_span_start_offset v
             + array_length (Some (containing v)) * pos_maxoff (spans v) <= size)).

Lemma selected_at vs target sz v :
  selected vs target sz = Some v ->
  In v vs /\ span_start_offset v = target /\ pos_maxoff (spans v) <= sz.
Proof.
  induction vs as [|w vs IH]; [done|]. cbn [selected].
  destruct (Z.ltb_spec (span_start_offset w) target); [intros H'; destruct (IH H'); split; [by right|done]|].
  destruct (Z.ltb_spec target (span_start_offset w)); [done|].
  destruct (Z.ltb_spec sz (pos_maxoff (spans w))); [intros H'; destruct (IH H'); split; [by right|done]|].
  intros [= <-]. split; [by left|lia].
Qed.
End search.

(** A query that finds an allocation of settled type, and a pointer whose
    target type asks for the walk. *)
Section spec.
Context `{C : Config} `{WB : !WideBounds C} `{L : Liballocs}.
Context (st : runtime) (obj derived : Z) (ty : uniqtype).
Context (info : alloc_info uniqtype allocator) (u : uniqtype).

Record typed_query : Prop := {
  query_knows : (get_alloc_info (lib st) obj).2 = Some info;
  query_type : alloc_uniqtype info = Some u;
  query_precise : make_precise u = None;
  query_start : 0 < alloc_start info;
  query_in : alloc_start info <= obj < alloc_start info + alloc_size_bytes info;
  query_small : alloc_size_bytes info < 2 ^ 32;
  query_user : alloc_start info + alloc_size_bytes info + 2 ^ 32 < 2 ^ 64;
  query_not_char : uniqtype_signed_char <> Some ty /\ uniqtype_unsigned_char <> Some ty;
  query_complete : pos_maxoff ty <> UNIQTYPE_POS_MAXOFF_UNBOUNDED;
  query_sized : 0 <= pos_maxoff ty < 2 ^ 32;
}.
Context (Q : typed_query).

Let vs := subobjects_spanning (obj - alloc_start info) (Some u).
Let v := selected vs (obj - alloc_start info) (pos_maxoff ty).

Lemma fetch_walk :
  (forall w, In w vs -> wf_visit (alloc_size_bytes info) w) ->
  (forall w, v = Some w -> is_array_type (Some (containing w)) = true ->
     has_known_length (Some (containing w)) = true ->
     array_length (Some (containing w)) * pos_maxoff ty < 2 ^ 32) ->
  exists st', fetch_bounds_internal st obj derived (Some ty) =
    Ret (st', let '(lo, hi) := expected_bounds (alloc_start info) (alloc_size_bytes info) obj ty v in
              Bounds lo (hi - lo)).
Proof using WB Q.
  destruct Q. intros Hwf Hlen. unfold fetch_bounds_internal, do_query.
  rewrite (proj2 (Z.eqb_neq obj 0)) by lia.
  destruct (get_alloc_info (lib st) obj) as [l o]. cbn [snd] in query_knows0. subst o.
  rewrite query_type0. unfold do_array_precisify. rewrite query_precise0. cbn [mbind outcome_bind].
  rewrite (proj2 (bool_decide_eq_false (Some u = None))) by done. rewrite andb_false_r.
  rewrite !bool_decide_false by (destruct query_not_char0; congruence). cbn [orb].
  rewrite (proj2 (Z.eqb_neq _ _) query_complete0).
  replace (target_offset obj (alloc_start info)) with (obj - alloc_start info)
    by (unfold target_offset; rewrite wrap32_small; [done|unfold u32; lia]).
  fold vs. destruct (walk_subobjects bounds_cb vs _) as [r arg'] eqn:Hw.
  pose proof (walk_bounds_cb vs (BoundsCbArg ty (obj - alloc_start info) false None None 0 None 0 0)
    eq_refl) as Hb.
  rewrite Hw in Hb. cbn [snd cb_target_offset passed_in_t] in Hb. fold v in Hb.
  destruct v as [w|] eqn:Hv.
  - destruct Hb as (-> & -> & ->). pose proof (selected_at _ _ _ _ Hv) as (Hin & Hoff & Hsz).
    destruct (Hwf w Hin) as (H0 & H1 & H2 & H3 & H4). cbn [expected_bounds].
    destruct (is_array_type (Some (containing w))) eqn:Ha.
    + destruct (H4 eq_refl) as [He Hk]. rewrite He. specialize (Hlen w eq_refl Ha).
      assert (Hlo : alloc_start info +w containing_span_start_offset w
                    = alloc_start info + containing_span_start_offset w)
        by (unfold add64; rewrite wrap64_small; [done|unfold u64; lia]).
      rewrite Hlo. eexists. f_equal. f_equal.
      destruct (has_known_length (Some (containing w))); cbn [negb].
      * specialize (Hk eq_refl). specialize (Hlen eq_refl).
        assert (0 <= array_length (Some (containing w)) * pos_maxoff ty) by nia.
        rewrite wrap32_small by (unfold u32; lia). unfold add64. rewrite wrap64_small by (unfold u64; lia).
        rewrite make_bounds_wide by (unfold u64; lia). done.
      * unfold add64. rewrite wrap64_small by (unfold u64; lia).
        rewrite make_bounds_wide by (unfold u64; lia). done.
    + eexists. f_equal. f_equal. replace (if 0 <? pos_maxoff ty then pos_maxoff ty else 1)
        with (Z.max 1 (pos_maxoff ty)) by (zcases; lia).
      unfold add64. rewrite wrap64_small by (unfold u64; lia).
      rewrite make_bounds_wide by (unfold u64; lia). done.
  - rewrite Hb. unfold return_min_bounds. eexists. f_equal. f_equal. unfold add64. rewrite wrap64_small by (unfold u64; lia).
    by rewrite make_bounds_wide by (unfold u64; lia).
Qed.
End spec.

Section theorems.
Context `{C : Config} `{WB : !WideBounds C} `{L : Liballocs}.
Implicit Types (st : runtime).


(** C22. Fetched bounds are safe: when the walk finds a subobject of exactly the
    target's size, the bounds contain the object pointed to and lie within the
    allocation. *)
Theorem fetched_bounds_safe st obj derived ty info u w :
  typed_query st obj ty info u ->
  let off := obj - alloc_start info in
  let vs := subobjects_spanning off (Some u) in
  (forall w, In w vs -> wf_visit (alloc_size_bytes info) w) ->
  selected vs off (pos_maxoff ty) = Some w -> pos_maxoff (spans w) = pos_maxoff ty ->
  exists st' lo hi, fetch_bounds_internal st obj derived (Some ty) = Ret (st', Bounds lo (hi - lo)) /\
    alloc_start info <= lo <= obj /\ obj + pos_maxoff ty <= hi <= alloc_start info + alloc_size_bytes info.
Proof.
  intros Q off vs Hwf Hv Hsz. pose proof Q as []. subst off.
  destruct (selected_at _ _ _ _ Hv) as (Hin & Hoff & _).
  destruct (Hwf w Hin) as (H0 & H1 & H2 & H3 & H4).
  destruct (fetch_walk st obj derived ty info u Q Hwf) as [st' Hf].
  { fold vs. rewrite Hv. intros w' [= <-] Ha Hk. destruct (H4 Ha) as [_ Hb].
    specialize (Hb Hk). rewrite <- Hsz. lia. }
  fold vs in Hf. rewrite Hv in Hf. cbn [expected_bounds] in Hf. exists st'.
  destruct (is_array_type (Some (containing w))).
  - destruct (H4 eq_refl) as [_ Hk]. eexists _, _. split; [exact Hf|].
    destruct (has_known_length (Some (containing w))); [specialize (Hk eq_refl); nia|lia].
  - eexists _, _. split; [exact Hf|]. lia.
Qed.

(** When the walk stops at something smaller than the target ("prefixing"),
    the bounds are not just the pointee, as intended: if the smaller object is
    an element of an array, they are as many target objects as the array has
    elements, and reach beyond its end. *)
Theorem prefix_match_overruns st obj derived ty info u w :
  typed_query st obj ty info u ->
  let off := obj - alloc_start info in
  let vs := subobjects_spanning off (Some u) in
  let n := array_length (Some (containing w)) in
  (forall w, In w vs -> wf_visit (alloc_size_bytes info) w) ->
  selected vs off (pos_maxoff ty) = Some w -> pos_maxoff (spans w) < pos_maxoff ty ->
  is_array_type (Some (containing w)) = true -> has_known_length (Some (containing w)) = true ->
  n * pos_maxoff ty < 2 ^ 32 ->
  exists st' lo hi, fetch_bounds_internal st obj derived (Some ty) = Ret (st', Bounds lo (hi - lo)) /\
    lo = alloc_start info + containing_span_start_offset w /\
    lo + n * pos_maxoff (spans w) < hi.
Proof.
  intros Q off vs n Hwf Hv Hsz Ha Hk Hn. subst off.
  destruct (selected_at _ _ _ _ Hv) as (Hin & Hoff & _).
  destruct (Hwf w Hin) as (H0 & H1 & H2 & H3 & H4). destruct (H4 Ha) as [_ Hl]. specialize (Hl Hk).
  destruct (fetch_walk st obj derived ty info u Q Hwf) as [st' Hf].
  { fold vs. rewrite Hv. by intros w' [= <-]. }
  fold vs in Hf. rewrite Hv in Hf. cbn [expected_bounds] in Hf. rewrite Ha, Hk in Hf.
  eexists st', _, _. split; [exact Hf|]. split; [done|]. fold n in Hl |- *. nia.
Qed.

(** An allocation without a type is taken for one of characters. *)
Definition assumed_type (info : alloc_info uniqtype allocator) (u : option uniqtype) : option uniqtype :=
  if negb (alloc_start info =? 0) && negb (alloc_size_bytes info =? 0) && bool_decide (u = None)
  then uniqtype_signed_char else u.

(** What a query finds, with its precise type, and an array that the walk then
    visits. *)
Definition visited_array st obj (info : alloc_info uniqtype allocator) (v : visit uniqtype) : Prop :=
  exists st1 st2 u, do_query st obj = (st1, Some info) /\
    do_array_precisify st1 (alloc_uniqtype info) (alloc_start info) (alloc_size_bytes info) (alloc_a info) = Ret (st2, u) /\
    In v (subobjects_spanning (target_offset obj (alloc_start info)) (assumed_type info u)) /\
    is_array_type (Some (containing v)) = true.

(** Ranges are not empty: allocations; arrays of the target type, whose size in
    bytes is a product of 32 bits; and what is left of an allocation from the
    start of an array of unknown length. *)
Record nonempty_ranges (ty : uniqtype) : Prop := {
  allocs_nonempty : forall l o info, (get_alloc_info l o).2 = Some info ->
    0 < alloc_size_bytes info < 2 ^ 64;
  arrays_nonempty : forall st obj info v, visited_array st obj info v ->
    if has_known_length (Some (containing v))
    then 0 < wrap32 (array_length (Some (containing v)) * pos_maxoff ty)
    else 0 <= containing_span_start_offset v < alloc_size_bytes info;
  target_small : pos_maxoff ty < 2 ^ 64;
}.

Lemma make_bounds_valid b l p : 0 < (l - b) mod 2 ^ 64 -> libcrunch_bounds_invalid (make_bounds b l) p = false.
Proof using WB.
  intros Hl. unfold libcrunch_bounds_invalid, make_bounds, to_size. rewrite wide_word, wide_size.
  cbn [size]. apply Z.eqb_neq. unfold sub64, wrap64. lia.
Qed.
Lemma make_bounds_range_valid b k p : 0 < k < 2 ^ 64 -> libcrunch_bounds_invalid (make_bounds b (b +w k)) p = false.
Proof using WB.
  intros Hk. apply make_bounds_valid. unfold add64, wrap64.
  rewrite Zminus_mod_idemp_l. replace (b + k - b) with k by lia. rewrite Z.mod_small; lia.
Qed.
Lemma max_bounds_valid q p : libcrunch_bounds_invalid (libcrunch_max_bounds q) p = false.
Proof using WB. rewrite max_bounds_wide. reflexivity. Qed.

(** The array that the walk ends with is one that it visited, at its offset. *)
Definition noted (vs : list (visit uniqtype)) (arg : bounds_cb_arg uniqtype) : Prop :=
  forall arr, innermost_containing_array_t arg = Some arr ->
    exists v, In v vs /\ containing v = arr /\ is_array_type (Some arr) = true /\
      innermost_containing_array_type_span_start_offset arg = containing_span_start_offset v.
Lemma bounds_cb_noted vs v arg ret arg' : In v vs -> bounds_cb v arg = (ret, arg') -> noted vs arg'.
Proof.
  intros Hv Hcb arr. destruct (note_containing_keeps v arg) as (_ & _ & _ & Hi & Ho).
  assert (innermost_containing_array_t arg' = innermost_containing_array_t (note_containing v arg) /\
    innermost_containing_array_type_span_start_offset arg'
      = innermost_containing_array_type_span_start_offset (note_containing v arg)) as [-> ->].
  { unfold bounds_cb in Hcb. repeat case_match; injection Hcb as <- <-; done. }
  rewrite Hi, Ho. destruct (is_array_type (Some (containing v))) eqn:Ha; [|done].
  intros [= <-]. by exists v.
Qed.
Lemma walk_noted vs arg : noted vs arg -> noted vs (walk_subobjects bounds_cb vs arg).2.
Proof.
  assert (forall l arg0, incl l vs -> noted vs arg0 -> noted vs (walk_subobjects bounds_cb l arg0).2) as Hgen.
  { induction l as [|v l IH]; intros arg0 Hl Ha; [done|]. cbn [walk_subobjects].
    destruct (bounds_cb v arg0) as [ret arg1] eqn:Hcb.
    assert (noted vs arg1) as H1 by (eapply bounds_cb_noted; [|exact Hcb]; apply Hl; by left).
    destruct (ret =? 0); [|done]. apply IH; [|done]. intros w Hw. apply Hl. by right. }
  apply Hgen, incl_refl.
Qed.

(** From the start of an array to the end of its allocation. *)
Lemma make_bounds_rest_valid b o n p :
  0 <= o < n -> n < 2 ^ 64 -> libcrunch_bounds_invalid (make_bounds (b +w o) (b +w n)) p = false.
Proof using WB.
  intros Ho Hn. apply make_bounds_valid. unfold add64, wrap64. rewrite <- Zminus_mod.
  replace (b + n - (b + o)) with (n - o) by lia. rewrite Z.mod_small; lia.
Qed.

Lemma fetch_internal_valid st obj derived ty st' B p :
  nonempty_ranges ty -> fetch_bounds_internal st obj derived (Some ty) = Ret (st', B) ->
  libcrunch_bounds_invalid B p = false.
Proof using WB.
  intros N. unfold fetch_bounds_internal. destruct (obj =? 0); [done|].
  destruct (do_query st obj) as [st1 o] eqn:Hq.
  destruct o as [info|]; [|intros [= _ <-]; apply max_bounds_valid].
  assert (0 < alloc_size_bytes info < 2 ^ 64) as Hsz.
  { apply do_query_counters in Hq as [_ Ho]. eapply (allocs_nonempty _ N). by rewrite <- Ho. }
  intros Hf. apply bind_Ret in Hf as ([st2 u] & Hp & Hf). cbn zeta in Hf.
  fold (assumed_type info u) in Hf. set (off := target_offset obj (alloc_start info)) in Hf.
  destruct (_ || bool_decide (Some ty = uniqtype_unsigned_char)).
  { injection Hf as Hf. unfold return_alloc_bounds in Hf. case_match; injection Hf as _ <-;
      [apply max_bounds_valid|by apply make_bounds_range_valid]. }
  assert (H1 : libcrunch_bounds_invalid (make_bounds obj (obj +w 1)) p = false)
    by (apply make_bounds_range_valid; lia).
  destruct (pos_maxoff ty =? _); [injection Hf as _ <-; exact H1|].
  pose proof (walk_noted (subobjects_spanning off (assumed_type info u))
    (BoundsCbArg ty off false None None 0 None 0 0) ltac:(done)) as Hnoted.
  destruct (walk_subobjects _ _ _) as [r arg'] eqn:Hw. cbn [snd] in Hnoted.
  destruct (cb_success arg'); [|injection Hf as _ <-; exact H1].
  destruct (innermost_containing_array_t arg') as [arr|] eqn:Harr.
  - destruct (Hnoted arr Harr) as (v & Hin & <- & Hav & Hov).
    assert (visited_array st obj info v) as Hv by (exists st1, st2, u; by repeat split).
    pose proof (arrays_nonempty _ N _ _ _ _ Hv) as Hne. revert Hne.
    destruct (array_element_type _); [|done]. injection Hf as _ <-. rewrite Hov.
    destruct (has_known_length _); cbn [negb]; intros Hne; [|apply make_bounds_rest_valid; lia].
    apply make_bounds_range_valid. pose proof (wrap32_u32 (array_length (Some (containing v)) * pos_maxoff ty)) as Hu.
    unfold u32 in Hu. lia.
  - assert (Hl : libcrunch_bounds_invalid
      (make_bounds obj (obj +w (if 0 <? pos_maxoff ty then pos_maxoff ty else 1))) p = false).
    { apply make_bounds_range_valid. pose proof (target_small _ N). zcases; lia. }
    destruct (assumed_type info u) as [u0|]; [|destruct (cacheable _); [done|]]; injection Hf as _ <-; exact Hl.
Qed.

(** C24. Bounds fetched out of line, of full width, are never invalid - which the inlined code
    takes for granted, telling the compiler that the contrary is unreachable -
    as long as the ranges involved are not empty: allocations have a size, of 64
    bits at most, as have types; what is left of an allocation from the start of
    an array of unknown length in it is not nothing; and the length of an array
    times the size of the target type is not zero in 32 bits. *)
Theorem fetch_bounds_ool_valid st ptr derived ty st' B p :
  nonempty_ranges ty -> fetch_bounds_ool_rt st ptr derived (Some ty) = Ret (st', B) ->
  libcrunch_bounds_invalid B p = false.
Proof.
  intros N. unfold fetch_bounds_ool_rt. cbn zeta.
  destruct (fetch_bounds_from_cache _ _ _ _) as [st1 B1].
  destruct (negb (libcrunch_bounds_invalid B1 _)) eqn:Hi.
  - intros [= _ <-]. by apply negb_true_iff in Hi.
  - by apply fetch_internal_valid.
Qed.

(** What a cache lookup returns: the range of the entry it hits; on a fake
    entry, bounds without limits, the entry growing to include the pointer that
    is being derived; otherwise invalid bounds. *)
Theorem fetch_from_cache_spec st ptr derived sz :
  libcrunch_ptr_trap_bits ptr <> LIBCRUNCH_TRAP_ONE_PAST ->
  let '(st', B) := fetch_bounds_from_cache st ptr derived sz in
  match (cache_lookup_notype (ool_cache st) ptr sz).2 with
  | Some e => B = make_bounds (obj_base e) (obj_limit e) /\ fake_bounds_cache st' = fake_bounds_cache st
  | None =>
      let '(c, hit) := cache_lookup_notype (fake_bounds_cache st) ptr sz in
      match hit with
      | Some e =>
          B = Bounds 0 (2 ^ 64 - 1) /\
          let limit := libcrunch_detrap derived
                       +w match entry_uniqtype e with Some u => pos_maxoff u | None => 1 end in
          fake_bounds_cache st' = (if obj_limit e <? limit then cache_set_limit c e limit else c)
      | None => B = Bounds ptr 0 /\ fake_bounds_cache st' = c
      end
  end.
Proof.
  intros Ht. unfold fetch_bounds_from_cache. rewrite (proj2 (Z.eqb_neq _ _) Ht).
  destruct (cache_lookup_notype (ool_cache st) ptr sz) as [c [e|]]; [done|]. cbn [snd].
  change (fake_bounds_cache (set_ool_cache c st)) with (fake_bounds_cache st).
  destruct (cache_lookup_notype (fake_bounds_cache st) ptr sz) as [c' [e|]].
  - rewrite max_bounds_wide. split; [done|]. by destruct (obj_limit e <? _).
  - split; [|done]. unfold libcrunch_make_invalid_bounds. by rewrite wide_word.
Qed.
End theorems.

Section process_theorems.
Context `{C : Config} `{WB : !WideBounds C} `{L : Liballocs} (site : Z).
Existing Instance rt_shadow.
Implicit Types (p : process).

(** In the configurations without type information bounds are fetched with
    [dladdr], which knows only static objects: a load of a pointer to anything
    else whose shadow entry is not valid runs into undefined behaviour, because
    the fetch returns invalid bounds after all. *)
Theorem dladdr_miss_unreachable p ptr derived loaded_from (t : uniqtype) :
  no_pointer_type_info = true -> no_shadow_space = false -> ptr <> 0 -> loaded_from <> 0 ->
  libcrunch_bounds_invalid (entry (rt_mem (rt p)) loaded_from) ptr = true ->
  static_symbol ptr = None ->
  fetch_bounds_full (St := process) (H0 := rt_shadow site) p ptr derived loaded_from (Some t) = Unreachable.
Proof.
  intros Hty Hns Hp Hl Hi Hs. unfold fetch_bounds_full.
  rewrite (proj2 (Z.eqb_neq ptr 0)) by done. cbn [st_mem rt_shadow]. rewrite fetch_entry by done.
  rewrite Hi. cbn [fetch_bounds_ool_to_use shadow_derive rt_shadow rt_derive]. rewrite Hty.
  cbn [mbind outcome_bind]. unfold fetch_bounds_ool_via_dladdr.
  rewrite (proj2 (Z.eqb_neq ptr 0)) by done. rewrite Hs.
  unfold libcrunch_make_invalid_bounds. by rewrite wide_word.
Qed.

(** Only real bounds enter the cache by [__ensure_bounds_in_cache]: invalid
    bounds and bounds without limit change nothing, and other bounds are added,
    as they are, exactly when the caches have none for the pointer. *)
Theorem ensure_bounds_in_cache_spec (st : runtime) ptr b l (t : uniqtype) :
  u64 b -> u64 l -> b <= l ->
  let B := Bounds b (l - b) in
  let '(st1, found) := fetch_bounds_from_cache st ptr ptr (pos_maxoff t) in
  ensure_bounds_in_cache st ptr B (Some t) =
    Ret (if (b =? l) || (l =? 2 ^ 64 - 1) then st
         else if libcrunch_bounds_invalid found ptr
         then set_ool_cache (cache_with_type (ool_cache st1) b l (Some t) (if b =? 0 then 0 else 1) 1 0) st1
         else st1).
Proof.
  intros Hb Hl Hle B. destruct (fetch_bounds_from_cache st ptr ptr (pos_maxoff t)) as [st1 found] eqn:Hf.
  unfold ensure_bounds_in_cache, libcrunch_bounds_invalid. rewrite Hf, get_limit_wide, get_base_wide.
  cbn [B size base]. replace (b +w (l - b)) with l.
  2:{ unfold add64. replace (b + (l - b)) with l by lia. by rewrite wrap64_small. }
  unfold minus_one. destruct (Z.eqb_spec b l) as [->|Hne].
  - rewrite Z.sub_diag. by cbn [Z.eqb orb].
  - rewrite (proj2 (Z.eqb_neq (l - b) 0)) by lia. cbn [orb].
    destruct (l =? 2 ^ 64 - 1); [done|]. destruct (size found =? 0); [|done].
    unfold cache_bounds. by change (1 mod 2 ^ 16) with 1.
Qed.

Lemma void_store_agrees (g q : option uniqtype) :
  bool_decide (g = None) || bool_decide (q = uniqtype_void) || bool_decide (q = uniqtype_signed_char)
    || bool_decide (q = uniqtype_unsigned_char) || bool_decide (q = g)
  = bool_decide (g = None \/ In q [uniqtype_void; uniqtype_signed_char; uniqtype_unsigned_char; g]).
Proof.
  apply eq_true_iff_eq. rewrite !orb_true_iff, !bool_decide_eq_true. cbn [In].
  split; intros Ha; repeat (destruct Ha as [Ha|Ha]); subst; auto 10; done.
Qed.

(** Storing through a [void **]: the cached type of the target storage
    decides.  If the cache does not know it, or it does not start with a
    pointer, the shadow entry of the slot is invalidated; if the storage holds
    generic pointers, or pointers of the guessed type, or there is no guess,
    the store is the ordinary one with the storage's pointer type; otherwise
    the program is aborted. *)
Theorem store_via_voidptrptr_spec p dest srcval B guess toplevel target :
  no_shadow_space = false -> keep_expensive_counts = false ->
  (forall c a, (cached_object_type c a).1 = c) ->
  (cached_object_type (ool_cache (rt p)) dest).2 = toplevel ->
  (toplevel = None /\ target = None \/
   exists off u, toplevel <> None /\
     descend_to_leaf (S (type_depth toplevel)) 0 toplevel = Ret (off, u) /\
     target = if is_pointer_type u then u else None) ->
  slot dest ->
  let guess' := match guess with
                | Some g => Some g | None => (cached_object_type (ool_cache (rt p)) srcval).2 end in
  (target = None ->
     exists p', store_pointer_nonlocal_via_voidptrptr site p dest srcval B guess = Ret p' /\
       libcrunch_bounds_invalid (entry (rt_mem (rt p')) dest) 0 = true) /\
  (target <> None ->
     store_pointer_nonlocal_via_voidptrptr site p dest srcval B guess =
       if bool_decide (guess' = None \/ In (pointee_type target)
            [uniqtype_void; uniqtype_signed_char; uniqtype_unsigned_char; guess'])
       then store_pointer_nonlocal (H0 := rt_shadow site) p dest srcval B (pointee_type target)
       else Abort).
Proof.
  intros Hns Hk Hc Htop Htarget Hd guess'. unfold store_pointer_nonlocal_via_voidptrptr.
  rewrite Hk, Hns. cbv zeta.
  assert (Hsame : forall a, (let '(c, t) := cached_object_type (ool_cache (rt p)) a in
    (on_rt (set_ool_cache c) p, t)) = (p, (cached_object_type (ool_cache (rt p)) a).2)).
  { intros a. pose proof (Hc (ool_cache (rt p)) a) as Hca.
    destruct (cached_object_type (ool_cache (rt p)) a) as [c t]. cbn in Hca. subst c.
    by destruct p as [[] ?]. }
  rewrite Hsame, Htop.
  assert (Htgt : (if bool_decide (toplevel = None) then Ret None
    else '(_, u) ← descend_to_leaf (S (type_depth toplevel)) 0 toplevel;
         Ret (if is_pointer_type u then u else None)) = Ret target).
  { destruct Htarget as [[-> ->]|(off & u & Hne & Hdl & ->)]; [done|].
    rewrite bool_decide_false by done. by rewrite Hdl. }
  rewrite Htgt. cbn [mbind outcome_bind]. clear Htgt Htarget. split; intros Ht.
  - subst target. rewrite bool_decide_true by done. eexists. split; [done|].
    cbn [st_mem set_mem rt_shadow on_rt set_rt_mem rt rt_mem].
    rewrite entry_store_same_untyped by done. unfold libcrunch_make_invalid_bounds. by rewrite wide_word.
  - rewrite (bool_decide_false (target = None)) by done. rewrite Hsame.
    assert (Hg : (if bool_decide (guess = None) then (p, (cached_object_type (ool_cache (rt p)) srcval).2)
                  else (p, guess)) = (p, guess')) by (unfold guess'; by destruct guess).
    rewrite Hg. by rewrite void_store_agrees.
Qed.
End process_theorems.

(** ** Witnesses, on the small liballocs *)
#[local] Instance ex_config : Config := config_p.
#[local] Instance ex_wide : WideBounds ex_config := split_wide.

Definition ex_info : alloc_info ty kind :=
  AllocInfo (Some Stack) 0x1000 16 (Some (TArr 2 (TPair TInt 4 TFloat))) 0.

Lemma tiny_query t : t <> TSChar -> t <> TUChar -> 0 <= ty_size t < 2 ^ 31 - 1 ->
  @typed_query tiny tiny_runtime 0x1008 t ex_info (TArr 2 (TPair TInt 4 TFloat)).
Proof.
  intros H1 H2 H3. split; try reflexivity; try (cbn; lia).
  - cbn. split; congruence.
Qed.

Lemma tiny_visits w :
  In w (@subobjects_spanning tiny (0x1008 - 0x1000) (Some (TArr 2 (TPair TInt 4 TFloat)))) ->
  @wf_visit tiny 16 w.
Proof.
  intros Hin. vm_compute in Hin. unfold wf_visit.
  destruct Hin as [<-|[<-|[]]]; cbn; split_and!; try lia; try done; intros _; split_and!; done || lia.
Qed.


Lemma fetched_bounds_safe_witness :
  exists st' lo hi, @fetch_bounds_internal ex_config tiny tiny_runtime 0x1008 0x1010 (Some (TPair TInt 4 TFloat))
    = Ret (st', Bounds lo (hi - lo)) /\ 0x1000 <= lo <= 0x1008 /\ 0x1008 + 8 <= hi <= 0x1000 + 16.
Proof.
  apply (fetched_bounds_safe (C := ex_config) (L := tiny) tiny_runtime 0x1008 0x1010
    (TPair TInt 4 TFloat) ex_info (TArr 2 (TPair TInt 4 TFloat))
    (Visit (TPair TInt 4 TFloat) 8 (TArr 2 (TPair TInt 4 TFloat)) 0)).
  - apply tiny_query; [discriminate|discriminate|cbn; lia].
  - exact tiny_visits.
  - reflexivity.
  - reflexivity.
Defined.

(** Asked for twelve-byte objects, the array of two eight-byte ones is 24 bytes
    long. *)
Lemma prefix_match_overruns_witness :
  exists st' lo hi, @fetch_bounds_internal ex_config tiny tiny_runtime 0x1008 0x1010 (Some (TPair TInt 8 TFloat))
    = Ret (st', Bounds lo (hi - lo)) /\ lo = 0x1000 /\ 0x1010 < hi.
Proof.
  destruct (prefix_match_overruns (C := ex_config) (L := tiny) tiny_runtime 0x1008 0x1010
    (TPair TInt 8 TFloat) ex_info (TArr 2 (TPair TInt 4 TFloat))
    (Visit (TPair TInt 4 TFloat) 8 (TArr 2 (TPair TInt 4 TFloat)) 0))
    as (st' & lo & hi & Hf & Hlo & Hhi).
  - apply tiny_query; [discriminate|discriminate|cbn; lia].
  - exact tiny_visits.
  - reflexivity.
  - reflexivity.
  - reflexivity.
  - reflexivity.
  - reflexivity.
  - exists st', lo, hi. split; [exact Hf|]. split; [exact Hlo|].
    assert (lo + 2 * 8 < hi) by exact Hhi. assert (lo = 0x1000) by exact Hlo. lia.
Defined.

Lemma tiny_spanning fuel off cum t cum_t v : In v (spanning fuel off cum t cum_t) ->
  @is_array_type tiny (Some (containing v)) = true ->
  exists n e, containing v = TArr n e /\ 0 < n < 2 ^ 30.
Proof.
  revert off cum t cum_t. induction fuel as [|fuel IH]; intros off cum t cum_t; [done|]. cbn [spanning].
  destruct (child t off) as [[[s start] inner]|] eqn:Hc; [|done].
  intros [<-|Hin]; [|by eapply IH]. cbn [containing]. intros Ha.
  destruct t as [| | | | | |t|n e|a o b|n r a0 a1|t]; try done. exists n, e. split; [done|].
  cbn in Hc. destruct (_ && (n <? _)) eqn:Hb; [|done].
  apply andb_true_iff in Hb as [[[H1%Z.ltb_lt H2%Z.leb_le]%andb_true_iff H3%Z.ltb_lt]%andb_true_iff H4%Z.ltb_lt].
  nia.
Qed.

Lemma tiny_nonempty : @nonempty_ranges tiny TInt.
Proof.
  split.
  - intros l o info Hl. cbn in Hl. apply find_some in Hl as [_ Hl]. unfold spans_obj in Hl.
    repeat (apply andb_true_iff in Hl as [Hl ?]). change (0 < @alloc_size_bytes ty kind info < 2 ^ 64).
    rewrite ?Z.leb_le, ?Z.ltb_lt in *. lia.
  - intros st obj info v (st1 & st2 & u & _ & _ & Hin & Ha).
    destruct (assumed_type (L := tiny) info u) as [u'|]; [|done].
    destruct (tiny_spanning _ _ _ _ _ _ Hin Ha) as (n & e & Hc & Hn).
    change (if @has_known_length tiny (Some (@containing ty v))
      then 0 < wrap32 (@array_length tiny (Some (@containing ty v)) * 4)
      else 0 <= @containing_span_start_offset ty v < @alloc_size_bytes ty kind info). rewrite Hc.
    change (0 < wrap32 (n * 4)). rewrite wrap32_small; unfold u32; lia.
  - change (4 < 2 ^ 64). lia.
Qed.

Lemma fetch_bounds_ool_valid_witness :
  exists st' B, @fetch_bounds_ool_rt ex_config tiny tiny_runtime 0x1000 0x1004 (Some TInt) = Ret (st', B) /\
    @libcrunch_bounds_invalid B 0 = false.
Proof.
  assert (match @fetch_bounds_ool_rt ex_config tiny tiny_runtime 0x1000 0x1004 (Some TInt) with
          | Ret _ => true | _ => false end = true) as Hok by (vm_compute; reflexivity).
  destruct (@fetch_bounds_ool_rt ex_config tiny tiny_runtime 0x1000 0x1004 (Some TInt))
    as [[st' B]| |] eqn:Hf; [|discriminate Hok..].
  exists st', B. split; [reflexivity|].
  exact (fetch_bounds_ool_valid (C := ex_config) (L := tiny) _ _ _ TInt st' B 0 tiny_nonempty Hf).
Defined.

(** A fake entry grows with the pointer derived. *)
Definition faked : @runtime tiny :=
  set_fake_bounds_cache (L := tiny) [CacheEntry 0x9000 0x9004 (Some TInt) 4 0] tiny_runtime.
Lemma fetch_from_cache_spec_witness :
  (@fetch_bounds_from_cache ex_config tiny faked 0x9000 0x9010 4).2 = Bounds 0 (2 ^ 64 - 1) /\
  fake_bounds_cache (@fetch_bounds_from_cache ex_config tiny faked 0x9000 0x9010 4).1
    = [CacheEntry 0x9000 0x9014 (Some TInt) 4 0].
Proof.
  pose proof (fetch_from_cache_spec (C := ex_config) (L := tiny) faked 0x9000 0x9010 4
    ltac:(vm_compute; discriminate)) as Hf.
  destruct (@fetch_bounds_from_cache ex_config tiny faked 0x9000 0x9010 4) as [st' B].
  cbn -[libcrunch_detrap add64 Z.pow] in Hf. destruct Hf as [HB Hc]. split; [exact HB|].
  cbn [fst]. rewrite Hc. vm_compute. reflexivity.
Defined.

Definition tiny_process : @process tiny := Process tiny tiny_runtime false.

Lemma dladdr_miss_unreachable_witness :
  @fetch_bounds_full config_t (@process tiny) ty (@rt_shadow config_t tiny 1) tiny_process
    0x2000 0x2004 0x7000 (Some TInt) = Unreachable.
Proof.
  apply (dladdr_miss_unreachable (C := config_t) (WB := split_wide) (L := tiny));
    [reflexivity|reflexivity|lia|lia|vm_compute; reflexivity|reflexivity].
Defined.

Lemma ensure_bounds_in_cache_spec_witness :
  exists st', @ensure_bounds_in_cache ex_config tiny tiny_runtime 0x1000 (Bounds 0x1000 0x10) (Some TInt) = Ret st' /\
    ool_cache st' = [CacheEntry 0x1000 0x1010 (Some TInt) 1 0].
Proof.
  assert (ool_cache (@fetch_bounds_from_cache ex_config tiny tiny_runtime 0x1000 0x1000 4).1 = []) as Hc
    by (vm_compute; reflexivity).
  assert (@libcrunch_bounds_invalid (@fetch_bounds_from_cache ex_config tiny tiny_runtime 0x1000 0x1000 4).2
    0x1000 = true) as Hi by (vm_compute; reflexivity).
  pose proof (ensure_bounds_in_cache_spec (C := ex_config) (L := tiny) tiny_runtime 0x1000 0x1000 0x1010 TInt
    ltac:(unfold u64; lia) ltac:(unfold u64; lia) ltac:(lia)) as He.
  change (@pos_maxoff tiny TInt) with 4 in He.
  destruct (@fetch_bounds_from_cache ex_config tiny tiny_runtime 0x1000 0x1000 4) as [st1 B1].
  cbn [fst snd] in Hc, Hi. rewrite Hi, Hc in He. eexists. split; [exact He|]. reflexivity.
Defined.

(** A slot holding an [int *], and a guess that it is given a [float *]. *)
Definition cached_process : @process tiny :=
  Process tiny (set_ool_cache (L := tiny)
    [CacheEntry 0x2aaaaaaac000 0x2aaaaaaac008 (Some (TPtr TInt)) 8 0x2aaaaaaac000] tiny_runtime) false.
Lemma store_via_voidptrptr_spec_witness :
  @store_pointer_nonlocal_via_voidptrptr ex_config tiny 1 cached_process 0x2aaaaaaac000 0x1000
    (Bounds 0x1000 0x10) (Some TFloat) = Abort.
Proof.
  pose proof (store_via_voidptrptr_spec (C := ex_config) (L := tiny) 1 cached_process 0x2aaaaaaac000 0x1000
    (Bounds 0x1000 0x10) (Some TFloat) (Some (TPtr TInt)) (Some (TPtr TInt))
    eq_refl eq_refl ltac:(reflexivity) eq_refl) as Hs.
  destruct Hs as [_ Hs].
  - right. exists 0, (Some (TPtr TInt)). split; [discriminate|]. split; reflexivity.
  - apply (bool_decide_unpack _). vm_compute. exact I.
  - etransitivity; [apply Hs; discriminate|]. reflexivity.
Defined.
