(* ===== verification/OutOfLine.v ===== *)
(** * Out-of-line copies of the inlines

    [src/libcrunch.c] ends with a function for each useful inline, for code that
    cannot inline.  The library is compiled with the bounds ABI only
    ([config_libcrunch]), whatever the program is compiled with, so a copy is
    the inline in another configuration.  The file models the copies, proves
    which of them agree with the program's inlines and which do not, and what
    follows where the inlines call the library with a tagged pointer. *)
From S2P Require Import Prelude Config TrapPtr Bounds Derive Memory ShadowSpace BoundsStack Report.
From S2P Require Import Runtime TinyAllocs TypeChecks Fetch.

#[local] Abbreviation LC := config_libcrunch.

(** ** The copies *)
Section copies.
Context `{L : Liballocs} (site : Z).
Existing Instances rt_derive rt_shadow rt_stack.
Implicit Types (p : process).

Definition ool_cache_lookup (c : cache) (obj : Z) (t : uniqtype) (require_period : Z)
    : cache * option (cache_entry uniqtype) := cache_lookup c obj t require_period.
Definition ool_cache_lookup_notype (c : cache) (obj require_period : Z)
    : cache * option (cache_entry uniqtype) := cache_lookup_notype c obj require_period.
Definition ool_get_cached_object_type (st : runtime) (addr : Z) : runtime * option uniqtype :=
  let '(c, t) := cached_object_type (ool_cache st) addr in (set_ool_cache c st, t).

Definition ool_trap : Z -> Z -> Z := libcrunch_trap (H := LC).
Definition ool_detrap : Z -> Z := libcrunch_detrap (H := LC).
Definition ool_untrap : Z -> Z -> Z := libcrunch_untrap (H := LC).
Definition ool_ptr_trap_bits : Z -> Z := libcrunch_ptr_trap_bits (H := LC).
Definition ool_is_trap_ptr : Z -> bool := libcrunch_is_trap_ptr (H := LC).

Definition ool_make_bounds : Z -> Z -> bounds := make_bounds (H := LC).
Definition ool_max_bounds : Z -> bounds := libcrunch_max_bounds (H := LC).
Definition ool_get_base : bounds -> Z -> Z := libcrunch_get_base (H := LC).
Definition ool_get_size : bounds -> Z -> Z := libcrunch_get_size.
Definition ool_get_limit : bounds -> Z -> Z := libcrunch_get_limit (H := LC).
Definition ool_make_invalid_bounds : Z -> bounds := libcrunch_make_invalid_bounds (H := LC).
Definition ool_bounds_invalid : bounds -> Z -> bool := libcrunch_bounds_invalid.
Definition ool_valid_bounds_equal : bounds -> bounds -> bool := libcrunch_valid_bounds_equal.

Definition ool_fetch_bounds_from_cache (st : runtime) (ptr derived t_sz : Z) : runtime * bounds :=
  fetch_bounds_from_cache (C := LC) st ptr derived t_sz.
Definition ool_secondary_check_derive_ptr p (derived derivedfrom : Z) (B : bounds) (t : option uniqtype)
    : outcome (bool * Z * bounds * process) :=
  secondary_check_derive_ptr (H := LC) (H0 := rt_derive (C := LC) site) p derived derivedfrom B t.
Definition ool_full_check_derive_ptr p (derived derivedfrom : Z) (B : bounds) (t : option uniqtype)
    : outcome (bool * Z * bounds * process) :=
  full_check_derive_ptr (H := LC) (H0 := rt_derive (C := LC) site) p derived derivedfrom B t.
Definition ool_shadow_store_bounds_for (m : mem) (slot : Z) (B : bounds) (typed : bool) : mem :=
  shadow_store_bounds_for (H := LC) m slot B typed.
Definition ool_store_pointer_nonlocal p (dest val : Z) (B : bounds) (t : option uniqtype) : outcome process :=
  store_pointer_nonlocal (H := LC) (H0 := rt_shadow (C := LC) site) p dest val B t.
Definition ool_base_stored_addr : Z -> Z := libcrunch_base_stored_loc.
Definition ool_size_stored_addr : Z -> Z := libcrunch_size_stored_loc.
Definition ool_fetch_bounds_from_shadow_space (m : mem) (ptr loaded_from : Z) : bounds :=
  fetch_bounds_from_shadow_space (H := LC) m ptr loaded_from.
Definition ool_fetch_bounds_inl (m : mem) (ptr loaded_from : Z) : bounds :=
  fetch_bounds_inl (H := LC) m ptr loaded_from.
Definition ool_fetch_bounds_full p (ptr derived loaded_from : Z) (t : option uniqtype)
    : outcome (process * bounds) :=
  fetch_bounds_full (H := LC) (H0 := rt_shadow (C := LC) site) p ptr derived loaded_from t.
Definition ool_peek_argument_bounds p (offset ptr : Z) : bounds :=
  peek_argument_bounds (H := LC) (H0 := rt_stack (C := LC) site) p true offset ptr.
Definition ool_peek_result_bounds p (offset ptr : Z) : bounds :=
  peek_result_bounds (H := LC) (H0 := rt_stack (C := LC) site) p true offset ptr.
End copies.

(** ** Agreement *)
Section agreement.
Context `{C : Config} `{TC : !TrapConfig C} `{WB : !WideBounds C} `{L : Liballocs} (site : Z).
Hypothesis shadow_on : no_shadow_space = false.
Hypothesis stack_on : no_bounds_stack = false.

(** Whatever the program's configuration, as long as it has the library's
    bounds and trap pointers: the copies that make, take apart, test, store,
    load or peek bounds compute what the inlines compute, on every argument,
    and so does the copy that tags a pointer; but those that look at tags agree
    with the inlines exactly on pointers without one, since in the library no
    pointer has a tag. *)
Theorem ool_agrees :
  (forall b l, ool_make_bounds b l = make_bounds b l) /\
  (forall p, ool_max_bounds p = libcrunch_max_bounds p) /\
  (forall B p, ool_get_base B p = libcrunch_get_base B p /\ ool_get_size B p = libcrunch_get_size B p /\
     ool_get_limit B p = libcrunch_get_limit B p /\ ool_bounds_invalid B p = libcrunch_bounds_invalid B p) /\
  (forall p, ool_make_invalid_bounds p = libcrunch_make_invalid_bounds p) /\
  (forall m slot B typed, ool_shadow_store_bounds_for m slot B typed = shadow_store_bounds_for m slot B typed) /\
  (forall m p from, ool_fetch_bounds_inl m p from = fetch_bounds_inl m p from) /\
  (forall (p : process) i ptr,
     ool_peek_argument_bounds site p i ptr = peek_argument_bounds (H0 := rt_stack site) p true i ptr /\
     ool_peek_result_bounds site p i ptr = peek_result_bounds (H0 := rt_stack site) p true i ptr) /\
  (forall p tag, ool_trap p tag = libcrunch_trap p tag) /\
  (forall p, (ool_detrap p = libcrunch_detrap p <-> libcrunch_is_trap_ptr p = false) /\
     (ool_is_trap_ptr p = libcrunch_is_trap_ptr p <-> libcrunch_is_trap_ptr p = false)).
Proof.
  assert (Hmk : forall b l, ool_make_bounds b l = make_bounds b l).
  { intros b l. unfold ool_make_bounds, make_bounds, to_size. by rewrite (wide_word (C := C)), (wide_size (C := C)). }
  assert (Hinv : forall p, ool_make_invalid_bounds p = libcrunch_make_invalid_bounds p).
  { intros p. unfold ool_make_invalid_bounds, libcrunch_make_invalid_bounds. by rewrite (wide_word (C := C)). }
  assert (Hsz : sizeof_bounds (H := LC) = sizeof_bounds (H := C)).
  { unfold sizeof_bounds. by rewrite (wide_word (C := C)). }
  assert (Hrd : forall m a, read_bounds (H := LC) m a = read_bounds (H := C) m a).
  { intros m a. unfold read_bounds. by rewrite (wide_word (C := C)), (wide_size (C := C)). }
  split; [exact Hmk|]. split; [|split; [|split; [exact Hinv|]]].
  { intros p. unfold ool_max_bounds, libcrunch_max_bounds. rewrite (wide_word (C := C)). apply Hmk. }
  { intros B p. unfold ool_get_base, ool_get_size, ool_get_limit, ool_bounds_invalid, libcrunch_get_base, libcrunch_get_limit.
    by rewrite (wide_word (C := C)). }
  split; [|split; [|split; [|split]]].
  - intros m slot B typed. unfold ool_shadow_store_bounds_for, shadow_store_bounds_for.
    change (libcrunch_make_invalid_bounds (H := LC)) with ool_make_invalid_bounds. by destruct typed; rewrite ?Hinv.
  - intros m p from. unfold ool_fetch_bounds_inl, fetch_bounds_inl, fetch_bounds_from_shadow_space, widen_size.
    change (libcrunch_make_invalid_bounds (H := LC)) with ool_make_invalid_bounds.
    change (make_bounds (H := LC)) with ool_make_bounds.
    by rewrite shadow_on, (wide_word (C := C)), (wide_size (C := C)), Hinv, Hmk.
  - intros p i ptr. unfold ool_peek_argument_bounds, ool_peek_result_bounds, peek_argument_bounds, peek_result_bounds.
    by rewrite stack_on, Hsz, !Hrd.
  - intros p tag. unfold ool_trap, libcrunch_trap. by rewrite (trap_live (C := C)).
  - intros p. unfold ool_detrap, ool_is_trap_ptr, libcrunch_is_trap_ptr.
    rewrite (trap_live (C := C)), (trap_on (C := C)), negb_false_iff, Z.eqb_eq.
    change (libcrunch_detrap (H := LC) p) with p. cbn [LC bounds_abi_config noop_inlines using_trap_ptrs].
    split; [split; congruence|]. destruct (Z.eqb_spec (libcrunch_detrap p) p); cbn; split; done.
Qed.

(** The copy of the full check checks nothing: the library is compiled without
    checks on derivation. *)
Theorem ool_full_check_vacuous (p : process) derived from B t :
  ool_full_check_derive_ptr site p derived from B t = Ret (true, derived, B, p).
Proof. done. Qed.

(** ** Tagged pointers in the library *)

(** The library asks its caches and liballocs about a pointer as it is, tag and
    all. *)
Lemma fetch_keeps_tag (st : runtime) ptr derived (ty : uniqtype) :
  fetch_bounds_ool_rt (C := LC) st ptr derived (Some ty) =
    let '(st, B) := fetch_bounds_from_cache (C := LC) (inc fetch_bounds_called st) ptr derived (pos_maxoff ty) in
    if negb (libcrunch_bounds_invalid B ptr) then Ret (st, B)
    else fetch_bounds_internal (C := LC) (inc fetch_bounds_missed_cache st) ptr derived (Some ty).
Proof. done. Qed.

(** Nothing is known of the address [a]. *)
Definition unknown_address (st : runtime) (a sz : Z) : Prop :=
  (cache_lookup_notype (ool_cache st) a sz).2 = None /\
  (cache_lookup_notype (fake_bounds_cache st) a sz).2 = None /\ (get_alloc_info (lib st) a).2 = None.

Lemma unknown_fetch_unbounded (st : runtime) ptr derived (ty : uniqtype) :
  unknown_address st ptr (pos_maxoff ty) -> ptr <> 0 ->
  exists st', fetch_bounds_ool_rt (C := LC) st ptr derived (Some ty) = Ret (st', Bounds 0 (2 ^ 64 - 1)).
Proof.
  intros (Hc & Hf & Hi) Hp. rewrite fetch_keeps_tag. unfold fetch_bounds_from_cache.
  change (libcrunch_ptr_trap_bits (H := LC) ptr) with 0. change (0 =? LIBCRUNCH_TRAP_ONE_PAST) with false. cbv iota.
  change (ool_cache (inc fetch_bounds_called st)) with (ool_cache st).
  destruct (cache_lookup_notype (ool_cache st) ptr (pos_maxoff ty)) as [c hit]. cbn in Hc. subst hit.
  change (fake_bounds_cache (set_ool_cache c (inc fetch_bounds_called st))) with (fake_bounds_cache st).
  destruct (cache_lookup_notype (fake_bounds_cache st) ptr (pos_maxoff ty)) as [c' hit]. cbn in Hf. subst hit.
  change (libcrunch_bounds_invalid (libcrunch_make_invalid_bounds (H := LC) ptr) ptr) with true. cbn [negb].
  unfold fetch_bounds_internal, do_query. rewrite (proj2 (Z.eqb_neq ptr 0) Hp).
  set (st1 := inc fetch_bounds_missed_cache _). change (lib st1) with (lib st).
  destruct (get_alloc_info (lib st) ptr) as [l o]. cbn in Hi. subst o.
  unfold return_max_bounds. rewrite max_bounds_wide. by eexists.
Qed.
End agreement.

(** Consequence for the program: when the bounds of a one-past pointer are
    not at hand, the secondary check asks the library about the tagged pointer;
    where nothing is known of that address, as of every non-canonical one, the
    answer is bounds without limits, and a derivation from the pointer to
    anywhere but the last address is accepted. *)
Theorem one_past_derivation_unbounded `{C : Config} `{SC : !SplitConfig C} `{L : Liballocs} site
    (p : process) a derived b (ty : uniqtype) :
  no_pointer_type_info = false -> user_addr a -> u64 derived -> libcrunch_detrap derived <> 2 ^ 64 - 1 ->
  let from := libcrunch_trap a LIBCRUNCH_TRAP_ONE_PAST in
  unknown_address (rt p) from (pos_maxoff ty) ->
  exists p', secondary_check_derive_ptr (H0 := rt_derive site) p derived from (Bounds b 0) (Some ty)
    = Ret (true, libcrunch_detrap derived, Bounds 0 (2 ^ 64 - 1), p').
Proof.
  intros Hty Ha Hd Hne from Hu.
  assert (Hfrom : from = a + 2 ^ 49) by apply (trap_user_add a 1 Ha ltac:(lia)).
  assert (Htr : libcrunch_is_trap_ptr from = true) by exact (is_trap_tagged a 1 Ha ltac:(lia)).
  unfold secondary_check_derive_ptr. rewrite trap_live, split_path, (wide_word (C := C)), !get_base_wide, Htr.
  unfold libcrunch_get_size, libcrunch_bounds_invalid. cbn [base size].
  rewrite (proj2 (Z.leb_le 0 _)) by apply wrap64_u64. cbn [negb Z.eqb].
  cbn [fetch_bounds_ool_to_use rt_derive]. rewrite Hty. unfold resume.
  destruct (unknown_fetch_unbounded (rt p) from derived ty Hu) as [st' ->]; [unfold user_addr in Ha; lia|].
  cbn [mbind outcome_bind size]. change (2 ^ 64 - 1 =? 0) with false. cbv iota.
  rewrite get_base_wide. cbn [base].
  assert (Hdt : 0 <= libcrunch_detrap derived < 2 ^ 64) by (rewrite detrap_sext; apply canonical_u64, sext49_canonical).
  assert ((libcrunch_detrap derived -w 0) = libcrunch_detrap derived) as ->.
  { unfold sub64. rewrite Z.sub_0_r. by apply wrap64_small. }
  rewrite (proj2 (Z.ltb_lt _ _)) by lia. by eexists.
Qed.

(** ** Witness, on the small liballocs *)
#[local] Instance ex_config : Config := config_p.

(** A derivation from one past the end of the stack object at 0x1000 to an
    address far beyond it. *)
Lemma one_past_derivation_unbounded_witness :
  exists p', secondary_check_derive_ptr (H := config_p) (H0 := rt_derive (C := config_p) (L := tiny) 1) tiny_process
      0x123456 (libcrunch_trap 0x1010 LIBCRUNCH_TRAP_ONE_PAST) (Bounds 0x1000 0) (Some TInt)
    = Ret (true, 0x123456, Bounds 0 (2 ^ 64 - 1), p').
Proof.
  destruct (one_past_derivation_unbounded (C := config_p) (L := tiny) 1 tiny_process 0x1010 0x123456 0x1000 TInt)
    as (p' & Hp).
  - reflexivity.
  - unfold user_addr; lia.
  - unfold u64; lia.
  - vm_compute. discriminate.
  - repeat split; vm_compute; reflexivity.
  - exists p'. exact Hp.
Defined.

(** A program compiled to abort on bad derivations. *)
Lemma ool_agrees_witness :
  (forall b l, ool_make_bounds b l = make_bounds (H := config_p) b l) /\
  ~ ool_is_trap_ptr (libcrunch_trap (H := config_p) 0x1010 LIBCRUNCH_TRAP_ONE_PAST)
    = libcrunch_is_trap_ptr (H := config_p) (libcrunch_trap (H := config_p) 0x1010 LIBCRUNCH_TRAP_ONE_PAST).
Proof.
  destruct (ool_agrees (C := config_p) (L := tiny) 1 eq_refl eq_refl) as (Hmk & _ & _ & _ & _ & _ & _ & _ & Htag).
  split; [exact Hmk|]. intros Hs%(proj2 (Htag _)). vm_compute in Hs. discriminate Hs.
Defined.
