(* ===== verification/Wrappers.v ===== *)
(** * Wrappers of libc functions

    In SoftBound emulation the program is linked against wrappers of libc's
    pointer-returning functions ([src/softbound-libc-wrappers.c]), which push
    the bounds of what the real function returned for an instrumented caller.
    The file models the thirteen wrappers that are compiled (the rest of the
    source file is commented out); the real functions, whatever they do to the
    state, are parameters. *)
From S2P Require Import Prelude Config TrapPtr Bounds Derive Memory ShadowSpace BoundsStack.

(** What a wrapper says of its result: a base and a limit ([RETURN_PTR],
    [RETURN_NULL]), or the bounds of an argument ([RETURN_PTR_ARGBOUNDS]). *)
Inductive ret_bounds :=
| ReturnPtr (b limit : Z)
| ReturnPtrArgbounds (off argname : Z).
Definition ReturnNull : ret_bounds := ReturnPtr 0 1.

Section wrappers.
Context `{C : Config} {St U : Type} `{StackEnv St U}.
Context (sizeof_FILE : Z).
Implicit Types (st : St).

Definition return_with st (caller_is_inst : bool) (r : ret_bounds) : St :=
  match r with
  | ReturnPtr b limit => push_result_bounds_base_limit st caller_is_inst b limit
  | ReturnPtrArgbounds off argname =>
      push_local_result_bounds st caller_is_inst
        (peek_argument_bounds st caller_is_inst off argname)
  end.

(** [DECLARE], [BEGIN], the call of the real function and what is made of its
    result. *)
Definition wrapper (callee : Z) (REAL : St -> outcome (Z * St))
    (ret : mem -> Z -> outcome (Z * ret_bounds)) st : outcome (Z * St) :=
  let '(caller_is_inst, st) := tweak_argument_bounds_cookie st callee in
  '(ret_ptr, st) ← REAL st;
  '(p, r) ← ret (st_mem st) ret_ptr;
  Ret (p, return_with st caller_is_inst r).

Definition HACK_SIZE : Z := 1024 * 1024.

(** [strlen] of a null pointer is undefined. *)
Definition C_strlen (m : mem) (p : Z) : outcome Z :=
  if p =? 0 then Unreachable else Ret (strlen m p).

Definition tmpfile_ret (m : mem) (p : Z) : outcome (Z * ret_bounds) :=
  Ret (p, ReturnPtr p (p +w sizeof_FILE)).
Definition fdopendir_ret (m : mem) (p : Z) : outcome (Z * ret_bounds) :=
  Ret (p, ReturnPtr p (p +w HACK_SIZE)).
Definition strchr_ret (s : Z) (m : mem) (p : Z) : outcome (Z * ret_bounds) :=
  Ret (if negb (p =? 0) then (p, ReturnPtrArgbounds 0 s) else (0, ReturnNull)).
Definition errno_location_ret (m : mem) (p : Z) : outcome (Z * ret_bounds) :=
  Ret (p, ReturnPtr p (p +w 4)).
Definition ctype_b_loc_ret (m : mem) (p : Z) : outcome (Z * ret_bounds) :=
  Ret (p, ReturnPtr p (p +w HACK_SIZE)).
Definition ctype_toupper_loc_ret (m : mem) (p : Z) : outcome (Z * ret_bounds) :=
  Ret (p, ReturnPtr p (p +w 8)).
Definition ctype_tolower_loc_ret (m : mem) (p : Z) : outcome (Z * ret_bounds) :=
  Ret (p, ReturnPtr p (p +w 8)).
Definition fopen_ret (m : mem) (p : Z) : outcome (Z * ret_bounds) :=
  Ret (p, ReturnPtr p (p +w HACK_SIZE)).
Definition strtok_ret (m : mem) (p : Z) : outcome (Z * ret_bounds) :=
  n ← (if negb (p =? 0) then n ← C_strlen m p; Ret (n + 1) else Ret 1);
  Ret (p, ReturnPtr p (p +w n)).
Definition fgets_ret (s : Z) (m : mem) (p : Z) : outcome (Z * ret_bounds) :=
  Ret (if negb (p =? 0) then (p, ReturnPtrArgbounds 0 s) else (0, ReturnNull)).
Definition strstr_ret (m : mem) (p : Z) : outcome (Z * ret_bounds) :=
  n ← (if negb (p =? 0) then n ← C_strlen m p; Ret (n + 1) else Ret 1);
  Ret (p, ReturnPtr p (p +w n)).
Definition strdup_ret (m : mem) (p : Z) : outcome (Z * ret_bounds) :=
  n ← C_strlen m p; Ret (p, ReturnPtr p (p +w n +w 1)).
Definition getenv_ret (m : mem) (p : Z) : outcome (Z * ret_bounds) :=
  if negb (p =? 0) then n ← C_strlen m p; Ret (p, ReturnPtr p (p +w n +w 1))
  else Ret (0, ReturnNull).

(** The wrapped functions, with the pointer argument whose bounds matter. *)
Inductive libc_function :=
| Tmpfile | Fdopendir | Strchr (s : Z) | Errno_location | Ctype_b_loc
| Ctype_toupper_loc | Ctype_tolower_loc | Fopen | Strtok | Fgets (s : Z)
| Strstr | Strdup | Getenv.
#[export] Instance libc_function_eq_dec : EqDecision libc_function.
Proof. solve_decision. Defined.

Definition libc_ret (f : libc_function) : mem -> Z -> outcome (Z * ret_bounds) :=
  match f with
  | Tmpfile => tmpfile_ret | Fdopendir => fdopendir_ret | Strchr s => strchr_ret s
  | Errno_location => errno_location_ret | Ctype_b_loc => ctype_b_loc_ret
  | Ctype_toupper_loc => ctype_toupper_loc_ret | Ctype_tolower_loc => ctype_tolower_loc_ret
  | Fopen => fopen_ret | Strtok => strtok_ret | Fgets s => fgets_ret s
  | Strstr => strstr_ret | Strdup => strdup_ret | Getenv => getenv_ret
  end.
Definition libc_wrapper (f : libc_function) (callee : Z) (REAL : St -> outcome (Z * St)) st :=
  wrapper callee REAL (libc_ret f) st.

(** The bounds a caller should see for the result [p], given those of the first
    argument; [m] is the memory when the real function returns. *)
Definition result_bounds (f : libc_function) (m : mem) (p : Z) (Bs : list bounds) : bounds :=
  match f with
  | Tmpfile => make_bounds p (p +w sizeof_FILE)
  | Fdopendir | Ctype_b_loc | Fopen => make_bounds p (p +w HACK_SIZE)
  | Errno_location => make_bounds p (p +w 4)
  | Ctype_toupper_loc | Ctype_tolower_loc => make_bounds p (p +w 8)
  | Strchr _ | Fgets _ =>
      if p =? 0 then make_bounds 0 1 else default (Bounds 0 0) (Bs !! 0%nat)
  | Strtok | Strstr | Strdup | Getenv =>
      if p =? 0 then make_bounds 0 1 else make_bounds p (p +w (strlen m p + 1))
  end.
End wrappers.

Section properties.
Context `{C : Config} {St U : Type} `{SL : StackEnvLaws St U}.
Hypothesis stack_on : no_bounds_stack = false.
Implicit Types (st : St).

(** What the real function is taken to do: return [p], change the memory by
    [f], and leave the bounds stack in use alone. *)
Definition real_function (p : Z) (f : mem -> mem) st : outcome (Z * St) :=
  Ret (p, set_mem (f (st_mem st)) st).
Definition spares (lo hi : Z) (f : mem -> mem) : Prop :=
  forall m i, lo <= i < hi -> byte (f m) i = byte m i.

(** A result and the bounds pushed for it, as the caller gets them. *)
Lemma libc_ret_bounds sizeof_FILE f (m : mem) p Bs :
  (forall s, f <> Strchr s /\ f <> Fgets s) -> (f = Strdup -> p <> 0) ->
  exists b l, libc_ret sizeof_FILE f m p = Ret (p, ReturnPtr b l) /\
    (u64 p -> u64 b) /\ make_bounds b l = result_bounds sizeof_FILE f m p Bs.
Proof.
  intros Hf Hd.
  assert (Ha : forall n, (p +w n +w 1) = (p +w (n + 1))).
  { intros n. unfold add64, wrap64. rewrite Zplus_mod_idemp_l. f_equal. lia. }
  destruct f as [| |s| | | | | | |s| | |]; cbn [libc_ret result_bounds];
    try (exfalso; by destruct (Hf s)).
  1-7: eexists _, _; done.
  all: unfold strtok_ret, strstr_ret, strdup_ret, getenv_ret, C_strlen.
  all: destruct (Z.eqb_spec p 0) as [->|Hp]; cbn [negb mbind outcome_bind]; rewrite ?Ha.
  all: try (exfalso; by apply Hd). all: eexists _, _; split; [reflexivity|]; split; [|reflexivity].
  all: done || (intros _; unfold u64; lia).
Qed.

(** A wrapper whose cookie matched is an instrumented callee. *)
Lemma wrapper_is_callee sizeof_FILE fn c p f st stt c' Bs args hi :
  tweak_argument_bounds_cookie st c = (true, stt) -> entered stt c' Bs ->
  u64 (bounds_sp stt) -> u64 (bounds_sp stt + 8 + sizeof_bounds * Z.of_nat (length Bs)) ->
  bounds_sp stt + 8 + sizeof_bounds * Z.of_nat (length Bs) <= hi ->
  spares (bounds_sp stt) hi f -> length args = length Bs ->
  (fn = Strdup -> p <> 0) -> (forall s, fn = Strchr s \/ fn = Fgets s -> Bs <> []) ->
  libc_wrapper sizeof_FILE fn c (real_function p f) st =
    instrumented_callee c args (fun st => Ret (set_mem (f (st_mem st)) st))
      (fun Bs => (p, result_bounds sizeof_FILE fn (f (st_mem stt)) p Bs)) st.
Proof.
  intros Htw He Hu Huh Hhi Hsp Hl Hd Harg. unfold libc_wrapper, wrapper, instrumented_callee, real_function.
  rewrite Htw. cbn [mbind outcome_bind]. rewrite (peek_all_entered stack_on stt _ Bs args) by done.
  rewrite st_mem_set. set (st1 := set_mem (f (st_mem stt)) stt).
  assert (Hcase : (forall s, fn <> Strchr s /\ fn <> Fgets s) \/ exists s, fn = Strchr s \/ fn = Fgets s).
  { destruct fn; first [right; eexists; by auto|left; by intros]. }
  destruct Hcase as [Hn|[s Hs]].
  - destruct (libc_ret_bounds sizeof_FILE fn (f (st_mem stt)) p Bs Hn Hd) as (b & l & -> & _ & <-).
    cbn [mbind outcome_bind]. reflexivity.
  - assert (Hpk : peek_argument_bounds st1 true 0 s = default (Bounds 0 0) (Bs !! 0%nat)).
    { destruct Bs as [|B Bs]; [by destruct (Harg s Hs)|]. cbn [lookup list_lookup default from_option].
      pose proof sizeof_pos as Hsz. cbn [length] in *.
      apply (peek_entered stack_on st1 c' (B :: Bs) 0 B s); unfold st1;
        rewrite ?bounds_sp_set_mem; try done.
      destruct He as [Hc He]. split.
      - rewrite bounds_sp_set_mem, st_mem_set, <- Hc. apply load_ext. intros i Hi.
        apply Hsp. lia.
      - intros i B' Hi. rewrite bounds_sp_set_mem, st_mem_set, <- (He i B' Hi).
        apply read_bounds_ext. intros j Hj. apply Hsp.
        apply lookup_lt_Some in Hi. cbn [length] in Hi. nia. }
    destruct Hs as [->| ->]; cbn [libc_ret result_bounds]; unfold strchr_ret, fgets_ret;
      destruct (Z.eqb_spec p 0) as [->|Hp]; cbn [negb mbind outcome_bind return_with];
      unfold ReturnNull; cbn [return_with]; rewrite ?Hpk; reflexivity.
Qed.

Lemma result_bounds_wf sizeof_FILE fn m p Bs :
  u64 p -> Forall wf_bounds Bs -> wf_bounds (result_bounds sizeof_FILE fn m p Bs).
Proof.
  intros Hp HB. assert (u64 0) by (unfold u64; lia).
  destruct fn; cbn [result_bounds]; try destruct (p =? 0); try by apply make_bounds_wf.
  all: destruct Bs as [|B Bs]; cbn [lookup list_lookup default from_option];
    [|by inversion HB].
  all: unfold wf_bounds; destruct wordsize_bounds, long_size; cbn; unfold u64, u32; lia.
Qed.

(** A wrapped libc function gives an instrumented caller the bounds of what
    it returns: the bounds of the argument for [strchr] and [fgets], the string
    up to and including its terminator for the functions that return strings,
    the fixed size of the object for the others, and one byte for the null
    pointers that are told apart.  The call leaves the bounds stack as it found
    it.  Only the result of [strdup] must not be null. *)
Theorem wrapped_call_delivers sizeof_FILE fn c Bs p f st hi :
  0 <= c < 2 ^ 47 -> Forall wf_bounds Bs -> u64 p -> u64 (bounds_sp st) -> bounds_sp st <= hi ->
  sizeof_bounds * (Z.of_nat (length Bs) + 1) + 8 <= bounds_sp st ->
  spares 0 hi f -> (fn = Strdup -> p <> 0) -> (forall s, fn = Strchr s \/ fn = Fgets s -> Bs <> []) ->
  exists st' m,
    instrumented_call st c Bs (libc_wrapper sizeof_FILE fn c (real_function p f))
      = Ret (p, result_bounds sizeof_FILE fn (f m) p Bs, st') /\
    bounds_sp st' = bounds_sp st.
Proof.
  intros Hc Hwf Hp Hu Hhi Hr Hf Hd Harg. pose proof sizeof_pos as Hsz.
  destruct (caller_enters stack_on st c Bs) as (Hsp & He & _); [done|unfold u64; lia|lia|done|].
  unfold instrumented_call. set (st1 := push_argument_bounds_cookie (push_arguments st Bs) c) in *.
  assert (Hu1 : u64 (bounds_sp st1)) by (rewrite Hsp; unfold u64 in *; lia).
  destruct (tweak_entered stack_on st1 c Bs Hc Hu1 He) as (stt & Htw & Hspt & Het & _).
  rewrite (wrapper_is_callee sizeof_FILE fn c p f st1 stt _ Bs (replicate (length Bs) 0) hi Htw Het);
    rewrite ?Hspt, ?Hsp, ?length_replicate; try done; try (unfold u64 in *; lia).
  2:{ intros m i Hi. apply Hf. lia. }
  destruct (callee_run stack_on st1 c Bs (replicate (length Bs) 0)
    (fun st => Ret (set_mem (f (st_mem st)) st))
    (fun Bs => (p, result_bounds sizeof_FILE fn (f (st_mem stt)) p Bs)) hi (set_mem (f (st_mem stt)) stt))
    as (st2 & Hrun & Hck & Hpk & _); rewrite ?Htw, ?Hsp, ?length_replicate; cbn [fst snd];
    try done; try (unfold u64 in *; lia).
  - by apply result_bounds_wf.
  - rewrite bounds_sp_set_mem. by rewrite Hspt, Hsp.
  - intros i Hi. rewrite st_mem_set. apply Hf. lia.
  - rewrite Hrun. cbn [mbind outcome_bind fst snd] in *. rewrite ?Hsp in Hck. rewrite ?Hsp, Hck, Hpk.
    eexists _, _. split; [done|]. unfold cleanup_bounds_stack. by rewrite stack_on, bounds_sp_set.
Qed.

(** A wrapper called from code that is not instrumented is the function it
    wraps: whatever is on top of the bounds stack, as long as it is not the
    wrapper's cookie, it returns what the real function returns and pushes
    nothing - except that [strdup], out of memory, dereferences the null result
    for anybody. *)
Theorem wrapper_transparent sizeof_FILE fn c p f st :
  load8 (st_mem st) (bounds_sp st) <> c ->
  libc_wrapper sizeof_FILE fn c (real_function p f) st =
    if bool_decide (fn = Strdup) && (p =? 0) then Unreachable else real_function p f st.
Proof.
  intros Hc. unfold libc_wrapper, wrapper. rewrite tweak_other by done.
  unfold real_function. cbn [mbind outcome_bind].
  assert (Hw : forall r st, return_with st false r = st).
  { intros [] st0; cbn [return_with]; unfold push_result_bounds_base_limit, push_local_result_bounds;
      by rewrite stack_on. }
  destruct fn; cbn [libc_ret]; rewrite ?bool_decide_false, ?(bool_decide_true (Strdup = Strdup)) by done;
    unfold strtok_ret, strchr_ret, fgets_ret, strstr_ret, strdup_ret, getenv_ret, C_strlen;
    destruct (Z.eqb_spec p 0) as [->|Hp]; cbn [negb andb mbind outcome_bind tmpfile_ret fdopendir_ret
      errno_location_ret ctype_b_loc_ret ctype_toupper_loc_ret ctype_tolower_loc_ret fopen_ret];
    rewrite ?Hw; reflexivity.
Qed.
End properties.

(** ** A concrete environment: memory and stack pointer. *)
#[local] Instance ex_env : StackEnv (mem * Z) unit := {|
  stack_shadow := {|
    shadow_derive := {|
      count_ptr_derivation st := st; count_ptr_deref st := st; count_transition st := st;
      bounds_error st _ _ _ := st; soft_deref_error_at st _ _ := st;
      fetch_bounds_ool_to_use st _ _ _ := Ret (st, Bounds 0x1000 0x40) |};
    st_mem st := st.1; set_mem m st := (m, st.2); count_ptr_store st := st;
    fetch_bounds_ool st _ _ _ := Ret (st, Bounds 0x1000 0x40) |};
  bounds_sp st := st.2; set_bounds_sp sp st := (st.1, sp);
|}.
#[local] Instance ex_env_laws : StackEnvLaws (mem * Z) unit.
Proof. by split. Qed.

(** [strchr] of a string in an object of 64 bytes at 0x1000. *)
Lemma wrapped_call_delivers_witness :
  exists st',
    @instrumented_call config_s (mem * Z) unit _ (∅, 0x7f0000010000) 0x401000 [Bounds 0x1000 0x40]
      (@libc_wrapper config_s (mem * Z) unit _ 216 (Strchr 0x1000) 0x401000 (real_function 0x1008 (fun m => m)))
    = Ret (0x1008, Bounds 0x1000 0x40, st').
Proof.
  destruct (@wrapped_call_delivers config_s (mem * Z) unit _ _ eq_refl 216 (Strchr 0x1000) 0x401000
    [Bounds 0x1000 0x40] 0x1008 (fun m => m) (∅, 0x7f0000010000) 0x7f0000010000)
    as (st' & m & Hr & _).
  - lia.
  - apply (bool_decide_unpack _); vm_compute; done.
  - unfold u64; lia.
  - unfold u64; cbn; lia.
  - vm_compute; discriminate.
  - vm_compute; discriminate.
  - intros m i _. reflexivity.
  - discriminate.
  - discriminate.
  - exists st'. exact Hr.
Defined.

Lemma wrapper_transparent_witness :
  @libc_wrapper config_s (mem * Z) unit _ 216 Strdup 0x401000 (real_function 0 (fun m => m)) (∅, 0x7f0000010000)
    = Unreachable.
Proof.
  etransitivity; [apply (wrapper_transparent (C := config_s) (St := mem * Z) (U := unit) eq_refl)|reflexivity].
  vm_compute. discriminate.
Defined.
