(* ===== verification/Fault.v ===== *)
(** * The fault handler

    Dereferencing a tagged pointer faults, because the address is not
    canonical.  The handler for the signal ([handle_sigsegv] and
    [saw_operand_cb], [try_register_fixup] that it calls, [src/libcrunch.c])
    decodes the faulting instruction and clears the tag of the registers its
    memory operands were computed from, so that the instruction can be
    restarted.  Decoding is libsystrap's: the operands are a parameter. *)
From S2P Require Import Prelude Config TrapPtr.

(** The numbering of registers, [DWARF_X86_64_*]. *)
Inductive reg :=
| RAX | RDX | RCX | RBX | RSI | RDI | RBP | RSP | R8 | R9 | R10 | R11 | R12 | R13 | R14 | R15 | RIP.
#[export] Instance reg_eq_dec : EqDecision reg.
Proof. solve_decision. Defined.

Definition dwarf_regs : list reg :=
  [RAX; RDX; RCX; RBX; RSI; RDI; RBP; RSP; R8; R9; R10; R11; R12; R13; R14; R15; RIP].

(** The cases of the [switch]: all of them but the stack pointer. *)
Definition fixable (r : reg) : bool := negb (bool_decide (r = RSP)).
Definition lookup_reg (regnum : Z) : option reg :=
  if regnum <? 0 then None
  else r ← dwarf_regs !! Z.to_nat regnum; if fixable r then Some r else None.

(** The saved general registers. *)
Abbreviation gregs := (reg -> Z).
Definition set_greg (g : gregs) (r : reg) (v : Z) : gregs :=
  fun r' => if decide (r' = r) then v else g r'.

(** The tags of the second [switch]. *)
Definition is_our_tag (tag : Z) : bool := (tag =? 1) || (tag =? 2) || (tag =? 3).

(** [did_fixup] and the saved registers. *)
Definition try_register_fixup (regnum : Z) (s : bool * gregs) : bool * gregs :=
  let '(did_fixup, g) := s in
  match lookup_reg regnum with
  | None => s
  | Some r =>
      if is_our_tag (shr64 (g r) LIBCRUNCH_TRAP_TAG_SHIFT)
      then (true, set_greg g r (fixup_value (g r)))
      else s
  end.

(** An operand as [enumerate_operands] reports it: its type, and the registers
    its address came from ([None] for a null pointer). *)
Record operand := Operand { op_type : Z; fromreg1 : option Z; fromreg2 : option Z }.
Definition OP_mem : Z := 1.

Definition fixup_from (reg : option Z) (s : bool * gregs) : bool * gregs :=
  match reg with
  | Some n => if n =? -1 then s else try_register_fixup n s
  | None => s
  end.

Definition saw_operand_cb (o : operand) (s : bool * gregs) : bool * gregs :=
  if negb (op_type o =? OP_mem) then s
  else match fromreg1 o, fromreg2 o with
  | None, None => s
  | r1, r2 => fixup_from r2 (fixup_from r1 s)
  end.

(** Resumed with new registers and one more fix-up counted, or exited with a
    status. *)
Inductive handled := Resume (g : gregs) (fault_handler_fixups : Z) | Exit (status : Z).
Definition SIGSEGV : Z := 11.

Definition handle_sigsegv (enumerate_operands : Z -> list operand) (g : gregs) (fixups : Z) : handled :=
  let faulting_code_address := g RIP in
  let '(did_fixup, g) :=
    fold_left (fun s o => saw_operand_cb o s) (enumerate_operands faulting_code_address) (false, g) in
  if did_fixup then Resume g (wrap64 (fixups + 1)) else Exit (128 + SIGSEGV).

(** ** What the handler achieves *)

(** The registers an operand gives the handler to look at. *)
Definition operand_regs (o : operand) : list reg :=
  if op_type o =? OP_mem then
    omap (fun n => n ← n; if n =? -1 then None else lookup_reg n) [fromreg1 o; fromreg2 o]
  else [].

Definition tagged (v : Z) : bool := is_our_tag (shr64 v LIBCRUNCH_TRAP_TAG_SHIFT).

(** The effect of fixing up a list of registers one after the other. *)
Definition fixed_reg (g : gregs) (rs : list reg) : gregs :=
  fun r => if bool_decide (r ∈ rs) && tagged (g r) then fixup_value (g r) else g r.

Lemma fixup_value_mod p : fixup_value p = p mod 2 ^ 49.
Proof.
  unfold fixup_value, shr64, shl64, LIBCRUNCH_TRAP_TAG_SHIFT, wrap64. change (8 * 8 - 49) with 15.
  rewrite Z.shiftl_mul_pow2 by lia. change (2 ^ 64) with (2 ^ 49 * 2 ^ 15).
  by rewrite Z.mul_mod_distr_r, Z.shiftr_div_pow2, Z.div_mul by lia.
Qed.

Lemma fixed_untagged p : tagged (fixup_value p) = false.
Proof.
  unfold tagged, shr64, LIBCRUNCH_TRAP_TAG_SHIFT. rewrite fixup_value_mod, Z.shiftr_div_pow2 by lia.
  by rewrite Z.div_small by (apply Z.mod_pos_bound; lia).
Qed.
Lemma tagged_changes p : tagged p = true -> fixup_value p <> p.
Proof. intros Ht Hf. rewrite <- Hf, fixed_untagged in Ht. done. Qed.

(** A single register. *)
Lemma fix_one s r :
  (let '(did, g) := s in if tagged (g r) then (true, set_greg g r (fixup_value (g r))) else s).1
    = s.1 || tagged (s.2 r) /\
  forall r', (let '(did, g) := s in if tagged (g r) then (true, set_greg g r (fixup_value (g r))) else s).2 r'
    = fixed_reg s.2 [r] r'.
Proof.
  destruct s as [did g]. unfold fixed_reg, set_greg. cbn [fst snd]. destruct (tagged (g r)) eqn:Ht; cbn [fst snd].
  - split; [by rewrite orb_true_r|]. intros r'. destruct (decide (r' = r)) as [->|Hne].
    + rewrite bool_decide_true by (by apply list_elem_of_singleton). by rewrite Ht.
    + by rewrite bool_decide_false by (by rewrite list_elem_of_singleton).
  - split; [by rewrite orb_false_r|]. intros r'. destruct (decide (r' = r)) as [->|Hne].
    + by rewrite Ht, andb_false_r.
    + by rewrite bool_decide_false by (by rewrite list_elem_of_singleton).
Qed.

(** Fixing a register again changes nothing. *)
Lemma fixed_reg_cons g r rs r' : fixed_reg (fixed_reg g [r]) rs r' = fixed_reg g (r :: rs) r'.
Proof.
  unfold fixed_reg. destruct (decide (r' = r)) as [->|Hne].
  - rewrite (bool_decide_true (r ∈ [r])), (bool_decide_true (r ∈ r :: rs)) by constructor. cbn [andb].
    destruct (tagged (g r)) eqn:Ht; rewrite ?fixed_untagged, ?Ht, andb_false_r; done.
  - rewrite (bool_decide_false (r' ∈ [r])) by (by rewrite list_elem_of_singleton). cbn [andb].
    by rewrite (bool_decide_ext (r' ∈ rs) (r' ∈ r :: rs)) by (rewrite elem_of_cons; tauto).
Qed.

Definition fix_regs (s : bool * gregs) (rs : list reg) : bool * gregs :=
  fold_left (fun s r => let '(did, g) := s in
    if tagged (g r) then (true, set_greg g r (fixup_value (g r))) else s) rs s.

Lemma fix_regs_spec rs : forall s,
  (fix_regs s rs).1 = s.1 || existsb (fun r => tagged (s.2 r)) rs /\
  forall r, (fix_regs s rs).2 r = fixed_reg s.2 rs r.
Proof.
  induction rs as [|r0 rs IH]; intros s; cbn [fix_regs fold_left existsb].
  { split; [by rewrite orb_false_r|]. done. }
  destruct (fix_one s r0) as [H1 H2].
  fold (fix_regs (let '(did, g) := s in
    if tagged (g r0) then (true, set_greg g r0 (fixup_value (g r0))) else s) rs).
  set (s1 := let '(did, g) := s in _) in *. destruct (IH s1) as [I1 I2]. split.
  - rewrite I1, H1, <- orb_assoc. f_equal. destruct (tagged (s.2 r0)) eqn:Ht; [done|]. cbn [orb].
    apply eq_true_iff_eq. rewrite !existsb_exists.
    assert (forall r, s1.2 r = s.2 r) as Hs.
    { intros r. rewrite H2. unfold fixed_reg. destruct (decide (r = r0)) as [->|].
      - by rewrite Ht, andb_false_r.
      - by rewrite bool_decide_false by (by rewrite list_elem_of_singleton). }
    split; intros (x & Hx & Htx); exists x; split; try done; by rewrite ?Hs in *.
  - intros r. rewrite I2. rewrite <- fixed_reg_cons. unfold fixed_reg at 1 3. by rewrite !H2.
Qed.

Lemma try_register_fix n s :
  try_register_fixup n s = fix_regs s (match lookup_reg n with Some r => [r] | None => [] end).
Proof.
  unfold try_register_fixup. destruct s as [did g]. by destruct (lookup_reg n).
Qed.

Lemma fixup_from_fix o s :
  fixup_from o s = fix_regs s (omap (fun n => n ← n; if n =? -1 then None else lookup_reg n) [o]).
Proof.
  unfold fixup_from. destruct o as [n|]; [|done]. cbn. destruct (n =? -1); [done|].
  rewrite try_register_fix. by destruct (lookup_reg n).
Qed.

Lemma fix_regs_app s rs rs' : fix_regs s (rs ++ rs') = fix_regs (fix_regs s rs) rs'.
Proof. apply fold_left_app. Qed.

Lemma saw_operand_fix o s : saw_operand_cb o s = fix_regs s (operand_regs o).
Proof.
  unfold saw_operand_cb, operand_regs. destruct (op_type o =? OP_mem); [|done]. cbn [negb].
  assert (Hboth : fixup_from (fromreg2 o) (fixup_from (fromreg1 o) s) =
    fix_regs s (omap (fun n => n ← n; if n =? -1 then None else lookup_reg n) [fromreg1 o; fromreg2 o])).
  { rewrite !fixup_from_fix, <- fix_regs_app, <- omap_app. done. }
  rewrite <- Hboth. by destruct (fromreg1 o), (fromreg2 o).
Qed.

Lemma operands_fix ops : forall s,
  fold_left (fun s o => saw_operand_cb o s) ops s = fix_regs s (flat_map operand_regs ops).
Proof.
  induction ops as [|o ops IH]; intros s; [done|]. cbn [fold_left flat_map].
  by rewrite IH, fix_regs_app, saw_operand_fix.
Qed.

(** *** The register numbers

    As the psABI of x86-64 assigns them. *)
Definition psabi_number (r : reg) : Z :=
  match r with
  | RAX => 0 | RDX => 1 | RCX => 2 | RBX => 3 | RSI => 4 | RDI => 5 | RBP => 6 | RSP => 7
  | R8 => 8 | R9 => 9 | R10 => 10 | R11 => 11 | R12 => 12 | R13 => 13 | R14 => 14 | R15 => 15 | RIP => 16
  end.

(** A register, other than the stack pointer, that the address of a memory
    operand was computed from; and the values that have one of the three tags. *)
Definition address_register (ops : list operand) (r : reg) : Prop :=
  r <> RSP /\ exists o, o ∈ ops /\ op_type o = 1 /\
    (fromreg1 o = Some (psabi_number r) \/ fromreg2 o = Some (psabi_number r)).
Definition has_tag (v : Z) : Prop := 1 <= v / 2 ^ 49 <= 3.

Lemma lookup_reg_psabi n r : lookup_reg n = Some r <-> r <> RSP /\ n = psabi_number r.
Proof.
  split.
  - unfold lookup_reg. destruct (Z.ltb_spec n 0); [done|]. intros Hr.
    destruct (decide (n < 17)) as [Hn|Hn].
    + assert (exists k, (k < 17)%nat /\ n = Z.of_nat k) as (k & Hk & ->) by (exists (Z.to_nat n); lia).
      rewrite Nat2Z.id in Hr. do 17 (destruct k as [|k]; [vm_compute in Hr; first [discriminate Hr|by injection Hr as <-]|]). lia.
    + rewrite lookup_ge_None_2 in Hr; [done|]. change (length dwarf_regs) with 17%nat. lia.
  - intros [Hr ->]. by destruct r.
Qed.
Lemma operand_regs_address ops r : r ∈ flat_map operand_regs ops <-> address_register ops r.
Proof.
  assert (Hone : forall w, (n ← w; if n =? -1 then None else lookup_reg n) = Some r <->
    r <> RSP /\ w = Some (psabi_number r)).
  { intros [n|]; cbn; [|by split; [|intros [_ ?]]]. destruct (Z.eqb_spec n (-1)) as [->|Hn].
    - split; [done|]. intros [_ [=]]. by destruct r.
    - rewrite lookup_reg_psabi. split; intros [? Hw]; split; congruence. }
  rewrite list_elem_of_In, in_flat_map. unfold address_register, operand_regs. split.
  - intros (o & Ho & Hr). destruct (Z.eqb_spec (op_type o) OP_mem) as [Ht|]; [|done].
    apply list_elem_of_In, list_elem_of_omap in Hr as (w & Hw & [Hne ->]%Hone). split; [done|].
    exists o. rewrite list_elem_of_In. split; [done|]. split; [done|].
    rewrite !elem_of_cons, elem_of_nil in Hw. destruct Hw as [Hw|[Hw|[]]]; auto.
  - intros (Hne & o & Ho & Ht & Hw). exists o. split; [by apply list_elem_of_In|]. rewrite Ht.
    apply list_elem_of_In, list_elem_of_omap. exists (Some (psabi_number r)). split; [|by apply Hone].
    rewrite !elem_of_cons. destruct Hw as [-> | ->]; auto.
Qed.
Lemma tagged_has_tag v : tagged v = true <-> has_tag v.
Proof.
  unfold tagged, is_our_tag, has_tag, shr64, LIBCRUNCH_TRAP_TAG_SHIFT. rewrite Z.shiftr_div_pow2 by lia.
  rewrite !orb_true_iff, !Z.eqb_eq. lia.
Qed.

(** C31. The fault handler resumes the program exactly when some register that a
    memory operand of the faulting instruction was computed from, the stack
    pointer excepted, holds a tag; then precisely the tagged ones among these
    registers are changed, to the address without its tag, and one fix-up is
    counted.  Otherwise it exits.  The stack pointer is never changed, and a tag
    in it is not looked for. *)
Theorem handle_sigsegv_spec enumerate_operands g fixups :
  let ops := enumerate_operands (g RIP) in
  (exists r, address_register ops r /\ has_tag (g r)) /\
    (exists g', handle_sigsegv enumerate_operands g fixups = Resume g' (wrap64 (fixups + 1)) /\
       (forall r, address_register ops r -> has_tag (g r) -> g' r = g r mod 2 ^ 49) /\
       (forall r, ~ (address_register ops r /\ has_tag (g r)) -> g' r = g r) /\ g' RSP = g RSP) \/
  (forall r, address_register ops r -> ~ has_tag (g r)) /\
    handle_sigsegv enumerate_operands g fixups = Exit 139.
Proof.
  intros ops. unfold handle_sigsegv. rewrite operands_fix. fold ops.
  assert (Hin : forall r, r ∈ flat_map operand_regs ops <-> address_register ops r) by apply operand_regs_address.
  set (rs := flat_map operand_regs ops) in *.
  destruct (fix_regs_spec rs (false, g)) as [H1 H2]. destruct (fix_regs (false, g) rs) as [did g'].
  cbn [fst snd orb] in *. destruct (existsb (fun r => tagged (g r)) rs) eqn:He; rewrite H1.
  - left. apply existsb_exists in He as (r & Hr & Ht). split.
    { exists r. rewrite <- Hin, <- tagged_has_tag. split; [by apply list_elem_of_In|done]. }
    assert (Hkeep : forall r, ~ (address_register ops r /\ has_tag (g r)) -> g' r = g r).
    { intros r'. rewrite H2, <- Hin, <- tagged_has_tag. unfold fixed_reg. intros Hno.
      destruct (bool_decide_reflect (r' ∈ rs)); [|done]. destruct (tagged (g r')); [tauto|done]. }
    exists g'. split; [done|]. split; [|split; [done|]].
    + intros r'. rewrite H2, <- Hin, <- tagged_has_tag. unfold fixed_reg. intros Hr' ->.
      by rewrite bool_decide_true, fixup_value_mod.
    + apply Hkeep. by intros [[? _] _].
  - right. split; [|done]. intros r Hr. rewrite <- tagged_has_tag. intros Ht.
    apply not_true_iff_false in He. apply He, existsb_exists. exists r. split; [by apply list_elem_of_In, Hin|done].
Qed.

(** Restarting terminates: after the handler has resumed an instruction, a
    second fault of the same instruction with the registers as the handler left
    them is not resumed again. *)
Theorem no_second_fixup enumerate_operands g fixups g' fixups' :
  tagged (g RIP) = false ->
  handle_sigsegv enumerate_operands g fixups = Resume g' fixups' ->
  handle_sigsegv enumerate_operands g' fixups' = Exit 139.
Proof.
  unfold handle_sigsegv. rewrite operands_fix. intros Hrip Hh.
  set (rs := flat_map operand_regs (enumerate_operands (g RIP))) in *.
  destruct (fix_regs_spec rs (false, g)) as [H1 H2].
  destruct (fix_regs (false, g) rs) as [did g1]. cbn [fst snd orb] in *.
  destruct did; [|done]. injection Hh as <- <-.
  assert (g1 RIP = g RIP) as ->.
  { rewrite H2. unfold fixed_reg. by rewrite Hrip, andb_false_r. }
  rewrite operands_fix. fold rs.
  destruct (fix_regs_spec rs (false, g1)) as [H3 _]. destruct (fix_regs (false, g1) rs) as [did g2].
  cbn [fst snd orb] in *. assert (did = false) as ->; [|done]. rewrite H3.
  apply not_true_iff_false. rewrite existsb_exists. intros (r & Hr%list_elem_of_In & Ht).
  rewrite H2 in Ht. unfold fixed_reg in Ht. rewrite bool_decide_true in Ht by done. cbn [andb] in Ht.
  destruct (tagged (g r)) eqn:Hg; [by rewrite fixed_untagged in Ht|congruence].
Qed.

(** One-past in [RAX] and a plain pointer in [RCX]; the second operand is an
    immediate. *)
Definition ex_ops (pc : Z) : list operand := [Operand 1 (Some 0) (Some 2); Operand 0 None None].
Definition ex_gregs : gregs := fun r =>
  match r with RAX => 2 ^ 49 + 0x1040 | RCX => 0x2000 | RIP => 0x400000 | _ => 0 end.
Lemma no_second_fixup_witness :
  exists g', handle_sigsegv ex_ops ex_gregs 0 = Resume g' 1 /\ g' RAX = 0x1040 /\
    handle_sigsegv ex_ops g' 1 = Exit 139.
Proof.
  eexists. split; [reflexivity|]. split; [reflexivity|].
  apply (no_second_fixup ex_ops ex_gregs 0); reflexivity.
Defined.
