(* ===== verification/Init.v ===== *)
(** * Initialisation and the summary at exit

    The runtime is initialised from several constructors and, because checks
    may come before them, from the checks themselves.  The file models
    [__libcrunch_main_init], [early_init], [__libcrunch_global_init] and
    [print_exit_summary] of [src/libcrunch.c], and [__libcrunch_check_init] and
    [__libcrunch_check_local_bounds] of the inlines.  Environment variables are
    arguments; opening a file either works or does not. *)
From S2P Require Import Prelude Config TrapPtr Bounds Derive Memory ShadowSpace BoundsStack Report.
From S2P Require Import Runtime TinyAllocs TypeChecks.

(** The state of initialisation: the flags, the names of the lazy heap types,
    the suppressions, and how often the signal handler was installed and the
    kernel told to clear the reference bits of the pages. *)
Record init_state := InitState {
  is_initialized : bool;
  tried_to_initialize : bool;
  done_init : bool;
  lazy_heap_types : Z * list (option string);
  loaded_suppressions : option (list suppression);
  segv_handlers : Z;
  refbits_cleared : Z;
}.
Definition uninitialized : init_state := InitState false false false (0, []) None 0 0.

(** What start-up finds: [LIBCRUNCH_SUPPRESSIONS], and whether
    [/proc/self/clear_refs] can be opened. *)
Record startup_env := StartupEnv {
  LIBCRUNCH_SUPPRESSIONS : option string;
  clear_refs_opens : bool;
}.

Definition main_init (s : init_state) : outcome init_state :=
  if done_init s then Abort
  else Ret (InitState (is_initialized s) (tried_to_initialize s) true (lazy_heap_types s)
              (loaded_suppressions s) (segv_handlers s) (refbits_cleared s)).

Definition set_tried (s : init_state) : init_state :=
  InitState (is_initialized s) true (done_init s) (lazy_heap_types s) (loaded_suppressions s)
    (segv_handlers s) (refbits_cleared s).
Definition set_initialized (s : init_state) : init_state :=
  InitState true (tried_to_initialize s) (done_init s) (lazy_heap_types s) (loaded_suppressions s)
    (segv_handlers s) (refbits_cleared s).

(** The count, and the two names that are allocated. *)
Definition init_lazy_heap_types (s : init_state) : init_state :=
  InitState (is_initialized s) (tried_to_initialize s) (done_init s)
    (1, [Some "signed_char$8"%string; None]) (loaded_suppressions s) (segv_handlers s) (refbits_cleared s).
Definition init_suppressions (env : startup_env) (s : init_state) : outcome init_state :=
  ss ← load_suppressions (LIBCRUNCH_SUPPRESSIONS env);
  let ss := match ss with Some _ => ss | None => loaded_suppressions s end in
  Ret (InitState (is_initialized s) (tried_to_initialize s) (done_init s) (lazy_heap_types s) ss
         (segv_handlers s) (refbits_cleared s)).
Definition install_segv_handler (s : init_state) : init_state :=
  InitState (is_initialized s) (tried_to_initialize s) (done_init s) (lazy_heap_types s)
    (loaded_suppressions s) (segv_handlers s + 1) (refbits_cleared s).
Definition clear_mem_refbits (env : startup_env) (s : init_state) : outcome init_state :=
  if negb (clear_refs_opens env) then Abort
  else Ret (InitState (is_initialized s) (tried_to_initialize s) (done_init s) (lazy_heap_types s)
              (loaded_suppressions s) (segv_handlers s) (refbits_cleared s + 1)).

(** liballocs' own initialisation, called first, is not part of the state. *)
Definition global_init (env : startup_env) (s : init_state) : outcome (Z * init_state) :=
  if is_initialized s then Ret (0, s)
  else if tried_to_initialize s then Ret (2 ^ 32 - 1, s)
  else
    let s := set_tried s in
    let s := init_lazy_heap_types s in
    s ← init_suppressions env s;
    let s := install_segv_handler s in
    s ← clear_mem_refbits env s;
    Ret (0, set_initialized s).

(** [linked] is the test that the flag's (weak) address is not null. *)
Definition check_init `{Config} (linked : bool) (env : startup_env) (s : init_state)
    : outcome (Z * init_state) :=
  if noop_inlines then Ret (0, s)
  else if negb linked then Ret (2 ^ 32 - 1, s)
  else if negb (is_initialized s) then global_init env s
  else Ret (0, s).

(** [__libcrunch_check_local_bounds]; both arguments are [int]s. *)
Definition check_local_bounds `{Config} (idx limit : Z) : outcome unit :=
  if noop_inlines then Ret tt else if limit <=? idx then Abort else Ret tt.

(** Where messages go: a file, or standard error. *)
Inductive stream := Opened (name : string) | Stderr.

(** What [early_init] leaves: the stream, the debug level and the verbosity, how
    long it slept, and whether the summary is printed at exit. *)
Record early := Early {
  crunch_stream_err : stream;
  early_debug_level : Z;
  verbose : bool;
  slept : Z;
  summary_at_exit : bool;
}.

(** [fopen] says whether a file can be opened; [stream_err] whether liballocs has
    its own stream. *)
Definition early_init (fopen : string -> bool) (stream_err : bool) (LIBCRUNCH_DELAY_STARTUP : bool)
    (LIBCRUNCH_ERR LIBCRUNCH_DEBUG_LEVEL : option string) (LIBCRUNCH_VERBOSE : bool)
    (atoi : string -> Z) (debug_level : Z) : outcome early :=
  let slept := if LIBCRUNCH_DELAY_STARTUP then 10 else 0 in
  let crunch_stream_err :=
    match LIBCRUNCH_ERR with
    | Some errvar =>
        let opened := if fopen errvar then Some (Opened errvar) else None in
        if negb stream_err then Some Stderr else opened
    | None => Some Stderr
    end in
  match crunch_stream_err with
  | None => Abort
  | Some out =>
      let debug_level := match LIBCRUNCH_DEBUG_LEVEL with Some l => atoi l | None => debug_level end in
      Ret (Early out debug_level ((1 <=? debug_level) || LIBCRUNCH_VERBOSE) slept true)
  end.

(** A line of the summary. *)
Definition line (label : string) (n : Z) : string * Z := (label, n).
Arguments line label%_string n%_Z.

(** ** The summary

    The lines of the summary with their numbers; [None] if it is not printed.
    [aborted_unknown] is liballocs' count of queries for unknown storage. *)
Definition print_exit_summary `{Config} (c : counter -> Z) (suppressed aborted_unknown : Z) (always : bool)
    : option (list (string * Z)) :=
  if (c begun =? 0) && (c ptr_derefs =? 0) && (c fetch_bounds_called =? 0)
     && (c created_invalid_pointer =? 0) && negb always
  then None
  else Some (
    [line "type checks begun" (c begun);
     line "aborted for bad typename" (c aborted_typestr);
     line "remaining" (c begun -w (aborted_unknown +w c aborted_typestr));
     line "failed inside allocation functions" (c failed_in_alloc);
     line "failed otherwise" (c failed);
     line "of which user suppressed" (suppressed);
     line "nontrivially passed" (c succeeded);
     line "of which hit __is_a cache" (c is_a_hit_cache)]
    ++ (if keep_expensive_counts then
          [line "pointer dereferences" (c ptr_derefs);
           line "of which stored shadowed pointer values" (c ptr_stores);
           line "pointer derivations instrumented" (c ptr_derivations)] else [])
    ++ [line "out-of-bounds pointers created" (c created_invalid_pointer);
        line "accesses trapped and emulated" (0);
        line "calls to __fetch_bounds" (c fetch_bounds_called);
        line "of which missed cache" (c fetch_bounds_missed_cache);
        line "calls requiring secondary checks" (c primary_secondary_transitions);
        line "trap-pointer fixups in fault handler" (c fault_handler_fixups)]).

(** ** Properties *)

Inductive init_call := CallMain | CallGlobal | CallCheck (linked : bool).
Definition init_run `{Config} (env : startup_env) (c : init_call) (s : init_state) : outcome init_state :=
  match c with
  | CallMain => main_init s
  | CallGlobal => '(_, s) ← global_init env s; Ret s
  | CallCheck l => '(_, s) ← check_init l env s; Ret s
  end.
Fixpoint init_runs `{Config} (env : startup_env) (cs : list init_call) (s : init_state) : outcome init_state :=
  match cs with [] => Ret s | c :: cs => s ← init_run env c s; init_runs env cs s end.

(** Initialised at most once, and only if it was tried; everything that
    initialisation does is then done, once, and the suppressions are those of
    the environment. *)
Definition init_ok (ss : option (list suppression)) (s : init_state) : Prop :=
  segv_handlers s = (if is_initialized s then 1 else 0) /\
  refbits_cleared s = (if is_initialized s then 1 else 0) /\
  (is_initialized s = true -> tried_to_initialize s = true) /\
  loaded_suppressions s = (if is_initialized s then ss else None) /\
  lazy_heap_types s = (if is_initialized s then (1, [Some "signed_char$8"%string; None]) else (0, [])).
(** An attempt to initialise that did not stop the program has worked. *)
Definition live (s : init_state) : Prop := tried_to_initialize s = true -> is_initialized s = true.

(** The first attempt, when the suppressions can be parsed. *)
Lemma global_init_first env ss s :
  load_suppressions (LIBCRUNCH_SUPPRESSIONS env) = Ret ss -> is_initialized s = false ->
  tried_to_initialize s = false ->
  global_init env s =
    if clear_refs_opens env then
      Ret (0, InitState true true (done_init s) (1, [Some "signed_char$8"%string; None])
                (match ss with Some _ => ss | None => loaded_suppressions s end)
                (segv_handlers s + 1) (refbits_cleared s + 1))
    else Abort.
Proof.
  intros Hl Hi Ht. unfold global_init. rewrite Hi, Ht. unfold init_suppressions. rewrite Hl.
  cbn [mbind outcome_bind]. unfold clear_mem_refbits. by destruct (clear_refs_opens env).
Qed.

Lemma global_init_ok env ss s r s' :
  load_suppressions (LIBCRUNCH_SUPPRESSIONS env) = Ret ss -> init_ok ss s -> live s ->
  global_init env s = Ret (r, s') -> init_ok ss s' /\ live s' /\ is_initialized s' = true.
Proof.
  intros Hl (Hh & Hr & Ht & Hs & Hz) Hlive Hg.
  destruct (is_initialized s) eqn:Hin.
  { unfold global_init in Hg. rewrite Hin in Hg. injection Hg as _ <-.
    unfold init_ok. rewrite Hin. by repeat split. }
  destruct (tried_to_initialize s) eqn:Htr; [by specialize (Hlive Htr); congruence|].
  rewrite (global_init_first env ss) in Hg by done. destruct (clear_refs_opens env); [|done].
  injection Hg as _ <-. unfold init_ok, live. cbn. rewrite Hh, Hr, Hs. repeat split; try done. by destruct ss.
Qed.

Lemma init_run_ok `{Config} env ss c s s' :
  load_suppressions (LIBCRUNCH_SUPPRESSIONS env) = Ret ss -> init_ok ss s -> live s ->
  init_run env c s = Ret s' ->
  init_ok ss s' /\ live s' /\ (c = CallGlobal \/ is_initialized s = true -> is_initialized s' = true).
Proof.
  intros Hl Hs Hlive.
  destruct c as [| |l]; cbn [init_run].
  - unfold main_init. destruct (done_init s); [done|]. intros [= <-]. split; [exact Hs|]. split; [exact Hlive|].
    by intros [?|?].
  - intros Hr. apply bind_Ret in Hr as ([r s1] & Hg & [= <-]).
    destruct (global_init_ok _ _ _ _ _ Hl Hs Hlive Hg) as (? & ? & ?). by split_and!.
  - intros Hr. apply bind_Ret in Hr as ([r s1] & Hg & [= <-]). unfold check_init in Hg.
    assert (s1 = s \/ init_ok ss s1 /\ live s1 /\ is_initialized s1 = true) as [->|(? & ? & ?)];
      [|split; [done|]; split; [done|]; by intros [?|?]|by split_and!].
    destruct noop_inlines; [injection Hg as _ <-; by left|].
    destruct (negb l); [injection Hg as _ <-; by left|].
    destruct (negb (is_initialized s)); [|injection Hg as _ <-; by left].
    right. by eapply global_init_ok.
Qed.

Lemma init_runs_ok `{Config} env ss cs : forall s s',
  load_suppressions (LIBCRUNCH_SUPPRESSIONS env) = Ret ss -> init_ok ss s -> live s -> init_runs env cs s = Ret s' ->
  init_ok ss s' /\ (CallGlobal ∈ cs \/ is_initialized s = true -> is_initialized s' = true).
Proof.
  induction cs as [|c cs IH]; intros s s' Hl Hok Hlive; cbn [init_runs].
  { intros [= <-]. split; [done|]. intros [Hc|Hi]; [by apply not_elem_of_nil in Hc|done]. }
  intros Hr. apply bind_Ret in Hr as (s1 & Hc & Hr).
  destruct (init_run_ok _ _ _ _ _ Hl Hok Hlive Hc) as (Hok1 & Hlive1 & Hg1).
  destruct (IH s1 s' Hl Hok1 Hlive1 Hr) as [Hok2 Hi2].
  split; [done|]. intros [[<-|Hin]%elem_of_cons|Hi]; apply Hi2; [right; auto|by left|right; auto].
Qed.

(** Whatever constructors and checks come in whatever order, the runtime is
    initialised at most once - one signal handler, the suppressions of the
    environment, the one lazy heap type - and once a constructor has run without
    stopping the program every later check finds it initialised.  Without
    [/proc/self/clear_refs] the first initialisation stops the program. *)
Theorem initialised_once `{Config} env ss cs s :
  load_suppressions (LIBCRUNCH_SUPPRESSIONS env) = Ret ss ->
  init_runs env cs uninitialized = Ret s ->
  init_ok ss s /\ (CallGlobal ∈ cs -> is_initialized s = true) /\
  (is_initialized s = true -> clear_refs_opens env = true /\ forall l, l = true \/ noop_inlines = true ->
     check_init l env s = Ret (0, s)).
Proof.
  intros Hl Hr.
  destruct (init_runs_ok env ss cs uninitialized s Hl ltac:(by repeat split) ltac:(done) Hr) as [Hok Hg].
  split; [done|]. split; [auto|]. intros Hi. split.
  - destruct (clear_refs_opens env) eqn:Ho; [done|]. exfalso.
    assert (Hno : forall cs s0, is_initialized s0 = false -> live s0 -> forall s1, init_runs env cs s0 = Ret s1 -> is_initialized s1 = false).
    { clear -Ho Hl. induction cs as [|c cs IH]; intros s0 H0 Hv s1; cbn [init_runs]; [by intros [= <-]|].
      intros Hr. apply bind_Ret in Hr as (s2 & Hc & Hr).
      assert (Hgi : forall x, global_init env s0 <> Ret x).
      { intros x. destruct (tried_to_initialize s0) eqn:Ht; [by rewrite (Hv Ht) in H0|].
        rewrite (global_init_first env ss) by done. by rewrite Ho. }
      assert (is_initialized s2 = false /\ live s2) as [H2 Hv2]; [|by eapply IH].
      destruct c as [| |l]; cbn [init_run] in Hc.
      - unfold main_init in Hc. destruct (done_init s0); [done|]. by injection Hc as <-.
      - apply bind_Ret in Hc as (x & Hx & _). by apply Hgi in Hx.
      - apply bind_Ret in Hc as ([r x] & Hx & [= <-]). unfold check_init in Hx. rewrite H0 in Hx.
        destruct noop_inlines; [by injection Hx as _ <-|]. destruct (negb l); [by injection Hx as _ <-|].
        by apply Hgi in Hx. }
    by rewrite (Hno cs uninitialized eq_refl ltac:(done) s Hr) in Hi.
  - intros l [-> |Hn]; unfold check_init; rewrite ?Hn, ?Hi; [|done]. by destruct noop_inlines.
Qed.

(** An error stream that cannot be opened: the code tests liballocs' stream
    instead of the one it has just opened, so that it aborts where it means to
    fall back to standard error - and falls back when liballocs has no stream,
    although the file was opened. *)
Theorem early_init_error_stream fopen stream_err delay errvar dbg verb atoi level :
  early_init fopen stream_err delay (Some errvar) dbg verb atoi level =
    if stream_err && negb (fopen errvar) then Abort
    else let level := match dbg with Some l => atoi l | None => level end in
         Ret (Early (if stream_err then Opened errvar else Stderr) level ((1 <=? level) || verb)
                (if delay then 10 else 0) true).
Proof. unfold early_init. by destruct stream_err, (fopen errvar). Qed.

(** Local bounds checks catch an index too large; a negative one passes. *)
Theorem check_local_bounds_spec `{C : Config} idx limit :
  noop_inlines = false ->
  (check_local_bounds idx limit = Abort <-> limit <= idx) /\
  (idx < 0 -> 0 <= limit -> check_local_bounds idx limit = Ret tt).
Proof.
  intros Hn. unfold check_local_bounds. rewrite Hn. destruct (Z.leb_spec limit idx); split; try done.
  - lia.
  - split; [done|lia].
Qed.

Section balance.
Context `{C : Config} `{L : Liballocs}.
Implicit Types (st : runtime).

Fixpoint run_checks st (calls : list (Z * check_call * Z)) : outcome runtime :=
  match calls with
  | [] => Ret st
  | (obj, call, site) :: calls => '(_, st) ← run_check st obj call site; run_checks st calls
  end.

(** Checks begun but not yet accounted for by any of the other totals. *)
Definition unaccounted (c : counter -> Z) : Z :=
  wrap64 (c begun - (c aborted_typestr + c failed_in_alloc + c failed + c succeeded)).

Lemma unaccounted_tally v c :
  unaccounted (tally v (bump begun c)) =
    wrap64 (unaccounted c + if decide (v = Uncounted) then 1 else 0).
Proof.
  unfold unaccounted. destruct v; cbn [tally]; unfold bump;
    repeat match goal with |- context [decide (?a = ?b)] =>
      first [rewrite (decide_True (P := a = b)) by reflexivity
            |rewrite (decide_False (P := a = b)) by discriminate] end;
    unfold wrap64; rewrite ?Zminus_mod_idemp_l, ?Zplus_mod_idemp_l;
    Z.div_mod_to_equations; lia.
Qed.

(** The summary adds up.  After any sequence of type checks from fresh
    counters that returns, the checks that are "remaining" once those aborted
    for want of a type or unknown to liballocs are subtracted are exactly the
    ones it lists as failed, failed in allocation functions or passed, provided
    liballocs counts the checks that end with neither verdict; and there are no
    more of those than checks. *)
Theorem summary_balances st calls st' suppressed unknown always :
  noop_inlines = false -> counters st = (fun _ => 0) -> run_checks st calls = Ret st' ->
  exists n, 0 <= n <= Z.of_nat (length calls) /\ unaccounted (counters st') = wrap64 n /\
    (unknown = n -> forall ls, print_exit_summary (counters st') suppressed unknown always = Some ls ->
       In (line "remaining"
             (wrap64 (counters st' failed_in_alloc + counters st' failed + counters st' succeeded))) ls).
Proof.
  intros Hn Hc Hrun.
  assert (Hbal : forall calls st, run_checks st calls = Ret st' -> exists n, 0 <= n <= Z.of_nat (length calls) /\
    unaccounted (counters st') = wrap64 (unaccounted (counters st) + n)).
  { clear -Hn. induction calls as [|[[obj call] site] calls IH]; intros st; cbn [run_checks length].
    { intros [= <-]. exists 0. split; [lia|]. unfold unaccounted.
      unfold wrap64. by rewrite Z.add_0_r, Z.mod_mod. }
    intros Hr. apply bind_Ret in Hr as ([ret st1] & Hc & Hr). destruct (IH _ Hr) as (n & Hn0 & Hu).
    destruct (run_check_counted _ _ _ _ _ _ Hn Hc) as (_ & Ht & Hnt).
    destruct (trivial_call obj call).
    - rewrite (Ht eq_refl) in Hu. exists n. split; [lia|done].
    - destruct (Hnt eq_refl) as (v & Hv & _). rewrite Hv, unaccounted_tally in Hu.
      exists ((if decide (v = Uncounted) then 1 else 0) + n). split; [destruct (decide _); lia|].
      rewrite Hu. unfold wrap64. rewrite Zplus_mod_idemp_l. f_equal. lia. }
  destruct (Hbal calls st Hrun) as (n & Hr & Hu). exists n. split; [done|].
  split; [by rewrite Hu, Hc|]. intros -> ls.
  unfold print_exit_summary. destruct (_ && _ && _ && _ && _); [done|]. intros [= <-].
  right; right; left. unfold line. f_equal. unfold unaccounted in Hu. rewrite Hc in Hu.
  unfold sub64, add64, wrap64 in *. rewrite Z.sub_0_r in Hu. change (0 mod 2 ^ 64) with 0 in Hu.
  rewrite Z.add_0_l in Hu. rewrite Zminus_mod_idemp_r.
  set (x := counters st') in *.
  assert (Hx : (x begun - (n + x aborted_typestr)) mod 2 ^ 64 =
    ((x begun - (x aborted_typestr + x failed_in_alloc + x failed + x succeeded)) mod 2 ^ 64 - n
      + (x failed_in_alloc + x failed + x succeeded)) mod 2 ^ 64).
  { rewrite <- Zplus_mod_idemp_l, Zminus_mod_idemp_l, Zplus_mod_idemp_l. f_equal. lia. }
  rewrite Hx, Hu, <- Zplus_mod_idemp_l, Zminus_mod_idemp_l, Z.sub_diag. done.
Qed.
End balance.

(** ** Witnesses *)
Definition ex_startup : startup_env := StartupEnv None true.
Definition ex_initialized : init_state :=
  InitState true true true (1, [Some "signed_char$8"%string; None]) None 1 1.
Lemma initialised_once_witness :
  is_initialized ex_initialized = true /\ init_ok None ex_initialized.
Proof.
  destruct (@initialised_once config_p ex_startup None [CallCheck false; CallMain; CallGlobal; CallCheck true]
    ex_initialized eq_refl eq_refl) as (Hok & Hi & _).
  split; [|exact Hok]. apply Hi. apply list_elem_of_In. right; right; left. reflexivity.
Defined.

Lemma check_local_bounds_spec_witness : @check_local_bounds config_p (-1) 10 = Ret tt.
Proof. apply (proj2 (check_local_bounds_spec (C := config_p) (-1) 10 eq_refl)); lia. Defined.

(** A check that passes and one that fails. *)
Definition ex_calls : list (Z * @check_call tiny * Z) :=
  [(0x1004, CallLikeA (L := tiny) (Some TFloat), 1);
   (0x1004, CallNamedA (L := tiny) (Some "x"%string), 1)].
Lemma summary_balances_witness :
  exists st' ls, @run_checks config_p tiny tiny_runtime ex_calls = Ret st' /\
    @print_exit_summary config_p (counters st') 0 0 false = Some ls /\ In (line "remaining" 2) ls.
Proof.
  assert (match @run_checks config_p tiny tiny_runtime ex_calls with
    | Ret st' => (counters st' failed_in_alloc =? 0) && (counters st' failed =? 1)
                 && (counters st' succeeded =? 1) && (counters st' begun =? 2)
                 && (counters st' aborted_typestr =? 0)
    | _ => false end = true) as Hok by (vm_compute; reflexivity).
  destruct (@run_checks config_p tiny tiny_runtime ex_calls) as [st'| |] eqn:Hr; [|discriminate Hok..].
  repeat (apply andb_true_iff in Hok as [Hok ?%Z.eqb_eq]). apply Z.eqb_eq in Hok.
  destruct (summary_balances (C := config_p) (L := tiny) tiny_runtime ex_calls st' 0 0 false eq_refl eq_refl Hr)
    as (n & Hn & Hs).
  destruct Hs as [Hu Hs]. eexists st', _. split; [reflexivity|].
  assert (n = 0) as ->.
  { unfold unaccounted in Hu. rewrite Hok, H, H0, H1, H2 in Hu. cbn [length ex_calls Z.of_nat] in Hn.
    rewrite !wrap64_small in Hu by (unfold u64; lia). lia. }
  unfold print_exit_summary in *. rewrite H0 in *. split; [reflexivity|].
  assert (wrap64 (counters st' failed_in_alloc + counters st' failed + counters st' succeeded) = 2) as Hw
    by (rewrite Hok, H1, H2; reflexivity).
  rewrite Hw in Hs. exact (Hs eq_refl _ eq_refl).
Defined.
