(* ===== verification/Stubs.v ===== *)
(** * The stub runtime

    A program instrumented for libcrunch also runs without it: the stubs
    library ([src/stubs.c]) defines every entry point of the runtime so that
    type checks succeed and bounds are unlimited.  The file gives the stubs as
    an implementation of the checks' interfaces, to which the theorems about
    the inlined checks then apply. *)
From S2P Require Import Prelude Config TrapPtr Bounds Derive Memory ShadowSpace BoundsStack Report.
From S2P Require Import Runtime.

(** The counters the stubs define, memory and the bounds stack pointer. *)
Record stub_state := StubState {
  stub_counters : counter -> Z; stub_mem : mem; stub_bounds_sp : Z;
}.
Definition stub_inc (c : counter) (st : stub_state) : stub_state :=
  StubState (fun c' => if decide (c' = c) then wrap64 (stub_counters st c + 1) else stub_counters st c')
    (stub_mem st) (stub_bounds_sp st).

Section stubs.
Context `{C : Config} {U : Type}.
Implicit Types (st : stub_state) (t : option U).

(** The checks all return 1. *)
Definition stub_is_a_internal (obj r : Z) : Z := 1.
Definition stub_like_a_internal (obj r : Z) : Z := 1.
Definition stub_loosely_like_a_internal (obj r : Z) : Z := 1.
Definition stub_named_a_internal (obj r : Z) : Z := 1.
Definition stub_check_args_internal (obj : Z) (args : list Z) : Z := 1.
Definition stub_is_a_function_refining_internal (obj r : Z) : Z := 1.
Definition stub_is_a_pointer_of_degree_internal (obj d : Z) : Z := 1.
Definition stub_can_hold_pointer_internal (obj target : Z) : Z := 1.

Definition stub_fetch_bounds_internal (ptr derived : Z) t : bounds := libcrunch_max_bounds ptr.
Definition stub_fetch_bounds_ool (ptr derived : Z) t : bounds := libcrunch_max_bounds ptr.
Definition stub_fetch_bounds_ool_via_dladdr (ptr derived : Z) t : bounds := libcrunch_max_bounds ptr.
Definition stub_bounds_error st (derived derivedfrom : Z) (B : bounds) : stub_state := st.
Definition stub_soft_deref_error_at st (codeptr : Z) (B : bounds) : stub_state := st.
Definition stub_store_pointer_nonlocal_via_voidptrptr st (dest srcval : Z) (B : bounds) t : stub_state := st.
Definition stub_ensure_bounds_in_cache st (ptr : Z) (B : bounds) t : stub_state := st.

#[export] Instance stub_derive : DeriveEnv stub_state (option U) := {|
  count_ptr_derivation := stub_inc ptr_derivations;
  count_ptr_deref := stub_inc ptr_derefs;
  count_transition := stub_inc primary_secondary_transitions;
  bounds_error := stub_bounds_error;
  soft_deref_error_at := stub_soft_deref_error_at;
  fetch_bounds_ool_to_use st ptr derived t :=
    Ret (st, if no_pointer_type_info then stub_fetch_bounds_ool_via_dladdr ptr derived t
             else stub_fetch_bounds_ool ptr derived t);
|}.
#[export] Instance stub_shadow : ShadowEnv stub_state U := {|
  st_mem := stub_mem;
  set_mem m st := StubState (stub_counters st) m (stub_bounds_sp st);
  count_ptr_store := stub_inc ptr_stores;
  fetch_bounds_ool st ptr derived t := Ret (st, stub_fetch_bounds_ool ptr derived t);
|}.
#[export] Instance stub_stack : StackEnv stub_state U := {|
  bounds_sp := stub_bounds_sp;
  set_bounds_sp v st := StubState (stub_counters st) (stub_mem st) v;
|}.
#[export] Instance stub_shadow_laws : ShadowEnvLaws stub_state U.
Proof. by split. Qed.
#[export] Instance stub_stack_laws : StackEnvLaws stub_state U.
Proof. by split. Qed.

(** The summary of the stub runtime is printed when pointers were dereferenced
    with counts kept, or on request. *)
Definition stub_prints_exit_summary st (always : bool) : bool :=
  negb ((stub_counters st ptr_derefs =? 0) && negb always).
End stubs.

(** With the stub runtime, derivation checks let every pointer through: a
    pointer without bounds gets unlimited ones, and with those every derived
    address is accepted, unchanged, and nothing is reported.  So an
    instrumented program computes the same pointers as one that is not. *)
Theorem stubs_accept_everything `{SC : SplitConfig} {U : Type} (st : stub_state) q a d (t : option U) :
  user_addr q -> user_addr a -> user_addr (a + d) ->
  full_check_derive_ptr st (a +w d) a (libcrunch_make_invalid_bounds q) t =
    Ret (true, a + d, libcrunch_max_bounds a, st) /\
  full_check_derive_ptr st (a +w d) a (libcrunch_max_bounds q) t =
    Ret (true, a + d, libcrunch_max_bounds a, st).
Proof.
  intros Hq Ha Hd.
  assert (a +w d = a + d) as -> by (apply wrap64_small; by apply user_u64).
  assert (Hin : austin (a + d) 0 (2 ^ 64 - 1) = true).
  { apply austin_spec; unfold user_addr, u64 in *; lia. }
  split.
  - rewrite (invalid_check_fetches st st q a d t (libcrunch_max_bounds a)) by
      (done || (cbn; by destruct no_pointer_type_info)).
    rewrite max_bounds_wide. cbn [base size libcrunch_bounds_invalid]. by rewrite Hin.
  - unfold full_check_derive_ptr. rewrite trap_live, split_derive, primary_split. cbn [negb].
    rewrite !max_bounds_wide. cbn [base size]. rewrite Hin, split_path.
    by rewrite is_trap_ptr_canonical by auto with word.
Qed.

(** ... and a stored pointer without bounds leaves unlimited bounds in its
    slot, which is what a later load of it finds. *)
Theorem stubs_store_unlimited `{SC : SplitConfig} {U : Type} (st : stub_state) dest val q p (t : U) :
  no_shadow_space = false -> no_pointer_type_info = false -> slot dest -> dest <> 0 -> val <> 0 -> p <> 0 ->
  exists st', store_pointer_nonlocal st dest val (libcrunch_make_invalid_bounds q) (Some t) = Ret st' /\
    fetch_bounds_inl (stub_mem st') p dest = libcrunch_max_bounds p.
Proof.
  intros Hns Hty Hd Hd0 Hv Hp. unfold store_pointer_nonlocal. rewrite Hns, split_counts, Hty.
  assert (libcrunch_bounds_invalid (libcrunch_make_invalid_bounds q) val = true) as ->
    by (unfold libcrunch_make_invalid_bounds; by rewrite wide_word).
  rewrite (proj2 (Z.eqb_neq val 0)) by done.
  assert (Hmax : forall r, libcrunch_bounds_invalid (libcrunch_max_bounds r) val = false)
    by (intros r; by rewrite max_bounds_wide).
  cbn [negb fetch_bounds_ool stub_shadow mbind outcome_bind]. unfold stub_fetch_bounds_ool.
  rewrite Hmax. cbn [mbind outcome_bind]. rewrite Hmax. cbn [negb orb].
  eexists. split; [reflexivity|]. cbn [set_mem stub_shadow stub_mem st_mem].
  rewrite fetch_entry, entry_store_same by (done || by rewrite max_bounds_wide).
  rewrite shadow_image_storable, !max_bounds_wide; [done|].
  rewrite max_bounds_wide. split; [by split|by right].
Qed.

(** ** Witnesses *)
Definition stub_start : stub_state := StubState (fun _ => 0) ∅ 0x7f0000010000.
Lemma stubs_accept_everything_witness :
  @full_check_derive_ptr config_p stub_state (option unit) (@stub_derive config_p unit) stub_start 0x2000 0x1000
    (@libcrunch_make_invalid_bounds config_p 0x1000) (Some tt) =
  Ret (true, 0x2000, Bounds 0 (2 ^ 64 - 1), stub_start).
Proof.
  apply (proj1 (stubs_accept_everything (C := config_p) (U := unit) stub_start 0x1000 0x1000 0x1000 (Some tt)
    ltac:(by split) ltac:(by split) ltac:(by split))).
Defined.

Lemma stubs_store_unlimited_witness :
  exists st', @store_pointer_nonlocal config_p stub_state unit (@stub_shadow config_p unit) stub_start 0x2aaaaaaac000 0x1000
      (@libcrunch_make_invalid_bounds config_p 0x1000) (Some tt) = Ret st' /\
    @fetch_bounds_inl config_p (stub_mem st') 0x1000 0x2aaaaaaac000 = Bounds 0 (2 ^ 64 - 1).
Proof.
  apply (stubs_store_unlimited (C := config_p) (U := unit) stub_start 0x2aaaaaaac000 0x1000 0x1000 0x1000 tt);
    [reflexivity|reflexivity|apply (bool_decide_unpack _); vm_compute; exact I|lia|lia|lia].
Defined.
