(* ===== verification/Provenance.v ===== *)
(** * Provenance shadows

    Another client of the shadow machinery ([frontend/c/shadowprov]) keeps one
    byte of provenance per pointer instead of bounds: a hash of the address of
    the allocation, zero for none.  The file models the inline functions of
    [shadowprov_helpers.h]: the hash, the shadow space, the shadow stack with
    its cookies, and the check on dereferences. *)
From S2P Require Import Prelude Config Memory.

Definition NULL_SHADOW : Z := 0.
Definition SPECIAL_SHADOW : Z := 255.

(** A shadow is a [char], kept as its byte; converted to [unsigned long] it is
    sign-extended. *)
Definition sext8 (b : Z) : Z := if b <? 128 then b else b + 2 ^ 64 - 2 ^ 8.

Record prov_state := ProvState { p_mem : mem; shadow_sp : Z; warnings : Z }.
Definition with_mem (m : mem) (st : prov_state) : prov_state := ProvState m (shadow_sp st) (warnings st).
Definition with_sp (sp : Z) (st : prov_state) : prov_state := ProvState (p_mem st) sp (warnings st).
Definition warnx (st : prov_state) : prov_state := ProvState (p_mem st) (shadow_sp st) (warnings st + 1).

Section prov.
(** liballocs' [__liballocs_get_alloc_base], null for unknown pointers. *)
Context (get_alloc_base : Z -> Z) (debug_level : Z).
Implicit Types (st : prov_state).

Definition shadow_stored_addr (addr : Z) : Z := Z.lxor (shl64 0x70 0x28) addr.
Definition make_invalid_shadow (v : Z) : Z := 0.

Definition IS_SANE_NONNULL (v : Z) : bool :=
  negb (v =? 0) &&
  ((0x000000400000 <=? v) && (v <=? 0x055500000000)
   || (0x2aaa00000000 <=? v) && (v <=? 0x2fff00000000)
   || (0x7aaa00000000 <=? v) && (v <=? 0x7fffffffffff)).

(** [arg] says whether the last argument, a pointer, is not null. *)
Definition store_shadow_nonlocal st (dest v shadow : Z) (arg : bool) : prov_state :=
  let addr := shadow_stored_addr dest in
  let st := if IS_SANE_NONNULL v && negb arg && (shadow =? 0) then warnx st else st in
  with_mem (store (p_mem st) addr 1 shadow) st.

Definition alloc_shadow_stack_space st (nbytes : Z) : outcome (Z * prov_state) :=
  let align := if nbytes <? 8 then nbytes else 8 in
  let alignment_delta := shadow_sp st mod align in
  if negb (alignment_delta =? 0) then Abort
  else
    let sp := shadow_sp st -w alignment_delta in
    let sp := sp -w (if nbytes mod align =? 0 then nbytes else align * (1 + nbytes / align)) in
    Ret (sp, with_sp sp st).

Definition shadow_from_word (arg : Z) : Z :=
  if arg =? 0 then NULL_SHADOW
  else (1 + Z.lxor (shr64 arg 8) (Z.land arg 0xff) mod 254) mod 256.

Definition make_shadow (arg1 arg2 : Z) : outcome Z :=
  if negb (arg2 =? 0) then Abort
  else if arg1 =? 0 then Ret NULL_SHADOW
  else
    let made := shadow_from_word arg1 in
    if (1 <? debug_level) && negb (made =? shadow_from_word (get_alloc_base arg1)) then Abort
    else Ret made.

Definition fetch_shadow_inl st (v loaded_from : Z) (t : bool) : outcome (Z * prov_state) :=
  if negb (loaded_from =? 0) then
    let s := byte (p_mem st) (shadow_stored_addr loaded_from) in
    Ret (s, if IS_SANE_NONNULL v && negb t && (s =? 0) then warnx st else st)
  else s ← make_shadow (get_alloc_base v) 0; Ret (s, st).

(** Pushing a word in [nbytes] of stack; the copy is always of eight bytes. *)
Definition push_word st (nbytes tmp : Z) : outcome prov_state :=
  '(b, st) ← alloc_shadow_stack_space st nbytes;
  Ret (with_mem (store8 (p_mem st) b tmp) st).

Definition push_local_argument_shadow st (shadow : Z) : outcome prov_state :=
  push_word st 8 (sext8 shadow).
Definition push_argument_shadow_manifest st (v arg1 arg2 : Z) : outcome prov_state :=
  s ← make_shadow arg1 arg2; push_word st 8 (sext8 s).
Definition push_argument_shadow_explicit st (v c : Z) : outcome prov_state :=
  push_word st 8 (sext8 c).
Definition fetch_and_push_argument_shadow st (v loaded_from : Z) (t : bool) : outcome prov_state :=
  '(s, st) ← fetch_shadow_inl st v loaded_from t; push_word st 8 (sext8 s).
Definition push_argument_shadow_cookie st (callee : Z) : outcome prov_state :=
  push_word st 8 callee.

Definition tweak_argument_shadow_cookie st (callee : Z) : bool * prov_state :=
  let top := load8 (p_mem st) (shadow_sp st) in
  if top =? callee
  then (true, with_mem (store8 (p_mem st) (shadow_sp st) (Z.lor top 0x800000000000)) st)
  else (false, st).

Definition peek_argument_shadow st (really : bool) (offset v : Z) : Z :=
  if really then byte (p_mem st) (shadow_sp st +w 8 +w offset * 8) else make_invalid_shadow v.

Definition peek_and_shadow_store_argument_shadow st (really : bool) (loaded_from offset v : Z) (t : bool)
    : prov_state :=
  if really
  then store_shadow_nonlocal st loaded_from v (peek_argument_shadow st really offset v) t
  else st.

Definition push_local_result_shadow st (really : bool) (shadow : Z) : outcome prov_state :=
  if really then push_word st 8 (sext8 shadow) else Ret st.
(** These two reserve one byte, [sizeof (__raw_shadow_t)], and copy eight; the
    first computes the shadow after reserving. *)
Definition push_result_shadow_manifest st (really : bool) (v arg1 arg2 : Z) : outcome prov_state :=
  if really then
    '(b, st) ← alloc_shadow_stack_space st 1;
    s ← make_shadow arg1 arg2;
    Ret (with_mem (store8 (p_mem st) b (sext8 s)) st)
  else Ret st.
Definition push_result_shadow_explicit st (really : bool) (v arg : Z) : outcome prov_state :=
  if really then push_word st 1 (sext8 arg) else Ret st.
Definition fetch_and_push_result_shadow st (really : bool) (v loaded_from : Z) (t : bool)
    : outcome prov_state :=
  if really then '(s, st) ← fetch_shadow_inl st v loaded_from t; push_word st 8 (sext8 s) else Ret st.

(** The warning about missing results is a trace message, printed at every
    debug level. *)
Definition peek_result_shadow st (really : bool) (offset v : Z) : Z * prov_state :=
  if really then (byte (p_mem st) (shadow_sp st +w offset * 8), st)
  else (make_invalid_shadow v,
        if IS_SANE_NONNULL v && (0 <=? debug_level) then warnx st else st).

Definition cleanup_shadow_stack st (saved_ptr : Z) : prov_state := with_sp saved_ptr st.

Definition prov_check_deref (addr derefed_shadow : Z) : outcome bool :=
  if addr =? 0 then Abort
  else if negb (derefed_shadow =? 0) && negb (derefed_shadow =? 255) then
    let base_shadow := shadow_from_word (get_alloc_base addr) in
    if base_shadow =? derefed_shadow then Ret true else Abort
  else Abort.

(** ** Properties *)

Lemma shadow_from_word_cases arg : u64 arg ->
  (arg = 0 /\ shadow_from_word arg = NULL_SHADOW) \/ (arg <> 0 /\ 1 <= shadow_from_word arg <= 254).
Proof.
  intros Ha. unfold shadow_from_word. destruct (Z.eqb_spec arg 0) as [->|Hne]; [by left|right].
  split; [done|]. assert (0 <= Z.lxor (shr64 arg 8) (Z.land arg 255) mod 254 < 254)
    by (apply Z.mod_pos_bound; lia).
  rewrite Z.mod_small; lia.
Qed.

(** The provenance check passes exactly when the pointer carries the
    provenance of the allocation it points into: a null pointer, a pointer with
    null or special provenance, one into no known allocation, and one whose
    provenance hashes differently all abort; and a shadow made for the base of
    the allocation always passes. *)
Theorem prov_check_deref_spec addr s :
  u64 (get_alloc_base addr) ->
  (prov_check_deref addr s = Ret true <->
     addr <> 0 /\ get_alloc_base addr <> 0 /\ s = shadow_from_word (get_alloc_base addr)) /\
  (prov_check_deref addr s <> Ret true -> prov_check_deref addr s = Abort) /\
  (addr <> 0 -> get_alloc_base addr <> 0 -> get_alloc_base (get_alloc_base addr) = get_alloc_base addr ->
     exists made, make_shadow (get_alloc_base addr) 0 = Ret made /\ prov_check_deref addr made = Ret true).
Proof.
  intros Hu. assert (Hiff : prov_check_deref addr s = Ret true <->
    addr <> 0 /\ get_alloc_base addr <> 0 /\ s = shadow_from_word (get_alloc_base addr)).
  { unfold prov_check_deref. destruct (shadow_from_word_cases _ Hu) as [[Hz Hs]|[Hnz Hs]];
      unfold NULL_SHADOW in *; destruct (Z.eqb_spec addr 0), (Z.eqb_spec s 0), (Z.eqb_spec s 255),
        (Z.eqb_spec (shadow_from_word (get_alloc_base addr)) s); cbn [negb andb];
      split; try done; try (intros (? & ? & ?); lia); intros _; split; try done; split; congruence || lia. }
  split; [done|]. split.
  { unfold prov_check_deref. repeat case_match; done. }
  intros Ha Hb Hbb. exists (shadow_from_word (get_alloc_base addr)). split.
  - unfold make_shadow. cbn [Z.eqb negb]. rewrite (proj2 (Z.eqb_neq _ 0) Hb), Hbb, Z.eqb_refl.
    by rewrite andb_false_r.
  - unfold prov_check_deref. rewrite (proj2 (Z.eqb_neq _ 0) Ha).
    destruct (shadow_from_word_cases _ Hu) as [[Hz Hs]|[Hnz Hs]]; [done|].
    rewrite (proj2 (Z.eqb_neq _ 0)), (proj2 (Z.eqb_neq _ 255)) by lia. cbn [negb andb]. by rewrite Z.eqb_refl.
Qed.

Lemma shadow_stored_addr_inj a b : shadow_stored_addr a = shadow_stored_addr b -> a = b.
Proof.
  unfold shadow_stored_addr. intros Heq.
  rewrite <- (Z.lxor_0_l a), <- (Z.lxor_0_l b), <- (Z.lxor_nilpotent (shl64 0x70 0x28)), !Z.lxor_assoc.
  by rewrite Heq.
Qed.

(** Provenance stored with a pointer is the provenance loaded with it, and
    storing to one slot leaves the provenance of every other alone. *)
Theorem prov_store_fetch st dest v s arg v' t :
  0 <= s < 256 -> dest <> 0 ->
  exists st', fetch_shadow_inl (store_shadow_nonlocal st dest v s arg) v' dest t = Ret (s, st') /\
  (forall other, other <> dest -> other <> 0 -> forall st1 s1,
     fetch_shadow_inl st v' other t = Ret (s1, st1) ->
     exists st2, fetch_shadow_inl (store_shadow_nonlocal st dest v s arg) v' other t = Ret (s1, st2)).
Proof.
  intros Hs Hd. unfold fetch_shadow_inl.
  assert (Hm : p_mem (store_shadow_nonlocal st dest v s arg) = store (p_mem st) (shadow_stored_addr dest) 1 s)
    by (unfold store_shadow_nonlocal; destruct (_ && _ && _); done).
  rewrite (proj2 (Z.eqb_neq dest 0) Hd). cbn [negb]. rewrite Hm. cbn [store].
  rewrite byte_insert, ?Z.mod_mod, (Z.mod_small s) by lia.
  eexists. split; [reflexivity|]. intros other Ho Ho0 st1 s1.
  rewrite (proj2 (Z.eqb_neq other 0) Ho0). cbn [negb]. intros [= <- _].
  rewrite byte_insert_ne by (intros He; apply Ho; by apply shadow_stored_addr_inj). by eexists.
Qed.
End prov.

Section stack.
Implicit Types (st : prov_state).

Lemma push_word_spec st tmp :
  u64 (shadow_sp st) -> shadow_sp st mod 8 = 0 -> 8 <= shadow_sp st ->
  push_word st 8 tmp = Ret (ProvState (store8 (p_mem st) (shadow_sp st - 8) tmp) (shadow_sp st - 8) (warnings st)).
Proof.
  intros Hu Ha Hr. unfold push_word, alloc_shadow_stack_space. cbn [Z.ltb Z.compare].
  change (8 <? 8) with false. cbv iota. rewrite Ha. cbn [Z.eqb negb].
  change (8 mod 8 =? 0) with true. cbv iota. cbn [mbind outcome_bind].
  unfold sub64. rewrite Z.sub_0_r, (wrap64_small (shadow_sp st)) by done.
  rewrite wrap64_small by (unfold u64 in *; lia). done.
Qed.

(** A caller's sequence: the shadows of the arguments, last first, and the
    cookie. *)
Fixpoint push_argument_shadows st (ss : list Z) : outcome prov_state :=
  match ss with
  | [] => Ret st
  | s :: ss => st ← push_argument_shadows st ss; push_local_argument_shadow st s
  end.

Lemma byte_store8_first m a v : byte (store8 m a v) a = v mod 256.
Proof. unfold store8. cbn [store]. by rewrite byte_insert, Z.mod_mod by lia. Qed.

Lemma sext8_byte s : 0 <= s < 256 -> sext8 s mod 256 = s.
Proof. intros Hs. unfold sext8. destruct (Z.ltb_spec s 128); mod_lia. Qed.

Lemma push_shadows_spec ss : forall st,
  u64 (shadow_sp st) -> shadow_sp st mod 8 = 0 -> 8 * Z.of_nat (length ss) <= shadow_sp st ->
  Forall (fun s => 0 <= s < 256) ss ->
  exists st', push_argument_shadows st ss = Ret st' /\
    shadow_sp st' = shadow_sp st - 8 * Z.of_nat (length ss) /\
    (forall i s, ss !! i = Some s -> byte (p_mem st') (shadow_sp st' + 8 * Z.of_nat i) = s) /\
    (forall i, i < shadow_sp st - 8 * Z.of_nat (length ss) \/ shadow_sp st <= i ->
       byte (p_mem st') i = byte (p_mem st) i).
Proof.
  induction ss as [|s ss IH]; intros st Hu Ha Hr HF; cbn [push_argument_shadows length] in *.
  { exists st. split; [done|]. split; [lia|]. split; [done|done]. }
  apply Forall_cons in HF as [Hs HF].
  destruct (IH st Hu Ha ltac:(lia) HF) as (st1 & -> & Hsp & Hb & Hfr). cbn [mbind outcome_bind].
  unfold push_local_argument_shadow. rewrite push_word_spec; [|rewrite Hsp..].
  2:{ unfold u64 in *; lia. } 2:{ mod_lia. } 2:{ lia. }
  eexists. split; [reflexivity|]. cbn [shadow_sp p_mem]. split; [lia|]. split.
  - intros [|i] x; cbn [lookup list_lookup].
    + intros [= <-]. rewrite Z.add_0_r, byte_store8_first. by apply sext8_byte.
    + intros Hx. unfold store8. rewrite byte_store_other by lia. rewrite <- (Hb i x Hx). f_equal. lia.
  - intros i Hi. unfold store8. rewrite byte_store_other by lia. apply Hfr. lia.
Qed.

(** The stack as an instrumented callee finds it: a cookie, and above it the
    shadows of the arguments. *)
Definition entered st c (ss : list Z) : Prop :=
  load8 (p_mem st) (shadow_sp st) = c /\
  forall i s, ss !! i = Some s -> byte (p_mem st) (shadow_sp st + 8 + 8 * Z.of_nat i) = s.

Lemma tweaked_cookie c : 0 <= c < 2 ^ 47 ->
  u64 (Z.lor c 0x800000000000) /\ forall o, 0 <= o < 2 ^ 47 -> Z.lor c 0x800000000000 <> o.
Proof.
  intros Hc. change 0x800000000000 with (1 * 2 ^ 47).
  rewrite Z.lor_comm, <- (Z.mod_small c (2 ^ 47)), lor_high_low by lia.
  rewrite Z.mod_small by lia. unfold u64. split; lia.
Qed.

(** The caller's sequence, and the callee's consumption of the cookie. *)
Lemma prov_caller_enters st ss c :
  u64 (shadow_sp st) -> shadow_sp st mod 8 = 0 -> 8 * (Z.of_nat (length ss) + 1) <= shadow_sp st ->
  Forall (fun s => 0 <= s < 256) ss -> u64 c ->
  exists st1, (st' ← push_argument_shadows st ss; push_argument_shadow_cookie st' c) = Ret st1 /\
    shadow_sp st1 = shadow_sp st - 8 * (Z.of_nat (length ss) + 1) /\ entered st1 c ss /\
    (forall i, i < shadow_sp st - 8 * (Z.of_nat (length ss) + 1) \/ shadow_sp st <= i ->
       byte (p_mem st1) i = byte (p_mem st) i).
Proof.
  intros Hu Ha Hr HF Hc.
  destruct (push_shadows_spec ss st Hu Ha ltac:(lia) HF) as (st0 & -> & Hsp & Hb & Hfr).
  cbn [mbind outcome_bind]. unfold push_argument_shadow_cookie.
  rewrite push_word_spec; [|rewrite Hsp..]. 2:{ unfold u64 in *; lia. } 2:{ mod_lia. } 2:{ lia. }
  eexists. split; [reflexivity|]. unfold entered. cbn [p_mem shadow_sp].
  split; [lia|]. split; [split|].
  - by apply load8_store8.
  - intros i s Hi. unfold store8. rewrite byte_store_other by lia.
    rewrite <- (Hb i s Hi). f_equal. lia.
  - intros i Hi. unfold store8. rewrite byte_store_other by lia. apply Hfr. lia.
Qed.

Lemma prov_tweak_entered st c ss :
  0 <= c < 2 ^ 47 -> entered st c ss ->
  exists st', tweak_argument_shadow_cookie st c = (true, st') /\
    shadow_sp st' = shadow_sp st /\ entered st' (Z.lor c 0x800000000000) ss /\
    (forall i, i < shadow_sp st \/ shadow_sp st + 8 <= i -> byte (p_mem st') i = byte (p_mem st) i).
Proof.
  intros Hc [Hck Hss]. destruct (tweaked_cookie c Hc) as [Hu _].
  unfold tweak_argument_shadow_cookie. rewrite Hck, Z.eqb_refl. eexists. split; [reflexivity|].
  unfold entered. cbn [with_mem p_mem shadow_sp]. split; [done|]. split; [split|].
  - by apply load8_store8.
  - intros i s Hi. unfold store8. rewrite byte_store_other by lia. by apply Hss.
  - intros i Hi. unfold store8. by apply byte_store_other; lia.
Qed.

Lemma prov_tweak_other st c :
  load8 (p_mem st) (shadow_sp st) <> c -> tweak_argument_shadow_cookie st c = (false, st).
Proof. intros Hc. unfold tweak_argument_shadow_cookie. by rewrite (proj2 (Z.eqb_neq _ _)). Qed.

Lemma prov_peek_entered st c ss i s v :
  entered st c ss -> ss !! i = Some s -> 0 <= shadow_sp st ->
  shadow_sp st + 8 * (Z.of_nat (length ss) + 1) < 2 ^ 64 ->
  peek_argument_shadow st true (Z.of_nat i) v = s.
Proof.
  intros [_ Hss] Hi Hu Hr. unfold peek_argument_shadow. rewrite <- (Hss i s Hi). f_equal.
  apply lookup_lt_Some in Hi. unfold add64, wrap64.
  rewrite Zplus_mod_idemp_l, Z.mod_small by lia. lia.
Qed.

(** Provenance crosses an instrumented call: the callee that finds its own
    cookie reads exactly the provenance of each argument the caller pushed, and
    consumes the cookie so that no other callee finds it; a callee that finds
    another cookie gets null provenance for every argument. *)
Theorem prov_arguments_delivered st ss callee v :
  u64 (shadow_sp st) -> shadow_sp st mod 8 = 0 -> 8 * (Z.of_nat (length ss) + 1) <= shadow_sp st ->
  Forall (fun s => 0 <= s < 256) ss -> 0 <= callee < 2 ^ 47 ->
  exists st1, (st' ← push_argument_shadows st ss; push_argument_shadow_cookie st' callee) = Ret st1 /\
    (forall other, other <> callee -> tweak_argument_shadow_cookie st1 other = (false, st1)) /\
    exists st2, tweak_argument_shadow_cookie st1 callee = (true, st2) /\
      (forall i s, ss !! i = Some s -> peek_argument_shadow st2 true (Z.of_nat i) v = s) /\
      (forall i, peek_argument_shadow st1 false i v = NULL_SHADOW) /\
      (forall other, 0 <= other < 2 ^ 47 -> tweak_argument_shadow_cookie st2 other = (false, st2)).
Proof.
  intros Hu Ha Hr HF Hc.
  destruct (prov_caller_enters st ss callee) as (st1 & H1 & Hsp & He & _); try done; [unfold u64; lia|].
  exists st1. split; [done|]. split.
  { intros other Ho. apply prov_tweak_other. destruct He as [-> _]. congruence. }
  destruct (prov_tweak_entered st1 callee ss Hc He) as (st2 & H2 & Hsp2 & He2 & _).
  exists st2. split; [done|]. split; [|split; [done|]].
  - intros i s Hi. apply (prov_peek_entered st2 _ ss i s v He2 Hi); rewrite Hsp2, Hsp; unfold u64 in *; lia.
  - intros other Ho. apply prov_tweak_other. destruct He2 as [-> _]. by apply tweaked_cookie.
Qed.

(** Pushing a manifest or explicit result reserves one byte and writes
    eight: the shadow is delivered, but the seven bytes above it - the cookie -
    are overwritten, and the stack is left misaligned, so that pushing anything
    of word size before the caller cleans up aborts. *)
Theorem explicit_result_misaligns debug_level st v s tmp :
  u64 (shadow_sp st) -> shadow_sp st mod 8 = 0 -> 8 <= shadow_sp st -> 0 <= s < 256 ->
  exists st', push_result_shadow_explicit st true v s = Ret st' /\
    peek_result_shadow debug_level st' true 0 v = (s, st') /\
    shadow_sp st' = shadow_sp st - 1 /\
    load (p_mem st') (shadow_sp st) 7 = sext8 s / 256 /\
    push_word st' 8 tmp = Abort.
Proof.
  intros Hu Ha Hr Hs. unfold push_result_shadow_explicit, push_word, alloc_shadow_stack_space.
  change (1 <? 8) with true. cbv iota. rewrite Z.mod_1_r. cbn [Z.eqb negb]. rewrite Z.mod_1_r.
  cbn [Z.eqb mbind outcome_bind].
  assert ((shadow_sp st -w 0 -w 1) = shadow_sp st - 1) as ->.
  { unfold sub64. rewrite Z.sub_0_r, (wrap64_small (shadow_sp st)) by done.
    by rewrite wrap64_small by (unfold u64 in *; lia). }
  eexists. split; [reflexivity|]. cbn [with_mem with_sp p_mem shadow_sp].
  split; [|split; [done|split]].
  - unfold peek_result_shadow. cbn [with_mem with_sp p_mem shadow_sp]. f_equal.
    assert ((shadow_sp st - 1 +w 0 * 8) = shadow_sp st - 1) as ->.
    { unfold add64. rewrite wrap64_small; [lia|unfold u64 in *; lia]. }
    rewrite byte_store8_first. by apply sext8_byte.
  - unfold store8. change 8%nat with (S 7). cbn [store].
    rewrite (load_ext _ (store (p_mem st) (shadow_sp st - 1 + 1) 7 (sext8 s / 256))).
    + replace (shadow_sp st - 1 + 1) with (shadow_sp st) by lia. rewrite load_store_same.
      change (8 * Z.of_nat 7) with 56. apply Z.mod_small. unfold sext8.
      destruct (Z.ltb_spec s 128); mod_lia.
    + intros i Hi. by rewrite byte_insert_ne by lia.
  - change (8 <? 8) with false. cbv iota.
    rewrite (proj2 (Z.eqb_neq _ 0)); [done|]. mod_lia.
Qed.
End stack.

(** ** Witnesses *)
Definition ex_base (p : Z) : Z := if (0x1000 <=? p) && (p <? 0x2000) then 0x1000 else 0.
Definition ex_prov : prov_state := ProvState ∅ 0x7f0000010000 0.

Lemma prov_check_deref_spec_witness :
  prov_check_deref ex_base 0x1234 (shadow_from_word 0x1000) = Ret true /\
  prov_check_deref ex_base 0x2234 (shadow_from_word 0x1000) = Abort.
Proof.
  split.
  - apply (proj1 (prov_check_deref_spec ex_base 0 0x1234 _ ltac:(vm_compute; split; congruence))).
    split; [lia|]. split; [vm_compute; congruence|reflexivity].
  - apply (proj1 (proj2 (prov_check_deref_spec ex_base 0 0x2234 _ ltac:(vm_compute; split; congruence)))).
    vm_compute. discriminate.
Defined.

Lemma prov_store_fetch_witness :
  exists st', fetch_shadow_inl ex_base 0 (store_shadow_nonlocal ex_prov 0x2aaaaaaac000 0x1234 77 true)
    0x1234 0x2aaaaaaac000 true = Ret (77, st').
Proof.
  destruct (prov_store_fetch ex_base 0 ex_prov 0x2aaaaaaac000 0x1234 77 true 0x1234 true) as (st' & Hf & _);
    [lia|lia|]. exists st'. exact Hf.
Defined.

Lemma prov_arguments_delivered_witness :
  exists st1 st2, (st' ← push_argument_shadows ex_prov [77; 200]; push_argument_shadow_cookie st' 0x401000) = Ret st1 /\
    tweak_argument_shadow_cookie st1 0x401000 = (true, st2) /\ peek_argument_shadow st2 true 1 0 = 200.
Proof.
  destruct (prov_arguments_delivered ex_prov [77; 200] 0x401000 0) as (st1 & H1 & _ & st2 & H2 & H3 & _).
  - unfold u64; cbn; lia.
  - reflexivity.
  - vm_compute; discriminate.
  - apply (bool_decide_unpack _); vm_compute; exact I.
  - lia.
  - exists st1, st2. split; [exact H1|]. split; [exact H2|]. exact (H3 1%nat 200 eq_refl).
Defined.

Lemma explicit_result_misaligns_witness :
  exists st', push_result_shadow_explicit ex_prov true 0 77 = Ret st' /\ push_word st' 8 0 = Abort.
Proof.
  destruct (explicit_result_misaligns 0 ex_prov 0 77 0) as (st' & H1 & _ & _ & _ & H2).
  - unfold u64; cbn; lia.
  - reflexivity.
  - vm_compute; discriminate.
  - lia.
  - exists st'. split; [exact H1|exact H2].
Defined.
