(* ===== verification/ProvWrappers.v ===== *)
(** * Provenance wrappers of libc functions

    Programs built with provenance shadows are linked with [--wrap] against the
    wrappers of [frontend/c/shadowprov/shadowprov_libc_wrappers.c], which push
    the provenance of what the real function returned for an instrumented
    caller.  The file models every wrapper that returns a pointer, the
    allocation functions with the memory they clear, and proves that the caller
    gets the provenance of the object the result points into.  The real
    functions, whatever they do to the state, are parameters. *)
From S2P Require Import Prelude Config Memory Provenance.

(** The wrappers with a static cache of the shadow they return. *)
Inductive static_fn := SErrno_location | SCtype_b_loc | SCtype_toupper_loc | SCtype_tolower_loc | SLocaltime.
#[export] Instance static_fn_eq_dec : EqDecision static_fn.
Proof. solve_decision. Defined.

(** What a wrapper reads and writes: the shadow stack and memory, liballocs'
    and libc's own state, and the globals of the file. *)
Record wrap_state (W : Type) := WrapState {
  pv : prov_state;
  world : W;
  current_allocsite : Z;
  real_qsort_cb : Z;
  statics : static_fn -> Z;
}.
Arguments WrapState {W}.
Arguments pv {W}. Arguments world {W}. Arguments current_allocsite {W}.
Arguments real_qsort_cb {W}. Arguments statics {W}.

Section wrappers.
Context {W : Type}.
(** liballocs' [__liballocs_get_alloc_base], in its current state. *)
Context (get_alloc_base : W -> Z -> Z) (debug_level : Z).
Implicit Types (st : wrap_state W).

Definition with_pv (p : prov_state) st : wrap_state W :=
  WrapState p (world st) (current_allocsite st) (real_qsort_cb st) (statics st).
Definition with_allocsite (a : Z) st : wrap_state W :=
  WrapState (pv st) (world st) a (real_qsort_cb st) (statics st).
Definition with_qsort_cb (cb : Z) st : wrap_state W :=
  WrapState (pv st) (world st) (current_allocsite st) cb (statics st).
Definition set_static (f : static_fn) (s : Z) st : wrap_state W :=
  WrapState (pv st) (world st) (current_allocsite st) (real_qsort_cb st)
    (fun g => if bool_decide (g = f) then s else statics st g).
Definition w_sp st : Z := shadow_sp (pv st).
Definition w_mem st : mem := p_mem (pv st).
Definition write_mem (m : mem) st : wrap_state W := with_pv (with_mem m (pv st)) st.

Definition alloc_base st (p : Z) : Z := get_alloc_base (world st) p.

(** ** The macros *)
Definition BEGIN st (callee : Z) : bool * wrap_state W :=
  let '(caller_is_inst, p) := tweak_argument_shadow_cookie (pv st) callee in
  (caller_is_inst, with_pv p st).

(** What a wrapper says of the provenance of its result. *)
Inductive returning :=
| Shadowable (arg1 arg2 : Z)
| WithArgshadow (off argname : Z)
| Fresh
| Explicit (c : Z).

Definition RETURN_SHADOWABLE st (inst : bool) (v arg1 arg2 : Z) : outcome (Z * wrap_state W) :=
  p ← push_result_shadow_manifest (get_alloc_base (world st)) debug_level (pv st) inst v arg1 arg2;
  Ret (v, with_pv p st).
Definition RETURN_SHADOWABLE_WITH_ARGSHADOW st (inst : bool) (v off argname : Z) : outcome (Z * wrap_state W) :=
  p ← push_local_result_shadow (pv st) inst (peek_argument_shadow (pv st) inst off argname);
  Ret (v, with_pv p st).
Definition RETURN_SHADOWABLE_FRESH st (inst : bool) (v : Z) : outcome (Z * wrap_state W) :=
  p ← push_result_shadow_manifest (get_alloc_base (world st)) debug_level (pv st) inst v
        (if v =? 0 then 0 else alloc_base st v) 0;
  Ret (v, with_pv p st).
Definition RETURN_SHADOWABLE_EXPLICIT st (inst : bool) (v c : Z) : outcome (Z * wrap_state W) :=
  p ← push_result_shadow_explicit (pv st) inst v c; Ret (v, with_pv p st).
Definition RETURN_INTEGER st (inst : bool) (v : Z) : outcome (Z * wrap_state W) :=
  RETURN_SHADOWABLE st inst v NULL_SHADOW 0.

Definition GENERATE_FROM_BASE st (v : Z) : outcome Z :=
  make_shadow (get_alloc_base (world st)) debug_level v 0.

(** [if (!shadow) shadow = GENERATE_FROM_BASE(v).byte] *)
Definition fill_shadow st (f : static_fn) (v : Z) : outcome (wrap_state W) :=
  if statics st f =? 0 then s ← GENERATE_FROM_BASE st v; Ret (set_static f s st) else Ret st.

Definition return_with st (inst : bool) (v : Z) (r : returning) : outcome (Z * wrap_state W) :=
  match r with
  | Shadowable arg1 arg2 => RETURN_SHADOWABLE st inst v arg1 arg2
  | WithArgshadow off argname => RETURN_SHADOWABLE_WITH_ARGSHADOW st inst v off argname
  | Fresh => RETURN_SHADOWABLE_FRESH st inst v
  | Explicit c => RETURN_SHADOWABLE_EXPLICIT st inst v c
  end.
Definition Null : returning := Shadowable NULL_SHADOW 0.

(** A wrapper: [BEGIN], what it does around the call of the real function, and
    the macro it returns with. *)
Definition wrapper (callee : Z) (body : wrap_state W -> outcome (Z * returning * wrap_state W)) st
    : outcome (Z * wrap_state W) :=
  let '(caller_is_inst, st) := BEGIN st callee in
  '(v, r, st) ← body st;
  return_with st caller_is_inst v r.

(** ** The wrappers that forward to the real function *)
Definition real := wrap_state W -> outcome (Z * wrap_state W).

Definition tmpfile (REAL : real) st : outcome (Z * returning * wrap_state W) :=
  '(ret, st) ← REAL st; Ret (ret, Fresh, st).
Definition fdopendir (REAL : real) st : outcome (Z * returning * wrap_state W) :=
  '(ret, st) ← REAL st; Ret (ret, Fresh, st).
Definition strchr (s : Z) (REAL : real) st : outcome (Z * returning * wrap_state W) :=
  '(ret, st) ← REAL st;
  Ret (if negb (ret =? 0) then (ret, WithArgshadow 0 s, st) else (0, Null, st)).
Definition rawmemchr (s : Z) (REAL : real) st : outcome (Z * returning * wrap_state W) :=
  '(ret, st) ← REAL st;
  Ret (if negb (ret =? 0) then (ret, WithArgshadow 0 s, st) else (0, Null, st)).
Definition errno_location (REAL : real) st : outcome (Z * returning * wrap_state W) :=
  '(ret, st) ← REAL st;
  st ← fill_shadow st SErrno_location ret;
  Ret (ret, Explicit (statics st SErrno_location), st).
(** The three [ctype] tables. *)
Definition ctype_loc (f : static_fn) (REAL : real) st : outcome (Z * returning * wrap_state W) :=
  '(ret, st) ← REAL st;
  st ← fill_shadow st f (alloc_base st ret);
  Ret (ret, Explicit (statics st f), st).
Definition ctype_b_loc := ctype_loc SCtype_b_loc.
Definition ctype_toupper_loc := ctype_loc SCtype_toupper_loc.
Definition ctype_tolower_loc := ctype_loc SCtype_tolower_loc.
Definition fopen (REAL : real) st : outcome (Z * returning * wrap_state W) :=
  '(ret, st) ← REAL st; Ret (ret, Fresh, st).
Definition strtok (REAL : real) st : outcome (Z * returning * wrap_state W) :=
  '(ret, st) ← REAL st; Ret (ret, Fresh, st).
Definition fgets (s : Z) (REAL : real) st : outcome (Z * returning * wrap_state W) :=
  '(ret, st) ← REAL st;
  Ret (if negb (ret =? 0) then (ret, WithArgshadow 0 s, st) else (0, Null, st)).
Definition strstr (haystack : Z) (REAL : real) st : outcome (Z * returning * wrap_state W) :=
  '(ret, st) ← REAL st; Ret (ret, WithArgshadow 0 haystack, st).
Definition strdup (REAL : real) st : outcome (Z * returning * wrap_state W) :=
  '(ret, st) ← REAL st; Ret (ret, Fresh, st).
Definition getenv (REAL : real) st : outcome (Z * returning * wrap_state W) :=
  '(ret, st) ← REAL st; Ret (if negb (ret =? 0) then (ret, Fresh, st) else (0, Null, st)).
Definition dlsym (REAL : real) st : outcome (Z * returning * wrap_state W) :=
  '(ret, st) ← REAL st; Ret (if negb (ret =? 0) then (ret, Fresh, st) else (0, Null, st)).
Definition strrchr (s : Z) (REAL : real) st : outcome (Z * returning * wrap_state W) :=
  '(ret, st) ← REAL st;
  Ret (if negb (ret =? 0) then (ret, WithArgshadow 0 s, st) else (0, Null, st)).
Definition localtime (REAL : real) st : outcome (Z * returning * wrap_state W) :=
  '(ret, st) ← REAL st;
  if negb (ret =? 0) then
    st ← fill_shadow st SLocaltime ret;
    Ret (ret, Explicit (statics st SLocaltime), st)
  else Ret (0, Null, st).
Definition dlopen (REAL : real) st : outcome (Z * returning * wrap_state W) :=
  '(ret, st) ← REAL st;
  if negb (ret =? 0) then s ← GENERATE_FROM_BASE st ret; Ret (ret, Explicit s, st)
  else Ret (0, Null, st).
(** These return their argument, whatever the real function returned. *)
Definition strcat (dest : Z) (REAL : real) st : outcome (Z * returning * wrap_state W) :=
  '(ret, st) ← REAL st; Ret (dest, WithArgshadow 0 dest, st).
Definition getcwd (buf : Z) (REAL : real) st : outcome (Z * returning * wrap_state W) :=
  '(ret, st) ← REAL st;
  Ret (if negb (ret =? 0) then (buf, WithArgshadow 0 buf, st) else (0, Null, st)).
Definition fdopen (REAL : real) st : outcome (Z * returning * wrap_state W) :=
  '(ret, st) ← REAL st; Ret (ret, Fresh, st).
Definition wrap_memset (s : Z) (REAL : real) st : outcome (Z * returning * wrap_state W) :=
  '(ret, st) ← REAL st; Ret (s, WithArgshadow 0 s, st).
Definition strcpy (dest : Z) (REAL : real) st : outcome (Z * returning * wrap_state W) :=
  '(ret, st) ← REAL st; Ret (dest, WithArgshadow 0 dest, st).
Definition fgetc (REAL : real) st : outcome (Z * returning * wrap_state W) :=
  '(ret, st) ← REAL st; Ret (ret, Null, st).

Inductive libc_function :=
| Tmpfile | Fdopendir | Strchr (s : Z) | Rawmemchr (s : Z) | Errno_location | Ctype_b_loc
| Ctype_toupper_loc | Ctype_tolower_loc | Fopen | Strtok | Fgets (s : Z) | Strstr (haystack : Z)
| Strdup | Getenv | Dlsym | Strrchr (s : Z) | Localtime | Dlopen | Strcat (dest : Z)
| Getcwd (buf : Z) | Fdopen | Memset (s : Z) | Strcpy (dest : Z) | Fgetc.

Definition libc_body (f : libc_function) : real -> wrap_state W -> outcome (Z * returning * wrap_state W) :=
  match f with
  | Tmpfile => tmpfile | Fdopendir => fdopendir | Strchr s => strchr s | Rawmemchr s => rawmemchr s
  | Errno_location => errno_location | Ctype_b_loc => ctype_b_loc
  | Ctype_toupper_loc => ctype_toupper_loc | Ctype_tolower_loc => ctype_tolower_loc
  | Fopen => fopen | Strtok => strtok | Fgets s => fgets s | Strstr h => strstr h
  | Strdup => strdup | Getenv => getenv | Dlsym => dlsym | Strrchr s => strrchr s
  | Localtime => localtime | Dlopen => dlopen | Strcat d => strcat d | Getcwd b => getcwd b
  | Fdopen => fdopen | Memset s => wrap_memset s | Strcpy d => strcpy d | Fgetc => fgetc
  end.
Definition libc_wrapper (f : libc_function) (callee : Z) (REAL : real) : real :=
  wrapper callee (libc_body f REAL).

(** ** Allocation

    The call site is remembered for liballocs around the call of the real
    allocator, unless somebody further up has set it. *)
Definition call_at_allocsite (return_address : Z) (REAL : real) : real := fun st =>
  let we_set_allocsite := current_allocsite st =? 0 in
  let st := if we_set_allocsite then with_allocsite return_address st else st in
  '(ret, st) ← REAL st;
  Ret (ret, if we_set_allocsite then with_allocsite 0 st else st).

(** [__builtin_memset (p, 0, n)]; on a null pointer it is undefined unless
    [n] is zero. *)
Definition memset0 (p n : Z) st : outcome (wrap_state W) :=
  if (p =? 0) && negb (n =? 0) then Unreachable
  else Ret (write_mem (write_bytes (w_mem st) p (replicate (Z.to_nat n) 0)) st).

Definition malloc (return_address s : Z) (REAL : real) st : outcome (Z * returning * wrap_state W) :=
  '(ret, st) ← call_at_allocsite return_address REAL st;
  if negb (ret =? 0) then st ← memset0 ret s st; Ret (ret, Fresh, st)
  else Ret (0, Null, st).
Definition calloc (return_address : Z) (REAL : real) st : outcome (Z * returning * wrap_state W) :=
  '(ret, st) ← call_at_allocsite return_address REAL st;
  Ret (if negb (ret =? 0) then (ret, Fresh, st) else (0, Null, st)).

(** [malloc_usable_size] is libc's. *)
Definition realloc (malloc_usable_size : W -> Z -> Z) (return_address p size : Z) (REAL : real) st
    : outcome (Z * returning * wrap_state W) :=
  let orig_size := if negb (p =? 0) then malloc_usable_size (world st) p else 0 in
  '(ret, st) ← call_at_allocsite return_address REAL st;
  if ret =? p then
    st ← (if orig_size <? size then memset0 (ret +w orig_size) (size -w orig_size) st else Ret st);
    Ret (ret, WithArgshadow 0 p, st)
  else
    st ← (if negb (ret =? 0) && (p =? 0) then memset0 ret size st else Ret st);
    if negb (ret =? 0) then
      st ← (if orig_size <? size then memset0 (ret +w orig_size) (size -w orig_size) st else Ret st);
      Ret (ret, Fresh, st)
    else Ret (0, Null, st).
End wrappers.

Arguments returning : clear implicits.

(** ** An instrumented call

    The caller pushes the shadows of the arguments and the cookie, remembers
    where the cookie is, calls, peeks the shadow of the result if the cookie has
    changed, and cleans up ([frontend/c/shadow/shadow.ml] emits the sequence). *)
Section protocol.
Context {W : Type} (debug_level : Z).
Implicit Types (st : wrap_state W).

Definition instrumented_call st (callee : Z) (ss : list Z) (body : wrap_state W -> outcome (Z * wrap_state W))
    : outcome (Z * Z * wrap_state W) :=
  let saved := w_sp st in
  p ← push_argument_shadows (pv st) ss;
  p ← push_argument_shadow_cookie p callee;
  let cookie_stackaddr := shadow_sp p in
  '(ret, st) ← body (with_pv p st);
  let really := negb (load8 (w_mem st) cookie_stackaddr =? callee) in
  let '(s, p) := peek_result_shadow debug_level (pv st) really 0 ret in
  Ret (ret, s, with_pv (cleanup_shadow_stack p saved) st).
End protocol.

(** ** Properties *)
Section properties.
Context {W : Type} (get_alloc_base : W -> Z -> Z) (debug_level : Z).
(** At higher debug levels [__make_shadow] also asserts what liballocs thinks. *)
Hypothesis quiet : debug_level <= 1.
(** The shadow stack ends at [hi]. *)
Context (hi : Z).
Implicit Types (st : wrap_state W).

(** What code that knows nothing of the shadow stack leaves alone: the stack in
    use, and the globals of the wrappers. *)
Definition keeps_stack st st' : Prop :=
  w_sp st' = w_sp st /\ (forall i, w_sp st <= i < hi -> byte (w_mem st') i = byte (w_mem st) i).
Definition leaves_alone st st' : Prop :=
  keeps_stack st st' /\ current_allocsite st' = current_allocsite st /\
  real_qsort_cb st' = real_qsort_cb st /\ statics st' = statics st.

(** A real function returns. *)
Definition libc_call (REAL : real) : Prop :=
  forall st, exists p st', REAL st = Ret (p, st') /\ leaves_alone st st'.

#[local] Instance keeps_stack_refl : Reflexive keeps_stack.
Proof. by split. Qed.
#[local] Instance keeps_stack_trans : Transitive keeps_stack.
Proof.
  intros st1 st2 st3 [Hs Hb] [Hs' Hb']. split; [congruence|].
  intros i Hi. rewrite Hb' by lia. by apply Hb.
Qed.

(** What a callee sees above the stack pointer survives. *)
Lemma keeps_stack_entered st st' c ss :
  keeps_stack st st' -> w_sp st + 8 * (Z.of_nat (length ss) + 1) <= hi ->
  entered (pv st) c ss -> entered (pv st') c ss.
Proof.
  intros (Hs & Hb) Hhi [Hc Hss]. unfold w_sp, w_mem in *. split.
  - rewrite Hs, <- Hc. apply load_ext. intros i Hi. apply Hb. lia.
  - intros i s Hi. rewrite Hs, <- (Hss i s Hi). apply Hb. apply lookup_lt_Some in Hi. lia.
Qed.

(** A result has been pushed: its byte is on top, and the word below which it
    was pushed no longer holds any cookie. *)
Definition pushed (p : prov_state) (s : Z) (p' : prov_state) : Prop :=
  u64 (shadow_sp p') /\ byte (p_mem p') (shadow_sp p') = s /\
  (forall c, 0 < c < 2 ^ 47 -> load8 (p_mem p') (shadow_sp p) <> c) /\
  (forall i, i < shadow_sp p - 8 \/ shadow_sp p + 8 <= i -> byte (p_mem p') i = byte (p_mem p) i).

Lemma push_local_pushed p s c :
  u64 (shadow_sp p) -> shadow_sp p mod 8 = 0 -> 8 <= shadow_sp p -> 0 <= s < 256 -> 0 <= c < 2 ^ 47 ->
  load8 (p_mem p) (shadow_sp p) = Z.lor c 0x800000000000 ->
  exists p', push_word p 8 (sext8 s) = Ret p' /\ pushed p s p'.
Proof.
  intros Hu Ha Hr Hs Hc Hck. rewrite push_word_spec by done. eexists. split; [reflexivity|].
  unfold pushed. cbn [shadow_sp p_mem]. split; [unfold u64 in *; lia|].
  rewrite byte_store8_first, sext8_byte by done. split; [done|]. split.
  - intros d Hd. unfold load8, store8. rewrite load_store_other by lia.
    change (load (p_mem p) (shadow_sp p) 8) with (load8 (p_mem p) (shadow_sp p)).
    rewrite Hck. apply tweaked_cookie; lia.
  - intros i Hi. unfold store8. apply byte_store_other. lia.
Qed.

Lemma alloc_byte_spec p :
  u64 (shadow_sp p) -> 1 <= shadow_sp p ->
  alloc_shadow_stack_space p 1 = Ret (shadow_sp p - 1, with_sp (shadow_sp p - 1) p).
Proof.
  intros Hu Hr. unfold alloc_shadow_stack_space. change (1 <? 8) with true. cbv iota.
  rewrite !Z.mod_1_r. cbn [Z.eqb negb].
  assert ((shadow_sp p -w 0 -w 1) = shadow_sp p - 1) as ->; [|done].
  unfold sub64. rewrite Z.sub_0_r, (wrap64_small (shadow_sp p)) by done.
  by rewrite wrap64_small by (unfold u64 in *; lia).
Qed.

(** One byte is reserved and eight are written, over the dead cookie: seven
    bytes of zeros or of ones, which is no cookie either. *)
Lemma byte_pushed p s :
  u64 (shadow_sp p) -> 1 <= shadow_sp p -> 0 <= s < 256 ->
  pushed p s (with_mem (store8 (p_mem p) (shadow_sp p - 1) (sext8 s)) (with_sp (shadow_sp p - 1) p)).
Proof.
  intros Hu Hr Hs. unfold pushed. cbn [with_mem with_sp shadow_sp p_mem].
  split; [unfold u64 in *; lia|]. rewrite byte_store8_first, sext8_byte by done. split; [done|]. split.
  - intros c Hc. unfold load8. change 8%nat with (7 + 1)%nat. rewrite load_app.
    set (m := store8 _ _ _).
    assert (load m (shadow_sp p) 7 = sext8 s / 256) as ->.
    { unfold m, store8. change 8%nat with (S 7). cbn [store].
      rewrite (load_ext _ (store (p_mem p) (shadow_sp p - 1 + 1) 7 (sext8 s / 256))).
      - replace (shadow_sp p - 1 + 1) with (shadow_sp p) by lia. rewrite load_store_same.
        change (8 * Z.of_nat 7) with 56. apply Z.mod_small. unfold sext8.
        destruct (Z.ltb_spec s 128); mod_lia.
      - intros i Hi. by rewrite byte_insert_ne by lia. }
    pose proof (load_range m 1 (shadow_sp p + Z.of_nat 7)).
    change (2 ^ (8 * Z.of_nat 7)) with (2 ^ 56). set (x := load _ _ 1) in *.
    assert (sext8 s / 256 = 0 \/ sext8 s / 256 = 2 ^ 56 - 1) as [->| ->].
    { unfold sext8. destruct (Z.ltb_spec s 128); [left|right]; mod_lia. }
    all: lia.
  - intros i Hi. unfold store8. apply byte_store_other. lia.
Qed.

Lemma shadow_from_word_range a : 0 <= shadow_from_word a < 256.
Proof.
  unfold shadow_from_word. destruct (a =? 0); [unfold NULL_SHADOW; lia|]. by apply Z.mod_pos_bound.
Qed.

Lemma make_shadow_quiet gab a : make_shadow gab debug_level a 0 = Ret (shadow_from_word a).
Proof.
  unfold make_shadow. cbn [Z.eqb negb]. destruct (Z.eqb_spec a 0) as [->|Hne]; [done|].
  by rewrite (proj2 (Z.ltb_ge _ _)) by lia.
Qed.

(** The shadow a wrapper's caller should get. *)
Definition returned_shadow st (ss : list Z) (v : Z) (r : returning) : Z :=
  match r with
  | Shadowable arg1 _ => shadow_from_word arg1
  | WithArgshadow off _ => default 0 (ss !! Z.to_nat off)
  | Fresh => shadow_from_word (if v =? 0 then 0 else alloc_base get_alloc_base st v)
  | Explicit c => c
  end.
Definition wf_returning (ss : list Z) (r : returning) : Prop :=
  match r with
  | Shadowable _ arg2 => arg2 = 0
  | WithArgshadow off _ => 0 <= off < Z.of_nat (length ss)
  | Fresh => True
  | Explicit c => 0 <= c < 256
  end.

Lemma return_pushed st c ss v r :
  0 <= c < 2 ^ 47 -> Forall (fun s => 0 <= s < 256) ss ->
  u64 (w_sp st) -> w_sp st mod 8 = 0 -> 8 <= w_sp st ->
  w_sp st + 8 * (Z.of_nat (length ss) + 1) < 2 ^ 64 ->
  entered (pv st) (Z.lor c 0x800000000000) ss -> wf_returning ss r ->
  exists p, return_with get_alloc_base debug_level st true v r = Ret (v, with_pv p st) /\
    pushed (pv st) (returned_shadow st ss v r) p.
Proof.
  intros Hc HF Hu Ha Hr Htop He Hwf. unfold w_sp in *.
  destruct r as [a1 a2|off an| |e]; cbn [return_with wf_returning returned_shadow] in *.
  - subst a2. unfold RETURN_SHADOWABLE, push_result_shadow_manifest.
    rewrite alloc_byte_spec by (done || lia). cbn [mbind outcome_bind]. rewrite make_shadow_quiet.
    cbn [mbind outcome_bind]. eexists. split; [reflexivity|].
    apply (byte_pushed (pv st)); (done || lia || apply shadow_from_word_range).
  - unfold RETURN_SHADOWABLE_WITH_ARGSHADOW, push_local_result_shadow.
    destruct (lookup_lt_is_Some_2 ss (Z.to_nat off)) as [s Hs]; [lia|].
    rewrite Hs. cbn [default from_option]. unfold id.
    assert (peek_argument_shadow (pv st) true off an = s) as ->.
    { rewrite <- (Z2Nat.id off) by lia. by apply (prov_peek_entered _ _ ss _ s an He Hs); unfold u64 in *; lia. }
    destruct (push_local_pushed (pv st) s c) as (p' & -> & Hp); try done.
    { by apply (proj1 (Forall_lookup _ _) HF _ _ Hs). } { by destruct He. }
    cbn [mbind outcome_bind]. by eexists.
  - unfold RETURN_SHADOWABLE_FRESH, push_result_shadow_manifest.
    rewrite alloc_byte_spec by (done || lia). cbn [mbind outcome_bind]. rewrite make_shadow_quiet.
    cbn [mbind outcome_bind]. eexists. split; [reflexivity|].
    apply (byte_pushed (pv st)); (done || lia || apply shadow_from_word_range).
  - unfold RETURN_SHADOWABLE_EXPLICIT, push_result_shadow_explicit, push_word.
    rewrite alloc_byte_spec by (done || lia). cbn [mbind outcome_bind].
    eexists. split; [reflexivity|]. apply (byte_pushed (pv st)); (done || lia).
Qed.

(** The protocol around any wrapper whose body keeps the stack: the call
    returns, the caller gets the value and the shadow of the macro the wrapper
    returned with, and the stack is as it was. *)
Lemma instrumented_call_spec st c ss body (Q : wrap_state W -> wrap_state W -> Z -> returning -> Prop) :
  0 < c < 2 ^ 47 -> Forall (fun s => 0 <= s < 256) ss ->
  u64 (w_sp st) -> w_sp st mod 8 = 0 -> 8 * (Z.of_nat (length ss) + 2) <= w_sp st -> w_sp st <= hi ->
  (forall st1, world st1 = world st -> current_allocsite st1 = current_allocsite st ->
     real_qsort_cb st1 = real_qsort_cb st -> statics st1 = statics st ->
     entered (pv st1) (Z.lor c 0x800000000000) ss ->
     w_sp st1 = w_sp st - 8 * (Z.of_nat (length ss) + 1) ->
     exists v r st2, body st1 = Ret (v, r, st2) /\ keeps_stack st1 st2 /\ wf_returning ss r /\ Q st1 st2 v r) ->
  exists st1 st2 v r st', Q st1 st2 v r /\
    instrumented_call debug_level st c ss (wrapper get_alloc_base debug_level c body)
      = Ret (v, returned_shadow st2 ss v r, st') /\
    keeps_stack st st' /\ world st' = world st2 /\ current_allocsite st' = current_allocsite st2 /\
    real_qsort_cb st' = real_qsort_cb st2 /\ statics st' = statics st2 /\
    (forall i, i < w_sp st - 8 * (Z.of_nat (length ss) + 2) \/ w_sp st <= i ->
       byte (w_mem st') i = byte (w_mem st2) i).
Proof.
  intros Hc HF Hu Ha Hr Hhi Hbody. unfold w_sp in *.
  destruct (prov_caller_enters (pv st) ss c) as (p1 & Hp1 & Hsp1 & He1 & Hfr1); try done; try (unfold u64; lia).
  destruct (prov_tweak_entered p1 c ss ltac:(lia) He1) as (p2 & Htw & Hsp2 & He2 & Hfr2).
  destruct (Hbody (with_pv p2 (with_pv p1 st))) as (v & r & st2 & Hb & Hk & Hwf & HQ);
    try done; cbn [with_pv pv]; [congruence|].
  pose proof (keeps_stack_entered _ _ _ ss Hk ltac:(unfold w_sp; cbn [with_pv pv]; lia) He2) as He3.
  destruct Hk as [Hs Hk]. unfold w_sp, w_mem in Hs, Hk. cbn [with_pv pv] in Hs, Hk.
  destruct (return_pushed st2 c ss v r) as (p3 & Hret & Hu3 & Hb3 & Hck & Hfr3); unfold w_sp;
    rewrite ?Hs, ?Hsp2, ?Hsp1; try done; try (unfold u64 in *; lia).
  { mod_lia. }
  assert (Hmem : forall i, i < shadow_sp (pv st) - 8 * (Z.of_nat (length ss) + 2) \/ shadow_sp (pv st) <= i ->
    byte (p_mem p3) i = byte (p_mem (pv st2)) i).
  { intros i Hi. apply Hfr3. rewrite Hs, Hsp2, Hsp1. lia. }
  exists (with_pv p2 (with_pv p1 st)), st2, v, r, (with_pv (cleanup_shadow_stack p3 (shadow_sp (pv st))) (with_pv p3 st2)).
  split; [done|]. split; [|split; [|done]].
  - unfold instrumented_call. unfold w_sp. destruct (push_argument_shadows (pv st) ss) as [q| |]; try done.
    cbn [mbind outcome_bind] in *. rewrite Hp1. cbn [mbind outcome_bind].
    unfold wrapper, BEGIN. cbn [with_pv pv]. rewrite Htw, Hb. cbn [mbind outcome_bind].
    rewrite Hret. cbn [mbind outcome_bind]. unfold w_mem. cbn [with_pv pv].
    rewrite <- Hsp2, <- Hs, (proj2 (Z.eqb_neq _ _)) by (by apply Hck). cbn [negb].
    unfold peek_result_shadow. do 2 f_equal. rewrite <- Hb3. do 2 f_equal.
    unfold add64. rewrite wrap64_small; [lia|]. unfold u64 in *; lia.
  - split; [done|]. unfold w_sp, w_mem. cbn [with_pv pv cleanup_shadow_stack with_sp p_mem].
    intros i Hi. rewrite Hmem by lia. rewrite Hk by lia. rewrite Hfr2 by lia. apply Hfr1. lia.
Qed.

(** ** What each wrapper returns, and the provenance it should have *)
Definition libc_value (f : libc_function) (p : Z) : Z :=
  match f with
  | Strcat d | Memset d | Strcpy d => d
  | Getcwd buf => if p =? 0 then 0 else buf
  | _ => p
  end.

Definition cached (f : static_fn) st (s : Z) : Z :=
  if statics st f =? 0 then s else statics st f.

Definition libc_shadow (f : libc_function) st (p : Z) (ss : list Z) : Z :=
  let argument := default 0 (ss !! 0%nat) in
  match f with
  | Tmpfile | Fdopendir | Fopen | Strtok | Strdup | Getenv | Dlsym | Fdopen =>
      if p =? 0 then NULL_SHADOW else shadow_from_word (alloc_base get_alloc_base st p)
  | Strchr _ | Rawmemchr _ | Fgets _ | Strrchr _ | Getcwd _ => if p =? 0 then NULL_SHADOW else argument
  | Strstr _ | Strcat _ | Memset _ | Strcpy _ => argument
  | Errno_location => cached SErrno_location st (shadow_from_word p)
  | Ctype_b_loc => cached SCtype_b_loc st (shadow_from_word (alloc_base get_alloc_base st p))
  | Ctype_toupper_loc => cached SCtype_toupper_loc st (shadow_from_word (alloc_base get_alloc_base st p))
  | Ctype_tolower_loc => cached SCtype_tolower_loc st (shadow_from_word (alloc_base get_alloc_base st p))
  | Localtime => if p =? 0 then NULL_SHADOW else cached SLocaltime st (shadow_from_word p)
  | Dlopen => if p =? 0 then NULL_SHADOW else shadow_from_word p
  | Fgetc => NULL_SHADOW
  end.

(** The wrappers that return the provenance of their first argument. *)
Definition takes_argument (f : libc_function) : bool :=
  match f with
  | Strchr _ | Rawmemchr _ | Fgets _ | Strrchr _ | Getcwd _ | Strstr _ | Strcat _ | Memset _ | Strcpy _ => true
  | _ => false
  end.

Lemma statics_set_static f s st : statics (set_static f s st) f = s.
Proof. unfold set_static. cbn [statics]. by rewrite bool_decide_true. Qed.

(** A static shadow that is not there yet is made. *)
Lemma fill_shadow_spec st f a :
  exists st', fill_shadow get_alloc_base debug_level st f a = Ret st' /\
    statics st' f = cached f st (shadow_from_word a) /\
    pv st' = pv st /\ world st' = world st /\ current_allocsite st' = current_allocsite st /\
    real_qsort_cb st' = real_qsort_cb st.
Proof.
  unfold cached, fill_shadow. destruct (Z.eqb_spec (statics st f) 0) as [Hz|Hnz]; [|by exists st].
  unfold GENERATE_FROM_BASE. rewrite make_shadow_quiet. cbn [mbind outcome_bind].
  exists (set_static f (shadow_from_word a) st). by rewrite statics_set_static.
Qed.

Lemma cached_range st f a : (forall f, 0 <= statics st f < 256) ->
  0 <= cached f st (shadow_from_word a) < 256.
Proof. intros Hst. unfold cached. destruct (_ =? 0); [apply shadow_from_word_range|apply Hst]. Qed.

(** The body of a wrapper: what it returns depends on what the real function
    returned and did. *)
Lemma libc_body_spec fn REAL st p st2 ss :
  REAL st = Ret (p, st2) -> (takes_argument fn = true -> ss <> []) ->
  (forall f, 0 <= statics st2 f < 256) ->
  exists r st3, libc_body get_alloc_base debug_level fn REAL st = Ret (libc_value fn p, r, st3) /\
    pv st3 = pv st2 /\ world st3 = world st2 /\ current_allocsite st3 = current_allocsite st2 /\
    real_qsort_cb st3 = real_qsort_cb st2 /\
    wf_returning ss r /\ returned_shadow st3 ss (libc_value fn p) r = libc_shadow fn st2 p ss.
Proof.
  intros HR Harg Hst.
  assert (Hl : takes_argument fn = true -> 0 <= 0 < Z.of_nat (length ss)).
  { intros Ht. specialize (Harg Ht). destruct ss; [done|]. cbn [length]. lia. }
  pose proof (cached_range st2) as Hc. pose proof shadow_from_word_range as Hw.
  destruct fn; cbn [libc_body libc_value libc_shadow takes_argument] in *;
    unfold tmpfile, fdopendir, strchr, rawmemchr, errno_location, ctype_b_loc, ctype_toupper_loc,
      ctype_tolower_loc, ctype_loc, fopen, strtok, fgets, strstr, strdup, getenv, dlsym, strrchr,
      localtime, dlopen, strcat, getcwd, fdopen, wrap_memset, strcpy, fgetc, GENERATE_FROM_BASE;
    rewrite HR; cbn [mbind outcome_bind]; rewrite ?make_shadow_quiet; cbn [mbind outcome_bind];
    try match goal with |- context [fill_shadow _ _ ?x ?f ?a] =>
      destruct (fill_shadow_spec x f a) as (st3 & -> & Hs & ? & ? & ? & ?); cbn [mbind outcome_bind] end.
  all: try (destruct (Z.eqb_spec p 0) as [->|Hp]; cbn [negb]).
  all: eexists _, _; split; [reflexivity|]; cbn [wf_returning returned_shadow Null]; rewrite ?Hs.
  all: repeat split; auto; try (by apply Hc); try (by apply Hw); try lia.
  all: by rewrite (proj2 (Z.eqb_neq p 0)).
Qed.

(** C37. A wrapped libc function gives an instrumented caller the provenance of
    what it returns: the object the result lies in, whose base liballocs knows,
    for the functions that return new objects; the provenance of the argument
    for the functions that return a pointer into it; the null provenance for
    null pointers that are told apart; and the shadow remembered from the first
    call for the functions that keep one.  The call leaves the shadow stack as
    it found it. *)
Theorem prov_call_delivers fn c ss REAL st :
  0 < c < 2 ^ 47 -> Forall (fun s => 0 <= s < 256) ss -> (takes_argument fn = true -> ss <> []) ->
  u64 (w_sp st) -> w_sp st mod 8 = 0 -> 8 * (Z.of_nat (length ss) + 2) <= w_sp st -> w_sp st <= hi ->
  (forall f, 0 <= statics st f < 256) -> libc_call REAL ->
  exists st1 st2 p st', REAL st1 = Ret (p, st2) /\ statics st2 = statics st /\
    instrumented_call debug_level st c ss (libc_wrapper get_alloc_base debug_level fn c REAL)
      = Ret (libc_value fn p, libc_shadow fn st2 p ss, st') /\
    keeps_stack st st'.
Proof.
  intros Hc HF Harg Hu Ha Hr Hhi Hst HR.
  destruct (instrumented_call_spec st c ss (libc_body get_alloc_base debug_level fn REAL)
    (fun st1 st3 v r => exists p st2, REAL st1 = Ret (p, st2) /\ statics st2 = statics st /\
       v = libc_value fn p /\ returned_shadow st3 ss v r = libc_shadow fn st2 p ss))
    as (st1 & st3 & v & r & st' & (p & st2 & HREAL & Hs2 & -> & Hsh) & Hcall & Hk & _); try done.
  - intros st1 _ _ _ Hs1 _ _. destruct (HR st1) as (p & st2 & HREAL & Hk & _ & _ & Hs).
    destruct (libc_body_spec fn REAL st1 p st2 ss HREAL Harg) as (r & st3 & Hb & Hpv & _ & _ & _ & Hwf & Hsh).
    { rewrite Hs, Hs1. exact Hst. }
    exists (libc_value fn p), r, st3. split; [done|]. split.
    { unfold keeps_stack, w_sp, w_mem in *. by rewrite Hpv. }
    split; [done|]. exists p, st2. split; [done|]. split; [congruence|done].
  - rewrite Hsh in Hcall. by exists st1, st2, p, st'.
Qed.

(** A wrapper called from code that is not instrumented adds nothing to the
    stack, and returns what the real function returns, except that [getcwd]
    returns its argument: the buffer it allocates for a null argument is lost. *)
Theorem prov_wrapper_transparent fn c REAL st p st2 :
  load8 (w_mem st) (w_sp st) <> c -> REAL st = Ret (p, st2) ->
  (forall f, 0 <= statics st2 f < 256) ->
  exists st', libc_wrapper get_alloc_base debug_level fn c REAL st = Ret (libc_value fn p, st') /\
    pv st' = pv st2 /\ world st' = world st2.
Proof.
  intros Hc HR Hst. unfold libc_wrapper, wrapper, BEGIN. rewrite prov_tweak_other by done.
  assert (with_pv (pv st) st = st) as -> by (by destruct st).
  destruct (libc_body_spec fn REAL st p st2 [0] HR ltac:(done) Hst) as (r & st3 & -> & Hpv & Hw & _).
  cbn [mbind outcome_bind]. exists st3. split; [|done].
  assert (Heta : with_pv (pv st3) st3 = st3) by (by destruct st3).
  destruct r; cbn [return_with];
    unfold RETURN_SHADOWABLE, RETURN_SHADOWABLE_WITH_ARGSHADOW, RETURN_SHADOWABLE_FRESH,
      RETURN_SHADOWABLE_EXPLICIT, push_result_shadow_manifest, push_local_result_shadow,
      push_result_shadow_explicit; cbn [mbind outcome_bind]; by rewrite Heta.
Qed.

(** ** Allocation *)
Lemma allocsite_eta st : with_allocsite (current_allocsite st) st = st.
Proof. by destruct st. Qed.

(** The real allocator always runs with a call site, and the one set for it is
    taken back. *)
Lemma call_at_allocsite_spec ra REAL st :
  ra <> 0 -> libc_call REAL ->
  exists p st1 st2 st', call_at_allocsite ra REAL st = Ret (p, st') /\
    REAL st1 = Ret (p, st2) /\ current_allocsite st1 <> 0 /\ pv st1 = pv st /\ world st1 = world st /\
    pv st' = pv st2 /\ world st' = world st2 /\ leaves_alone st st'.
Proof.
  intros Hra HR. unfold call_at_allocsite. destruct (Z.eqb_spec (current_allocsite st) 0) as [Hz|Hnz].
  - destruct (HR (with_allocsite ra st)) as (p & st2 & HREAL & Hk & Ha & Hq & Hs). rewrite HREAL.
    cbn [mbind outcome_bind]. exists p, (with_allocsite ra st), st2, (with_allocsite 0 st2).
    repeat split; try done; apply Hk.
  - destruct (HR st) as (p & st2 & HREAL & Hk). rewrite HREAL. cbn [mbind outcome_bind].
    exists p, st, st2, st2. repeat split; try done; apply Hk.
Qed.

(** The real allocator returns null or a block of [n] bytes clear of the
    shadow stack. *)
Definition alloc_call (lo n : Z) (REAL : real) : Prop :=
  libc_call REAL /\
  forall st p st', REAL st = Ret (p, st') -> p = 0 \/ 0 < p /\ p + n < 2 ^ 64 /\ (hi <= p \/ p + n <= lo).

Lemma memset0_spec p n st lo :
  p <> 0 -> 0 <= n -> hi <= p \/ p + n <= lo -> lo <= w_sp st ->
  exists st', memset0 p n st = Ret st' /\ leaves_alone st st' /\ world st' = world st /\
    (forall i, p <= i < p + n -> byte (w_mem st') i = 0) /\
    (forall i, i < p \/ p + n <= i -> byte (w_mem st') i = byte (w_mem st) i).
Proof.
  intros Hp Hn Hd Hlo. unfold memset0. rewrite (proj2 (Z.eqb_neq p 0) Hp). cbn [andb].
  eexists. split; [reflexivity|]. unfold leaves_alone, keeps_stack, write_mem, w_sp, w_mem in *.
  cbn [with_pv with_mem pv p_mem shadow_sp world current_allocsite real_qsort_cb statics].
  assert (Hout : forall i, i < p \/ p + n <= i ->
    byte (write_bytes (p_mem (pv st)) p (replicate (Z.to_nat n) 0)) i = byte (p_mem (pv st)) i).
  { intros i Hi. apply byte_write_other. rewrite length_replicate. lia. }
  split; [split; [split; [done|]|done]|]. { intros i Hi. apply Hout. lia. }
  split; [done|]. split; [|done]. intros i Hi.
  replace i with (p + Z.of_nat (Z.to_nat (i - p))) by lia.
  rewrite (byte_write_same _ _ _ _ 0); [done|]. apply lookup_replicate_2. lia.
Qed.

(** [malloc] gives an instrumented caller a cleared block with the
    provenance of the object it lies in, or a null pointer with null provenance;
    the real allocator always runs with a call site set, and the call site and
    the shadow stack are as before the call. *)
Theorem malloc_delivers c ss s ra REAL st lo :
  0 < c < 2 ^ 47 -> Forall (fun s => 0 <= s < 256) ss ->
  u64 (w_sp st) -> w_sp st mod 8 = 0 -> 8 * (Z.of_nat (length ss) + 2) <= w_sp st -> w_sp st <= hi ->
  0 <= s -> ra <> 0 -> lo <= w_sp st - 8 * (Z.of_nat (length ss) + 2) -> alloc_call lo s REAL ->
  exists st1 st2 p st', REAL st1 = Ret (p, st2) /\ current_allocsite st1 <> 0 /\
    instrumented_call debug_level st c ss (wrapper get_alloc_base debug_level c (malloc ra s REAL))
      = Ret (p, if p =? 0 then NULL_SHADOW else shadow_from_word (alloc_base get_alloc_base st2 p), st') /\
    (p <> 0 -> forall i, p <= i < p + s -> byte (w_mem st') i = 0) /\
    keeps_stack st st' /\ current_allocsite st' = current_allocsite st.
Proof.
  intros Hc HF Hu Ha Hr Hhi Hs Hra Hlo [HR Hblk].
  destruct (instrumented_call_spec st c ss (malloc ra s REAL)
    (fun st1 st3 v r => exists st0 st2, REAL st0 = Ret (v, st2) /\ current_allocsite st0 <> 0 /\
       world st3 = world st2 /\ current_allocsite st3 = current_allocsite st /\
       (v <> 0 -> forall i, v <= i < v + s -> byte (w_mem st3) i = 0) /\
       r = if v =? 0 then Null else Fresh))
    as (st1 & st3 & v & r & st' & (st0 & st2 & HREAL & Has & Hw & Hcs & Hz & ->) & Hcall & Hk & Hw' & Has' & _ & _ & Hm);
    try done.
  - intros st1 _ Hcs _ _ _ Hsp. unfold malloc.
    destruct (call_at_allocsite_spec ra REAL st1 Hra HR)
      as (p & st0 & st2 & st3 & -> & HREAL & Has & _ & _ & Hpv & Hw & Hal). cbn [mbind outcome_bind].
    destruct (Z.eqb_spec p 0) as [->|Hp]; cbn [negb].
    + exists 0, Null, st3. split; [done|]. split; [apply Hal|]. split; [done|].
      exists st0, st2. repeat split; try done. destruct Hal as (_ & -> & _). done.
    + destruct (Hblk _ _ _ HREAL) as [|(Hp0 & Hp64 & Hd)]; [done|].
      pose proof Hal as ([Hspal _] & Hcsal & _).
      destruct (memset0_spec p s st3 lo) as (st4 & -> & Hal4 & Hw4 & Hz & _); try done; [lia|].
      cbn [mbind outcome_bind]. exists p, Fresh, st4. split; [done|]. split.
      { destruct Hal as [Hk _], Hal4 as [Hk4 _]. by transitivity st3. }
      split; [done|]. exists st0, st2. split; [done|]. split; [done|]. split; [congruence|].
      destruct Hal4 as (_ & -> & _). rewrite (proj2 (Z.eqb_neq p 0) Hp). repeat split; congruence || done.
  - exists st0, st2, v, st'. split; [done|]. split; [done|]. split; [|split; [|split; [done|congruence]]].
    + rewrite Hcall. destruct (Z.eqb_spec v 0) as [->|Hv]; cbn [returned_shadow Null]; [done|].
      unfold alloc_base. rewrite (proj2 (Z.eqb_neq v 0) Hv). by rewrite Hw.
    + intros Hv i Hi. rewrite Hm by (destruct (Hblk _ _ _ HREAL) as [|(? & ? & ?)]; [done|lia]). by apply Hz.
Qed.

(** The part of a block beyond its old size is cleared. *)
Lemma grow_spec p orig size st lo :
  p <> 0 -> 0 <= p -> 0 <= orig < 2 ^ 64 -> 0 <= size -> p + size < 2 ^ 64 ->
  hi <= p \/ p + size <= lo -> lo <= w_sp st ->
  exists st', (if orig <? size then memset0 (p +w orig) (size -w orig) st else Ret st) = Ret st' /\
    leaves_alone st st' /\ world st' = world st /\
    (forall i, p + orig <= i < p + size -> byte (w_mem st') i = 0) /\
    (forall i, i < p + orig \/ p + size <= i -> byte (w_mem st') i = byte (w_mem st) i).
Proof.
  intros Hp Hp0 Ho Hs Hps Hd Hlo. destruct (Z.ltb_spec orig size) as [Hlt|Hge].
  - assert ((p +w orig) = p + orig) as -> by (apply wrap64_small; unfold u64; lia).
    assert ((size -w orig) = size - orig) as -> by (apply wrap64_small; unfold u64; lia).
    destruct (memset0_spec (p + orig) (size - orig) st lo) as (st' & Hm & Hal & Hw & Hz & Hout); try lia.
    exists st'. split; [done|]. split; [done|]. split; [done|]. split; intros i Hi; [apply Hz|apply Hout]; lia.
  - exists st. repeat split; try done. intros i Hi. lia.
Qed.

#[local] Instance leaves_alone_trans : Transitive leaves_alone.
Proof.
  intros st1 st2 st3 (Hk & Ha & Hc & Hs) (Hk' & Ha' & Hc' & Hs'). unfold leaves_alone.
  rewrite Ha', Hc', Hs'. split; [by transitivity st2|done].
Qed.

Definition orig_size (malloc_usable_size : W -> Z -> Z) st (p : Z) : Z :=
  if p =? 0 then 0 else malloc_usable_size (world st) p.

(** The body of [realloc]: the block grows in place, moves, is new, or is not
    to be had. *)
Lemma realloc_body_spec mus ra p size REAL st lo :
  ra <> 0 -> 0 <= p -> 0 <= size -> alloc_call lo size REAL -> lo <= w_sp st ->
  0 <= orig_size mus st p < 2 ^ 64 -> (p = 0 -> forall st1 st2, REAL st1 <> Ret (0, st2)) ->
  exists p' st1 st2 st3, REAL st1 = Ret (p', st2) /\ world st1 = world st /\ current_allocsite st1 <> 0 /\
    realloc mus ra p size REAL st = Ret (p', if p' =? p then WithArgshadow 0 p else if p' =? 0 then Null else Fresh, st3) /\
    leaves_alone st st3 /\ world st3 = world st2 /\
    (p' <> 0 -> (forall i, p' + orig_size mus st p <= i < p' + size -> byte (w_mem st3) i = 0) /\
       (forall i, p' <= i < p' + Z.min (orig_size mus st p) size -> byte (w_mem st3) i = byte (w_mem st2) i)).
Proof.
  intros Hra Hp Hsz [HR Hblk] Hlo Ho Hnn. unfold realloc.
  assert ((if negb (p =? 0) then mus (world st) p else 0) = orig_size mus st p) as ->
    by (unfold orig_size; by destruct (p =? 0)).
  set (o := orig_size mus st p) in *.
  destruct (call_at_allocsite_spec ra REAL st Hra HR)
    as (p' & st1 & st2 & st3 & -> & HREAL & Has & _ & Hw1 & Hpv & Hw & Hal). cbn [mbind outcome_bind].
  exists p', st1, st2. pose proof Hal as ([Hsp _] & _).
  assert (Hm : forall i, byte (w_mem st3) i = byte (w_mem st2) i) by (unfold w_mem; by rewrite Hpv).
  destruct (Z.eq_dec p' 0) as [->|Hp'].
  { assert (Hne : p <> 0) by (intros ->; by apply (Hnn eq_refl st1 st2)).
    rewrite (proj2 (Z.eqb_neq 0 p)) by congruence. cbn [Z.eqb negb andb mbind outcome_bind].
    exists st3. by do 6 (split; [done|]). }
  destruct (Hblk _ _ _ HREAL) as [|(Hp0 & Hp64 & Hd)]; [done|].
  destruct (Z.eqb_spec p' p) as [->|Hmove].
  - destruct (grow_spec p o size st3 lo) as (st4 & -> & Hal4 & Hw4 & Hz & Hout); try done; [lia|].
    cbn [mbind outcome_bind]. exists st4. split; [done|]. split; [done|]. split; [done|].
    split; [done|]. split; [by transitivity st3|]. split; [congruence|]. intros _. split; [done|].
    intros i Hi. rewrite Hout by lia. apply Hm.
  - rewrite (proj2 (Z.eqb_neq p' 0) Hp'). cbn [negb andb].
    assert (exists st4, (if p =? 0 then memset0 p' size st3 else Ret st3) = Ret st4 /\ leaves_alone st3 st4 /\
      world st4 = world st3 /\ (p <> 0 -> st4 = st3)) as (st4 & -> & Hal4 & Hw4 & Hp4).
    { destruct (Z.eqb_spec p 0); [|by exists st3].
      destruct (memset0_spec p' size st3 lo) as (st4 & Hms & Hal4 & Hw4 & _); try done; [lia|]. by exists st4. }
    cbn [mbind outcome_bind]. pose proof Hal4 as ([Hsp4 _] & _).
    destruct (grow_spec p' o size st4 lo) as (st5 & -> & Hal5 & Hw5 & Hz & Hout); try done; [lia|lia|].
    cbn [mbind outcome_bind]. exists st5. split; [done|]. split; [done|]. split; [done|]. split; [done|].
    split; [transitivity st3; [done|by transitivity st4]|]. split; [congruence|]. intros _. split; [done|].
    intros i Hi. rewrite Hout by lia. rewrite Hp4; [apply Hm|]. intros ->.
    unfold o, orig_size in Hi. cbn [Z.eqb] in Hi. lia.
Qed.

(** [realloc] gives an instrumented caller the provenance its argument had
    when the block stays where it is, that of the new object when the block is
    new or moves, and null provenance when there is none to be had; what the
    real function copied stays, what lies beyond the old block is cleared; and
    the stack and the call site are as before.  Only when the old block is null
    must the real function succeed. *)
Theorem realloc_delivers mus c ss ra p size REAL st lo :
  0 < c < 2 ^ 47 -> Forall (fun s => 0 <= s < 256) ss -> ss <> [] ->
  u64 (w_sp st) -> w_sp st mod 8 = 0 -> 8 * (Z.of_nat (length ss) + 2) <= w_sp st -> w_sp st <= hi ->
  0 <= p -> 0 <= size -> ra <> 0 -> lo <= w_sp st - 8 * (Z.of_nat (length ss) + 2) -> alloc_call lo size REAL ->
  0 <= orig_size mus st p < 2 ^ 64 -> (p = 0 -> forall st1 st2, REAL st1 <> Ret (0, st2)) ->
  exists st1 st2 p' st', REAL st1 = Ret (p', st2) /\ current_allocsite st1 <> 0 /\
    instrumented_call debug_level st c ss (wrapper get_alloc_base debug_level c (realloc mus ra p size REAL))
      = Ret (p', if p' =? p then default 0 (ss !! 0%nat)
                 else if p' =? 0 then NULL_SHADOW
                 else shadow_from_word (alloc_base get_alloc_base st2 p'), st') /\
    (p' <> 0 -> (forall i, p' + orig_size mus st p <= i < p' + size -> byte (w_mem st') i = 0) /\
       (forall i, p' <= i < p' + Z.min (orig_size mus st p) size -> byte (w_mem st') i = byte (w_mem st2) i)) /\
    keeps_stack st st' /\ current_allocsite st' = current_allocsite st.
Proof.
  intros Hc HF Hss Hu Ha Hr Hhi Hp Hsz Hra Hlo Hal Ho Hnn.
  destruct (instrumented_call_spec st c ss (realloc mus ra p size REAL)
    (fun st1 st3 v r => exists st0 st2, REAL st0 = Ret (v, st2) /\ current_allocsite st0 <> 0 /\
       world st3 = world st2 /\ current_allocsite st3 = current_allocsite st /\
       (v <> 0 -> (forall i, v + orig_size mus st p <= i < v + size -> byte (w_mem st3) i = 0) /\
         (forall i, v <= i < v + Z.min (orig_size mus st p) size -> byte (w_mem st3) i = byte (w_mem st2) i)) /\
       r = if v =? p then WithArgshadow 0 p else if v =? 0 then Null else Fresh))
    as (st1 & st3 & v & r & st' & (st0 & st2 & HREAL & Has & Hw & Hcs & Hz & ->) & Hcall & Hk & Hw' & Has' & _ & _ & Hm);
    try done.
  - intros st1 Hw1 Hcs _ _ _ Hsp.
    assert (Hos : orig_size mus st1 p = orig_size mus st p) by (unfold orig_size; by rewrite Hw1).
    destruct (realloc_body_spec mus ra p size REAL st1 lo) as (v & st0 & st2 & st3 & HREAL & _ & Has & -> & Hk & Hw & Hz);
      rewrite ?Hos; try done; [lia|].
    eexists v, _, st3. split; [reflexivity|]. split; [apply Hk|]. split.
    { destruct (v =? p), (v =? 0); cbn [wf_returning Null]; try done.
      all: destruct ss; [done|]; cbn [length]; lia. }
    exists st0, st2. rewrite Hos in Hz. destruct Hk as (_ & -> & _). by repeat split; try apply Hz.
  - exists st0, st2, v, st'. split; [done|]. split; [done|]. split; [|split; [|split; [done|congruence]]].
    + rewrite Hcall. unfold alloc_base.
      destruct (v =? p); cbn [returned_shadow]; [done|].
      destruct (Z.eqb_spec v 0) as [->|Hv]; cbn [returned_shadow Null]; [done|].
      unfold alloc_base. rewrite (proj2 (Z.eqb_neq v 0) Hv). by rewrite Hw.
    + intros Hv. destruct (proj2 Hal _ _ _ HREAL) as [|(? & ? & ?)]; [done|].
      destruct (Hz Hv) as [Hz1 Hz2].
      split; intros i Hi; (rewrite Hm; [|lia]); [by apply Hz1|by apply Hz2].
Qed.

(** When there is no memory for a first allocation through [realloc], the test
    for the unmoved block succeeds on the two null pointers, and the wrapper
    clears memory at address zero. *)
Theorem realloc_null_failure mus ra size REAL st st2 :
  0 < size < 2 ^ 64 -> current_allocsite st <> 0 -> REAL st = Ret (0, st2) ->
  realloc mus ra 0 size REAL st = Unreachable.
Proof.
  intros Hs Has HR. unfold realloc, call_at_allocsite. rewrite (proj2 (Z.eqb_neq _ 0) Has), HR.
  cbn [Z.eqb negb mbind outcome_bind]. rewrite (proj2 (Z.ltb_lt 0 size)) by lia.
  unfold memset0. change (0 +w 0) with 0. cbn [Z.eqb andb].
  assert ((size -w 0) = size) as -> by (unfold sub64; rewrite Z.sub_0_r; by apply wrap64_small; unfold u64; lia).
  by rewrite (proj2 (Z.eqb_neq size 0)) by lia.
Qed.
End properties.

(** ** Witnesses *)
Definition ex_gab (w : unit) (p : Z) : Z :=
  if (0x1000 <=? p) && (p <? 0x1040) then 0x1000 else if (0x3000 <=? p) && (p <? 0x3080) then 0x3000 else 0.
Definition ex_wrap : wrap_state unit := WrapState (ProvState ∅ 0x7f0000010000 0) tt 0 0 (fun _ => 0).
(** A real function that returns [p] and does nothing else. *)
Definition ex_real (p : Z) : real (W := unit) := fun st => Ret (p, st).

Lemma ex_real_call p hi : libc_call hi (ex_real p).
Proof. intros st. exists p, st. split; [done|]. by split. Qed.

(** [strchr] in a string whose pointer has the provenance 77. *)
Lemma prov_call_delivers_witness :
  exists st', instrumented_call 0 ex_wrap 0x401000 [77] (libc_wrapper ex_gab 0 (Strchr 0x1000) 0x401000 (ex_real 0x1008))
    = Ret (0x1008, 77, st').
Proof.
  destruct (prov_call_delivers ex_gab 0 ltac:(lia) 0x7f0000010000 (Strchr 0x1000) 0x401000 [77] (ex_real 0x1008) ex_wrap)
    as (st1 & st2 & p & st' & HR & _ & Hcall & _).
  - lia.
  - apply (bool_decide_unpack _); vm_compute; exact I.
  - discriminate.
  - unfold u64; cbn; lia.
  - reflexivity.
  - vm_compute; discriminate.
  - cbn; lia.
  - cbn; lia.
  - apply ex_real_call.
  - injection HR as <- _. exists st'. exact Hcall.
Defined.

Lemma malloc_delivers_witness :
  exists st', instrumented_call 0 ex_wrap 0x401000 [0] (wrapper ex_gab 0 0x401000 (malloc 0x402000 0x80 (ex_real 0x3000)))
    = Ret (0x3000, 0x31, st').
Proof.
  destruct (malloc_delivers ex_gab 0 ltac:(lia) 0x7f0000010000 0x401000 [0] 0x80 0x402000 (ex_real 0x3000) ex_wrap 0x10000)
    as (st1 & st2 & p & st' & HR & _ & Hcall & _).
  - lia.
  - apply (bool_decide_unpack _); vm_compute; exact I.
  - unfold u64; cbn; lia.
  - reflexivity.
  - vm_compute; discriminate.
  - cbn; lia.
  - lia.
  - lia.
  - vm_compute; discriminate.
  - split; [apply ex_real_call|]. intros st p st' [= <- _]. right. lia.
  - injection HR as <- _. exists st'. exact Hcall.
Defined.

(** A block of 64 bytes moves to make room for 128. *)
Lemma realloc_delivers_witness :
  exists st', instrumented_call 0 ex_wrap 0x401000 [77]
      (wrapper ex_gab 0 0x401000 (realloc (fun _ _ => 0x40) 0x402000 0x1000 0x80 (ex_real 0x3000)))
    = Ret (0x3000, 0x31, st').
Proof.
  destruct (realloc_delivers ex_gab 0 ltac:(lia) 0x7f0000010000 (fun _ _ => 0x40) 0x401000 [77] 0x402000 0x1000 0x80
    (ex_real 0x3000) ex_wrap 0x10000) as (st1 & st2 & p & st' & HR & _ & Hcall & _).
  - lia.
  - apply (bool_decide_unpack _); vm_compute; exact I.
  - discriminate.
  - unfold u64; cbn; lia.
  - reflexivity.
  - vm_compute; discriminate.
  - cbn; lia.
  - lia.
  - lia.
  - lia.
  - vm_compute; discriminate.
  - split; [apply ex_real_call|]. intros st p st' [= <- _]. right. lia.
  - unfold orig_size. cbn. lia.
  - discriminate.
  - injection HR as <- _. exists st'. exact Hcall.
Defined.
