(* ===== verification/ProvStart.v ===== *)
(** * Provenance at start-up and in callbacks

    The rest of [frontend/c/shadowprov/shadowprov_libc_wrappers.c]: the macros
    that give pointers stored by uninstrumented code a shadow, with the two
    [obstack] functions and the constructor [init_shadow_entries], which does so
    for the argument and environment vectors and leaves the shadows of [main]'s
    arguments on the shadow stack; and [qsort], whose callback is replaced by
    one that pushes shadows for the comparator. *)
From S2P Require Import Prelude Config Memory Provenance ProvWrappers.

(** [struct auxv_limits] of librunt, as far as it is read. *)
Record auxv_limits := AuxvLimits {
  argv_vector_start : Z; argv_vector_terminator : Z;
  env_vector_start : Z; env_vector_terminator : Z;
  asciiz_start : Z;
}.

(** The addresses of libc's variables and of the program's [main]; [main_sym]
    is null when the weak symbol is not defined, and then the dynamic symbol
    table is asked. *)
Record startup_env := StartupEnv {
  lims : option auxv_limits;
  environ_var : Z; stdin_var : Z; stdout_var : Z; stderr_var : Z;
  main_sym : Z; main_dlsym : Z;
}.

Section start.
Context {W : Type} (get_alloc_base : W -> Z -> Z) (debug_level : Z).
Implicit Types (st : wrap_state W).

(** ** Storing shadows for stored pointers *)

(** [STORE_IT_AT]; [STORE_IT2 (x, y)] is [STORE_IT_AT (&x, y)]. *)
Definition STORE_IT_AT st (place val : Z) : outcome (wrap_state W) :=
  s ← make_shadow (get_alloc_base (world st)) debug_level val 0;
  Ret (with_pv (store_shadow_nonlocal (pv st) place val s false) st).
Definition STORED_PTR st (ptr : Z) : outcome (wrap_state W) :=
  let st := with_pv (warnx (pv st)) st in
  STORE_IT_AT st ptr (load8 (w_mem st) ptr).
Definition STORE_IT_GETBASE st (lv : Z) : outcome (wrap_state W) :=
  if lv =? 0 then Ret (with_pv (store_shadow_nonlocal (pv st) lv 0 NULL_SHADOW false) st)
  else STORE_IT_AT st lv (alloc_base get_alloc_base st (load8 (w_mem st) lv)).

(** [_obstack_begin] and [_obstack_begin_1]; [fields] are the addresses of the
    object's [chunk], [object_base], [next_free], [chunk_limit] and
    [extra_arg]. *)
Fixpoint store_fields st (fields : list Z) : outcome (wrap_state W) :=
  match fields with
  | [] => Ret st
  | lv :: fields => st ← STORE_IT_GETBASE st lv; store_fields st fields
  end.
Definition obstack_begin (callee : Z) (fields : list Z) (REAL : real) st : outcome (Z * wrap_state W) :=
  let '(caller_is_inst, st) := BEGIN st callee in
  '(ret, st) ← REAL st;
  st ← store_fields st fields;
  Ret (ret, st).

(** ** The constructor *)
Fixpoint store_vector (fuel : nat) st (place terminator v : Z) : outcome (wrap_state W) :=
  if place =? terminator then Ret st
  else match fuel with
       | O => Unreachable
       | S fuel => st ← STORE_IT_AT st place v; store_vector fuel st (place +w 8) terminator v
       end.
Definition vector_fuel (start terminator : Z) : nat := Z.to_nat ((terminator -w start) / 8).

(** The shadow of the table a [ctype] function's location points to.  These
    functions are declared [const]; the calls of the macro count as one. *)
Definition store_ctype st (callee : Z) (f : static_fn) (REAL : real) : outcome (wrap_state W) :=
  '(loc, st) ← wrapper get_alloc_base debug_level callee (ctype_loc get_alloc_base debug_level f REAL) st;
  STORE_IT_AT st loc (alloc_base get_alloc_base st (load8 (w_mem st) loc)).

Fixpoint store_ctypes st (ctypes : list (Z * static_fn * real (W := W))) : outcome (wrap_state W) :=
  match ctypes with
  | [] => Ret st
  | (callee, f, REAL) :: ctypes => st ← store_ctype st callee f REAL; store_ctypes st ctypes
  end.

Definition main_addr (E : startup_env) : Z :=
  if negb (main_sym E =? 0) then main_sym E else main_dlsym E.

(** The stores of the constructor, and the shadows it leaves for [main]. *)
Definition store_entries (E : startup_env) (l : auxv_limits)
    (ctypes : list (Z * static_fn * real (W := W))) st : outcome (wrap_state W) :=
  st ← store_vector (vector_fuel (argv_vector_start l) (argv_vector_terminator l)) st
         (argv_vector_start l) (argv_vector_terminator l) (asciiz_start l);
  st ← store_vector (vector_fuel (env_vector_start l) (env_vector_terminator l)) st
         (env_vector_start l) (env_vector_terminator l) (asciiz_start l);
  st ← STORE_IT_AT st (environ_var E) (env_vector_start l);
  st ← STORED_PTR st (stdin_var E);
  st ← STORED_PTR st (stdout_var E);
  st ← STORED_PTR st (stderr_var E);
  store_ctypes st ctypes.
Definition push_main_arguments (E : startup_env) (l : auxv_limits) st : outcome (wrap_state W) :=
  let st := if (main_addr E =? 0) || (main_addr E =? 2 ^ 64 - 1)
            then with_pv (warnx (pv st)) st else st in
  p ← push_argument_shadow_manifest (get_alloc_base (world st)) debug_level (pv st)
        (argv_vector_start l) (argv_vector_start l) 0;
  p ← push_argument_shadow_manifest (get_alloc_base (world st)) debug_level p 0 0 0;
  p ← push_argument_shadow_cookie p (main_addr E);
  Ret (with_pv p st).

Definition init_shadow_entries (E : startup_env) (ctypes : list (Z * static_fn * real (W := W))) st
    : outcome (wrap_state W) :=
  match lims E with
  | None => Ret st
  | Some l => st ← store_entries E l ctypes st; push_main_arguments E l st
  end.

(** ** qsort

    [code] is the program's code at a function address. *)
Context (code : Z -> Z -> Z -> real (W := W)).

Definition launder_qsort_cb (arg1 arg2 : Z) st : outcome (Z * wrap_state W) :=
  let saved_ssp := w_sp st in
  p ← push_argument_shadow_manifest (get_alloc_base (world st)) debug_level (pv st)
        (alloc_base get_alloc_base st arg2) 0 0;
  p ← push_argument_shadow_manifest (get_alloc_base (world st)) debug_level p
        (alloc_base get_alloc_base st arg1) 0 0;
  p ← push_argument_shadow_cookie p (real_qsort_cb st);
  let st := with_pv p st in
  '(ret, st) ← (if real_qsort_cb st =? 0 then Unreachable else code (real_qsort_cb st) arg1 arg2 st);
  let st := with_pv (with_sp saved_ssp (pv st)) st in
  RETURN_INTEGER get_alloc_base debug_level st false ret.

(** The real [qsort] runs with the comparator it is given. *)
Definition qsort_body (compar : Z) (REAL : (Z -> Z -> real) -> real) st
    : outcome (Z * returning * wrap_state W) :=
  let st := with_qsort_cb compar st in
  '(ret, st) ← REAL launder_qsort_cb st;
  let st := with_qsort_cb 0 st in
  Ret (ret, Null, st).
Definition qsort (callee compar : Z) (REAL : (Z -> Z -> real) -> real) : real :=
  wrapper get_alloc_base debug_level callee (qsort_body compar REAL).
End start.

(** ** Properties *)
Section properties.
Context {W : Type} (get_alloc_base : W -> Z -> Z) (debug_level : Z).
Hypothesis quiet : debug_level <= 1.
Implicit Types (st : wrap_state W).

(** What a run of stores to [places] changes: the shadows of the places. *)
Definition touches (places : list Z) st st' : Prop :=
  w_sp st' = w_sp st /\ world st' = world st /\
  forall i, (forall p, p ∈ places -> i <> shadow_stored_addr p) -> byte (w_mem st') i = byte (w_mem st) i.

Lemma touches_trans l1 l2 st1 st2 st3 :
  touches l1 st1 st2 -> touches l2 st2 st3 -> touches (l1 ++ l2) st1 st3.
Proof.
  intros (Hs & Hw & Hb) (Hs' & Hw' & Hb'). split; [congruence|]. split; [congruence|].
  intros i Hi. rewrite Hb', Hb; [done|..]; intros p Hp; apply Hi; apply elem_of_app; auto.
Qed.

Lemma STORE_IT_AT_spec st place val :
  exists st', STORE_IT_AT get_alloc_base debug_level st place val = Ret st' /\ touches [place] st st' /\
    byte (w_mem st') (shadow_stored_addr place) = shadow_from_word val.
Proof.
  unfold STORE_IT_AT. rewrite make_shadow_quiet by done. cbn [mbind outcome_bind].
  eexists. split; [reflexivity|]. unfold touches, w_sp, w_mem. cbn [with_pv pv world].
  assert (Hm : p_mem (store_shadow_nonlocal (pv st) place val (shadow_from_word val) false)
    = store (p_mem (pv st)) (shadow_stored_addr place) 1 (shadow_from_word val))
    by (unfold store_shadow_nonlocal; by destruct (_ && _ && _)).
  assert (Hsp : shadow_sp (store_shadow_nonlocal (pv st) place val (shadow_from_word val) false) = shadow_sp (pv st))
    by (unfold store_shadow_nonlocal; by destruct (_ && _ && _)).
  rewrite Hm, Hsp. cbn [store]. pose proof (shadow_from_word_range val). split.
  - split; [done|]. split; [done|]. intros i Hi. rewrite byte_insert_ne; [done|].
    apply Hi. by apply list_elem_of_singleton.
  - by rewrite byte_insert, Z.mod_mod, Z.mod_small by lia.
Qed.

Lemma STORED_PTR_spec st ptr :
  exists st', STORED_PTR get_alloc_base debug_level st ptr = Ret st' /\ touches [ptr] st st'.
Proof.
  unfold STORED_PTR. destruct (STORE_IT_AT_spec (with_pv (warnx (pv st)) st) ptr
    (load8 (w_mem (with_pv (warnx (pv st)) st)) ptr)) as (st' & Hst & Ht & _). by exists st'.
Qed.

(** The slots of a vector. *)
Definition slots (start : Z) (n : nat) : list Z := (fun k => start + 8 * Z.of_nat k) <$> seq 0 n.

Lemma slots_cons start n : slots start (S n) = start :: slots (start + 8) n.
Proof.
  unfold slots. cbn [seq fmap list_fmap]. f_equal; [lia|].
  rewrite <- fmap_S_seq, <- list_fmap_compose. apply list_fmap_ext. intros i k _. cbn. lia.
Qed.

Lemma elem_of_slots x start n : x ∈ slots start n <-> exists k, x = start + 8 * Z.of_nat k /\ (k < n)%nat.
Proof.
  unfold slots. rewrite list_elem_of_fmap. split; intros (k & Hk & Hn); exists k; rewrite elem_of_seq in *; lia.
Qed.

Lemma store_vector_spec v n : forall fuel st start,
  (n <= fuel)%nat -> 0 <= start -> start + 8 * Z.of_nat n < 2 ^ 64 ->
  exists st', store_vector get_alloc_base debug_level fuel st start (start + 8 * Z.of_nat n) v = Ret st' /\
    touches (slots start n) st st' /\
    forall p, p ∈ slots start n -> byte (w_mem st') (shadow_stored_addr p) = shadow_from_word v.
Proof.
  induction n as [|n IH]; intros fuel st start Hf Hs Hr.
  { exists st. rewrite Z.add_0_r. destruct fuel; cbn [store_vector]; rewrite Z.eqb_refl;
      (split; [done|]); split; try done; intros p Hp; by apply elem_of_nil in Hp. }
  destruct fuel as [|fuel]; [lia|]. cbn [store_vector].
  rewrite (proj2 (Z.eqb_neq _ _)) by lia.
  destruct (STORE_IT_AT_spec st start v) as (st1 & -> & Ht1 & Hb1). cbn [mbind outcome_bind].
  assert ((start +w 8) = start + 8) as -> by (apply wrap64_small; unfold u64; lia).
  replace (start + 8 * Z.of_nat (S n)) with (start + 8 + 8 * Z.of_nat n) by lia.
  destruct (IH fuel st1 (start + 8)) as (st2 & -> & Ht2 & Hb2); [lia..|].
  exists st2. split; [done|]. rewrite slots_cons. split.
  - by apply (touches_trans [start] (slots (start + 8) n) st st1).
  - intros p [->|Hp]%elem_of_cons; [|by apply Hb2].
    destruct Ht2 as (_ & _ & ->); [done|]. intros p [k [-> _]]%elem_of_slots Heq.
    apply shadow_stored_addr_inj in Heq. lia.
Qed.

Lemma store_vector_fuel_enough start n :
  0 <= start -> start + 8 * Z.of_nat n < 2 ^ 64 -> (n <= vector_fuel start (start + 8 * Z.of_nat n))%nat.
Proof.
  intros Hs Hr. unfold vector_fuel, sub64.
  replace (start + 8 * Z.of_nat n - start) with (8 * Z.of_nat n) by lia.
  rewrite wrap64_small by (unfold u64; lia). rewrite Z.mul_comm, Z.div_mul by lia. lia.
Qed.

(** The [ctype] functions are declared [const]: they return the same location
    and change nothing. *)
Definition const_call (p : Z) (REAL : real (W := W)) : Prop := forall st, REAL st = Ret (p, st).

Lemma store_ctype_spec st callee f REAL p :
  const_call p REAL -> load8 (w_mem st) (w_sp st) <> callee ->
  exists st', store_ctype get_alloc_base debug_level st callee f REAL = Ret st' /\ touches [p] st st'.
Proof.
  intros HR Hc. unfold store_ctype, wrapper, BEGIN. rewrite prov_tweak_other by done.
  assert (with_pv (pv st) st = st) as -> by (by destruct st).
  unfold ctype_loc. rewrite HR. cbn [mbind outcome_bind].
  destruct (fill_shadow_spec get_alloc_base debug_level quiet st f (alloc_base get_alloc_base st p))
    as (st1 & -> & _ & Hpv & Hw & _). cbn [mbind outcome_bind return_with].
  unfold RETURN_SHADOWABLE_EXPLICIT, push_result_shadow_explicit. cbn [mbind outcome_bind].
  assert (with_pv (pv st1) st1 = st1) as -> by (by destruct st1).
  destruct (STORE_IT_AT_spec st1 p (alloc_base get_alloc_base st1 (load8 (w_mem st1) p))) as (st2 & -> & Ht & _).
  exists st2. split; [done|]. unfold touches, w_sp, w_mem in *. by rewrite <- Hpv, <- Hw.
Qed.

(** The word on top of the stack is out of reach of the stores. *)
Definition clear_of_stack (places : list Z) (sp : Z) : Prop :=
  Forall (fun p => shadow_stored_addr p < sp \/ sp + 8 <= shadow_stored_addr p) places.

Lemma touches_top places st st' :
  clear_of_stack places (w_sp st) -> touches places st st' ->
  load8 (w_mem st') (w_sp st') = load8 (w_mem st) (w_sp st).
Proof.
  intros Hc (-> & _ & Hb). apply load_ext. intros i Hi. apply Hb. intros p Hp ->.
  pose proof (proj1 (Forall_forall _ _) Hc _ Hp). cbn in *. lia.
Qed.

Lemma store_ctypes_spec ctypes locs : forall st,
  Forall2 (fun c p => const_call p c.2 /\ load8 (w_mem st) (w_sp st) <> c.1.1) ctypes locs ->
  clear_of_stack locs (w_sp st) ->
  exists st', store_ctypes get_alloc_base debug_level st ctypes = Ret st' /\ touches locs st st'.
Proof.
  revert locs. induction ctypes as [|[[c f] R] ctypes IH]; intros locs st HF Hc; cbn [store_ctypes].
  { inversion HF. by exists st. }
  inversion HF as [|? p ? locs' [Hcc Hne] HF']; subst. apply Forall_cons in Hc as [Hp Hc].
  destruct (store_ctype_spec st c f R p Hcc Hne) as (st1 & -> & Ht1). cbn [mbind outcome_bind].
  assert (Htop : load8 (w_mem st1) (w_sp st1) = load8 (w_mem st) (w_sp st)).
  { apply (touches_top [p]); [|done]. by apply Forall_singleton. }
  destruct (IH locs' st1) as (st2 & -> & Ht2).
  { by rewrite Htop. } { destruct Ht1 as (-> & _). done. }
  exists st2. split; [done|]. by apply (touches_trans [p] locs' st st1).
Qed.

Lemma push_manifest_local p v a :
  push_argument_shadow_manifest (get_alloc_base v) debug_level p a a 0 =
    push_local_argument_shadow p (shadow_from_word a).
Proof. unfold push_argument_shadow_manifest. by rewrite make_shadow_quiet. Qed.

(** The places the constructor gives shadows to, after the argument vector. *)
Definition other_places (E : startup_env) (l : auxv_limits) (m : nat) (locs : list Z) : list Z :=
  slots (env_vector_start l) m ++ [environ_var E; stdin_var E; stdout_var E; stderr_var E] ++ locs.

Lemma store_entries_spec E l n m ctypes locs st :
  argv_vector_terminator l = argv_vector_start l + 8 * Z.of_nat n ->
  env_vector_terminator l = env_vector_start l + 8 * Z.of_nat m ->
  0 <= argv_vector_start l -> argv_vector_terminator l < 2 ^ 64 ->
  0 <= env_vector_start l -> env_vector_terminator l < 2 ^ 64 ->
  Forall2 (fun c p => const_call p c.2 /\ load8 (w_mem st) (w_sp st) <> c.1.1) ctypes locs ->
  clear_of_stack (slots (argv_vector_start l) n ++ other_places E l m locs) (w_sp st) ->
  exists st1 st2, store_entries get_alloc_base debug_level E l ctypes st = Ret st2 /\
    touches (slots (argv_vector_start l) n) st st1 /\ touches (other_places E l m locs) st1 st2 /\
    forall p, p ∈ slots (argv_vector_start l) n ->
      byte (w_mem st1) (shadow_stored_addr p) = shadow_from_word (asciiz_start l).
Proof.
  intros Hat Het Hav Hav' Hev Hev' Hct Hclear. unfold store_entries. rewrite Hat in *. rewrite Het in *.
  destruct (store_vector_spec (asciiz_start l) n (vector_fuel (argv_vector_start l)
    (argv_vector_start l + 8 * Z.of_nat n)) st (argv_vector_start l)) as (st1 & -> & Ht1 & Hb1);
    [by apply store_vector_fuel_enough|done..|].
  cbn [mbind outcome_bind].
  destruct (store_vector_spec (asciiz_start l) m (vector_fuel (env_vector_start l)
    (env_vector_start l + 8 * Z.of_nat m)) st1 (env_vector_start l)) as (st2 & -> & Ht2 & _);
    [by apply store_vector_fuel_enough|done..|].
  cbn [mbind outcome_bind].
  destruct (STORE_IT_AT_spec st2 (environ_var E) (env_vector_start l)) as (st3 & -> & Ht3 & _). cbn [mbind outcome_bind].
  destruct (STORED_PTR_spec st3 (stdin_var E)) as (st4 & -> & Ht4). cbn [mbind outcome_bind].
  destruct (STORED_PTR_spec st4 (stdout_var E)) as (st5 & -> & Ht5). cbn [mbind outcome_bind].
  destruct (STORED_PTR_spec st5 (stderr_var E)) as (st6 & -> & Ht6). cbn [mbind outcome_bind].
  assert (Htt : touches (slots (env_vector_start l) m ++ [environ_var E; stdin_var E; stdout_var E; stderr_var E]) st1 st6).
  { apply (touches_trans _ _ _ st2); [done|].
    apply (touches_trans [environ_var E] _ _ st3); [done|]. apply (touches_trans [stdin_var E] _ _ st4); [done|].
    by apply (touches_trans [stdout_var E] [stderr_var E] _ st5). }
  unfold clear_of_stack, other_places in *. rewrite !Forall_app in Hclear. destruct Hclear as (Hc1 & Hc2 & Hc3 & Hc4).
  assert (Htop : load8 (w_mem st6) (w_sp st6) = load8 (w_mem st) (w_sp st)).
  { transitivity (load8 (w_mem st1) (w_sp st1)); [|eapply touches_top; [exact Hc1|exact Ht1]].
    eapply touches_top; [|exact Htt]. destruct Ht1 as (-> & _). unfold clear_of_stack. by rewrite Forall_app. }
  destruct (store_ctypes_spec ctypes locs st6) as (st7 & Hst7 & Ht7).
  { by rewrite Htop. }
  { destruct Htt as (-> & _), Ht1 as (-> & _). done. }
  exists st1, st7. split; [done|]. split; [done|]. split; [|done].
  rewrite app_assoc. by apply (touches_trans _ _ _ st6).
Qed.

(** When [main] starts, its cookie is on the shadow stack with the null
    provenance for [argc] and that of the argument vector for [argv]; and each
    slot of the vector has the provenance of the argument strings, whatever
    else the constructor stored. *)
Theorem main_finds_arguments E l n m ctypes locs st v t :
  lims E = Some l ->
  argv_vector_terminator l = argv_vector_start l + 8 * Z.of_nat n ->
  env_vector_terminator l = env_vector_start l + 8 * Z.of_nat m ->
  0 < argv_vector_start l -> argv_vector_terminator l < 2 ^ 64 ->
  0 <= env_vector_start l -> env_vector_terminator l < 2 ^ 64 ->
  u64 (w_sp st) -> w_sp st mod 8 = 0 -> 24 <= w_sp st -> 0 < main_addr E < 2 ^ 47 ->
  Forall2 (fun c p => const_call p c.2 /\ load8 (w_mem st) (w_sp st) <> c.1.1) ctypes locs ->
  Forall (fun p => shadow_stored_addr p < w_sp st - 24 \/ w_sp st + 8 <= shadow_stored_addr p)
    (slots (argv_vector_start l) n ++ other_places E l m locs) ->
  Forall (fun p => p ∉ other_places E l m locs) (slots (argv_vector_start l) n) ->
  exists st' p', init_shadow_entries get_alloc_base debug_level E ctypes st = Ret st' /\
    tweak_argument_shadow_cookie (pv st') (main_addr E) = (true, p') /\
    peek_argument_shadow p' true 0 v = NULL_SHADOW /\
    peek_argument_shadow p' true 1 v = shadow_from_word (argv_vector_start l) /\
    forall k, (k < n)%nat ->
      exists p'', fetch_shadow_inl (get_alloc_base (world st')) debug_level p' v
        (argv_vector_start l + 8 * Z.of_nat k) t = Ret (shadow_from_word (asciiz_start l), p'').
Proof.
  intros HE Hat Het Hav Hav' Hev Hev' Hu Ha Hr Hmain Hct Hclear Hdisj.
  destruct (store_entries_spec E l n m ctypes locs st Hat Het ltac:(lia) Hav' Hev Hev' Hct)
    as (st1 & st2 & Hst & (Hsp1 & _) & (Hsp2 & _ & Hb2) & Hb1).
  { eapply Forall_impl; [exact Hclear|]. cbn. lia. }
  unfold init_shadow_entries. rewrite HE, Hst. cbn [mbind outcome_bind]. unfold push_main_arguments.
  rewrite (proj2 (Z.eqb_neq (main_addr E) 0)), (proj2 (Z.eqb_neq (main_addr E) (2 ^ 64 - 1))) by lia.
  cbn [orb]. rewrite push_manifest_local. unfold w_sp in *.
  destruct (prov_caller_enters (pv st2) [shadow_from_word 0; shadow_from_word (argv_vector_start l)] (main_addr E))
    as (p & Hp & Hsp & He & Hfr); rewrite ?Hsp2, ?Hsp1; cbn [length]; try done; try lia.
  { repeat constructor; apply shadow_from_word_range. }
  { unfold u64. lia. }
  destruct (prov_tweak_entered p (main_addr E) _ ltac:(lia) He) as (p' & Htw & Hspp & He' & Hfr').
  exists (with_pv p st2), p'. split; [|split; [done|]].
  { destruct (push_argument_shadows (pv st2) _) as [q| |] eqn:Hq; cbn [mbind outcome_bind] in Hp; try done.
    cbn [push_argument_shadows mbind outcome_bind] in Hq.
    destruct (push_local_argument_shadow (pv st2) (shadow_from_word (argv_vector_start l))) as [q1| |];
      cbn [mbind outcome_bind] in *; try done.
    rewrite push_manifest_local, Hq. cbn [mbind outcome_bind]. by rewrite Hp. }
  rewrite Hsp2, Hsp1 in Hsp. cbn [length] in Hsp.
  split; [|split].
  - apply (prov_peek_entered p' _ _ 0 _ v He' eq_refl); rewrite Hspp, Hsp; cbn [length]; unfold u64 in *; lia.
  - apply (prov_peek_entered p' _ _ 1 _ v He' eq_refl); rewrite Hspp, Hsp; cbn [length]; unfold u64 in *; lia.
  - intros k Hk. unfold fetch_shadow_inl. rewrite (proj2 (Z.eqb_neq _ 0)) by lia. cbn [negb].
    assert (Hin : argv_vector_start l + 8 * Z.of_nat k ∈ slots (argv_vector_start l) n) by (apply elem_of_slots; eauto).
    rewrite Forall_app in Hclear. destruct Hclear as [Hcl _].
    pose proof (proj1 (Forall_forall _ _) Hcl _ Hin) as Hc. pose proof (proj1 (Forall_forall _ _) Hdisj _ Hin) as Hd.
    cbn beta in Hc, Hd. rewrite Hfr' by lia. rewrite Hfr by (rewrite Hsp2, Hsp1; cbn [length]; lia).
    unfold w_mem in *. rewrite Hb2.
    + rewrite (Hb1 _ Hin). by eexists.
    + intros q Hq Heq. apply shadow_stored_addr_inj in Heq. by subst q.
Qed.
End properties.

(** ** qsort and its callback *)
Section callbacks.
Context {W : Type} (get_alloc_base : W -> Z -> Z) (debug_level : Z).
Hypothesis quiet : debug_level <= 1.
Context (hi : Z) (code : Z -> Z -> Z -> real (W := W)).
Implicit Types (st : wrap_state W).

Lemma push_null_local p v a :
  push_argument_shadow_manifest (get_alloc_base v) debug_level p a 0 0 = push_local_argument_shadow p NULL_SHADOW.
Proof. unfold push_argument_shadow_manifest. by rewrite make_shadow_quiet. Qed.

(** The laundered callback runs the comparator with its cookie on the stack and
    null provenance for both arguments: the allocation bases it looks up are
    passed in a place where the push ignores them. *)
Lemma launder_enters a b st :
  u64 (w_sp st) -> w_sp st mod 8 = 0 -> 24 <= w_sp st -> u64 (real_qsort_cb st) ->
  exists p, entered p (real_qsort_cb st) [NULL_SHADOW; NULL_SHADOW] /\ shadow_sp p = w_sp st - 24 /\
    (forall i, i < w_sp st - 24 \/ w_sp st <= i -> byte (p_mem p) i = byte (w_mem st) i) /\
    launder_qsort_cb get_alloc_base debug_level code a b st =
      if real_qsort_cb st =? 0 then Unreachable
      else '(ret, st') ← code (real_qsort_cb st) a b (with_pv p st);
           Ret (ret, with_pv (with_sp (w_sp st) (pv st')) st').
Proof.
  intros Hu Ha Hr Hc. unfold w_sp in *.
  destruct (prov_caller_enters (pv st) [NULL_SHADOW; NULL_SHADOW] (real_qsort_cb st)) as (p & Hp & Hsp & He & Hfr);
    cbn [length] in *; try done; try lia.
  { repeat constructor; unfold NULL_SHADOW; lia. }
  exists p. split; [done|]. split; [lia|]. split; [intros i Hi; apply Hfr; lia|].
  unfold launder_qsort_cb. rewrite push_null_local.
  destruct (push_argument_shadows (pv st) _) as [q| |] eqn:Hq; cbn [mbind outcome_bind] in Hp; try done.
  cbn [push_argument_shadows mbind outcome_bind] in Hq.
  destruct (push_local_argument_shadow (pv st) NULL_SHADOW) as [q1| |]; cbn [mbind outcome_bind] in *; try done.
  rewrite push_null_local, Hq. cbn [mbind outcome_bind]. rewrite Hp. cbn [mbind outcome_bind].
  cbn [with_pv real_qsort_cb]. destruct (real_qsort_cb st =? 0); [done|].
  destruct (code _ _ _ _) as [[ret st']| |]; cbn [mbind outcome_bind]; done.
Qed.

(** A comparator that is compiled with provenance checks and reads through its
    first argument. *)
Definition checked_comparator (callee : Z) (rest : Z -> Z -> real) (a b : Z) st : outcome (Z * wrap_state W) :=
  let '(caller_is_inst, st) := BEGIN st callee in
  let s := peek_argument_shadow (pv st) caller_is_inst 0 a in
  _ ← prov_check_deref (get_alloc_base (world st)) a s;
  rest a b st.

(** An instrumented comparator cannot be used: its first read through an
    argument aborts. *)
Theorem checked_comparator_aborts a b st rest :
  u64 (w_sp st) -> w_sp st mod 8 = 0 -> 24 <= w_sp st -> 0 < real_qsort_cb st < 2 ^ 47 ->
  code (real_qsort_cb st) = checked_comparator (real_qsort_cb st) rest ->
  launder_qsort_cb get_alloc_base debug_level code a b st = Abort.
Proof.
  intros Hu Ha Hr Hc Hcode.
  destruct (launder_enters a b st) as (p & He & Hsp & _ & ->); try done; try (unfold u64; lia).
  rewrite (proj2 (Z.eqb_neq _ _)) by lia. rewrite Hcode. unfold checked_comparator, BEGIN. cbn [with_pv pv].
  destruct (prov_tweak_entered p (real_qsort_cb st) _ ltac:(lia) He) as (p' & -> & Hsp' & He' & _).
  cbn [with_pv pv]. assert (peek_argument_shadow p' true 0 a = NULL_SHADOW) as ->.
  { apply (prov_peek_entered p' _ _ 0 _ a He' eq_refl); rewrite ?Hsp', ?Hsp; cbn [length]; unfold u64 in *; lia. }
  unfold prov_check_deref, NULL_SHADOW. cbn [Z.eqb negb andb]. by destruct (a =? 0).
Qed.

(** The real [qsort] sorts the array by calling the comparator: what the calls
    and writes to the array keep, it keeps, and it returns if they do. *)
Definition runs_comparator (base len : Z) (REAL : (Z -> Z -> real) -> real) : Prop :=
  forall (P : wrap_state W -> Prop) cb,
    (forall a b st, P st -> exists r st', cb a b st = Ret (r, st') /\ P st') ->
    (forall st m, P st -> (forall i, i < base \/ base + len <= i -> byte m i = byte (w_mem st) i) ->
       P (write_mem m st)) ->
    forall st, P st -> exists r st', REAL cb st = Ret (r, st') /\ P st'.

(** A comparator that is content with its cookie and null arguments. *)
Definition comparator_ok (compar : Z) : Prop :=
  forall a b st, real_qsort_cb st = compar -> entered (pv st) compar [NULL_SHADOW; NULL_SHADOW] ->
    exists r st', code compar a b st = Ret (r, st') /\ real_qsort_cb st' = compar /\
      forall i, w_sp st + 24 <= i < hi -> byte (w_mem st') i = byte (w_mem st) i.

(** C39. Sorting through the wrapper, for a comparator that does not itself sort:
    one that, entered with null provenances, returns, keeps the shadow stack of
    its callers and leaves [real_qsort_cb] as it is ([comparator_ok]; a
    comparator that sorts resets it, see [nested_qsort_loses_callback]).  The
    sort proper is a parameter, which by hypothesis does nothing but call its
    callback and write the array, and returns if its callback does
    ([runs_comparator]).  Then every call of the comparator through the
    laundering callback enters it with its cookie and null provenances and
    returns, and so does the whole sort; an instrumented caller gets the result
    with null provenance, the shadow stack is as it found it however many times
    the comparator ran, and no callback is remembered. *)
Theorem qsort_returns c compar ss base len REAL st :
  0 < c < 2 ^ 47 -> 0 < compar < 2 ^ 47 -> Forall (fun s => 0 <= s < 256) ss ->
  u64 (w_sp st) -> w_sp st mod 8 = 0 -> 8 * (Z.of_nat (length ss) + 4) <= w_sp st -> w_sp st <= hi ->
  base + len <= w_sp st - 8 * (Z.of_nat (length ss) + 4) \/ hi <= base ->
  runs_comparator base len REAL -> comparator_ok compar ->
  exists r st', instrumented_call debug_level st c ss (qsort get_alloc_base debug_level code c compar REAL)
      = Ret (r, NULL_SHADOW, st') /\
    keeps_stack hi st st' /\ real_qsort_cb st' = 0.
Proof.
  intros Hc Hcm HF Hu Ha Hr Hhi Hd HR Hcok.
  destruct (instrumented_call_spec get_alloc_base debug_level quiet hi st c ss
    (qsort_body get_alloc_base debug_level code compar REAL)
    (fun st1 st3 v r => r = Null /\ real_qsort_cb st3 = 0))
    as (st1 & st3 & v & r & st' & [-> Hq] & Hcall & Hk & _ & _ & Hq' & _); try done; [lia| |].
  - intros st1 _ _ _ _ He Hsp. unfold qsort_body.
    destruct (HR (fun st => w_sp st = w_sp st1 /\ real_qsort_cb st = compar /\
        forall i, w_sp st1 <= i < hi -> byte (w_mem st) i = byte (w_mem st1) i)
      (launder_qsort_cb get_alloc_base debug_level code)) with (st := with_qsort_cb compar st1)
      as (r & st2 & -> & Hsp2 & _ & Hb2).
    + intros a b st0 (Hs0 & Hq0 & Hb0).
      destruct (launder_enters a b st0) as (p & Hep & Hspp & Hfr & ->); rewrite ?Hs0, ?Hsp, ?Hq0;
        try (unfold u64 in *; lia). { mod_lia. }
      rewrite Hq0 in Hep. rewrite (proj2 (Z.eqb_neq compar 0)) by lia. destruct (Hcok a b (with_pv p st0) Hq0 Hep) as (r & st2 & -> & Hq2 & Hb2).
      cbn [mbind outcome_bind]. eexists _, _. split; [reflexivity|].
      unfold w_sp, w_mem in *. cbn [with_pv pv with_sp shadow_sp p_mem real_qsort_cb] in *.
      split; [done|]. split; [done|]. intros i Hi. rewrite Hb2 by lia. rewrite Hfr by lia. apply Hb0. lia.
    + intros st0 m (Hs0 & Hq0 & Hb0) Hm. unfold write_mem, w_sp, w_mem in *.
      cbn [with_pv with_mem pv shadow_sp p_mem real_qsort_cb]. split; [done|]. split; [done|].
      intros i Hi. rewrite Hm by lia. by apply Hb0.
    + by repeat split.
    + cbn [mbind outcome_bind]. exists r, Null, (with_qsort_cb 0 st2).
      split; [done|]. split; [split; [exact Hsp2|exact Hb2]|]. by repeat split.
  - exists v, st'. split; [|by rewrite Hq']. exact Hcall.
Qed.

(** A sort that the comparator itself does leaves no callback for the sort that
    is running: its next comparison calls a null pointer. *)
Theorem nested_qsort_loses_callback c compar REAL st r st' a b :
  load8 (w_mem st) (w_sp st) <> c ->
  qsort get_alloc_base debug_level code c compar REAL st = Ret (r, st') ->
  u64 (w_sp st') -> w_sp st' mod 8 = 0 -> 24 <= w_sp st' ->
  launder_qsort_cb get_alloc_base debug_level code a b st' = Unreachable.
Proof.
  intros Hc Hq Hu Ha Hr. unfold qsort, wrapper, BEGIN in Hq. rewrite prov_tweak_other in Hq by done.
  unfold qsort_body in Hq. destruct (REAL _ _) as [[ret st2]| |]; cbn [mbind outcome_bind] in Hq; try done.
  unfold return_with, Null, RETURN_SHADOWABLE, push_result_shadow_manifest in Hq. cbn [mbind outcome_bind] in Hq.
  injection Hq as _ <-.
  set (st' := with_pv _ _) in *. assert (Hz : real_qsort_cb st' = 0) by done. clearbody st'.
  destruct (launder_enters a b st') as (p & _ & _ & _ & ->); rewrite ?Hz; done.
Qed.
End callbacks.

(** ** Witnesses *)

(** Two arguments and one environment variable, at the top of the stack. *)
Definition ex_limits : auxv_limits := AuxvLimits 0x7ffc00001000 0x7ffc00001010 0x7ffc00001018 0x7ffc00001020 0x7ffc00001100.
Definition ex_env : startup_env := StartupEnv (Some ex_limits) 0x601000 0x601008 0x601010 0x601018 0x401000 0.

Lemma main_finds_arguments_witness :
  exists st' p', init_shadow_entries ex_gab 0 ex_env [(0x402000, SCtype_b_loc, ex_real 0x602000)] ex_wrap = Ret st' /\
    tweak_argument_shadow_cookie (pv st') 0x401000 = (true, p') /\
    peek_argument_shadow p' true 1 0 = shadow_from_word 0x7ffc00001000.
Proof.
  destruct (main_finds_arguments ex_gab 0 ltac:(lia) ex_env ex_limits 2 1 [(0x402000, SCtype_b_loc, ex_real 0x602000)]
    [0x602000] ex_wrap 0 true) as (st' & p' & H1 & H2 & _ & H3 & _); try reflexivity.
  - vm_compute; discriminate.
  - unfold u64; cbn; lia.
  - vm_compute; discriminate.
  - cbn; lia.
  - constructor; [|constructor]. split; [by intros st|]. vm_compute. discriminate.
  - apply (bool_decide_unpack _); vm_compute; exact I.
  - apply (bool_decide_unpack _); vm_compute; exact I.
  - exists st', p'. split; [exact H1|]. split; [exact H2|exact H3].
Defined.

(** A [qsort] that compares the two elements of an array and swaps nothing. *)
Definition ex_qsort (cb : Z -> Z -> real (W := unit)) : real := fun st =>
  '(_, st) ← cb 0x1000 0x1008 st; Ret (0, st).
Definition ex_code (callee a b : Z) : real (W := unit) := fun st => Ret (if a <? b then 1 else 0, st).

Lemma qsort_returns_witness :
  exists r st', instrumented_call 0 ex_wrap 0x401000 [77; 0; 0; 0] (qsort ex_gab 0 ex_code 0x401000 0x402000 ex_qsort)
    = Ret (r, NULL_SHADOW, st') /\ real_qsort_cb st' = 0.
Proof.
  destruct (qsort_returns ex_gab 0 ltac:(lia) 0x7f0000010000 ex_code 0x401000 0x402000 [77; 0; 0; 0] 0x1000 16 ex_qsort ex_wrap)
    as (r & st' & Hcall & _ & Hq).
  - lia.
  - lia.
  - apply (bool_decide_unpack _); vm_compute; exact I.
  - unfold u64; cbn; lia.
  - reflexivity.
  - vm_compute; discriminate.
  - cbn; lia.
  - left. vm_compute; discriminate.
  - intros P cb Hcb _ st HP. unfold ex_qsort. destruct (Hcb 0x1000 0x1008 st HP) as (r & st' & -> & HP').
    exists 0, st'. by split.
  - intros a b st Hq _. exists (if a <? b then 1 else 0), st. by repeat split.
  - exists r, st'. by split.
Defined.
