(* ===== verification/Leonardo.v ===== *)
(** * Leonardo heaps

    The data structure behind the [qsort] of the provenance mode: a row of heaps
    of Leonardo sizes with roots in order.  Arrays are functions from indices,
    and the steps of the algorithm are exchanges on them.  The file defines the
    steps, proves that they keep the heaps and the order of the roots, and
    states the invariants of the two phases of the sort; [Qsort.v] proves that
    the code takes these steps. *)
From stdpp Require Import sorting.
From S2P Require Import Prelude.

(** ** Leonardo numbers *)
Fixpoint leo (k : nat) : Z :=
  match k with
  | S ((S k2) as k1) => leo k1 + leo k2 + 1
  | _ => 1
  end.

Lemma leo_SS k : leo (S (S k)) = leo (S k) + leo k + 1.
Proof. done. Qed.
#[global] Arguments leo : simpl never.

Lemma leo_pos k : 1 <= leo k /\ 1 <= leo (S k).
Proof. induction k as [|k [IH1 IH2]]; [done|]. split; [done|]. rewrite leo_SS. lia. Qed.

Lemma leo_step k : leo k <= leo (S k).
Proof. destruct k; [done|]. rewrite leo_SS. pose proof (leo_pos k). lia. Qed.

Lemma leo_mono i j : (i <= j)%nat -> leo i <= leo j.
Proof. induction 1 as [|j _ IH]; [lia|]. pose proof (leo_step j). lia. Qed.

Lemma leo_strict i j : (1 <= i < j)%nat -> leo i < leo j.
Proof.
  intros [Hi Hj]. apply (Z.lt_le_trans _ (leo (S i))); [|apply leo_mono; lia].
  destruct i; [lia|]. rewrite leo_SS. pose proof (leo_pos i). lia.
Qed.

(** Linear in the order. *)
Fixpoint leo_pair (k : nat) : Z * Z :=
  match k with O => (1, 1) | S k => let '(a, b) := leo_pair k in (b, a + b + 1) end.
Lemma leo_pair_spec k : leo_pair k = (leo k, leo (S k)).
Proof. induction k as [|k IH]; [done|]. cbn [leo_pair]. rewrite IH, leo_SS. f_equal. lia. Qed.
Lemma leo_fst k : leo k = (leo_pair k).1.
Proof. by rewrite leo_pair_spec. Qed.

(** The sizes of a row of trees, given by their orders. *)
Fixpoint leos (os : list nat) : Z := match os with [] => 0 | k :: os => leo k + leos os end.

Lemma leos_nonneg os : 0 <= leos os.
Proof. induction os as [|k os IH]; cbn [leos]; [lia|]. pose proof (leo_pos k). lia. Qed.
Lemma leo_le_leos k os : k ∈ os -> leo k <= leos os.
Proof.
  induction 1 as [k os|k k' os _ IH]; cbn [leos].
  - pose proof (leos_nonneg os). lia.
  - pose proof (leo_pos k'). lia.
Qed.

(** ** Layouts

    The orders from the last tree to the first: they increase by two or more,
    but for the last two trees; a last tree of order 0 follows one of order 1. *)
Fixpoint gap2 (os : list nat) : Prop :=
  match os with
  | k :: ((k' :: _) as os') => (k + 2 <= k')%nat /\ gap2 os'
  | _ => True
  end.
Definition layout (os : list nat) : Prop :=
  match os with
  | [] => False
  | [k] => (1 <= k)%nat
  | k :: ((k' :: _) as os') => (k < k')%nat /\ gap2 os' /\ (k = O -> k' = 1%nat)
  end.

Lemma gap2_tail k os : gap2 (k :: os) -> gap2 os.
Proof. destruct os; [done|]. by intros [_ ?]. Qed.
Lemma gap2_above k os o : gap2 (k :: os) -> o ∈ os -> (k + 2 <= o)%nat.
Proof.
  revert k. induction os as [|k' os IH]; intros k Hg Ho; [by apply elem_of_nil in Ho|].
  destruct Hg as [Hk Hg]. apply elem_of_cons in Ho as [->|Ho]; [done|].
  specialize (IH _ Hg Ho). lia.
Qed.
Lemma layout_gap2 k os : layout (k :: os) -> gap2 os.
Proof. destruct os; [done|]. by intros (_ & ? & _). Qed.
Lemma layout_above k os o : layout (k :: os) -> o ∈ os -> (k < o)%nat.
Proof.
  destruct os as [|k' os]; intros Hl Ho; [by apply elem_of_nil in Ho|]. destruct Hl as (Hk & Hg & _).
  apply elem_of_cons in Ho as [->|Ho]; [done|]. pose proof (gap2_above _ _ _ Hg Ho). lia.
Qed.

(** How the layout changes in the steps of the sort. *)
Lemma layout_merge k os : layout (k :: S k :: os) -> layout (S (S k) :: os).
Proof.
  intros (_ & Hg & _). destruct os as [|k' os]; cbn; [lia|]. destruct Hg as [Hk Hg].
  split; [lia|]. split; [done|lia].
Qed.
Lemma layout_grow k os :
  layout (k :: os) -> head os <> Some (S k) ->
  (1 <= k)%nat /\ layout (match k with S O => O | _ => 1%nat end :: k :: os).
Proof.
  intros Hl Hh. assert (1 <= k)%nat.
  { destruct os as [|k' os]; [done|]. destruct Hl as (Hk & _ & Hz). destruct k; [|lia].
    by rewrite Hz in Hh by done. }
  assert (gap2 (k :: os)).
  { destruct os as [|k' os]; [done|]. destruct Hl as (Hk & Hg & _). split; [|done].
    assert (k' <> S k) by (intros ->; done). lia. }
  split; [done|]. destruct k as [|[|k]]; [lia|done|]. split; [lia|]. split; [done|lia].
Qed.
Lemma layout_split k os : layout (S (S k) :: os) -> layout (k :: S k :: os).
Proof.
  intros Hl. split; [lia|]. split; [|lia]. destruct os as [|k' os]; [done|].
  destruct Hl as (Hk & Hg & _). split; [lia|done].
Qed.
Lemma layout_drop k k' os : layout (k :: k' :: os) -> layout (k' :: os).
Proof.
  intros (Hk & Hg & _). destruct os as [|k2 os]; cbn; [lia|]. destruct Hg as [Hk2 Hg]. split; [lia|].
  split; [done|lia].
Qed.

(** ** Arrays *)
Section arrays.
Context {V : Type}.
Implicit Types (A B : Z -> V).

Definition swap A (i j : Z) : Z -> V := fun x => if x =? i then A j else if x =? j then A i else A x.

Lemma swap_l A i j : swap A i j i = A j.
Proof. unfold swap. by rewrite Z.eqb_refl. Qed.
Lemma swap_r A i j : swap A i j j = A i.
Proof. unfold swap. rewrite Z.eqb_refl. by destruct (Z.eqb_spec j i) as [->|]. Qed.
Lemma swap_other A i j x : x <> i -> x <> j -> swap A i j x = A x.
Proof. intros. unfold swap. by rewrite !(proj2 (Z.eqb_neq _ _)). Qed.

(** The exchanges along a path: what was at its start ends up at its end, and
    everything on it moves one place towards the start. *)
Fixpoint swaps A (h : Z) (ps : list Z) : Z -> V :=
  match ps with [] => A | p :: ps => swaps (swap A h p) p ps end.

Lemma swaps_other ps : forall A h x, x ∉ h :: ps -> swaps A h ps x = A x.
Proof.
  induction ps as [|p ps IH]; intros A h x Hx; [done|]. cbn [swaps].
  apply not_elem_of_cons in Hx as [Hh Hx]. rewrite IH by done.
  apply not_elem_of_cons in Hx as [Hp _]. by apply swap_other.
Qed.
Lemma swaps_on ps : forall A h i p, NoDup (h :: ps) -> (h :: ps) !! i = Some p ->
  swaps A h ps p = match ps !! i with Some q => A q | None => A h end.
Proof.
  induction ps as [|q ps IH]; intros A h i p Hnd Hi.
  { destruct i; cbn in Hi; [|done]. by injection Hi as <-. }
  apply NoDup_cons in Hnd as [Hh Hnd]. cbn [swaps]. destruct i as [|i]; cbn in Hi |- *.
  - injection Hi as <-. rewrite swaps_other by done. apply swap_l.
  - rewrite (IH _ _ i p Hnd Hi). apply NoDup_cons in Hnd as [Hq _]. destruct (ps !! i) as [r|] eqn:Hr; [|apply swap_r].
    apply list_elem_of_lookup_2 in Hr. apply swap_other; [|by intros ->].
    intros ->. apply Hh. by apply elem_of_cons; right.
Qed.

(** The elements with indices in [0, n). *)
Definition elems A (n : Z) : list V := A <$> seqZ 0 n.

Lemma elems_swap A n i j : 0 <= i < n -> 0 <= j < n -> elems (swap A i j) n ≡ₚ elems A n.
Proof.
  intros Hi Hj. unfold elems.
  pose (f := fun x => if x =? i then j else if x =? j then i else x).
  transitivity (A <$> (f <$> seqZ 0 n)).
  { rewrite <- list_fmap_compose. apply reflexive_eq, list_fmap_ext. intros k x _. unfold swap, f. cbn.
    by destruct (x =? i), (x =? j). }
  apply fmap_Permutation, NoDup_Permutation; [|apply NoDup_seqZ|].
  - apply NoDup_fmap_2; [|apply NoDup_seqZ]. intros x y. unfold f. zcases; lia.
  - intros x. rewrite list_elem_of_fmap. setoid_rewrite elem_of_seqZ. unfold f. split.
    + intros (y & -> & Hy). zcases; lia.
    + intros Hx. exists (f x). unfold f. zcases; lia.
Qed.

Lemma elems_swaps ps n : forall A h, Forall (fun p => 0 <= p < n) (h :: ps) ->
  elems (swaps A h ps) n ≡ₚ elems A n.
Proof.
  induction ps as [|p ps IH]; intros A h Hps; [done|]. apply Forall_cons in Hps as [Hh Hps]. cbn [swaps].
  rewrite IH by done. apply elems_swap; [done|]. by apply Forall_cons in Hps as [? _].
Qed.

Lemma elems_ext A B n : (forall i, 0 <= i < n -> A i = B i) -> elems A n = elems B n.
Proof. intros Heq. apply list_fmap_ext. intros k x Hx. apply Heq. apply lookup_seqZ in Hx. lia. Qed.

Lemma elems_lookup A n i : 0 <= i < n -> elems A n !! Z.to_nat i = Some (A i).
Proof.
  intros Hi. unfold elems. rewrite list_lookup_fmap.
  assert (seqZ 0 n !! Z.to_nat i = Some i) as -> by (apply lookup_seqZ; lia). done.
Qed.
End arrays.

(** ** Heaps

    Values are compared by a total preorder. *)
Class TotalPreorder {V : Type} (le : V -> V -> bool) : Prop := {
  le_total x y : le x y = true \/ le y x = true;
  le_trans x y z : le x y = true -> le y z = true -> le x z = true;
}.

Section heaps.
Context {V : Type} (le : V -> V -> bool) `{!TotalPreorder le}.
Implicit Types (A B : Z -> V).

Lemma le_refl x : le x x = true.
Proof. destruct (le_total x x); done. Qed.
Lemma le_not x y : le x y = false -> le y x = true.
Proof. intros H. destruct (le_total x y); [congruence|done]. Qed.

(** A tree of order [k + 2] at [h] has its right child, of order [k], just
    before the root, and its left child, of order [k + 1], before that. *)
Fixpoint heap A (h : Z) (k : nat) : Prop :=
  match k with
  | S ((S k2) as k1) =>
      (le (A (h - 1)) (A h) = true /\ le (A (h - 1 - leo k2)) (A h) = true) /\
      heap A (h - 1) k2 /\ heap A (h - 1 - leo k2) k1
  | _ => True
  end.
Lemma heap_SS A h k : heap A h (S (S k)) =
  ((le (A (h - 1)) (A h) = true /\ le (A (h - 1 - leo k)) (A h) = true) /\
   heap A (h - 1) k /\ heap A (h - 1 - leo k) (S k)).
Proof. done. Qed.
Definition subheaps A (h : Z) (k : nat) : Prop :=
  match k with S ((S k2) as k1) => heap A (h - 1) k2 /\ heap A (h - 1 - leo k2) k1 | _ => True end.

Definition in_tree (x h : Z) (k : nat) : Prop := h - leo k < x <= h.

Lemma in_tree_cases x h k : in_tree x h (S (S k)) ->
  x = h \/ in_tree x (h - 1) k \/ in_tree x (h - 1 - leo k) (S k).
Proof. unfold in_tree. rewrite leo_SS. lia. Qed.

(** Induction over orders, as trees go. *)
Lemma order_ind (P : nat -> Prop) :
  P O -> P 1%nat -> (forall k, P k -> P (S k) -> P (S (S k))) -> forall k, P k.
Proof.
  intros H0 H1 HS k. enough (P k /\ P (S k)) by tauto. induction k as [|k [IH1 IH2]]; [done|]. split; [done|].
  by apply HS.
Qed.

Lemma heap_ext A B k : forall h, (forall x, in_tree x h k -> A x = B x) -> heap A h k -> heap B h k.
Proof.
  unfold in_tree. induction k as [| |k IH0 IH1] using order_ind; intros h Heq; [done..|].
  intros ((Hr & Hl) & Hhr & Hhl). rewrite leo_SS in Heq. pose proof (leo_pos k). split; [|split].
  - rewrite <- !Heq by lia. done.
  - apply IH0; [|done]. intros x Hx. apply Heq. lia.
  - apply IH1; [|done]. intros x Hx. apply Heq. lia.
Qed.
Lemma heap_subheaps A h k : heap A h k -> subheaps A h k.
Proof. destruct k as [|[|k]]; [done..|]. by intros [_ ?]. Qed.
Lemma subheaps_ext A B h k :
  (forall x, in_tree x h k -> x <> h -> A x = B x) -> subheaps A h k -> subheaps B h k.
Proof.
  destruct k as [|[|k]]; [done..|]. unfold in_tree. rewrite leo_SS. pose proof (leo_pos k). intros Heq [Hr Hl].
  split; (eapply heap_ext; [|eassumption]); unfold in_tree; intros x Hx; apply Heq; lia.
Qed.

Lemma heap_max A k : forall h x, heap A h k -> in_tree x h k -> le (A x) (A h) = true.
Proof.
  induction k as [| |k IH0 IH1] using order_ind; intros h x; cbn [heap].
  1-2: unfold in_tree; cbn; intros _ Hx; replace x with h by (unfold leo in Hx; lia); apply le_refl.
  intros ((Hr & Hl) & Hhr & Hhl) [->|[Hx|Hx]]%in_tree_cases; [apply le_refl|..].
  - eapply le_trans; [by apply IH0|done].
  - eapply le_trans; [by apply IH1|done].
Qed.

(** ** Sifting *)
Fixpoint asift A (h : Z) (k : nat) : Z -> V :=
  match k with
  | S ((S k2) as k1) =>
      let rt := h - 1 in
      let lf := h - 1 - leo k2 in
      if le (A lf) (A h) && le (A rt) (A h) then A
      else if le (A rt) (A lf) then asift (swap A h lf) lf k1
      else asift (swap A h rt) rt k2
  | _ => A
  end.

(** The places the root moves through. *)
Fixpoint sift_path A (v : V) (h : Z) (k : nat) : list Z :=
  match k with
  | S ((S k2) as k1) =>
      let rt := h - 1 in
      let lf := h - 1 - leo k2 in
      if le (A lf) v && le (A rt) v then []
      else if le (A rt) (A lf) then lf :: sift_path A v lf k1
      else rt :: sift_path A v rt k2
  | _ => []
  end.

Lemma sift_path_SS A v h k : sift_path A v h (S (S k)) =
  if le (A (h - 1 - leo k)) v && le (A (h - 1)) v then []
  else if le (A (h - 1)) (A (h - 1 - leo k)) then (h - 1 - leo k) :: sift_path A v (h - 1 - leo k) (S k)
  else (h - 1) :: sift_path A v (h - 1) k.
Proof. done. Qed.
Lemma asift_SS A h k : asift A h (S (S k)) =
  if le (A (h - 1 - leo k)) (A h) && le (A (h - 1)) (A h) then A
  else if le (A (h - 1)) (A (h - 1 - leo k)) then asift (swap A h (h - 1 - leo k)) (h - 1 - leo k) (S k)
  else asift (swap A h (h - 1)) (h - 1) k.
Proof. done. Qed.

Lemma asift_path A k : forall B h v, B h = v -> (forall x, in_tree x h k -> x <> h -> B x = A x) ->
  asift B h k = swaps B h (sift_path A v h k).
Proof.
  unfold in_tree. induction k as [| |k IH0 IH1] using order_ind; intros B h v Hv Heq; [done..|].
  rewrite leo_SS in Heq. pose proof (leo_pos k). rewrite asift_SS, sift_path_SS.
  rewrite (Heq (h - 1)), (Heq (h - 1 - leo k)), Hv by lia. destruct (_ && _); [done|].
  destruct (le (A (h - 1)) _); cbn [swaps].
  - apply IH1; [by rewrite swap_r|]. intros x Hx Hne. rewrite swap_other by lia. apply Heq; lia.
  - apply IH0; [by rewrite swap_r|]. intros x Hx Hne. rewrite swap_other by lia. apply Heq; lia.
Qed.

(** The path goes down in the tree. *)
Lemma sift_path_below A v k : forall h p, p ∈ sift_path A v h k -> in_tree p h k /\ p < h.
Proof.
  unfold in_tree. induction k as [| |k IH0 IH1] using order_ind; intros h p.
  1-2: by intros ?%elem_of_nil.
  rewrite sift_path_SS, leo_SS. pose proof (leo_pos k). destruct (_ && _); [by intros ?%elem_of_nil|].
  destruct (le _ _); intros [->|Hp]%elem_of_cons; try lia; [apply IH1 in Hp|apply IH0 in Hp]; lia.
Qed.
Lemma sift_path_NoDup A v k : forall h, NoDup (h :: sift_path A v h k).
Proof.
  intros h. apply NoDup_cons. split; [intros Hp%sift_path_below; lia|].
  revert h. induction k as [| |k IH0 IH1] using order_ind; intros h; [constructor..|]. rewrite sift_path_SS.
  destruct (_ && _); [constructor|].
  destruct (le _ _); apply NoDup_cons; (split; [intros Hp%sift_path_below; lia|done]).
Qed.
Lemma sift_path_length A v k : forall h, (length (sift_path A v h k) <= k)%nat.
Proof.
  induction k as [| |k IH0 IH1] using order_ind; intros h; [cbn; lia..|]. rewrite sift_path_SS.
  destruct (_ && _); [cbn; lia|]. destruct (le _ _); cbn [length]; [specialize (IH1 (h - 1 - leo k))|specialize (IH0 (h - 1))]; lia.
Qed.

Lemma asift_other A h k x : ~ in_tree x h k -> asift A h k x = A x.
Proof.
  intros Hx. rewrite (asift_path A k A h (A h)) by done. apply swaps_other.
  intros [->|Hp]%elem_of_cons.
  - apply Hx. unfold in_tree. pose proof (leo_pos k). lia.
  - apply sift_path_below in Hp. tauto.
Qed.

(** Values of the tree stay in the tree. *)
Lemma asift_bound A m k : forall h, (forall x, in_tree x h k -> le (A x) m = true) ->
  forall x, in_tree x h k -> le (asift A h k x) m = true.
Proof.
  revert A. induction k as [| |k IH0 IH1] using order_ind; intros A h Hm x Hx; [by apply Hm..|]. rewrite asift_SS.
  destruct (_ && _); [by apply Hm|]. unfold in_tree in *. rewrite leo_SS in *. pose proof (leo_pos k).
  assert (Hsw : forall c y, h - (leo (S k) + leo k + 1) < c <= h -> h - (leo (S k) + leo k + 1) < y <= h ->
    le (swap A h c y) m = true) by (intros c y Hc Hy; unfold swap; zcases; apply Hm; lia).
  destruct (le (A (h - 1)) _).
  - destruct (decide (in_tree x (h - 1 - leo k) (S k))) as [Hi|Hi]; unfold in_tree in Hi.
    + apply IH1; [|done]. intros y Hy. apply Hsw; lia.
    + rewrite asift_other by done. apply Hsw; lia.
  - destruct (decide (in_tree x (h - 1) k)) as [Hi|Hi]; unfold in_tree in Hi.
    + apply IH0; [|done]. intros y Hy. apply Hsw; lia.
    + rewrite asift_other by done. apply Hsw; lia.
Qed.

(** One step down: the root goes to a child [c], which comes up. *)
Lemma asift_into A h c kc : heap A c kc -> c < h -> le (A h) (A c) = true ->
  let A' := asift (swap A h c) c kc in
  A' h = A c /\ le (A' c) (A c) = true /\ subheaps (swap A h c) c kc /\
  forall x, ~ in_tree x c kc -> x <> h -> A' x = A x.
Proof.
  intros Hh Hc Hv A'. pose proof (leo_pos kc). assert (Hout : ~ in_tree h c kc) by (unfold in_tree; lia). split; [|split; [|split]].
  - unfold A'. by rewrite asift_other, swap_l.
  - apply asift_bound; [|unfold in_tree; lia]. intros x Hx.
    destruct (decide (x = c)) as [->|Hne]; [by rewrite swap_r|].
    rewrite swap_other by (try done; by intros ->). by eapply heap_max.
  - eapply subheaps_ext; [|by apply heap_subheaps]. intros x Hx Hne.
    rewrite swap_other by (try done; by intros ->). done.
  - intros x Hx Hne. unfold A'. rewrite asift_other by done. apply swap_other; [done|].
    intros ->. apply Hx. unfold in_tree. lia.
Qed.

Lemma asift_heap k : forall A h, subheaps A h k -> heap (asift A h k) h k.
Proof.
  induction k as [| |k IH0 IH1] using order_ind; intros A h; [done..|]. intros [Hr Hl]. rewrite asift_SS.
  pose proof (leo_pos k). destruct (_ && _) eqn:Hstop.
  { apply andb_true_iff in Hstop as [??]. done. }
  apply andb_false_iff in Hstop.
  destruct (le (A (h - 1)) (A (h - 1 - leo k))) eqn:Hc; [|apply le_not in Hc].
  - assert (Hv : le (A h) (A (h - 1 - leo k)) = true).
    { destruct Hstop as [Hs%le_not|Hs%le_not]; [done|by eapply le_trans]. }
    destruct (asift_into A h _ _ Hl ltac:(lia) Hv) as (Hh & Hb & Hs & Ho).
    rewrite heap_SS, Hh, (Ho (h - 1)) by (unfold in_tree; lia). split; [done|]. split; [|by apply IH1].
    eapply heap_ext; [|exact Hr]. unfold in_tree in *. intros x Hx. rewrite Ho by lia. done.
  - assert (Hv : le (A h) (A (h - 1)) = true).
    { destruct Hstop as [Hs%le_not|Hs%le_not]; [by eapply le_trans|done]. }
    destruct (asift_into A h _ _ Hr ltac:(lia) Hv) as (Hh & Hb & Hs & Ho).
    rewrite heap_SS, Hh, (Ho (h - 1 - leo k)) by (unfold in_tree; lia). split; [done|]. split; [by apply IH0|].
    eapply heap_ext; [|exact Hl]. unfold in_tree in *. intros x Hx. rewrite Ho by lia. done.
Qed.

(** The values of the children of a root. *)
Definition children A (h : Z) (k : nat) : list V :=
  match k with S (S k2) => [A (h - 1); A (h - 1 - leo k2)] | _ => [] end.

Lemma heap_children A h k :
  heap A h k <-> Forall (fun c => le c (A h) = true) (children A h k) /\ subheaps A h k.
Proof.
  destruct k as [|[|k]]; [by split..|]. rewrite heap_SS. unfold children, subheaps.
  rewrite !Forall_cons, Forall_nil. tauto.
Qed.
Lemma children_ext A B h k : (forall x, in_tree x h k -> x <> h -> A x = B x) -> children A h k = children B h k.
Proof.
  destruct k as [|[|k]]; [done..|]. unfold in_tree. rewrite leo_SS. pose proof (leo_pos k). intros Heq.
  unfold children. by rewrite !Heq by lia.
Qed.

(** A sifted root is the greatest of the old root and its children. *)
Lemma asift_root A h k :
  let r := asift A h k h in
  r ∈ A h :: children A h k /\ Forall (fun c => le c r = true) (A h :: children A h k).
Proof.
  destruct k as [|[|k]].
  1-2: cbn [asift children]; (split; [by apply list_elem_of_singleton|]); by rewrite Forall_singleton, le_refl.
  rewrite asift_SS. unfold children. rewrite !Forall_cons, Forall_nil, !elem_of_cons. pose proof (leo_pos k).
  destruct (_ && _) eqn:Hstop.
  { apply andb_true_iff in Hstop as [??]. by rewrite le_refl; auto. }
  apply andb_false_iff in Hstop.
  destruct (le (A (h - 1)) (A (h - 1 - leo k))) eqn:Hc; [|apply le_not in Hc];
    rewrite asift_other, swap_l by (unfold in_tree; lia); (split; [auto|]); rewrite le_refl;
    (split; [|done]); destruct Hstop as [Hs%le_not|Hs%le_not]; try done; by eapply le_trans.
Qed.

(** ** Rows of heaps *)
Fixpoint heaps A (h : Z) (os : list nat) : Prop :=
  match os with [] => True | k :: os => heap A h k /\ heaps A (h - leo k) os end.
Fixpoint sorted_roots A (h : Z) (os : list nat) : Prop :=
  match os with
  | k :: ((_ :: _) as os') => le (A (h - leo k)) (A h) = true /\ sorted_roots A (h - leo k) os'
  | _ => True
  end.

Lemma heaps_ext A B os : forall h, (forall x, h - leos os < x <= h -> A x = B x) -> heaps A h os -> heaps B h os.
Proof.
  induction os as [|k os IH]; intros h Heq; [done|]. intros [Hh Hos]. cbn [leos] in Heq.
  pose proof (leo_pos k). pose proof (leos_nonneg os). split.
  - eapply heap_ext; [|exact Hh]. unfold in_tree. intros x Hx. apply Heq. lia.
  - apply IH; [|done]. intros x Hx. apply Heq. lia.
Qed.
Lemma sorted_roots_ext A B os : forall h, (forall x, h - leos os < x <= h -> A x = B x) ->
  sorted_roots A h os -> sorted_roots B h os.
Proof.
  induction os as [|k os IH]; intros h Heq; [done|]. destruct os as [|k' os]; [done|]. intros [Hh Hos].
  cbn [leos] in Heq. pose proof (leo_pos k). pose proof (leo_pos k'). pose proof (leos_nonneg os). split.
  - by rewrite <- !Heq by lia.
  - apply IH; [|done]. cbn [leos]. intros x Hx. apply Heq. lia.
Qed.

Lemma forest_max A os : forall h x, heaps A h os -> sorted_roots A h os -> h - leos os < x <= h ->
  le (A x) (A h) = true.
Proof.
  induction os as [|k os IH]; cbn [leos]; intros h x; [lia|]. intros [Hh Hos] Hs Hx.
  destruct (decide (h - leo k < x)).
  - eapply heap_max; [exact Hh|]. unfold in_tree. lia.
  - destruct os as [|k' os]; [cbn [leos] in Hx; lia|]. destruct Hs as [Hs Hss].
    eapply le_trans; [|exact Hs]. apply IH; [done..|lia].
Qed.

(** ** Moving a root to its place in the row *)
Definition settle A (h : Z) (k : nat) (trusty : bool) : Z -> V := if trusty then A else asift A h k.

(** A child of [h] is at least [v]. *)
Definition child_above A (h : Z) (k : nat) (v : V) : bool := existsb (le v) (children A h k).

Fixpoint atrinkle A (h : Z) (k : nat) (os : list nat) (trusty : bool) : Z -> V :=
  match os with
  | [] => settle A h k trusty
  | k' :: os' =>
      let s := h - leo k in
      if le (A s) (A h) then settle A h k trusty
      else if negb trusty && child_above A h k (A s) then settle A h k trusty
      else atrinkle (swap A h s) s k' os' false
  end.

(** The path of the root through the row: the places, the tree it ends in, and
    whether that tree can be trusted. *)
Fixpoint trinkle_path A (v : V) (h : Z) (k : nat) (os : list nat) (trusty : bool) : list Z * Z * nat * bool :=
  match os with
  | [] => ([], h, k, trusty)
  | k' :: os' =>
      let s := h - leo k in
      if le (A s) v then ([], h, k, trusty)
      else if negb trusty && child_above A h k (A s) then ([], h, k, trusty)
      else let '(ps, e, ke, t) := trinkle_path A v s k' os' false in (s :: ps, e, ke, t)
  end.

Lemma atrinkle_path A os : forall B h k v t, B h = v ->
  (forall x, h - leos (k :: os) < x <= h -> x <> h -> B x = A x) ->
  atrinkle B h k os t =
    let '(ps, e, ke, t') := trinkle_path A v h k os t in settle (swaps B h ps) e ke t'.
Proof.
  induction os as [|k' os IH]; intros B h k v t Hv Heq; [done|]. cbn [atrinkle trinkle_path].
  cbn [leos] in Heq. pose proof (leo_pos k). pose proof (leo_pos k'). pose proof (leos_nonneg os).
  assert (child_above B h k (B (h - leo k)) = child_above A h k (A (h - leo k))) as ->.
  { unfold child_above. rewrite (children_ext B A), (Heq (h - leo k)) by (unfold in_tree; intros; try apply Heq; lia). done. }
  rewrite Hv, (Heq (h - leo k)) by lia. destruct (le (A (h - leo k)) v); [done|]. destruct (_ && _); [done|].
  rewrite (IH (swap B h (h - leo k)) (h - leo k) k' v); [| |cbn [leos]].
  - by destruct (trinkle_path A v (h - leo k) k' os false) as [[[ps e] ke] t'].
  - by rewrite swap_r.
  - intros x Hx Hne. rewrite swap_other by lia. apply Heq; lia.
Qed.

Lemma settle_other A h k t x : ~ in_tree x h k -> settle A h k t x = A x.
Proof. destruct t; [done|]. apply asift_other. Qed.
Lemma settle_heap A h k t : subheaps A h k -> (t = true -> heap A h k) -> heap (settle A h k t) h k.
Proof. destruct t; cbn; [auto|]. intros Hs _. by apply asift_heap. Qed.

Lemma atrinkle_other os : forall A h k t x, ~ h - leos (k :: os) < x <= h -> atrinkle A h k os t x = A x.
Proof.
  induction os as [|k' os IH]; intros A h k t x Hx; cbn [leos atrinkle] in *.
  { apply settle_other. unfold in_tree. lia. }
  pose proof (leo_pos k). pose proof (leo_pos k'). pose proof (leos_nonneg os).
  destruct (le _ _); [|destruct (_ && _)]; [apply settle_other; unfold in_tree; lia..|].
  rewrite IH; cbn [leos]; [apply swap_other|]; lia.
Qed.

(** The new root of the row is no greater than the old root, its children and
    the next root. *)
Lemma atrinkle_root A h k os t m :
  Forall (fun c => le c m = true) (A h :: children A h k) ->
  (os <> [] -> le (A (h - leo k)) m = true) -> le (atrinkle A h k os t h) m = true.
Proof.
  intros Hc Hs.
  assert (Hset : le (settle A h k t h) m = true).
  { destruct t; cbn [settle]; [by apply Forall_cons in Hc as [??]|]. destruct (asift_root A h k) as [Hin _].
    rewrite Forall_forall in Hc. by apply Hc. }
  destruct os as [|k' os]; [done|]. cbn [atrinkle].
  destruct (le (A (h - leo k)) (A h)); [done|]. destruct (_ && _); [done|].
  pose proof (leo_pos k). rewrite atrinkle_other, swap_l by lia. by apply Hs.
Qed.

(** The root stays in its tree. *)
Lemma settle_row A h k k' os t :
  subheaps A h k -> (t = true -> heap A h k) -> heaps A (h - leo k) (k' :: os) ->
  sorted_roots A (h - leo k) (k' :: os) -> le (A (h - leo k)) (settle A h k t h) = true ->
  heaps (settle A h k t) h (k :: k' :: os) /\ sorted_roots (settle A h k t) h (k :: k' :: os).
Proof.
  intros Hsub Ht Hos Hss Hle. pose proof (leo_pos k). pose proof (leo_pos k'). pose proof (leos_nonneg os).
  assert (Hout : forall x, x <= h - leo k -> A x = settle A h k t x).
  { intros x Hx. rewrite settle_other by (unfold in_tree; lia). done. }
  split.
  - split; [by apply settle_heap|]. eapply heaps_ext; [|exact Hos]. intros x Hx. apply Hout. lia.
  - split; [by rewrite <- (Hout (h - leo k)) by lia|]. eapply sorted_roots_ext; [|exact Hss].
    intros x Hx. apply Hout. lia.
Qed.

(** The row is in order again. *)
Lemma atrinkle_spec os : forall A h k t,
  subheaps A h k -> (t = true -> heap A h k) -> heaps A (h - leo k) os -> sorted_roots A (h - leo k) os ->
  heaps (atrinkle A h k os t) h (k :: os) /\ sorted_roots (atrinkle A h k os t) h (k :: os).
Proof.
  induction os as [|k' os IH]; intros A h k t Hsub Ht Hos Hss.
  { cbn [atrinkle heaps sorted_roots]. split; [|done]. split; [|done]. by apply settle_heap. }
  pose proof (leo_pos k). pose proof (leo_pos k'). pose proof (leos_nonneg os). cbn [atrinkle].
  set (s := h - leo k) in *. assert (Hdef : s = h - leo k) by done.
  pose proof (settle_row A h k k' os t Hsub Ht Hos Hss) as Hstay. fold s in Hstay.
  destruct (le (A s) (A h)) eqn:Hle.
  { apply Hstay. destruct t; [done|]. cbn [settle]. destruct (asift_root A h k) as [_ Hr].
    apply Forall_cons in Hr as [Hr _]. by eapply le_trans. }
  destruct (negb t && child_above A h k (A s)) eqn:Hca.
  { apply Hstay. apply andb_true_iff in Hca as [Hnt Hca]. apply negb_true_iff in Hnt as ->. cbn [settle].
    apply existsb_exists in Hca as (c & Hin & Hc). apply list_elem_of_In in Hin.
    destruct (asift_root A h k) as [_ Hr]. apply Forall_cons in Hr as [_ Hr].
    rewrite Forall_forall in Hr. eapply le_trans; [exact Hc|]. by apply Hr. }
  apply le_not in Hle. destruct Hos as [Hk' Hos].
  assert (Hch : Forall (fun c => le c (A s) = true) (children A h k)).
  { apply andb_false_iff in Hca as [Hnt|Hca].
    - apply negb_false_iff in Hnt. apply Ht, heap_children in Hnt as [Hnt _].
      eapply Forall_impl; [exact Hnt|]. intros c Hc. cbn in Hc |- *. by eapply le_trans.
    - apply Forall_forall. intros c Hin. apply le_not. destruct (le (A s) c) eqn:Hc; [|done].
      rewrite <- Hca. symmetry. apply existsb_exists. exists c. split; [by apply list_elem_of_In|done]. }
  assert (HB : forall x, x < s -> A x = swap A h s x) by (intros x Hx; rewrite swap_other by lia; done).
  destruct (IH (swap A h s) s k' false) as [Hh1 Hs1].
  { eapply subheaps_ext; [|by apply heap_subheaps]. unfold in_tree. intros x Hx Hne. apply HB. lia. }
  { done. }
  { eapply heaps_ext; [|exact Hos]. intros x Hx. apply HB. lia. }
  { destruct os as [|k2 os]; [done|]. destruct Hss as [_ Hss]. eapply sorted_roots_ext; [|exact Hss].
    intros x Hx. apply HB. lia. }
  set (A' := atrinkle (swap A h s) s k' os false) in *.
  assert (Hh : A' h = A s).
  { unfold A'. rewrite atrinkle_other by lia. apply swap_l. }
  assert (Htree : forall x, in_tree x h k -> x <> h -> A x = A' x).
  { unfold in_tree, A'. intros x Hx Hne. rewrite atrinkle_other, swap_other by lia. done. }
  split.
  - split; [|done]. apply heap_children. rewrite Hh, <- (children_ext A A') by done. split; [done|].
    by eapply subheaps_ext.
  - split; [|done]. fold s. rewrite Hh. apply atrinkle_root.
    + rewrite swap_r, Forall_cons. split; [done|]. apply heap_children in Hk' as [Hk' _].
      rewrite <- (children_ext A); [done|]. unfold in_tree. intros x Hx Hne. apply HB. lia.
    + intros Hne. rewrite <- HB by lia. destruct os as [|k2 os]; [done|]. by destruct Hss as [? _].
Qed.

(** ** Exchanges stay in range *)
Lemma asift_perm A h k n : leo k <= h + 1 -> h < n -> elems (asift A h k) n ≡ₚ elems A n.
Proof.
  intros Hk Hn. pose proof (leo_pos k). rewrite (asift_path A k A h (A h)) by done. apply elems_swaps.
  apply Forall_cons. split; [lia|]. apply Forall_forall. intros p Hp. apply sift_path_below in Hp as [Hp Hlt].
  unfold in_tree in Hp. lia.
Qed.
Lemma settle_perm A h k t n : leo k <= h + 1 -> h < n -> elems (settle A h k t) n ≡ₚ elems A n.
Proof. destruct t; [done|]. apply asift_perm. Qed.

Lemma atrinkle_perm os n : forall A h k t, leos (k :: os) = h + 1 -> h < n ->
  elems (atrinkle A h k os t) n ≡ₚ elems A n.
Proof.
  induction os as [|k' os IH]; intros A h k t Hh Hn; cbn [leos atrinkle] in *; [apply settle_perm; lia|].
  pose proof (leo_pos k). pose proof (leo_pos k'). pose proof (leos_nonneg os).
  destruct (le _ _); [|destruct (_ && _)]; [apply settle_perm; lia..|].
  rewrite IH by (cbn [leos]; lia). apply elems_swap; lia.
Qed.

Lemma trinkle_path_spec A v os : forall h k t ps e ke t',
  trinkle_path A v h k os t = (ps, e, ke, t') -> leos (k :: os) = h + 1 ->
  NoDup (h :: ps) /\ Forall (fun p => 0 <= p < h) ps /\ (length ps <= length os)%nat /\
  last (h :: ps) = Some e /\ leo ke <= e + 1 /\ (ps = [] /\ t' = t \/ t' = false).
Proof.
  induction os as [|k' os IH]; intros h k t ps e ke t'; cbn [trinkle_path leos]; intros Hp Hh.
  { injection Hp as <- <- <- <-. repeat split; try done; [apply NoDup_singleton|lia|auto]. }
  pose proof (leo_pos k). pose proof (leo_pos k'). pose proof (leos_nonneg os).
  assert (Hstop : ([], h, k, t) = (ps, e, ke, t') -> NoDup (h :: ps) /\ Forall (fun p => 0 <= p < h) ps /\
    (length ps <= length (k' :: os))%nat /\ last (h :: ps) = Some e /\ leo ke <= e + 1 /\ (ps = [] /\ t' = t \/ t' = false)).
  { intros [= <- <- <- <-]. repeat split; try done; [apply NoDup_singleton|cbn; lia|lia|auto]. }
  destruct (le _ _); [by apply Hstop|]. destruct (_ && _); [by apply Hstop|]. clear Hstop.
  destruct (trinkle_path A v (h - leo k) k' os false) as [[[ps' e'] ke'] t''] eqn:Hr.
  injection Hp as <- <- <- <-.
  destruct (IH _ _ _ _ _ _ _ Hr) as (Hnd & Hlt & Hlen & Hlast & He & Ht); [cbn [leos]; lia|].
  assert (Hlt' : Forall (fun p => 0 <= p < h) ((h - leo k) :: ps')).
  { apply Forall_cons. split; [lia|]. eapply Forall_impl; [exact Hlt|]. cbn. intros p Hp. lia. }
  split; [|split; [done|split; [cbn; lia|split; [done|split; [done|]]]]].
  - apply NoDup_cons. split; [|done]. intros Hin. rewrite Forall_forall in Hlt'. specialize (Hlt' _ Hin). lia.
  - by destruct Ht as [[_ ->]| ->]; right.
Qed.

(** ** Building the row

    [r] elements are still to come, [c] come after the tree at hand.  A pair of
    neighbours is in order, or the later of them will become a child. *)
Fixpoint waiting A (h : Z) (os : list nat) (c : Z) : Prop :=
  match os with
  | k :: ((_ :: _) as os') =>
      (le (A (h - leo k)) (A h) = true \/ leo (k - 1) < c) /\ waiting A (h - leo k) os' (c + leo k)
  | _ => True
  end.

Lemma waiting_ext A B os : forall h c, (forall x, h - leos os < x <= h -> A x = B x) ->
  waiting A h os c -> waiting B h os c.
Proof.
  induction os as [|k os IH]; intros h c Heq; [done|]. destruct os as [|k' os]; [done|]. intros [Hh Hos].
  cbn [leos] in Heq. pose proof (leo_pos k). pose proof (leo_pos k'). pose proof (leos_nonneg os). split.
  - by rewrite <- !Heq by lia.
  - apply IH; [|done]. cbn [leos]. intros x Hx. apply Heq. lia.
Qed.
Lemma sorted_waiting A os : forall h c, sorted_roots A h os -> waiting A h os c.
Proof.
  induction os as [|k os IH]; intros h c; [done|]. destruct os as [|k' os]; [done|]. intros [Hh Hos].
  split; [by left|]. by apply IH.
Qed.
Lemma waiting_sorted A os : forall h c, gap2 os -> (forall k, head os = Some k -> (1 <= k)%nat /\ c <= leo (k - 1)) ->
  waiting A h os c -> sorted_roots A h os.
Proof.
  induction os as [|k os IH]; intros h c Hg Hc; [done|]. destruct os as [|k' os]; [done|]. intros [Hh Hos].
  destruct (Hc k eq_refl) as [Hk1 Hck]. split; [destruct Hh; [done|lia]|]. destruct Hg as [Hk Hg].
  apply (IH _ (c + leo k)); [done| |done]. intros ? [= <-]. split; [lia|].
  pose proof (leo_mono (S k) (k' - 1) ltac:(lia)). destruct k as [|k0]; [lia|]. rewrite leo_SS in *.
  replace (S k0 - 1)%nat with k0 in Hck by lia. lia.
Qed.

(** The trees before the one at [h] are heaps; its root is new. *)
Record growing A (h : Z) (k : nat) (os : list nat) (r : Z) : Prop := {
  g_layout : layout (k :: os);
  g_size : leos (k :: os) = h + 1;
  g_sub : subheaps A h k;
  g_heaps : heaps A (h - leo k) os;
  g_waiting : waiting A (h - leo k) os (leo k + r);
}.

(** The last two trees become the children of the next element. *)
Lemma growing_merge A h k os r :
  growing A h k (S k :: os) r -> growing (asift A h k) (h + 1) (S (S k)) os (r - 1).
Proof.
  intros [Hl Hs Hsub [Hh Hos] Hw]. cbn [leos] in Hs. pose proof (leo_pos k). pose proof (leos_nonneg os).
  assert (Hout : forall x, x <= h - leo k -> A x = asift A h k x).
  { intros x Hx. rewrite asift_other by (unfold in_tree; lia). done. }
  split.
  - by apply layout_merge.
  - cbn [leos]. rewrite leo_SS. lia.
  - unfold subheaps. replace (h + 1 - 1) with h by lia. split; [by apply asift_heap|].
    eapply heap_ext; [|exact Hh]. unfold in_tree. intros x Hx. apply Hout. lia.
  - rewrite leo_SS. replace (h + 1 - (leo (S k) + leo k + 1)) with (h - leo k - leo (S k)) by lia.
    eapply heaps_ext; [|exact Hos]. intros x Hx. apply Hout. lia.
  - rewrite leo_SS. replace (h + 1 - (leo (S k) + leo k + 1)) with (h - leo k - leo (S k)) by lia.
    destruct os as [|k' os]; [done|]. destruct Hw as [_ Hw]. eapply waiting_ext; [|].
    { intros x Hx. apply Hout. lia. }
    by replace (leo (S k) + leo k + 1 + (r - 1)) with (leo k + r + leo (S k)) by lia.
Qed.

(** The next element starts a tree of its own. *)
Lemma growing_next A' h k os r k1 :
  leo k1 = 1 -> (k1 <= 1)%nat -> layout (k1 :: k :: os) -> leos (k :: os) = h + 1 ->
  heaps A' h (k :: os) -> waiting A' h (k :: os) r -> growing A' (h + 1) k1 (k :: os) (r - 1).
Proof.
  intros H1 Hk1 Hl Hs Hh Hw. split; [done|cbn [leos] in *; lia|by destruct k1 as [|[|]]; [..|lia]| |];
    rewrite H1; replace (h + 1 - 1) with h by lia; [done|]. by replace (1 + (r - 1)) with r by lia.
Qed.
Lemma growing_sift A h k os r :
  growing A h k os r -> leo (k - 1) < r ->
  heaps (asift A h k) h (k :: os) /\ waiting (asift A h k) h (k :: os) r.
Proof.
  intros [Hl Hs Hsub Hos Hw] Hr.
  assert (Hout : forall x, x <= h - leo k -> A x = asift A h k x).
  { intros x Hx. rewrite asift_other by (unfold in_tree; lia). done. }
  split.
  - split; [by apply asift_heap|]. eapply heaps_ext; [|exact Hos]. intros x Hx. apply Hout. lia.
  - destruct os as [|k' os]; [done|]. split; [by right|]. rewrite Z.add_comm. eapply waiting_ext; [|exact Hw].
    intros x Hx. apply Hout. lia.
Qed.
Lemma growing_sorted A h k os r :
  growing A h k os r -> (r = 0 \/ gap2 (k :: os) /\ (1 <= k)%nat /\ r <= leo (k - 1)) ->
  sorted_roots A (h - leo k) os.
Proof.
  intros [Hl Hs Hsub Hos Hw] Hr. eapply waiting_sorted; [by eapply layout_gap2| |exact Hw].
  intros k' Hk'. destruct os as [|k2 os]; [done|]. injection Hk' as ->. destruct Hl as (Hk & _).
  split; [lia|]. destruct Hr as [->|([Hgk _] & H1 & Hr)].
  - pose proof (leo_mono k (k' - 1) ltac:(lia)). lia.
  - pose proof (leo_mono (S k) (k' - 1) ltac:(lia)). destruct k as [|k0]; [lia|]. rewrite leo_SS in *.
    replace (S k0 - 1)%nat with k0 in Hr by lia. lia.
Qed.
Lemma growing_trinkle A h k os r :
  growing A h k os r -> (r = 0 \/ gap2 (k :: os) /\ (1 <= k)%nat /\ r <= leo (k - 1)) ->
  heaps (atrinkle A h k os false) h (k :: os) /\ sorted_roots (atrinkle A h k os false) h (k :: os).
Proof.
  intros Hg Hr. pose proof (growing_sorted _ _ _ _ _ Hg Hr). destruct Hg. by apply atrinkle_spec.
Qed.

(** ** Taking the row apart

    What is beyond [h] is in its final place. *)
Record shrinking A (n h : Z) (k : nat) (os : list nat) : Prop := {
  s_layout : layout (k :: os);
  s_size : leos (k :: os) = h + 1;
  s_heaps : heaps A h (k :: os);
  s_roots : sorted_roots A h (k :: os);
  s_final : forall x y, 0 <= x < y -> h < y < n -> le (A x) (A y) = true;
}.

Lemma shrinking_max A n h k os x : shrinking A n h k os -> 0 <= x <= h -> le (A x) (A h) = true.
Proof. intros [Hl Hs Hh Hr Hf] Hx. apply (forest_max A (k :: os)); [done..|lia]. Qed.

Lemma shrinking_drop A n h k k' os :
  (k <= 1)%nat -> shrinking A n h k (k' :: os) -> shrinking A n (h - 1) k' os.
Proof.
  intros Hk Hsh. pose proof (fun x => shrinking_max A n h k (k' :: os) x Hsh) as Hmax.
  destruct Hsh as [Hl Hs [_ Hh] [_ Hr] Hf].
  assert (Hk1 : leo k = 1) by (destruct k as [|[|]]; [done..|lia]). rewrite Hk1 in *. cbn [leos] in *. rewrite Hk1 in Hs.
  split; [by eapply layout_drop|cbn [leos]; lia|done|done|].
  intros x y Hx Hy. destruct (decide (y = h)) as [->|]; [|apply Hf; lia]. apply Hmax. lia.
Qed.

(** The last tree gives its root away; its children take their places in the
    row. *)
Definition split_row A (h : Z) (j : nat) (os : list nat) : Z -> V :=
  atrinkle (atrinkle A (h - 1 - leo j) (S j) os true) (h - 1) j (S j :: os) true.

Lemma split_row_perm A h j os n : leos (S (S j) :: os) = h + 1 -> h <= n ->
  elems (split_row A h j os) n ≡ₚ elems A n.
Proof.
  cbn [leos]. rewrite leo_SS. intros Hs Hn. unfold split_row. pose proof (leo_pos j).
  rewrite !atrinkle_perm by (cbn [leos]; lia). done.
Qed.

Lemma shrinking_split A n h j os :
  shrinking A n h (S (S j)) os -> shrinking (split_row A h j os) n (h - 1) j (S j :: os).
Proof.
  intros Hsh. pose proof (fun x => shrinking_max A n h _ os x Hsh) as Hmax. destruct Hsh as [Hl Hs [Hh Hos] Hr Hf].
  cbn [leos] in Hs. rewrite leo_SS in Hs. pose proof (leo_pos j). pose proof (leos_nonneg os).
  pose proof Hh as Hh'. rewrite heap_SS in Hh'. destruct Hh' as (_ & Hrt & Hlf).
  rewrite leo_SS in Hos. replace (h - (leo (S j) + leo j + 1)) with (h - 1 - leo j - leo (S j)) in Hos by lia.
  assert (Hr' : sorted_roots A (h - 1 - leo j - leo (S j)) os).
  { destruct os as [|k' os]; [done|]. destruct Hr as [_ Hr]. rewrite leo_SS in Hr.
    by replace (h - 1 - leo j - leo (S j)) with (h - (leo (S j) + leo j + 1)) by lia. }
  destruct (atrinkle_spec os A (h - 1 - leo j) (S j) true) as [Hh1 Hr1]; [by apply heap_subheaps|done..|].
  unfold split_row. set (A1 := atrinkle A (h - 1 - leo j) (S j) os true) in *.
  assert (Hrt1 : heap A1 (h - 1) j).
  { eapply heap_ext; [|exact Hrt]. unfold in_tree, A1. intros x Hx. rewrite atrinkle_other by lia. done. }
  destruct (atrinkle_spec (S j :: os) A1 (h - 1) j true) as [Hh2 Hr2]; [by apply heap_subheaps|done..|].
  split; [by apply layout_split|cbn [leos]; lia|done|done|].
  intros x y Hx Hy.
  assert (Hout : forall z, h <= z -> atrinkle A1 (h - 1) j (S j :: os) true z = A z).
  { intros z Hz. unfold A1. rewrite !atrinkle_other; [done|lia|lia]. }
  rewrite (Hout y) by lia. destruct (decide (h <= x)).
  { rewrite (Hout x) by lia. apply Hf; lia. }
  assert (Hall : Forall (fun v => le v (A y) = true) (elems (split_row A h j os) h)).
  { rewrite split_row_perm by (cbn [leos]; rewrite ?leo_SS; lia). apply Forall_fmap, Forall_forall.
    intros z Hz%elem_of_seqZ. cbn. destruct (decide (y = h)) as [->|]; [|apply Hf; lia].
    apply Hmax. lia. }
  rewrite Forall_lookup in Hall. eapply Hall. unfold split_row. fold A1. apply elems_lookup. lia.
Qed.

Lemma shrinking_start A h k os :
  layout (k :: os) -> leos (k :: os) = h + 1 -> heaps A h (k :: os) -> sorted_roots A h (k :: os) ->
  shrinking A (h + 1) h k os.
Proof. intros. split; try done. intros. lia. Qed.

(** One tree of one element is left: everything is in order. *)
Lemma shrinking_end A n :
  shrinking A n 0 1 [] -> forall x y, 0 <= x < y -> y < n -> le (A x) (A y) = true.
Proof. intros Hs x y Hx Hy. apply Hs; lia. Qed.
End heaps.

(** An array in order is a sorted list. *)
Lemma elems_sorted {V} (le : V -> V -> bool) (A : Z -> V) n :
  (forall x y, 0 <= x < y -> y < n -> le (A x) (A y) = true) ->
  StronglySorted (fun v w => le v w = true) (elems A n).
Proof.
  unfold elems. intros Hle. cut (forall k a, (forall x y, a <= x < y -> y < a + Z.of_nat k -> le (A x) (A y) = true) ->
    StronglySorted (fun v w => le v w = true) (A <$> seqZ a (Z.of_nat k))).
  { intros Hs. destruct (decide (0 <= n)).
    - specialize (Hs (Z.to_nat n) 0). rewrite Z2Nat.id in Hs by done. by apply Hs.
    - rewrite seqZ_nil by lia. constructor. }
  clear. induction k as [|k IH]; intros a Hle; [constructor|].
  rewrite seqZ_cons by lia. replace (Z.pred (Z.of_nat (S k))) with (Z.of_nat k) by lia. cbn [fmap list_fmap]. constructor.
  - apply IH. intros x y Hx Hy. apply Hle; lia.
  - apply Forall_fmap, Forall_forall. intros y Hy%elem_of_seqZ. cbn. apply Hle; lia.
Qed.
