(* ===== verification/Qsort.v ===== *)
(** * The sort of the provenance mode

    [frontend/c/shadowprov/qsort.c] is musl's smoothsort, compiled with the
    instrumentation so that the bytes it moves keep their shadows.  The file
    models it on the byte memory, function by function: the two-word bit vector
    of tree orders, the rotation of elements through a buffer, and the two
    loops.  It proves that a call returns, without undefined behaviour, and that
    the array is sorted, a permutation of what it was, and the rest of memory
    unchanged; [Leonardo.v] has the argument about heaps. *)
From stdpp Require Import sorting.
From S2P Require Import Prelude Memory Leonardo.

#[local] Opaque leo.

(** ** The bit vector of orders *)
Section bits.
(** What [bsf] leaves in its destination when there is no bit to find. *)
Context (bsf0 : Z).

Fixpoint ctz_pos (p : positive) : Z := match p with xO p => 1 + ctz_pos p | _ => 0 end.
Definition a_ctz_l (x : Z) : Z := match x with Zpos p => ctz_pos p | _ => bsf0 end.

Definition pntz (p : Z * Z) : Z :=
  let r := a_ctz_l (p.1 -w 1) in
  if negb (r =? 0) then r
  else
    let r := 8 * 8 + a_ctz_l p.2 in
    if negb (r =? 8 * 8) then r else 0.
End bits.

(** Shifting a word by its width, as happens for [n = 0], is undefined. *)
Definition shl (p : Z * Z) (n : Z) : outcome (Z * Z) :=
  let '(p0, p1, n) := if 8 * 8 <=? n then (0, p.1, n - 8 * 8) else (p.1, p.2, n) in
  if (n <=? 0) || (64 <=? n) then Unreachable
  else Ret (shl64 p0 n, Z.lor (shl64 p1 n) (shr64 p0 (64 - n))).
Definition shr (p : Z * Z) (n : Z) : outcome (Z * Z) :=
  let '(p0, p1, n) := if 8 * 8 <=? n then (p.2, 0, n - 8 * 8) else (p.1, p.2, n) in
  if (n <=? 0) || (64 <=? n) then Unreachable
  else Ret (Z.lor (shr64 p0 n) (shl64 p1 (64 - n)), shr64 p1 n).

(** ** Moving elements *)
Definition memcpy (m : mem) (dst src n : Z) : outcome mem :=
  if (dst <? src + n) && (src <? dst + n) then Unreachable else Ret (memmove m dst src n).

(** [ar] is the array in use, [tmp] what its last entry points to. *)
Fixpoint shift_chunk (m : mem) (ar : list Z) (tmp : list Z) (l : Z) : outcome mem :=
  match ar with
  | [] => Ret m
  | [a] => Ret (write_bytes m a tmp)
  | a :: ((b :: _) as ar) => m ← memcpy m a b l; shift_chunk m ar tmp l
  end.
Fixpoint cycle_loop (fuel : nat) (m : mem) (width : Z) (ar : list Z) : outcome mem :=
  if width =? 0 then Ret m
  else match fuel with
       | O => Unreachable
       | S fuel =>
           let l := if 256 <? width then 256 else width in
           let tmp := read_bytes m (hd 0 ar) (Z.to_nat l) in
           m ← shift_chunk m ar tmp l;
           cycle_loop fuel m (width -w l) ((fun a => a +w l) <$> ar)
       end.
(** The arrays of the callers have this many entries. *)
Definition AR_SIZE : nat := 14 * 8 + 1.
Definition cycle (m : mem) (width : Z) (ar : list Z) : outcome mem :=
  if (length ar <? 2)%nat then Ret m
  else if (AR_SIZE <=? length ar)%nat then Unreachable
  else cycle_loop (Z.to_nat width) m width ar.

Definition ar_push (ar : list Z) (a : Z) : outcome (list Z) :=
  if (AR_SIZE <=? length ar)%nat then Unreachable else Ret (ar ++ [a]).
Definition lp_at (lp : list Z) (i : Z) : outcome Z :=
  if i <? 0 then Unreachable
  else match lp !! Z.to_nat i with Some v => Ret v | None => Unreachable end.

Section sort.
Context (bsf0 : Z) (cmp : mem -> Z -> Z -> Z).

Fixpoint sift_loop (fuel : nat) (m : mem) (width ar0 head pshift : Z) (lp ar : list Z) : outcome (list Z) :=
  if pshift <=? 1 then Ret ar
  else match fuel with
       | O => Unreachable
       | S fuel =>
           let rt := head -w width in
           l ← lp_at lp (pshift - 2);
           let lf := head -w width -w l in
           if (0 <=? cmp m ar0 lf) && (0 <=? cmp m ar0 rt) then Ret ar
           else if 0 <=? cmp m lf rt then
             ar ← ar_push ar lf; sift_loop fuel m width ar0 lf (pshift - 1) lp ar
           else
             ar ← ar_push ar rt; sift_loop fuel m width ar0 rt (pshift - 2) lp ar
       end.
Definition sift (m : mem) (head width pshift : Z) (lp : list Z) : outcome mem :=
  ar ← sift_loop (Z.to_nat pshift) m width head head pshift lp [head];
  cycle m width ar.

(** [if(!trusty && pshift > 1)] and the test in it. *)
Definition child_reaches (m : mem) (width head stepson pshift : Z) (trusty : bool) (lp : list Z) : outcome bool :=
  if negb trusty && (1 <? pshift) then
    let rt := head -w width in
    l ← lp_at lp (pshift - 2);
    let lf := head -w width -w l in
    Ret ((0 <=? cmp m rt stepson) || (0 <=? cmp m lf stepson))
  else Ret false.

(** Returns [ar], [head], [pshift] and [trusty]. *)
Fixpoint trinkle_loop (fuel : nat) (m : mem) (width ar0 head : Z) (p : Z * Z) (pshift : Z) (trusty : bool)
    (lp ar : list Z) : outcome (list Z * Z * Z * bool) :=
  if (p.1 =? 1) && (p.2 =? 0) then Ret (ar, head, pshift, trusty)
  else match fuel with
       | O => Unreachable
       | S fuel =>
           l ← lp_at lp pshift;
           let stepson := head -w l in
           if cmp m stepson ar0 <=? 0 then Ret (ar, head, pshift, trusty)
           else
             stop ← child_reaches m width head stepson pshift trusty lp;
             if (stop : bool) then Ret (ar, head, pshift, trusty)
             else
               ar ← ar_push ar stepson;
               let trail := pntz bsf0 p in
               p ← shr p trail;
               trinkle_loop fuel m width ar0 stepson p (pshift + trail) false lp ar
       end.
(** Every round shifts at least one of the bits out. *)
Definition trinkle_fuel : nat := 128.
Definition trinkle (m : mem) (head width : Z) (pp : Z * Z) (pshift : Z) (trusty : bool) (lp : list Z) : outcome mem :=
  '(ar, head, pshift, trusty) ← trinkle_loop trinkle_fuel m width head head pp pshift trusty lp [head];
  if negb trusty then m ← cycle m width ar; sift m head width pshift lp
  else Ret m.

(** ** The sort *)

(** [lp[i] = lp[i-2] + lp[i-1] + width]; [a] and [b] are the last two. *)
Definition LP_SIZE : nat := 12 * 8.
Fixpoint leonardo_loop (fuel : nat) (width size a b : Z) (lp : list Z) : outcome (list Z) :=
  match fuel with
  | O => Unreachable
  | S fuel =>
      let c := a +w b +w width in
      if (LP_SIZE <=? length lp)%nat then Unreachable
      else if c <? size then leonardo_loop fuel width size b c (lp ++ [c]) else Ret (lp ++ [c])
  end.

(** One round of the first loop: the element after [head] joins the heaps. *)
Definition build_step (m : mem) (width head high : Z) (p : Z * Z) (pshift : Z) (lp : list Z)
    : outcome (mem * (Z * Z) * Z) :=
  '(m, p, pshift) ←
    (if Z.land p.1 3 =? 3 then
       m ← sift m head width pshift lp;
       p ← shr p 2;
       Ret (m, p, pshift + 2)
     else
       l ← lp_at lp (pshift - 1);
       m ← (if (high -w head) <=? l then trinkle m head width p pshift false lp
            else sift m head width pshift lp);
       if pshift =? 1 then p ← shl p 1; Ret (m, p, 0)
       else p ← shl p (pshift - 1); Ret (m, p, 1));
  Ret (m, (Z.lor p.1 1, p.2), pshift).
Fixpoint build (fuel : nat) (m : mem) (width head high : Z) (p : Z * Z) (pshift : Z) (lp : list Z)
    : outcome (mem * Z * (Z * Z) * Z) :=
  if head <? high then
    match fuel with
    | O => Unreachable
    | S fuel =>
        '(m, p, pshift) ← build_step m width head high p pshift lp;
        build fuel m width (head +w width) high p pshift lp
    end
  else Ret (m, head, p, pshift).

(** One round of the second loop: the element at [head] is in its place. *)
Definition unbuild_step (m : mem) (width head : Z) (p : Z * Z) (pshift : Z) (lp : list Z)
    : outcome (mem * (Z * Z) * Z) :=
  if pshift <=? 1 then
    let trail := pntz bsf0 p in
    p ← shr p trail;
    Ret (m, p, pshift + trail)
  else
    p ← shl p 2;
    let pshift := pshift - 2 in
    let p := (Z.lxor p.1 7, p.2) in
    p ← shr p 1;
    l ← lp_at lp pshift;
    m ← trinkle m (head -w l -w width) width p (pshift + 1) true lp;
    p ← shl p 1;
    let p := (Z.lor p.1 1, p.2) in
    m ← trinkle m (head -w width) width p pshift true lp;
    Ret (m, p, pshift).
Fixpoint unbuild (fuel : nat) (m : mem) (width head : Z) (p : Z * Z) (pshift : Z) (lp : list Z) : outcome mem :=
  if (pshift =? 1) && (p.1 =? 1) && (p.2 =? 0) then Ret m
  else match fuel with
       | O => Unreachable
       | S fuel =>
           '(m, p, pshift) ← unbuild_step m width head p pshift lp;
           unbuild fuel m width (head -w width) p pshift lp
       end.

Definition qsort (m : mem) (base nel width : Z) : outcome mem :=
  let size := wrap64 (width * nel) in
  if size =? 0 then Ret m
  else
    let high := base +w size -w width in
    lp ← leonardo_loop LP_SIZE width size width width [width; width];
    '(m, head, p, pshift) ← build (Z.to_nat nel) m width base high (1, 0) 1 lp;
    m ← trinkle m head width p pshift false lp;
    unbuild (Z.to_nat nel) m width head p pshift lp.
End sort.

(** ** The bit vector encodes the orders of the trees

    As long as the orders are below 64, they are all in the first word: bit [i]
    stands for a tree of order [i + k]. *)
Definition encodes (p : Z * Z) (k : nat) (os : list nat) : Prop :=
  p.2 = 0 /\ u64 p.1 /\ forall i : nat, Z.testbit p.1 (Z.of_nat i) = bool_decide ((i + k)%nat ∈ os).

Lemma testbit_u64_eq a b : u64 a -> u64 b ->
  (forall i : nat, (i < 64)%nat -> Z.testbit a (Z.of_nat i) = Z.testbit b (Z.of_nat i)) -> a = b.
Proof.
  intros Ha Hb Heq. apply Z.bits_inj'. intros i Hi. destruct (decide (i < 64)).
  - rewrite <- (Z2Nat.id i) by done. apply Heq. lia.
  - rewrite !u64_testbit_high by (done || lia). done.
Qed.
Lemma u64_bits a : 0 <= a -> (forall i, 64 <= i -> Z.testbit a i = false) -> u64 a.
Proof.
  intros Ha Hi. assert (a mod 2 ^ 64 = a) as <-; [|by apply Z.mod_pos_bound].
  apply Z.bits_inj'. intros i Hi0. destruct (decide (i < 64)).
  - by rewrite Z.mod_pow2_bits_low.
  - rewrite Z.mod_pow2_bits_high by lia. symmetry. apply Hi. lia.
Qed.

Lemma encodes_ext p k os os' :
  (forall o, (k <= o)%nat -> o ∈ os <-> o ∈ os') -> encodes p k os -> encodes p k os'.
Proof.
  intros Heq (Hp & Hu & Hb). split; [done|]. split; [done|]. intros i. rewrite Hb.
  apply bool_decide_ext. apply Heq. lia.
Qed.

Lemma encodes_shr p k os n : encodes p k os -> (0 < n < 64)%nat ->
  exists p', shr p (Z.of_nat n) = Ret p' /\ encodes p' (k + n) os.
Proof.
  intros (Hp & Hu & Hb) Hn. unfold shr. rewrite (proj2 (Z.leb_gt _ _)) by lia. cbv iota.
  rewrite (proj2 (Z.leb_gt (Z.of_nat n) 0)), (proj2 (Z.leb_gt 64 (Z.of_nat n))) by lia. cbn [orb].
  rewrite Hp. eexists. split; [reflexivity|]. unfold encodes, shl64, shr64. cbn [fst snd].
  rewrite Z.shiftl_0_l, Z.shiftr_0_l. change (wrap64 0) with 0. rewrite Z.lor_0_r. split; [done|]. unfold u64 in *. split.
  - rewrite Z.shiftr_div_pow2 by lia. pose proof (Z.pow_pos_nonneg 2 (Z.of_nat n)).
    split; [apply Z.div_pos; lia|]. apply Z.div_lt_upper_bound; nia.
  - intros i. rewrite Z.shiftr_spec by lia. replace (Z.of_nat i + Z.of_nat n) with (Z.of_nat (i + n)) by lia.
    rewrite Hb. apply bool_decide_ext. by replace (i + n + k)%nat with (i + (k + n))%nat by lia.
Qed.

Lemma encodes_shl p k os n : encodes p (k + n) os -> (0 < n < 64)%nat ->
  (forall o, o ∈ os -> (k + n <= o < k + 64)%nat) ->
  exists p', shl p (Z.of_nat n) = Ret p' /\ encodes p' k os.
Proof.
  intros (Hp & Hu & Hb) Hn Ho. unfold shl. rewrite (proj2 (Z.leb_gt _ _)) by lia. cbv iota.
  rewrite (proj2 (Z.leb_gt (Z.of_nat n) 0)), (proj2 (Z.leb_gt 64 (Z.of_nat n))) by lia. cbn [orb].
  rewrite Hp. eexists. split; [reflexivity|]. unfold encodes, shl64, shr64, wrap64. cbn [fst snd].
  split; [|split].
  - rewrite Z.shiftl_0_l. change (0 mod 2 ^ 64) with 0. rewrite Z.lor_0_l. apply Z.bits_inj'. intros i Hi.
    rewrite Z.shiftr_spec, Z.bits_0 by done.
    replace (i + (64 - Z.of_nat n)) with (Z.of_nat (Z.to_nat i + (64 - n))) by lia. rewrite Hb.
    apply bool_decide_eq_false. intros Hin%Ho. lia.
  - by apply Z.mod_pos_bound.
  - intros i. destruct (decide (i < 64)%nat).
    + rewrite Z.mod_pow2_bits_low by lia. destruct (decide (i < n)%nat).
      * rewrite Z.shiftl_spec_low by lia. symmetry. apply bool_decide_eq_false. intros Hin%Ho. lia.
      * rewrite Z.shiftl_spec by lia. replace (Z.of_nat i - Z.of_nat n) with (Z.of_nat (i - n)) by lia.
        rewrite Hb. apply bool_decide_ext. by replace (i - n + (k + n))%nat with (i + k)%nat by lia.
    + rewrite Z.mod_pow2_bits_high by lia. symmetry. apply bool_decide_eq_false. intros Hin%Ho. lia.
Qed.

Lemma encodes_or1 p k os : encodes p k os -> encodes (Z.lor p.1 1, p.2) k (k :: os).
Proof.
  intros (Hp & Hu & Hb). split; [done|]. cbn [fst snd]. split.
  - apply u64_bits; [apply Z.lor_nonneg; unfold u64 in Hu; lia|]. intros i Hi.
    rewrite Z.lor_spec, (u64_testbit_high p.1 i Hu), (u64_testbit_high 1 i) by (done || unfold u64; lia). done.
  - intros i. rewrite Z.lor_spec, Hb. change 1 with (2 ^ 0). rewrite Z.pow2_bits_eqb by lia.
    destruct i as [|i]; cbn [Nat.add].
    + rewrite orb_true_r. symmetry. apply bool_decide_eq_true. apply elem_of_cons. by left.
    + rewrite (proj2 (Z.eqb_neq _ _)), orb_false_r by lia. apply bool_decide_ext. rewrite elem_of_cons.
      split; [auto|]. intros [?|?]; [lia|done].
Qed.

(** Taking a tree apart: bit 2 for the tree becomes bits 0 and 1 for its
    children. *)
Lemma encodes_split p k os : (forall o, o ∈ os -> (k + 2 < o)%nat) ->
  encodes p k (S (S k) :: os) -> encodes (Z.lxor p.1 7, p.2) k (k :: S k :: os).
Proof.
  intros Ho (Hp & Hu & Hb). split; [done|]. cbn [fst snd].
  assert (H7 : forall i, 64 <= i -> Z.testbit (Z.lxor p.1 7) i = false).
  { intros i Hi. rewrite Z.lxor_spec, (u64_testbit_high p.1 i Hu), (u64_testbit_high 7 i) by (done || unfold u64; lia). done. }
  split; [apply u64_bits; [apply Z.lxor_nonneg; unfold u64 in Hu; lia|done]|].
  intros i. rewrite Z.lxor_spec, Hb.
  assert (Hno : forall j, (j <= 2)%nat -> (j + k)%nat ∉ os) by (intros j Hj Hin%Ho; lia).
  destruct i as [|[|[|i]]]; cbn [Nat.add].
  - rewrite bool_decide_eq_false_2, bool_decide_eq_true_2; [done|..]; rewrite !elem_of_cons.
    + by left.
    + pose proof (Hno 0%nat ltac:(lia)). cbn in *. intros [?|?]; [lia|done].
  - rewrite bool_decide_eq_false_2, bool_decide_eq_true_2; [done|..]; rewrite !elem_of_cons.
    + by right; left.
    + pose proof (Hno 1%nat ltac:(lia)). cbn in *. intros [?|?]; [lia|done].
  - rewrite bool_decide_eq_true_2, bool_decide_eq_false_2; [done|..]; rewrite !elem_of_cons.
    + pose proof (Hno 2%nat ltac:(lia)). cbn in *. intros [?|[?|?]]; [lia|lia|done].
    + by left.
  - assert (Z.testbit 7 (Z.of_nat (S (S (S i)))) = false) as ->.
    { replace 7 with (Z.ones 3) by done. apply Z.ones_spec_high. lia. }
    rewrite xorb_false_r. apply bool_decide_ext. rewrite !elem_of_cons. split; [intros [?|?]; [lia|by right; right]|intros [?|[?|?]]; [lia|lia|by right]].
Qed.

(** Nothing but the last tree. *)
Lemma encodes_one p k os : (forall o, o ∈ os -> (k < o)%nat) -> encodes p k (k :: os) ->
  (p.1 =? 1) && (p.2 =? 0) = bool_decide (os = []).
Proof.
  intros Ho (Hp & Hu & Hb). rewrite Hp. cbn [Z.eqb]. rewrite andb_true_r. destruct os as [|o os].
  - rewrite bool_decide_eq_true_2 by done. apply Z.eqb_eq. apply testbit_u64_eq; [done|unfold u64; lia|].
    intros i Hi. rewrite Hb. change 1 with (2 ^ 0). rewrite Z.pow2_bits_eqb by lia.
    destruct i as [|i]; [apply bool_decide_eq_true; by apply elem_of_cons; left|].
    rewrite (proj2 (Z.eqb_neq _ _)) by lia. apply bool_decide_eq_false. rewrite elem_of_cons.
    intros [?|?%elem_of_nil]; [lia|done].
  - rewrite bool_decide_eq_false_2 by done. apply Z.eqb_neq. intros H1.
    specialize (Ho o ltac:(by apply elem_of_cons; left)). specialize (Hb (o - k)%nat). rewrite H1 in Hb.
    replace (o - k + k)%nat with o in Hb by lia.
    rewrite bool_decide_eq_true_2 in Hb by (rewrite !elem_of_cons; auto). change 1 with (2 ^ 0) in Hb.
    rewrite Z.pow2_bits_eqb in Hb by lia. apply Z.eqb_eq in Hb. lia.
Qed.

(** The last two trees can be joined. *)
Lemma encodes_three p k os : encodes p k (k :: os) ->
  (Z.land p.1 3 =? 3) = bool_decide (S k ∈ os).
Proof.
  intros (Hp & Hu & Hb). pose proof (Hb 0%nat) as H0. pose proof (Hb 1%nat) as H1. cbn [Nat.add] in H0, H1.
  rewrite bool_decide_eq_true_2 in H0 by (by apply elem_of_cons; left).
  change (Z.of_nat 0) with 0 in H0. change (Z.of_nat 1) with 1 in H1.
  change 3 with (2 ^ 2 - 1) at 1. rewrite land_low by lia. change (2 ^ 2) with 4.
  assert (Hm : p.1 mod 4 = Z.b2z (Z.testbit p.1 0) + 2 * Z.b2z (Z.testbit p.1 1)).
  { rewrite Z.bit0_eqb, (Z.testbit_eqb p.1 1) by lia. change (2 ^ 1) with 2.
    destruct (Z.eqb_spec (p.1 mod 2) 1), (Z.eqb_spec (p.1 / 2 mod 2) 1); cbn [Z.b2z]; mod_lia. }
  rewrite Hm, H0, H1. cbn [Z.b2z]. destruct (decide (S k ∈ os)).
  - rewrite !bool_decide_eq_true_2 by (rewrite ?elem_of_cons; auto). done.
  - rewrite !bool_decide_eq_false_2; [done|done|]. rewrite elem_of_cons. intros [?|?]; [lia|done].
Qed.

(** ** Counting zeros *)
Lemma ctz_pos_spec p : 0 <= ctz_pos p /\ Z.testbit (Zpos p) (ctz_pos p) = true /\
  forall i, 0 <= i < ctz_pos p -> Z.testbit (Zpos p) i = false.
Proof.
  induction p as [p IH|p (H0 & Hb & Hl)|]; cbn [ctz_pos]; [split; [done|]; split; [done|lia]| |split; [done|]; split; [done|lia]].
  change (Zpos (xO p)) with (2 * Zpos p). split; [lia|]. split.
  - replace (1 + ctz_pos p) with (Z.succ (ctz_pos p)) by lia. by rewrite Z.double_bits_succ.
  - intros i Hi. destruct (decide (i = 0)) as [->|]; [apply Z.testbit_even_0|].
    replace i with (Z.succ (i - 1)) by lia. rewrite Z.double_bits_succ. apply Hl. lia.
Qed.

(** The distance to the next tree. *)
Lemma encodes_pntz bsf0 p k k' os :
  (k < k')%nat -> (forall o, o ∈ os -> (k' < o)%nat) -> encodes p k (k :: k' :: os) ->
  pntz bsf0 p = Z.of_nat (k' - k).
Proof.
  intros Hk Ho (Hp & Hu & Hb). set (x := p.1) in *.
  assert (H0 : x mod 2 = 1).
  { apply Z.eqb_eq. rewrite <- Z.bit0_eqb. change 0 with (Z.of_nat 0). rewrite Hb.
    apply bool_decide_eq_true. by apply elem_of_cons; left. }
  assert (Hbit : forall i, 0 <= i -> Z.testbit (x - 1) (Z.succ i) = Z.testbit x (Z.succ i)).
  { intros i Hi. rewrite <- !Z.div2_bits by done. f_equal. mod_lia. }
  assert (Hk' : Z.testbit (x - 1) (Z.of_nat (k' - k)) = true).
  { replace (Z.of_nat (k' - k)) with (Z.succ (Z.of_nat (k' - k - 1))) by lia. rewrite Hbit by lia.
    replace (Z.succ (Z.of_nat (k' - k - 1))) with (Z.of_nat (k' - k)) by lia. rewrite Hb.
    apply bool_decide_eq_true. replace (k' - k + k)%nat with k' by lia. rewrite !elem_of_cons. auto. }
  assert (Hlow : forall i, 0 <= i < Z.of_nat (k' - k) -> Z.testbit (x - 1) i = false).
  { intros i Hi. destruct (decide (i = 0)) as [->|].
    - rewrite Z.bit0_eqb. apply Z.eqb_neq. mod_lia.
    - replace i with (Z.succ (i - 1)) by lia. rewrite Hbit by lia.
      replace (Z.succ (i - 1)) with (Z.of_nat (Z.to_nat i)) by lia. rewrite Hb. apply bool_decide_eq_false.
      rewrite !elem_of_cons. intros [?|[?|Hin%Ho]]; lia. }
  unfold pntz. fold x. assert (1 <= x) by (unfold u64 in Hu; destruct (decide (x = 0)) as [Hx0|]; [by rewrite Hx0 in H0|lia]).
  assert (x -w 1 = x - 1) as -> by (apply wrap64_small; unfold u64 in *; lia).
  destruct (x - 1) as [|q|q] eqn:Hq; [by rewrite Z.bits_0 in Hk'| |unfold u64 in Hu; lia]. cbn [a_ctz_l].
  destruct (ctz_pos_spec q) as (Hc0 & Hcb & Hcl).
  assert (ctz_pos q = Z.of_nat (k' - k)) as ->.
  { destruct (Z.lt_trichotomy (ctz_pos q) (Z.of_nat (k' - k))) as [Hlt|[?|Hgt]]; [|done|].
    - rewrite Hlow in Hcb by lia. done.
    - rewrite Hcl in Hk' by lia. done. }
  by rewrite (proj2 (Z.eqb_neq _ _)) by lia.
Qed.

(** ** Rotating elements *)

(** Blocks of [l] bytes at these addresses do not overlap, nor wrap around. *)
Definition apart (l : Z) (ar : list Z) : Prop :=
  (forall i j a b, ar !! i = Some a -> ar !! j = Some b -> i <> j -> a + l <= b \/ b + l <= a) /\
  Forall (fun a => 0 <= a /\ a + l < 2 ^ 64) ar.

Lemma apart_cons l a ar : apart l (a :: ar) ->
  (forall b, b ∈ ar -> a + l <= b \/ b + l <= a) /\ apart l ar.
Proof.
  intros [Hd Hr]. apply Forall_cons in Hr as [Ha Hr]. split; [|split; [|done]].
  - intros b [j Hj]%list_elem_of_lookup. by apply (Hd O (S j)).
  - intros i j b c Hi Hj Hne. apply (Hd (S i) (S j)); [done..|lia].
Qed.

Definition outside (l : Z) (ar : list Z) (x : Z) : Prop := forall a, a ∈ ar -> x < a \/ a + l <= x.

Lemma memcpy_spec m dst src n :
  dst + n <= src \/ src + n <= dst -> memcpy m dst src n = Ret (memmove m dst src n).
Proof. intros H. unfold memcpy. zcases; [lia|done..]. Qed.

Lemma shift_chunk_spec l ar : forall m tmp, 0 <= l -> ar <> [] -> apart l ar -> length tmp = Z.to_nat l ->
  exists m', shift_chunk m ar tmp l = Ret m' /\
    (forall i a j, ar !! i = Some a -> 0 <= j < l ->
       byte m' (a + j) = match ar !! S i with
                         | Some b => byte m (b + j)
                         | None => default 0 (tmp !! Z.to_nat j) mod 256
                         end) /\
    forall x, outside l ar x -> byte m' x = byte m x.
Proof.
  induction ar as [|a ar IH]; intros m tmp Hl Hne Hap Hlen; [done|]. destruct ar as [|b ar].
  { cbn [shift_chunk]. eexists. split; [reflexivity|]. split.
    - intros [|i] a' j Hi Hj; [|done]. injection Hi as <-. cbn [lookup list_lookup].
      assert ((Z.to_nat j < length tmp)%nat) as [t Ht]%lookup_lt_is_Some by lia.
      rewrite Ht. rewrite <- (Z2Nat.id j) at 1 by lia. by apply byte_write_same.
    - intros x Hx. apply byte_write_other. specialize (Hx a ltac:(by apply elem_of_cons; left)). lia. }
  apply apart_cons in Hap as [Ha Hap]. pose proof (Ha b ltac:(by apply elem_of_cons; left)) as Hab.
  change (shift_chunk m (a :: b :: ar) tmp l) with (m ← memcpy m a b l; shift_chunk m (b :: ar) tmp l).
  rewrite memcpy_spec by lia. cbn [mbind outcome_bind].
  destruct (IH (memmove m a b l) tmp Hl ltac:(done) Hap Hlen) as (m' & -> & Hin & Hout).
  exists m'. split; [done|]. split.
  - intros [|i] c j Hi Hj.
    + injection Hi as <-. rewrite Hout; [by apply byte_memmove_in|].
      intros c Hc. specialize (Ha c Hc). lia.
    + rewrite (Hin i c j Hi Hj). change ((a :: b :: ar) !! S (S i)) with ((b :: ar) !! S i). destruct ((b :: ar) !! S i) as [d|] eqn:Hd; [|done].
      apply byte_memmove_out. apply list_elem_of_lookup_2, Ha in Hd. lia.
  - intros x Hx. rewrite Hout.
    + apply byte_memmove_out. specialize (Hx a ltac:(by apply elem_of_cons; left)). lia.
    + intros c Hc. apply Hx. by apply elem_of_cons; right.
Qed.

Lemma apart_weaken l l' ar : l' <= l -> apart l ar -> apart l' ar.
Proof.
  intros Hl [Hd Hr]. split; [|eapply Forall_impl; [exact Hr|]; cbn; lia].
  intros i j a b Hi Hj Hij. specialize (Hd i j a b Hi Hj Hij). lia.
Qed.
Lemma apart_advance l d ar : 0 <= d <= l -> apart l ar -> apart (l - d) ((fun a => a + d) <$> ar).
Proof.
  intros Hl [Hd Hr]. split.
  - intros i j a b. rewrite !list_lookup_fmap. intros (a0 & Ha0 & ->)%fmap_Some (b0 & Hb0 & ->)%fmap_Some Hij.
    specialize (Hd i j a0 b0 Ha0 Hb0 Hij). lia.
  - apply Forall_fmap. eapply Forall_impl; [exact Hr|]. cbn. lia.
Qed.
(** A byte of one block is not in the first [d] bytes of any block. *)
Lemma apart_outside l d ar a j : apart l ar -> a ∈ ar -> d <= j < l -> outside d ar (a + j).
Proof.
  intros [Hd _] [i Hi]%list_elem_of_lookup Hj b [i' Hi']%list_elem_of_lookup.
  destruct (decide (i = i')) as [<-|Hii]; [rewrite Hi in Hi'; injection Hi' as <-; lia|].
  specialize (Hd i i' a b Hi Hi' Hii). lia.
Qed.
Lemma apart_outside_rest l d ar a j : apart l ar -> a ∈ ar -> 0 <= j < d -> d <= l ->
  outside (l - d) ((fun a => a + d) <$> ar) (a + j).
Proof.
  intros [Hd _] [i Hi]%list_elem_of_lookup Hj Hl b (b0 & -> & [i' Hi']%list_elem_of_lookup)%list_elem_of_fmap.
  destruct (decide (i = i')) as [<-|Hii]; [rewrite Hi in Hi'; injection Hi' as <-; lia|].
  specialize (Hd i i' a b0 Hi Hi' Hii). lia.
Qed.

(** The block that goes to the [i]th place. *)
Definition next_block (ar : list Z) (i : nat) : Z :=
  match ar !! S i with Some b => b | None => hd 0 ar end.

Lemma next_block_in ar i : (i < length ar)%nat -> next_block ar i ∈ ar.
Proof.
  intros Hi. unfold next_block. destruct (ar !! S i) eqn:Hs; [by eapply list_elem_of_lookup_2|].
  destruct ar; [cbn in Hi; lia|]. by apply elem_of_cons; left.
Qed.
Lemma next_block_advance d ar i : (i < length ar)%nat ->
  next_block ((fun a => a + d) <$> ar) i = next_block ar i + d.
Proof.
  intros Hi. unfold next_block. rewrite list_lookup_fmap. destruct (ar !! S i); [done|].
  destruct ar; [cbn in Hi; lia|done].
Qed.
Lemma next_block_chunk m ar l i j : 0 <= j < l ->
  match ar !! S i with
  | Some b => byte m (b + j)
  | None => default 0 (read_bytes m (hd 0 ar) (Z.to_nat l) !! Z.to_nat j) mod 256
  end = byte m (next_block ar i + j).
Proof.
  intros Hj. unfold next_block. destruct (ar !! S i); [done|].
  rewrite read_bytes_lookup by lia. cbn [default from_option id]. rewrite Z2Nat.id by lia.
  unfold byte. by rewrite Z.mod_mod by lia.
Qed.

Lemma cycle_loop_spec fuel : forall m width ar, 0 <= width <= Z.of_nat fuel -> ar <> [] -> apart width ar ->
  exists m', cycle_loop fuel m width ar = Ret m' /\
    (forall i a j, ar !! i = Some a -> 0 <= j < width -> byte m' (a + j) = byte m (next_block ar i + j)) /\
    forall x, outside width ar x -> byte m' x = byte m x.
Proof.
  induction fuel as [|fuel IH]; intros m width ar Hw Hne Hap.
  { assert (width = 0) as -> by lia. exists m. split; [done|]. split; [lia|done]. }
  cbn [cycle_loop]. destruct (Z.eqb_spec width 0) as [->|Hnz].
  { exists m. split; [done|]. split; [lia|done]. }
  set (l := if 256 <? width then 256 else width).
  assert (Hl : 0 < l <= width) by (unfold l; zcases; lia). clearbody l.
  destruct (shift_chunk_spec l ar m (read_bytes m (hd 0 ar) (Z.to_nat l))) as (m1 & -> & Hin1 & Hout1);
    [lia|done|by apply (apart_weaken width); [lia|]|by rewrite read_bytes_length|].
  cbn [mbind outcome_bind].
  assert ((fun a => a +w l) <$> ar = (fun a => a + l) <$> ar) as ->.
  { apply list_fmap_ext. intros i a Hi. apply wrap64_small. destruct Hap as [_ Hr]. rewrite Forall_forall in Hr.
    apply list_elem_of_lookup_2, Hr in Hi. unfold u64. lia. }
  assert (width -w l = width - l) as ->.
  { apply wrap64_small. destruct ar as [|a ar]; [done|]. destruct Hap as [_ [Hr _]%Forall_cons]. unfold u64. lia. }
  destruct (IH m1 (width - l) ((fun a => a + l) <$> ar)) as (m' & -> & Hin & Hout);
    [lia|by destruct ar|apply apart_advance; [lia|done]|].
  exists m'. split; [done|]. split.
  - intros i a j Hi Hj. pose proof (lookup_lt_Some _ _ _ Hi) as Hilt. destruct (decide (j < l)).
    + rewrite Hout by (apply apart_outside_rest; [done|by eapply list_elem_of_lookup_2|lia|lia]).
      rewrite (Hin1 i a j Hi ltac:(lia)). apply next_block_chunk. lia.
    + replace (a + j) with (a + l + (j - l)) by lia. rewrite (Hin i (a + l) (j - l)); [|by rewrite list_lookup_fmap, Hi|lia].
      rewrite next_block_advance by done. replace (next_block ar i + l + (j - l)) with (next_block ar i + j) by lia.
      apply Hout1. apply (apart_outside width); [done|by apply next_block_in|lia].
  - intros x Hx. rewrite Hout, Hout1; [done|..].
    + intros a Ha. specialize (Hx a Ha). lia.
    + intros b (b0 & -> & Hb0)%list_elem_of_fmap. specialize (Hx b0 Hb0). lia.
Qed.

(** ** The code takes the steps of the heap algorithm *)
Lemma read_bytes_ext m1 m2 k : forall a b,
  (forall j, 0 <= j < Z.of_nat k -> byte m1 (a + j) = byte m2 (b + j)) -> read_bytes m1 a k = read_bytes m2 b k.
Proof.
  induction k as [|k IH]; intros a b Heq; [done|]. cbn [read_bytes]. f_equal.
  - specialize (Heq 0 ltac:(lia)). by rewrite !Z.add_0_r in Heq.
  - apply IH. intros j Hj. specialize (Heq (j + 1) ltac:(lia)).
    by rewrite (Z.add_comm j), !Z.add_assoc in Heq.
Qed.

Definition addr (base width i : Z) : Z := base + i * width.
Definition elem (m : mem) (base width i : Z) : list Z := read_bytes m (addr base width i) (Z.to_nat width).

(** The documented contract of a comparison function: it orders the contents of
    elements, whatever they are, and returns the sign. *)
Definition comparator (cmp : mem -> Z -> Z -> Z) (le : list Z -> list Z -> bool) (base width n : Z) : Prop :=
  forall m i j, 0 <= i < n -> 0 <= j < n ->
    (0 <=? cmp m (addr base width i) (addr base width j)) = le (elem m base width j) (elem m base width i) /\
    (cmp m (addr base width i) (addr base width j) <=? 0) = le (elem m base width i) (elem m base width j).

Section refinement.
Context (bsf0 : Z) (cmp : mem -> Z -> Z -> Z) (le : list Z -> list Z -> bool) `{!TotalPreorder le}.
Context (base width n : Z) (lp : list Z).
Hypothesis Hcmp : comparator cmp le base width n.
Hypothesis Hwidth : 0 < width.
Hypothesis Hbase : 0 <= base.
Hypothesis Hend : base + n * width < 2 ^ 64.
Hypothesis Hn : forall k, leo k <= n -> (k < 64)%nat.
Hypothesis Hlp : forall k, leo k <= n -> lp !! k = Some (width * leo k).

#[local] Abbreviation at_ := (addr base width).

Definition agree (m : mem) (A : Z -> list Z) : Prop := forall i, 0 <= i < n -> elem m base width i = A i.
Definition same_outside (m m' : mem) : Prop :=
  forall x, x < base \/ base + n * width <= x -> byte m' x = byte m x.

#[local] Instance same_outside_trans : Transitive same_outside.
Proof. intros m1 m2 m3 H1 H2 x Hx. by rewrite H2, H1. Qed.

Lemma order_small k h : leo k <= h + 1 -> h < n -> (k < 64)%nat.
Proof. intros Hk Hh. apply Hn. lia. Qed.
Lemma lp_at_order k : leo k <= n -> lp_at lp (Z.of_nat k) = Ret (width * leo k).
Proof. intros Hk. unfold lp_at. rewrite (proj2 (Z.ltb_ge _ _)), Nat2Z.id, Hlp by (done || lia). done. Qed.

Lemma at_sub h x : 0 <= x -> 0 <= h - x -> h < n -> at_ h -w width * x = at_ (h - x).
Proof.
  intros Hx Hh Hhn. unfold addr. assert (base + h * width - width * x = base + (h - x) * width) as Heq by lia.
  unfold sub64. rewrite Heq. apply wrap64_small. unfold u64. nia.
Qed.
Lemma at_rt h : 1 <= h < n -> at_ h -w width = at_ (h - 1).
Proof. intros Hh. rewrite <- (at_sub h 1) by lia. by rewrite Z.mul_1_r. Qed.
Lemma at_lf h k : leo k + 1 <= h < n -> at_ h -w width -w width * leo k = at_ (h - 1 - leo k).
Proof. intros Hh. pose proof (leo_pos k). rewrite at_rt by lia. apply at_sub; lia. Qed.

Lemma at_apart ps : NoDup ps -> Forall (fun p => 0 <= p < n) ps -> apart width (at_ <$> ps).
Proof.
  intros Hnd Hr. split.
  - intros i j a b. rewrite !list_lookup_fmap. intros (p & Hp & ->)%fmap_Some (q & Hq & ->)%fmap_Some Hij.
    assert (p <> q) by (intros <-; apply Hij; by eapply NoDup_lookup). unfold addr.
    destruct (Z.lt_trichotomy p q) as [?|[?|?]]; [left|done|right]; nia.
  - apply Forall_fmap. eapply Forall_impl; [exact Hr|]. cbn. unfold addr. intros p Hp. nia.
Qed.

Lemma cycle_spec m A h ps :
  agree m A -> NoDup (h :: ps) -> Forall (fun p => 0 <= p < n) (h :: ps) -> (length (h :: ps) < AR_SIZE)%nat ->
  exists m', cycle m width (at_ <$> h :: ps) = Ret m' /\ agree m' (swaps A h ps) /\ same_outside m m'.
Proof.
  intros Hag Hnd Hr Hlen. unfold cycle. rewrite length_fmap.
  destruct (Nat.ltb_spec (length (h :: ps)) 2) as [Hs|Hs].
  { destruct ps; [|cbn in Hs; lia]. exists m. done. }
  rewrite (proj2 (Nat.leb_gt _ _)) by done.
  pose proof (at_apart _ Hnd Hr) as Hap.
  destruct (cycle_loop_spec (Z.to_nat width) m width (at_ <$> h :: ps)) as (m' & -> & Hin & Hout); [lia|done|done|].
  exists m'. split; [done|]. split.
  - intros i Hi. destruct (decide (i ∈ h :: ps)) as [Hel|Hel].
    + pose proof Hel as [k Hk]%list_elem_of_lookup. rewrite (swaps_on ps A h k i Hnd Hk).
      assert (Hb : forall q, next_block (at_ <$> h :: ps) k = at_ q -> elem m' base width i = elem m base width q).
      { intros q Hq. apply read_bytes_ext. intros j Hj. rewrite <- Hq. apply Hin; [by rewrite list_lookup_fmap, Hk|lia]. }
      destruct (ps !! k) as [q|] eqn:Hq.
      * rewrite (Hb q); [apply Hag|].
        -- apply Forall_cons in Hr as [_ Hr]. rewrite Forall_lookup in Hr. by eapply Hr.
        -- unfold next_block. rewrite list_lookup_fmap. change ((h :: ps) !! S k) with (ps !! k). by rewrite Hq.
      * rewrite (Hb h); [apply Hag|].
        -- by apply Forall_cons in Hr as [? _].
        -- unfold next_block. rewrite list_lookup_fmap. change ((h :: ps) !! S k) with (ps !! k). by rewrite Hq.
    + rewrite swaps_other, <- Hag by done. apply read_bytes_ext. intros j Hj. apply Hout.
      intros a (p & -> & Hp)%list_elem_of_fmap. assert (p <> i) by (by intros ->). unfold addr.
      destruct (Z.lt_trichotomy p i) as [?|[?|?]]; [right|done|left]; nia.
  - intros x Hx. apply Hout. intros a (p & -> & Hp)%list_elem_of_fmap. rewrite Forall_forall in Hr.
    specialize (Hr p Hp). cbn in Hr. unfold addr. nia.
Qed.

Lemma ar_push_spec ar a : (length ar < AR_SIZE)%nat -> ar_push ar a = Ret (ar ++ [a]).
Proof. intros H. unfold ar_push. by rewrite (proj2 (Nat.leb_gt _ _)). Qed.

(** A comparison is one of the values in the array. *)
Lemma cmp_ge m A i j : agree m A -> 0 <= i < n -> 0 <= j < n -> (0 <=? cmp m (at_ i) (at_ j)) = le (A j) (A i).
Proof. intros Hag Hi Hj. destruct (Hcmp m i j Hi Hj) as [-> _]. by rewrite !Hag. Qed.
Lemma cmp_le m A i j : agree m A -> 0 <= i < n -> 0 <= j < n -> (cmp m (at_ i) (at_ j) <=? 0) = le (A i) (A j).
Proof. intros Hag Hi Hj. destruct (Hcmp m i j Hi Hj) as [_ ->]. by rewrite !Hag. Qed.

Lemma sift_loop_spec m A i0 k : agree m A -> 0 <= i0 < n -> forall fuel h ar,
  (k <= fuel)%nat -> leo k <= h + 1 -> h < n -> (length ar + k <= AR_SIZE)%nat ->
  sift_loop cmp fuel m width (at_ i0) (at_ h) (Z.of_nat k) lp ar = Ret (ar ++ (at_ <$> sift_path le A (A i0) h k)).
Proof.
  intros Hag Hi0. induction k as [| |k IH0 IH1] using order_ind; intros fuel h ar Hf Hk Hh Hlen.
  1-2: cbn [sift_path fmap list_fmap]; rewrite app_nil_r; destruct fuel; cbn [sift_loop]; by rewrite (proj2 (Z.leb_le _ _)) by lia.
  destruct fuel as [|fuel]; [lia|]. cbn [sift_loop]. rewrite (proj2 (Z.leb_gt _ _)) by lia.
  replace (Z.of_nat (S (S k)) - 2) with (Z.of_nat k) by lia.
  rewrite leo_SS in Hk. pose proof (leo_pos k). rewrite lp_at_order by lia. cbn [mbind outcome_bind].
  rewrite at_lf, at_rt, !(cmp_ge m A) by first [exact Hag|lia]. rewrite sift_path_SS.
  destruct (_ && _); [by rewrite app_nil_r|].
  destruct (le (A (h - 1)) (A (h - 1 - leo k))); rewrite ar_push_spec by lia; cbn [mbind outcome_bind].
  - replace (Z.of_nat (S (S k)) - 1) with (Z.of_nat (S k)) by lia.
    rewrite IH1 by (rewrite ?length_app; cbn [length]; lia). by rewrite <- app_assoc.
  - rewrite IH0 by (rewrite ?length_app; cbn [length]; lia). by rewrite <- app_assoc.
Qed.

Lemma sift_spec m A h k : agree m A -> leo k <= h + 1 -> h < n ->
  exists m', sift cmp m (at_ h) width (Z.of_nat k) lp = Ret m' /\ agree m' (asift le A h k) /\ same_outside m m'.
Proof.
  intros Hag Hk Hh. pose proof (leo_pos k). pose proof (order_small k h Hk Hh). unfold sift.
  rewrite (sift_loop_spec m A h k Hag) by (cbn [length]; unfold AR_SIZE; lia). cbn [mbind outcome_bind].
  change ([at_ h] ++ (at_ <$> sift_path le A (A h) h k)) with (at_ <$> h :: sift_path le A (A h) h k).
  rewrite (asift_path le A k A h (A h)) by done. apply cycle_spec; [done|apply sift_path_NoDup| |].
  - apply Forall_cons. split; [lia|]. apply Forall_forall. intros p Hp. apply sift_path_below in Hp as [Hp Hlt].
    unfold in_tree in Hp. lia.
  - pose proof (sift_path_length le A (A h) k h). cbn [length]. unfold AR_SIZE. lia.
Qed.

(** ** The row of trees *)
Definition increasing (os : list nat) : Prop := StronglySorted Nat.lt os.

Lemma increasing_above k os o : increasing (k :: os) -> o ∈ os -> (k < o)%nat.
Proof. intros [_ Hf]%StronglySorted_inv Ho. rewrite Forall_forall in Hf. by apply Hf. Qed.
Lemma gap2_increasing os : gap2 os -> increasing os.
Proof.
  induction os as [|k os IH]; intros Hg; constructor.
  - apply IH. by eapply gap2_tail.
  - apply Forall_forall. intros o Ho. pose proof (gap2_above _ _ _ Hg Ho). lia.
Qed.
Lemma layout_increasing os : layout os -> increasing os.
Proof.
  destruct os as [|k os]; [done|]. intros Hl. constructor.
  - apply gap2_increasing. by eapply layout_gap2.
  - apply Forall_forall. intros o Ho. by eapply layout_above.
Qed.

Lemma orders_few os h : increasing os -> leos os <= h + 1 -> h < n -> (length os <= 64)%nat.
Proof.
  intros Hi Hs Hh. assert (Hnd : NoDup os).
  { clear Hs. induction Hi as [|k os Hi IH Hf]; constructor; [|done]. intros Hin. rewrite Forall_forall in Hf.
    specialize (Hf _ Hin). lia. }
  enough (length os <= length (seq 0 64))%nat by (rewrite length_seq in *; done).
  apply submseteq_length, NoDup_submseteq; [done|].
  intros o Ho. apply elem_of_seq. pose proof (leo_le_leos _ _ Ho). pose proof (order_small o h ltac:(lia) Hh). lia.
Qed.

Lemma child_reaches_spec m A h k t s : agree m A -> leo k <= h + 1 -> h < n -> 0 <= s < n ->
  child_reaches cmp m width (at_ h) (at_ s) (Z.of_nat k) t lp = Ret (negb t && child_above le A h k (A s)).
Proof.
  intros Hag Hk Hh Hs. unfold child_reaches. destruct (negb t); cbn [andb]; [|done].
  destruct k as [|[|k]]; [done..|]. rewrite (proj2 (Z.ltb_lt _ _)) by lia.
  replace (Z.of_nat (S (S k)) - 2) with (Z.of_nat k) by lia.
  rewrite leo_SS in Hk. pose proof (leo_pos k). rewrite lp_at_order by lia. cbn [mbind outcome_bind].
  rewrite at_lf, at_rt, !(cmp_ge m A) by first [exact Hag|lia]. unfold child_above, children. cbn [existsb].
  by rewrite orb_false_r.
Qed.

Lemma trinkle_loop_spec m A i0 os : agree m A -> 0 <= i0 < n -> forall fuel h p k t ar ps e ke t',
  encodes p k (k :: os) -> increasing (k :: os) -> leos (k :: os) = h + 1 -> h < n -> (length os <= fuel)%nat ->
  (length ar + length os <= AR_SIZE)%nat -> trinkle_path le A (A i0) h k os t = (ps, e, ke, t') ->
  trinkle_loop bsf0 cmp fuel m width (at_ i0) (at_ h) p (Z.of_nat k) t lp ar
    = Ret (ar ++ (at_ <$> ps), at_ e, Z.of_nat ke, t').
Proof.
  intros Hag Hi0. induction os as [|k' os IH]; intros fuel h p k t ar ps e ke t' Henc Hinc Hs Hh Hf Hlen Hpath.
  { injection Hpath as <- <- <- <-. destruct fuel; cbn [trinkle_loop];
      (rewrite (encodes_one p k []) by (done || by intros ? ?%elem_of_nil)); cbn; by rewrite app_nil_r. }
  destruct fuel as [|fuel]; [cbn in Hf; lia|]. cbn [trinkle_loop].
  rewrite (encodes_one p k (k' :: os)) by (done || intros o; by apply increasing_above).
  rewrite bool_decide_eq_false_2 by done.
  cbn [leos] in Hs. pose proof (leo_pos k). pose proof (leo_pos k'). pose proof (leos_nonneg os).
  rewrite lp_at_order by lia. cbn [mbind outcome_bind]. rewrite at_sub by lia.
  rewrite (cmp_le m A) by first [exact Hag|lia]. cbn [trinkle_path] in Hpath.
  destruct (le (A (h - leo k)) (A i0)).
  { injection Hpath as <- <- <- <-. by rewrite app_nil_r. }
  rewrite (child_reaches_spec m A) by first [exact Hag|lia]. cbn [mbind outcome_bind].
  destruct (negb t && _).
  { injection Hpath as <- <- <- <-. by rewrite app_nil_r. }
  cbn [length] in *. rewrite ar_push_spec by lia. cbn [mbind outcome_bind].
  assert (Hkk : (k < k')%nat) by (apply (increasing_above k (k' :: os)); [done|by apply elem_of_cons; left]).
  pose proof (proj1 (StronglySorted_inv Hinc)) as Hinc'.
  rewrite (encodes_pntz bsf0 p k k' os) by (done || intros o; by apply increasing_above).
  pose proof (order_small k' h ltac:(lia) Hh).
  destruct (encodes_shr p k (k :: k' :: os) (k' - k) Henc) as (p' & -> & Henc'); [lia|]. cbn [mbind outcome_bind].
  replace (Z.of_nat k + Z.of_nat (k' - k)) with (Z.of_nat k') by lia.
  replace (k + (k' - k))%nat with k' in Henc' by lia.
  destruct (trinkle_path le A (A i0) (h - leo k) k' os false) as [[[ps' e'] ke'] t''] eqn:Hrec.
  injection Hpath as <- <- <- <-.
  rewrite (IH fuel (h - leo k) p' k' false (ar ++ [at_ (h - leo k)]) ps' e' ke' t''); try done; try (cbn [leos]; lia).
  - by rewrite <- app_assoc.
  - eapply encodes_ext; [|exact Henc']. intros o Ho. rewrite !elem_of_cons. split; [|auto]. intros [?|?]; [lia|done].
  - rewrite length_app. cbn [length]. lia.
Qed.

Lemma trinkle_spec m A h p k os t :
  agree m A -> encodes p k (k :: os) -> increasing (k :: os) -> leos (k :: os) = h + 1 -> h < n ->
  exists m', trinkle bsf0 cmp m (at_ h) width p (Z.of_nat k) t lp = Ret m' /\
    agree m' (atrinkle le A h k os t) /\ same_outside m m'.
Proof.
  intros Hag Henc Hinc Hs Hh. unfold trinkle.
  destruct (trinkle_path le A (A h) h k os t) as [[[ps e] ke] t'] eqn:Hpath.
  pose proof (orders_few (k :: os) h Hinc ltac:(lia) Hh) as Hfew. cbn [length] in Hfew.
  assert (0 <= h) by (cbn [leos] in Hs; pose proof (leo_pos k); pose proof (leos_nonneg os); lia).
  rewrite (trinkle_loop_spec m A h os Hag ltac:(lia) trinkle_fuel h p k t [at_ h] ps e ke t'); try done;
    try (unfold trinkle_fuel, AR_SIZE; cbn [length]; lia).
  cbn [mbind outcome_bind]. destruct (trinkle_path_spec le A (A h) os h k t ps e ke t' Hpath Hs)
    as (Hnd & Hr & Hlen & Hlast & He & Ht).
  rewrite (atrinkle_path le A os A h k (A h) t) by done. rewrite Hpath.
  assert (Hr' : Forall (fun p => 0 <= p < n) (h :: ps)).
  { apply Forall_cons. split; [lia|]. eapply Forall_impl; [exact Hr|]. cbn. lia. }
  destruct t'; cbn [negb].
  { destruct Ht as [[-> _]|?]; [|done]. exists m. done. }
  change ([at_ h] ++ (at_ <$> ps)) with (at_ <$> h :: ps).
  destruct (cycle_spec m A h ps Hag Hnd Hr') as (m1 & -> & Hag1 & Hout1); [cbn [length]; unfold AR_SIZE; lia|].
  cbn [mbind outcome_bind settle].
  assert (0 <= e < n).
  { rewrite Forall_forall in Hr'. apply Hr'. apply last_Some in Hlast as [l' ->]. apply elem_of_app. right.
    by apply list_elem_of_singleton. }
  destruct (sift_spec m1 (swaps A h ps) e ke Hag1 He ltac:(lia)) as (m2 & -> & Hag2 & Hout2).
  exists m2. split; [done|]. split; [done|]. by transitivity m1.
Qed.

(** ** The first loop *)

(** What the steps keep: the memory holds [A], a permutation of [A0]; nothing
    outside the array has changed since [m0]. *)
Definition holds (m0 : mem) (A0 : Z -> list Z) (m : mem) (A : Z -> list Z) : Prop :=
  agree m A /\ same_outside m0 m /\ elems A n ≡ₚ elems A0 n.

Lemma holds_step m0 A0 m A m' A' : holds m0 A0 m A ->
  agree m' A' -> same_outside m m' -> elems A' n ≡ₚ elems A n -> holds m0 A0 m' A'.
Proof. intros (_ & Hout & Hp) Hag Hout' Hp'. split; [done|]. split; [by transitivity m|]. by rewrite Hp'. Qed.

Lemma layout_small k os h o : leos (k :: os) = h + 1 -> h < n -> o ∈ k :: os -> (o < 64)%nat.
Proof. intros Hs Hh Ho. pose proof (leo_le_leos _ _ Ho). apply (order_small o h); lia. Qed.

Lemma build_sift m0 A0 m A h k os r :
  holds m0 A0 m A -> growing le A h k os r -> h < n ->
  exists m', sift cmp m (at_ h) width (Z.of_nat k) lp = Ret m' /\ holds m0 A0 m' (asift le A h k).
Proof.
  intros Hho Hg Hh. pose proof (g_size _ _ _ _ _ _ Hg) as Hs. cbn [leos] in Hs. pose proof (leos_nonneg os).
  pose proof Hho as (Hag & _). destruct (sift_spec m A h k Hag ltac:(lia) Hh) as (m' & Hm & Hag' & Hout).
  exists m'. split; [done|]. eapply holds_step; [done..|]. apply asift_perm; lia.
Qed.
Lemma row_trinkle m0 A0 m A h p k os t :
  holds m0 A0 m A -> layout (k :: os) \/ gap2 (k :: os) -> leos (k :: os) = h + 1 -> h < n -> encodes p k (k :: os) ->
  exists m', trinkle bsf0 cmp m (at_ h) width p (Z.of_nat k) t lp = Ret m' /\ holds m0 A0 m' (atrinkle le A h k os t).
Proof.
  intros Hho Hl Hs Hh Henc. pose proof Hho as (Hag & _).
  destruct (trinkle_spec m A h p k os t Hag Henc) as (m' & Hm & Hag' & Hout); [|done..|].
  { destruct Hl; [by apply layout_increasing|by apply gap2_increasing]. }
  exists m'. split; [done|]. eapply holds_step; [done..|]. by apply atrinkle_perm.
Qed.

Lemma encodes_merge p k os : layout (k :: S k :: os) -> encodes p k (k :: S k :: os) ->
  exists p', shr p 2 = Ret p' /\ encodes (Z.lor p'.1 1, p'.2) (S (S k)) (S (S k) :: os).
Proof.
  intros Hl Henc. destruct (encodes_shr p k _ 2 Henc) as (p' & Hp & Henc'); [lia|]. exists p'. split; [exact Hp|].
  replace (k + 2)%nat with (S (S k)) in Henc' by lia. apply encodes_or1. eapply encodes_ext; [|exact Henc'].
  intros o Ho. rewrite !elem_of_cons. split; [|auto]. intros [?|[?|?]]; [lia|lia|done].
Qed.
(** [k1] is 0 when the last tree has order 1, and 1 otherwise. *)
Lemma encodes_next p k k1 os :
  (forall o, o ∈ k :: os -> (k <= o < 64)%nat) -> (k1 < k)%nat -> encodes p k (k :: os) ->
  exists p', shl p (Z.of_nat (k - k1)) = Ret p' /\ encodes (Z.lor p'.1 1, p'.2) k1 (k1 :: k :: os).
Proof.
  intros Ho Hk Henc. replace k with (k1 + (k - k1))%nat in Henc at 1 by lia.
  pose proof (Ho k ltac:(by apply elem_of_cons; left)).
  destruct (encodes_shl p k1 (k :: os) (k - k1) Henc) as (p' & Hp & Henc'); [lia| |].
  { intros o Hin%Ho. lia. }
  exists p'. split; [done|]. by apply encodes_or1.
Qed.

(** The last tree stays a tree of its own: its root is moved along the row if
    nothing can be joined to it any more. *)
Lemma build_settle m0 A0 m A h p k os :
  holds m0 A0 m A -> growing le A h k os (n - 1 - h) -> 0 <= h < n - 1 -> encodes p k (k :: os) ->
  (1 <= k)%nat -> gap2 (k :: os) ->
  exists m' A', (if (at_ (n - 1) -w at_ h) <=? width * leo (k - 1)
    then trinkle bsf0 cmp m (at_ h) width p (Z.of_nat k) false lp
    else sift cmp m (at_ h) width (Z.of_nat k) lp) = Ret m' /\ holds m0 A0 m' A' /\
    heaps le A' h (k :: os) /\ waiting le A' h (k :: os) (n - 1 - h).
Proof.
  intros Hho Hg Hh Henc Hk Hg2. pose proof (g_layout _ _ _ _ _ _ Hg) as Hl. pose proof (g_size _ _ _ _ _ _ Hg) as Hs.
  assert (at_ (n - 1) -w at_ h = width * (n - 1 - h)) as ->.
  { unfold addr, sub64. replace (base + (n - 1) * width - (base + h * width)) with (width * (n - 1 - h)) by lia.
    apply wrap64_small. unfold u64. nia. }
  destruct (Z.leb_spec (width * (n - 1 - h)) (width * leo (k - 1))) as [Hle|Hgt].
  - destruct (row_trinkle m0 A0 m A h p k os false Hho) as (m' & Hm & Hho'); [by left|done|lia|done|].
    destruct (growing_trinkle le A h k os _ Hg) as [Hhe Hso]; [right; split; [done|]; split; [done|nia]|].
    exists m', (atrinkle le A h k os false). split; [done|]. split; [done|]. split; [done|]. by apply sorted_waiting.
  - destruct (build_sift m0 A0 m A h k os _ Hho Hg ltac:(lia)) as (ms & Hsift & Hhos).
    destruct (growing_sift le A h k os _ Hg) as [Hhe Hwa]; [nia|]. by exists ms, (asift le A h k).
Qed.

Lemma build_step_spec m0 A0 m A h p k os :
  holds m0 A0 m A -> growing le A h k os (n - 1 - h) -> 0 <= h < n - 1 -> encodes p k (k :: os) ->
  exists m' A' p' k' os', build_step bsf0 cmp m width (at_ h) (at_ (n - 1)) p (Z.of_nat k) lp = Ret (m', p', Z.of_nat k') /\
    holds m0 A0 m' A' /\ growing le A' (h + 1) k' os' (n - 1 - (h + 1)) /\ encodes p' k' (k' :: os').
Proof.
  intros Hho Hg Hh Henc. pose proof (g_layout _ _ _ _ _ _ Hg) as Hl. pose proof (g_size _ _ _ _ _ _ Hg) as Hs.
  unfold build_step. rewrite (encodes_three p k os Henc).
  replace (n - 1 - (h + 1)) with (n - 1 - h - 1) by lia.
  destruct (build_sift m0 A0 m A h k os _ Hho Hg ltac:(lia)) as (ms & Hsift & Hhos).
  case_bool_decide as Hthree.
  - assert (exists os', os = S k :: os') as [os' ->].
    { destruct os as [|k' os']; [by apply elem_of_nil in Hthree|]. exists os'.
      pose proof (layout_increasing _ Hl) as Hinc. f_equal.
      pose proof (increasing_above k (k' :: os') k' Hinc ltac:(by apply elem_of_cons; left)).
      apply elem_of_cons in Hthree as [?|Hin]; [done|].
      pose proof (increasing_above k' os' (S k) (proj1 (StronglySorted_inv Hinc)) Hin). lia. }
    rewrite Hsift. cbn [mbind outcome_bind].
    destruct (encodes_merge p k os' Hl Henc) as (p' & -> & Henc'). cbn [mbind outcome_bind].
    exists ms, (asift le A h k), (Z.lor p'.1 1, p'.2), (S (S k)), os'.
    split; [by replace (Z.of_nat k + 2) with (Z.of_nat (S (S k))) by lia|]. split; [done|].
    split; [by apply growing_merge|done].
  - destruct (layout_grow k os Hl) as [Hk Hl'].
    { intros Hhd. apply Hthree. destruct os; [done|]. injection Hhd as ->. by apply elem_of_cons; left. }
    assert (Hg2 : gap2 (k :: os)) by (by eapply layout_gap2).
    pose proof (leo_mono (k - 1) k ltac:(lia)). pose proof (leo_pos (k - 1)).
    pose proof (leos_nonneg os). cbn [leos] in Hs.
    replace (Z.of_nat k - 1) with (Z.of_nat (k - 1)) by lia. rewrite lp_at_order by lia. cbn [mbind outcome_bind].
    destruct (build_settle m0 A0 m A h p k os Hho Hg Hh Henc Hk Hg2) as (m' & A' & -> & Hho' & Hheaps & Hw).
    set (k1 := match k with 1%nat => 0%nat | _ => 1%nat end) in *.
    cbn [mbind outcome_bind].
    destruct (encodes_next p k k1 os) as (p' & Hshl & Henc'); [|unfold k1; destruct k as [|[|]]; lia|done|].
    { intros o Ho. pose proof (layout_small k os h o Hs ltac:(lia) Ho). split; [|done].
      apply elem_of_cons in Ho as [->|Ho]; [done|]. pose proof (layout_above _ _ _ Hl Ho). lia. }
    assert ((if Z.of_nat k =? 1 then p ← shl p 1; Ret (m', p, 0) else p ← shl p (Z.of_nat (k - 1)); Ret (m', p, 1))
      = Ret (m', p', Z.of_nat k1)) as ->.
    { unfold k1 in *. destruct k as [|[|k0]]; [lia| |].
      - change (Z.of_nat 1 =? 1) with true. cbv iota. change (Z.of_nat (1 - 0)) with 1 in Hshl. by rewrite Hshl.
      - rewrite (proj2 (Z.eqb_neq _ _)) by lia. by rewrite Hshl. }
    cbn [mbind outcome_bind]. exists m', A', (Z.lor p'.1 1, p'.2), k1, (k :: os).
    split; [done|]. split; [done|]. split; [|done].
    apply growing_next; try done; unfold k1; destruct k as [|[|]]; (done || lia).
Qed.

Lemma build_spec m0 A0 fuel : forall m A h p k os,
  holds m0 A0 m A -> growing le A h k os (n - 1 - h) -> 0 <= h < n -> encodes p k (k :: os) ->
  n - 1 - h <= Z.of_nat fuel ->
  exists m' A' p' k' os', build bsf0 cmp fuel m width (at_ h) (at_ (n - 1)) p (Z.of_nat k) lp
      = Ret (m', at_ (n - 1), p', Z.of_nat k') /\
    holds m0 A0 m' A' /\ growing le A' (n - 1) k' os' 0 /\ encodes p' k' (k' :: os').
Proof.
  induction fuel as [|fuel IH]; intros m A h p k os Hho Hg Hh Henc Hf; cbn [build].
  - assert (h = n - 1) as -> by lia. rewrite Z.ltb_irrefl. exists m, A, p, k, os. rewrite Z.sub_diag in Hg. done.
  - destruct (decide (h = n - 1)) as [->|Hne].
    { rewrite Z.ltb_irrefl. exists m, A, p, k, os. rewrite Z.sub_diag in Hg. done. }
    rewrite (proj2 (Z.ltb_lt _ _)) by (unfold addr; nia).
    destruct (build_step_spec m0 A0 m A h p k os Hho Hg ltac:(lia) Henc) as (m' & A' & p' & k' & os' & -> & Hho' & Hg' & Henc').
    cbn [mbind outcome_bind].
    assert (at_ h +w width = at_ (h + 1)) as ->.
    { unfold addr, add64. replace (base + h * width + width) with (base + (h + 1) * width) by lia.
      apply wrap64_small. unfold u64. nia. }
    apply (IH m' A' (h + 1) p' k' os'); try done; lia.
Qed.

(** ** The second loop *)
Lemma encodes_drop p k k' os : (k' < 64)%nat -> layout (k :: k' :: os) -> encodes p k (k :: k' :: os) ->
  exists p', pntz bsf0 p = Z.of_nat (k' - k) /\ shr p (Z.of_nat (k' - k)) = Ret p' /\ encodes p' k' (k' :: os).
Proof.
  intros Hk' Hl Henc. pose proof (layout_increasing _ Hl) as Hinc.
  pose proof (increasing_above _ _ k' Hinc ltac:(by apply elem_of_cons; left)).
  destruct (encodes_shr p k _ (k' - k) Henc) as (p' & Hp & Henc'); [lia|]. exists p'. split; [|split; [done|]].
  - apply (encodes_pntz bsf0 p k k' os); [done| |done]. intros o. apply increasing_above.
    by apply StronglySorted_inv in Hinc as [? _].
  - replace (k + (k' - k))%nat with k' in Henc' by lia. eapply encodes_ext; [|exact Henc'].
    intros o Ho. rewrite !elem_of_cons. split; [|auto]. intros [?|?]; [lia|done].
Qed.

(** The shifts around the first move, and the one before the second. *)
Lemma encodes_take_apart p j os : layout (S (S j) :: os) -> (forall o, o ∈ S (S j) :: os -> (o < 64)%nat) ->
  encodes p (S (S j)) (S (S j) :: os) ->
  exists p1 p2 p3, shl p 2 = Ret p1 /\ shr (Z.lxor p1.1 7, p1.2) 1 = Ret p2 /\ encodes p2 (S j) (S j :: os) /\
    shl p2 1 = Ret p3 /\ encodes (Z.lor p3.1 1, p3.2) j (j :: S j :: os).
Proof.
  intros Hl Hsm Henc. assert (Habove : forall o, o ∈ os -> (j + 2 < o)%nat).
  { intros o Ho. pose proof (layout_above _ _ _ Hl Ho). lia. }
  replace (S (S j)) with (j + 2)%nat in Henc at 1 by lia.
  destruct (encodes_shl p j _ 2 Henc) as (p1 & Hp1 & Henc1); [lia| |].
  { intros o Ho. specialize (Hsm o Ho). apply elem_of_cons in Ho as [->|Ho%Habove]; lia. }
  apply (encodes_split p1 j os Habove) in Henc1.
  destruct (encodes_shr _ j _ 1 Henc1) as (p2 & Hp2 & Henc2); [lia|].
  assert (Henc2' : encodes p2 (j + 1) (S j :: os)).
  { eapply encodes_ext; [|exact Henc2]. intros o Ho.
    rewrite !elem_of_cons. split; [|auto]. intros [?|?]; [lia|done]. }
  destruct (encodes_shl p2 j _ 1 Henc2') as (p3 & Hp3 & Henc3); [lia| |].
  { intros o [->|Ho]%elem_of_cons; [specialize (Hsm (S (S j)) ltac:(by apply elem_of_cons; left)); lia|].
    pose proof (Habove o Ho). specialize (Hsm o ltac:(by apply elem_of_cons; right)). lia. }
  exists p1, p2, p3. split; [exact Hp1|]. split; [exact Hp2|]. split; [by replace (S j) with (j + 1)%nat at 1 by lia|].
  split; [exact Hp3|]. by apply encodes_or1.
Qed.

Lemma unbuild_step_spec m0 A0 m A h p k os :
  holds m0 A0 m A -> shrinking le A n h k os -> 0 <= h < n -> encodes p k (k :: os) -> ~ (k = 1%nat /\ os = []) ->
  exists m' A' p' k' os', unbuild_step bsf0 cmp m width (at_ h) p (Z.of_nat k) lp = Ret (m', p', Z.of_nat k') /\
    holds m0 A0 m' A' /\ shrinking le A' n (h - 1) k' os' /\ encodes p' k' (k' :: os').
Proof.
  intros Hho Hsh Hh Henc Hne. pose proof (s_layout _ _ _ _ _ _ Hsh) as Hl. pose proof (s_size _ _ _ _ _ _ Hsh) as Hs.
  unfold unbuild_step. destruct (Z.leb_spec (Z.of_nat k) 1) as [Hk1|Hk1].
  { destruct os as [|k' os]; [exfalso; apply Hne; cbn in Hl; split; [lia|done]|].
    destruct (encodes_drop p k k' os) as (p' & Hpz & Hp & Henc'); [|done..|].
    { apply (layout_small k (k' :: os) h); [done|lia|]. rewrite !elem_of_cons. auto. }
    rewrite Hpz, Hp. cbn [mbind outcome_bind]. exists m, A, p', k', os.
    pose proof (layout_above k (k' :: os) k' Hl ltac:(by apply elem_of_cons; left)).
    replace (Z.of_nat k + Z.of_nat (k' - k)) with (Z.of_nat k') by lia.
    split; [done|]. split; [done|]. split; [|done]. apply (shrinking_drop le A n h k k' os); [lia|done]. }
  assert (exists j, k = S (S j)) as [j ->] by (destruct k as [|[|j]]; [lia|lia|by exists j]).
  destruct (encodes_take_apart p j os Hl) as (p1 & p2 & p3 & Hp1 & Hp2 & Henc2 & Hp3 & Henc3); [|done|].
  { intros o. apply (layout_small _ _ h); [done|lia]. }
  rewrite Hp1. cbn [mbind outcome_bind]. rewrite Hp2. cbn [mbind outcome_bind].
  replace (Z.of_nat (S (S j)) - 2) with (Z.of_nat j) by lia.
  cbn [leos] in Hs. rewrite leo_SS in Hs. pose proof (leo_pos j). pose proof (leos_nonneg os).
  rewrite lp_at_order by lia. cbn [mbind outcome_bind].
  rewrite at_sub, !at_rt by lia. replace (h - leo j - 1) with (h - 1 - leo j) by lia.
  replace (Z.of_nat j + 1) with (Z.of_nat (S j)) by lia.
  assert (Hl2 : layout (j :: S j :: os)) by by apply layout_split.
  destruct (row_trinkle m0 A0 m A (h - 1 - leo j) p2 (S j) os true Hho) as (m1 & -> & Hho1);
    [right; by eapply layout_gap2|cbn [leos]; lia|lia|done|]. cbn [mbind outcome_bind].
  rewrite Hp3. cbn [mbind outcome_bind].
  destruct (row_trinkle m0 A0 m1 _ (h - 1) (Z.lor p3.1 1, p3.2) j (S j :: os) true Hho1) as (m2 & -> & Hho2);
    [by left|cbn [leos]; lia|lia|done|]. cbn [mbind outcome_bind].
  exists m2, (split_row le A h j os), (Z.lor p3.1 1, p3.2), j, (S j :: os). split; [done|]. split; [done|].
  split; [by apply shrinking_split|done].
Qed.

Lemma unbuild_spec m0 A0 fuel : forall m A h p k os,
  holds m0 A0 m A -> shrinking le A n h k os -> 0 <= h < n -> encodes p k (k :: os) -> h <= Z.of_nat fuel ->
  exists m' A', unbuild bsf0 cmp fuel m width (at_ h) p (Z.of_nat k) lp = Ret m' /\ holds m0 A0 m' A' /\
    forall x y, 0 <= x < y -> y < n -> le (A' x) (A' y) = true.
Proof.
  induction fuel as [|fuel IH]; intros m A h p k os Hho Hsh Hh Henc Hf; cbn [unbuild];
    pose proof (s_layout _ _ _ _ _ _ Hsh) as Hl; pose proof (s_size _ _ _ _ _ _ Hsh) as Hs; cbn [leos] in Hs;
    rewrite <- andb_assoc, (encodes_one p k os) by (done || intros o; by apply layout_above).
  all: destruct (decide (k = 1%nat /\ os = [])) as [[-> ->]|Hne];
    [rewrite bool_decide_eq_true_2 by done; cbn [Z.of_nat Z.eqb andb]; exists m, A; split; [done|]; split; [done|];
      cbn [leos] in Hs; change (leo 1) with 1 in Hs; replace h with 0 in Hsh by lia; by apply (shrinking_end le)|].
  - exfalso. pose proof (leo_pos k). pose proof (leos_nonneg os). assert (leo k = 1) by lia.
    destruct k as [|[|k]]; [|apply Hne|rewrite leo_SS in *; pose proof (leo_pos k); lia].
    + destruct os as [|k' os]; [cbn in Hl; lia|]. cbn [leos] in *. pose proof (leo_pos k'). pose proof (leos_nonneg os). lia.
    + split; [done|]. destruct os as [|k' os]; [done|]. cbn [leos] in *. pose proof (leo_pos k'). pose proof (leos_nonneg os). lia.
  - assert ((Z.of_nat k =? 1) && bool_decide (os = []) = false) as ->.
    { destruct (Z.eqb_spec (Z.of_nat k) 1); cbn [andb]; [|done]. apply bool_decide_eq_false. intros ->. apply Hne. split; [lia|done]. }
    destruct (unbuild_step_spec m0 A0 m A h p k os Hho Hsh Hh Henc Hne) as (m' & A' & p' & k' & os' & -> & Hho' & Hsh' & Henc').
    cbn [mbind outcome_bind]. pose proof (s_size _ _ _ _ _ _ Hsh') as Hs'. cbn [leos] in Hs'.
    pose proof (leo_pos k'). pose proof (leos_nonneg os'). rewrite at_rt by lia.
    apply (IH m' A' (h - 1) p' k' os'); try done; lia.
Qed.
End refinement.

(** ** The numbers in [lp] *)
Lemma leonardo_loop_spec width n fuel : 0 < width -> 1 <= n -> width * n < 2 ^ 62 ->
  (forall k, leo k <= n -> (k < 64)%nat) ->
  forall j lp, (64 <= j + fuel)%nat -> length lp = S (S j) -> leo (S j) <= n ->
  (forall k, (k < S (S j))%nat -> lp !! k = Some (width * leo k)) ->
  exists lp', leonardo_loop fuel width (width * n) (width * leo j) (width * leo (S j)) lp = Ret lp' /\
    forall k, leo k <= n -> lp' !! k = Some (width * leo k).
Proof.
  intros Hw Hn1 Hsz Hn. induction fuel as [|fuel IH]; intros j lp Hf Hlen Hj Hlp.
  { specialize (Hn (S j) Hj). lia. }
  cbn [leonardo_loop]. rewrite (proj2 (Nat.leb_gt _ _)) by (specialize (Hn (S j) Hj); unfold LP_SIZE; lia).
  pose proof (leo_pos j). pose proof (leo_step j).
  assert ((width * leo j) +w (width * leo (S j)) +w width = width * leo (S (S j))) as ->.
  { rewrite leo_SS. unfold add64. rewrite (wrap64_small (width * leo j + _)) by (unfold u64; nia).
    rewrite wrap64_small by (unfold u64; nia). lia. }
  assert (Hext : forall k, (k < S (S (S j)))%nat -> (lp ++ [width * leo (S (S j))]) !! k = Some (width * leo k)).
  { intros k Hk. destruct (decide (k < S (S j))%nat).
    - rewrite lookup_app_l by lia. by apply Hlp.
    - assert (k = S (S j)) as -> by lia. apply list_lookup_middle. done. }
  destruct (Z.ltb_spec (width * leo (S (S j))) (width * n)) as [Hlt|Hge].
  - apply IH; [lia|rewrite length_app; cbn; lia|nia|done].
  - eexists. split; [reflexivity|]. intros k Hk. apply Hext.
    destruct (decide (k < S (S (S j)))%nat); [done|]. pose proof (leo_strict (S (S j)) k ltac:(lia)). nia.
Qed.

(** ** The sort *)
Definition elements (m : mem) (base width n : Z) : list (list Z) := elem m base width <$> seqZ 0 n.

(** Fewer than 2^44 elements need no more than 64 orders. *)
Lemma few_orders n k : n <= 2 ^ 44 -> leo k <= n -> (k < 64)%nat.
Proof.
  intros Hn Hk. destruct (decide (k < 64)%nat); [done|]. exfalso.
  pose proof (leo_mono 64 k ltac:(lia)) as Hm. rewrite (leo_fst 64) in Hm.
  assert (2 ^ 44 < (leo_pair 64).1) by (vm_compute; reflexivity). lia.
Qed.

(** C38. [qsort] returns, whatever the array: no access leaves the arrays
    [lp] and [ar], no copy overlaps, no shift is undefined.  The elements
    end up sorted, they are a permutation of what they were, and no byte
    outside the array has changed; for any comparison function that orders
    element contents by a total preorder, any element size, and up to 2^44
    elements. *)
Theorem qsort_sorts bsf0 cmp le `{!TotalPreorder le} m base n width :
  comparator cmp le base width n ->
  0 <= n <= 2 ^ 44 -> 0 < width -> 0 <= base -> base + width * n < 2 ^ 62 ->
  exists m', qsort bsf0 cmp m base n width = Ret m' /\
    elements m' base width n ≡ₚ elements m base width n /\
    StronglySorted (fun v w => le v w = true) (elements m' base width n) /\
    forall x, x < base \/ base + width * n <= x -> byte m' x = byte m x.
Proof.
  intros Hcmp Hn Hw Hb He. unfold qsort. rewrite wrap64_small by (unfold u64; nia).
  destruct (Z.eqb_spec (width * n) 0) as [Hz|Hnz].
  { assert (n = 0) as -> by nia. exists m. split; [done|]. split; [done|]. split; [constructor|done]. }
  assert (1 <= n) by nia. pose proof (fun k => few_orders n k ltac:(lia)) as Hfew.
  assert (base +w width * n -w width = addr base width (n - 1)) as ->.
  { unfold addr, add64, sub64. rewrite (wrap64_small (base + _)) by (unfold u64; nia).
    rewrite wrap64_small by (unfold u64; nia). lia. }
  destruct (leonardo_loop_spec width n LP_SIZE Hw ltac:(lia) ltac:(lia) Hfew 0 [width; width])
    as (lp & Hlpr & Hlp); [unfold LP_SIZE; lia|done|done| |].
  { intros [|[|k]] Hk; [..|lia]; cbn; f_equal; [change (leo 0) with 1|change (leo 1) with 1]; lia. }
  change (leo 0) with 1 in Hlpr. change (leo 1) with 1 in Hlpr. rewrite Z.mul_1_r in Hlpr. rewrite Hlpr. cbn [mbind outcome_bind].
  assert (Hend : base + n * width < 2 ^ 64) by lia.
  assert (Hho : holds base width n m (elem m base width) m (elem m base width)) by done.
  destruct (build_spec bsf0 cmp le base width n lp Hcmp Hw Hb Hend Hfew Hlp m (elem m base width) (Z.to_nat n)
    m (elem m base width) 0 (1, 0) 1 []) as (m1 & A1 & p1 & k1 & os1 & Hbuild & Hho1 & Hg1 & Henc1); [done| |lia| |lia|].
  { split; [cbn; lia|done|done|done|done]. }
  { split; [done|]. split; [unfold u64; cbn; lia|]. intros i. cbn [fst]. change 1 with (2 ^ 0) at 1.
    rewrite Z.pow2_bits_eqb by lia. destruct i as [|i]; [done|]. rewrite (proj2 (Z.eqb_neq _ _)) by lia.
    symmetry. apply bool_decide_eq_false. rewrite list_elem_of_singleton. lia. }
  assert (addr base width 0 = base) as H0 by (unfold addr; lia). rewrite H0 in Hbuild.
  change (Z.of_nat 1) with 1 in Hbuild. rewrite Hbuild. cbn [mbind outcome_bind].
  pose proof (g_layout _ _ _ _ _ _ Hg1) as Hl1. pose proof (g_size _ _ _ _ _ _ Hg1) as Hs1.
  destruct (row_trinkle bsf0 cmp le base width n lp Hcmp Hw Hb Hend Hfew Hlp m (elem m base width) m1 A1 (n - 1) p1 k1 os1 false Hho1)
    as (m2 & -> & Hho2); [by left|done|lia|done|]. cbn [mbind outcome_bind].
  destruct (growing_trinkle le A1 (n - 1) k1 os1 0 Hg1) as [Hh2 Hr2]; [by left|].
  pose proof (shrinking_start le _ _ _ _ Hl1 Hs1 Hh2 Hr2) as Hsh. replace (n - 1 + 1) with n in Hsh by lia.
  destruct (unbuild_spec bsf0 cmp le base width n lp Hcmp Hw Hb Hend Hfew Hlp m (elem m base width) (Z.to_nat n)
    m2 _ (n - 1) p1 k1 os1 Hho2 Hsh) as (m3 & A3 & -> & (Hag3 & Hout3 & Hp3) & Hsort); [lia|done|lia|].
  assert (Hel : elements m3 base width n = elems A3 n) by (by apply elems_ext).
  exists m3. split; [done|]. rewrite Hel. split; [exact Hp3|]. split; [by apply elems_sorted|].
  intros x Hx. apply Hout3. lia.
Qed.

(** Beyond 64 orders the search for the next tree goes wrong: when it is the
    one of bit 64, the distance comes out as 0, and the shift that follows is
    undefined. *)
Theorem pntz_misses_bit_64 p1 : u64 p1 -> Z.odd p1 = true ->
  pntz 0 (1, p1) = 0 /\ shr (1, p1) (pntz 0 (1, p1)) = Unreachable.
Proof.
  intros Hu Ho. assert (pntz 0 (1, p1) = 0) as ->; [|done].
  unfold pntz. cbn [fst snd]. change (a_ctz_l 0 (1 -w 1)) with 0. cbn [negb Z.eqb].
  destruct p1 as [|[q|q|]|q]; done.
Qed.

(** ** Witness: nine bytes *)
Definition byte_le (v w : list Z) : bool := hd 0 v <=? hd 0 w.
#[local] Instance byte_le_preorder : TotalPreorder byte_le.
Proof. unfold byte_le. split; intros *; zcases; auto; lia. Qed.

Lemma qsort_sorts_witness :
  let m := write_bytes ∅ 0x1000 [5;3;9;1;1;8;2;7;4] in
  exists m', qsort 0 (fun m a b => byte m a - byte m b) m 0x1000 9 1 = Ret m' /\
    StronglySorted (fun v w => byte_le v w = true) (elements m' 0x1000 1 9) /\
    read_bytes m' 0x1000 9 = [1;1;2;3;4;5;7;8;9].
Proof.
  intros m.
  destruct (qsort_sorts 0 (fun m a b => byte m a - byte m b) byte_le m 0x1000 9 1) as (m' & Hq & _ & Hs & _).
  - intros m0 i j Hi Hj. unfold addr, elem, byte_le. change (Z.to_nat 1) with 1%nat. cbn [read_bytes hd].
    unfold addr. split; zcases; auto; lia.
  - lia.
  - lia.
  - lia.
  - lia.
  - exists m'. split; [exact Hq|]. split; [exact Hs|]. vm_compute in Hq. injection Hq as <-. vm_compute. reflexivity.
Defined.
