(* ===== verification/DevOnes.v ===== *)
(** * The /dev/ones kernel module

    When the full libcrunch is not loaded, the sizes of the shadow space are
    mapped from [/dev/ones] ([src/shadow.c]), so that every pointer that was
    never stored by instrumented code is loaded with the largest bounds.  The
    file models the device ([kernel/dev-ones/linux/dev_ones.c]): the page of
    ones, [mmap] and its fault handler, and [read] with the assembly routine
    that fills user memory and survives faults.  It proves what [read] leaves
    in the buffer on every path, and that checks on bounds that come from the
    device pass. *)
From S2P Require Import Prelude Config TrapPtr Bounds Derive Memory ShadowSpace.

(** Constants of the kernel's headers. *)
Definition PAGE_SIZE : Z := 4096.
Definition VM_SHARED : Z := 8.
Definition ENOSYS : Z := 38.
Definition EFAULT : Z := 14.
Definition ERESTARTSYS : Z := 512.
Definition all_ones : Z := 2 ^ 64 - 1.

(** ** The page and its mappings *)
Record ones_state := OnesState {
  k_mem : mem;            (** kernel memory *)
  ones_data : Z;          (** the page of ones *)
  page_refs : Z;          (** the page's reference count *)
  registered : bool;
}.
Record vma := Vma { vm_flags : Z; ones_ops : bool }.

(** [for (l = ones_data; l != end; ++l) *l = -1] *)
Fixpoint fill_page (fuel : nat) (m : mem) (l e : Z) : outcome mem :=
  if l =? e then Ret m
  else match fuel with
       | O => Unreachable
       | S fuel => fill_page fuel (store8 m l all_ones) (l +w 8) e
       end.

(** [page] is what [__get_free_page] returns, [err] what [misc_register]
    does. *)
Definition ones_init (page err : Z) (m : mem) : outcome (Z * ones_state) :=
  m ← fill_page (Z.to_nat (PAGE_SIZE / 8)) m page (page +w PAGE_SIZE);
  Ret (err, OnesState m page 1 (err =? 0)).

Definition ones_exit (st : ones_state) : ones_state :=
  OnesState (k_mem st) (ones_data st) (page_refs st - 1) false.

(** The handler's result and the page it found. *)
Definition ones_vma_fault (st : ones_state) : Z * Z * ones_state :=
  (0, ones_data st, OnesState (k_mem st) (ones_data st) (page_refs st + 1) (registered st)).

Definition ones_mmap (config_mmu : bool) (v : vma) : Z * vma :=
  if negb config_mmu then (- ENOSYS, v)
  else if negb (Z.land (vm_flags v) VM_SHARED =? 0) then (- ENOSYS, v)
  else (0, Vma (vm_flags v) true).

(** ** Reading *)

(** The assembly leaves through its end or through a fixup, with the count it
    had in [rcx]. *)
Inductive asm_exit :=
| Done (m : mem) (dst : Z)
| Faulted (m : mem) (rcx : Z).

Section user.
(** Which bytes of user memory can be written. *)
Context (writable : Z -> bool).

Definition quad_writable (a : Z) : bool := forallb (fun i => writable (a + i)) (seqZ 0 8).

(** [0: movq; addq; decl %ecx; jnz 0b]: the count is decremented in 32 bits. *)
Fixpoint fill_quads (fuel : nat) (m : mem) (dst rcx : Z) : outcome asm_exit :=
  match fuel with
  | O => Unreachable
  | S fuel =>
      if quad_writable dst then
        let m := store8 m dst all_ones in
        let dst := dst +w 8 in
        let rcx := wrap32 (rcx - 1) in
        if rcx =? 0 then Ret (Done m dst) else fill_quads fuel m dst rcx
      else Ret (Faulted m rcx)
  end.
(** [1: movb; incq; decl %ecx; jnz 1b] *)
Fixpoint fill_bytes (fuel : nat) (m : mem) (dst rcx : Z) : outcome asm_exit :=
  match fuel with
  | O => Unreachable
  | S fuel =>
      if writable dst then
        let m := store m dst 1 all_ones in
        let dst := dst +w 1 in
        let rcx := wrap32 (rcx - 1) in
        if rcx =? 0 then Ret (Done m dst) else fill_bytes fuel m dst rcx
      else Ret (Faulted m rcx)
  end.

(** The number of times a loop that counts [rcx] down in 32 bits runs. *)
Definition rounds (rcx : Z) : nat := S (Z.to_nat (wrap32 (rcx - 1))).

(** [__setall_user]: returns the number of bytes not set. *)
Definition setall_user (m : mem) (addr size : Z) : outcome (mem * Z) :=
  let size1 := Z.land size 7 in
  let size8 := size / 8 in
  r ← (if size8 =? 0 then Ret (Done m addr) else fill_quads (rounds size8) m addr size8);
  match r with
  | Faulted m rcx => Ret (m, size1 +w 8 * rcx)
  | Done m dst =>
      if wrap32 size1 =? 0 then Ret (m, size1)
      else
        r ← fill_bytes (rounds size1) m dst size1;
        match r with Done m _ => Ret (m, 0) | Faulted m rcx => Ret (m, rcx) end
  end.

(** [access_ok] is the kernel's; [signals] says, chunk by chunk, whether a
    signal is pending. *)
Context (access_ok : Z -> Z -> bool).

Fixpoint read_loop (fuel : nat) (signals : nat -> bool) (m : mem) (buf count written : Z)
    : outcome (mem * Z) :=
  if count =? 0 then Ret (m, if negb (written =? 0) then written else - EFAULT)
  else match fuel with
       | O => Unreachable
       | S fuel =>
           let chunk := if PAGE_SIZE <? count then PAGE_SIZE else count in
           '(m, unwritten) ← setall_user m buf chunk;
           let written := written +w (chunk -w unwritten) in
           if negb (unwritten =? 0) then Ret (m, if negb (written =? 0) then written else - EFAULT)
           else if signals fuel then Ret (m, if negb (written =? 0) then written else - ERESTARTSYS)
           else read_loop fuel signals m (buf +w chunk) (count -w chunk) written
       end.
Definition read_fuel (count : Z) : nat := Z.to_nat (count / PAGE_SIZE + 1).

Definition ones_read (signals : nat -> bool) (m : mem) (buf count : Z) : outcome (mem * Z) :=
  if count =? 0 then Ret (m, 0)
  else if negb (access_ok buf count) then Ret (m, - EFAULT)
  else read_loop (read_fuel count) signals m buf count 0.
End user.

Definition ones_lseek (offset orig : Z) : Z := 0.
Definition ones_write (count : Z) : Z := count.

(** ** Properties *)

(** Memory in which exactly the bytes from [a] on have been set. *)
Definition set_ones (m : mem) (a n : Z) (m' : mem) : Prop :=
  (forall i, a <= i < a + n -> byte m' i = 255) /\
  (forall i, i < a \/ a + n <= i -> byte m' i = byte m i).

Lemma set_ones_0 m a : set_ones m a 0 m.
Proof. split; [lia|done]. Qed.
Lemma set_ones_app m1 m2 m3 a n k :
  0 <= n -> 0 <= k -> set_ones m1 a n m2 -> set_ones m2 (a + n) k m3 -> set_ones m1 a (n + k) m3.
Proof.
  intros Hn Hk [H1 H2] [H3 H4]. split; intros i Hi.
  - destruct (Z_lt_ge_dec i (a + n)); [|apply H3; lia]. rewrite H4 by lia. apply H1. lia.
  - rewrite H4 by lia. apply H2. lia.
Qed.

Lemma byte_store_ones n : forall m a i, (n <= 8)%nat -> a <= i < a + Z.of_nat n ->
  byte (store m a n (2 ^ (8 * Z.of_nat n) - 1)) i = 255.
Proof.
  induction n as [|n IH]; intros m a i Hn Hi; [lia|]. cbn [store].
  replace (8 * Z.of_nat (S n)) with (8 * Z.of_nat n + 8) by lia. rewrite Z.pow_add_r by lia.
  set (P := 2 ^ (8 * Z.of_nat n)). assert (0 < P) by (apply Z.pow_pos_nonneg; lia).
  change (2 ^ 8) with 256.
  destruct (Z.eq_dec i a) as [->|Hne].
  - rewrite byte_insert. rewrite Z.mod_mod by lia. replace (P * 256 - 1) with (255 + (P - 1) * 256) by lia.
    rewrite Z.mod_add by lia. done.
  - rewrite byte_insert_ne by done.
    replace ((P * 256 - 1) / 256) with (P - 1).
    2:{ replace (P * 256 - 1) with (255 + (P - 1) * 256) by lia. rewrite Z.div_add by lia. change (255 / 256) with 0. lia. }
    apply IH; lia.
Qed.

Lemma set_ones_store8 m a : set_ones m a 8 (store8 m a all_ones).
Proof.
  split; intros i Hi; [apply (byte_store_ones 8)|apply byte_store_other]; lia.
Qed.
Lemma set_ones_store1 m a : set_ones m a 1 (store m a 1 all_ones).
Proof.
  split; intros i Hi; [|apply byte_store_other; lia]. replace i with a by lia. cbn [store].
  by rewrite byte_insert.
Qed.

Lemma fill_page_spec n : forall fuel m l,
  (n <= fuel)%nat -> 0 <= l -> l + 8 * Z.of_nat n < 2 ^ 64 ->
  exists m', fill_page fuel m l (l + 8 * Z.of_nat n) = Ret m' /\ set_ones m l (8 * Z.of_nat n) m'.
Proof.
  induction n as [|n IH]; intros fuel m l Hf Hl Hr.
  { exists m. rewrite Z.add_0_r. destruct fuel; cbn [fill_page]; rewrite Z.eqb_refl; split; try done; apply set_ones_0. }
  destruct fuel as [|fuel]; [lia|]. cbn [fill_page]. rewrite (proj2 (Z.eqb_neq _ _)) by lia.
  assert ((l +w 8) = l + 8) as -> by (apply wrap64_small; unfold u64; lia).
  replace (l + 8 * Z.of_nat (S n)) with (l + 8 + 8 * Z.of_nat n) by lia.
  destruct (IH fuel (store8 m l all_ones) (l + 8)) as (m' & -> & Hs); [lia..|].
  exists m'. split; [done|]. replace (8 * Z.of_nat (S n)) with (8 + 8 * Z.of_nat n) by lia.
  eapply set_ones_app; [lia|lia|apply set_ones_store8|done].
Qed.

Section reading.
Context (writable : Z -> bool).

Lemma quad_writable_spec a :
  quad_writable writable a = true <-> forall i, a <= i < a + 8 -> writable i = true.
Proof.
  unfold quad_writable. rewrite forallb_forall. split.
  - intros Hf i Hi. specialize (Hf (i - a)). replace (a + (i - a)) with i in Hf by lia. apply Hf.
    apply list_elem_of_In, elem_of_seqZ. lia.
  - intros Hw i Hi. apply list_elem_of_In, elem_of_seqZ in Hi. apply Hw. lia.
Qed.

(** A loop that starts with [k] things of [u] bytes to write has written some of
    them, all of them writable, and stopped at one that is not. *)
Definition filled (u : Z) (m : mem) (dst k : Z) (r : asm_exit) : Prop :=
  match r with
  | Done m' dst' => dst' = dst + u * k /\ set_ones m dst (u * k) m' /\
      (forall i, dst <= i < dst + u * k -> writable i = true)
  | Faulted m' rcx => 0 < rcx <= k /\ set_ones m dst (u * (k - rcx)) m' /\
      (forall i, dst <= i < dst + u * (k - rcx) -> writable i = true) /\
      exists i, dst + u * (k - rcx) <= i < dst + u * (k - rcx) + u /\ writable i = false
  end.

Lemma filled_step u m m1 dst k r :
  0 <= u -> 0 < k -> set_ones m dst u m1 -> (forall i, dst <= i < dst + u -> writable i = true) ->
  filled u m1 (dst + u) (k - 1) r -> filled u m dst k r.
Proof.
  intros Hu Hk Hs Hw. destruct r as [m' dst'|m' rcx]; cbn [filled].
  - intros (-> & Hs' & Hw'). split; [lia|]. split.
    + replace (u * k) with (u + u * (k - 1)) by lia. eapply set_ones_app; [lia|nia|done|done].
    + intros i Hi. destruct (Z_lt_ge_dec i (dst + u)); [apply Hw; lia|apply Hw'; lia].
  - intros (Hr & Hs' & Hw' & i & Hi & Hwi). split; [lia|].
    replace (u * (k - rcx)) with (u + u * (k - 1 - rcx)) by lia. split.
    + eapply set_ones_app; [lia|nia|done|done].
    + split; [|exists i; split; [lia|done]].
      intros j Hj. destruct (Z_lt_ge_dec j (dst + u)); [apply Hw; lia|apply Hw'; lia].
Qed.

Lemma fill_quads_spec n : forall fuel m dst k,
  Z.of_nat n = k -> (n <= fuel)%nat -> 0 < k < 2 ^ 32 -> 0 <= dst -> dst + 8 * k < 2 ^ 64 ->
  exists r, fill_quads writable fuel m dst k = Ret r /\ filled 8 m dst k r.
Proof.
  induction n as [|n IH]; intros fuel m dst k Hn Hf Hk Hd Hr; [lia|].
  destruct fuel as [|fuel]; [lia|]. cbn [fill_quads].
  destruct (quad_writable writable dst) eqn:Hq.
  - pose proof (proj1 (quad_writable_spec _) Hq) as Hw.
    assert ((dst +w 8) = dst + 8) as -> by (apply wrap64_small; unfold u64; lia).
    rewrite wrap32_small by (unfold u32; lia).
    destruct (Z.eqb_spec (k - 1) 0) as [Hz|Hnz].
    + eexists. split; [reflexivity|]. assert (k = 1) as -> by lia. cbn [filled].
      split; [lia|]. split; [apply set_ones_store8|]. intros i Hi. apply Hw. lia.
    + destruct (IH fuel (store8 m dst all_ones) (dst + 8) (k - 1)) as (r & -> & Hfr); [lia..|].
      exists r. split; [done|]. eapply filled_step; [lia|lia|apply set_ones_store8|done|done].
  - eexists. split; [reflexivity|]. cbn [filled]. rewrite Z.sub_diag, Z.mul_0_r, Z.add_0_r.
    split; [lia|]. split; [apply set_ones_0|]. split; [lia|].
    destruct (decide (Exists (fun i => writable (dst + i) = false) (seqZ 0 8))) as [He|Hne].
    + apply Exists_exists in He as (i & Hi%elem_of_seqZ & Hwi). exists (dst + i). split; [lia|done].
    + exfalso. apply not_true_iff_false in Hq. apply Hq, quad_writable_spec. intros i Hi.
      destruct (writable i) eqn:Hwi; [done|]. exfalso. apply Hne, Exists_exists. exists (i - dst).
      rewrite elem_of_seqZ. replace (dst + (i - dst)) with i by lia. split; [lia|done].
Qed.

Lemma fill_bytes_spec n : forall fuel m dst k,
  Z.of_nat n = k -> (n <= fuel)%nat -> 0 < k < 2 ^ 32 -> 0 <= dst -> dst + k < 2 ^ 64 ->
  exists r, fill_bytes writable fuel m dst k = Ret r /\ filled 1 m dst k r.
Proof.
  induction n as [|n IH]; intros fuel m dst k Hn Hf Hk Hd Hr; [lia|].
  destruct fuel as [|fuel]; [lia|]. cbn [fill_bytes].
  destruct (writable dst) eqn:Hw.
  - assert ((dst +w 1) = dst + 1) as -> by (apply wrap64_small; unfold u64; lia).
    rewrite wrap32_small by (unfold u32; lia).
    assert (Hw1 : forall i, dst <= i < dst + 1 -> writable i = true).
    { intros i Hi. by replace i with dst by lia. }
    destruct (Z.eqb_spec (k - 1) 0) as [Hz|Hnz].
    + eexists. split; [reflexivity|]. assert (k = 1) as -> by lia. cbn [filled].
      split; [lia|]. split; [apply set_ones_store1|]. intros i Hi. apply Hw1. lia.
    + destruct (IH fuel (store m dst 1 all_ones) (dst + 1) (k - 1)) as (r & -> & Hfr); [lia..|].
      exists r. split; [done|]. eapply filled_step; [lia|lia|apply set_ones_store1|done|done].
  - eexists. split; [reflexivity|]. cbn [filled]. rewrite Z.sub_diag, Z.mul_0_r, Z.add_0_r.
    split; [lia|]. split; [apply set_ones_0|]. split; [lia|]. exists dst. split; [lia|done].
Qed.

Lemma rounds_enough k : 0 < k < 2 ^ 32 -> (Z.to_nat k <= rounds k)%nat.
Proof. intros Hk. unfold rounds. rewrite wrap32_small by (unfold u32; lia). lia. Qed.

(** [__setall_user] sets a writable prefix of the buffer and returns how much
    is left; something is left only because a byte near the end of the prefix,
    in the same quadword, cannot be written. *)
Lemma setall_user_spec m addr size :
  0 <= addr -> 0 <= size < 2 ^ 35 -> addr + size < 2 ^ 64 ->
  exists m' left, setall_user writable m addr size = Ret (m', left) /\ 0 <= left <= size /\
    set_ones m addr (size - left) m' /\
    (forall i, addr <= i < addr + (size - left) -> writable i = true) /\
    (left <> 0 -> exists i, addr + (size - left) <= i < addr + (size - left) + 8 /\ i < addr + size /\
       writable i = false).
Proof.
  intros Ha Hs Hr. unfold setall_user.
  assert (Hl : Z.land size 7 = size mod 8) by apply (land_low size 3 ltac:(lia)). rewrite Hl.
  set (q := size / 8). set (b := size mod 8). assert (Hqb : size = 8 * q + b /\ 0 <= b < 8 /\ 0 <= q < 2 ^ 32).
  { unfold q, b. mod_lia. }
  clearbody q b. destruct Hqb as (-> & Hb & Hq). clear Hl.
  assert (Htail : forall m1, set_ones m addr (8 * q) m1 -> (forall i, addr <= i < addr + 8 * q -> writable i = true) ->
    exists m' left, (if wrap32 b =? 0 then Ret (m1, b)
      else r ← fill_bytes writable (rounds b) m1 (addr + 8 * q) b;
           match r with Done m _ => Ret (m, 0) | Faulted m rcx => Ret (m, rcx) end) = Ret (m', left) /\
      0 <= left <= 8 * q + b /\ set_ones m addr (8 * q + b - left) m' /\
      (forall i, addr <= i < addr + (8 * q + b - left) -> writable i = true) /\
      (left <> 0 -> exists i, addr + (8 * q + b - left) <= i < addr + (8 * q + b - left) + 8 /\
         i < addr + (8 * q + b) /\ writable i = false)).
  { intros m1 Hm1 Hw1. rewrite wrap32_small by (unfold u32; lia). destruct (Z.eqb_spec b 0) as [->|Hnz].
    { exists m1, 0. rewrite Z.add_0_r, Z.sub_0_r. split; [done|]. split; [lia|]. by split. }
    destruct (fill_bytes_spec (Z.to_nat b) (rounds b) m1 (addr + 8 * q) b) as (r & -> & Hfr);
      try lia; [apply rounds_enough; lia|]. cbn [mbind outcome_bind].
    destruct r as [m' dst'|m' rcx]; cbn [filled] in Hfr.
    - destruct Hfr as (_ & Hs1 & Hw2). exists m', 0. rewrite !Z.mul_1_l in *. split; [done|]. split; [lia|].
      rewrite Z.sub_0_r. split; [eapply set_ones_app; [lia|lia|done|done]|]. split; [|done].
      intros i Hi. destruct (Z_lt_ge_dec i (addr + 8 * q)); [apply Hw1; lia|apply Hw2; lia].
    - rewrite !Z.mul_1_l in Hfr. destruct Hfr as (Hrc & Hs1 & Hw2 & i & Hi & Hwi).
      exists m', rcx. split; [done|]. split; [lia|].
      replace (8 * q + b - rcx) with (8 * q + (b - rcx)) by lia.
      split; [eapply set_ones_app; [lia|lia|done|done]|]. split.
      + intros j Hj. destruct (Z_lt_ge_dec j (addr + 8 * q)); [apply Hw1; lia|apply Hw2; lia].
      + intros _. exists i. split; [lia|]. split; [lia|done]. }
  destruct (Z.eqb_spec q 0) as [->|Hq0]; cbn [mbind outcome_bind].
  { rewrite Z.add_0_r in Htail. apply Htail; [apply set_ones_0|lia]. }
  destruct (fill_quads_spec (Z.to_nat q) (rounds q) m addr q) as (r & -> & Hfr);
    try lia; [apply rounds_enough; lia|]. cbn [mbind outcome_bind].
  destruct r as [m1 dst'|m1 rcx]; cbn [filled] in Hfr.
  - destruct Hfr as (-> & Hs1 & Hw1). by apply Htail.
  - destruct Hfr as (Hrc & Hs1 & Hw1 & i & Hi & Hwi).
    assert ((b +w 8 * rcx) = b + 8 * rcx) as -> by (apply wrap64_small; unfold u64; lia).
    exists m1, (b + 8 * rcx). split; [done|]. split; [lia|].
    replace (8 * q + b - (b + 8 * rcx)) with (8 * (q - rcx)) by lia. split; [done|]. split; [done|].
    intros _. exists i. split; [lia|]. split; [lia|done].
Qed.

Context (access_ok : Z -> Z -> bool).

(** What stops a read after [w] of [count] bytes: a signal, or a byte that
    cannot be written. *)
Definition interrupted (signals : nat -> bool) (buf count w : Z) : Prop :=
  (exists f, signals f = true) \/
  (exists i, buf + w <= i < buf + w + 8 /\ i < buf + count /\ writable i = false).

Lemma read_loop_spec signals fuel : forall m buf count written,
  0 <= buf -> buf + count < 2 ^ 64 -> 0 <= written -> 0 <= count -> written + count < 2 ^ 63 ->
  count <= PAGE_SIZE * Z.of_nat fuel ->
  exists m' r w, read_loop writable fuel signals m buf count written = Ret (m', r) /\ 0 <= w <= count /\
    set_ones m buf w m' /\ (forall i, buf <= i < buf + w -> writable i = true) /\
    r = (if written + w =? 0 then - EFAULT else written + w) /\
    (w < count -> interrupted signals buf count w).
Proof.
  unfold PAGE_SIZE. induction fuel as [|fuel IH]; intros m buf count written Hb Hbc Hw Hc Hwc Hf.
  { assert (count = 0) as -> by lia. exists m, (if written + 0 =? 0 then - EFAULT else written + 0), 0.
    cbn [read_loop Z.eqb]. rewrite Z.add_0_r. split; [by destruct (written =? 0)|].
    split; [lia|]. split; [apply set_ones_0|]. split; [lia|]. split; [done|lia]. }
  cbn [read_loop]. unfold PAGE_SIZE. destruct (Z.eqb_spec count 0) as [->|Hnz].
  { exists m, (if written + 0 =? 0 then - EFAULT else written + 0), 0.
    rewrite Z.add_0_r. split; [by destruct (written =? 0)|].
    split; [lia|]. split; [apply set_ones_0|]. split; [lia|]. split; [done|lia]. }
  set (chunk := if 4096 <? count then 4096 else count).
  assert (Hck : 0 < chunk <= count /\ chunk <= 4096 /\ count - chunk <= 4096 * Z.of_nat fuel).
  { unfold chunk. destruct (Z.ltb_spec 4096 count); lia. }
  clearbody chunk.
  destruct (setall_user_spec m buf chunk) as (m1 & left & -> & Hl & Hs1 & Hw1 & Hfault); try lia.
  cbn [mbind outcome_bind].
  assert ((written +w (chunk -w left)) = written + (chunk - left)) as ->.
  { unfold sub64. rewrite (wrap64_small (chunk - left)) by (unfold u64; lia).
    apply wrap64_small. unfold u64. lia. }
  destruct (Z.eqb_spec left 0) as [->|Hlnz]; cbn [negb].
  - rewrite Z.sub_0_r in *. rewrite (proj2 (Z.eqb_neq (written + chunk) 0)) by lia. cbn [negb].
    destruct (signals fuel) eqn:Hsig.
    + exists m1, (written + chunk), chunk. split; [done|]. split; [lia|]. split; [done|]. split; [done|].
      rewrite (proj2 (Z.eqb_neq _ 0)) by lia. split; [done|]. intros _. left. by exists fuel.
    + assert ((buf +w chunk) = buf + chunk) as -> by (apply wrap64_small; unfold u64; lia).
      assert ((count -w chunk) = count - chunk) as -> by (apply wrap64_small; unfold u64; lia).
      destruct (IH m1 (buf + chunk) (count - chunk) (written + chunk))
        as (m' & r & w & -> & Hwr & Hs2 & Hw2 & -> & Hint); try lia.
      exists m', (if written + chunk + w =? 0 then - EFAULT else written + chunk + w), (chunk + w).
      split; [done|]. split; [lia|]. split; [by eapply set_ones_app; [lia|lia|..]|].
      split; [|split; [by rewrite Z.add_assoc|]].
      * intros i Hi. destruct (Z_lt_ge_dec i (buf + chunk)); [apply Hw1; lia|apply Hw2; lia].
      * intros Hlt. destruct Hint as [Hsg|(i & Hi & Hi2 & Hwi)]; [lia|by left|].
        right. exists i. split; [lia|]. split; [lia|done].
  - exists m1, (if written + (chunk - left) =? 0 then - EFAULT else written + (chunk - left)), (chunk - left).
    split; [by destruct (_ =? 0)|]. split; [lia|]. split; [done|]. split; [done|]. split; [done|].
    intros _. right. destruct (Hfault Hlnz) as (i & Hi & Hi2 & Hwi). exists i. split; [lia|]. split; [lia|done].
Qed.

(** C40. Reading from [/dev/ones] always ends.  Nothing asked for is nothing
    done; a buffer the kernel refuses is an error; otherwise exactly the first
    [w] bytes of the buffer are set to ones and [w] is returned, or an error
    when it is zero, and [w] is less than what was asked for only because of a
    signal or of a byte that cannot be written. *)
Theorem ones_read_spec signals m buf count :
  0 <= buf -> buf + count < 2 ^ 64 -> 0 <= count < 2 ^ 63 ->
  exists m' r, ones_read writable access_ok signals m buf count = Ret (m', r) /\
    (count = 0 -> r = 0 /\ m' = m) /\
    (count <> 0 -> access_ok buf count = false -> r = - EFAULT /\ m' = m) /\
    (count <> 0 -> access_ok buf count = true ->
       exists w, 0 <= w <= count /\ set_ones m buf w m' /\ r = (if w =? 0 then - EFAULT else w) /\
         (forall i, buf <= i < buf + w -> writable i = true) /\
         (w < count -> interrupted signals buf count w)).
Proof.
  intros Hb Hbc Hc. unfold ones_read. destruct (Z.eqb_spec count 0) as [->|Hnz].
  { by exists m, 0. }
  destruct (access_ok buf count) eqn:Hok; cbn [negb]; [|by exists m, (- EFAULT)].
  destruct (read_loop_spec signals (read_fuel count) m buf count 0)
    as (m' & r & w & -> & Hwr & Hs & Hw & -> & Hint); try lia.
  { unfold read_fuel, PAGE_SIZE. mod_lia. }
  exists m', (if 0 + w =? 0 then - EFAULT else 0 + w). split; [done|]. split; [done|]. split; [done|].
  intros _ _. by exists w.
Qed.
End reading.

(** ** The device under the shadow space *)

(** The page the module hands out is all ones, whatever is faulted in. *)
Lemma ones_init_spec page err m :
  0 <= page -> page + PAGE_SIZE < 2 ^ 64 ->
  exists st, ones_init page err m = Ret (err, st) /\ ones_data st = page /\
    set_ones m page PAGE_SIZE (k_mem st) /\ registered st = (err =? 0).
Proof.
  unfold PAGE_SIZE. intros Hp Hr. unfold ones_init, PAGE_SIZE.
  assert ((page +w 4096) = page + 8 * Z.of_nat 512) as -> by (apply wrap64_small; unfold u64; lia).
  destruct (fill_page_spec 512 (Z.to_nat (4096 / 8)) m page) as (m' & -> & Hs); try lia.
  { by vm_compute. }
  by eexists.
Qed.

(** Reading user memory that is privately mapped from the device and was not
    written since: the page found by the fault handler. *)
Definition mapped_from_ones (st : ones_state) (m : mem) (a n : Z) : Prop :=
  forall i, 0 <= i < n ->
    byte m (a + i) = byte (k_mem st) ((ones_vma_fault st).1.2 + (a + i) mod PAGE_SIZE).

Lemma load_ones n : forall m a, (n <= 8)%nat -> (forall i, 0 <= i < Z.of_nat n -> byte m (a + i) = 255) ->
  load m a n = 2 ^ (8 * Z.of_nat n) - 1.
Proof.
  induction n as [|n IH]; intros m a Hn Hb; [done|]. cbn [load].
  rewrite (IH m (a + 1)); [|lia|].
  - pose proof (Hb 0 ltac:(lia)) as H0. rewrite Z.add_0_r in H0. rewrite H0.
    replace (8 * Z.of_nat (S n)) with (8 + 8 * Z.of_nat n) by lia. rewrite Z.pow_add_r by lia.
    change (2 ^ 8) with 256. lia.
  - intros i Hi. rewrite <- Z.add_assoc, (Z.add_comm 1). apply Hb. lia.
Qed.

Lemma load_zeros n : forall m a, (forall i, 0 <= i < Z.of_nat n -> byte m (a + i) = 0) -> load m a n = 0.
Proof.
  induction n as [|n IH]; intros m a Hb; [done|]. cbn [load].
  rewrite (IH m (a + 1)).
  - pose proof (Hb 0 ltac:(lia)) as H0. rewrite Z.add_0_r in H0. lia.
  - intros i Hi. rewrite <- Z.add_assoc, (Z.add_comm 1). apply Hb. lia.
Qed.

Section checks.
Context `{WB : WideBounds} {St U : Type} `{DeriveEnv St U}.

(** Bounds from zero to the end of the address space let everything through
    but the last address. *)
Lemma full_bounds_pass (s : St) derived from :
  no_split_path && using_trap_ptrs = false -> 0 <= derived < 2 ^ 64 - 1 ->
  (exists s', primary_check_derive_ptr s derived from (Bounds 0 (2 ^ 64 - 1)) = (true, derived, s')) /\
  (exists s', check_deref s derived (Bounds 0 (2 ^ 64 - 1)) = Ret (true, s')).
Proof.
  intros Hsp Hd. unfold primary_check_derive_ptr, check_deref. rewrite wide_word, Hsp, !get_base_wide.
  unfold libcrunch_get_size; cbn [base size].
  assert ((derived -w 0) = derived) as -> by (unfold sub64; rewrite Z.sub_0_r; by apply wrap64_small; unfold u64; lia).
  rewrite (proj2 (Z.ltb_lt _ _)), (proj2 (Z.leb_le _ _)), (proj2 (Z.eqb_neq _ _)) by lia.
  split; [|destruct using_trap_ptrs; by eexists].
  destruct noop_inlines; [by eexists|]. destruct check_derive; cbn [negb]; [|by eexists].
  destruct using_trap_pointers, one_past_in_primary; by eexists.
Qed.

(** Without the full libcrunch, the checks let uninstrumented pointers
    through: if the sizes of the shadow space are mapped from the device and the
    bases are anonymous memory, any non-null pointer loaded from a slot that was
    never stored to has the largest bounds, whatever page the device was given;
    the primary check on any derivation from it succeeds and leaves the derived
    pointer alone, and so does the check on a dereference. *)
Theorem ones_checks_pass page err km kst (m : mem) slot ptr (s : St) derived :
  no_shadow_space = false -> no_split_path && using_trap_ptrs = false ->
  0 <= page -> page + PAGE_SIZE < 2 ^ 64 -> ones_init page err km = Ret (err, kst) ->
  mapped_from_ones kst m (libcrunch_size_stored_loc slot) 4 ->
  (forall i, 0 <= i < 8 -> byte m (libcrunch_base_stored_loc slot + i) = 0) ->
  slot <> 0 -> ptr <> 0 -> 0 <= derived < 2 ^ 64 - 1 ->
  fetch_bounds_inl m ptr slot = libcrunch_max_bounds ptr /\
  (exists s', primary_check_derive_ptr s derived ptr (fetch_bounds_inl m ptr slot) = (true, derived, s')) /\
  (exists s', check_deref s derived (fetch_bounds_inl m ptr slot) = Ret (true, s')).
Proof.
  intros Hns Hsp Hpg Hpr Hinit Hmap Hbase Hslot Hptr Hd.
  destruct (ones_init_spec page err km Hpg Hpr) as (st & Hi & Hod & [Hones _] & _).
  rewrite Hi in Hinit. injection Hinit as <-.
  assert (Hsz : load4 m (libcrunch_size_stored_loc slot) = 2 ^ 32 - 1).
  { apply (load_ones 4); [lia|]. intros i Hix. rewrite (Hmap i) by lia. cbn [ones_vma_fault fst snd].
    rewrite Hod. apply Hones. pose proof (Z.mod_pos_bound (libcrunch_size_stored_loc slot + i) PAGE_SIZE ltac:(done)). lia. }
  assert (Hb : load8 m (libcrunch_base_stored_loc slot) = 0) by (apply (load_zeros 8); exact Hbase).
  assert (fetch_bounds_inl m ptr slot = Bounds 0 (2 ^ 64 - 1)) as ->.
  { unfold fetch_bounds_inl, fetch_bounds_from_shadow_space.
    rewrite Hns, (proj2 (Z.eqb_neq ptr 0)), (proj2 (Z.eqb_neq slot 0)) by done. cbn [negb].
    by rewrite wide_word, Hsz, Hb, widen_size_eq. }
  split; [by rewrite max_bounds_wide|]. by apply full_bounds_pass.
Qed.
End checks.

(** ** Witnesses *)

(** A read of 20 bytes whose last four cannot be written: two quadwords are
    set. *)
Definition ex_writable (a : Z) : bool := (0x1000 <=? a) && (a <? 0x1010).
Lemma ones_read_spec_witness :
  exists m' r, ones_read ex_writable (fun _ _ => true) (fun _ => false) ∅ 0x1000 20 = Ret (m', r) /\ r <> 0.
Proof.
  destruct (ones_read_spec ex_writable (fun _ _ => true) (fun _ => false) ∅ 0x1000 20) as (m' & r & Hr & _ & _ & Hw).
  - lia.
  - lia.
  - lia.
  - exists m', r. split; [exact Hr|]. destruct (Hw ltac:(lia) eq_refl) as (w & Hrange & _ & -> & _).
    destruct (Z.eqb_spec w 0); unfold EFAULT; lia.
Defined.

Definition ex_shadow (loc : Z) : mem := store4 ∅ loc (2 ^ 32 - 1).
#[local] Instance ex_derive_env : DeriveEnv unit unit := {|
  count_ptr_derivation s := s; count_ptr_deref s := s; count_transition s := s;
  bounds_error s _ _ _ := s; soft_deref_error_at s _ _ := s;
  fetch_bounds_ool_to_use s _ _ _ := Ret (s, Bounds 0 0) |}.

Lemma ex_shadow_ones loc i : 0 <= i < 4 -> byte (ex_shadow loc) (loc + i) = 255.
Proof.
  intros Hi. unfold ex_shadow, store4. replace (2 ^ 32 - 1) with (2 ^ (8 * Z.of_nat 4) - 1) by done.
  apply byte_store_ones; lia.
Qed.
Lemma ex_shadow_other loc a : loc + 4 <= a -> forall i, 0 <= i < 8 -> byte (ex_shadow loc) (a + i) = 0.
Proof.
  intros Ha i Hi. unfold ex_shadow, store4. rewrite byte_store_other by lia. done.
Qed.

Lemma ones_checks_pass_witness :
  exists s', @primary_check_derive_ptr config_m unit unit _ tt 0x5678 0x1234
    (@fetch_bounds_inl config_m (ex_shadow (libcrunch_size_stored_loc 0x2aaaaaaac000)) 0x1234 0x2aaaaaaac000)
    = (true, 0x5678, s').
Proof.
  destruct (ones_init_spec 0x10000 0 ∅) as (kst & Hi & Hod & [Ho _] & _); [unfold PAGE_SIZE; lia..|].
  destruct (ones_checks_pass (C := config_m) (St := unit) (U := unit) 0x10000 0 ∅ kst
    (ex_shadow (libcrunch_size_stored_loc 0x2aaaaaaac000)) 0x2aaaaaaac000 0x1234 tt 0x5678) as (_ & Hp & _).
  - reflexivity.
  - reflexivity.
  - lia.
  - unfold PAGE_SIZE; lia.
  - exact Hi.
  - intros i Hix. cbn [ones_vma_fault fst snd]. rewrite Hod, Ho.
    + apply ex_shadow_ones. lia.
    + pose proof (Z.mod_pos_bound (libcrunch_size_stored_loc 0x2aaaaaaac000 + i) PAGE_SIZE ltac:(done)). lia.
  - apply ex_shadow_other. vm_compute. discriminate.
  - lia.
  - lia.
  - lia.
  - exact Hp.
Defined.
