(* ===== verification/CppCasts.v ===== *)
(** * Checked casts in C++

    The C++ front end ([frontend/c++/include/checked_cast.hpp]) redefines
    [static_cast] and [reinterpret_cast] as class templates that make the cast
    in a constructor and check the pointer in the conversion operator.  The
    file models the templates with their specialisations, the choice of
    constructor that overload resolution makes, and what C++ says of the casts
    they stand for; it proves when they agree, and that each conversion to a
    typed pointer is counted as one check of the run-time. *)
From S2P Require Import Prelude Config TrapPtr Bounds Derive Memory ShadowSpace BoundsStack Report.
From S2P Require Import Runtime TinyAllocs TypeChecks.

(** ** Integer types

    The types with a specialisation, on x86-64 GNU/Linux; a value of such a
    type is the integer it denotes. *)
Inductive int_type := Int | UInt | Short | UShort | LongLong | ULongLong | Char | UChar | WChar | Bool.
#[export] Instance int_type_eq_dec : EqDecision int_type.
Proof. solve_decision. Defined.

Definition int_bits (t : int_type) : Z :=
  match t with
  | Int | UInt | WChar => 32 | Short | UShort => 16 | LongLong | ULongLong => 64 | Char | UChar => 8 | Bool => 1
  end.
Definition int_signed (t : int_type) : bool :=
  match t with Int | Short | LongLong | Char | WChar => true | _ => false end.
Definition int_range (t : int_type) (v : Z) : Prop :=
  if int_signed t then - 2 ^ (int_bits t - 1) <= v < 2 ^ (int_bits t - 1) else 0 <= v < 2 ^ int_bits t.
#[export] Instance int_range_dec t v : Decision (int_range t v).
Proof. unfold int_range. destruct (int_signed t); apply _. Defined.

(** The built-in conversion to an integer type. *)
Definition int_convert (t : int_type) (v : Z) : Z :=
  match t with
  | Bool => if v =? 0 then 0 else 1
  | _ => let u := v mod 2 ^ int_bits t in
         if int_signed t && (2 ^ (int_bits t - 1) <=? u) then u - 2 ^ int_bits t else u
  end.

(** ** Operands and targets *)

(** The type of the operand: an integer, or a pointer.  Pointers to related
    classes have a displacement, that of the one class in the other. *)
Inductive source := SInt (t : int_type) | SPtr (displacement : option Z).
Record operand := Operand { op_source : source; op_value : Z; op_const_lvalue : bool }.

Definition wf_operand (o : operand) : Prop :=
  match op_source o with SInt t => int_range t (op_value o) | SPtr _ => u64 (op_value o) end.

(** The built-in conversion between pointers to related classes. *)
Definition displace (d p : Z) : Z := if p =? 0 then 0 else p +w d.

Section casts.
Context `{C : Config} `{L : Liballocs}.
Implicit Types (st : runtime).

Inductive target := ToInt (t : int_type) | ToVoidPtr | ToPtr (T : uniqtype).

(** What the language says; [None] is a program it rejects. *)
Definition cpp_static_cast (to : target) (o : operand) : option Z :=
  match to, op_source o with
  | ToInt t, SInt _ => Some (int_convert t (op_value o))
  | ToVoidPtr, SPtr _ => Some (op_value o)
  | ToPtr _, SPtr (Some d) => Some (displace d (op_value o))
  | _, _ => None
  end.
Definition cpp_reinterpret_cast (to : target) (o : operand) : option Z :=
  match to, op_source o with
  | ToInt t, SInt t' => if decide (t = t') then Some (op_value o) else None
  | ToInt t, SPtr _ => if int_bits t =? 64 then Some (int_convert t (op_value o)) else None
  | (ToVoidPtr | ToPtr _), SInt t => if decide (t = Bool) then None else Some (wrap64 (op_value o))
  | (ToVoidPtr | ToPtr _), SPtr _ => Some (op_value o)
  end.

(** ** The templates

    The constructor from [const From&] is chosen for const lvalues; for
    anything else the one from [From&&] matches better. *)
Definition static_construct_ptr (T : uniqtype) (o : operand) : option Z :=
  if op_const_lvalue o then cpp_static_cast (ToPtr T) o
  else
    (* [(ToPointerTarget* ) (unsigned long) std::move(arg)] *)
    Some (wrap64 (op_value o)).
Definition reinterpret_construct_ptr (T : uniqtype) (o : operand) : option Z :=
  if op_const_lvalue o then cpp_reinterpret_cast (ToPtr T) o
  else cpp_reinterpret_cast (ToPtr T) o.

(** [operator ToPointerTarget*] *)
Definition pointer_operator st (temp : Z) (T : uniqtype) site : outcome (Z * runtime) :=
  if negb (temp =? 0) && negb (temp =? minus_one) then
    let st := inc begun st in
    '(_, st) ← is_a_internal st temp T site;
    Ret (temp, st)
  else Ret (temp, st).
(** [operator*] and [operator->] go through it. *)
Definition deref_operator st (temp : Z) (T : uniqtype) site : outcome (Z * runtime) :=
  pointer_operator st temp T site.
Definition arrow_operator st (temp : Z) (T : uniqtype) site : outcome (Z * runtime) :=
  pointer_operator st temp T site.

Definition static_void_cast (o : operand) : option Z := cpp_static_cast ToVoidPtr o.
Definition reinterpret_void_cast (o : operand) : option Z := cpp_reinterpret_cast ToVoidPtr o.
Definition static_int_cast (t : int_type) (o : operand) : option Z := cpp_static_cast (ToInt t) o.
Definition reinterpret_int_cast (t : int_type) (o : operand) : option Z := cpp_reinterpret_cast (ToInt t) o.

(** A cast expression, used as a value. *)
Definition checked_static_cast st (to : target) (o : operand) site : option (outcome (Z * runtime)) :=
  match to with
  | ToInt t => v ← static_int_cast t o; Some (Ret (v, st))
  | ToVoidPtr => v ← static_void_cast o; Some (Ret (v, st))
  | ToPtr T => temp ← static_construct_ptr T o; Some (pointer_operator st temp T site)
  end.
Definition checked_reinterpret_cast st (to : target) (o : operand) site : option (outcome (Z * runtime)) :=
  match to with
  | ToInt t => v ← reinterpret_int_cast t o; Some (Ret (v, st))
  | ToVoidPtr => v ← reinterpret_void_cast o; Some (Ret (v, st))
  | ToPtr T => temp ← reinterpret_construct_ptr T o; Some (pointer_operator st temp T site)
  end.
End casts.

(** ** Other targets

    The primary templates are for every type without a specialisation: classes,
    floating-point types, [long].  [copy] and [move] are the conversions of the
    target type from an lvalue, and from an expiring object, which it leaves in
    another state. *)
Inductive category := ConstLvalue | Lvalue | Rvalue.
#[export] Instance category_eq_dec : EqDecision category.
Proof. solve_decision. Defined.

Section generic.
Context {From To : Type} (copy : From -> To) (move : From -> To * From).

(** The constructors: [const From&], and [From&&], which binds to anything else
    and passes it through [std::move]. *)
Definition generic_construct (cat : category) (arg : From) : To * From :=
  match cat with ConstLvalue => (copy arg, arg) | Lvalue | Rvalue => move arg end.
(** [operator To] is a const function: [std::move(temp)] makes a copy. *)
Definition generic_operator (temp : To) : To := temp.
Definition checked_generic_cast (cat : category) (arg : From) : To * From :=
  let '(temp, arg) := generic_construct cat arg in (generic_operator temp, arg).

(** What the language says: only an rvalue is moved from. *)
Definition cpp_generic_cast (cat : category) (arg : From) : To * From :=
  match cat with Rvalue => move arg | ConstLvalue | Lvalue => (copy arg, arg) end.

(** The template for [void] takes anything and gives nothing. *)
Definition checked_void_cast (arg : From) : unit := tt.

(** The casts to other types are those of the language, except for a variable
    that is not const: it is moved from, so that cast and variable are only
    right for types in which moving is copying. *)
Theorem generic_cast_spec cat arg :
  checked_generic_cast cat arg = cpp_generic_cast cat arg <->
    (cat = Lvalue -> move arg = (copy arg, arg)).
Proof.
  unfold checked_generic_cast, generic_construct, cpp_generic_cast, generic_operator. split.
  - intros H ->. by destruct (move arg).
  - intros H. destruct cat; [done| |by destruct (move arg)]. rewrite <- H by done. by destruct (move arg).
Qed.
End generic.

(** Converting a string variable to another string type steals its characters. *)
Theorem generic_cast_steals (str : string) :
  str <> EmptyString ->
  checked_generic_cast (fun x => x) (fun x => (x, EmptyString)) Lvalue str = (str, EmptyString) /\
  cpp_generic_cast (fun x => x) (fun x => (x, EmptyString)) Lvalue str = (str, str).
Proof. done. Qed.
Lemma generic_cast_steals_witness :
  checked_generic_cast (fun x => x) (fun x => (x, EmptyString)) Lvalue "name"%string = ("name"%string, EmptyString).
Proof. apply (generic_cast_steals "name"%string). discriminate. Defined.

(** ** Integer conversions *)
Lemma int_bits_range t : 1 <= int_bits t <= 64.
Proof. destruct t; cbn; lia. Qed.

(** A conversion lands in the type; it does nothing to a value the type can
    represent; and a conversion to an unsigned type of the same width can be
    undone. *)
Theorem int_convert_spec t v :
  int_range t (int_convert t v) /\
  (int_range t v -> int_convert t v = v) /\
  (forall t', t' <> Bool -> t <> Bool -> int_bits t' = int_bits t -> int_range t v ->
     int_convert t (int_convert t' v) = v).
Proof.
  assert (Hr : forall t, int_range t (int_convert t v)).
  { intros []; unfold int_range, int_convert; cbn [int_bits int_signed andb]; zcases; mod_lia. }
  assert (Hid : forall t v, int_range t v -> int_convert t v = v).
  { intros [] w; unfold int_range, int_convert; cbn [int_bits int_signed andb]; eval_pow2; zcases; mod_lia. }
  split; [done|]. split; [by apply Hid|].
  intros t' Ht' Ht Hb Hv. destruct t, t'; try done; revert Hv; unfold int_range, int_convert;
    cbn [int_bits int_signed andb]; eval_pow2; zcases; mod_lia.
Qed.

(** ** The casts *)
Section properties.
Context `{C : Config} `{L : Liballocs}.
Implicit Types (st : runtime).

(** A conversion to a typed pointer gives the pointer and counts one check,
    unless the pointer is null or -1. *)
Lemma pointer_operator_spec st p T site v st' :
  pointer_operator st p T site = Ret (v, st') ->
  v = p /\ if trivial_pointer p then st' = st
           else exists vd, counters st' = tally vd (bump begun (counters st)) /\
                  vd <> PassedFromCache /\ vd <> BadType.
Proof.
  unfold pointer_operator, trivial_pointer. rewrite <- negb_orb.
  destruct ((p =? 0) || (p =? minus_one)); cbn [negb]; [by intros [= <- <-]|].
  intros Hr. apply bind_Ret in Hr as ([r st1] & Ha & [= <- <-]).
  destruct (counted_verdict _ _ _ _ _ _ (is_a_counted _ _ _ _) Ha) as (_ & v & Hv & _ & _ & Hb & Hh).
  split; [done|]. by exists v.
Qed.

(** The check is the one the C front end emits, less the look in the cache:
    where the cache has nothing, they do the same. *)
Theorem pointer_operator_is_aU st p T site :
  noop_inlines = false -> libcrunch_detrap p = p ->
  cache_lookup (ool_cache st) p T 0 = (ool_cache st, None) ->
  pointer_operator st p T site = ('(_, st) ← is_aU st p (Some T) site; Ret (p, st)).
Proof.
  intros Hn Hd Hc. unfold pointer_operator, is_aU, trivial_pointer. rewrite Hn, <- negb_orb.
  destruct ((p =? 0) || (p =? minus_one)); cbn [negb]; [done|].
  change (ool_cache (inc begun st)) with (ool_cache st). rewrite Hc, Hd.
  by destruct st.
Qed.

(** The cases in which the constructor for anything but const lvalues forgets
    the displacement between the classes. *)
Definition forgets_displacement (to : target) (o : operand) : bool :=
  match to, op_source o with
  | ToPtr _, SPtr (Some d) =>
      negb (op_const_lvalue o) && negb (op_value o =? 0) && negb (wrap64 d =? 0)
  | _, _ => false
  end.

(** What a finished cast to [to] with value [v] has done to the run-time. *)
Definition cast_effect (to : target) (v : Z) st st' : Prop :=
  match to with
  | ToPtr _ => if trivial_pointer v then st' = st
               else exists vd, counters st' = tally vd (bump begun (counters st)) /\
                      vd <> PassedFromCache /\ vd <> BadType
  | _ => st' = st
  end.

(** A [static_cast] the language accepts is accepted by the templates, and
    has the value the language gives it, except that of a pointer to a class at
    another displacement in an object, when the operand is anything but a const
    lvalue: the pointer then comes out unadjusted.  The conversion changes
    nothing but, for a typed pointer that is neither null nor -1, to count
    exactly one check. *)
Theorem static_cast_spec st to o site v :
  wf_operand o -> cpp_static_cast to o = Some v ->
  exists r, checked_static_cast st to o site = Some r /\
    (forall v' st', r = Ret (v', st') ->
       (v' = v <-> forgets_displacement to o = false) /\ cast_effect to v' st st') /\
    ((forall T, to <> ToPtr T) -> r = Ret (v, st)).
Proof.
  unfold wf_operand. intros Hwf Hv. destruct o as [src p cl]. cbn [op_value op_source op_const_lvalue] in *.
  destruct to as [t| |T]; cbn [checked_static_cast].
  - unfold static_int_cast. rewrite Hv. eexists. split; [reflexivity|]. cbn [forgets_displacement cast_effect].
    split; [by intros v' st' [= <- <-]|done].
  - unfold static_void_cast. rewrite Hv. eexists. split; [reflexivity|]. cbn [forgets_displacement cast_effect].
    split; [by intros v' st' [= <- <-]|done].
  - destruct src as [t'|[d|]]; cbn in Hv; try done. injection Hv as <-.
    unfold static_construct_ptr, cpp_static_cast, forgets_displacement.
    cbn [op_value op_source op_const_lvalue].
    assert (Hd : p = displace d p <-> negb (p =? 0) && negb (wrap64 d =? 0) = false).
    { unfold displace, add64, wrap64. unfold u64 in Hwf. eval_pow2.
      zcases; cbn [negb andb]; split; intros; try done; mod_lia. }
    destruct cl; cbn [negb andb mbind option_bind]; (eexists; split; [reflexivity|]); (split; [|by intros Hne; destruct (Hne T)]);
      intros v' st' Hr; apply pointer_operator_spec in Hr as [-> Heff]; (split; [|exact Heff]).
    + done.
    + rewrite wrap64_small by done. exact Hd.
Qed.

(** A [reinterpret_cast] the language accepts is accepted by the templates
    with the same value, whatever the operand; it changes nothing but to count
    exactly one check for a typed pointer that is neither null nor -1. *)
Theorem reinterpret_cast_spec st to o site v :
  cpp_reinterpret_cast to o = Some v ->
  exists r, checked_reinterpret_cast st to o site = Some r /\
    (forall v' st', r = Ret (v', st') -> v' = v /\ cast_effect to v st st') /\
    ((forall T, to <> ToPtr T) -> r = Ret (v, st)).
Proof.
  intros Hv. destruct to as [t| |T]; cbn [checked_reinterpret_cast].
  - unfold reinterpret_int_cast. rewrite Hv. eexists. split; [reflexivity|]. cbn [cast_effect].
    split; [by intros v' st' [= <- <-]|done].
  - unfold reinterpret_void_cast. rewrite Hv. eexists. split; [reflexivity|]. cbn [cast_effect].
    split; [by intros v' st' [= <- <-]|done].
  - unfold reinterpret_construct_ptr. rewrite Hv. destruct (op_const_lvalue o); cbn [mbind option_bind];
      (eexists; split; [reflexivity|]); (split; [|by intros Hne; destruct (Hne T)]);
      intros v' st' Hr; apply pointer_operator_spec in Hr as [-> Heff]; by split.
Qed.

(** The templates also accept what the language rejects: a [static_cast] from
    an integer to a pointer. *)
Theorem static_cast_accepts_integers st T t p site :
  cpp_static_cast (ToPtr T) (Operand (SInt t) p false) = None /\
  checked_static_cast st (ToPtr T) (Operand (SInt t) p false) site =
    Some (pointer_operator st (wrap64 p) T site).
Proof. done. Qed.
End properties.

(** ** Witnesses, on the small liballocs *)
#[local] Instance ex_config : Config := config_p.

(** A pointer variable is cast to its second base class, eight bytes in. *)
Lemma static_cast_spec_witness :
  exists r, checked_static_cast (L := tiny) tiny_runtime (ToPtr (L := tiny) TFloat) (Operand (SPtr (Some 8)) 0x1004 false) 1 = Some r /\
    forall v' st', r = Ret (v', st') -> v' <> 0x100c.
Proof.
  destruct (static_cast_spec (L := tiny) tiny_runtime (ToPtr (L := tiny) TFloat) (Operand (SPtr (Some 8)) 0x1004 false) 1 0x100c)
    as (r & Hr & Hc & _).
  - unfold wf_operand, u64; cbn; lia.
  - reflexivity.
  - exists r. split; [exact Hr|]. intros v' st' He. destruct (Hc v' st' He) as [[Hi _] _].
    intros Hv. specialize (Hi Hv). discriminate Hi.
Defined.

Lemma reinterpret_cast_spec_witness :
  exists st', checked_reinterpret_cast (L := tiny) tiny_runtime (ToPtr (L := tiny) TFloat) (Operand (SInt ULongLong) 0x1004 false) 1
    = Some (Ret (0x1004, st')) /\ cast_effect (L := tiny) (ToPtr (L := tiny) TFloat) 0x1004 tiny_runtime st'.
Proof.
  assert (match checked_reinterpret_cast (L := tiny) tiny_runtime (ToPtr (L := tiny) TFloat)
            (Operand (SInt ULongLong) 0x1004 false) 1 with Some (Ret _) => true | _ => false end = true) as Hok
    by (vm_compute; reflexivity).
  destruct (reinterpret_cast_spec (L := tiny) tiny_runtime (ToPtr (L := tiny) TFloat) (Operand (SInt ULongLong) 0x1004 false) 1 0x1004)
    as (r & Hr & Hc & _); [reflexivity|].
  rewrite Hr in Hok. destruct r as [[v st']| |]; [|discriminate Hok..].
  destruct (Hc v st' eq_refl) as [-> Heff]. exists st'. split; [exact Hr|exact Heff].
Defined.
