(* ===== verification/SlotMemory.v ===== *)
(** * User memory and its shadow

    What a program that stores pointers as pointers, and data elsewhere, can rely
    on: an aligned slot of user memory holds a pointer, and its shadow entry the
    bounds of that pointer; the other bytes hold data.  The representation of
    pointers is an interface, [PtrRep]; [Program.v] and [Transparency.v] have one
    each. *)
From stdpp Require Import functions.
From S2P Require Import Prelude Config TrapPtr Bounds Derive Memory ShadowSpace.

(** Which addresses hold pointers, and which bytes of user memory the runtime
    keeps for itself (the bounds stack is an ordinary mapping). *)
Class SlotLayout := {
  pointer_slot : Z -> bool;
  reserved : Z -> bool;
}.
Class SlotLaws (L : SlotLayout) : Prop := {
  slot_aligned : forall a, pointer_slot a = true -> slot a;
  slot_unreserved : forall a i, pointer_slot a = true -> a <= i < a + 8 -> reserved i = false;
  reserved_user : forall i, reserved i = true -> shadowable i = true;
}.

(** A pointer of type [X] is a word, and bounds beside it. *)
Class PtrRep (X : Type) := {
  rep_value : X -> Z;
  rep_bounds : X -> bounds;
  rep_ok : X -> Prop;
}.
Class PtrRepLaws (X : Type) `{C : Config} `{R : PtrRep X} : Prop := {
  rep_u64 : forall x, rep_ok x -> u64 (rep_value x);
  rep_storable : forall x, rep_ok x -> storable (rep_bounds x);
}.

Section layout.
Context `{C : Config} `{SL : SlotLaws}.

(** No slot is within seven bytes before the range, or in it, and no byte of it
    is reserved. *)
Definition data_range (a : Z) (n : nat) : bool :=
  forallb (fun k => negb (pointer_slot (a - 7 + Z.of_nat k))) (seq 0 (n + 7)) &&
  forallb (fun k => negb (reserved (a + Z.of_nat k))) (seq 0 n).

Lemma data_range_spec a n s :
  data_range a n = true -> pointer_slot s = true -> s + 8 <= a \/ a + Z.of_nat n <= s.
Proof.
  unfold data_range. rewrite andb_true_iff, !forallb_forall. intros [Hall _] Hs.
  destruct (decide (a - 7 <= s < a + Z.of_nat n)); [|lia].
  assert (negb (pointer_slot (a - 7 + Z.of_nat (Z.to_nat (s - (a - 7))))) = true) as Hn
    by (apply Hall, in_seq; lia).
  rewrite Z2Nat.id in Hn by lia. replace (a - 7 + (s - (a - 7))) with s in Hn by lia.
  by rewrite Hs in Hn.
Qed.

Lemma data_range_unreserved a n i :
  data_range a n = true -> a <= i < a + Z.of_nat n -> reserved i = false.
Proof.
  unfold data_range. rewrite andb_true_iff, !forallb_forall. intros [_ Hall] Hi.
  apply negb_true_iff. replace i with (a + Z.of_nat (Z.to_nat (i - a))) by lia.
  apply Hall, in_seq. lia.
Qed.

Lemma byte_shadow_store m a B typed i :
  slot a -> shadowable i = true -> byte (shadow_store_bounds_for m a B typed) i = byte m i.
Proof.
  intros Ha Hi. unfold shadow_store_bounds_for, store4, store8.
  assert (forall x n, (forall k, 0 <= k < Z.of_nat n -> shadowable (x + k) = false) ->
    i < x \/ x + Z.of_nat n <= i) as Hout.
  { intros x n Hn. destruct (decide (x <= i < x + Z.of_nat n)); [|lia].
    specialize (Hn (i - x) ltac:(lia)). replace (x + (i - x)) with i in Hn by lia. congruence. }
  by rewrite !byte_store_other
    by (apply Hout; intros k Hk; by apply (shadow_entries_not_user a k Ha)).
Qed.

Lemma byte_store_congr m1 m2 n : forall a v i,
  byte m1 i = byte m2 i -> byte (store m1 a n v) i = byte (store m2 a n v) i.
Proof.
  induction n as [|n IH]; intros a v i Hi; cbn [store]; [done|].
  destruct (decide (i = a)) as [->|]; [by rewrite !byte_insert|].
  rewrite !byte_insert_ne by done. by apply IH.
Qed.

Lemma slot_bytes a i : slot a -> a <= i < a + 8 -> shadowable i = true.
Proof.
  intros [Ha _] Hi. replace i with (a + (i - a)) by lia. apply (one_range_shadowable a 8); [done|lia].
Qed.

Lemma slots_apart a b : slot a -> slot b -> a <> b -> a + 8 <= b \/ b + 8 <= a.
Proof. intros [_ Ha] [_ Hb] Hne. mod_lia. Qed.

(** The data bytes of user memory: those that are not reserved and no slot covers. *)
Definition data_byte (i : Z) : Prop :=
  (shadowable i = true /\ reserved i = false) /\ forall s, pointer_slot s = true -> i < s \/ s + 8 <= i.

Lemma data_range_bytes a n i :
  one_range a (Z.of_nat n) -> data_range a n = true -> a <= i < a + Z.of_nat n -> data_byte i.
Proof.
  intros Ha Hout Hi. split; [split; [|by apply (data_range_unreserved a n)]|].
  - replace i with (a + (i - a)) by lia. apply (one_range_shadowable a (Z.of_nat n)); [done|lia].
  - intros s Hs. destruct (data_range_spec _ _ s Hout Hs); lia.
Qed.
End layout.

(** Blocks that can be copied whole: aligned, pointers where pointers are, and
    nothing of the runtime's. *)
Definition copy_range `{SL : SlotLayout} (d s : Z) (n : nat) : bool :=
  (d mod 8 =? 0) && (s mod 8 =? 0) && (Z.of_nat n mod 8 =? 0) &&
  forallb (fun k => eqb (pointer_slot (d + Z.of_nat k)) (pointer_slot (s + Z.of_nat k)) &&
                    negb (reserved (d + Z.of_nat k)) && negb (reserved (s + Z.of_nat k))) (seq 0 n).
Definition copy_slots {X : Type} (d s : Z) (n : nat) (sl : Z -> X) (a : Z) : X :=
  if (d <=? a) && (a <? d + Z.of_nat n) then sl (a - d + s) else sl a.

Section copies.
Context `{WB : WideBounds} `{SL : SlotLaws}.
Implicit Types (m : mem) (d s a i : Z) (n : nat).

Lemma copy_range_aligned d s n : copy_range d s n = true -> d mod 8 = 0 /\ s mod 8 = 0 /\ Z.of_nat n mod 8 = 0.
Proof. unfold copy_range. rewrite !andb_true_iff, !Z.eqb_eq. tauto. Qed.
Lemma copy_range_at d s n i :
  copy_range d s n = true -> d <= i < d + Z.of_nat n ->
  pointer_slot i = pointer_slot (i - d + s) /\ reserved i = false /\ reserved (i - d + s) = false.
Proof.
  unfold copy_range. rewrite !andb_true_iff, forallb_forall. intros [_ Hall] Hi.
  specialize (Hall (Z.to_nat (i - d)) ltac:(apply in_seq; lia)).
  rewrite Z2Nat.id in Hall by lia. replace (d + (i - d)) with i in Hall by lia.
  replace (s + (i - d)) with (i - d + s) in Hall by lia.
  rewrite !andb_true_iff, !negb_true_iff in Hall. destruct Hall as [[He%eqb_prop ?] ?]. by split.
Qed.

(** The shadow of a block is no user memory. *)
Lemma shadow_block_outside d n i :
  one_range d (Z.of_nat n) -> d mod 8 = 0 -> Z.of_nat n mod 8 = 0 -> shadowable i = true ->
  (i < libcrunch_base_stored_loc d \/ libcrunch_base_stored_loc d + Z.of_nat n <= i) /\
  (i < libcrunch_size_stored_loc d \/ libcrunch_size_stored_loc d + Z.of_nat n / 2 <= i).
Proof.
  intros Hd Hdm Hnm Hi. split.
  - destruct (decide (libcrunch_base_stored_loc d <= i < libcrunch_base_stored_loc d + Z.of_nat n)); [|lia].
    set (k := (i - libcrunch_base_stored_loc d) / 8).
    assert (Hs : slot (d + 8 * k)) by (apply (slot_offset d (Z.of_nat n)); try done; unfold k; mod_lia).
    destruct (shadow_entries_not_user _ (i - libcrunch_base_stored_loc d - 8 * k) Hs) as [Hf _].
    rewrite (base_stored_loc_offset d (Z.of_nat n)) in Hf by (done || unfold k; mod_lia).
    replace (libcrunch_base_stored_loc d + 8 * k + _) with i in Hf by lia.
    rewrite Hf in Hi by (unfold k; mod_lia). done.
  - destruct (decide (libcrunch_size_stored_loc d <= i < libcrunch_size_stored_loc d + Z.of_nat n / 2)); [|lia].
    set (k := (i - libcrunch_size_stored_loc d) / 4).
    assert (Hs : slot (d + 8 * k)) by (apply (slot_offset d (Z.of_nat n)); try done; unfold k; mod_lia).
    destruct (shadow_entries_not_user _ (i - libcrunch_size_stored_loc d - 4 * k) Hs) as [_ Hf].
    rewrite (size_stored_loc_offset d (Z.of_nat n)) in Hf by (done || unfold k; mod_lia).
    replace (libcrunch_size_stored_loc d + 4 * k + _) with i in Hf by lia.
    rewrite Hf in Hi by (unfold k; mod_lia). done.
Qed.

Lemma byte_notify_copy (real : mem -> Z -> Z -> Z -> mem) m d s n i :
  (forall m d s k i, byte (real m d s k) i = byte m i) ->
  one_range d (Z.of_nat n) -> d mod 8 = 0 -> Z.of_nat n mod 8 = 0 -> shadowable i = true ->
  byte (wrap_notify_copy real true m d s (Z.of_nat n)) i = byte m i.
Proof.
  intros Hreal Hd Hdm Hnm Hi. pose proof (one_range_cases _ _ Hd). unfold wrap_notify_copy; cbn [negb]. rewrite Hreal.
  assert (Hn4 : wrap64 (Z.of_nat n * 4) / 8 = Z.of_nat n / 2) by (unfold wrap64; mod_lia). rewrite Hn4.
  destruct (shadow_block_outside d n i Hd Hdm Hnm Hi). by rewrite !byte_memmove_out.
Qed.

Lemma entry_user_memmove m d s n a :
  slot a -> one_range d (Z.of_nat n) -> entry (memmove m d s (Z.of_nat n)) a = entry m a.
Proof.
  intros Ha Hr.
  assert (forall x, shadowable x = false -> x < d \/ d + Z.of_nat n <= x) as Hout.
  { intros x Hx. destruct (decide (d <= x < d + Z.of_nat n)); [|lia].
    pose proof (one_range_shadowable d _ (x - d) Hr ltac:(lia)) as Hc.
    replace (d + (x - d)) with x in Hc by lia. congruence. }
  apply entry_ext; intros i Hi; apply byte_memmove_out, Hout; by apply (shadow_entries_not_user a i Ha).
Qed.
End copies.

(** The process memory [m], given the pointers [sl] in the slots and the data
    [dt].  The shadow entry of a null pointer is never looked at. *)
Section relation.
Context `{WB : WideBounds} `{SL : SlotLaws} {X : Type} `{R : PtrRep X} `{RL : !PtrRepLaws X}.
Hypothesis shadow_on : no_shadow_space = false.

Record memory_rel (sl : Z -> X) (dt m : mem) : Prop := {
  slot_ok : forall a, pointer_slot a = true -> rep_ok (sl a);
  slot_value : forall a, pointer_slot a = true -> load8 m a = rep_value (sl a);
  slot_bounds : forall a, pointer_slot a = true -> rep_value (sl a) <> 0 ->
    entry m a = rep_bounds (sl a);
  data_eq : forall i, data_byte i -> byte m i = byte dt i;
}.

Lemma memory_rel_store_pointer sl dt m a p :
  memory_rel sl dt m -> pointer_slot a = true -> rep_ok p ->
  memory_rel (<[a := p]> sl) dt
    (store8 (shadow_store_bounds_for m a (rep_bounds p) true) a (rep_value p)).
Proof.
  intros [Hw Hv Hb Hd] Ha Hp. pose proof (slot_aligned a Ha) as Hsa.
  assert (one_range a (Z.of_nat 8)) as Hra by (destruct Hsa; done).
  split; intros b Hsb.
  - destruct (decide (a = b)) as [->|];
      [by rewrite fn_lookup_insert|rewrite fn_lookup_insert_ne by done; by apply Hw].
  - destruct (decide (a = b)) as [->|Hne].
    + rewrite fn_lookup_insert. apply load8_store8. by apply rep_u64.
    + pose proof (slot_aligned b Hsb) as Hb'. rewrite fn_lookup_insert_ne, <- Hv by done.
      pose proof (slots_apart a b Hsa Hb' Hne). rewrite load8_store8_ne by lia.
      apply load_ext. intros i Hi. apply byte_shadow_store; [done|]. by apply (slot_bytes b).
  - pose proof (slot_aligned b Hsb) as Hb'. unfold store8. rewrite entry_user_write by done.
    destruct (decide (a = b)) as [->|Hne].
    + intros _. rewrite fn_lookup_insert, entry_store_same by (done || by apply rep_storable).
      apply shadow_image_storable. by apply rep_storable.
    + rewrite fn_lookup_insert_ne, entry_store_other by done. by apply Hb.
  - destruct Hsb as [[Hu Hres] Hout]. unfold store8.
    rewrite byte_store_other by (destruct (Hout a Ha); lia).
    rewrite byte_shadow_store by done. by apply Hd.
Qed.

Lemma memory_rel_write sl dt m a n v :
  memory_rel sl dt m -> one_range a (Z.of_nat n) -> data_range a n = true ->
  memory_rel sl (store dt a n v) (store m a n v).
Proof.
  intros [Hw Hv Hb Hd] Ha Hout. split; [done| | |]; intros b Hsb.
  - rewrite <- Hv by done. apply load_store_other. destruct (data_range_spec _ _ b Hout Hsb); lia.
  - rewrite entry_user_write by (done || by apply slot_aligned). by apply Hb.
  - apply byte_store_congr. by apply Hd.
Qed.

Lemma memory_rel_read sl dt m a n :
  memory_rel sl dt m -> one_range a (Z.of_nat n) -> data_range a n = true -> load m a n = load dt a n.
Proof.
  intros Hm Ha Hout. apply load_ext. intros i Hi. apply (data_eq _ _ _ Hm).
  by apply (data_range_bytes a n).
Qed.

(** A block copy, and the hook that copies its shadow. *)
Lemma memory_rel_copy (real : mem -> Z -> Z -> Z -> mem) sl dt m d s n :
  (forall m d s n i, byte (real m d s n) i = byte m i) ->
  memory_rel sl dt m -> one_range d (Z.of_nat n) -> one_range s (Z.of_nat n) -> (0 < n)%nat ->
  copy_range d s n = true ->
  memory_rel (copy_slots d s n sl) (memmove dt d s (Z.of_nat n))
    (wrap_notify_copy real true (memmove m d s (Z.of_nat n)) d s (Z.of_nat n)).
Proof.
  intros Hreal [Hw Hv Hb Hd] Hrd Hrs Hn Hok. destruct (copy_range_aligned _ _ _ Hok) as (Hdm & Hsm & Hnm).
  pose proof (one_range_cases _ _ Hrd) as Hcases.
  assert (Huser : forall m i, shadowable i = true -> byte (wrap_notify_copy real true m d s (Z.of_nat n)) i = byte m i)
    by (intros; by apply byte_notify_copy).
  (* an aligned slot is in the block or outside of it *)
  assert (Hin : forall a, slot a -> d <= a < d + Z.of_nat n -> a + 8 <= d + Z.of_nat n) by (intros a [_ Ha] ?; mod_lia).
  assert (Hsl : forall a, slot a -> a < d \/ d + Z.of_nat n <= a -> a + 8 <= d \/ d + Z.of_nat n <= a)
    by (intros a [_ Ha] ?; mod_lia).
  split.
  - intros a Ha. unfold copy_slots. destruct (Z.leb_spec d a), (Z.ltb_spec a (d + Z.of_nat n)); cbn [andb]; try by apply Hw.
    apply Hw. by rewrite <- (proj1 (copy_range_at _ _ _ a Hok ltac:(lia))).
  - intros a Ha. pose proof (slot_aligned a Ha) as Hsa.
    assert (Hl : load8 (wrap_notify_copy real true (memmove m d s (Z.of_nat n)) d s (Z.of_nat n)) a =
      load8 (memmove m d s (Z.of_nat n)) a) by (apply load_ext; intros i Hi; apply Huser; by apply (slot_bytes a)).
    rewrite Hl. unfold copy_slots, load8. destruct (Z.leb_spec d a), (Z.ltb_spec a (d + Z.of_nat n)); cbn [andb].
    2-4: rewrite load_memmove_out by (destruct (Hsl a Hsa); lia); by apply Hv.
    specialize (Hin a Hsa ltac:(lia)). rewrite <- (Hv (a - d + s)) by by rewrite <- (proj1 (copy_range_at _ _ _ a Hok ltac:(lia))).
    replace a with (d + (a - d)) at 1 by lia. rewrite load_memmove_in by lia. unfold load8. f_equal. lia.
  - intros a Ha Hnz. pose proof (slot_aligned a Ha) as Hsa.
    rewrite (entry_notify_copy real Hreal (memmove m d s (Z.of_nat n)) d s (Z.of_nat n) a Hsa)
      by (split; [done|]; split; [done|]; lia).
    unfold copy_slots in *. destruct (Z.leb_spec d a), (Z.ltb_spec a (d + Z.of_nat n)); cbn [andb] in *.
    2-4: rewrite entry_user_memmove by done; by apply Hb.
    pose proof (proj1 (copy_range_at _ _ _ a Hok ltac:(lia))) as Hps. rewrite Ha in Hps.
    rewrite entry_user_memmove by (done || by apply slot_aligned). by apply Hb.
  - intros i Hi. rewrite Huser by apply Hi.
    destruct (decide (d <= i < d + Z.of_nat n)) as [Hr|Hr].
    + replace i with (d + (i - d)) by lia. rewrite !byte_memmove_in by lia. replace (s + (i - d)) with (i - d + s) by lia.
      apply Hd. destruct (copy_range_at _ _ _ i Hok Hr) as (_ & _ & Hres). split; [split; [|done]|].
      * replace (i - d + s) with (s + (i - d)) by lia. by apply (one_range_shadowable s (Z.of_nat n)); [|lia].
      * intros t Ht. destruct (slot_aligned t Ht) as [_ Htm].
        destruct (decide (t <= i - d + s < t + 8)) as [Hc|]; [|lia]. exfalso.
        assert (Hti : d <= t - s + d < d + Z.of_nat n) by mod_lia.
        pose proof (proj1 (copy_range_at _ _ _ _ Hok Hti)) as Hps. replace (t - s + d - d + s) with t in Hps by lia.
        rewrite Ht in Hps. destruct Hi as [_ Hout]. specialize (Hout _ Hps). lia.
    + rewrite !byte_memmove_out by lia. by apply Hd.
Qed.

(** Reserved bytes do not matter. *)
Lemma entry_reserved m m' a :
  slot a -> (forall i, reserved i = false -> byte m' i = byte m i) -> entry m' a = entry m a.
Proof.
  intros Ha Hm. apply entry_ext; intros i Hi; apply Hm; apply not_true_is_false;
    intros Hr%reserved_user; destruct (shadow_entries_not_user a i Ha) as [Hb Hs];
    [rewrite Hb in Hr by done|rewrite Hs in Hr by done]; done.
Qed.

Lemma memory_rel_reserved sl dt m m' :
  memory_rel sl dt m -> (forall i, reserved i = false -> byte m' i = byte m i) ->
  memory_rel sl dt m'.
Proof.
  intros [Hw Hv Hb Hd] Hm. split; [done| | |]; intros a Ha.
  - rewrite <- Hv by done. apply load_ext. intros i Hi. apply Hm. by apply (slot_unreserved a).
  - rewrite (entry_reserved m) by (done || by apply slot_aligned). by apply Hb.
  - rewrite Hm by apply Ha. by apply Hd.
Qed.

(** A pointer that comes out of memory comes with its bounds. *)
Lemma fetch_slot sl dt m a :
  memory_rel sl dt m -> pointer_slot a = true -> a <> 0 ->
  fetch_bounds_inl m (load8 m a) a =
    if rep_value (sl a) =? 0 then make_bounds 0 1 else rep_bounds (sl a).
Proof.
  intros Hm Ha Ha0. rewrite (slot_value _ _ _ Hm) by done.
  destruct (Z.eqb_spec (rep_value (sl a)) 0) as [->|Hnz].
  - unfold fetch_bounds_inl, fetch_bounds_from_shadow_space. by rewrite shadow_on.
  - rewrite fetch_entry by done. by apply (slot_bounds _ _ _ Hm).
Qed.
End relation.
