(* ===== verification/Program.v ===== *)
(** * Instrumented programs

    What the parts make together.  [frontend/c/crunchbound/crunchbound.ml] keeps
    the bounds of every local pointer in a variable beside it, checks every
    derivation ([__full_check_derive_ptr]), loads bounds with pointers
    ([__fetch_bounds_inl]) and stores them with pointers
    ([__store_pointer_nonlocal]); block copies are made by libc, whose wrappers in
    liballocs call [__notify_copy].  This file models the pointer instructions of
    a program so instrumented, and an ideal machine in which a pointer knows
    its object, and shows that the first refines the second: a program makes the
    accesses the ideal machine allows and faults where the ideal machine stops
    it.  A fault ends the run here; [Transparency.v] adds the handler, and the
    spatial safety that is left with it.  Reports of bad derivations are events; that the reporter itself may end the
    process ([Fetch.v], [stopped]) is not. *)
From stdpp Require Import functions.
From S2P Require Import Prelude Config TrapPtr Bounds Derive Memory ShadowSpace Report.
From S2P Require Import Runtime TinyAllocs Fetch SlotMemory.

(** The instructions of a program that deal in pointers; a register is a local
    pointer variable.  [deref] says that the derived pointer is dereferenced
    at once, which makes the front end emit a dereference check too. *)
Abbreviation reg := nat.
Inductive instr (U : Type) :=
| IAddr (r : reg) (b l : Z)
| INull (r : reg)
| IMove (r q : reg)
| IDerive (deref : bool) (r q : reg) (d : Z) (t : U)
| ILoad (r q : reg)
| IStore (q r : reg) (t : U)
| IRead (q : reg) (n : nat)
| IWrite (q : reg) (n : nat) (v : Z)
| ICopy (q r : reg) (n : nat).
Arguments IAddr {U}. Arguments INull {U}. Arguments IMove {U}. Arguments IDerive {U}.
Arguments ILoad {U}. Arguments IStore {U}. Arguments IRead {U}. Arguments IWrite {U}. Arguments ICopy {U}.

(** What can be seen of a run: the verdict of each derivation check, the memory
    accesses with the data they move, and the fix-ups that the fault handler counts
    ([Transparency.v]). *)
Inductive event :=
| Derived (ok : bool)
| Loaded (a : Z)
| Stored (a : Z)
| Read (a : Z) (n : nat) (v : Z)
| Wrote (a : Z) (n : nat) (v : Z)
| CopiedFrom (a : Z) (n : nat)
| CopiedTo (a : Z) (n : nat)
| FixedUp.
#[export] Instance event_eq_dec : EqDecision event.
Proof. solve_decision. Defined.
Definition footprint (e : event) : option (Z * Z) :=
  match e with
  | Derived _ | FixedUp => None
  | Loaded a | Stored a => Some (a, 8)
  | Read a n _ | Wrote a n _ | CopiedFrom a n | CopiedTo a n => Some (a, Z.of_nat n)
  end.

(** Where a step leads: on, to a memory fault, to a check that aborts, or into
    undefined behaviour. *)
Inductive status (S : Type) := Going (s : S) | Trapped | Stopped | Lost.
Arguments Going {S}. Arguments Trapped {S}. Arguments Stopped {S}. Arguments Lost {S}.

Fixpoint run {U S : Type} (step : instr U -> S -> list event * status S)
    (prog : list (instr U)) (s : S) : list event * status S :=
  match prog with
  | [] => ([], Going s)
  | i :: prog =>
      let '(ev, out) := step i s in
      match out with
      | Going s => let '(ev', out) := run step prog s in (ev ++ ev', out)
      | _ => (ev, out)
      end
  end.

(** The platform: which accesses the memory-management unit lets through, the
    live objects of the program, and which addresses hold pointers; and the hook
    of liballocs that is told of block copies. *)
Class Platform := {
  platform_slots :: SlotLayout;
  mapped : Z -> Z -> bool;
  live : Z -> Z -> bool;
  real_notify_copy : mem -> Z -> Z -> Z -> mem;
}.
(** Non-canonical addresses and the zero page are never mapped; live objects
    are, within one of the shadowed ranges and small enough for the 32-bit
    sizes of the shadow space; pointers are aligned. *)
Class PlatformLaws (P : Platform) : Prop := {
  mapped_canonical : forall a n, 0 < n -> mapped a n = true -> a < 2 ^ 49;
  mapped_not_null : forall n, mapped 0 n = false;
  mapped_live : forall b l a n, live b l = true -> b <= a -> 0 < n -> a + n <= l -> mapped a n = true;
  live_range : forall b l, live b l = true -> 4096 <= b < l /\ l - b < 2 ^ 32 - 1 /\ one_range b (l - b);
  platform_slot_laws :: SlotLaws platform_slots;
  real_notify_copy_bytes : forall m d s n i, byte (real_notify_copy m d s n) i = byte m i;
}.

(** ** The instrumented machine *)
Section machine.
Context `{C : Config} `{P : Platform} {St U : Type} `{ShadowEnv St U}.

(** Every register has its bounds variable beside it. *)
Record machine := Machine { regs : reg -> Z * bounds; env : St }.
Definition set_reg (r : reg) (x : Z * bounds) (s : machine) : machine :=
  Machine (<[r := x]> (regs s)) (env s).
Definition set_env (st : St) (s : machine) : machine := Machine (regs s) st.

(** [hoistAndCheckAdjustment]: the bounds of the derived pointer are copied
    before the check, which may replace those of the pointer derived from. *)
Definition derive_instr (deref : bool) (r q : reg) (d : Z) (t : U) (s : machine)
    : list event * status machine :=
  let '(p, B) := regs s q in
  match full_check_derive_ptr (env s) (p +w d) p B (Some t) with
  | Ret (ok, p', B', st) =>
      let s := set_reg r (p', B) (set_reg q (p, B') (set_env st s)) in
      if deref then
        match check_deref (env s) p' B' with
        | Ret (_, st) => ([Derived ok], Going (set_env st s))
        | Abort => ([Derived ok], Stopped)
        | Unreachable => ([Derived ok], Lost)
        end
      else ([Derived ok], Going s)
  | Abort => ([], Stopped)
  | Unreachable => ([], Lost)
  end.

(** [localBoundsUpdateInstrs] for a pointer loaded from memory. *)
Definition load_instr (r q : reg) (s : machine) : list event * status machine :=
  let '(p, _) := regs s q in
  if mapped p 8 then
    let v := load8 (st_mem (env s)) p in
    ([Loaded p], Going (set_reg r (v, fetch_bounds_inl (st_mem (env s)) v p) s))
  else ([], Trapped).

(** [doNonLocalPointerStoreInstr]: the bounds are stored before the pointer.
    (A tagged [p] has no canonical shadow address either, so that the fault may
    come from the shadow access.) *)
Definition store_instr (q r : reg) (t : U) (s : machine) : list event * status machine :=
  let '(p, _) := regs s q in
  let '(v, B) := regs s r in
  match store_pointer_nonlocal (env s) p v B (Some t) with
  | Ret st =>
      if mapped p 8
      then ([Stored p], Going (set_env (set_mem (store8 (st_mem st) p v) st) s))
      else ([], Trapped)
  | Abort => ([], Stopped)
  | Unreachable => ([], Lost)
  end.

(** [memcpy], or [memmove]: not instrumented, but liballocs has it call its copy
    hook, which libcrunch wraps. *)
Definition copy_instr (q r : reg) (n : nat) (s : machine) : list event * status machine :=
  let '(p, _) := regs s q in
  let '(v, _) := regs s r in
  if mapped v (Z.of_nat n) && mapped p (Z.of_nat n)
  then ([CopiedFrom v n; CopiedTo p n],
        Going (set_env (set_mem (wrap_notify_copy real_notify_copy true
          (memmove (st_mem (env s)) p v (Z.of_nat n)) p v (Z.of_nat n)) (env s)) s))
  else ([], Trapped).

Definition inst_step (i : instr U) (s : machine) : list event * status machine :=
  match i with
  | IAddr r b l => ([], Going (set_reg r (b, make_bounds b l) s))
  | INull r => ([], Going (set_reg r (0, make_bounds 0 1) s))
  | IMove r q => ([], Going (set_reg r (regs s q) s))
  | IDerive deref r q d t => derive_instr deref r q d t s
  | ILoad r q => load_instr r q s
  | IStore q r t => store_instr q r t s
  | IRead q n =>
      let '(p, _) := regs s q in
      if mapped p (Z.of_nat n)
      then ([Read p n (load (st_mem (env s)) p n)], Going s) else ([], Trapped)
  | IWrite q n v =>
      let '(p, _) := regs s q in
      if mapped p (Z.of_nat n)
      then ([Wrote p n v], Going (set_env (set_mem (store (st_mem (env s)) p n v) (env s)) s))
      else ([], Trapped)
  | ICopy q r n => copy_instr q r n s
  end.
End machine.
Arguments machine : clear implicits.
Arguments Machine {St}. 

(** ** The ideal machine

    A pointer is an address and the object it was derived from; the null
    pointer has the one-byte object at 0, which cannot be accessed. *)
Record aptr := APtr { pbase : Z; plimit : Z; paddr : Z }.
Definition anull : aptr := APtr 0 1 0.
Definition accessible (p : aptr) : bool :=
  negb (pbase p =? 0) && in_object (pbase p) (plimit p) (paddr p).

(** Pointers and data are kept apart: a slot holds a pointer whole. *)
Record ideal := Ideal { aregs : reg -> aptr; slots : Z -> aptr; data : mem }.
Definition set_areg (r : reg) (p : aptr) (s : ideal) : ideal :=
  Ideal (<[r := p]> (aregs s)) (slots s) (data s).

Section ideal.
Context `{C : Config} {U : Type}.

Definition ideal_step (i : instr U) (s : ideal) : list event * status ideal :=
  match i with
  | IAddr r b l => ([], Going (set_areg r (APtr b l b) s))
  | INull r => ([], Going (set_areg r anull s))
  | IMove r q => ([], Going (set_areg r (aregs s q) s))
  | IDerive _ r q d _ =>
      let '(APtr b l a) := aregs s q in
      if negb (in_reach b l (a + d)) && abort_on_invalid_derive then ([], Stopped)
      else ([Derived (in_reach b l (a + d))], Going (set_areg r (APtr b l (a + d)) s))
  | ILoad r q =>
      let p := aregs s q in
      if accessible p then ([Loaded (paddr p)], Going (set_areg r (slots s (paddr p)) s))
      else ([], Trapped)
  | IStore q r _ =>
      let p := aregs s q in
      if accessible p
      then ([Stored (paddr p)], Going (Ideal (aregs s) (<[paddr p := aregs s r]> (slots s)) (data s)))
      else ([], Trapped)
  | IRead q n =>
      let p := aregs s q in
      if accessible p then ([Read (paddr p) n (load (data s) (paddr p) n)], Going s)
      else ([], Trapped)
  | IWrite q n v =>
      let p := aregs s q in
      if accessible p
      then ([Wrote (paddr p) n v], Going (Ideal (aregs s) (slots s) (store (data s) (paddr p) n v)))
      else ([], Trapped)
  | ICopy q r n =>
      let p := aregs s q in
      let v := aregs s r in
      if accessible v && accessible p
      then ([CopiedFrom (paddr v) n; CopiedTo (paddr p) n],
            Going (Ideal (aregs s) (copy_slots (paddr p) (paddr v) n (slots s))
              (memmove (data s) (paddr p) (paddr v) (Z.of_nat n))))
      else ([], Trapped)
  end.
End ideal.

(** ** The discipline

    What the program has to respect for its checks to be enough: addresses are
    taken of live objects; no pointer outside its object (one-past ones
    included) is used to derive another one outside it; accesses are aligned to
    their objects; and pointers are loaded and stored as pointers. *)
Section discipline.
Context `{P : Platform} {U : Type}.

Definition respects (i : instr U) (s : ideal) : bool :=
  match i with
  | IAddr _ b l => live b l
  | INull _ | IMove _ _ => true
  | IDerive _ _ q d _ =>
      let '(APtr b l a) := aregs s q in
      in_object 0 (2 ^ 48) (a + d) && (in_object b l a || in_object b l (a + d))
  | ILoad _ q | IStore q _ _ =>
      let p := aregs s q in
      implb (accessible p) (pointer_slot (paddr p) && (paddr p + 8 <=? plimit p))
  | IRead q n | IWrite q n _ =>
      let p := aregs s q in
      (0 <? n)%nat &&
      implb (accessible p) (data_range (paddr p) n && (paddr p + Z.of_nat n <=? plimit p))
  | ICopy q r n =>
      let p := aregs s q in
      let v := aregs s r in
      (0 <? n)%nat &&
      implb (accessible p) (paddr p + Z.of_nat n <=? plimit p) &&
      implb (accessible v) (paddr v + Z.of_nat n <=? plimit v) &&
      implb (accessible v && accessible p) (copy_range (paddr p) (paddr v) n)
  end.

Fixpoint disciplined `{C : Config} (prog : list (instr U)) (s : ideal) : bool :=
  match prog with
  | [] => true
  | i :: prog =>
      respects i s &&
      match (ideal_step i s).2 with Going s => disciplined prog s | _ => true end
  end.
End discipline.

(** ** The representation of pointers

    A pointer is its address, tagged when it is outside its object, beside the
    bounds of the object. *)
Definition value `{Config} (p : aptr) : Z :=
  libcrunch_trap (paddr p) (next_tag (pbase p) (plimit p) (paddr p) 0).
Definition pbounds (p : aptr) : bounds := object_bounds (pbase p) (plimit p).
Definition wf_ptr `{Platform} (p : aptr) : Prop :=
  (pbase p = 0 /\ plimit p = 1 \/ live (pbase p) (plimit p) = true) /\ user_addr (paddr p).

#[export] Instance aptr_rep `{Config} `{Platform} : PtrRep aptr := {|
  rep_value := value; rep_bounds := pbounds; rep_ok := wf_ptr;
|}.

(** What reporting a bad derivation leaves alone. *)
Class ReportLaws (St U : Type) `{ShadowEnv St U} : Prop := {
  st_mem_error : forall (st : St) d df B, st_mem (bounds_error st d df B) = st_mem st;
}.

Section refinement.
Context `{SC : SplitConfig} `{PL : PlatformLaws} {St U : Type}.
Context `{SE : ShadowEnv St U} `{!ShadowEnvLaws St U} `{!ReportLaws St U}.
Hypothesis shadow_on : no_shadow_space = false.

Record related (s : ideal) (c : machine St) : Prop := {
  reg_wf : forall r, wf_ptr (aregs s r);
  reg_rep : forall r, regs c r = (value (aregs s r), pbounds (aregs s r));
  mem_rep : memory_rel (X := aptr) (slots s) (data s) (st_mem (env c));
}.
Definition status_related (a : status ideal) (c : status (machine St)) : Prop :=
  match a, c with
  | Going s, Going c => related s c
  | Trapped, Trapped | Stopped, Stopped => True
  | _, _ => False
  end.
Definition step_refines (a : list event * status ideal) (c : list event * status (machine St)) : Prop :=
  c.1 = a.1 /\ status_related a.2 c.2.

(** *** Facts on pointers *)
Lemma one_range_user b n : one_range b n -> 0 < n -> 0 <= b /\ b + n <= 2 ^ 47.
Proof. intros Hr%one_range_cases Hn. lia. Qed.

Lemma wf_object p : wf_ptr p -> 0 <= pbase p < plimit p /\ user_addr (plimit p).
Proof.
  intros [[[-> ->]|Hl] _]; [by split|]. apply live_range in Hl as (Hb & _ & Hr).
  apply one_range_user in Hr; unfold user_addr; lia.
Qed.

Lemma wf_null : wf_ptr anull.
Proof. split; [by left|by split]. Qed.

Lemma value_null : value anull = 0.
Proof. unfold value, anull; cbn. apply trap_0. Qed.

Lemma value_inside p : in_object (pbase p) (plimit p) (paddr p) = true -> value p = paddr p.
Proof. unfold value, next_tag. intros ->. apply trap_0. Qed.

Lemma value_outside p :
  wf_ptr p -> in_object (pbase p) (plimit p) (paddr p) = false -> 2 ^ 49 <= value p.
Proof.
  intros [_ Ha] Hio. unfold value, next_tag. rewrite Hio.
  unfold LIBCRUNCH_TRAP_ONE_PAST, LIBCRUNCH_TRAP_INVALID, user_addr in *.
  destruct (_ =? _); rewrite Z.lxor_0_l, trap_user_add by (unfold user_addr; lia); lia.
Qed.

Lemma value_u64 p : wf_ptr p -> u64 (value p).
Proof.
  intros [_ Ha]. unfold value. pose proof (next_tag_range (pbase p) (plimit p) (paddr p) 0 ltac:(lia)).
  rewrite trap_user_add by done. unfold user_addr, u64 in *. lia.
Qed.

(** A pointer is null exactly when its value is. *)
Lemma value_zero p : wf_ptr p -> value p = 0 -> p = anull.
Proof.
  intros Hw Hv. destruct (in_object (pbase p) (plimit p) (paddr p)) eqn:Hio.
  - rewrite value_inside in Hv by done. destruct p as [b l a]; cbn in *. subst a.
    destruct Hw as [[[Hb Hl]|Hl] _]; cbn in *; [by subst|].
    apply live_range in Hl. destruct (in_object_spec b l 0); lia || done.
  - apply value_outside in Hio; [lia|done].
Qed.

(** The hardware stops exactly the accesses the ideal machine does. *)
Lemma mapped_accessible p n :
  wf_ptr p -> 0 < n -> (accessible p = true -> paddr p + n <= plimit p) ->
  mapped (value p) n = accessible p.
Proof.
  intros Hw Hn Hfit. unfold accessible in *.
  destruct (in_object (pbase p) (plimit p) (paddr p)) eqn:Hio.
  - rewrite value_inside by done. destruct (in_object_spec (pbase p) (plimit p) (paddr p)); [|done].
    destruct Hw as [[[Hb Hl]|Hl] _].
    + rewrite Hb, Hl in *. replace (paddr p) with 0 by lia. apply mapped_not_null.
    + pose proof (live_range _ _ Hl). rewrite (proj2 (Z.eqb_neq _ _)) in * by lia.
      rewrite (mapped_live _ _ _ _ Hl) by (specialize (Hfit eq_refl); lia). done.
  - rewrite andb_false_r. apply not_true_is_false. intros Hm%mapped_canonical; [|done].
    apply value_outside in Hio; [lia|done].
Qed.

Lemma accessible_value p : accessible p = true -> value p = paddr p.
Proof. intros [_ Hio]%andb_prop. by apply value_inside. Qed.

Lemma accessible_live p :
  wf_ptr p -> accessible p = true -> live (pbase p) (plimit p) = true /\ pbase p <= paddr p < plimit p.
Proof.
  intros [[[Hb Hl]|Hl] _] Ha; unfold accessible in Ha; [by rewrite Hb in Ha|].
  split; [done|]. destruct (in_object_spec (pbase p) (plimit p) (paddr p)); [done|].
  by rewrite andb_false_r in Ha.
Qed.

(** Bounds of objects survive the shadow space. *)
Lemma pbounds_storable p : wf_ptr p -> storable (pbounds p).
Proof.
  intros Hw. pose proof (wf_object p Hw) as [Hb Hl]. unfold user_addr in Hl.
  split; unfold pbounds, object_bounds; cbn [base size]; [unfold u64; lia|].
  left. destruct Hw as [[[-> ->]|Hlive] _]; [lia|]. apply live_range in Hlive. lia.
Qed.
Lemma pbounds_valid p v : wf_ptr p -> libcrunch_bounds_invalid (pbounds p) v = false.
Proof.
  intros Hw%wf_object. unfold libcrunch_bounds_invalid, pbounds, object_bounds; cbn [size]. lia.
Qed.
#[export] Instance aptr_rep_laws : PtrRepLaws aptr.
Proof. split; [apply value_u64|apply pbounds_storable]. Qed.
Lemma make_bounds_object b l :
  0 <= b < l -> user_addr l -> make_bounds b l = object_bounds b l.
Proof. intros Hb Hl. unfold user_addr in Hl. by rewrite make_bounds_wide by (unfold u64; lia). Qed.

(** *** What the discipline says *)
Lemma respects_slot p :
  implb (accessible p) (pointer_slot (paddr p) && (paddr p + 8 <=? plimit p)) = true ->
  (accessible p = true -> pointer_slot (paddr p) = true /\ paddr p + 8 <= plimit p).
Proof. destruct (accessible p); [|done]. by intros [? ?%Z.leb_le]%andb_prop. Qed.

Lemma respects_data p n :
  (0 <? n)%nat && implb (accessible p)
    (data_range (paddr p) n && (paddr p + Z.of_nat n <=? plimit p)) = true ->
  (0 < n)%nat /\
  (accessible p = true -> data_range (paddr p) n = true /\ paddr p + Z.of_nat n <= plimit p).
Proof.
  intros [Hn%Nat.ltb_lt Hr]%andb_prop. split; [done|]. intros Ha. rewrite Ha in Hr.
  by apply andb_prop in Hr as [? ?%Z.leb_le].
Qed.

(** *** Registers *)
Lemma related_set_reg s c r p :
  related s c -> wf_ptr p ->
  related (set_areg r p s) (set_reg r (value p, pbounds p) c).
Proof.
  intros [Hw Hr Hm] Hp. split; [| |done]; intros r'; cbn;
    destruct (decide (r = r')) as [->|]; by rewrite ?fn_lookup_insert, ?fn_lookup_insert_ne.
Qed.

(** Writing back what a register holds. *)
Lemma related_refresh s c r :
  related s c -> related s (set_reg r (value (aregs s r), pbounds (aregs s r)) c).
Proof.
  intros [Hw Hr Hm]. split; [done| |done]. intros r'; cbn.
  destruct (decide (r = r')) as [->|]; by rewrite ?fn_lookup_insert, ?fn_lookup_insert_ne.
Qed.

Lemma related_set_env s c st :
  related s c -> st_mem st = st_mem (env c) -> related s (set_env st c).
Proof. intros [Hw Hr Hm] He. split; [done|done|]. cbn. by rewrite He. Qed.

(** *** Derivations *)

(** In a disciplined derivation the tags do not accumulate. *)
Lemma tame_next_tag b l a d :
  in_object b l a || in_object b l (a + d) = true ->
  next_tag b l (a + d) (next_tag b l a 0) = next_tag b l (a + d) 0.
Proof.
  intros Ht. unfold next_tag at 1 3. destruct (in_object b l (a + d)); [done|].
  rewrite orb_false_r in Ht. unfold next_tag. by rewrite Ht.
Qed.

Lemma derive_value (st : St) p d (t : option U) :
  wf_ptr p -> user_addr (paddr p + d) ->
  in_object (pbase p) (plimit p) (paddr p) || in_object (pbase p) (plimit p) (paddr p + d) = true ->
  let p' := APtr (pbase p) (plimit p) (paddr p + d) in
  let ok := in_reach (pbase p) (plimit p) (paddr p + d) in
  if negb ok && abort_on_invalid_derive
  then full_check_derive_ptr st (value p +w d) (value p) (pbounds p) t = Abort
  else exists st', full_check_derive_ptr st (value p +w d) (value p) (pbounds p) t =
         Ret (ok, value p', pbounds p, st') /\
       (st' = st \/ exists d df B, st' = bounds_error st d df B).
Proof.
  intros Hw Hd Ht. cbn zeta. pose proof (wf_object p Hw) as [Hb Hl]. destruct Hw as [_ Ha].
  pose proof (next_tag_range (pbase p) (plimit p) (paddr p) 0 ltac:(lia)) as Htag.
  unfold value, pbounds; cbn [pbase plimit paddr].
  rewrite trap_add, full_check_split, tame_next_tag by done.
  destruct (in_reach _ _ _); cbn [negb andb]; [by eexists; split; [|left]|].
  destruct abort_on_invalid_derive; [done|]. eexists; split; [done|]. right. by do 3 eexists.
Qed.

Lemma derive_refines s c deref r q d (t : U) :
  related s c -> respects (IDerive deref r q d t) s = true ->
  step_refines (ideal_step (IDerive deref r q d t) s) (inst_step (IDerive deref r q d t) c).
Proof.
  intros Hrel. pose proof (reg_wf _ _ Hrel q) as Hw. pose proof (reg_rep _ _ Hrel q) as Hq.
  cbn [respects ideal_step inst_step]. unfold derive_instr. rewrite Hq.
  destruct (aregs s q) as [b l a] eqn:Has. intros [Hd Ht]%andb_prop.
  destruct (in_object_spec 0 (2 ^ 48) (a + d)) as [Hd'|]; [clear Hd; rename Hd' into Hd|done].
  pose proof (derive_value (env c) _ d (Some t) Hw Hd Ht) as Hder. cbn in Hder.
  assert (wf_ptr (APtr b l (a + d))) as Hw' by (destruct Hw as [Hobj _]; by split).
  destruct (negb _ && _); [by rewrite Hder|].
  destruct Hder as (st' & -> & Hst').
  assert (st_mem st' = st_mem (env c)) as Hst
    by (destruct Hst' as [->|(? & ? & ? & ->)]; [done|apply st_mem_error]).
  assert (related (set_areg r (APtr b l (a + d)) s)
    (set_reg r (value (APtr b l (a + d)), pbounds (APtr b l a))
      (set_reg q (value (APtr b l a), pbounds (APtr b l a)) (set_env st' c)))) as Hrel'.
  { apply (related_set_reg _ _ r (APtr b l (a + d))); [|done].
    rewrite <- Has. apply related_refresh. by apply related_set_env. }
  destruct deref; [|done]. unfold check_deref. by rewrite split_counts, trap_on.
Qed.

(** *** Memory *)

(** An access inside its object stays in one range. *)
Lemma access_range p n :
  wf_ptr p -> accessible p = true -> paddr p + n <= plimit p -> one_range (paddr p) n.
Proof.
  intros Hw Ha Hn. destruct (accessible_live p Hw Ha) as [(_ & _ & Hr)%live_range Hin].
  unfold one_range in *. eapply Exists_impl; [exact Hr|]. cbn. lia.
Qed.

(** *** Loads and stores *)

(** A pointer that comes out of memory comes with the bounds of its object. *)
Lemma fetch_pointer sl dt m a :
  memory_rel sl dt m -> pointer_slot a = true -> a <> 0 ->
  fetch_bounds_inl m (load8 m a) a = pbounds (sl a).
Proof.
  intros Hm Ha Ha0. rewrite (fetch_slot shadow_on _ _ _ _ Hm) by done. cbn [rep_value rep_bounds aptr_rep].
  destruct (Z.eqb_spec (value (sl a)) 0) as [Hz|]; [|done].
  rewrite (value_zero (sl a)) by (done || by apply (slot_ok _ _ _ Hm)). by apply make_bounds_object.
Qed.

Lemma accessible_nonzero p : wf_ptr p -> accessible p = true -> paddr p <> 0.
Proof. intros Hw Ha. destruct (accessible_live p Hw Ha) as [Hl%live_range ?]. lia. Qed.

Lemma load_refines s c r q :
  related s c -> respects (U := U) (ILoad r q) s = true ->
  step_refines (ideal_step (U := U) (ILoad r q) s) (inst_step (ILoad r q) c).
Proof.
  intros Hrel. pose proof (reg_wf _ _ Hrel q) as Hw. pose proof (mem_rep _ _ Hrel) as Hm.
  cbn [respects ideal_step inst_step]. unfold load_instr. rewrite (reg_rep _ _ Hrel q).
  intros Hok0. pose proof (respects_slot _ Hok0) as Hok. rewrite mapped_accessible by (done || lia || intros; by apply Hok).
  destruct (accessible (aregs s q)) eqn:Ha; [|done]. destruct (Hok eq_refl) as [Hs _].
  rewrite accessible_value, (fetch_pointer _ _ _ _ Hm), (slot_value _ _ _ Hm)
    by (done || by apply accessible_nonzero).
  split; [done|]. apply related_set_reg; [done|]. by apply (slot_ok _ _ _ Hm).
Qed.

(** With valid bounds at hand the store hook writes the shadow entry. *)
Lemma store_hook (st : St) a v B (t : U) :
  libcrunch_bounds_invalid B v = false ->
  store_pointer_nonlocal st a v B (Some t) =
    Ret (set_mem (shadow_store_bounds_for (st_mem st) a B true) st).
Proof.
  intros Hv. unfold store_pointer_nonlocal. rewrite split_counts, shadow_on, Hv.
  cbn [mbind outcome_bind]. by rewrite Hv.
Qed.

Lemma store_refines s c q r (t : U) :
  related s c -> respects (IStore q r t) s = true ->
  step_refines (ideal_step (IStore q r t) s) (inst_step (IStore q r t) c).
Proof.
  intros Hrel. pose proof (reg_wf _ _ Hrel q) as Hw. pose proof (reg_wf _ _ Hrel r) as Hr.
  cbn [respects ideal_step inst_step]. unfold store_instr.
  rewrite (reg_rep _ _ Hrel q), (reg_rep _ _ Hrel r), store_hook by by apply pbounds_valid.
  intros Hok0. pose proof (respects_slot _ Hok0) as Hok. rewrite mapped_accessible by (done || lia || intros; by apply Hok).
  destruct (accessible (aregs s q)) eqn:Ha; [|done]. destruct (Hok eq_refl) as [Hs _].
  rewrite accessible_value by done. split; [done|]. cbn [snd status_related].
  destruct Hrel as [Hw' Hr' Hm]. split; [done|done|]. cbn [env slots data set_env].
  rewrite !st_mem_set. exact (memory_rel_store_pointer _ _ _ (paddr (aregs s q)) (aregs s r) Hm Hs Hr).
Qed.

(** Reading and writing data: the hardware and the ideal machine agree. *)
Lemma data_access s c q n :
  related s c -> (0 < n)%nat ->
  (accessible (aregs s q) = true ->
    data_range (paddr (aregs s q)) n = true /\ paddr (aregs s q) + Z.of_nat n <= plimit (aregs s q)) ->
  mapped (value (aregs s q)) (Z.of_nat n) = accessible (aregs s q) /\
  (accessible (aregs s q) = true ->
    value (aregs s q) = paddr (aregs s q) /\ data_range (paddr (aregs s q)) n = true /\
    one_range (paddr (aregs s q)) (Z.of_nat n)).
Proof.
  intros Hrel Hn Hok. pose proof (reg_wf _ _ Hrel q) as Hw. split.
  - apply mapped_accessible; [done|lia|]. intros Ha. by apply Hok.
  - intros Ha. destruct (Hok Ha) as [Hd Hl]. split; [by apply accessible_value|].
    split; [done|]. by apply access_range.
Qed.

Lemma read_refines s c q n :
  related s c -> respects (U := U) (IRead q n) s = true ->
  step_refines (ideal_step (U := U) (IRead q n) s) (inst_step (IRead q n) c).
Proof.
  intros Hrel [Hn Hok]%respects_data. destruct (data_access s c q n Hrel Hn Hok) as [Hm Hin].
  cbn [ideal_step inst_step]. rewrite (reg_rep _ _ Hrel q), Hm.
  destruct (accessible (aregs s q)); [|done]. destruct (Hin eq_refl) as (-> & Hd & Hr).
  split; [|done]. cbn. by rewrite (memory_rel_read _ _ _ _ _ (mem_rep _ _ Hrel)).
Qed.

Lemma write_refines s c q n v :
  related s c -> respects (U := U) (IWrite q n v) s = true ->
  step_refines (ideal_step (U := U) (IWrite q n v) s) (inst_step (IWrite q n v) c).
Proof.
  intros Hrel [Hn Hok]%respects_data. destruct (data_access s c q n Hrel Hn Hok) as [Hm Hin].
  cbn [ideal_step inst_step]. rewrite (reg_rep _ _ Hrel q), Hm.
  destruct (accessible (aregs s q)); [|done]. destruct (Hin eq_refl) as (-> & Hd & Hr).
  split; [done|]. destruct Hrel as [Hw' Hr' Hmem]. split; [done|done|].
  cbn [env slots data set_env]. rewrite st_mem_set. by apply memory_rel_write.
Qed.

(** Block copies: the hardware and the ideal machine agree. *)
Lemma copy_access s c q r n :
  related s c -> respects (U := U) (ICopy q r n) s = true ->
  let p := aregs s q in let v := aregs s r in
  mapped (value v) (Z.of_nat n) && mapped (value p) (Z.of_nat n) = accessible v && accessible p /\
  (accessible v && accessible p = true ->
   value p = paddr p /\ value v = paddr v /\ one_range (paddr p) (Z.of_nat n) /\ one_range (paddr v) (Z.of_nat n) /\
   (0 < n)%nat /\ copy_range (paddr p) (paddr v) n = true).
Proof.
  intros Hrel. pose proof (reg_wf _ _ Hrel q) as Hq. pose proof (reg_wf _ _ Hrel r) as Hr.
  cbn [respects]. cbn zeta. rewrite !andb_true_iff. intros [[[Hn%Nat.ltb_lt Hp] Hv] Hok].
  assert (Hfit : forall p : aptr, implb (accessible p) (paddr p + Z.of_nat n <=? plimit p) = true ->
    accessible p = true -> paddr p + Z.of_nat n <= plimit p) by (intros p Hi Ha; rewrite Ha in Hi; by apply Z.leb_le).
  split; [by rewrite !mapped_accessible by (done || lia || by apply Hfit)|].
  intros [Har Haq]. rewrite Har, Haq in Hok.
  rewrite !accessible_value by done. split; [done|]. split; [done|].
  split; [apply access_range; try done; by apply Hfit|]. split; [apply access_range; try done; by apply Hfit|done].
Qed.

(** They take the bounds along. *)
Lemma copy_refines s c q r n :
  related s c -> respects (U := U) (ICopy q r n) s = true ->
  step_refines (ideal_step (U := U) (ICopy q r n) s) (inst_step (ICopy q r n) c).
Proof.
  intros Hrel Hok. destruct (copy_access s c q r n Hrel Hok) as [Hm Hin]. cbn zeta in *.
  cbn [ideal_step inst_step]. unfold copy_instr. rewrite (reg_rep _ _ Hrel q), (reg_rep _ _ Hrel r), Hm.
  destruct (accessible (aregs s r) && accessible (aregs s q)) eqn:Ha; [|done].
  destruct (Hin eq_refl) as (-> & -> & Hp & Hv & Hn & Hc). split; [done|].
  destruct Hrel as [Hw' Hr' Hmem]. split; [done|done|].
  cbn [env slots data set_env snd]. rewrite st_mem_set.
  apply memory_rel_copy; try done. apply real_notify_copy_bytes.
Qed.

Lemma step_related s c (i : instr U) :
  related s c -> respects i s = true -> step_refines (ideal_step i s) (inst_step i c).
Proof.
  intros Hrel. destruct i as [r b l|r|r q|deref r q d t|r q|q r t|q n|q n v|q r n].
  - intros Hl. split; [done|]. cbn. pose proof (live_range _ _ Hl) as (Hb & _ & Hr).
    apply one_range_user in Hr; [|lia].
    rewrite make_bounds_object by (unfold user_addr; lia).
    assert (value (APtr b l b) = b) as Hv.
    { apply value_inside. cbn. destruct (in_object_spec b l b); [done|lia]. }
    pose proof (related_set_reg s c r (APtr b l b) Hrel) as Hset. rewrite Hv in Hset.
    apply Hset. split; [by right|unfold user_addr; cbn; lia].
  - intros _. split; [done|]. cbn. rewrite make_bounds_object by done.
    pose proof (related_set_reg s c r anull Hrel wf_null) as Hset. by rewrite value_null in Hset.
  - intros _. split; [done|]. cbn. rewrite (reg_rep _ _ Hrel q).
    apply related_set_reg; [done|]. by apply (reg_wf _ _ Hrel).
  - by apply derive_refines.
  - by apply load_refines.
  - by apply store_refines.
  - by apply read_refines.
  - by apply write_refines.
  - by apply copy_refines.
Qed.

Lemma run_related (prog : list (instr U)) : forall s c,
  related s c -> disciplined prog s = true ->
  step_refines (run ideal_step prog s) (run inst_step prog c).
Proof.
  induction prog as [|i prog IH]; intros s c Hrel; cbn [run disciplined]; [done|].
  intros [Hi Hprog]%andb_prop. destruct (step_related s c i Hrel Hi) as [He Ho].
  destruct (ideal_step i s) as [ev out], (inst_step i c) as [ev' out'].
  cbn [fst snd] in *. subst ev'.
  destruct out as [s'| | |], out' as [c'| | |]; try done.
  specialize (IH s' c' Ho Hprog). unfold step_refines in IH.
  destruct (run ideal_step prog s') as [e1 o1], (run inst_step prog c') as [e2 o2].
  cbn [fst snd] in *. destruct IH as [-> IH]. by split.
Qed.

(** *** Where the ideal machine accesses memory *)
Definition in_live (e : event) : Prop :=
  match footprint e with
  | None => True
  | Some (a, n) => exists b l, live b l = true /\ b <= a /\ a + n <= l
  end.

Lemma access_in_live {S} p n e (out : status S) :
  wf_ptr p -> footprint e = Some (paddr p, n) ->
  (accessible p = true -> paddr p + n <= plimit p) ->
  Forall in_live (if accessible p then ([e], out) else ([], Trapped)).1.
Proof.
  intros Hw He Hfit. destruct (accessible p) eqn:Ha; [|apply Forall_nil_2].
  apply Forall_singleton. unfold in_live. rewrite He.
  destruct (accessible_live p Hw Ha) as [Hl ?]. exists (pbase p), (plimit p).
  split; [done|]. split; [lia|by apply Hfit].
Qed.

Lemma step_in_live s c (i : instr U) :
  related s c -> respects i s = true -> Forall in_live (ideal_step i s).1.
Proof.
  intros Hrel. destruct i as [r b l|r|r q|deref r q d t|r q|q r t|q n|q n v|q r n];
    cbn [respects ideal_step]; try (intros; apply Forall_nil_2);
    pose proof (reg_wf _ _ Hrel q) as Hw.
  - destruct (aregs s q). intros _. destruct (_ && _); [apply Forall_nil_2|].
    by apply Forall_singleton.
  - intros Hok0. pose proof (respects_slot _ Hok0) as Hok. by apply (access_in_live _ 8); [|done|intros; apply Hok].
  - intros Hok0. pose proof (respects_slot _ Hok0) as Hok. by apply (access_in_live _ 8); [|done|intros; apply Hok].
  - intros [_ Hok]%respects_data. by apply (access_in_live _ (Z.of_nat n)); [|done|intros; apply Hok].
  - intros [_ Hok]%respects_data. by apply (access_in_live _ (Z.of_nat n)); [|done|intros; apply Hok].
  - pose proof (reg_wf _ _ Hrel r) as Hr. rewrite !andb_true_iff. intros [[[_ Hp] Hv] _].
    assert (Hin : forall (p : aptr) e, wf_ptr p -> accessible p = true ->
      implb (accessible p) (paddr p + Z.of_nat n <=? plimit p) = true -> footprint e = Some (paddr p, Z.of_nat n) -> in_live e).
    { intros p e Hp' Ha Hfit He. rewrite Ha in Hfit. cbn [implb] in Hfit. unfold in_live. rewrite He.
      destruct (accessible_live p Hp' Ha) as [Hl ?]. exists (pbase p), (plimit p).
      split; [done|]. split; [lia|by apply Z.leb_le]. }
    destruct (accessible (aregs s r)) eqn:Har, (accessible (aregs s q)) eqn:Haq; try apply Forall_nil_2.
    repeat apply Forall_cons_2; [by apply (Hin (aregs s r)); [|..|done]; rewrite ?Har|by apply (Hin (aregs s q)); rewrite ?Haq|apply Forall_nil_2].
Qed.

Lemma run_in_live (prog : list (instr U)) : forall s c,
  related s c -> disciplined prog s = true -> Forall in_live (run ideal_step prog s).1.
Proof.
  induction prog as [|i prog IH]; intros s c Hrel; cbn [run disciplined]; [by intros _|].
  intros [Hi Hprog]%andb_prop. pose proof (step_in_live s c i Hrel Hi) as Hl.
  destruct (step_related s c i Hrel Hi) as [_ Ho].
  destruct (ideal_step i s) as [ev out], (inst_step i c) as [ev' out'].
  cbn [fst snd] in *. destruct out as [s'| | |]; try done. destruct out' as [c'| | |]; try done.
  specialize (IH s' c' Ho Hprog). destruct (run ideal_step prog s'). cbn [fst] in *.
  apply Forall_app. by split.
Qed.

(** A program starts with null pointers in a memory of zeros. *)
Definition ideal_start : ideal := Ideal (fun _ => anull) (fun _ => anull) ∅.
Definition machine_start (st : St) : machine St := Machine (fun _ => (0, Bounds 0 1)) st.

Lemma start_related (st : St) : st_mem st = ∅ -> related ideal_start (machine_start st).
Proof.
  intros Hst. split; cbn; intros; [apply wf_null|by rewrite value_null|].
  rewrite Hst. split; cbn; intros a Ha; [apply wf_null|by rewrite value_null| |done].
  by rewrite value_null.
Qed.

(** ** Properties *)

(** C1. A disciplined program, instrumented, behaves like the ideal machine:
    the same verdicts, the same accesses with the same data, the same end (it
    runs on, faults, or aborts at a check), and never undefined behaviour; and
    when it runs on, every register and slot again represents its ideal pointer. *)
Theorem program_refines (prog : list (instr U)) (s : ideal) (c : machine St) :
  related s c -> disciplined prog s = true ->
  (run inst_step prog c).1 = (run ideal_step prog s).1 /\
  status_related (run ideal_step prog s).2 (run inst_step prog c).2.
Proof. apply run_related. Qed.
End refinement.

(** ** The runtime as the environment *)
#[export] Instance rt_report_laws `{C : Config} `{L : Liballocs} (site : Z) :
  ReportLaws process uniqtype (H := rt_shadow site).
Proof.
  split. intros p d df B. cbn. unfold bounds_error_at, report.
  by destruct (report_failure_if_necessary _ _ _ _ _ _).
Qed.

(** A machine with two objects, an array of two pointers and some words, and a
    buffer of sixteen bytes. *)
Definition obj_a : Z := 0x2aaaaaaac000.
Definition obj_b : Z := 0x2aaaaaaad000.
Definition ex_objects : list (Z * Z) := [(obj_a, obj_a + 0x40); (obj_b, obj_b + 0x10)].
Definition ex_stack_lo : Z := 0x7ffff0000000.
Definition ex_stack_hi : Z := 0x7ffff0010000.
Definition ex_slots : list Z := [obj_a; obj_a + 8].
#[local] Instance ex_platform : Platform := {|
  platform_slots := {|
    pointer_slot a := bool_decide (a ∈ ex_slots);
    reserved i := (ex_stack_lo <=? i) && (i <? ex_stack_hi) |};
  mapped a n := (0x2aaaaaaac000 <=? a) && (a + n <=? 0x2aaaaaaae000);
  live b l := bool_decide ((b, l) ∈ ex_objects);
  real_notify_copy m _ _ _ := m;
|}.
Lemma ex_objects_cases b l :
  bool_decide ((b, l) ∈ ex_objects) = true -> b = 0x2aaaaaaac000 /\ l = 0x2aaaaaaac040 \/ b = 0x2aaaaaaad000 /\ l = 0x2aaaaaaad010.
Proof. intros Hl%bool_decide_eq_true. apply list_elem_of_In in Hl as [[= <- <-]|[[= <- <-]|[]]]; by vm_compute; auto. Qed.
#[local] Instance ex_platform_laws : PlatformLaws ex_platform.
Proof.
  split; cbn [mapped live pointer_slot ex_platform].
  - intros a n Hn [_ Ha%Z.leb_le]%andb_prop. lia.
  - done.
  - intros b l a n Hl%ex_objects_cases Hb Hn Ha. lia.
  - intros b l Hl%ex_objects_cases. split; [lia|]. split; [lia|].
    apply (bool_decide_unpack _). destruct Hl as [[-> ->]|[-> ->]]; by vm_compute.
  - split; cbn [pointer_slot reserved platform_slots ex_platform].
    + intros a Ha%bool_decide_eq_true. apply list_elem_of_In in Ha as [<-|[<-|[]]]; by apply (bool_decide_unpack _).
    + intros a i Ha%bool_decide_eq_true Hi. apply list_elem_of_In in Ha as [<-|[<-|[]]];
        unfold obj_a, ex_stack_lo in *; lia.
    + intros i [Hl%Z.leb_le Hh%Z.ltb_lt]%andb_prop. unfold ex_stack_lo, ex_stack_hi in *.
      unfold shadowable, user_ranges, in_range; cbn [existsb fst snd]. lia.
  - done.
Qed.

(** Store two pointers to the buffer, the second one past its end; load that,
    step back, write and read through it; then overwrite the first with null, copy
    the second over it, and do the same; last, leave the buffer, and read. *)
Definition ex_program : list (instr ty) :=
  [ IAddr 0 obj_a (obj_a + 0x40); IAddr 1 obj_b (obj_b + 0x10); IStore 0 1 TInt;
    IDerive false 1 1 0x10 TInt; IDerive true 2 0 8 (TPtr TInt); IStore 2 1 TInt;
    ILoad 3 2; IDerive true 3 3 (-8) TInt; IWrite 3 8 42; IRead 3 8;
    INull 5; IStore 0 5 TInt; IDerive true 6 0 8 (TPtr TInt); ICopy 0 6 8;
    ILoad 3 0; IDerive true 3 3 (-8) TInt; IRead 3 8;
    IAddr 4 obj_b (obj_b + 0x10); IDerive true 4 4 0x20 TInt; IRead 4 4 ].

Lemma ex_disciplined : disciplined (C := config_p) ex_program ideal_start = true.
Proof. vm_compute. reflexivity. Qed.

#[local] Instance ex_env : ShadowEnv (@process tiny) ty := @rt_shadow config_p tiny 1.
#[local] Instance ex_env_laws : ShadowEnvLaws (@process tiny) ty := @rt_shadow_laws config_p tiny 1.
#[local] Instance ex_env_report : ReportLaws (@process tiny) ty := @rt_report_laws config_p tiny 1.

Definition ex_trace : list event :=
  [Stored obj_a; Derived true; Derived true; Stored (obj_a + 8); Loaded (obj_a + 8);
   Derived true; Wrote (obj_b + 8) 8 42; Read (obj_b + 8) 8 42;
   Stored obj_a; Derived true; CopiedFrom (obj_a + 8) 8; CopiedTo obj_a 8;
   Loaded obj_a; Derived true; Read (obj_b + 8) 8 42; Derived false].

Lemma ex_run_trace :
  (run (inst_step (C := config_p) (H := ex_env)) ex_program (machine_start tiny_process)).1 = ex_trace.
Proof.
  rewrite (proj1 (run_related (C := config_p) (SE := ex_env) eq_refl ex_program ideal_start
    (machine_start tiny_process) (start_related (C := config_p) (SE := ex_env) tiny_process eq_refl)
    ex_disciplined)).
  vm_compute. reflexivity.
Qed.

(** The last read, through a pointer outside its object, faults. *)
Lemma program_refines_witness :
  (run (inst_step (C := config_p) (H := ex_env)) ex_program (machine_start tiny_process)).1
    = ex_trace /\
  (run (inst_step (C := config_p) (H := ex_env)) ex_program (machine_start tiny_process)).2
    = Trapped.
Proof.
  destruct (program_refines (C := config_p) (SE := ex_env) eq_refl ex_program ideal_start
    (machine_start tiny_process)) as [Hev Hst].
  - apply (start_related (C := config_p) (SE := ex_env)). reflexivity.
  - exact ex_disciplined.
  - split; [etransitivity; [exact Hev|vm_compute; reflexivity]|].
    assert ((run (ideal_step (C := config_p)) ex_program ideal_start).2 = Trapped) as Hi
      by (vm_compute; reflexivity).
    rewrite Hi in Hst. revert Hst.
    generalize (run (inst_step (C := config_p) (H := ex_env)) ex_program (machine_start tiny_process)).2.
    intros [c| | |]; [intros []|reflexivity|intros []..].
Defined.

(** The discipline is needed: two derivations in a row out of the object cancel
    their tags, and the instrumented program writes where no object is. *)
Definition ex_wild : list (instr ty) :=
  [ IAddr 0 obj_b (obj_b + 0x10); IDerive false 0 0 0x100 TInt; IDerive false 0 0 0x100 TInt;
    IWrite 0 4 42 ].
Lemma discipline_needed :
  disciplined (C := config_p) ex_wild ideal_start = false /\
  (run (ideal_step (C := config_p)) ex_wild ideal_start).2 = Trapped /\
  (run (inst_step (C := config_p) (H := ex_env)) ex_wild (machine_start tiny_process)).1
    = [Derived false; Derived false; Wrote (obj_b + 0x200) 4 42].
Proof. split; [|split]; vm_compute; reflexivity. Qed.
