(* ===== verification/Calls.v ===== *)
(** * Calls between instrumented functions

    [Program.v] extended with calls: a caller passes the bounds of its pointer
    arguments on the bounds stack, under a cookie; the callee recognises the
    cookie, takes the bounds, and leaves those of its result
    ([BoundsStack.v], [frontend/c/crunchbound/crunchbound.ml]).  A call tree so
    instrumented refines the ideal machine with a frame of pointers per call. *)
From stdpp Require Import functions.
From S2P Require Import Prelude Config TrapPtr Bounds Derive Memory ShadowSpace BoundsStack Report.
From S2P Require Import Runtime TinyAllocs Fetch SlotMemory Program.

(** A statement is an instruction or a call: the register that receives the
    result, the address of the callee, the registers passed, the statements the
    callee executes, and the register it returns. *)
#[warnings="-register-all"]
Inductive stmt (U : Type) :=
| Instr (i : instr U)
| Call (dst : reg) (callee : Z) (args : list reg) (body : list (stmt U)) (ret : reg).
Arguments Instr {U}. Arguments Call {U}.

Lemma stmt_nested_ind {U} (P : stmt U -> Prop) :
  (forall i, P (Instr i)) ->
  (forall dst callee args body ret, Forall P body -> P (Call dst callee args body ret)) ->
  forall x, P x.
Proof.
  intros Hi Hc. fix IH 1. intros [i|dst callee args body ret]; [apply Hi|].
  apply Hc. induction body as [|x body IHb]; constructor; [apply IH|apply IHb].
Qed.

(** Execution, given what an instruction and a call do; a call gets the body as
    a function of the callee's state. *)
Section execution.
Context {U S : Type}.
Context (step : instr U -> S -> list event * status S).
Context (call : reg -> Z -> list reg -> (S -> list event * status S) -> reg -> S ->
                list event * status S).

Definition and_then (r : list event * status S) (k : S -> list event * status S)
    : list event * status S :=
  match r with
  | (ev, Going s) => let '(ev', out) := k s in (ev ++ ev', out)
  | _ => r
  end.

Fixpoint exec_stmt (x : stmt U) (s : S) : list event * status S :=
  match x with
  | Instr i => step i s
  | Call dst callee args body ret =>
      call dst callee args
        ((fix exec (b : list (stmt U)) (s : S) : list event * status S :=
           match b with
           | [] => ([], Going s)
           | x :: b => and_then (exec_stmt x s) (exec b)
           end) body) ret s
  end.
Fixpoint exec_body (b : list (stmt U)) (s : S) : list event * status S :=
  match b with
  | [] => ([], Going s)
  | x :: b => and_then (exec_stmt x s) (exec_body b)
  end.

Lemma exec_call dst callee args body ret s :
  exec_stmt (Call dst callee args body ret) s = call dst callee args (exec_body body) ret s.
Proof. done. Qed.
End execution.

(** ** The instrumented call

    The locals of a callee that are not parameters are assigned before they are
    used; they are null here. *)
Definition frame_regs `{Config} (ptrs : list Z) (Bs : list bounds) : reg -> Z * bounds :=
  fun r => default (0, make_bounds 0 1) (zip ptrs Bs !! r).

Definition call_instr `{C : Config} {St U : Type} `{StackEnv St U} (dst : reg) (callee : Z)
    (args : list reg) (body : machine St -> list event * status (machine St)) (ret : reg)
    (c : machine St) : list event * status (machine St) :=
  let ptrs := (fun r => (regs c r).1) <$> args in
  (* the caller *)
  let saved := bounds_sp (env c) in
  let st := push_arguments (env c) ((fun r => (regs c r).2) <$> args) in
  let st := push_argument_bounds_cookie st callee in
  let cookie_stackaddr := bounds_sp st in
  (* the callee *)
  let '(really, st) := tweak_argument_bounds_cookie st callee in
  let Bs := imap (fun i ptr => peek_argument_bounds st really (Z.of_nat i) ptr) ptrs in
  match body (Machine (frame_regs ptrs Bs) st) with
  | (ev, Going c') =>
      let '(v, B) := regs c' ret in
      let st := push_local_result_bounds (env c') really B in
      (* the caller again *)
      let really := negb (load8 (st_mem st) cookie_stackaddr =? callee) in
      let B := peek_result_bounds st really 0 v in
      (ev, Going (Machine (<[dst := (v, B)]> (regs c)) (cleanup_bounds_stack st saved)))
  | r => r
  end.

(** ** The ideal call *)
Definition ideal_frame (s : ideal) (args : list reg) : ideal :=
  Ideal (fun r => default anull ((aregs s <$> args) !! r)) (slots s) (data s).

Definition ideal_call (dst : reg) (callee : Z) (args : list reg)
    (body : ideal -> list event * status ideal) (ret : reg) (s : ideal)
    : list event * status ideal :=
  match body (ideal_frame s args) with
  | (ev, Going s') => (ev, Going (Ideal (<[dst := aregs s' ret]> (aregs s)) (slots s') (data s')))
  | r => r
  end.

(** ** The discipline, and the room a statement needs on the bounds stack *)
Section discipline.
Context `{C : Config} `{P : Platform} {U : Type}.

Fixpoint respects_stmt (x : stmt U) (s : ideal) : bool :=
  match x with
  | Instr i => respects i s
  | Call dst callee args body ret =>
      in_object 0 (2 ^ 47) callee &&
      (fix ok (b : list (stmt U)) (s : ideal) : bool :=
         match b with
         | [] => true
         | x :: b =>
             respects_stmt x s &&
             match (exec_stmt ideal_step ideal_call x s).2 with Going s => ok b s | _ => true end
         end) body (ideal_frame s args)
  end.
Fixpoint respects_body (b : list (stmt U)) (s : ideal) : bool :=
  match b with
  | [] => true
  | x :: b =>
      respects_stmt x s &&
      match (exec_stmt ideal_step ideal_call x s).2 with Going s => respects_body b s | _ => true end
  end.

Fixpoint stack_need (x : stmt U) : Z :=
  match x with
  | Instr _ => 0
  | Call _ _ args body _ =>
      sizeof_bounds * Z.of_nat (length args) + 8 +
      Z.max sizeof_bounds
        ((fix need (b : list (stmt U)) : Z :=
            match b with [] => 0 | x :: b => Z.max (stack_need x) (need b) end) body)
  end.
Fixpoint stack_need_body (b : list (stmt U)) : Z :=
  match b with [] => 0 | x :: b => Z.max (stack_need x) (stack_need_body b) end.

Lemma stack_need_call dst callee args body ret :
  stack_need (Call dst callee args body ret) =
    sizeof_bounds * Z.of_nat (length args) + 8 + Z.max sizeof_bounds (stack_need_body body).
Proof. done. Qed.
Lemma respects_call dst callee args body ret s :
  respects_stmt (Call dst callee args body ret) s =
    in_object 0 (2 ^ 47) callee && respects_body body (ideal_frame s args).
Proof. done. Qed.
End discipline.

(** What reporting leaves alone, the bounds stack included. *)
Class ReportStackLaws (St U : Type) `{StackEnv St U} : Prop := {
  stack_report :: ReportLaws St U;
  bounds_sp_error : forall (st : St) d df B, bounds_sp (bounds_error st d df B) = bounds_sp st;
}.

Section calls.
Context `{SC : SplitConfig} `{PL : PlatformLaws} {St U : Type}.
Context `{SE : StackEnv St U} `{!StackEnvLaws St U} `{!ReportStackLaws St U}.
Hypothesis shadow_on : no_shadow_space = false.
Hypothesis stack_on : no_bounds_stack = false.
Context (stack_lo stack_hi : Z).
Hypothesis stack_range : 0 <= stack_lo /\ stack_hi <= 2 ^ 48.
Hypothesis stack_reserved : forall i, stack_lo <= i < stack_hi -> reserved i = true.
Implicit Types (s : ideal) (c : machine St).

(** The bounds stack of the machine has room for [need] bytes. *)
Definition stack_room (need : Z) (st : St) : Prop :=
  stack_lo + need <= bounds_sp st <= stack_hi.
(** [c'] has the bounds stack of [c]. *)
Definition same_stack (st st' : St) : Prop :=
  bounds_sp st' = bounds_sp st /\
  forall i, bounds_sp st <= i < stack_hi -> byte (st_mem st') i = byte (st_mem st) i.

Definition stmt_refines (st : St) (a : list event * status ideal)
    (r : list event * status (machine St)) : Prop :=
  r.1 = a.1 /\
  match a.2, r.2 with
  | Going s, Going c => related s c /\ same_stack st (env c)
  | Trapped, Trapped | Stopped, Stopped => True
  | _, _ => False
  end.

Lemma same_stack_refl st : same_stack st st.
Proof. done. Qed.
Lemma same_stack_trans st1 st2 st3 :
  same_stack st1 st2 -> same_stack st2 st3 -> same_stack st1 st3.
Proof.
  intros [H1 B1] [H2 B2]. split; [congruence|]. intros i Hi. rewrite B2, B1; [done|done|]. by rewrite H1.
Qed.

Lemma sizeof_wide : sizeof_bounds = 16.
Proof. unfold sizeof_bounds. by rewrite wide_word. Qed.

(** *** Instructions leave the bounds stack alone *)
Lemma derive_keeps_stack s c deref r q d (t : U) ev c' :
  related s c -> respects (IDerive deref r q d t) s = true ->
  inst_step (IDerive deref r q d t) c = (ev, Going c') -> same_stack (env c) (env c').
Proof.
  intros Hrel. pose proof (reg_wf _ _ Hrel q) as Hw. cbn [respects inst_step]. unfold derive_instr.
  rewrite (reg_rep _ _ Hrel q). destruct (aregs s q) as [b l a]. intros [Hd Ht]%andb_prop.
  destruct (in_object_spec 0 (2 ^ 48) (a + d)) as [Hd'|]; [|done].
  pose proof (derive_value (env c) _ d (Some t) Hw Hd' Ht) as Hder. cbn in Hder.
  destruct (negb _ && _); [by rewrite Hder|]. destruct Hder as (st' & -> & Hst').
  assert (same_stack (env c) st') as Hs.
  { destruct Hst' as [->|(? & ? & ? & ->)]; [done|]. split; [apply bounds_sp_error|].
    intros i _. by rewrite st_mem_error. }
  destruct deref; [|by intros [= _ <-]]. unfold check_deref. rewrite split_counts, trap_on.
  by intros [= _ <-].
Qed.

Lemma stack_not_slot a i :
  pointer_slot a = true -> stack_lo <= i < stack_hi -> i < a \/ a + 8 <= i.
Proof.
  intros Ha Hi%stack_reserved. destruct (decide (a <= i < a + 8)) as [Hin|]; [|lia].
  by rewrite (slot_unreserved a i Ha Hin) in Hi.
Qed.

Lemma inst_keeps_stack s c (i : instr U) ev c' :
  related s c -> respects i s = true -> stack_lo <= bounds_sp (env c) ->
  inst_step i c = (ev, Going c') -> same_stack (env c) (env c').
Proof.
  intros Hrel Hok Hlo. destruct i as [r b l|r|r q|deref r q d t|r q|q r t|q n|q n v|q r n];
    try (by intros [= _ <-]); [by apply derive_keeps_stack with s| | | | |];
    cbn [inst_step respects] in *.
  - unfold load_instr. destruct (regs c q). destruct (mapped _ _); by intros [= _ <-].
  - unfold store_instr. pose proof (reg_wf _ _ Hrel q) as Hw.
    rewrite (reg_rep _ _ Hrel q), (reg_rep _ _ Hrel r), (store_hook shadow_on)
      by (apply pbounds_valid, (reg_wf _ _ Hrel)).
    pose proof (respects_slot _ Hok) as Hslot.
    rewrite mapped_accessible by (done || lia || intros; by apply Hslot).
    destruct (accessible (aregs s q)) eqn:Ha; [|done]. destruct (Hslot eq_refl) as [Hs _].
    intros [= _ <-]. split; cbn [env set_env]; [by rewrite !bounds_sp_set_mem|].
    intros i Hi. rewrite !st_mem_set, accessible_value by done. unfold store8.
    pose proof (stack_not_slot _ i Hs ltac:(lia)).
    rewrite byte_store_other by lia. apply byte_shadow_store; [by apply slot_aligned|].
    apply reserved_user, stack_reserved. lia.
  - destruct (regs c q). destruct (mapped _ _); by intros [= _ <-].
  - apply respects_data in Hok as [Hn Hok].
    destruct (data_access s c q n Hrel Hn Hok) as [Hm Hin]. rewrite (reg_rep _ _ Hrel q), Hm.
    destruct (accessible (aregs s q)); [|done]. destruct (Hin eq_refl) as (-> & Hd & _).
    intros [= _ <-]. split; cbn [env set_env]; [by rewrite bounds_sp_set_mem|].
    intros i Hi. rewrite st_mem_set. apply byte_store_other.
    destruct (decide (paddr (aregs s q) <= i < paddr (aregs s q) + Z.of_nat n)) as [Hin'|]; [|lia].
    pose proof (data_range_unreserved _ _ _ Hd Hin') as Hr. rewrite stack_reserved in Hr by lia. done.
  - destruct (copy_access s c q r n Hrel Hok) as [Hm Hin]. cbn zeta in *. unfold copy_instr.
    rewrite (reg_rep _ _ Hrel q), (reg_rep _ _ Hrel r), Hm.
    destruct (accessible (aregs s r) && accessible (aregs s q)) eqn:Ha; [|done].
    destruct (Hin eq_refl) as (-> & -> & Hp & _ & _ & Hc). destruct (copy_range_aligned _ _ _ Hc) as (Hdm & _ & Hnm).
    intros [= _ <-]. split; cbn [env set_env]; [by rewrite bounds_sp_set_mem|].
    intros i Hi. assert (Hres : reserved i = true) by (apply stack_reserved; lia).
    rewrite st_mem_set, byte_notify_copy by (done || apply real_notify_copy_bytes || by apply reserved_user).
    apply byte_memmove_out. destruct (decide (paddr (aregs s q) <= i < paddr (aregs s q) + Z.of_nat n)) as [Hin'|]; [|lia].
    destruct (copy_range_at _ _ _ _ Hc Hin') as (_ & Hf & _). congruence.
Qed.

Lemma instr_refines s c (i : instr U) :
  related s c -> respects i s = true -> stack_lo <= bounds_sp (env c) ->
  stmt_refines (env c) (ideal_step i s) (inst_step i c).
Proof.
  intros Hrel Hok Hlo. destruct (step_related shadow_on s c i Hrel Hok) as [He Ho].
  split; [done|]. destruct (ideal_step i s) as [ev out], (inst_step i c) as [ev' out'] eqn:Hi.
  cbn [fst snd] in *. destruct out as [s'| | |], out' as [c'| | |]; try done.
  split; [done|]. by apply (inst_keeps_stack s c i ev').
Qed.

(** *** The caller's pushes *)
Lemma push_arguments_outside Bs : forall (st : St) i,
  u64 (bounds_sp st) -> sizeof_bounds * Z.of_nat (length Bs) <= bounds_sp st ->
  Forall wf_bounds Bs ->
  i < bounds_sp st - sizeof_bounds * Z.of_nat (length Bs) ->
  byte (st_mem (push_arguments st Bs)) i = byte (st_mem st) i.
Proof.
  induction Bs as [|B Bs IH]; intros st i Hu Hr Hwf Hi; cbn [push_arguments length] in *; [done|].
  apply Forall_cons in Hwf as [HB Hwf]. pose proof sizeof_pos.
  destruct (push_arguments_spec stack_on Bs st Hu ltac:(lia) Hwf) as (Hsp & _ & _).
  destruct (push_local_spec stack_on (push_arguments st Bs) B) as [_ ->];
    [rewrite Hsp; unfold u64 in *; lia|rewrite Hsp; lia|].
  rewrite byte_write_bounds by (rewrite Hsp; lia). apply IH; try done; lia.
Qed.

Definition after_pushes (st : St) (callee : Z) (Bs : list bounds) : St :=
  push_argument_bounds_cookie (push_arguments st Bs) callee.

Lemma room_u64 need st : 0 <= need -> stack_room need st -> u64 (bounds_sp st).
Proof. unfold stack_room, u64. lia. Qed.

(** All in one: what the callee finds, and what has changed. *)
Lemma pushes_spec st callee Bs :
  stack_room (sizeof_bounds * Z.of_nat (length Bs) + 8) st -> 0 <= callee < 2 ^ 47 ->
  Forall wf_bounds Bs ->
  let st1 := after_pushes st callee Bs in
  bounds_sp st1 = bounds_sp st - sizeof_bounds * Z.of_nat (length Bs) - 8 /\
  entered st1 callee Bs /\
  (forall i, bounds_sp st <= i -> byte (st_mem st1) i = byte (st_mem st) i) /\
  (forall i, reserved i = false -> byte (st_mem st1) i = byte (st_mem st) i).
Proof.
  intros Hroom Hc Hwf st1. unfold stack_room in Hroom. pose proof sizeof_pos.
  assert (u64 (bounds_sp st)) as Hu by (unfold u64; lia).
  destruct (caller_enters stack_on st callee Bs Hu) as (Hsp & He & Hfr);
    [unfold u64; lia|lia|done|].
  split; [done|]. split; [done|]. split; [done|]. intros i Hi.
  destruct (decide (bounds_sp st <= i)) as [|Hlt]; [by apply Hfr|].
  destruct (decide (bounds_sp st - sizeof_bounds * Z.of_nat (length Bs) - 8 <= i)) as [Hin|Hout].
  { rewrite stack_reserved in Hi by lia. done. }
  unfold st1, after_pushes.
  destruct (push_arguments_spec stack_on Bs st Hu ltac:(lia) Hwf) as (Hsp0 & _ & _).
  destruct (push_cookie_spec stack_on (push_arguments st Bs) callee) as [_ ->];
    [rewrite Hsp0; unfold u64 in *; lia|rewrite Hsp0; lia|].
  unfold store8. rewrite byte_store_other by (rewrite Hsp0; lia).
  apply push_arguments_outside; try done; lia.
Qed.

Lemma pbounds_wf p : wf_ptr p -> wf_bounds (pbounds p).
Proof.
  intros Hw. pose proof (wf_object p Hw) as [Hb Hl]. unfold wf_bounds. rewrite wide_word, wide_size.
  unfold pbounds, object_bounds, user_addr, u64 in *; cbn [base size]. lia.
Qed.

(** *** The callee's frame *)
Lemma frame_related s c (st : St) args :
  related s c ->
  (forall i, reserved i = false -> byte (st_mem st) i = byte (st_mem (env c)) i) ->
  related (ideal_frame s args)
    (Machine (frame_regs ((fun r => (regs c r).1) <$> args) ((fun r => (regs c r).2) <$> args)) st).
Proof.
  intros Hrel Hst. split.
  - intros r. cbn. rewrite list_lookup_fmap.
    destruct (args !! r); cbn; [apply (reg_wf _ _ Hrel)|apply wf_null].
  - intros r. cbn. unfold frame_regs. rewrite zip_with_fmap_l, zip_with_fmap_r, zip_with_diag.
    rewrite !list_lookup_fmap. destruct (args !! r) as [q|]; cbn.
    + rewrite (reg_rep _ _ Hrel q). done.
    + by rewrite value_null, make_bounds_object.
  - cbn. apply (memory_rel_reserved _ _ _ _ (mem_rep _ _ Hrel)). done.
Qed.

(** *** The callee, from its cookie test to its result *)
Lemma tweaked st callee Bs ptrs :
  u64 (bounds_sp st + 8 + sizeof_bounds * Z.of_nat (length Bs)) -> 0 <= callee < 2 ^ 47 ->
  u64 (bounds_sp st) -> length ptrs = length Bs -> entered st callee Bs ->
  exists st', tweak_argument_bounds_cookie st callee = (true, st') /\
    imap (fun i ptr => peek_argument_bounds st' true (Z.of_nat i) ptr) ptrs = Bs /\
    bounds_sp st' = bounds_sp st /\
    load8 (st_mem st') (bounds_sp st) = Z.lor callee 0x800000000000 /\
    forall i, i < bounds_sp st \/ bounds_sp st + 8 <= i -> byte (st_mem st') i = byte (st_mem st) i.
Proof.
  intros Hu Hc Hsp Hl He.
  destruct (tweak_entered stack_on st callee Bs Hc Hsp He) as (st' & Htw & Hsp' & He' & Hfr).
  exists st'. split; [done|]. split; [|split; [done|split; [|done]]].
  - apply (peek_all_entered stack_on st' (Z.lor callee 0x800000000000) Bs ptrs); rewrite ?Hsp'; done.
  - destruct He' as [Ht _]. by rewrite Hsp' in Ht.
Qed.

(** What the caller finds when the callee has come back with its stack. *)
Lemma result_found (st1 st : St) callee B :
  stack_room sizeof_bounds st1 -> bounds_sp st1 + 8 <= stack_hi ->
  0 <= callee < 2 ^ 47 -> wf_bounds B ->
  load8 (st_mem st1) (bounds_sp st1) = Z.lor callee 0x800000000000 ->
  same_stack st1 st ->
  let st2 := push_local_result_bounds st true B in
  negb (load8 (st_mem st2) (bounds_sp st1) =? callee) = true /\
  (forall ptr, peek_result_bounds st2 true 0 ptr = B) /\
  (forall i, bounds_sp st1 <= i -> byte (st_mem st2) i = byte (st_mem st) i) /\
  (forall i, reserved i = false -> byte (st_mem st2) i = byte (st_mem st) i).
Proof.
  intros Hroom Hhi Hc HB Hck [Hsp Hby] st2. unfold stack_room in Hroom. pose proof sizeof_pos.
  destruct (push_result_spec stack_on st B) as [Hsp2 Hm2];
    [rewrite Hsp; unfold u64; lia|rewrite Hsp; lia|]. fold st2 in Hsp2, Hm2. rewrite Hsp in Hsp2, Hm2.
  assert (forall i, i < bounds_sp st1 - sizeof_bounds \/ bounds_sp st1 <= i ->
    byte (st_mem st2) i = byte (st_mem st) i) as Hout
    by (intros i Hi; rewrite Hm2; apply byte_write_bounds; lia).
  split; [|split; [|split]].
  - apply negb_true_iff, Z.eqb_neq.
    assert (load8 (st_mem st2) (bounds_sp st1) = Z.lor callee 0x800000000000) as ->;
      [|by apply tweaked_cookie_ne].
    rewrite <- Hck. apply load_ext. intros i Hi. rewrite Hout by lia. apply Hby. lia.
  - intros ptr. unfold peek_result_bounds. rewrite stack_on, Hm2, Hsp2.
    replace (8 * (0 * (sizeof_bounds / 8))) with 0 by lia. unfold add64.
    rewrite Z.add_0_r, wrap64_small by (unfold u64; lia). by apply read_write_bounds.
  - intros i Hi. apply Hout. lia.
  - intros i Hi. apply Hout.
    destruct (decide (bounds_sp st1 - sizeof_bounds <= i < bounds_sp st1)) as [Hin|]; [|lia].
    rewrite stack_reserved in Hi by lia. done.
Qed.

(** *** Calls *)
Definition body_refines (body : list (stmt U)) : Prop :=
  forall s c, related s c -> respects_body body s = true ->
    stack_room (stack_need_body body) (env c) ->
    stmt_refines (env c) (exec_body ideal_step ideal_call body s)
      (exec_body inst_step call_instr body c).

Lemma stack_need_body_nonneg (body : list (stmt U)) : 0 <= stack_need_body body.
Proof. induction body; cbn [stack_need_body]; lia. Qed.

Lemma call_return s c s1 c1 (st2 : St) dst ret saved :
  related s c -> related s1 c1 ->
  (forall i, reserved i = false -> byte (st_mem st2) i = byte (st_mem (env c1)) i) ->
  related (Ideal (<[dst := aregs s1 ret]> (aregs s)) (slots s1) (data s1))
    (Machine (<[dst := (value (aregs s1 ret), pbounds (aregs s1 ret))]> (regs c))
       (cleanup_bounds_stack st2 saved)).
Proof.
  intros Hrel Hrel1 Hres. split; cbn; [intros r|intros r|].
  - destruct (decide (dst = r)) as [->|]; rewrite ?fn_lookup_insert, ?fn_lookup_insert_ne by done;
      [apply (reg_wf _ _ Hrel1)|apply (reg_wf _ _ Hrel)].
  - destruct (decide (dst = r)) as [->|]; rewrite ?fn_lookup_insert, ?fn_lookup_insert_ne by done;
      [done|apply (reg_rep _ _ Hrel)].
  - unfold cleanup_bounds_stack. rewrite stack_on, st_mem_set_sp.
    by apply (memory_rel_reserved _ _ _ _ (mem_rep _ _ Hrel1)).
Qed.

Lemma call_refines s c dst callee args body ret :
  body_refines body -> related s c ->
  respects_stmt (Call dst callee args body ret) s = true ->
  stack_room (stack_need (Call dst callee args body ret)) (env c) ->
  stmt_refines (env c) (exec_stmt ideal_step ideal_call (Call dst callee args body ret) s)
    (exec_stmt inst_step call_instr (Call dst callee args body ret) c).
Proof.
  intros Hbody Hrel Hok Hroom. rewrite respects_call in Hok. apply andb_prop in Hok as [Hcal Hok].
  destruct (in_object_spec 0 (2 ^ 47) callee) as [Hc|]; [|done]. rewrite stack_need_call in Hroom.
  pose proof (stack_need_body_nonneg body). pose proof sizeof_pos as Hsz.
  rewrite !exec_call. unfold body_refines in Hbody.
  set (ib := exec_body ideal_step ideal_call body) in *.
  set (cb := exec_body inst_step call_instr body) in *. clearbody ib cb.
  unfold call_instr, ideal_call.
  set (Bs := (fun r => (regs c r).2) <$> args). set (ptrs := (fun r => (regs c r).1) <$> args).
  assert (length Bs = length args) as HlB by apply length_fmap.
  assert (Forall wf_bounds Bs) as HwB.
  { apply Forall_fmap, Forall_true. intros r. cbn. rewrite (reg_rep _ _ Hrel r).
    apply pbounds_wf, (reg_wf _ _ Hrel). }
  unfold stack_room in Hroom.
  destruct (pushes_spec (env c) callee Bs) as (Hsp & He & Hup & Hres);
    [unfold stack_room; rewrite HlB; lia|done|done|].
  fold (after_pushes (env c) callee Bs). set (st1 := after_pushes (env c) callee Bs) in *.
  rewrite HlB in Hsp.
  destruct (tweaked st1 callee Bs ptrs) as (st' & -> & -> & Hsp' & Hck & Hfr);
    [rewrite HlB, Hsp; unfold u64; lia|done|rewrite Hsp; unfold u64; lia
    |by rewrite HlB; apply length_fmap|done|].
  assert (forall i, reserved i = false -> byte (st_mem st') i = byte (st_mem (env c)) i) as Hres'.
  { intros i Hi. destruct (decide (bounds_sp st1 <= i < bounds_sp st1 + 8)) as [Hin|].
    - rewrite stack_reserved in Hi by lia. done.
    - rewrite Hfr by lia. by apply Hres. }
  pose proof (frame_related s c st' args Hrel Hres') as Hframe. fold ptrs Bs in Hframe.
  specialize (Hbody _ _ Hframe Hok). cbn [env] in Hbody.
  destruct Hbody as [Hev Hout]; [unfold stack_room; rewrite Hsp'; lia|].
  destruct (ib (ideal_frame s args)) as [ev out], (cb _) as [ev' out'].
  cbn [fst snd] in *. subst ev'. destruct out as [s1| | |], out' as [c1| | |]; try done.
  destruct Hout as [Hrel1 Hst1]. rewrite (reg_rep _ _ Hrel1 ret).
  destruct (result_found st' (env c1) callee (pbounds (aregs s1 ret))) as (Hr & Hpk & Hup2 & Hres2);
    [unfold stack_room; rewrite Hsp'; lia|rewrite Hsp'; lia|done
    |by apply pbounds_wf, (reg_wf _ _ Hrel1)|by rewrite Hsp'|done|].
  rewrite Hsp' in Hr, Hup2. rewrite Hr, Hpk. split; [done|]. cbn [snd].
  set (st2 := push_local_result_bounds _ _ _) in *. split.
  - by apply (call_return s c s1 c1).
  - unfold cleanup_bounds_stack. rewrite stack_on. split; cbn [env]; [by rewrite bounds_sp_set|].
    intros i Hi. destruct Hst1 as [_ Hb].
    rewrite st_mem_set_sp, Hup2, Hb, Hfr by lia. apply Hup. lia.
Qed.

Definition stmt_ok (x : stmt U) : Prop :=
  forall s c, related s c -> respects_stmt x s = true -> stack_room (stack_need x) (env c) ->
    stmt_refines (env c) (exec_stmt ideal_step ideal_call x s) (exec_stmt inst_step call_instr x c).

Lemma body_of_stmts (body : list (stmt U)) : Forall stmt_ok body -> body_refines body.
Proof.
  induction 1 as [|x body Hx _ IH]; intros s c Hrel; cbn [exec_body respects_body stack_need_body].
  { intros _ _. split; [done|]. by split. }
  intros [Hok Hbody]%andb_prop Hroom. unfold stack_room in Hroom.
  destruct (Hx s c Hrel Hok) as [He Ho]; [unfold stack_room; lia|].
  destruct (exec_stmt ideal_step ideal_call x s) as [ev out].
  destruct (exec_stmt inst_step call_instr x c) as [ev' out']. cbn [fst snd] in *. subst ev'.
  destruct out as [s1| | |], out' as [c1| | |]; try done. destruct Ho as [Hrel1 Hst1].
  destruct (IH s1 c1 Hrel1 Hbody) as [He1 Ho1].
  { unfold stack_room. destruct Hst1 as [-> _]. lia. }
  cbn [and_then]. destruct (exec_body ideal_step ideal_call body s1) as [ev1 o1].
  destruct (exec_body inst_step call_instr body c1) as [ev1' o1']. cbn [fst snd] in *. subst ev1'.
  split; [done|]. destruct o1 as [s2| | |], o1' as [c2| | |]; try done.
  destruct Ho1 as [Hrel2 Hst2]. split; [done|]. by apply (same_stack_trans _ (env c1)).
Qed.

Lemma every_stmt_ok x : stmt_ok x.
Proof.
  revert x. refine (stmt_nested_ind _ _ _).
  - intros i s c Hrel Hok Hroom. apply instr_refines; [done|done|].
    unfold stack_room in Hroom. cbn [stack_need] in Hroom. lia.
  - intros dst callee args b ret Hb s c. apply call_refines. by apply body_of_stmts.
Qed.

Lemma every_body_refines (body : list (stmt U)) : body_refines body.
Proof. apply body_of_stmts, Forall_true. apply every_stmt_ok. Qed.

(** ** Properties *)

(** C3. In the split-path configurations with a shadow space a disciplined tree
    of calls between instrumented functions behaves like the ideal machine: bounds reach the callees and come back, the accesses and
    the verdicts are those of the ideal machine, and when the tree is done the
    bounds stack is what it was, pointer and contents.  Disciplined means that
    along the ideal run every instruction of every body, and every call with its
    arguments and result, respects the discipline of [Program.v]
    ([respects_body]): an undisciplined one may diverge from the ideal machine
    ([double_oob_untraps]).  The bounds stack must have room for the deepest
    path of calls. *)
Theorem calls_refine (body : list (stmt U)) s c :
  related s c -> respects_body body s = true -> stack_room (stack_need_body body) (env c) ->
  (exec_body inst_step call_instr body c).1 = (exec_body ideal_step ideal_call body s).1 /\
  match (exec_body ideal_step ideal_call body s).2, (exec_body inst_step call_instr body c).2 with
  | Going s', Going c' => related s' c' /\ same_stack (env c) (env c')
  | Trapped, Trapped | Stopped, Stopped => True
  | _, _ => False
  end.
Proof. apply every_body_refines. Qed.
End calls.

(** ** The runtime as the environment *)
#[export] Instance rt_report_stack_laws `{C : Config} `{L : Liballocs} (site : Z) :
  ReportStackLaws process uniqtype (H := rt_stack site).
Proof.
  split; [exact (rt_report_laws site)|]. intros p d df B. cbn. unfold bounds_error_at, report.
  by destruct (report_failure_if_necessary _ _ _ _ _ _).
Qed.

(** A function that stores its second argument through its first, and returns
    what another function, which steps over one element, makes of the second. *)
#[local] Existing Instances ex_platform ex_platform_laws.
#[local] Instance ex_stack : StackEnv (@process tiny) ty := @rt_stack config_p tiny 1.
#[local] Instance ex_stack_laws : StackEnvLaws (@process tiny) ty := @rt_stack_laws config_p tiny 1.
#[local] Instance ex_stack_report : ReportStackLaws (@process tiny) ty :=
  @rt_report_stack_laws config_p tiny 1.

Definition ex_calls : list (stmt ty) :=
  [ Instr (IAddr 0 obj_a (obj_a + 0x40)); Instr (IAddr 1 obj_b (obj_b + 0x10));
    Call 2 0x401000 [0%nat; 1%nat]
      [ Instr (IStore 0 1 TInt);
        Call 2 0x402000 [1%nat] [ Instr (IDerive false 0 0 8 TInt) ] 0 ] 2;
    Instr (IWrite 2 8 42); Instr (ILoad 3 0); Instr (IDerive true 3 3 8 TInt); Instr (IRead 3 8) ].
Definition ex_process : @process tiny :=
  on_rt (set_rt_bounds_sp (L := tiny) (ex_stack_hi - 8)) tiny_process.

Lemma ex_stack_reserved i : ex_stack_lo <= i < ex_stack_hi -> reserved i = true.
Proof. intros Hi. cbn. lia. Qed.

Lemma calls_refine_witness :
  (exec_body (inst_step (C := config_p)) (call_instr (C := config_p)) ex_calls
     (machine_start ex_process)).1
  = [Stored obj_a; Derived true; Wrote (obj_b + 8) 8 42; Loaded obj_a; Derived true;
     Read (obj_b + 8) 8 42].
Proof.
  destruct (calls_refine (C := config_p) (SE := ex_stack) eq_refl eq_refl ex_stack_lo ex_stack_hi
    ltac:(unfold ex_stack_lo, ex_stack_hi; lia)
    ex_stack_reserved
    ex_calls ideal_start (machine_start ex_process)) as [Hev _].
  - apply (start_related (C := config_p) (SE := stack_shadow)). reflexivity.
  - vm_compute. reflexivity.
  - split; vm_compute; discriminate.
  - etransitivity; [exact Hev|]. vm_compute. reflexivity.
Defined.
