(* ===== verification/Transparency.v ===== *)
(** * Instrumented programs that go on after a fault

    A fault on a tagged pointer does not end the program: the handler of
    [src/libcrunch.c] ([Fault.v]) strips the tag from the register that held the
    address, and the instruction is restarted.  This file adds the handler to
    the instrumented machine of [Program.v], and shows that a program is
    spatially safe up to the first fix-up, and that what is left is the program
    without instrumentation: it makes the same accesses, in bounds or out of
    bounds, with the same data.  The exception is the store of a pointer through
    a tagged pointer, where the hook that stores the bounds faults first, and
    recovers for one of the three tags only. *)
From stdpp Require Import functions.
From S2P Require Import Prelude Config TrapPtr Bounds Derive Memory ShadowSpace Fault Report.
From S2P Require Import Runtime TinyAllocs Fetch SlotMemory Program.

(** ** The handler on an access

    The instruction has the address in one register, and no other operand. *)
Definition access_operands (pc : Z) : list operand := [Operand OP_mem (Some 0) None].
Definition access_gregs (v : Z) : gregs := fun r => match r with RAX => v | _ => 0 end.
Definition fault_handler (v : Z) : option Z :=
  match handle_sigsegv access_operands (access_gregs v) 0 with
  | Resume g _ => Some (g RAX)
  | Exit _ => None
  end.

Definition address_reg {U} (i : instr U) : option reg :=
  match i with
  | ILoad _ q | IStore q _ _ | IRead q _ | IWrite q _ _ => Some q
  | _ => None
  end.

(** A store of a pointer faults first in the hook that stores its bounds, at the
    shadow address of its size; the program goes on if the handler makes a user
    address of that. *)
Definition hook_recovers (p : Z) : bool :=
  match fault_handler (libcrunch_size_stored_loc p) with Some a => a <? 2 ^ 48 | None => false end.
Definition resumes `{Config} {U} (i : instr U) (p : Z) : bool :=
  match i with IStore _ _ _ => no_shadow_space || hook_recovers p | _ => true end.

(** The register is left without its tag, and a fix-up is counted; a second fault
    is final ([no_second_fixup]). *)
Definition handled_step `{C : Config} `{P : Platform} {St U : Type} `{ShadowEnv St U}
    (i : instr U) (s : machine St) : list event * status (machine St) :=
  match inst_step i s with
  | (ev, Trapped) =>
      match address_reg i with
      | Some q =>
          match fault_handler (regs s q).1 with
          | Some p =>
              if negb (resumes i (regs s q).1) then (ev, Trapped) else
              let '(ev', out) := inst_step i (set_reg q (p, (regs s q).2) s) in (ev ++ FixedUp :: ev', out)
          | None => (ev, Trapped)
          end
      | None => (ev, Trapped)
      end
  | r => r
  end.

(** ** The program without instrumentation *)
Record plain := Plain { pregs : reg -> Z; pmem : mem }.
Definition set_preg (r : reg) (p : Z) (s : plain) : plain := Plain (<[r := p]> (pregs s)) (pmem s).

Definition plain_step `{P : Platform} {U : Type} (i : instr U) (s : plain)
    : list event * status plain :=
  match i with
  | IAddr r b _ => ([], Going (set_preg r b s))
  | INull r => ([], Going (set_preg r 0 s))
  | IMove r q => ([], Going (set_preg r (pregs s q) s))
  | IDerive _ r q d _ => ([], Going (set_preg r (pregs s q +w d) s))
  | ILoad r q =>
      let p := pregs s q in
      if mapped p 8 then ([Loaded p], Going (set_preg r (load8 (pmem s) p) s)) else ([], Trapped)
  | IStore q r _ =>
      let p := pregs s q in
      if mapped p 8
      then ([Stored p], Going (Plain (pregs s) (store8 (pmem s) p (pregs s r)))) else ([], Trapped)
  | IRead q n =>
      let p := pregs s q in
      if mapped p (Z.of_nat n) then ([Read p n (load (pmem s) p n)], Going s) else ([], Trapped)
  | IWrite q n v =>
      let p := pregs s q in
      if mapped p (Z.of_nat n)
      then ([Wrote p n v], Going (Plain (pregs s) (store (pmem s) p n v))) else ([], Trapped)
  | ICopy q r n =>
      let p := pregs s q in
      let v := pregs s r in
      if mapped v (Z.of_nat n) && mapped p (Z.of_nat n)
      then ([CopiedFrom v n; CopiedTo p n], Going (Plain (pregs s) (memmove (pmem s) p v (Z.of_nat n))))
      else ([], Trapped)
  end.

(** The accesses of a trace. *)
Definition is_access (e : event) : bool := match e with Derived _ | FixedUp => false | _ => true end.
Definition accesses (ev : list event) : list event := List.filter is_access ev.

(** What is asked of the program: user addresses, and pointers and data kept
    apart, in bounds or not ([plain_respects]); and no store of a pointer
    through a tagged one ([store_untagged]), nor a block copy from or to one,
    whose fault is in libc. *)
Definition plain_respects `{P : Platform} {U : Type} (i : instr U) (s : plain) : bool :=
  match i with
  | IAddr _ b l => live b l
  | INull _ | IMove _ _ => true
  | IDerive _ _ q d _ => in_object 0 (2 ^ 48) (pregs s q + d)
  | ILoad _ q | IStore q _ _ => implb (mapped (pregs s q) 8) (pointer_slot (pregs s q))
  | IRead q n | IWrite q n _ =>
      (0 <? n)%nat &&
      implb (mapped (pregs s q) (Z.of_nat n))
        (bool_decide (one_range (pregs s q) (Z.of_nat n)) && data_range (pregs s q) n)
  | ICopy q r n =>
      (0 <? n)%nat &&
      implb (mapped (pregs s r) (Z.of_nat n) && mapped (pregs s q) (Z.of_nat n))
        (bool_decide (one_range (pregs s q) (Z.of_nat n)) && bool_decide (one_range (pregs s r) (Z.of_nat n)) &&
         copy_range (pregs s q) (pregs s r) n)
  end.
Definition store_untagged `{Config} {St U : Type} (i : instr U) (c : machine St) : bool :=
  match i with
  | IStore q _ _ => negb (libcrunch_is_trap_ptr (regs c q).1)
  | ICopy q r _ => negb (libcrunch_is_trap_ptr (regs c q).1) && negb (libcrunch_is_trap_ptr (regs c r).1)
  | _ => true
  end.
Fixpoint tame_program `{C : Config} `{P : Platform} {St U : Type} `{ShadowEnv St U}
    (prog : list (instr U)) (s : plain) (c : machine St) : bool :=
  match prog with
  | [] => true
  | i :: prog =>
      plain_respects i s && store_untagged i c &&
      match (plain_step i s).2, (handled_step i c).2 with
      | Going s, Going c => tame_program prog s c
      | _, _ => true
      end
  end.

(** ** The representation: an address with any tag, and the bounds of any object *)
Record tptr := TaggedPtr { t_addr : Z; t_tag : Z; t_base : Z; t_limit : Z }.
#[export] Instance tptr_rep `{Config} `{Platform} : PtrRep tptr := {|
  rep_value x := libcrunch_trap (t_addr x) (t_tag x);
  rep_bounds x := object_bounds (t_base x) (t_limit x);
  rep_ok x := wf_ptr (APtr (t_base x) (t_limit x) (t_addr x)) /\ 0 <= t_tag x < 4;
|}.
Definition untagged (x : tptr) : tptr := TaggedPtr (t_addr x) 0 (t_base x) (t_limit x).

Section transparency.
Context `{SC : SplitConfig} `{PL : PlatformLaws} {St U : Type}.
Context `{SE : ShadowEnv St U} `{!ShadowEnvLaws St U} `{!ReportLaws St U}.
Hypothesis shadow_on : no_shadow_space = false.
Hypothesis no_abort : abort_on_invalid_derive = false.

#[export] Instance tptr_rep_laws : PtrRepLaws tptr.
Proof.
  split; intros x [Hw Ht].
  - cbn. destruct Hw as [_ Ha]. cbn in Ha. rewrite trap_user_add by done.
    unfold user_addr, u64 in *. lia.
  - by apply (pbounds_storable (APtr (t_base x) (t_limit x) (t_addr x))).
Qed.

Definition regs_rel (xs : reg -> tptr) (s : plain) (c : machine St) : Prop :=
  forall r, rep_ok (xs r) /\ regs c r = (rep_value (xs r), rep_bounds (xs r)) /\ pregs s r = t_addr (xs r).
Definition mem_rel (sl : Z -> tptr) (s : plain) (c : machine St) : Prop :=
  memory_rel sl (pmem s) (st_mem (env c)) /\
  forall a, pointer_slot a = true -> load8 (pmem s) a = t_addr (sl a).
Definition plain_related (s : plain) (c : machine St) : Prop :=
  exists xs sl, regs_rel xs s c /\ mem_rel sl s c.

Definition outcome_related (a : status plain) (c : status (machine St)) : Prop :=
  match a, c with
  | Going s, Going c => plain_related s c
  | Trapped, Trapped => True
  | _, _ => False
  end.
Definition agrees (a : list event * status plain) (c : list event * status (machine St)) : Prop :=
  accesses c.1 = a.1 /\ outcome_related a.2 c.2.

(** *** Tags and faults *)
Lemma ok_user x : rep_ok x -> user_addr (t_addr x).
Proof. by intros [[_ Ha] _]. Qed.

Lemma fault_handler_eq v :
  fault_handler v =
    if is_our_tag (shr64 v LIBCRUNCH_TRAP_TAG_SHIFT) then Some (fixup_value v) else None.
Proof.
  unfold fault_handler, handle_sigsegv, access_operands.
  cbn [fold_left]. unfold saw_operand_cb. cbn [op_type fromreg1 fromreg2].
  change (negb (OP_mem =? OP_mem)) with false. unfold fixup_from. change (0 =? -1) with false.
  unfold try_register_fixup. change (lookup_reg 0) with (Some RAX). cbn [access_gregs].
  by destruct (is_our_tag _).
Qed.

Lemma fault_handler_tagged x :
  rep_ok x -> fault_handler (rep_value x) = if t_tag x =? 0 then None else Some (t_addr x).
Proof.
  intros Hx. pose proof (ok_user x Hx) as Ha. destruct Hx as [_ Ht]. cbn [rep_value tptr_rep].
  rewrite trap_user_add by done. unfold user_addr in Ha.
  assert (Hs : shr64 (t_addr x + t_tag x * 2 ^ 49) LIBCRUNCH_TRAP_TAG_SHIFT = t_tag x).
  { unfold shr64, LIBCRUNCH_TRAP_TAG_SHIFT. rewrite Z.shiftr_div_pow2, Z.div_add, Z.div_small by lia. lia. }
  rewrite fault_handler_eq, Hs.
  destruct (Z.eqb_spec (t_tag x) 0) as [->|Hne]; [done|].
  assert (is_our_tag (t_tag x) = true) as -> by (unfold is_our_tag; zcases; done || lia).
  rewrite fixup_value_mod, Z.mod_add by lia. f_equal. apply Z.mod_small. lia.
Qed.

Lemma tagged_unmapped x n :
  rep_ok x -> t_tag x <> 0 -> 0 < n -> mapped (rep_value x) n = false.
Proof.
  intros Hx Hne Hn. pose proof (ok_user x Hx) as Ha. destruct Hx as [_ Ht].
  apply not_true_is_false. intros Hm%mapped_canonical; [|done]. revert Hm. cbn [rep_value tptr_rep].
  rewrite trap_user_add by done. unfold user_addr in Ha. lia.
Qed.

Lemma untagged_value x : t_tag x = 0 -> rep_value x = t_addr x.
Proof. intros Ht. cbn. by rewrite Ht, trap_0. Qed.

Lemma untagged_ok x : rep_ok x -> rep_ok (untagged x).
Proof. intros [Hw _]. by split. Qed.

(** *** Registers *)
Lemma regs_rel_set xs s c r x :
  regs_rel xs s c -> rep_ok x ->
  regs_rel (<[r := x]> xs) (set_preg r (t_addr x) s) (set_reg r (rep_value x, rep_bounds x) c).
Proof.
  intros Hr Hx r'. cbn. destruct (decide (r = r')) as [->|];
    rewrite ?fn_lookup_insert, ?fn_lookup_insert_ne by done; [done|apply Hr].
Qed.

Lemma related_set s c r x :
  plain_related s c -> rep_ok x ->
  plain_related (set_preg r (t_addr x) s) (set_reg r (rep_value x, rep_bounds x) c).
Proof. intros (xs & sl & Hr & Hm) Hx. exists (<[r := x]> xs), sl. split; [by apply regs_rel_set|done]. Qed.

(** The concrete register changes, the address stays. *)
Lemma related_retag s c r x :
  plain_related s c -> rep_ok x -> t_addr x = pregs s r ->
  plain_related s (set_reg r (rep_value x, rep_bounds x) c).
Proof.
  intros (xs & sl & Hr & Hm) Hx Ha. exists (<[r := x]> xs), sl. split; [|done].
  intros r'. cbn. destruct (decide (r = r')) as [->|];
    rewrite ?fn_lookup_insert, ?fn_lookup_insert_ne by done; [done|apply Hr].
Qed.

Lemma related_env s c st :
  plain_related s c -> st_mem st = st_mem (env c) -> plain_related s (set_env st c).
Proof.
  intros (xs & sl & Hr & Hm) He. exists xs, sl. split; [done|].
  unfold mem_rel. cbn. by rewrite He.
Qed.

Lemma related_reg s c r :
  plain_related s c ->
  exists x, rep_ok x /\ regs c r = (rep_value x, rep_bounds x) /\ pregs s r = t_addr x.
Proof. intros (xs & sl & Hr & _). by exists (xs r). Qed.

(** *** Derivations *)
Lemma derive_tagged (st : St) x d (t : option U) :
  rep_ok x -> user_addr (t_addr x + d) ->
  exists ok tag st',
    full_check_derive_ptr st (rep_value x +w d) (rep_value x) (rep_bounds x) t =
      Ret (ok, libcrunch_trap (t_addr x + d) tag, rep_bounds x, st') /\
    0 <= tag < 4 /\ st_mem st' = st_mem st.
Proof.
  intros Hx Hd. pose proof (ok_user x Hx) as Ha. destruct Hx as [Hw Ht].
  destruct (wf_object _ Hw) as [Hb Hl]. cbn [rep_value rep_bounds tptr_rep pbase plimit paddr] in *.
  rewrite trap_add, full_check_split, no_abort by done.
  pose proof (next_tag_range (t_base x) (t_limit x) (t_addr x + d) (t_tag x) Ht).
  destruct (in_reach _ _ _); eexists _, _, _; (split; [done|]); split; try done. apply st_mem_error.
Qed.

Lemma derive_agrees s c deref r q d (t : U) :
  plain_related s c -> in_object 0 (2 ^ 48) (pregs s q + d) = true ->
  agrees (plain_step (IDerive deref r q d t) s) (inst_step (IDerive deref r q d t) c).
Proof.
  intros Hrel Hd. destruct (related_reg s c q Hrel) as (x & Hx & Hc & Hs).
  cbn [plain_step inst_step]. unfold derive_instr. rewrite Hc, Hs in *.
  destruct (in_object_spec 0 (2 ^ 48) (t_addr x + d)) as [Hu|]; [|done].
  destruct (derive_tagged (env c) x d (Some t) Hx Hu) as (ok & tag & st' & -> & Ht & Hst).
  set (y := TaggedPtr (t_addr x + d) tag (t_base x) (t_limit x)).
  assert (rep_ok y) as Hy by (destruct Hx as [[Hobj _] _]; by split).
  assert (t_addr x +w d = t_addr y) as -> by (apply wrap64_small; by apply user_u64).
  assert (plain_related (set_preg r (t_addr y) s)
    (set_reg r (rep_value y, rep_bounds y) (set_reg q (rep_value x, rep_bounds x) (set_env st' c)))) as Hr.
  { apply related_set; [|done]. apply related_retag; [by apply related_env|done|done]. }
  destruct deref; [|done]. unfold check_deref. by rewrite split_counts, trap_on.
Qed.

(** *** Accesses through a register without a tag *)
Definition plain_address (i : instr U) (s : plain) (c : machine St) : Prop :=
  forall q, address_reg i = Some q -> (regs c q).1 = pregs s q.

Lemma mapped_nonzero a n : mapped a n = true -> a <> 0.
Proof. intros Hm ->. by rewrite mapped_not_null in Hm. Qed.

Lemma load_agrees s c r q :
  plain_related s c -> plain_respects (U := U) (ILoad r q) s = true ->
  plain_address (ILoad r q) s c ->
  agrees (plain_step (U := U) (ILoad r q) s) (inst_step (ILoad r q) c).
Proof.
  intros Hrel Hok Hq. specialize (Hq q eq_refl). cbn [plain_respects plain_step inst_step] in *.
  unfold load_instr. destruct (regs c q) as [p B] eqn:Hc. cbn [fst] in Hq. subst p.
  destruct (mapped (pregs s q) 8) eqn:Hm; [|done]. cbn [implb] in Hok.
  pose proof Hrel as (xs & sl & _ & Hmem & Hsl). split; [done|]. cbn [snd outcome_related].
  rewrite (fetch_slot shadow_on _ _ _ _ Hmem), (slot_value _ _ _ Hmem), Hsl
    by (done || by apply (mapped_nonzero _ 8)).
  pose proof (slot_ok _ _ _ Hmem _ Hok) as Hx.
  destruct (Z.eqb_spec (rep_value (sl (pregs s q))) 0) as [Hz|]; [|by apply related_set].
  assert (t_addr (sl (pregs s q)) = 0) as ->.
  { pose proof (ok_user _ Hx) as Ha. destruct Hx as [_ Ht]. cbn [rep_value tptr_rep] in Hz.
    rewrite trap_user_add in Hz by done. unfold user_addr in Ha. lia. }
  rewrite Hz. rewrite make_bounds_object by done.
  assert (rep_ok (TaggedPtr 0 0 0 1)) as H0 by (split; [apply wf_null|done]).
  pose proof (related_set s c r _ Hrel H0) as Hr. cbn [rep_value rep_bounds tptr_rep t_addr t_tag] in Hr.
  by rewrite trap_0 in Hr.
Qed.

(** A write of data, on both sides. *)
Lemma mem_rel_write sl s c a n v :
  mem_rel sl s c -> one_range a (Z.of_nat n) -> data_range a n = true ->
  mem_rel sl (Plain (pregs s) (store (pmem s) a n v))
    (set_env (set_mem (store (st_mem (env c)) a n v) (env c)) c).
Proof.
  intros [Hm Hp] Ha Hd. split; cbn [pmem env set_env]; rewrite ?st_mem_set.
  - by apply memory_rel_write.
  - intros b Hb. rewrite <- Hp by done. apply load_store_other.
    destruct (data_range_spec a n b Hd Hb); lia.
Qed.

(** A pointer store writes another word on the two sides. *)
Lemma mem_rel_store sl s c a x :
  mem_rel sl s c -> pointer_slot a = true -> rep_ok x ->
  mem_rel (<[a := x]> sl) (Plain (pregs s) (store8 (pmem s) a (t_addr x)))
    (set_env (set_mem (store8 (shadow_store_bounds_for (st_mem (env c)) a (rep_bounds x) true) a
       (rep_value x)) (env c)) c).
Proof.
  intros [Hm Hp] Ha Hx. split; cbn [pmem env set_env]; rewrite ?st_mem_set.
  - pose proof (memory_rel_store_pointer _ _ _ a x Hm Ha Hx) as [H1 H2 H3 H4].
    split; [done|done|done|]. intros i Hi. rewrite H4 by done. symmetry.
    destruct Hi as [_ Hout]. unfold store8. apply byte_store_other. destruct (Hout a Ha); lia.
  - intros b Hb. destruct (decide (a = b)) as [->|Hne].
    + rewrite fn_lookup_insert. apply load8_store8. apply user_u64. by apply ok_user.
    + rewrite fn_lookup_insert_ne, <- Hp by done. apply load8_store8_ne.
      pose proof (slots_apart a b (slot_aligned a Ha) (slot_aligned b Hb) Hne). lia.
Qed.

Lemma store_agrees s c q r (t : U) :
  plain_related s c -> plain_respects (IStore q r t) s = true ->
  plain_address (IStore q r t) s c ->
  agrees (plain_step (IStore q r t) s) (inst_step (IStore q r t) c).
Proof.
  intros Hrel Hok Hq. specialize (Hq q eq_refl). cbn [plain_respects plain_step inst_step] in *.
  unfold store_instr. destruct (regs c q) as [p B] eqn:Hc. cbn [fst] in Hq. subst p.
  destruct (related_reg s c r Hrel) as (x & Hx & -> & Hs).
  rewrite (store_hook shadow_on)
    by (apply (pbounds_valid (APtr (t_base x) (t_limit x) (t_addr x))); by destruct Hx).
  destruct (mapped (pregs s q) 8) eqn:Hm; [|done]. cbn [implb] in Hok. split; [done|].
  cbn [snd outcome_related]. destruct Hrel as (xs & sl & Hr & Hmem). rewrite Hs.
  exists xs, (<[pregs s q := x]> sl). split; [done|].
  pose proof (mem_rel_store sl s c (pregs s q) x Hmem Hok Hx) as Hnew.
  unfold mem_rel in *. cbn [env set_env pmem] in *. by rewrite !st_mem_set in *.
Qed.

Lemma plain_respects_data a n :
  (0 <? n)%nat && implb (mapped a (Z.of_nat n))
    (bool_decide (one_range a (Z.of_nat n)) && data_range a n) = true ->
  mapped a (Z.of_nat n) = true -> one_range a (Z.of_nat n) /\ data_range a n = true.
Proof. intros [_ Hok]%andb_prop Hm. rewrite Hm in Hok. by apply andb_prop in Hok as [?%bool_decide_eq_true ?]. Qed.

Lemma read_agrees s c q n :
  plain_related s c -> plain_respects (U := U) (IRead q n) s = true ->
  plain_address (IRead q n) s c ->
  agrees (plain_step (U := U) (IRead q n) s) (inst_step (IRead q n) c).
Proof.
  intros Hrel Hok Hq. specialize (Hq q eq_refl). cbn [plain_respects plain_step inst_step] in *.
  destruct (regs c q) as [p B] eqn:Hc. cbn [fst] in Hq. subst p.
  destruct (mapped _ _) eqn:Hm; [|done].
  destruct (plain_respects_data (pregs s q) n) as [Hr Hd]; [by rewrite Hm|done|].
  split; [|done]. cbn. destruct Hrel as (xs & sl & _ & Hmem & _).
  by rewrite (memory_rel_read _ _ _ _ _ Hmem).
Qed.

Lemma write_agrees s c q n v :
  plain_related s c -> plain_respects (U := U) (IWrite q n v) s = true ->
  plain_address (IWrite q n v) s c ->
  agrees (plain_step (U := U) (IWrite q n v) s) (inst_step (IWrite q n v) c).
Proof.
  intros Hrel Hok Hq. specialize (Hq q eq_refl). cbn [plain_respects plain_step inst_step] in *.
  destruct (regs c q) as [p B] eqn:Hc. cbn [fst] in Hq. subst p.
  destruct (mapped _ _) eqn:Hm; [|done].
  destruct (plain_respects_data (pregs s q) n) as [Hr Hd]; [by rewrite Hm|done|].
  split; [done|]. destruct Hrel as (xs & sl & Hregs & Hmem).
  exists xs, sl. split; [done|]. by apply mem_rel_write.
Qed.

(** A block copy, on both sides. *)
Lemma mem_rel_copy sl s c d v n :
  mem_rel sl s c -> one_range d (Z.of_nat n) -> one_range v (Z.of_nat n) -> (0 < n)%nat -> copy_range d v n = true ->
  mem_rel (copy_slots d v n sl) (Plain (pregs s) (memmove (pmem s) d v (Z.of_nat n)))
    (set_env (set_mem (wrap_notify_copy real_notify_copy true
       (memmove (st_mem (env c)) d v (Z.of_nat n)) d v (Z.of_nat n)) (env c)) c).
Proof.
  intros [Hm Hp] Hd Hv Hn Hok. split; cbn [pmem env set_env]; rewrite ?st_mem_set.
  - apply memory_rel_copy; try done. apply real_notify_copy_bytes.
  - intros a Ha. destruct (copy_range_aligned _ _ _ Hok) as (Hdm & _ & Hnm).
    destruct (slot_aligned a Ha) as [_ Ham]. unfold copy_slots, load8.
    destruct (Z.leb_spec d a), (Z.ltb_spec a (d + Z.of_nat n)); cbn [andb].
    2-4: rewrite load_memmove_out by mod_lia; by apply Hp.
    rewrite <- (Hp (a - d + v)) by by rewrite <- (proj1 (copy_range_at _ _ _ a Hok ltac:(lia))).
    replace a with (d + (a - d)) at 1 by lia. rewrite load_memmove_in by mod_lia. unfold load8. f_equal. lia.
Qed.

(** What [store_untagged] says of a register. *)
Lemma untagged_reg s c q :
  plain_related s c -> negb (libcrunch_is_trap_ptr (regs c q).1) = true -> (regs c q).1 = pregs s q.
Proof.
  intros Hrel Hu. destruct (related_reg s c q Hrel) as (x & Hx & Hc & ->). rewrite Hc in *. cbn [fst] in *.
  pose proof (ok_user x Hx). assert (0 <= t_tag x < 4) as Hr by by destruct Hx. cbn [rep_value tptr_rep] in Hu.
  rewrite is_trap_tagged in Hu by done. destruct (Z.eqb_spec (t_tag x) 0); [|done]. by apply untagged_value.
Qed.

Lemma copy_agrees s c q r n :
  plain_related s c -> plain_respects (U := U) (ICopy q r n) s = true ->
  store_untagged (U := U) (ICopy q r n) c = true ->
  agrees (plain_step (U := U) (ICopy q r n) s) (inst_step (ICopy q r n) c).
Proof.
  intros Hrel Hok [Hq Hr]%andb_prop. apply (untagged_reg s c _ Hrel) in Hq, Hr.
  cbn [plain_respects plain_step inst_step] in *. unfold copy_instr.
  destruct (regs c q) as [p B] eqn:Hcq, (regs c r) as [v B'] eqn:Hcr. cbn [fst] in Hq, Hr. subst p v.
  destruct (_ && mapped _ _); [|done]. cbn [implb] in Hok. rewrite !andb_true_iff, !bool_decide_eq_true in Hok.
  destruct Hok as (Hn%Nat.ltb_lt & [Hd Hv] & Hcp). split; [done|]. destruct Hrel as (xs & sl & Hregs & Hmem).
  exists xs, (copy_slots (pregs s q) (pregs s r) n sl). split; [done|]. by apply mem_rel_copy.
Qed.

Lemma step_untagged s c (i : instr U) :
  plain_related s c -> plain_respects i s = true ->
  (address_reg i = None -> store_untagged i c = true) -> plain_address i s c ->
  agrees (plain_step i s) (inst_step i c).
Proof.
  intros Hrel. destruct i as [r b l|r|r q|deref r q d t|r q|q r t|q n|q n v|q r n].
  - intros Hl _ _. split; [done|]. cbn. pose proof (live_range _ _ Hl) as (Hb & _ & Hr).
    apply one_range_user in Hr; [|lia].
    rewrite make_bounds_object by (unfold user_addr; lia).
    assert (rep_ok (TaggedPtr b 0 b l)) as Hx
      by (split; [|done]; split; [by right|unfold user_addr; cbn; lia]).
    pose proof (related_set s c r _ Hrel Hx) as Hset. cbn [rep_value rep_bounds tptr_rep] in Hset.
    by rewrite trap_0 in Hset.
  - intros _ _ _. split; [done|]. cbn. rewrite make_bounds_object by done.
    assert (rep_ok (TaggedPtr 0 0 0 1)) as Hx by (split; [apply wf_null|done]).
    pose proof (related_set s c r _ Hrel Hx) as Hset. cbn [rep_value rep_bounds tptr_rep] in Hset.
    by rewrite trap_0 in Hset.
  - intros _ _ _. split; [done|]. cbn. destruct (related_reg s c q Hrel) as (x & Hx & -> & ->).
    by apply related_set.
  - intros Hd _ _. by apply derive_agrees.
  - intros Hok _. by apply load_agrees.
  - intros Hok _. by apply store_agrees.
  - intros Hok _. by apply read_agrees.
  - intros Hok _. by apply write_agrees.
  - intros Hok Hu _. by apply copy_agrees; [..|apply Hu].
Qed.

(** *** Accesses through a tagged register *)
Lemma tagged_traps s c (i : instr U) q x :
  plain_related s c -> plain_respects i s = true ->
  address_reg i = Some q -> store_untagged i c = true ->
  rep_ok x -> regs c q = (rep_value x, rep_bounds x) -> t_tag x <> 0 ->
  inst_step i c = ([], Trapped).
Proof.
  intros Hrel Hok Hq Hst Hx Hc Ht.
  destruct i as [r b l|r|r q'|deref r q' d t|r q'|q' r t|q' n|q' n v|q' r n]; try done;
    injection Hq as ->; cbn [inst_step plain_respects store_untagged] in *.
  - unfold load_instr. by rewrite Hc, tagged_unmapped.
  - exfalso. rewrite Hc in Hst. cbn [fst rep_value tptr_rep] in Hst.
    pose proof (ok_user x Hx). destruct Hx as [_ Hr].
    rewrite is_trap_tagged in Hst by done. destruct (Z.eqb_spec (t_tag x) 0); done.
  - apply andb_prop in Hok as [Hn%Nat.ltb_lt _]. by rewrite Hc, tagged_unmapped by (done || lia).
  - apply andb_prop in Hok as [Hn%Nat.ltb_lt _]. by rewrite Hc, tagged_unmapped by (done || lia).
Qed.

Lemma untagged_store_resumes (c : machine St) (i : instr U) q x :
  address_reg i = Some q -> store_untagged i c = true ->
  rep_ok x -> (regs c q).1 = rep_value x -> t_tag x <> 0 -> resumes i (rep_value x) = true.
Proof.
  intros Hq Hst Hx Hc Ht. destruct i; try done. injection Hq as ->. cbn [store_untagged] in Hst.
  rewrite Hc in Hst. cbn [rep_value tptr_rep] in Hst. pose proof (ok_user x Hx). destruct Hx as [_ Hr].
  rewrite is_trap_tagged in Hst by done. by destruct (Z.eqb_spec (t_tag x) 0).
Qed.

Lemma handled_agrees s c (i : instr U) :
  plain_related s c -> plain_respects i s = true -> store_untagged i c = true ->
  agrees (plain_step i s) (handled_step i c).
Proof.
  intros Hrel Hok Hst. unfold handled_step. destruct (address_reg i) as [q|] eqn:Hq.
  - destruct (related_reg s c q Hrel) as (x & Hx & Hc & Hs).
    destruct (decide (t_tag x = 0)) as [Ht|Ht].
    + assert (agrees (plain_step i s) (inst_step i c)) as Hag.
      { apply step_untagged; [done|done|by rewrite Hq|]. intros q' Hq'. rewrite Hq in Hq'. injection Hq' as <-.
        rewrite Hc, Hs. by apply untagged_value. }
      destruct (inst_step i c) as [ev out]. rewrite Hc. cbn [fst].
      rewrite (fault_handler_tagged x Hx), Ht. by destruct out.
    + rewrite (tagged_traps s c i q x), Hc by done. cbn [fst snd].
      rewrite (fault_handler_tagged x Hx), (proj2 (Z.eqb_neq _ _) Ht).
      rewrite (untagged_store_resumes c i q x) by (done || by rewrite Hc). cbn [negb].
      pose proof (related_retag s c q (untagged x) Hrel (untagged_ok x Hx) (eq_sym Hs)) as Hrel'.
      cbn [rep_value rep_bounds tptr_rep untagged t_addr t_tag t_base t_limit] in Hrel'.
      rewrite trap_0 in Hrel'. cbn [rep_bounds tptr_rep].
      assert (agrees (plain_step i s)
        (inst_step i (set_reg q (t_addr x, object_bounds (t_base x) (t_limit x)) c))) as Hag.
      { apply step_untagged; [done|done|by rewrite Hq|]. intros q' Hq'. rewrite Hq in Hq'. injection Hq' as <-.
        cbn. by rewrite fn_lookup_insert. }
      by destruct (inst_step i _).
  - assert (agrees (plain_step i s) (inst_step i c)) as Hag.
    { apply step_untagged; [done|done|done|]. intros q' Hq'. by rewrite Hq in Hq'. }
    destruct (inst_step i c) as [ev out]. by destruct out.
Qed.

Lemma accesses_app ev ev' : accesses (ev ++ ev') = accesses ev ++ accesses ev'.
Proof. apply List.filter_app. Qed.

Lemma run_agrees (prog : list (instr U)) : forall s c,
  plain_related s c -> tame_program prog s c = true ->
  agrees (run plain_step prog s) (run handled_step prog c).
Proof.
  induction prog as [|i prog IH]; intros s c Hrel; cbn [run tame_program]; [done|].
  intros [[Hok Hst]%andb_prop Hprog]%andb_prop.
  destruct (handled_agrees s c i Hrel Hok Hst) as [He Ho].
  destruct (plain_step i s) as [ev out], (handled_step i c) as [ev' out']. cbn [fst snd] in *.
  destruct out as [s'| | |], out' as [c'| | |]; try done.
  destruct (IH s' c' Ho Hprog) as [He' Ho'].
  destruct (run plain_step prog s'), (run handled_step prog c'). cbn [fst snd] in *.
  split; cbn [fst snd]; [|done]. by rewrite accesses_app, He, He'.
Qed.

Definition plain_start : plain := Plain (fun _ => 0) ∅.
Lemma plain_start_related (st : St) :
  st_mem st = ∅ -> plain_related plain_start (machine_start st).
Proof.
  intros Hst. set (x := TaggedPtr 0 0 0 1). exists (fun _ => x), (fun _ => x).
  assert (rep_ok x) as Hx by (split; [apply wf_null|done]).
  assert (rep_value x = 0) as Hv by (cbn; apply trap_0).
  split; [intros r; split; [done|]; split; [by rewrite Hv|done]|].
  split; [|done]. cbn [machine_start env]. rewrite Hst.
  split; intros a Ha; rewrite ?Hv; done.
Qed.

(** *** The store hook *)

(** The first shadow address the hook uses for a pointer stored through a
    one-past pointer: what the shift leaves of the tag is not one of ours, and
    the handler gives up. *)
Lemma hook_fault_one_past a :
  user_addr a ->
  2 ^ 48 <= libcrunch_size_stored_loc (libcrunch_trap a LIBCRUNCH_TRAP_ONE_PAST) < 2 ^ 49 /\
  fault_handler (libcrunch_size_stored_loc (libcrunch_trap a LIBCRUNCH_TRAP_ONE_PAST)) = None.
Proof.
  intros Ha. unfold LIBCRUNCH_TRAP_ONE_PAST. rewrite trap_user_add by (done || lia).
  unfold user_addr in Ha.
  assert (libcrunch_size_stored_loc (a + 1 * 2 ^ 49) = 2 ^ 43 + (2 ^ 48 + a / 2)) as ->.
  { unfold libcrunch_size_stored_loc, shr64. change (shl64 0x08 0x28) with (2 ^ 43).
    rewrite Z.shiftr_div_pow2 by lia. word_lia. }
  split; [mod_lia|]. rewrite fault_handler_eq. unfold shr64, LIBCRUNCH_TRAP_TAG_SHIFT.
  rewrite Z.shiftr_div_pow2, Z.div_small by (lia || mod_lia). done.
Qed.

(** One stored through a pointer before its object goes on. *)
Lemma hook_recovers_tags a :
  user_addr a ->
  hook_recovers (libcrunch_trap a 1) = false /\ hook_recovers (libcrunch_trap a 2) = true /\
  hook_recovers (libcrunch_trap a 3) = false.
Proof.
  intros Ha. unfold hook_recovers. destruct (hook_fault_one_past a Ha) as [_ Hone].
  unfold LIBCRUNCH_TRAP_ONE_PAST in Hone. rewrite Hone. split; [done|].
  rewrite !trap_user_add by (done || lia). unfold user_addr in Ha.
  assert (Hloc : forall t, 0 <= t < 4 ->
    libcrunch_size_stored_loc (a + t * 2 ^ 49) = 2 ^ 43 + (t * 2 ^ 48 + a / 2)).
  { intros t Ht. unfold libcrunch_size_stored_loc, shr64. change (shl64 0x08 0x28) with (2 ^ 43).
    rewrite Z.shiftr_div_pow2 by lia. word_lia. }
  rewrite !Hloc, !fault_handler_eq, !fixup_value_mod by lia. unfold shr64, LIBCRUNCH_TRAP_TAG_SHIFT.
  rewrite !Z.shiftr_div_pow2 by lia.
  assert ((2 ^ 43 + (2 * 2 ^ 48 + a / 2)) / 2 ^ 49 = 1) as -> by mod_lia.
  assert ((2 ^ 43 + (3 * 2 ^ 48 + a / 2)) / 2 ^ 49 = 1) as -> by mod_lia.
  cbn [is_our_tag Z.eqb orb]. split; [apply Z.ltb_lt|apply Z.ltb_ge]; mod_lia.
Qed.

(** ** Faults and spatial safety *)

(** Until its first fault a program runs without the handler; what the handler
    adds starts with a fix-up. *)
Lemma run_handled (prog : list (instr U)) : forall c,
  exists rest, (run handled_step prog c).1 = (run inst_step prog c).1 ++ rest /\
    (rest = [] \/ (run inst_step prog c).2 = Trapped /\ exists rest', rest = FixedUp :: rest').
Proof.
  induction prog as [|i prog IH]; intros c; [exists []; split; [done|by left]|]. cbn [run]. unfold handled_step at 1.
  destruct (inst_step i c) as [ev out]. destruct out as [c'| | |]; try (exists []; rewrite app_nil_r; split; [done|by left]).
  - destruct (IH c') as (rest & Hr & Hend). exists rest.
    destruct (run handled_step prog c') as [e1 o1], (run inst_step prog c') as [e2 o2]. cbn [fst snd] in *.
    rewrite Hr, app_assoc. split; [done|exact Hend].
  - assert (Hnone : exists rest, ev = ev ++ rest /\
      (rest = [] \/ Trapped (S := machine St) = Trapped /\ exists rest', rest = FixedUp :: rest'))
      by (exists []; rewrite app_nil_r; split; [done|by left]).
    destruct (address_reg i) as [q|]; [|exact Hnone]. destruct (fault_handler _) as [p|]; [|exact Hnone].
    destruct (negb (resumes i _)); [exact Hnone|].
    destruct (inst_step i _) as [ev' out']. destruct out' as [c2| | |]; cbn [fst snd].
    + destruct (run handled_step prog c2) as [e1 o1]. cbn [fst]. exists (FixedUp :: ev' ++ e1).
      rewrite <- app_assoc. split; [done|]. right. split; [done|by eexists].
    + exists (FixedUp :: ev'). split; [done|]. right. split; [done|by eexists].
    + exists (FixedUp :: ev'). split; [done|]. right. split; [done|by eexists].
    + exists (FixedUp :: ev'). split; [done|]. right. split; [done|by eexists].
Qed.

(** ** Properties *)

(** C2. Spatial safety up to the first fix-up, in the split-path configurations
    with a shadow space. With the fault handler installed, a disciplined program
    (aligned accesses, pointers kept in pointer slots, no derivation from
    outside an object to outside it: [disciplined]) makes the accesses of the
    ideal machine, each of them whole within one live object, and nothing else -
    unless the ideal machine stops it before an access outside the object of its
    pointer. Then the run may go on (the handler strips the tag and the access
    is made), but only after a fix-up that is counted: so a run without fix-ups
    is spatially safe. (That an access which starts in its object also ends
    there is part of the discipline; that it starts there is what the checks
    give.) *)
Theorem program_spatially_safe (prog : list (instr U)) (s : ideal) (c : machine St) :
  related s c -> disciplined prog s = true ->
  exists rest, (run handled_step prog c).1 = (run ideal_step prog s).1 ++ rest /\
    Forall (fun e => match footprint e with
      | None => True
      | Some (a, n) => exists b l, live b l = true /\ b <= a /\ a + n <= l
      end) (run ideal_step prog s).1 /\
    (rest = [] \/ (run ideal_step prog s).2 = Trapped /\ exists rest', rest = FixedUp :: rest').
Proof.
  intros Hrel Hprog. destruct (run_handled prog c) as (rest & Hr & Hend).
  destruct (run_related shadow_on prog s c Hrel Hprog) as [Hev Hst]. exists rest. rewrite Hr, Hev. split; [done|].
  split; [exact (run_in_live shadow_on prog s c Hrel Hprog)|].
  destruct Hend as [|[Ht Hx]]; [by left|]. right. split; [|done]. rewrite Ht in Hst.
  by destruct (run ideal_step prog s).2.
Qed.

(** C6. With the fault handler, instrumentation is transparent, in the
    split-path configurations that have a shadow space and do not abort on a
    derivation out of bounds: a program that keeps to user addresses, keeps
    pointers and data apart, accesses nothing across the end of the memory it is
    in, and neither stores a pointer through a tagged pointer nor copies blocks
    from or to one (these faults, in the hooks and in libc, can be final:
    [hook_fault_one_past]) makes the accesses it would make without
    instrumentation, in bounds or out of bounds, to the same addresses and with
    the same data, and it ends as that would; pointers in registers and in
    memory stay the plain addresses with some tag. *)
Theorem program_transparent (prog : list (instr U)) (s : plain) (c : machine St) :
  plain_related s c -> tame_program prog s c = true ->
  accesses (run handled_step prog c).1 = (run plain_step prog s).1 /\
  outcome_related (run plain_step prog s).2 (run handled_step prog c).2.
Proof. apply run_agrees. Qed.
End transparency.

(** ** A program with two faults

    The pointer goes out of its object, is read through, goes further out (its
    tag is gone, and with it the next check's), is stored and loaded again, and
    written through. *)
#[local] Existing Instances ex_platform ex_platform_laws ex_env ex_env_laws ex_env_report.
Definition ex_faulting : list (instr ty) :=
  [ IAddr 0 obj_a (obj_a + 0x40); IAddr 1 obj_b (obj_b + 0x10); IWrite 1 8 7;
    IDerive true 1 1 0x20 TInt; IRead 1 4; IDerive false 2 1 (-0x28) TInt;
    IStore 0 2 TInt; ILoad 3 0; IDerive true 3 3 0x8 TInt; IRead 3 8;
    IDerive true 5 0 8 (TPtr TInt); ICopy 5 0 8; ILoad 6 5; IRead 6 8; INull 4; IRead 4 1 ].
Definition ex_accesses : list event :=
  [Wrote obj_b 8 7; Read (obj_b + 0x20) 4 0; Stored obj_a; Loaded obj_a; Read obj_b 8 7;
   CopiedFrom obj_a 8; CopiedTo (obj_a + 8) 8; Loaded (obj_a + 8); Read (obj_b - 8) 8 0].

(** The last read of [ex_program] is out of bounds: it comes after a fix-up. *)
Lemma program_spatially_safe_witness :
  exists rest', (run (handled_step (C := config_p) (H := ex_env)) ex_program (machine_start tiny_process)).1 =
    ex_trace ++ FixedUp :: rest'.
Proof.
  destruct (program_spatially_safe (C := config_p) (SE := ex_env) eq_refl ex_program ideal_start
    (machine_start tiny_process)) as (rest & Hr & _ & Hend).
  - apply (start_related (C := config_p) (SE := ex_env)). reflexivity.
  - exact ex_disciplined.
  - assert ((run (ideal_step (C := config_p)) ex_program ideal_start).1 = ex_trace) as He by (vm_compute; reflexivity).
    rewrite He in Hr. destruct Hend as [-> | (_ & rest' & ->)]; [|by exists rest'].
    exfalso. assert (length (run (handled_step (C := config_p) (H := ex_env)) ex_program (machine_start tiny_process)).1 =
      S (S (length ex_trace))) as Hlen by (vm_compute; reflexivity).
    rewrite Hr, app_nil_r in Hlen. lia.
Defined.

Lemma program_transparent_witness :
  accesses (run (handled_step (C := config_p) (H := ex_env)) ex_faulting
    (machine_start tiny_process)).1 = ex_accesses.
Proof.
  destruct (program_transparent (C := config_p) (SE := ex_env) eq_refl eq_refl ex_faulting plain_start
    (machine_start tiny_process)) as [Hev _].
  - apply (plain_start_related (C := config_p) (SE := ex_env)). reflexivity.
  - vm_compute. reflexivity.
  - etransitivity; [exact Hev|]. vm_compute. reflexivity.
Defined.
