(* ===== verification/BoundsLayout.v ===== *)
(** * Bounds of local variables

    A local variable whose address is not taken has its bounds in another
    local variable: one bounds object for a pointer, a one-dimensional array of
    them for a structure or an array that contains pointers, nothing for the
    rest.  The front end ([src/frontend/c/crunchbound/crunchbound.ml]) computes
    the type of that variable ([boundsTForT]), an expression for the index of
    the bounds of each pointer in it ([boundsIndexExprForOffset]), and the list
    of the pointers in an expression, whose bounds it passes to and from calls
    ([containedPointerExprsForExpr]).  The file models the three and proves that
    they agree: every pointer has bounds of its own, inside the variable.

    OCaml's [failwith] is [None].  The types of lvalues are computed by CIL (a
    submodule): [typeOf] is a parameter. *)
From S2P Require Import Prelude Config Init.

(** ** Types

    [TPtr] says whether the type it points to is [void] (CIL's [typeSig] of it,
    which looks through typedefs); [Unbounded] arrays have no length, and a
    length may not be constant. *)
Inductive array_bound := Unbounded | NonConstant | Constant (n : Z).
#[warnings="-register-all"]
Inductive ctype :=
| TVoid | TInt | TFloat | TFun | TEnum | TBuiltin_va_list
| TPtr (to_void : bool)
| TArray (elt : ctype) (b : array_bound)
| TNamed (ttype : ctype)
| TComp (cstruct : bool) (cfields : list ((string * Z) * ctype)).

(** A field: its name, where it is declared, and its type. *)
Abbreviation fieldinfo := ((string * Z) * ctype)%type.

(** The bounds type of a type: [__libcrunch_bounds_t] or an array of them. *)
Inductive bounds_type := BSingle | BArray (n : Z).

(** OCaml's [Int64]. *)
Definition int64 (x : Z) : Z := (x + 2 ^ 63) mod 2 ^ 64 - 2 ^ 63.
(** C's [int], in which the generated expressions compute. *)
Definition int32 (x : Z) : Z := (x + 2 ^ 31) mod 2 ^ 32 - 2 ^ 31.

Definition boundsTAsNumber (b : option bounds_type) : Z :=
  match b with None => 0 | Some BSingle => 1 | Some (BArray n) => n end.

Definition boundsTTimesN (b : option bounds_type) (n : Z) : option bounds_type :=
  match b with
  | None => None
  | Some BSingle => if n =? 1 then Some BSingle else Some (BArray n)
  | Some (BArray m) => Some (BArray (int64 (n * m)))
  end.

Definition boundsTPlusN (b : option bounds_type) (n : Z) : option bounds_type :=
  match b with
  | None => if n =? 0 then None else if n =? 1 then Some BSingle else Some (BArray n)
  | Some BSingle => if n =? 0 then Some BSingle else Some (BArray (int64 (n + 1)))
  | Some (BArray m) => Some (BArray (int64 (n + m)))
  end.

Definition boundsTPlusBoundsT (b1 b2 : option bounds_type) : option bounds_type :=
  match b2 with
  | None => boundsTPlusN b1 0
  | Some BSingle => boundsTPlusN b1 1
  | Some (BArray m) => boundsTPlusN b1 m
  end.

Section layout.
(** The option [--void-ptr-has-bounds]. *)
Context (voidPtrHasBounds : bool).

Definition ptr_has_bounds (to_void : bool) : bool := if to_void then voidPtrHasBounds else true.

Fixpoint boundsTForT (t : ctype) : option (option bounds_type) :=
  match t with
  | TVoid | TFun => None
  | TInt | TFloat | TEnum | TBuiltin_va_list => Some None
  | TPtr to_void => Some (if ptr_has_bounds to_void then Some BSingle else None)
  | TArray at_ Unbounded => None
  | TArray at_ NonConstant => None
  | TArray at_ (Constant n) => b ← boundsTForT at_; Some (boundsTTimesN b n)
  | TNamed ttype => boundsTForT ttype
  | TComp _ cfields =>
      bs ← mapM (fun fi : fieldinfo => boundsTForT fi.2) cfields;
      Some (fold_left boundsTPlusBoundsT bs None)
  end.

Definition typeNeedsBounds (t : ctype) : option bool :=
  b ← boundsTForT t; Some (match b with Some _ => true | None => false end).

(** ** Offsets

    An lvalue is a variable with a list of steps; a field knows the fields of
    its structure ([fi.fcomp.cfields]). *)
Inductive step (I : Type) := Field (fcomp : list fieldinfo) (fi : fieldinfo) | Index (i : I).
Arguments Field {I}.
Arguments Index {I}.

(** Expressions of type [int]; [IUser] is an index expression of the program. *)
Inductive iexp (E : Type) :=
| IConst (n : Z) | IUser (e : E) | IPlus (a b : iexp E) | IMult (a b : iexp E).
Arguments IConst {E}.
Arguments IUser {E}.
Arguments IPlus {E}.
Arguments IMult {E}.

Section index.
Context {E : Type}.
Abbreviation offset := (list (step (iexp E))).
(** [Cil.typeOf] of a variable of the type given, with an offset. *)
Context (typeOf : ctype -> offset -> ctype).

(** [addEarlierFields]: a field is recognised by its name and location. *)
Fixpoint addEarlierFields (fi : fieldinfo) (acc someFis : list fieldinfo) : list fieldinfo :=
  match someFis with
  | [] => acc
  | someFi :: more =>
      if bool_decide (someFi.1.2 = fi.1.2) && bool_decide (someFi.1.1 = fi.1.1) then acc
      else addEarlierFields fi (acc ++ [someFi]) more
  end.

Fixpoint boundsIndexExprForOffset (start : iexp E) (offs : offset) (host : ctype) (prev : offset)
    : option (iexp E) :=
  match offs with
  | Field fcomp fi :: next =>
      let earlierFields := addEarlierFields fi [] fcomp in
      bs ← mapM (fun f : fieldinfo => boundsTForT f.2) earlierFields;
      let fieldOffset := boundsTAsNumber (fold_left boundsTPlusBoundsT bs None) in
      boundsIndexExprForOffset (IPlus start (IConst fieldOffset)) next host (prev ++ [Field fcomp fi])
  | Index intExp :: next =>
      let offsetUpToHere := prev ++ [Index intExp] in
      zeroIndexExpr ← boundsIndexExprForOffset start next host offsetUpToHere;
      let elemT := typeOf host offsetUpToHere in
      b ← boundsTForT elemT;
      Some (IPlus zeroIndexExpr (IMult intExp (IConst (boundsTAsNumber b))))
  | [] => Some start
  end.

(** [boundsLvalForLocalLval]: the bounds variable of [host], whole or at an
    index; [None] inside is [NoOffset]. *)
Definition boundsLvalForLocalLval (host : ctype) (loff : offset) : option (option (iexp E)) :=
  bt ← boundsTForT host;
  bt ← bt;
  indexExpr ← boundsIndexExprForOffset (IConst 0) loff host [];
  Some (match bt with BArray _ => Some indexExpr | BSingle => None end).

(** [checkInLocalBounds]: the limit that the index of the last step is checked
    against. *)
Fixpoint getArrayBound (t : ctype) : option Z :=
  match t with
  | TArray _ (Constant n) => Some n
  | TNamed ttype => getArrayBound ttype
  | _ => None
  end.
Definition checkInLocalBounds (host : ctype) (prevOffsets : offset) (intExp : iexp E) : option (iexp E * Z) :=
  bound ← getArrayBound (typeOf host prevOffsets); Some (intExp, bound).
End index.

(** The pointers of a type, as offsets; the lists of [intsUpTo]. *)
Definition intsUpTo (n : Z) : list Z := Z.of_nat <$> seq 0 (Z.to_nat n).
Definition offsets_at (n : Z) (elementPtrOffsets : list (list (step Z))) : list (list (step Z)) :=
  concat ((fun offset => (fun i => Index i :: offset) <$> intsUpTo n) <$> elementPtrOffsets).
Fixpoint enumeratePointerYieldingOffsetsForT (t : ctype) : option (list (list (step Z))) :=
  match t with
  | TVoid | TInt | TFloat | TEnum | TBuiltin_va_list => Some []
  | TPtr to_void => Some (if ptr_has_bounds to_void then [[]] else [])
  | TArray _ Unbounded | TArray _ NonConstant => None
  | TArray at_ (Constant n) =>
      os ← enumeratePointerYieldingOffsetsForT at_; Some (offsets_at n os)
  | TFun => None
  | TNamed ttype => enumeratePointerYieldingOffsetsForT ttype
  | TComp _ cfields =>
      oss ← mapM (fun fi : fieldinfo => os ← enumeratePointerYieldingOffsetsForT fi.2;
                    Some (map (fun offs => Field cfields fi :: offs) os)) cfields;
      Some (fold_left app oss [])
  end.

(** ** What the index should be

    The pointers of a type in the order of their addresses (element by element,
    field by field), each as an offset, and how many there are. *)
Fixpoint leaves (t : ctype) : list (list (step Z)) :=
  match t with
  | TPtr to_void => if ptr_has_bounds to_void then [[]] else []
  | TArray at_ (Constant n) => concat (map (fun i => map (cons (Index i)) (leaves at_)) (intsUpTo n))
  | TNamed ttype => leaves ttype
  | TComp _ fs => concat (map (fun fi : fieldinfo => map (cons (Field fs fi)) (leaves fi.2)) fs)
  | _ => []
  end.
Definition sumZ (ns : list Z) : Z := foldr Z.add 0 ns.
Fixpoint slots (t : ctype) : Z :=
  match t with
  | TPtr to_void => if ptr_has_bounds to_void then 1 else 0
  | TArray at_ (Constant n) => n * slots at_
  | TNamed ttype => slots ttype
  | TComp _ fs => sumZ (map (fun fi : fieldinfo => slots fi.2) fs)
  | _ => 0
  end.

(** The types of local variables: complete, with constant lengths, the fields
    of a structure told apart by name and location, and fewer than 2^31
    pointers in any part. *)
Fixpoint wf_type (t : ctype) : bool :=
  match t with
  | TVoid | TFun => false
  | TInt | TFloat | TEnum | TBuiltin_va_list | TPtr _ => true
  | TArray at_ (Constant n) => wf_type at_ && (0 <=? n) && (n * slots at_ <? 2 ^ 31)
  | TArray _ _ => false
  | TNamed ttype => wf_type ttype
  | TComp _ fs =>
      forallb (fun fi : fieldinfo => wf_type fi.2) fs && bool_decide (NoDup (map fst fs)) &&
      (sumZ (map (fun fi : fieldinfo => slots fi.2) fs) <? 2 ^ 31)
  end.

(** Following an offset from a type, with every index inside its array. *)
Inductive lands : ctype -> list (step Z) -> ctype -> Prop :=
| lands_here t : lands t [] t
| lands_named t o t' : lands t o t' -> lands (TNamed t) o t'
| lands_index t n i o t' : 0 <= i < n -> lands t o t' -> lands (TArray t (Constant n)) (Index i :: o) t'
| lands_field s fs fi o t' : fi ∈ fs -> lands fi.2 o t' -> lands (TComp s fs) (Field fs fi :: o) t'.

(** Looking through typedefs. *)
Fixpoint unroll (t : ctype) : ctype := match t with TNamed t => unroll t | _ => t end.
End layout.
Arguments Field {I}.
Arguments Index {I}.
Arguments IConst {E}.
Arguments IUser {E}.
Arguments IPlus {E}.
Arguments IMult {E}.

Fixpoint ctype_ind' (P : ctype -> Prop)
    (Hvoid : P TVoid) (Hint : P TInt) (Hfloat : P TFloat) (Hfun : P TFun) (Henum : P TEnum)
    (Hva : P TBuiltin_va_list) (Hptr : forall v, P (TPtr v)) (Harr : forall t b, P t -> P (TArray t b))
    (Hnamed : forall t, P t -> P (TNamed t))
    (Hcomp : forall s fs, Forall (fun fi : fieldinfo => P fi.2) fs -> P (TComp s fs)) (t : ctype) : P t :=
  let rec := ctype_ind' P Hvoid Hint Hfloat Hfun Henum Hva Hptr Harr Hnamed Hcomp in
  match t with
  | TVoid => Hvoid | TInt => Hint | TFloat => Hfloat | TFun => Hfun | TEnum => Henum
  | TBuiltin_va_list => Hva
  | TPtr v => Hptr v
  | TArray t b => Harr t b (rec t)
  | TNamed t => Hnamed t (rec t)
  | TComp s fs => Hcomp s fs
      ((fix go (fs : list fieldinfo) : Forall (fun fi : fieldinfo => P fi.2) fs :=
          match fs with
          | [] => List.Forall_nil _
          | fi :: fs => List.Forall_cons _ fi fs (rec fi.2) (go fs)
          end) fs)
  end.

Lemma int64_small x : - 2 ^ 63 <= x < 2 ^ 63 -> int64 x = x.
Proof. intros Hx. unfold int64. rewrite Z.mod_small; lia. Qed.
Lemma int32_small x : - 2 ^ 31 <= x < 2 ^ 31 -> int32 x = x.
Proof. intros Hx. unfold int32. rewrite Z.mod_small; lia. Qed.

(** *** Arithmetic on bounds types *)
Lemma plusN_number b n :
  0 <= boundsTAsNumber b -> 0 <= n -> boundsTAsNumber b + n < 2 ^ 63 ->
  boundsTAsNumber (boundsTPlusN b n) = boundsTAsNumber b + n.
Proof.
  intros Hb Hn Hlt. destruct b as [[|m]|]; cbn [boundsTPlusN boundsTAsNumber] in *.
  - destruct (Z.eqb_spec n 0) as [->|]; cbn [boundsTAsNumber]; [done|]. rewrite int64_small; lia.
  - rewrite int64_small; lia.
  - destruct (Z.eqb_spec n 0) as [->|]; [done|]. destruct (Z.eqb_spec n 1) as [->|]; cbn; lia.
Qed.
Lemma plusBoundsT_N b1 b2 : boundsTPlusBoundsT b1 b2 = boundsTPlusN b1 (boundsTAsNumber b2).
Proof. by destruct b2 as [[|m]|]. Qed.
Lemma timesN_number b n :
  0 <= boundsTAsNumber b -> 0 <= n -> n * boundsTAsNumber b < 2 ^ 63 ->
  boundsTAsNumber (boundsTTimesN b n) = n * boundsTAsNumber b.
Proof.
  intros Hb Hn Hlt. destruct b as [[|m]|]; cbn [boundsTTimesN boundsTAsNumber] in *; [| |lia].
  - destruct (Z.eqb_spec n 1) as [->|]; cbn; lia.
  - rewrite int64_small; lia.
Qed.

Lemma sumZ_app ns ms : sumZ (ns ++ ms) = sumZ ns + sumZ ms.
Proof. induction ns as [|n ns IH]; cbn [sumZ app foldr]; [done|]. unfold sumZ in *. lia. Qed.
Lemma sumZ_nonneg ns : Forall (Z.le 0) ns -> 0 <= sumZ ns.
Proof. induction 1 as [|n ns Hn _ IH]; cbn [sumZ foldr]; [done|]. unfold sumZ in *. lia. Qed.
Lemma fold_number bs : forall acc,
  Forall (fun b => 0 <= boundsTAsNumber b) bs -> 0 <= boundsTAsNumber acc ->
  boundsTAsNumber acc + sumZ (map boundsTAsNumber bs) < 2 ^ 63 ->
  boundsTAsNumber (fold_left boundsTPlusBoundsT bs acc) = boundsTAsNumber acc + sumZ (map boundsTAsNumber bs).
Proof.
  induction bs as [|b bs IH]; intros acc Hbs Hacc Hlt; cbn [fold_left map sumZ foldr] in *; [lia|].
  fold (sumZ (map boundsTAsNumber bs)) in *. apply Forall_cons in Hbs as [Hb Hbs].
  assert (0 <= sumZ (map boundsTAsNumber bs)) by (apply sumZ_nonneg, Forall_map; exact Hbs).
  rewrite IH; rewrite ?plusBoundsT_N, ?plusN_number; (done || lia).
Qed.

Section correctness.
Context (v : bool).
Implicit Types (t : ctype) (fs : list fieldinfo).
Abbreviation fslots fs := (sumZ (map (fun fi : fieldinfo => slots v fi.2) fs)).

Lemma wf_comp s fs :
  wf_type v (TComp s fs) = true ->
  Forall (fun fi : fieldinfo => wf_type v fi.2 = true) fs /\ NoDup (map fst fs) /\ fslots fs < 2 ^ 31.
Proof.
  cbn [wf_type]. intros [[Hf Hn]%andb_true_iff Hs]%andb_true_iff.
  split; [|split; [by apply bool_decide_eq_true in Hn|by apply Z.ltb_lt]].
  apply Forall_forall. rewrite forallb_forall in Hf. intros fi Hi. apply Hf. by apply list_elem_of_In.
Qed.
Lemma wf_array t b :
  wf_type v (TArray t b) = true ->
  exists n, b = Constant n /\ wf_type v t = true /\ 0 <= n /\ n * slots v t < 2 ^ 31.
Proof.
  destruct b as [| |n]; [done..|]. cbn [wf_type]. intros [[Ht ?%Z.leb_le]%andb_true_iff ?%Z.ltb_lt]%andb_true_iff.
  by exists n.
Qed.

Lemma slots_range t : wf_type v t = true -> 0 <= slots v t < 2 ^ 31.
Proof.
  induction t as [| | | | | |p|t b IH|t IH|s fs IH] using ctype_ind'; intros Hwf; try (cbn; lia).
  - cbn. destruct (ptr_has_bounds v p); lia.
  - apply wf_array in Hwf as (n & -> & Ht & Hn & Hs). cbn. specialize (IH Ht). nia.
  - by apply IH.
  - apply wf_comp in Hwf as (Hf & _ & Hs). cbn [slots]. split; [|done]. apply sumZ_nonneg, Forall_map.
    eapply Forall_impl; [apply Forall_and; split; [exact IH|exact Hf]|]. intros fi [Hi Hw]. cbn. by apply Hi.
Qed.
Lemma fslots_nonneg fs : Forall (fun fi : fieldinfo => wf_type v fi.2 = true) fs -> 0 <= fslots fs.
Proof.
  intros Hf. apply sumZ_nonneg, Forall_map. eapply Forall_impl; [exact Hf|].
  intros fi Hw. cbn. by apply slots_range.
Qed.

Lemma length_intsUpTo n : 0 <= n -> Z.of_nat (length (intsUpTo n)) = n.
Proof. intros Hn. unfold intsUpTo. rewrite length_fmap, length_seq. lia. Qed.
Lemma elem_of_intsUpTo n i : i ∈ intsUpTo n <-> 0 <= i < n.
Proof.
  unfold intsUpTo. rewrite list_elem_of_fmap. split.
  - intros (k & -> & Hk%elem_of_seq). lia.
  - intros Hi. exists (Z.to_nat i). rewrite elem_of_seq. lia.
Qed.
Lemma intsUpTo_split n i :
  0 <= i < n -> exists l, intsUpTo n = intsUpTo i ++ i :: l.
Proof.
  intros Hi. unfold intsUpTo. exists (Z.of_nat <$> seq (S (Z.to_nat i)) (Z.to_nat n - S (Z.to_nat i))).
  replace (Z.to_nat n) with (Z.to_nat i + S (Z.to_nat n - S (Z.to_nat i)))%nat at 1 by lia.
  rewrite seq_app, fmap_app. cbn [seq fmap list_fmap Nat.add]. rewrite Z2Nat.id by lia. done.
Qed.

(** The length of a concatenation of maps. *)
Lemma length_concat_map {A B} (f : A -> list B) l :
  Z.of_nat (length (concat (map f l))) = sumZ (map (fun a => Z.of_nat (length (f a))) l).
Proof.
  induction l as [|a l IH]; cbn [concat map sumZ foldr]; [done|]. rewrite length_app. unfold sumZ in *. lia.
Qed.
Lemma sumZ_const {A} (l : list A) c : sumZ (map (fun _ => c) l) = Z.of_nat (length l) * c.
Proof. induction l as [|a l IH]; cbn [map sumZ foldr length]; unfold sumZ in *; lia. Qed.

Lemma sumZ_ext {A} (f g : A -> Z) l : Forall (fun a => f a = g a) l -> sumZ (map f l) = sumZ (map g l).
Proof. induction 1 as [|a l Ha _ IH]; cbn [map sumZ foldr]; unfold sumZ in *; congruence. Qed.

Lemma length_leaves t : wf_type v t = true -> Z.of_nat (length (leaves v t)) = slots v t.
Proof.
  induction t as [| | | | | |p|t b IH|t IH|s fs IH] using ctype_ind'; intros Hwf; try done.
  - cbn. by destruct (ptr_has_bounds v p).
  - apply wf_array in Hwf as (n & -> & Ht & Hn & Hs). cbn [leaves slots].
    rewrite length_concat_map, (sumZ_ext _ (fun _ => slots v t)), sumZ_const, length_intsUpTo by
      first [lia|apply Forall_forall; intros i _; rewrite length_map; by apply IH]. done.
  - by apply IH.
  - apply wf_comp in Hwf as (Hf & _ & _). cbn [leaves slots]. rewrite length_concat_map. apply sumZ_ext.
    eapply Forall_impl; [apply Forall_and; split; [exact IH|exact Hf]|]. intros fi [Hi Hw]. cbn.
    rewrite length_map. by apply Hi.
Qed.

(** *** The bounds variable is as long as there are pointers *)
Lemma fields_bounds fs :
  Forall (fun fi : fieldinfo => exists b, boundsTForT v fi.2 = Some b /\ boundsTAsNumber b = slots v fi.2) fs ->
  Forall (fun fi : fieldinfo => wf_type v fi.2 = true) fs -> fslots fs < 2 ^ 31 ->
  exists bs, mapM (fun fi : fieldinfo => boundsTForT v fi.2) fs = Some bs /\
    boundsTAsNumber (fold_left boundsTPlusBoundsT bs None) = fslots fs.
Proof.
  intros Hb Hwf Hlt.
  assert (exists bs, mapM (fun fi : fieldinfo => boundsTForT v fi.2) fs = Some bs /\
    map boundsTAsNumber bs = map (fun fi : fieldinfo => slots v fi.2) fs) as (bs & Hbs & Hn).
  { clear Hlt Hwf. induction Hb as [|fi fs (b & Hb & Hn) _ (bs & IH & Hns)]; [by exists []|].
    exists (b :: bs). cbn [map]. rewrite Hn, Hns. split; [|done]. apply mapM_Some. apply mapM_Some in IH.
    by constructor. }
  exists bs. split; [done|]. rewrite fold_number; rewrite ?Hn; cbn [boundsTAsNumber]; try lia.
  apply (Forall_map boundsTAsNumber (Z.le 0)). unfold fmap in *.
  change (Forall (Z.le 0) (map boundsTAsNumber bs)). rewrite Hn. apply Forall_map.
  eapply Forall_impl; [exact Hwf|]. intros fi Hw. cbn. by apply slots_range.
Qed.

Lemma boundsTForT_number t :
  wf_type v t = true -> exists b, boundsTForT v t = Some b /\ boundsTAsNumber b = slots v t.
Proof.
  induction t as [| | | | | |p|t b IH|t IH|s fs IH] using ctype_ind'; intros Hwf; try done;
    try (by eexists).
  - cbn. destruct (ptr_has_bounds v p); by eexists.
  - apply wf_array in Hwf as (n & -> & Ht & Hn & Hs). destruct (IH Ht) as (b & Hb & Hnb).
    pose proof (slots_range t Ht). cbn [boundsTForT slots]. rewrite Hb. cbn. eexists; split; [done|].
    rewrite timesN_number; rewrite ?Hnb; lia.
  - by apply IH.
  - apply wf_comp in Hwf as (Hf & _ & Hs). cbn [boundsTForT slots].
    destruct (fields_bounds fs) as (bs & Hbs & Hn); [|done|done|].
    { eapply Forall_impl; [apply Forall_and; split; [exact IH|exact Hf]|]. intros fi [Hi Hw]. by apply Hi. }
    rewrite Hbs. cbn. by eexists.
Qed.
End correctness.

(** ** What is taken of [Cil.typeOf] *)
Class CilTypes {E : Type} (typeOf : ctype -> list (step (iexp E)) -> ctype) : Prop := {
  typeOf_nil t : typeOf t [] = t;
  typeOf_field t o s fs fi :
    unroll (typeOf t o) = TComp s fs -> fi ∈ fs -> typeOf t (o ++ [Field fs fi]) = fi.2;
  typeOf_index t o i at_ b :
    unroll (typeOf t o) = TArray at_ b -> typeOf t (o ++ [Index i]) = at_;
}.

(** ** The index computed at run time *)
Section evaluation.
Context {E : Type} (user : E -> Z).

Fixpoint eval (e : iexp E) : Z :=
  match e with
  | IConst n => int32 n
  | IUser e => user e
  | IPlus a b => int32 (eval a + eval b)
  | IMult a b => int32 (eval a * eval b)
  end.
Definition step_value (s : step (iexp E)) : step Z :=
  match s with Field fs fi => Field fs fi | Index i => Index (eval i) end.
End evaluation.

Section index_correct.
Context (v : bool) {E : Type} (user : E -> Z).
Context (typeOf : ctype -> list (step (iexp E)) -> ctype) `{!CilTypes typeOf}.
Implicit Types (t host : ctype) (oe prev : list (step (iexp E))).
Abbreviation fslots fs := (sumZ (map (fun fi : fieldinfo => slots v fi.2) fs)).

(** The fields before one are found by its name and location. *)
Lemma earlier_fields fi fs1 fs2 : forall acc,
  NoDup (map fst (fs1 ++ fi :: fs2)) -> addEarlierFields fi acc (fs1 ++ fi :: fs2) = acc ++ fs1.
Proof.
  induction fs1 as [|f fs1 IH]; intros acc Hnd; cbn [app addEarlierFields].
  - by rewrite !bool_decide_true, app_nil_r by done.
  - cbn [app map] in Hnd. apply NoDup_cons in Hnd as [Hni Hnd].
    assert (bool_decide (f.1.2 = fi.1.2) && bool_decide (f.1.1 = fi.1.1) = false) as ->.
    { apply not_true_is_false. intros [H1%bool_decide_eq_true H2%bool_decide_eq_true]%andb_true_iff.
      apply Hni. apply list_elem_of_fmap. exists fi. split; [|set_solver].
      destruct f as [[] ?], fi as [[] ?]; cbn in *; congruence. }
    rewrite IH by done. by rewrite <- app_assoc.
Qed.

Lemma map_app_cons {A} (s : A) o (l : list (list A)) : map (cons s) (map (app o) l) = map (app (s :: o)) l.
Proof. by rewrite map_map. Qed.

(** The main lemma: from any type on the way, with the index of its first
    pointer computed already. *)
Lemma index_from t o t' :
  lands t o t' -> wf_type v t = true -> forall oe host prev start,
  map (step_value user) oe = o -> unroll (typeOf host prev) = unroll t ->
  0 <= eval user start -> eval user start + slots v t < 2 ^ 31 ->
  exists e pre post, boundsIndexExprForOffset v typeOf start oe host prev = Some e /\
    leaves v t = pre ++ map (app o) (leaves v t') ++ post /\
    eval user e = eval user start + Z.of_nat (length pre).
Proof.
  induction 1 as [t|t o t' _ IH|t n i o t' Hi Hl IH|s fs fi o t' Hin Hl IH];
    intros Hwf oe host prev start Hoe Hty H0 Hlt.
  - destruct oe; [|done]. exists start, [], []. rewrite app_nil_r. cbn [app length].
    split; [done|]. split; [|lia]. change (app []) with (fun x : list (step Z) => x). by rewrite map_id.
  - by apply IH.
  - apply wf_array in Hwf as (n' & [= <-] & Ht & Hn & Hs). cbn [slots unroll] in *.
    pose proof (slots_range v t Ht) as Hr.
    destruct oe as [|[|ie] oe]; [done|done|]. cbn [map step_value] in Hoe. injection Hoe as <- Hoe.
    pose proof (typeOf_index host prev ie _ _ Hty) as Hel.
    destruct (IH Ht oe host (prev ++ [Index ie]) start) as (e & pre & post & He & Hlv & Hev);
      [done|by rewrite Hel|done|nia|].
    destruct (boundsTForT_number v t Ht) as (b & Hb & Hnb).
    assert (Hlp : Z.of_nat (length pre) <= slots v t).
    { rewrite <- (length_leaves v t Ht), Hlv, !length_app. lia. }
    destruct (intsUpTo_split _ _ Hi) as [l Hsp].
    set (row := fun i => map (cons (Index i)) (leaves v t)) in *.
    exists (IPlus e (IMult ie (IConst (slots v t)))), (concat (map row (intsUpTo (eval user ie))) ++
      map (cons (Index (eval user ie))) pre), (map (cons (Index (eval user ie))) post ++ concat (map row l)).
    cbn [boundsIndexExprForOffset]. rewrite He. cbn. rewrite Hel, Hb. cbn. rewrite Hnb. split; [done|].
    split.
    + cbn [leaves]. fold row. rewrite Hsp, map_app, concat_app. cbn [map concat].
      assert (row (eval user ie) = map (cons (Index (eval user ie))) pre ++
        map (app (Index (eval user ie) :: o)) (leaves v t') ++ map (cons (Index (eval user ie))) post) as ->.
      { unfold row. rewrite Hlv, !map_app, map_app_cons. done. }
      by rewrite <- !app_assoc.
    + rewrite length_app, length_map, Nat2Z.inj_add, length_concat_map.
      rewrite (sumZ_ext _ (fun _ => slots v t)) by (apply Forall_forall; intros j _; unfold row;
        rewrite length_map; by apply length_leaves).
      rewrite sumZ_const, length_intsUpTo by lia.
      rewrite (int32_small (slots v t)) by lia. rewrite (int32_small (_ * _)) by nia.
      rewrite int32_small by nia. nia.
  - apply wf_comp in Hwf as (Hf & Hnd & Hs). cbn [slots unroll] in *.
    destruct oe as [|[fs' fi'|] oe]; [done| |done]. cbn [map step_value] in Hoe. injection Hoe as -> -> Hoe.
    pose proof (typeOf_field host prev s _ _ Hty Hin) as Hft.
    apply list_elem_of_split in Hin as (fs1 & fs2 & Hfs).
    assert (Hf1 : Forall (fun fi : fieldinfo => wf_type v fi.2 = true) fs1 /\ wf_type v fi.2 = true /\
      Forall (fun fi : fieldinfo => wf_type v fi.2 = true) fs2).
    { rewrite Hfs in Hf. apply Forall_app in Hf as [? Hf]. by apply Forall_cons in Hf as [? ?]. }
    destruct Hf1 as (Hf1 & Hfi & Hf2).
    assert (Hsum : fslots fs = fslots fs1 + slots v fi.2 + fslots fs2).
    { rewrite Hfs, map_app, sumZ_app. cbn [map sumZ foldr]. unfold sumZ. lia. }
    pose proof (fslots_nonneg v fs1 Hf1). pose proof (fslots_nonneg v fs2 Hf2).
    pose proof (slots_range v _ Hfi).
    destruct (fields_bounds v fs1) as (bs & Hbs & Hnb); [|done|lia|].
    { eapply Forall_impl; [exact Hf1|]. intros fi0 Hw0. by apply boundsTForT_number. }
    set (start' := IPlus start (IConst (fslots fs1))).
    assert (Hst : eval user start' = eval user start + fslots fs1).
    { unfold start'. cbn [eval]. rewrite (int32_small (fslots fs1)) by lia. rewrite int32_small by lia. done. }
    destruct (IH Hfi oe host (prev ++ [Field fs fi]) start') as (e & pre & post & He & Hlv & Hev);
      [done|by rewrite Hft|lia|lia|].
    set (row := fun fi : fieldinfo => map (cons (Field fs fi)) (leaves v fi.2)).
    exists e, (concat (map row fs1) ++ map (cons (Field fs fi)) pre),
      (map (cons (Field fs fi)) post ++ concat (map row fs2)).
    cbn [boundsIndexExprForOffset].
    assert (addEarlierFields fi [] fs = fs1) as ->.
    { rewrite Hfs in Hnd. rewrite Hfs. by rewrite earlier_fields. }
    rewrite Hbs. cbn. rewrite Hnb. fold start'. split; [done|]. split.
    + cbn [leaves]. fold row. rewrite Hfs at 1. rewrite map_app, concat_app. cbn [map concat].
      assert (row fi = map (cons (Field fs fi)) pre ++
        map (app (Field fs fi :: o)) (leaves v t') ++ map (cons (Field fs fi)) post) as ->.
      { unfold row. rewrite Hlv, !map_app, map_app_cons. done. }
      by rewrite <- !app_assoc.
    + rewrite Hev, Hst, length_app, length_map, Nat2Z.inj_add, length_concat_map.
      rewrite (sumZ_ext (fun fi => Z.of_nat (length (row fi))) (fun fi : fieldinfo => slots v fi.2)); [lia|].
      eapply Forall_impl; [exact Hf1|]. intros fi0 Hw0. unfold row. rewrite length_map. by apply length_leaves.
Qed.
End index_correct.

(** ** Enumerating the pointers *)
Section enumeration.
Context (v : bool).
Implicit Types (t : ctype).

Lemma concat_swap {A B X : Type} (f : A -> B -> X) (la : list A) (lb : list B) :
  concat (map (fun b => map (fun a => f a b) la) lb) ≡ₚ concat (map (fun a => map (f a) lb) la).
Proof.
  induction la as [|a la IH]; cbn [map concat].
  { induction lb; cbn [map concat app]; done. }
  rewrite <- IH. clear IH. induction lb as [|b lb IH]; cbn [map concat app]; [done|].
  rewrite IH. apply Permutation_cons; [done|]. rewrite !app_assoc. apply Permutation_app_tail.
  apply Permutation_app_comm.
Qed.

Lemma fold_left_concat {A} (ls : list (list A)) : forall acc, fold_left app ls acc = acc ++ concat ls.
Proof.
  induction ls as [|l ls IH]; intros acc; cbn [fold_left concat]; [by rewrite app_nil_r|].
  by rewrite IH, app_assoc.
Qed.

(** The front end enumerates the pointers of a type, each once; not in the
    order of their addresses, since of an array of structures it takes the first
    pointers of all elements first. *)
Lemma enumerate_leaves t :
  wf_type v t = true -> exists os, enumeratePointerYieldingOffsetsForT v t = Some os /\ os ≡ₚ leaves v t.
Proof.
  induction t as [| | | | | |p|t b IH|t IH|s fs IH] using ctype_ind'; intros Hwf; try done; try (by eexists).
  - apply wf_array in Hwf as (n & -> & Ht & Hn & Hs). destruct (IH Ht) as (os & Hos & Hp).
    cbn [enumeratePointerYieldingOffsetsForT leaves]. rewrite Hos. cbn. eexists; split; [done|].
    unfold offsets_at. change (concat (map (fun offset => map (fun i => Index i :: offset) (intsUpTo n)) os)
      ≡ₚ concat (map (fun i => map (cons (Index i)) (leaves v t)) (intsUpTo n))).
    rewrite (concat_swap (fun (i : Z) offset => Index i :: offset)).
    generalize (intsUpTo n). intros l. induction l as [|i l IHl]; cbn [map concat]; [done|].
    apply Permutation_app; [by apply Permutation_map|done].
  - by apply IH.
  - apply wf_comp in Hwf as (Hf & _ & _). cbn [enumeratePointerYieldingOffsetsForT leaves].
    assert (Hall : forall gs, Forall (fun fi : fieldinfo => fi ∈ fs) gs -> exists oss,
      mapM (fun fi : fieldinfo => os ← enumeratePointerYieldingOffsetsForT v fi.2;
                    Some (map (fun offs => Field fs fi :: offs) os)) gs = Some oss /\
      concat oss ≡ₚ concat (map (fun fi : fieldinfo => map (cons (Field fs fi)) (leaves v fi.2)) gs)).
    { rewrite Forall_forall in IH, Hf. induction 1 as [|fi gs Hin _ (oss & Hoss & Hp)]; [by exists []|].
      destruct (IH fi Hin (Hf fi Hin)) as (os & Hos & Hpos).
      exists (map (fun offs => Field fs fi :: offs) os :: oss). split.
      - apply mapM_Some. constructor; [by rewrite Hos|by apply mapM_Some].
      - cbn [map concat]. apply Permutation_app; [by apply Permutation_map|done]. }
    destruct (Hall fs) as (oss & Hoss & Hp); [by apply Forall_forall|].
    rewrite Hoss. cbn. eexists; split; [done|]. by rewrite fold_left_concat.
Qed.

(** A pointer of the enumeration is a pointer inside the type. *)
Lemma leaf_lands t o :
  wf_type v t = true -> o ∈ leaves v t -> exists t', lands t o t' /\ leaves v t' = [[]].
Proof.
  revert o. induction t as [| | | | | |p|t b IH|t IH|s fs IH] using ctype_ind'; intros o Hwf Ho;
    try by apply not_elem_of_nil in Ho.
  - cbn [leaves] in *. destruct (ptr_has_bounds v p) eqn:Hp; [|by apply not_elem_of_nil in Ho].
    apply list_elem_of_singleton in Ho as ->. exists (TPtr p). split; [constructor|]. cbn. by rewrite Hp.
  - apply wf_array in Hwf as (n & -> & Ht & _). cbn [leaves] in Ho.
    apply list_elem_of_In, in_concat in Ho as (row & (i & <- & Hi)%in_map_iff & (o' & <- & Ho)%in_map_iff).
    apply list_elem_of_In in Hi, Ho. apply elem_of_intsUpTo in Hi.
    destruct (IH o' Ht Ho) as (t' & Hl & Hlf). exists t'. split; [by constructor|done].
  - destruct (IH o Hwf Ho) as (t' & Hl & Hlf). exists t'. split; [by constructor|done].
  - apply wf_comp in Hwf as (Hf & _ & _). cbn [leaves] in Ho.
    apply list_elem_of_In, in_concat in Ho as (row & (fi & <- & Hi)%in_map_iff & (o' & <- & Ho)%in_map_iff).
    apply list_elem_of_In in Hi, Ho. rewrite Forall_forall in IH, Hf.
    destruct (IH fi Hi o' (Hf fi Hi) Ho) as (t' & Hl & Hlf). exists t'. split; [by constructor|done].
Qed.

Lemma leaves_nodup t : wf_type v t = true -> NoDup (leaves v t).
Proof.
  assert (Hcat : forall {A B} (f : A -> list B) l, concat (map f l) = l ≫= f).
  { intros A B f l. induction l as [|a l IHl]; [done|]. cbn. by rewrite IHl. }
  assert (Hcons : forall (s : step Z) l, NoDup l -> NoDup (map (cons s) l)).
  { intros s l Hl. by apply (NoDup_fmap_2 (cons s)). }
  induction t as [| | | | | |p|t b IH|t IH|s fs IH] using ctype_ind'; intros Hwf; cbn [leaves];
    try by apply NoDup_nil.
  - destruct (ptr_has_bounds v p); [apply NoDup_singleton|by apply NoDup_nil].
  - apply wf_array in Hwf as (n & -> & Ht & _). rewrite Hcat. apply NoDup_bind.
    + intros i j o _ _ (o1 & -> & _)%list_elem_of_fmap (o2 & [=] & _)%list_elem_of_fmap. done.
    + intros i _. by apply Hcons, IH.
    + unfold intsUpTo. apply (NoDup_fmap_2 Z.of_nat), NoDup_seq.
  - by apply IH.
  - apply wf_comp in Hwf as (Hf & Hnd & _). rewrite Hcat. apply NoDup_bind.
    + intros i j o _ _ (o1 & -> & _)%list_elem_of_fmap (o2 & [=] & _)%list_elem_of_fmap. done.
    + intros fi Hi. rewrite Forall_forall in IH, Hf. by apply Hcons, IH, Hf.
    + by apply NoDup_fmap_1 in Hnd.
Qed.
End enumeration.

(** ** Properties *)
Section properties.
Context (v : bool) {E : Type} (user : E -> Z).
Context (typeOf : ctype -> list (step (iexp E)) -> ctype) `{!CilTypes typeOf}.
Implicit Types (t host : ctype) (oe : list (step (iexp E))).

(** Where the generated code looks for bounds in the variable. *)
Definition bounds_index (host : ctype) (oe : list (step (iexp E))) : option Z :=
  r ← boundsLvalForLocalLval v typeOf host oe;
  Some (match r with None => 0 | Some e => eval user e end).

(** The bounds of the pointers under an lvalue are one block of the bounds
    variable. *)
Lemma bounds_index_block host oe t' :
  wf_type v host = true -> 0 < slots v host ->
  lands host (map (step_value user) oe) t' ->
  (exists b, boundsTForT v host = Some b /\ boundsTAsNumber b = Z.of_nat (length (leaves v host))) /\
  exists i, bounds_index host oe = Some i /\ 0 <= i /\ i + slots v t' <= slots v host /\
    take (length (leaves v t')) (drop (Z.to_nat i) (leaves v host)) =
      map (app (map (step_value user) oe)) (leaves v t').
Proof.
  intros Hwf Hpos Hl. destruct (boundsTForT_number v host Hwf) as (b & Hb & Hnb).
  pose proof (length_leaves v host Hwf) as Hlen. split; [exists b; by rewrite Hlen|].
  destruct (index_from v user typeOf host _ t' Hl Hwf oe host [] (IConst 0)) as (e & pre & post & He & Hlv & Hev);
    [done|by rewrite typeOf_nil|done|pose proof (slots_range v host Hwf); change (eval user (IConst 0)) with 0; lia|].
  change (eval user (IConst 0)) with 0 in Hev.
  assert (Hlt : Z.of_nat (length (leaves v t')) = slots v t').
  { clear -Hl Hwf. induction Hl as [t|t o t' _ IH|t n i o t' _ _ IH|s fs fi o t' Hin _ IH].
    - by apply length_leaves.
    - by apply IH.
    - apply wf_array in Hwf as (? & _ & Ht & _). by apply IH.
    - apply wf_comp in Hwf as (Hf & _). rewrite Forall_forall in Hf. by apply IH, Hf. }
  assert (Htot : Z.of_nat (length pre) + slots v t' + Z.of_nat (length post) = slots v host).
  { rewrite <- Hlen, Hlv, !length_app, length_map. lia. }
  unfold bounds_index, boundsLvalForLocalLval. rewrite Hb. destruct b as [bt|]; cbn in Hnb; [|lia].
  cbn. rewrite He. cbn. eexists; split; [done|]. destruct bt as [|n].
  - split; [done|]. split; [lia|]. change (Z.to_nat 0) with 0%nat. rewrite drop_0.
    destruct (decide (leaves v t' = [])) as [Hnil|Hne]; [by rewrite Hnil|].
    assert (0 < length (leaves v t'))%nat by (destruct (leaves v t'); [done|cbn; lia]).
    assert (pre = []) as -> by (apply length_zero_iff_nil; lia).
    rewrite Hlv, app_nil_l. by rewrite take_app_length' by (by rewrite length_map).
  - rewrite Hev, Z.add_0_l, Nat2Z.id. split; [lia|]. split; [lia|].
    rewrite Hlv, drop_app_length. by rewrite take_app_length' by (by rewrite length_map).
Qed.

(** Two pointers with the same bounds are the same pointer. *)
Lemma bounds_index_injective host oe1 oe2 t1 t2 i :
  wf_type v host = true -> 0 < slots v host ->
  lands host (map (step_value user) oe1) t1 -> leaves v t1 = [[]] ->
  lands host (map (step_value user) oe2) t2 -> leaves v t2 = [[]] ->
  bounds_index host oe1 = Some i -> bounds_index host oe2 = Some i ->
  map (step_value user) oe1 = map (step_value user) oe2.
Proof.
  intros Hwf Hpos Hl1 H1 Hl2 H2 Hi1 Hi2.
  destruct (bounds_index_block host oe1 t1 Hwf Hpos Hl1) as (_ & j1 & Hj1 & _ & _ & Ht1).
  destruct (bounds_index_block host oe2 t2 Hwf Hpos Hl2) as (_ & j2 & Hj2 & _ & _ & Ht2).
  rewrite Hi1 in Hj1. rewrite Hi2 in Hj2. injection Hj1 as <-. injection Hj2 as <-.
  rewrite H1 in Ht1. rewrite H2 in Ht2. rewrite Ht1 in Ht2. cbn [map] in Ht2. rewrite !app_nil_r in Ht2.
  by injection Ht2.
Qed.

(** C13. The bounds of a local variable mirror its pointers.  The bounds variable
    has as many elements as the type has pointers; the code generated for an
    lvalue with its indexes in range finds the bounds of the pointers under it
    in one block, at the place they have among all pointers; so that two
    pointers share bounds only if they are the same pointer.  The index is
    computed in C's [int] and does not overflow. *)
Theorem bounds_index_mirrors host oe t' :
  wf_type v host = true -> 0 < slots v host ->
  lands host (map (step_value user) oe) t' ->
  (exists b, boundsTForT v host = Some b /\ boundsTAsNumber b = Z.of_nat (length (leaves v host))) /\
  exists i, bounds_index host oe = Some i /\ 0 <= i /\ i + slots v t' <= slots v host /\
    take (length (leaves v t')) (drop (Z.to_nat i) (leaves v host)) =
      map (app (map (step_value user) oe)) (leaves v t') /\
    (leaves v t' = [[]] -> forall oe2 t2, lands host (map (step_value user) oe2) t2 -> leaves v t2 = [[]] ->
       bounds_index host oe2 = Some i -> map (step_value user) oe2 = map (step_value user) oe).
Proof.
  intros Hwf Hpos Hl. destruct (bounds_index_block host oe t' Hwf Hpos Hl) as (Hb & i & Hi & H0 & Hlt & Ht).
  split; [done|]. exists i. repeat (split; [done|]). intros H1 oe2 t2 Hl2 H2 Hi2.
  by apply (bounds_index_injective host oe2 oe t2 t' i).
Qed.

(** The offsets of the enumeration as expressions ([makeIntegerConstant]). *)
Definition constant_step (s : step Z) : step (iexp E) :=
  match s with Field fs fi => Field fs fi | Index i => Index (IConst i) end.
Lemma constant_offset t o :
  wf_type v t = true -> o ∈ leaves v t -> map (step_value user) (map constant_step o) = o.
Proof.
  revert o. induction t as [| | | | | |p|t b IH|t IH|s fs IH] using ctype_ind'; intros o Hwf Ho;
    try by apply not_elem_of_nil in Ho.
  - cbn [leaves] in Ho. destruct (ptr_has_bounds v p); [|by apply not_elem_of_nil in Ho].
    by apply list_elem_of_singleton in Ho as ->.
  - apply wf_array in Hwf as (n & -> & Ht & Hn & Hs). pose proof (length_leaves v t Ht) as Hlen.
    cbn [leaves] in Ho.
    apply list_elem_of_In, in_concat in Ho as (row & (i & <- & Hi)%in_map_iff & (o' & <- & Ho)%in_map_iff).
    apply list_elem_of_In in Hi, Ho. apply elem_of_intsUpTo in Hi. cbn [map constant_step step_value eval].
    rewrite (IH o' Ht Ho), int32_small; [done|].
    assert (0 < slots v t) by (destruct (leaves v t); [by apply not_elem_of_nil in Ho|cbn in Hlen; lia]). nia.
  - by apply IH.
  - apply wf_comp in Hwf as (Hf & _ & _). cbn [leaves] in Ho.
    apply list_elem_of_In, in_concat in Ho as (row & (fi & <- & Hi)%in_map_iff & (o' & <- & Ho)%in_map_iff).
    apply list_elem_of_In in Hi, Ho. rewrite Forall_forall in IH, Hf. cbn [map constant_step step_value].
    by rewrite (IH fi Hi o' (Hf fi Hi) Ho).
Qed.

(** C14. Enumeration and layout agree: for the pointers that the front end
    enumerates in a variable, the indexes it computes are the elements of the
    bounds variable, each exactly once, in some order. *)
Theorem enumeration_meets_every_index host :
  wf_type v host = true ->
  exists os, enumeratePointerYieldingOffsetsForT v host = Some os /\
    (0 < slots v host -> map (fun o => bounds_index host (map constant_step o)) os ≡ₚ
       map (fun k => Some (Z.of_nat k)) (seq 0 (Z.to_nat (slots v host)))).
Proof.
  intros Hwf. destruct (enumerate_leaves v host Hwf) as (os & Hos & Hp). exists os. split; [done|].
  intros Hpos. rewrite Hp. rewrite <- (length_leaves v host Hwf), Nat2Z.id.
  assert (map (fun o => bounds_index host (map constant_step o)) (leaves v host) =
    map (fun k => Some (Z.of_nat k)) (seq 0 (length (leaves v host)))) as ->; [|done].
  apply list_eq. intros k. rewrite !list_lookup_fmap. destruct (leaves v host !! k) as [o|] eqn:Hk.
  - rewrite lookup_seq_lt by (by apply lookup_lt_Some in Hk). cbn [fmap option_fmap option_map Nat.add].
    f_equal. pose proof (list_elem_of_lookup_2 _ _ _ Hk) as Ho.
    destruct (leaf_lands v host o Hwf Ho) as (t' & Hl & Hlf).
    rewrite <- (constant_offset host o Hwf Ho) in Hl.
    destruct (bounds_index_block host (map constant_step o) t' Hwf Hpos Hl) as (_ & i & -> & H0 & Hlt & Ht).
    rewrite Hlf, (constant_offset host o Hwf Ho) in Ht. cbn [length map] in Ht. rewrite app_nil_r in Ht.
    assert (leaves v host !! Z.to_nat i = Some o) as Hi.
    { pose proof (f_equal (fun l => l !! 0%nat) Ht) as Hh. cbn [lookup list_lookup] in Hh.
      rewrite lookup_take_lt, lookup_drop, Nat.add_0_r in Hh by lia. done. }
    f_equal. pose proof (NoDup_lookup _ _ _ _ (leaves_nodup v host Hwf) Hi Hk). lia.
  - apply lookup_ge_None in Hk. rewrite lookup_seq_ge by lia. done.
Qed.
End properties.

(** ** Checked indexes

    The indexes that are not constants are compared with the length of the
    array they index ([__libcrunch_check_local_bounds]).  A negative index
    passes, so that only its sign is left to assume. *)
Theorem checked_index_in_range `{C : Config} {E : Type} (typeOf : ctype -> list (step (iexp E)) -> ctype)
    (user : E -> Z) host prev ie t n ie' bound :
  noop_inlines = false -> unroll (typeOf host prev) = TArray t (Constant n) ->
  checkInLocalBounds typeOf host prev ie = Some (ie', bound) ->
  check_local_bounds (eval user ie') bound = Ret tt -> 0 <= eval user ie ->
  forall o t', lands t o t' -> lands (TArray t (Constant n)) (step_value user (Index ie) :: o) t'.
Proof.
  intros Hn Hty Hck Hok H0 o t' Hl. unfold checkInLocalBounds in Hck.
  assert (getArrayBound (typeOf host prev) = Some n) as Hb.
  { revert Hty. generalize (typeOf host prev). intros u.
    induction u; cbn; intros Hu; try discriminate Hu; [by injection Hu as _ ->|by auto]. }
  rewrite Hb in Hck. cbn in Hck. injection Hck as <- <-. cbn [step_value]. constructor; [|done].
  unfold check_local_bounds in Hok. rewrite Hn in Hok. destruct (Z.leb_spec n (eval user ie)); [done|lia].
Qed.

(** ** Examples *)
Definition ex_typeOf {E} (t : ctype) (o : list (step (iexp E))) : ctype :=
  fold_left (fun t s => match s, unroll t with
    | Field _ fi, _ => fi.2 | Index _, TArray at_ _ => at_ | Index _, u => u end) o t.
#[export] Instance ex_typeOf_ok {E} : CilTypes (@ex_typeOf E).
Proof.
  split; [done|..]; intros t o; intros; unfold ex_typeOf; rewrite fold_left_app; cbn; [done|].
  fold (ex_typeOf t o) in *. by rewrite H.
Qed.

(** [struct { int *p; struct { char *q; int n; } s[3]; }] *)
Definition ex_inner : list fieldinfo := [(("q"%string, 2), TPtr false); (("n"%string, 3), TInt)].
Definition ex_elt : ctype := TComp true ex_inner.
Definition ex_fields : list fieldinfo :=
  [(("p"%string, 1), TPtr false); (("s"%string, 4), TArray (TNamed ex_elt) (Constant 3))].
Definition ex_host : ctype := TComp true ex_fields.

(** [host.s[i].q] with [i] = 2: the fourth and last bounds. *)
Definition ex_offset : list (step (iexp unit)) :=
  [Field ex_fields (("s"%string, 4), TArray (TNamed ex_elt) (Constant 3)); Index (IUser tt);
   Field ex_inner (("q"%string, 2), TPtr false)].
Lemma ex_lands : lands ex_host (map (step_value (fun _ : unit => 2)) ex_offset) (TPtr false).
Proof.
  apply lands_field; [unfold ex_fields; set_solver|]. apply lands_index; [cbn; lia|]. apply lands_named.
  apply lands_field; [unfold ex_inner; set_solver|]. apply lands_here.
Qed.
Lemma bounds_index_mirrors_witness :
  exists i, bounds_index false (fun _ : unit => 2) ex_typeOf ex_host ex_offset = Some i /\ i = 3.
Proof.
  destruct (bounds_index_mirrors false (fun _ : unit => 2) ex_typeOf ex_host ex_offset (TPtr false))
    as (_ & i & Hi & _); [vm_compute; reflexivity|vm_compute; reflexivity|exact ex_lands|].
  exists i. split; [exact Hi|]. vm_compute in Hi. by injection Hi.
Defined.

Lemma enumeration_meets_every_index_witness :
  exists os, enumeratePointerYieldingOffsetsForT false ex_host = Some os /\ length os = 4%nat /\
    map (fun o => bounds_index false (fun _ : unit => 0) ex_typeOf ex_host (map constant_step o)) os
      ≡ₚ [Some 0; Some 1; Some 2; Some 3].
Proof.
  destruct (enumeration_meets_every_index false (fun _ : unit => 0) ex_typeOf ex_host)
    as (os & Hos & Hp); [vm_compute; reflexivity|].
  exists os. split; [exact Hos|]. split; [vm_compute in Hos; injection Hos as <-; reflexivity|].
  apply Hp. vm_compute. reflexivity.
Defined.

(** An array of structures with two pointers: enumerated first [p] of all
    elements, then [q], though laid out element by element. *)
Definition pq : list fieldinfo := [(("p"%string, 1), TPtr false); (("q"%string, 2), TPtr false)].
Example enumeration_not_in_layout_order :
  (os ← enumeratePointerYieldingOffsetsForT false (TArray (TComp true pq) (Constant 2));
   Some (map (fun o => bounds_index false (fun _ : unit => 0) ex_typeOf
                (TArray (TComp true pq) (Constant 2)) (map constant_step o)) os)) =
    Some [Some 0; Some 2; Some 1; Some 3].
Proof. vm_compute. reflexivity. Qed.

(** The members of a union get bounds of their own, although they are the same
    pointer in memory: after [u.p = a; b = u.q] the bounds of [b] are not those
    of [a]. *)
Theorem union_members_have_separate_bounds :
  let u := TComp false pq in
  bounds_index false (fun _ : unit => 0) ex_typeOf u [Field pq (("p"%string, 1), TPtr false)] = Some 0 /\
  bounds_index false (fun _ : unit => 0) ex_typeOf u [Field pq (("q"%string, 2), TPtr false)] = Some 1.
Proof. by vm_compute. Qed.

Lemma checked_index_in_range_witness :
  lands (TArray (TPtr false) (Constant 3)) [Index 2] (TPtr false).
Proof.
  apply (checked_index_in_range (C := config_p) ex_typeOf (fun _ : unit => 2)
    (TArray (TPtr false) (Constant 3)) [] (IUser tt) (TPtr false) 3 (IUser tt) 3);
    [reflexivity..|cbn; lia|apply lands_here].
Defined.
