(* ===== verification/CallLayout.v ===== *)
(** * Pointers inside arguments and results

    A structure passed by value, or returned, may contain pointers, and every
    one of them has bounds to be passed.  The file models the code that the
    front end ([src/frontend/c/crunchbound/crunchbound.ml]) generates for them:
    the pushes of a call from right to left, the peeks at the callee's entry,
    which number the pointers of all formals from left to right, the pushes of a
    return and the peeks of the caller.  The first pair agrees, through the byte
    memory of the bounds stack; the second brings the bounds to the shadow space
    when the result goes to memory, and loses them when it goes to a local
    structure. *)
From stdpp Require Import functions.
From S2P Require Import Prelude Config TrapPtr Bounds Derive Memory ShadowSpace BoundsStack.
From S2P Require Import Init SlotMemory BoundsLayout.

(** A pointer of a list of arguments: which argument, and where in it. *)
Abbreviation arg_pointer := (nat * list (step Z))%type.

Section generated.
Context (v : bool).

(** The offsets of the pointers in an expression, of the type given, which is an
    lvalue or not. *)
Definition containedPointerExprsForExpr (is_lval : bool) (t : ctype) : option (list (list (step Z))) :=
  offsets ← enumeratePointerYieldingOffsetsForT v t;
  if is_lval then Some offsets
  else match unroll t with
       | TComp _ _ | TArray _ _ => None
       | TPtr to_void => Some (if ptr_has_bounds v to_void then [[]] else [])
       | _ => Some []
       end.

(** The pushes of a call, in the order they are made. *)
Definition argument_pushes (es : list (bool * ctype)) : option (list arg_pointer) :=
  pss ← mapM (fun e : nat * (bool * ctype) =>
           os ← containedPointerExprsForExpr e.2.1 e.2.2; Some (rev (map (pair e.1) os)))
         (rev (imap pair es));
  Some (concat pss).

(** The peeks of a callee: an offset on the bounds stack for every pointer. *)
Definition initCallsForOneFormal (baseOffset : Z) (formal : nat * ctype) : option (list (Z * arg_pointer)) :=
  os ← containedPointerExprsForExpr true formal.2;
  Some (imap (fun i o => (baseOffset + Z.of_nat i, (formal.1, o))) os).
Definition formalsNeedingBounds (formals : list ctype) : option (list (nat * ctype)) :=
  bs ← mapM (fun f : nat * ctype => b ← boundsTForT v f.2; Some (b, f)) (imap pair formals);
  Some (map snd (filter (fun bf : option bounds_type * (nat * ctype) => is_Some bf.1) bs)).
Definition peek_formal (acc : option (Z * list (Z * arg_pointer))) (formal : nat * ctype)
    : option (Z * list (Z * arg_pointer)) :=
  '(accBase, accInits) ← acc;
  newInits ← initCallsForOneFormal accBase formal;
  Some (accBase + Z.of_nat (length newInits), accInits ++ newInits).
Definition argument_peeks (formals : list ctype) : option (list (Z * arg_pointer)) :=
  fs ← formalsNeedingBounds formals;
  r ← fold_left peek_formal fs (Some (0, []));
  Some r.2.

(** The pushes of a return ([List.rev inOrderPushes]). *)
Definition result_pushes (is_lval : bool) (t : ctype) : option (list (list (step Z))) :=
  os ← containedPointerExprsForExpr is_lval t; Some (rev os).

(** [callsForOneLocal]: the peeks of a caller that assigns the result to the
    local lvalue [host.oe], of type [t]: the offset on the bounds stack, and the
    bounds lvalue that is written. *)
Definition result_peeks_local {E : Type} (typeOf : ctype -> list (step (iexp E)) -> ctype)
    (host : ctype) (oe : list (step (iexp E))) (t : ctype) : option (list (Z * option (iexp E))) :=
  os ← containedPointerExprsForExpr true t;
  blv ← boundsLvalForLocalLval v typeOf host oe;
  Some (imap (fun i _ => (Z.of_nat i, blv)) os).

(** [callsForOneNonLocal]: the result goes to memory; the offset on the bounds
    stack, and the pointer that is peeked for and then stored. *)
Definition result_stores (t : ctype) : option (list (Z * list (step Z))) :=
  os ← containedPointerExprsForExpr true t; Some (imap (fun i o => (Z.of_nat i, o)) os).
End generated.

(** ** The generated code run *)
Section run.
Context `{C : Config} {St U : Type} `{StackEnv St U}.
Implicit Types (st : St).

(** Pushing the bounds [B] has for the pointers. *)
Definition run_pushes (B : arg_pointer -> bounds) (ps : list arg_pointer) st : St :=
  fold_left (fun st p => push_local_argument_bounds st (B p)) ps st.

Definition run_result_pushes (R : list (step Z) -> bounds) (really : bool) (os : list (list (step Z))) st : St :=
  fold_left (fun st o => push_local_result_bounds st really (R o)) os st.

(** The bounds variables of the formals, by formal and index; [index] says
    where the bounds of a pointer are, [value] what the pointer is. *)
Definition run_peeks st (really : bool) (index : arg_pointer -> option Z) (value : arg_pointer -> Z)
    (peeks : list (Z * arg_pointer)) (locals : nat * Z -> bounds) : nat * Z -> bounds :=
  fold_left (fun locals kp =>
      match index kp.2 with
      | Some i => <[(kp.2.1, i) := peek_argument_bounds st really kp.1 (value kp.2)]> locals
      | None => locals
      end) peeks locals.

(** The peeks of a result into one bounds variable. *)
Definition run_result_peeks {E : Type} st (really : bool) (user : E -> Z) (value : Z)
    (peeks : list (Z * option (iexp E))) (locals : Z -> bounds) : Z -> bounds :=
  fold_left (fun locals kp =>
      let i := match kp.2 with None => 0 | Some e => eval user e end in
      <[i := peek_result_bounds st really kp.1 value]> locals) peeks locals.

(** Every pointer of a result in memory: peeked into a temporary, which is
    stored in the shadow space ([doNonLocalPointerStoreInstr]); [pointee] are
    the types the front end passes. *)
Fixpoint run_result_stores (really : bool) (address : list (step Z) -> Z) (pointee : list (step Z) -> U)
    (stores : list (Z * list (step Z))) st : outcome St :=
  match stores with
  | [] => Ret st
  | (k, o) :: stores =>
      let ptr := load8 (st_mem st) (address o) in
      let bvi := peek_result_bounds st really k ptr in
      st ← store_pointer_nonlocal st (address o) ptr bvi (Some (pointee o));
      run_result_stores really address pointee stores st
  end.
End run.

(** ** The order of pushes and peeks *)
Section order.
Context (v : bool).
Implicit Types (t : ctype).

(** What an argument may be: an lvalue, or no structure. *)
Definition passable (e : bool * ctype) : bool :=
  wf_type v e.2 && (e.1 || match unroll e.2 with TComp _ _ | TArray _ _ => false | _ => true end).

Definition pointers_of t : list (list (step Z)) := default [] (enumeratePointerYieldingOffsetsForT v t).
Lemma pointers_of_leaves t : wf_type v t = true -> pointers_of t ≡ₚ leaves v t.
Proof. intros Hwf. destruct (enumerate_leaves v t Hwf) as (os & Hos & Hp). unfold pointers_of. by rewrite Hos. Qed.

Lemma contained_pointers e :
  passable e = true -> containedPointerExprsForExpr v e.1 e.2 = Some (pointers_of e.2).
Proof.
  intros [Hwf Ha]%andb_true_iff. destruct e as [l t]; cbn [fst snd] in *.
  destruct (enumerate_leaves v t Hwf) as (os & Hos & _).
  unfold containedPointerExprsForExpr, pointers_of. rewrite Hos. cbn. destruct l; [done|]. cbn [orb] in Ha.
  clear Hwf. revert os Hos Ha. induction t; intros os; cbn; try done; try by intros [= <-].
  intros Hos Ha. by apply IHt.
Qed.

(** The pointers of the arguments in order. *)
Definition flat (ts : list (nat * ctype)) : list arg_pointer :=
  concat (map (fun jt : nat * ctype => map (pair jt.1) (pointers_of jt.2)) ts).

Lemma concat_rev {A} (ls : list (list A)) : concat (map (@rev A) (rev ls)) = rev (concat ls).
Proof.
  induction ls as [|l ls IH]; [done|]. cbn [rev concat]. rewrite map_app, concat_app, rev_app_distr, IH.
  cbn [map concat]. by rewrite app_nil_r.
Qed.

(** A caller's pushes are the pointers from the last to the first. *)
Lemma pushes_order es :
  Forall (fun e => passable e = true) es ->
  argument_pushes v es = Some (rev (flat (imap pair (map snd es)))).
Proof.
  intros Hes. unfold argument_pushes.
  assert (mapM (fun e : nat * (bool * ctype) =>
      os ← containedPointerExprsForExpr v e.2.1 e.2.2; Some (rev (map (pair e.1) os))) (rev (imap pair es)) =
    Some (map (@rev arg_pointer) (rev (map (fun e : nat * (bool * ctype) =>
      map (pair e.1) (pointers_of e.2.2)) (imap pair es))))) as ->.
  { rewrite <- !map_rev, map_map. apply mapM_Some.
    assert (Forall (fun e : nat * (bool * ctype) => passable e.2 = true) (rev (imap pair es))) as Hall.
    { apply Forall_rev, Forall_lookup_2. intros i e. rewrite list_lookup_imap.
      destruct (es !! i) eqn:Hi; [|done]. intros [= <-]. by eapply Forall_lookup_1 in Hes. }
    induction Hall as [|e l He _ IHl]; cbn [map]; constructor; [|done].
    rewrite (contained_pointers e.2 He). done. }
  cbn. rewrite concat_rev. do 2 f_equal. unfold flat. f_equal.
  apply list_eq. intros i. rewrite !list_lookup_fmap, !list_lookup_imap, list_lookup_fmap.
  by destruct (es !! i).
Qed.

(** A callee's peeks are the pointers from the first to the last, numbered;
    formals without bounds have no pointers. *)
Definition numbered (base : Z) (ps : list arg_pointer) : list (Z * arg_pointer) :=
  imap (fun i p => (base + Z.of_nat i, p)) ps.

Lemma numbered_app base ps qs :
  numbered base (ps ++ qs) = numbered base ps ++ numbered (base + Z.of_nat (length ps)) qs.
Proof.
  unfold numbered. rewrite imap_app. f_equal. apply imap_ext. intros i p _. unfold compose. f_equal. lia.
Qed.

Lemma length_numbered base ps : length (numbered base ps) = length ps.
Proof. apply length_imap. Qed.

Lemma peeks_fold fs : forall base inits,
  Forall (fun jt : nat * ctype => wf_type v jt.2 = true) fs ->
  fold_left (peek_formal v) fs (Some (base, inits)) =
    Some (base + Z.of_nat (length (flat fs)), inits ++ numbered base (flat fs)).
Proof.
  induction fs as [|[j t] fs IH]; intros base inits Hfs; cbn [fold_left].
  { unfold flat. cbn. by rewrite Z.add_0_r, app_nil_r. }
  apply Forall_cons in Hfs as [Ht Hfs]. unfold peek_formal at 2, initCallsForOneFormal. cbn [snd fst mbind option_bind].
  assert (containedPointerExprsForExpr v true t = Some (pointers_of t)) as ->
    by (apply (contained_pointers (true, t)); unfold passable; cbn [fst snd] in *; by rewrite Ht).
  cbn [snd fst mbind option_bind]. rewrite IH by done.
  assert (imap (fun i o => (base + Z.of_nat i, (j, o))) (pointers_of t) = numbered base (map (pair j) (pointers_of t))) as ->.
  { unfold numbered. apply list_eq. intros i. rewrite !list_lookup_imap, list_lookup_fmap.
    by destruct (pointers_of t !! i). }
  change (flat ((j, t) :: fs)) with (map (pair j) (pointers_of t) ++ flat fs).
  rewrite length_numbered, (numbered_app base), length_app, app_assoc. do 2 f_equal. lia.
Qed.

Lemma peeks_order ts :
  Forall (fun t => wf_type v t = true) ts ->
  argument_peeks v ts = Some (numbered 0 (flat (imap pair ts))).
Proof.
  intros Hts.
  assert (Hall : Forall (fun jt : nat * ctype => wf_type v jt.2 = true) (imap pair ts)).
  { apply Forall_lookup_2. intros i jt. rewrite list_lookup_imap. destruct (ts !! i) eqn:Hi; [|done].
    intros [= <-]. by eapply Forall_lookup_1 in Hts. }
  unfold argument_peeks, formalsNeedingBounds. generalize dependent (imap pair ts). intros jts Hall.
  assert (exists fs, (bs ← mapM (fun f : nat * ctype => b ← boundsTForT v f.2; Some (b, f)) jts;
      Some (map snd (filter (fun bf : option bounds_type * (nat * ctype) => is_Some bf.1) bs))) = Some fs /\
    Forall (fun jt : nat * ctype => wf_type v jt.2 = true) fs /\ flat fs = flat jts) as (fs & -> & Hfs & Hfl).
  { induction Hall as [|[j t] jts Ht _ (fs & IH & Hfs & Hfl)]; [by exists []|].
    cbn [fst snd] in *. destruct (boundsTForT_number v t Ht) as (b & Hb & Hnb).
    cbn [mapM snd]. rewrite Hb. cbn [mbind option_bind mret].
    destruct (mapM _ jts) as [bs|]; [|done]. cbn [mbind option_bind] in *. injection IH as IH.
    unfold mret, option_ret. cbn [mbind option_bind]. eexists; split; [reflexivity|].
    unfold flat in *. cbn [map concat fst snd]. rewrite filter_cons. cbn [fst].
    destruct b as [b|]; cbn [boundsTAsNumber] in *.
    - rewrite decide_True by done. cbn [map concat fst snd]. rewrite IH. split; [by constructor|]. by rewrite Hfl.
    - rewrite decide_False by (by intros [? ?]). rewrite IH. split; [done|]. rewrite Hfl.
      assert (pointers_of t = []) as ->; [|done].
      apply Permutation_nil_r. rewrite (pointers_of_leaves t Ht).
      pose proof (length_leaves v t Ht). destruct (leaves v t); [done|]. cbn in *. lia. }
  cbn [mbind option_bind]. rewrite peeks_fold by done. cbn. by rewrite Hfl.
Qed.
End order.

(** ** Arguments *)
Section arguments.
Context `{C : Config} {St U : Type} `{SL : StackEnvLaws St U}.
Hypothesis stack_on : no_bounds_stack = false.
Context (v : bool) {E : Type} (user : E -> Z).
Context (typeOf : ctype -> list (step (iexp E)) -> ctype) `{!CilTypes typeOf}.
Implicit Types (st : St) (B : arg_pointer -> bounds).

Lemma run_pushes_arguments B ps st : run_pushes B (rev ps) st = push_arguments st (map B ps).
Proof.
  unfold run_pushes. rewrite <- fold_left_rev_right, rev_involutive.
  induction ps as [|p ps IH]; cbn [fold_right map push_arguments]; [done|]. by rewrite IH.
Qed.

(** Peeks that agree on what goes to a place leave it there. *)
Lemma run_peeks_at st really index value K w peeks : forall locals,
  (forall k p i, (k, p) ∈ peeks -> index p = Some i -> (p.1, i) = K ->
     peek_argument_bounds st really k (value p) = w) ->
  locals K = w \/ (exists k p i, (k, p) ∈ peeks /\ index p = Some i /\ (p.1, i) = K) ->
  run_peeks st really index value peeks locals K = w.
Proof.
  unfold run_peeks. induction peeks as [|[k p] peeks IH]; intros locals Hall Hor; cbn [fold_left fst snd].
  { destruct Hor as [?|(? & ? & ? & Hin & _)]; [done|]. by apply not_elem_of_nil in Hin. }
  apply IH; [intros; eapply Hall; [by right|done..]|].
  destruct (index p) as [i|] eqn:Hi.
  - destruct (decide ((p.1, i) = K)) as [<-|Hne].
    { left. rewrite fn_lookup_insert. by apply (Hall k p i); [left| |]. }
    destruct Hor as [Hl|(k' & p' & i' & Hin & Hi' & HK)].
    + left. by rewrite fn_lookup_insert_ne.
    + right. exists k', p', i'. apply elem_of_cons in Hin as [[= -> ->]|Hin]; [|done].
      rewrite Hi in Hi'. injection Hi' as <-. done.
  - destruct Hor as [Hl|(k' & p' & i' & Hin & Hi' & HK)]; [by left|]. right. exists k', p', i'.
    apply elem_of_cons in Hin as [[= -> ->]|Hin]; [|done]. by rewrite Hi in Hi'.
Qed.

Definition pointer_index (ts : list ctype) (p : arg_pointer) : option Z :=
  t ← ts !! p.1; bounds_index v user typeOf t (map constant_step p.2).

Lemma elem_of_flat ts j o :
  (j, o) ∈ flat v (imap pair ts) <-> exists t, ts !! j = Some t /\ o ∈ pointers_of v t.
Proof.
  unfold flat. rewrite list_elem_of_In, in_concat. split.
  - intros (l & ([j' t] & <- & Hin)%in_map_iff & (o' & [= -> ->] & Ho)%in_map_iff).
    apply list_elem_of_In, list_elem_of_lookup in Hin as [i Hi]. rewrite list_lookup_imap in Hi.
    destruct (ts !! i) as [t'|] eqn:Ht; [|done]. injection Hi as <- <-. exists t'.
    split; [done|]. by apply list_elem_of_In.
  - intros (t & Ht & Ho). exists (map (pair j) (pointers_of v t)). split.
    + apply in_map_iff. exists (j, t). split; [done|]. apply list_elem_of_In, list_elem_of_lookup. exists j.
      by rewrite list_lookup_imap, Ht.
    + apply in_map_iff. exists o. split; [done|]. by apply list_elem_of_In.
Qed.

(** The index of a pointer in its formal's bounds variable, and that it is not
    shared within the formal. *)
Lemma pointer_index_ok ts j t o :
  ts !! j = Some t -> wf_type v t = true -> o ∈ leaves v t ->
  exists i, pointer_index ts (j, o) = Some i /\ bounds_index v user typeOf t (map constant_step o) = Some i /\
    forall o', o' ∈ leaves v t -> pointer_index ts (j, o') = Some i -> o' = o.
Proof.
  intros Ht Hwf Ho. unfold pointer_index. cbn [fst snd]. rewrite Ht. cbn [mbind option_bind].
  assert (Hpos : 0 < slots v t).
  { rewrite <- (length_leaves v t Hwf). destruct (leaves v t); [by apply not_elem_of_nil in Ho|cbn; lia]. }
  assert (Hland : forall o, o ∈ leaves v t -> exists t', lands t (map (step_value user) (map constant_step o)) t' /\
    leaves v t' = [[]]).
  { intros o1 Ho1. rewrite (constant_offset v user t o1 Hwf Ho1). by apply leaf_lands. }
  destruct (Hland o Ho) as (t1 & Hl1 & H1).
  destruct (bounds_index_block v user typeOf t _ t1 Hwf Hpos Hl1) as (_ & i & Hi & _).
  exists i. split; [done|]. split; [done|]. intros o' Ho' Hi'. destruct (Hland o' Ho') as (t2 & Hl2 & H2).
  rewrite <- (constant_offset v user t o' Hwf Ho'), <- (constant_offset v user t o Hwf Ho).
  by apply (bounds_index_injective v user typeOf t _ _ t2 t1 i).
Qed.

(** C4. Pointers inside arguments keep their bounds across a call.  Whatever
    mixture of pointers, structures and arrays of them is passed by value, the
    pushes that the front end generates for the caller and the peeks it
    generates for the callee, through the byte memory of the bounds stack, leave
    in the callee's bounds variables, for every pointer of every formal, the
    bounds that the caller has for the same pointer of the actual argument. *)
Theorem aggregate_arguments_delivered st callee es B value locals :
  0 <= callee < 2 ^ 47 -> Forall (fun e => passable v e = true) es -> (forall p, wf_bounds (B p)) ->
  u64 (bounds_sp st) ->
  sizeof_bounds * sumZ (map (fun e => slots v e.2) es) + 8 <= bounds_sp st ->
  exists pushes peeks, argument_pushes v es = Some pushes /\ argument_peeks v (map snd es) = Some peeks /\
    let st1 := push_argument_bounds_cookie (run_pushes B pushes st) callee in
    let '(really, st2) := tweak_argument_bounds_cookie st1 callee in
    really = true /\
    forall j t o, map snd es !! j = Some t -> o ∈ leaves v t ->
      exists i, bounds_index v user typeOf t (map constant_step o) = Some i /\
        run_peeks st2 really (pointer_index (map snd es)) value peeks locals (j, i) = B (j, o).
Proof.
  intros Hc Hes HB Hu Hr. set (ts := map snd es).
  assert (Hts : Forall (fun t => wf_type v t = true) ts).
  { apply Forall_map. eapply Forall_impl; [exact Hes|]. intros e [He _]%andb_true_iff. exact He. }
  pose proof (pushes_order v es Hes) as Hpu. pose proof (peeks_order v ts Hts) as Hpe. fold ts in Hpu.
  set (ps := flat v (imap pair ts)) in *. eexists _, _. split; [exact Hpu|]. split; [exact Hpe|].
  rewrite run_pushes_arguments. cbv zeta.
  assert (Hlen : Z.of_nat (length ps) = sumZ (map (fun e => slots v e.2) es)).
  { unfold ps, flat. rewrite length_concat_map. clear -Hts.
    replace (map (fun e : bool * ctype => slots v e.2) es) with (map (slots v) ts) by (unfold ts; by rewrite map_map).
    assert (map (fun a : nat * ctype => Z.of_nat (length (map (pair a.1) (pointers_of v a.2)))) (imap pair ts) =
      map (slots v) ts) as ->; [|done].
    apply list_eq. intros i. rewrite !list_lookup_fmap, list_lookup_imap. destruct (ts !! i) as [t|] eqn:Ht; [|done].
    cbn [fmap option_fmap option_map fst snd]. rewrite length_map. eapply Forall_lookup_1 in Hts; [|done].
    by rewrite (Permutation_length (pointers_of_leaves v t Hts)), length_leaves. }
  pose proof sizeof_pos as Hsz.
  destruct (caller_enters stack_on st callee (map B ps)) as (Hsp & He & _);
    [done|unfold u64; lia|rewrite length_map; lia|by apply Forall_map, Forall_forall|].
  set (st1 := push_argument_bounds_cookie _ callee) in *. rewrite length_map in Hsp.
  destruct (tweak_entered stack_on st1 callee (map B ps) Hc ltac:(rewrite Hsp; unfold u64 in *; lia) He)
    as (st2 & Htw & Hsp2 & He2 & _).
  rewrite Htw. split; [done|]. intros j t o Hj Ho.
  eapply Forall_lookup_1 in Hts as Hwf; [|exact Hj].
  destruct (pointer_index_ok ts j t o Hj Hwf Ho) as (i & Hi & Hi' & Huniq). exists i. split; [done|].
  apply run_peeks_at.
  - intros k [j' o'] i' Hin Hidx [= -> ->]. unfold numbered in Hin.
    apply list_elem_of_lookup in Hin as [m Hm]. rewrite list_lookup_imap in Hm.
    destruct (ps !! m) as [p|] eqn:Hp; [|done]. injection Hm as <- ->. rewrite Z.add_0_l.
    assert (o' ∈ leaves v t) as Ho'.
    { apply list_elem_of_lookup_2, elem_of_flat in Hp as (t' & Ht' & Hin). rewrite Hj in Ht'. injection Ht' as <-.
      by rewrite (pointers_of_leaves v t Hwf) in Hin. }
    rewrite (Huniq o' Ho' Hidx) in *.
    apply (peek_entered stack_on st2 (Z.lor callee 0x800000000000) (map B ps)); rewrite ?length_map, ?Hsp2, ?Hsp; try done;
      try (unfold u64 in *; nia). by rewrite list_lookup_fmap, Hp.
  - right. assert ((j, o) ∈ ps) as Hin.
    { apply elem_of_flat. exists t. split; [done|]. by rewrite (pointers_of_leaves v t Hwf). }
    apply list_elem_of_lookup in Hin as [m Hm]. exists (0 + Z.of_nat m), (j, o), i. split; [|done].
    apply list_elem_of_lookup. exists m. unfold numbered. by rewrite list_lookup_imap, Hm.
Qed.
End arguments.

(** ** Results *)
Section results.
Context `{C : Config} {St U : Type} `{SL : StackEnvLaws St U}.
Hypothesis stack_on : no_bounds_stack = false.
Context (v : bool) {E : Type} (user : E -> Z).
Context (typeOf : ctype -> list (step (iexp E)) -> ctype) `{!CilTypes typeOf}.
Implicit Types (st : St) (R : list (step Z) -> bounds).

Lemma run_result_pushes_arguments R os st :
  run_result_pushes R true (rev os) st = push_arguments st (map R os).
Proof.
  unfold run_result_pushes. rewrite <- fold_left_rev_right, rev_involutive.
  induction os as [|o os IH]; cbn [fold_right map push_arguments]; [done|]. rewrite IH.
  unfold push_local_result_bounds, push_local_argument_bounds. by rewrite stack_on.
Qed.

(** The pushes of a return put the bounds of the pointer number [k] at the
    offset [k]. *)
Lemma result_pushed R os st k o ptr :
  (forall o, wf_bounds (R o)) -> u64 (bounds_sp st) ->
  sizeof_bounds * Z.of_nat (length os) <= bounds_sp st -> os !! k = Some o ->
  peek_result_bounds (run_result_pushes R true (rev os) st) true (Z.of_nat k) ptr = R o.
Proof.
  intros HR Hu Hr Ho. rewrite run_result_pushes_arguments. pose proof sizeof_pos as Hsz.
  destruct (push_arguments_spec stack_on (map R os) st Hu) as (Hsp & Hrd & _);
    [by rewrite length_map|by apply Forall_map, Forall_forall|].
  unfold peek_result_bounds. rewrite stack_on. rewrite <- (Hrd k (R o)) by (by rewrite list_lookup_fmap, Ho).
  f_equal. apply lookup_lt_Some in Ho. rewrite length_map in Hsp.
  replace (8 * (Z.of_nat k * (sizeof_bounds / 8))) with (sizeof_bounds * Z.of_nat k)
    by (unfold sizeof_bounds; destruct wordsize_bounds; change (8 / 8) with 1; change (16 / 8) with 2; lia).
  apply wrap64_small. rewrite Hsp. unfold u64 in *. nia.
Qed.

(** A structure with several pointers returned into a local variable loses
    their bounds.  All the peeks of the result write the same bounds, those of
    the first pointer: after the call these are the bounds of the last pointer,
    and the bounds of the others are what they were before the call.  With a
    single pointer the bounds are right. *)
Theorem local_result_keeps_last st host oe t R value locals os o :
  wf_type v host = true -> 0 < slots v host -> lands host (map (step_value user) oe) t -> wf_type v t = true ->
  enumeratePointerYieldingOffsetsForT v t = Some (os ++ [o]) ->
  (forall o, wf_bounds (R o)) -> u64 (bounds_sp st) -> sizeof_bounds * slots v t <= bounds_sp st ->
  exists pushes peeks i, result_pushes v true t = Some pushes /\
    result_peeks_local v typeOf host oe t = Some peeks /\ bounds_index v user typeOf host oe = Some i /\
    forall j, run_result_peeks (run_result_pushes R true pushes st) true user value peeks locals j =
      if decide (j = i) then R o else locals j.
Proof.
  intros Hwf Hpos Hl Hwt Hos HR Hu Hr.
  destruct (bounds_index_block v user typeOf host oe t Hwf Hpos Hl) as (_ & i & Hi & _).
  assert (Hlen : Z.of_nat (length (os ++ [o])) = slots v t).
  { destruct (enumerate_leaves v t Hwt) as (os' & Hos' & Hp). rewrite Hos in Hos'. injection Hos' as <-.
    by rewrite (Permutation_length Hp), length_leaves. }
  unfold result_pushes, result_peeks_local, containedPointerExprsForExpr. rewrite Hos.
  cbn [mbind option_bind]. pose proof Hi as Hi'. unfold bounds_index in Hi.
  destruct (boundsLvalForLocalLval v typeOf host oe) as [blv|] eqn:Hb; [|done]. cbn [mbind option_bind] in *.
  eexists _, _, i. do 3 (split; [done|]). intros j. injection Hi as Hi.
  unfold run_result_peeks. rewrite imap_app, fold_left_app. cbn [imap fold_left fst snd]. rewrite Hi.
  rewrite (result_pushed R (os ++ [o]) st (length os + 0) o value HR Hu);
    [|by rewrite Hlen|rewrite Nat.add_0_r; by apply list_lookup_middle].
  destruct (decide (j = i)) as [->|Hne]; [by rewrite fn_lookup_insert|].
  rewrite fn_lookup_insert_ne by done.
  generalize (run_result_pushes R true (rev (os ++ [o])) st). intros st'.
  assert (forall l f, fold_left (fun (locals : Z -> bounds) (kp : Z * option (iexp E)) =>
      <[match kp.2 with None => 0 | Some e => eval user e end := peek_result_bounds st' true kp.1 value]> locals)
      (imap (fun (n : nat) (_ : list (step Z)) => (f n, blv)) l) locals j = locals j) as Hsame; [|apply (Hsame os)].
  clear -Hi Hne. intros l. revert locals. induction l as [|o l IH]; intros locals f; cbn [imap fold_left fst snd]; [done|].
  rewrite (IH _ (f ∘ S)). rewrite Hi. by rewrite fn_lookup_insert_ne.
Qed.
End results.

(** ** Results in memory *)
Section stores.
Context `{C : Config} `{WB : !WideBounds C} {St U : Type} `{SL : StackEnvLaws St U}.
Hypothesis stack_on : no_bounds_stack = false.
Hypothesis shadow_on : no_shadow_space = false.
Hypothesis no_counts : keep_expensive_counts = false.
Context (v : bool) (address : list (step Z) -> Z) (pointee : list (step Z) -> U).
Implicit Types (st : St) (R : list (step Z) -> bounds) (o : list (step Z)).

Lemma storable_wf B : storable B -> wf_bounds B.
Proof. intros [Hb Hs]. unfold wf_bounds. rewrite wide_word, wide_size. unfold u64 in *. lia. Qed.

(** What the memory of the program looks like is not changed by the shadow
    stores. *)
Definition same_user_memory (m m' : mem) : Prop := forall i, shadowable i = true -> byte m' i = byte m i.

(** One store with valid bounds at hand. *)
Lemma store_known st a ptr B (t : U) :
  size B <> 0 -> slot a -> storable B ->
  exists st', store_pointer_nonlocal st a ptr B (Some t) = Ret st' /\
    same_user_memory (st_mem st) (st_mem st') /\ bounds_sp st' = bounds_sp st /\
    entry (st_mem st') a = B /\
    forall b, slot b -> a <> b -> entry (st_mem st') b = entry (st_mem st) b.
Proof.
  intros HB Ha Hst. unfold store_pointer_nonlocal. rewrite no_counts, shadow_on.
  assert (libcrunch_bounds_invalid B ptr = false) as Hv
    by (unfold libcrunch_bounds_invalid; by apply Z.eqb_neq).
  rewrite Hv. cbn [mbind outcome_bind]. rewrite Hv. cbn [negb orb]. eexists. split; [reflexivity|].
  rewrite bounds_sp_set_mem, st_mem_set. split; [intros i Hi; by apply byte_shadow_store|]. split; [done|].
  split; [rewrite entry_store_same by (done || apply Hst); by apply shadow_image_storable|].
  intros b Hb Hne. by apply entry_store_other.
Qed.

(** A peek reads the bounds stack, which is memory of the program. *)
Lemma peek_same st st' k ptr ptr' :
  same_user_memory (st_mem st) (st_mem st') -> bounds_sp st' = bounds_sp st ->
  (forall i, 0 <= i < sizeof_bounds ->
     shadowable ((bounds_sp st +w 8 * (k * (sizeof_bounds / 8))) + i) = true) ->
  peek_result_bounds st' true k ptr' = peek_result_bounds st true k ptr.
Proof.
  intros Hm Hsp Hsh. unfold peek_result_bounds. rewrite stack_on, Hsp. apply read_bounds_ext.
  revert Hsh. generalize (bounds_sp st +w 8 * (k * (sizeof_bounds / 8))). intros a Hsh i Hi. apply Hm.
  specialize (Hsh (i - a) ltac:(lia)). by rewrite Zplus_minus in Hsh.
Qed.

Lemma stores_loop R st stores : forall st1,
  same_user_memory (st_mem st) (st_mem st1) -> bounds_sp st1 = bounds_sp st ->
  Forall (fun ko => slot (address ko.2) /\ storable (R ko.2) /\ size (R ko.2) <> 0 /\
    peek_result_bounds st true ko.1 0 = R ko.2 /\
    forall i, 0 <= i < sizeof_bounds ->
      shadowable ((bounds_sp st +w 8 * (ko.1 * (sizeof_bounds / 8))) + i) = true) stores ->
  NoDup (map (fun ko => address ko.2) stores) ->
  exists st', run_result_stores true address pointee stores st1 = Ret st' /\
    same_user_memory (st_mem st) (st_mem st') /\ bounds_sp st' = bounds_sp st /\
    Forall (fun ko => entry (st_mem st') (address ko.2) = R ko.2) stores /\
    forall b, slot b -> b ∉ map (fun ko => address ko.2) stores -> entry (st_mem st') b = entry (st_mem st1) b.
Proof.
  induction stores as [|[k o] stores IH]; intros st1 Hm Hsp Hall Hnd; cbn [run_result_stores].
  { exists st1. by repeat split. }
  inversion Hall as [|? ? (Hs & Hst & Hsz & Hpk & Hsh) Hall']; subst. inversion Hnd as [|? ? Hni Hnd']; subst.
  cbn [fst snd] in *.
  rewrite (peek_same st st1 k 0 _ Hm Hsp Hsh), Hpk.
  destruct (store_known st1 (address o) (load8 (st_mem st1) (address o)) (R o) (pointee o) Hsz Hs Hst)
    as (st2 & -> & Hm2 & Hsp2 & He & Hother). cbn [mbind outcome_bind].
  destruct (IH st2) as (st' & -> & Hm' & Hsp' & Hes & Hothers); [|congruence|done|done|].
  { intros i Hi. by rewrite Hm2, Hm. }
  exists st'. do 3 (split; [done|]). split.
  - constructor; [|done]. cbn [fst snd]. by rewrite Hothers.
  - intros b Hb Hnb. cbn [map] in Hnb. apply not_elem_of_cons in Hnb as [Hne Hnb].
    rewrite Hothers by done. by apply Hother.
Qed.

(** C5. A structure returned into memory keeps its bounds.  When the result of a
    call is assigned to an lvalue that is not a local variable, the peeks and
    the shadow stores that follow leave, for each of its pointers, the bounds
    that the callee returned in the shadow entry of its address, where the next
    load of the pointer finds them; the program's memory above the stack pointer
    is not changed. *)
Theorem nonlocal_result_shadowed st t os R :
  enumeratePointerYieldingOffsetsForT v t = Some os ->
  (forall o, storable (R o) /\ size (R o) <> 0) ->
  Forall (fun o => slot (address o)) os -> NoDup (map address os) ->
  u64 (bounds_sp st) -> sizeof_bounds * Z.of_nat (length os) <= bounds_sp st ->
  (forall i, bounds_sp st - sizeof_bounds * Z.of_nat (length os) <= i < bounds_sp st -> shadowable i = true) ->
  exists pushes stores st', result_pushes v true t = Some pushes /\ result_stores v t = Some stores /\
    run_result_stores true address pointee stores (run_result_pushes R true pushes st) = Ret st' /\
    (forall o ptr, o ∈ os -> ptr <> 0 -> address o <> 0 ->
       fetch_bounds_inl (st_mem st') ptr (address o) = R o) /\
    forall i, shadowable i = true -> bounds_sp st <= i -> byte (st_mem st') i = byte (st_mem st) i.
Proof.
  intros Hos HR Hslots Hnd Hu Hr Hsh. unfold result_pushes, result_stores, containedPointerExprsForExpr.
  rewrite Hos. cbn [mbind option_bind]. eexists _, _.
  assert (Hwf : forall o, wf_bounds (R o)) by (intros; apply storable_wf, HR).
  set (st0 := run_result_pushes R true (rev os) st).
  destruct (push_arguments_spec stack_on (map R os) st Hu) as (Hsp & _ & Hrest);
    [by rewrite length_map|by apply Forall_map, Forall_forall|].
  rewrite <- (run_result_pushes_arguments stack_on) in Hsp, Hrest. fold st0 in Hsp, Hrest. rewrite length_map in Hsp.
  pose proof sizeof_pos as Hsz.
  destruct (stores_loop R st0 (imap (fun i o => (Z.of_nat i, o)) os) st0) as (st' & Hrun & Hm & _ & He & _); [done|done| | |].
  - apply Forall_lookup. intros k [k' o] Hk. apply list_lookup_imap_Some in Hk as (o' & Ho & [= -> ->]).
    cbn [fst snd]. split; [by eapply (Forall_lookup_1 _ _ _ _ Hslots)|]. split; [apply HR|]. split; [apply HR|].
    split; [by apply (result_pushed stack_on R os st k o')|]. intros i Hi. apply lookup_lt_Some in Ho.
    replace (8 * (Z.of_nat k * (sizeof_bounds / 8))) with (sizeof_bounds * Z.of_nat k)
      by (unfold sizeof_bounds; destruct wordsize_bounds; change (8 / 8) with 1; change (16 / 8) with 2; lia).
    rewrite Hsp. unfold add64. rewrite wrap64_small by (unfold u64 in *; nia). apply Hsh. nia.
  - assert (map (fun ko : Z * list (step Z) => address ko.2) (imap (fun i o => (Z.of_nat i, o)) os) = map address os) as ->; [|done].
    apply list_eq. intros k. change (map ?f) with (fmap (M := list) f).
    rewrite !list_lookup_fmap, list_lookup_imap. by destruct (os !! k).
  - exists st'. do 3 (split; [done|]). split.
    + intros o ptr Ho Hp Ha. rewrite fetch_entry by done. apply list_elem_of_lookup in Ho as [k Hk].
      apply (Forall_lookup_1 _ _ k (Z.of_nat k, o) He). by rewrite list_lookup_imap, Hk.
    + intros i Hi Hout. rewrite Hm by done. by apply Hrest.
Qed.
End stores.

(** ** A concrete environment: memory and stack pointer. *)
#[local] Instance call_env : StackEnv (mem * Z) unit := {|
  stack_shadow := {|
    shadow_derive := {|
      count_ptr_derivation st := st; count_ptr_deref st := st; count_transition st := st;
      bounds_error st _ _ _ := st; soft_deref_error_at st _ _ := st;
      fetch_bounds_ool_to_use st _ _ _ := Ret (st, Bounds 0x1000 0x40) |};
    st_mem st := st.1; set_mem m st := (m, st.2); count_ptr_store st := st;
    fetch_bounds_ool st _ _ _ := Ret (st, Bounds 0x1000 0x40) |};
  bounds_sp st := st.2; set_bounds_sp sp st := (st.1, sp);
|}.
#[local] Instance call_env_laws : StackEnvLaws (mem * Z) unit.
Proof. by split. Qed.

(** A call with a structure and a pointer; the structure has four pointers. *)
Definition ex_bounds (p : arg_pointer) : bounds :=
  match p with
  | (1%nat, _) => Bounds 0x5000 0x10
  | (_, [_]) => Bounds 0x1000 0x40
  | (_, [_; Index i; _]) => Bounds (0x2000 + Z.min (Z.max i 0) 100) 8
  | _ => Bounds 0 1
  end.
Lemma ex_bounds_wf p : @wf_bounds config_p (ex_bounds p).
Proof.
  destruct p as [[|[|j]] [|? [|[|] [|? [|]]]]]; unfold wf_bounds, u64, u32, ex_bounds; cbn; lia.
Qed.
Lemma aggregate_arguments_delivered_witness :
  exists pushes peeks, argument_pushes false [(true, ex_host); (false, TPtr false)] = Some pushes /\
    argument_peeks false [ex_host; TPtr false] = Some peeks /\ length peeks = 5%nat.
Proof.
  destruct (aggregate_arguments_delivered (C := config_p) (St := mem * Z) (U := unit) eq_refl false
    (fun _ : unit => 0) ex_typeOf (∅, 0x7f0000010000) 0x401000 [(true, ex_host); (false, TPtr false)]
    ex_bounds (fun _ => 0) (fun _ => Bounds 0 1)) as (pushes & peeks & Hpu & Hpe & _).
  - lia.
  - repeat constructor; vm_compute; reflexivity.
  - exact ex_bounds_wf.
  - unfold u64; cbn; lia.
  - vm_compute; discriminate.
  - exists pushes, peeks. split; [exact Hpu|]. split; [exact Hpe|].
    vm_compute in Hpe. injection Hpe as <-. reflexivity.
Defined.

(** [struct { int *p, *q; } s = f();] *)
Definition ex_result (o : list (step Z)) : bounds :=
  match o with [Field _ (("p"%string, _), _)] => Bounds 0x1000 0x40 | _ => Bounds 0x2000 0x80 end.
Lemma local_result_keeps_last_witness :
  exists pushes peeks, result_pushes false true (TComp true pq) = Some pushes /\
    result_peeks_local false (@ex_typeOf unit) (TComp true pq) [] (TComp true pq) = Some peeks /\
    let after := @run_result_peeks config_p (mem * Z) unit _ unit
      (@run_result_pushes config_p (mem * Z) unit _ ex_result true pushes (∅, 0x7f0000010000))
      true (fun _ => 0) 0 peeks (fun _ => Bounds 0 0) in
    after 0 = Bounds 0x2000 0x80 /\ after 1 = Bounds 0 0.
Proof.
  destruct (local_result_keeps_last (C := config_p) (St := mem * Z) (U := unit) eq_refl false
    (fun _ : unit => 0) ex_typeOf (∅, 0x7f0000010000) (TComp true pq) [] (TComp true pq) ex_result 0
    (fun _ => Bounds 0 0) [[Field pq (("p"%string, 1), TPtr false)]] [Field pq (("q"%string, 2), TPtr false)])
    as (pushes & peeks & i & Hpu & Hpe & Hi & Hall).
  - vm_compute; reflexivity.
  - vm_compute; reflexivity.
  - apply lands_here.
  - vm_compute; reflexivity.
  - vm_compute; reflexivity.
  - intros o. unfold ex_result, wf_bounds, u64, u32. repeat case_match; cbn; lia.
  - unfold u64; cbn; lia.
  - vm_compute; discriminate.
  - exists pushes, peeks. split; [exact Hpu|]. split; [exact Hpe|]. vm_compute in Hi. injection Hi as <-.
    split; [exact (Hall 0)|exact (Hall 1)].
Defined.

(** [*s = f();] with the structure at 0x555555557000. *)
Definition ex_slot (o : list (step Z)) : Z :=
  match o with [Field _ (("p"%string, _), _)] => 0x555555557000 | _ => 0x555555557008 end.
Lemma nonlocal_result_shadowed_witness :
  exists pushes stores st', result_pushes false true (TComp true pq) = Some pushes /\
    result_stores false (TComp true pq) = Some stores /\
    @run_result_stores config_p (mem * Z) unit _ true ex_slot (fun _ => tt) stores
      (@run_result_pushes config_p (mem * Z) unit _ ex_result true pushes (∅, 0x7f0000010000)) = Ret st' /\
    @fetch_bounds_inl config_p st'.1 0x1008 0x555555557000 = Bounds 0x1000 0x40 /\
    @fetch_bounds_inl config_p st'.1 0x2008 0x555555557008 = Bounds 0x2000 0x80.
Proof.
  set (op := [Field pq (("p"%string, 1), TPtr false)] : list (step Z)).
  set (oq := [Field pq (("q"%string, 2), TPtr false)] : list (step Z)).
  destruct (nonlocal_result_shadowed (C := config_p) (St := mem * Z) (U := unit) eq_refl eq_refl eq_refl false
    ex_slot (fun _ => tt) (∅, 0x7f0000010000) (TComp true pq) [op; oq] ex_result)
    as (pushes & stores & st' & Hpu & Hst & Hrun & Hfetch & _).
  - vm_compute; reflexivity.
  - intros o. unfold ex_result, storable, u64. repeat case_match; cbn; lia.
  - assert (forall a, 0x555555556000 <= a <= 0x565555555ff8 -> a mod 8 = 0 -> slot a) as Hs.
    { intros a Ha Hm. split; [|exact Hm]. do 2 right. left. cbn. lia. }
    apply Forall_cons; split; [|apply Forall_cons; split; [|apply Forall_nil_2]]; apply Hs; cbn; (lia || reflexivity).
  - apply (bool_decide_eq_true_1 _); vm_compute; reflexivity.
  - unfold u64; cbn; lia.
  - vm_compute; discriminate.
  - intros i Hi. cbn in Hi. unfold shadowable, user_ranges, in_range. cbn [existsb fst snd]. lia.
  - exists pushes, stores, st'. split; [exact Hpu|]. split; [exact Hst|]. split; [exact Hrun|].
    split; [apply (Hfetch op)|apply (Hfetch oq)]; try (vm_compute; discriminate); unfold op, oq; set_solver.
Defined.
