(* ===== verification/Casts.v ===== *)
(** * Checked casts of C programs

    The pass [src/frontend/c/trumptr/trumptr.ml] decides which pointer casts of
    a program are checked and how, and writes the checks into the program: the
    value cast goes to a temporary, the check is called on it, its result is
    asserted ([__inline_assert] of the inlines).  Stores through pointers to
    generic pointers are checked after the store; with sloppy function pointers,
    the arguments of an indirect call are checked before it and its result after;
    so is what [va_arg] yields.  The file models the visitor on assignments and
    calls, the code it generates and the run of that code on the run-time of
    [TypeChecks.v]; [CastChecks.v] and [CastRules.v] say what this comes to.
    Predicates on types
    that the pass takes from CIL and liballocs' front end are parameters. *)
From stdpp Require Import functions.
From S2P Require Import Prelude Config TrapPtr Bounds Derive Memory ShadowSpace BoundsStack Report.
From S2P Require Import Runtime TinyAllocs TypeChecks Verdicts Init.

(** ** Types

    CIL's types, as far as the pass looks at them ([TPtr] shows what is pointed
    to by value, without the fields of structures), and type signatures. *)
Inductive ikind := IChar | ISChar | IUChar | IInt | ILong.
#[export] Instance ikind_eq_dec : EqDecision ikind.
Proof. solve_decision. Defined.
#[warnings="-register-all"]
Inductive typ :=
| TVoid | TInt (k : ikind) | TFloat | TPtr (pt : typ) | TArray (at_ : typ) | TFun (name : string)
| TNamed (ttype : typ) | TComp (name : string) (cfields : list typ) | TEnum | TBuiltin_va_list.

Inductive base_type := BVoid | BInt (k : ikind) | BFloat.
#[export] Instance base_type_eq_dec : EqDecision base_type.
Proof. solve_decision. Defined.
Inductive typsig :=
| TSBase (b : base_type) (attrs : list string) | TSEnum (name : string) | TSComp (name : string)
| TSFun (name : string) | TSArray (elt : typsig) (n : Z) | TSPtr (ptdts : typsig) (attrs : list string).
#[export] Instance typsig_eq_dec : EqDecision typsig.
Proof. solve_decision. Defined.

(** What the pass takes from elsewhere. *)
Class Cilallocs := {
  typeSig : typ -> typsig;
  getConcreteType : typsig -> typsig;
  isPointerType : typ -> bool;
  isGenericPointerType : typ -> bool;
  ultimatePointeeT : typ -> typ;
  indirectionLevel : typsig -> Z;
  tsIsPointer : typsig -> bool;
  tsIsFunction : typsig -> bool;
  tsIsFunctionPointer : typsig -> bool;
  tsIsMultiplyIndirectedGenericPointer : typsig -> bool;
  tsIsUndefinedType : typsig -> bool;
  barenameFromSig : typsig -> string;
  userTypeNameToBareName : string -> string;
}.

(** The environment variables. *)
Record options := Options {
  sloppyFps : bool;
  strictVoidpps : bool;
  likeATypeNames : list string;
  looseGPCOTTypeNames : list string;
}.

(** ** Programs

    Expressions have no side effects; their values are words, and casts between
    pointers and integers of the same size do not change them.  [EMem] is (a part
    of) what a pointer points to, [EAddrVar] and [EAddrMem] are [AddrOf] such
    lvalues, with the types of these.  [ETmp] are the temporaries that the pass
    makes. *)
Inductive exp :=
| EConst (z : Z) (t : typ)
| EVar (x : nat) (t : typ)
| ETmp (n : nat) (t : typ)
| EMem (a : exp) (off : Z) (t : typ)
| EAddrVar (x : nat) (t : typ)
| EAddrMem (a : exp) (off : Z) (t : typ)
| ECast (t : typ) (e : exp).
Definition typeOf (e : exp) : typ :=
  match e with
  | EConst _ t | EVar _ t | ETmp _ t | EMem _ _ t | ECast t _ => t
  | EAddrVar _ t | EAddrMem _ _ t => TPtr t
  end.

(** [LMem a pointee off t]: a part, of type [t], of what [a] points to. *)
Inductive lval := LVar (x : nat) (t : typ) | LMem (a : exp) (pointee : typ) (off : Z) (t : typ).
Definition lval_type (lv : lval) : typ := match lv with LVar _ t | LMem _ _ _ t => t end.
Definition exp_of_lval (lv : lval) : exp :=
  match lv with LVar x t => EVar x t | LMem a _ off t => EMem a off t end.

(** The function called: by its name, or through a pointer. *)
Inductive fexp := FVar (vname : string) | FMem (e : exp).
Inductive instr := Set_ (lv : lval) (e : exp) | Call (lv : option lval) (f : fexp) (args : list exp).

(** The check a cast gets, and the code that is written. *)
Inductive testfun := NamedAU | FunctionRefiningU | IsAU | LikeAU.
#[export] Instance testfun_eq_dec : EqDecision testfun.
Proof. solve_decision. Defined.
Inductive cast_check := DoChildren | CheckLooselyLike (pt : typsig) | CheckTarget (f : testfun) (pt : typsig).
Inductive check_fn := FnTest (f : testfun) | FnLooselyLikeA.
Inductive tinstr :=
| TSet (tmp : nat) (e : exp)
| TWrite (lv : lval) (e : exp)
| TCheck (chk : nat) (f : check_fn) (e : exp) (pt : typsig)
| TCanHold (chk : nat) (lv : lval) (e : exp)
| TCheckArgs (chk : nat) (f : fexp) (args : list exp)
| TCall (tmp : option nat) (f : fexp) (args : list exp)
| TAssert (chk : nat)
| TAssertEq (chk : nat) (n : Z)
| TTraceWiden (e : exp).

Section pass.
Context `{A : Cilallocs} (env : options).
(** [isStaticallyNullPtr] and [isStaticallyZero], on expressions. *)
Context (isStaticallyNullPtr isStaticallyZero : exp -> bool).

Definition concrete (t : typ) : typsig := getConcreteType (typeSig t).

Fixpoint findLikeA (barename : string) (l : list string) : option string :=
  match l with
  | [] => None
  | x :: xs => if String.eqb (userTypeNameToBareName x) barename then Some barename else findLikeA barename xs
  end.

Fixpoint isGPCOT (t : typ) : bool :=
  isGenericPointerType t ||
  match t with
  | TVoid | TInt _ | TFloat | TFun _ | TEnum | TBuiltin_va_list => false
  | TPtr pt => isGenericPointerType pt
  | TArray at_ => isGPCOT at_
  | TNamed ttype => isGPCOT ttype
  | TComp _ cfields => fold_left (fun acc ft => acc || isGPCOT ft) cfields false
  end.

Definition isLooseGPCOT (t : typ) : bool :=
  isGPCOT t && ((isGenericPointerType t && negb (strictVoidpps env)) ||
                bool_decide (barenameFromSig (concrete t) ∈ looseGPCOTTypeNames env)).

Definition tIsIndirectedLooseGPCOT (t : typ) : bool :=
  isPointerType t &&
  ((isGenericPointerType t && (2 <=? indirectionLevel (typeSig t)) && negb (strictVoidpps env)) ||
   isLooseGPCOT (ultimatePointeeT t)).

(** [mkCheckInstrsForTargetType]: the name of the function. *)
Definition testFunName (concretePtdts : typsig) : testfun :=
  if tsIsUndefinedType concretePtdts then NamedAU
  else if tsIsFunction concretePtdts then FunctionRefiningU
  else match findLikeA (barenameFromSig concretePtdts) (likeATypeNames env) with
       | None => IsAU
       | Some _ => LikeAU
       end.

(** Patterns of the last [match]: functions, and the targets that need no check. *)
Definition is_TSFun (ts : typsig) : bool := match ts with TSFun _ => true | _ => false end.
Definition void_or_char (ptdts : typsig) (attrs : list string) : bool :=
  match ptdts, attrs with
  | TSBase BVoid [], [] | TSBase (BInt IChar) [], [] | TSBase (BInt ISChar) [], []
  | TSBase (BInt IUChar) [], [] => true
  | _, _ => false
  end.

(** The case for [CastE] of [vexpr]; [None] is a failure of the pass. *)
Definition vexpr_CastE (targetT : typ) (subex : exp) : option cast_check :=
  let subexTs := concrete (typeOf subex) in
  let targetTs := concrete targetT in
  if bool_decide (targetTs = subexTs) then Some DoChildren
  else if sloppyFps env && tsIsFunctionPointer targetTs then Some DoChildren
  else if isStaticallyNullPtr subex || isStaticallyZero subex then Some DoChildren
  else if tIsIndirectedLooseGPCOT targetT then
    if (indirectionLevel targetTs <=? indirectionLevel subexTs) && tsIsMultiplyIndirectedGenericPointer targetTs
    then Some DoChildren
    else match targetTs with
         | TSPtr ptdts _ => Some (CheckLooselyLike (getConcreteType ptdts))
         | _ => None
         end
  else match targetTs with
       | TSPtr ptdts attrs =>
           if sloppyFps env && is_TSFun ptdts then None
           else if void_or_char ptdts attrs then Some DoChildren
           else
             let concretePtdts := getConcreteType ptdts in
             Some (CheckTarget (testFunName concretePtdts) concretePtdts)
       | _ => Some DoChildren
       end.

Definition traces_widening (targetT : typ) (subex : exp) : bool :=
  let subexTs := concrete (typeOf subex) in
  let targetTs := concrete targetT in
  negb (bool_decide (targetTs = subexTs)) && tsIsPointer targetTs && negb (tsIsPointer subexTs)
  && negb (isStaticallyZero subex).

(** [mkCheckInstrs]: the temporaries [n] for the value and [S n] for the
    result. *)
Definition mkCheckInstrs (n : nat) (e : exp) (f : check_fn) (pt : typsig) : list tinstr :=
  [TSet n e; TCheck (S n) f (ETmp n (typeOf e)) pt; TAssert (S n)].

(** The instructions queued, the new expression, and the next temporary.  What
    a checked cast is applied to is not visited ([ChangeTo]). *)
Fixpoint vexpr (n : nat) (e : exp) : option (list tinstr * exp * nat) :=
  match e with
  | EConst _ _ | EVar _ _ | ETmp _ _ | EAddrVar _ _ => Some ([], e, n)
  | EMem a off t => '(q, a, n) ← vexpr n a; Some (q, EMem a off t, n)
  | EAddrMem a off t => '(q, a, n) ← vexpr n a; Some (q, EAddrMem a off t, n)
  | ECast targetT subex =>
      c ← vexpr_CastE targetT subex;
      let trace := if traces_widening targetT subex then [TTraceWiden subex] else [] in
      match c with
      | DoChildren => '(q, subex, n) ← vexpr n subex; Some (trace ++ q, ECast targetT subex, n)
      | CheckLooselyLike pt =>
          Some (trace ++ mkCheckInstrs n e FnLooselyLikeA pt, ECast targetT subex, S (S n))
      | CheckTarget f pt =>
          Some (trace ++ mkCheckInstrs n e (FnTest f) pt, ECast targetT (ETmp n (typeOf e)), S (S n))
      end
  end.
Fixpoint vexprs (n : nat) (es : list exp) : option (list tinstr * list exp * nat) :=
  match es with
  | [] => Some ([], [], n)
  | e :: es => '(q, e, n) ← vexpr n e; '(q', es, n) ← vexprs n es; Some (q ++ q', e :: es, n)
  end.
Definition vlval (n : nat) (lv : lval) : option (list tinstr * lval * nat) :=
  match lv with
  | LVar _ _ => Some ([], lv, n)
  | LMem a pointee off t => '(q, a, n) ← vexpr n a; Some (q, LMem a pointee off t, n)
  end.
Definition vfexp (n : nat) (f : fexp) : option (list tinstr * fexp * nat) :=
  match f with
  | FVar _ => Some ([], f, n)
  | FMem e => '(q, e, n) ← vexpr n e; Some (q, FMem e, n)
  end.

(** *** The code for an instruction

    The temporaries of an instruction: for the result of the check of the
    arguments, the value written, the result of the check of the store, and for
    each of the two checks after a call. *)
Record temps := Temps { t_args : nat; t_written : nat; t_store : nat; t_return : nat; t_va : nat }.
Definition first_temps (n : nat) : temps := Temps n (n + 1) (n + 2) (n + 3) (n + 5).
Definition temps_made : nat := 7.

Definition callIsIndirect (f : fexp) : bool := match f with FVar _ => false | FMem _ => true end.
Definition lvalueNamesPointerThroughPtrToLooseGPCOT (lv : lval) : bool :=
  match lv with
  | LMem _ pointee _ t => isGenericPointerType t && isLooseGPCOT pointee
  | LVar _ _ => false
  end.

Definition makeCheckArgArg (expr : exp) : exp :=
  match typeSig (typeOf expr) with
  | TSBase _ _ | TSPtr _ _ | TSEnum _ => ECast (TInt ILong) expr
  | _ => EConst 0 (TInt IInt)
  end.

Definition checks_args (f : fexp) : bool := sloppyFps env && callIsIndirect f.
Definition precondCheckInstrs (k : temps) (i : instr) : list tinstr :=
  match i with
  | Call _ f args =>
      if checks_args f
      then [TCheckArgs (t_args k) f (map makeCheckArgArg args); TAssertEq (t_args k) 0] else []
  | Set_ _ _ => []
  end.

(** The value goes to a temporary, from there to the lvalue. *)
Definition actionInstrs (k : temps) (i : instr) : list tinstr :=
  match i with
  | Set_ lv e => [TSet (t_written k) e; TWrite lv (ETmp (t_written k) (lval_type lv))]
  | Call (Some lv) f args =>
      [TCall (Some (t_written k)) f args; TWrite lv (ETmp (t_written k) (lval_type lv))]
  | Call None f args => [TCall None f args]
  end.

(** After a store through a pointer to generic pointers. *)
Definition checks_store (lv : lval) : bool :=
  negb (strictVoidpps env) && lvalueNamesPointerThroughPtrToLooseGPCOT lv.
Definition storeCheckInstrs (k : temps) (lv : lval) : list tinstr :=
  if checks_store lv
  then [TCanHold (t_store k) lv (ETmp (t_written k) (lval_type lv)); TAssertEq (t_store k) 1] else [].

(** After an indirect call that wrote a pointer, other than to [void]: what it
    has to point to. *)
Definition return_target (lv : lval) (f : fexp) : option typsig :=
  if checks_args f then
    match concrete (lval_type lv) with
    | TSPtr (TSBase BVoid _) _ => None
    | TSPtr tsTarget _ => Some (getConcreteType tsTarget)
    | _ => None
    end
  else None.
Definition returnCheckInstrs (k : temps) (lv : lval) (f : fexp) : list tinstr :=
  match return_target lv f with
  | Some pt => mkCheckInstrs (t_return k) (exp_of_lval lv) (FnTest IsAU) pt
  | None => []
  end.

(** After [va_arg], which CIL gives three arguments: the pointer it wrote, and
    what this has to point to. *)
Definition AddrOf_pointer (e : exp) : option (exp * typsig) :=
  match e with
  | EAddrVar x (TPtr t) => Some (EVar x (TPtr t), typeSig t)
  | EAddrMem a off (TPtr t) => Some (EMem a off (TPtr t), typeSig t)
  | _ => None
  end.
Definition writtenVar (arg3 : exp) : option (exp * typsig) :=
  match arg3 with ECast (TPtr TVoid) e => AddrOf_pointer e | _ => AddrOf_pointer arg3 end.
Definition va_arg_written (f : fexp) (args : list exp) : option (exp * typsig) :=
  match f, args with
  | FVar vname, [_; _; arg3] =>
      if String.eqb vname "__builtin_va_arg" || String.eqb vname "va_arg" then writtenVar arg3 else None
  | _, _ => None
  end.
Definition vaArgCheckInstrs (k : temps) (f : fexp) (args : list exp) : list tinstr :=
  match va_arg_written f args with
  | Some (writtenExp, concreteType) =>
      mkCheckInstrs (t_va k) writtenExp (FnTest (testFunName concreteType)) concreteType
  | None => []
  end.
Definition postcondCheckInstrs (k : temps) (i : instr) : list tinstr :=
  match i with
  | Set_ lv _ => storeCheckInstrs k lv
  | Call (Some lv) f args => storeCheckInstrs k lv ++ returnCheckInstrs k lv f ++ vaArgCheckInstrs k f args
  | Call None f args => vaArgCheckInstrs k f args
  end.

(** The children of the instructions are visited in their turn, the left-hand
    side of an assignment first. *)
Definition visit_children (n : nat) (t : tinstr) : option (list tinstr * tinstr * nat) :=
  match t with
  | TSet tmp e => '(q, e, n) ← vexpr n e; Some (q, TSet tmp e, n)
  | TWrite lv e =>
      '(q, lv, n) ← vlval n lv; '(q', e, n) ← vexpr n e; Some (q ++ q', TWrite lv e, n)
  | TCheck chk f e pt => '(q, e, n) ← vexpr n e; Some (q, TCheck chk f e pt, n)
  | TCanHold chk lv e =>
      '(q, lv, n) ← vlval n lv; '(q', e, n) ← vexpr n e; Some (q ++ q', TCanHold chk lv e, n)
  | TCheckArgs chk f args =>
      '(q, f, n) ← vfexp n f; '(q', args, n) ← vexprs n args; Some (q ++ q', TCheckArgs chk f args, n)
  | TCall tmp f args =>
      '(q, f, n) ← vfexp n f; '(q', args, n) ← vexprs n args; Some (q ++ q', TCall tmp f args, n)
  | TAssert _ | TAssertEq _ _ | TTraceWiden _ => Some ([], t, n)
  end.
Fixpoint visit_list (n : nat) (ts : list tinstr) : option (list tinstr * list tinstr * nat) :=
  match ts with
  | [] => Some ([], [], n)
  | t :: ts =>
      '(q, t, n) ← visit_children n t; '(q', ts, n) ← visit_list n ts; Some (q ++ q', t :: ts, n)
  end.

(** What the visit of the children queued comes first, even before a call whose
    result it reads. *)
Definition vinst (n : nat) (i : instr) : option (list tinstr * nat) :=
  let k := first_temps n in
  let newList := precondCheckInstrs k i ++ actionInstrs k i ++ postcondCheckInstrs k i in
  '(q, ts, n) ← visit_list (n + temps_made) newList; Some (q ++ ts, n).
Fixpoint instrument (n : nat) (prog : list instr) : option (list tinstr) :=
  match prog with
  | [] => Some []
  | i :: prog => '(ts, n) ← vinst n i; ts' ← instrument n prog; Some (ts ++ ts')
  end.
End pass.

(** ** Running programs *)

(** The variables of the program and its memory, word by word. *)
Record pstate := PState { vars : nat -> Z; memory : Z -> Z }.

(** The rest of the program: where its variables and functions are, and what a
    function returns and does, by its address and its arguments ([va_arg] is
    one). *)
Class Callees := {
  variable_address : nat -> Z;
  function_address : string -> Z;
  callee : Z -> list Z -> pstate -> Z * pstate;
}.

Section values.
Context `{F : Callees}.

(** The value of an expression; [tmps] are the temporaries. *)
Fixpoint eval (p : pstate) (tmps : nat -> Z) (e : exp) : Z :=
  match e with
  | EConst z _ => z
  | EVar x _ => vars p x
  | ETmp n _ => tmps n
  | EMem a off _ => memory p (eval p tmps a +w off)
  | EAddrVar x _ => variable_address x
  | EAddrMem a off _ => eval p tmps a +w off
  | ECast _ e => eval p tmps e
  end.
Abbreviation evaluator := (pstate -> (nat -> Z) -> exp -> Z).
Definition feval (ev : evaluator) (p : pstate) (tmps : nat -> Z) (f : fexp) : Z :=
  match f with FVar vname => function_address vname | FMem e => ev p tmps e end.
Definition write (ev : evaluator) (p : pstate) (tmps : nat -> Z) (lv : lval) (v : Z) : pstate :=
  match lv with
  | LVar x _ => PState (<[x := v]> (vars p)) (memory p)
  | LMem a _ off _ => PState (vars p) (<[ev p tmps a +w off := v]> (memory p))
  end.

(** Without instrumentation.  C leaves open when the place that the result of a
    call is written to is evaluated, before the call or after: [late] evaluates
    it, given the state before the call. *)
Definition no_tmps : nat -> Z := fun _ => 0.
Definition plain_step (late : pstate -> evaluator) (p : pstate) (i : instr) : pstate :=
  match i with
  | Set_ lv e => write eval p no_tmps lv (eval p no_tmps e)
  | Call lv f args =>
      let '(v, p') := callee (feval eval p no_tmps f) (map (eval p no_tmps) args) p in
      match lv with Some lv => write (late p) p' no_tmps lv v | None => p' end
  end.
Definition plain_run (late : pstate -> evaluator) (prog : list instr) (p : pstate) : pstate :=
  fold_left (plain_step late) prog p.
End values.

Section runs.
Context `{C : Config} `{L : Liballocs} `{A : Cilallocs} `{F : Callees}.
(** The addresses of the [__uniqtype] globals, which are weak: a type that is
    not linked in has none.  [site] is the address of the check.  The functions
    called make checks of their own. *)
Context (uniqtype_of : typsig -> option uniqtype) (site : Z).
Context (callee_checks : Z -> list Z -> pstate -> runtime -> outcome runtime).

Record cstate := CState { prog : pstate; tmps : nat -> Z; rt : runtime }.

Definition call_of (f : check_fn) (pt : typsig) : check_call :=
  match f with
  | FnTest NamedAU => CallNamedA (Some (barenameFromSig pt))
  | FnTest FunctionRefiningU => CallFunctionRefining (uniqtype_of pt)
  | FnTest IsAU => CallIsA (uniqtype_of pt)
  | FnTest LikeAU => CallLikeA (uniqtype_of pt)
  | FnLooselyLikeA => CallLooselyLikeA (uniqtype_of pt)
  end.

(** [__inline_assert]; [__assert_fail] ends the process. *)
Definition inline_assert (cond : bool) (s : cstate) : outcome cstate := if negb cond then Abort else Ret s.

(** One instruction of the code, its expressions evaluated by [ev]. *)
Definition run_tinstr (ev : pstate -> (nat -> Z) -> exp -> Z) (i : tinstr) (s : cstate) : outcome cstate :=
  let '(CState p tm st) := s in
  match i with
  | TSet n e => Ret (CState p (<[n := ev p tm e]> tm) st)
  | TWrite lv e => Ret (CState (write ev p tm lv (ev p tm e)) tm st)
  | TCheck chk f e pt =>
      '(r, st) ← run_check st (ev p tm e) (call_of f pt) site; Ret (CState p (<[chk := r]> tm) st)
  | TCanHold chk (LMem a _ off _) e =>
      '(r, st) ← run_check st (ev p tm a +w off) (CallCanHoldPointer (ev p tm e)) site;
      Ret (CState p (<[chk := r]> tm) st)
  | TCanHold _ (LVar _ _) _ => Unreachable
  | TCheckArgs chk f args =>
      '(r, st) ← check_args_internal st (feval ev p tm f) (map (ev p tm) args) site;
      Ret (CState p (<[chk := r]> tm) st)
  | TCall tmp f args =>
      let fp := feval ev p tm f in let args := map (ev p tm) args in
      st ← callee_checks fp args p st;
      let '(v, p') := callee fp args p in
      Ret (CState p' (match tmp with Some n => <[n := v]> tm | None => tm end) st)
  | TAssert chk => inline_assert (negb (tm chk =? 0)) s
  | TAssertEq chk n => inline_assert (tm chk =? n) s
  | TTraceWiden _ => Ret s
  end.
Fixpoint run_code ev (is_ : list tinstr) (s : cstate) : outcome cstate :=
  match is_ with [] => Ret s | i :: is_ => s ← run_tinstr ev i s; run_code ev is_ s end.
Definition run_target : list tinstr -> cstate -> outcome cstate := run_code eval.

(** ** What a program does to the run-time

    The checks it makes and the functions it calls.  The check of the arguments
    of a call is the only one whose verdict matters. *)
Inductive effect :=
| Checks (obj : Z) (call : check_call)
| ChecksArgs (fp : Z) (args : list Z)
| Calls (fp : Z) (args : list Z) (p : pstate).
Definition run_effect (st : runtime) (e : effect) : outcome runtime :=
  match e with
  | Checks obj call => '(_, st) ← run_check st obj call site; Ret st
  | ChecksArgs fp args =>
      '(r, st) ← check_args_internal st fp args site; if r =? 0 then Ret st else Abort
  | Calls fp args p => callee_checks fp args p st
  end.
Fixpoint run_effects (st : runtime) (es : list effect) : outcome runtime :=
  match es with [] => Ret st | e :: es => st ← run_effect st e; run_effects st es end.

Context (env : options) (null zero : exp -> bool).

(** The checks of the casts in an expression.  Of casts inside one another only
    the outermost checked one counts. *)
Fixpoint checks_of (p : pstate) (e : exp) : list effect :=
  match e with
  | EConst _ _ | EVar _ _ | ETmp _ _ | EAddrVar _ _ => []
  | EMem a _ _ | EAddrMem a _ _ => checks_of p a
  | ECast t sub =>
      match vexpr_CastE env null zero t sub with
      | Some (CheckTarget f pt) => [Checks (eval p no_tmps sub) (call_of (FnTest f) pt)]
      | Some (CheckLooselyLike pt) => [Checks (eval p no_tmps sub) (call_of FnLooselyLikeA pt)]
      | _ => checks_of p sub
      end
  end.
Definition lval_checks (p : pstate) (lv : lval) : list effect :=
  match lv with LVar _ _ => [] | LMem a _ _ _ => checks_of p a end.
Definition fexp_checks (p : pstate) (f : fexp) : list effect :=
  match f with FVar _ => [] | FMem e => checks_of p e end.

(** The value of an expression in state [p'], when its checks were made in state
    [p]: where a checked cast goes through a temporary, the old one. *)
Fixpoint again (p p' : pstate) (tm : nat -> Z) (e : exp) : Z :=
  match e with
  | EConst z _ => z
  | EVar x _ => vars p' x
  | ETmp n _ => tm n
  | EMem a off _ => memory p' (again p p' tm a +w off)
  | EAddrVar x _ => variable_address x
  | EAddrMem a off _ => again p p' tm a +w off
  | ECast t sub =>
      match vexpr_CastE env null zero t sub with
      | Some (CheckTarget _ _) => eval p no_tmps sub
      | Some (CheckLooselyLike _) => eval p' no_tmps sub
      | _ => again p p' tm sub
      end
  end.

(** The value of an lvalue after the instruction, its checks made before. *)
Abbreviation value_after p p' e := (again p p' no_tmps e).
Definition store_check (p p' : pstate) (lv : lval) (v : Z) : list effect :=
  match lv with
  | LMem a _ off _ =>
      if checks_store env lv then [Checks (value_after p p' a +w off) (CallCanHoldPointer v)] else []
  | LVar _ _ => []
  end.
Definition return_check (p p' : pstate) (lv : lval) (f : fexp) : list effect :=
  match return_target env lv f with
  | Some pt => [Checks (value_after p p' (exp_of_lval lv)) (call_of (FnTest IsAU) pt)]
  | None => []
  end.
Definition va_arg_check (p p' : pstate) (f : fexp) (args : list exp) : list effect :=
  match va_arg_written f args with
  | Some (e, pt) => [Checks (value_after p p' e) (call_of (FnTest (testFunName env pt)) pt)]
  | None => []
  end.

(** Everything that is visited: the call of the check of the arguments repeats
    their expressions, and each check on the place repeats that. *)
Definition repeated (b : bool) (es : list effect) : list effect := if b then es else [].
Definition casts_before (p : pstate) (i : instr) : list effect :=
  match i with
  | Set_ lv e => checks_of p e ++ lval_checks p lv ++ repeated (checks_store env lv) (lval_checks p lv)
  | Call lv f args =>
      repeated (checks_args env f) (fexp_checks p f ++ flat_map (checks_of p) (map makeCheckArgArg args)) ++
      fexp_checks p f ++ flat_map (checks_of p) args ++
      match lv with
      | Some lv =>
          lval_checks p lv ++ repeated (checks_store env lv) (lval_checks p lv) ++
          repeated (bool_decide (is_Some (return_target env lv f))) (lval_checks p lv)
      | None => []
      end ++
      match va_arg_written f args with Some (e, _) => checks_of p e | None => [] end
  end.
(** The effects of an instruction that takes the program from [p] to [p']. *)
Definition instr_effects (p p' : pstate) (i : instr) : list effect :=
  casts_before p i ++
  match i with
  | Set_ lv e => store_check p p' lv (eval p no_tmps e)
  | Call lv f args =>
      let fp := feval eval p no_tmps f in let vs := map (eval p no_tmps) args in
      repeated (checks_args env f) [ChecksArgs fp (map (fun e => eval p no_tmps (makeCheckArgArg e)) args)] ++
      [Calls fp vs p] ++
      match lv with
      | Some lv => store_check p p' lv (callee fp vs p).1 ++ return_check p p' lv f
      | None => []
      end ++
      va_arg_check p p' f args
  end.
Fixpoint program_effects (prog : list instr) (p : pstate) : list effect :=
  match prog with
  | [] => []
  | i :: prog =>
      let p' := plain_step again p i in instr_effects p p' i ++ program_effects prog p'
  end.
End runs.
