(* ===== verification/CastChecks.v ===== *)
(** * What the instrumented casts do

    The code of [Casts.v] run on the run-time of [TypeChecks.v]: it computes what
    the program computes and makes the checks that [program_effects] lists (which
    are those that the rules of [CastRules.v] ask for); what
    follows for a cast of which no failure is reported, and for an indirect call
    that gets through; and casts, stores and calls that are checked otherwise
    than one would think.  The temporaries carry most of the argument: a list
    of instructions of the pass is shown to run like the instructions before
    their children were visited ([queues]). *)
From stdpp Require Import functions.
From S2P Require Import Prelude Config TrapPtr Bounds Derive Memory ShadowSpace BoundsStack Report.
From S2P Require Import Runtime TinyAllocs TypeChecks Verdicts Init Casts.

(** Programs as they come from the source. *)
Fixpoint source_exp (e : exp) : bool :=
  match e with
  | EConst _ _ | EVar _ _ | EAddrVar _ _ => true
  | ETmp _ _ => false
  | EMem a _ _ | EAddrMem a _ _ => source_exp a
  | ECast _ e => source_exp e
  end.
Definition source_lval (lv : lval) : bool := match lv with LVar _ _ => true | LMem a _ _ _ => source_exp a end.
Definition source_fexp (f : fexp) : bool := match f with FVar _ => true | FMem e => source_exp e end.
Definition source_instr (i : instr) : bool :=
  match i with
  | Set_ lv e => source_lval lv && source_exp e
  | Call lv f args =>
      match lv with Some lv => source_lval lv | None => true end && source_fexp f && forallb source_exp args
  end.

Section correctness.
Context `{C : Config} `{L : Liballocs} `{A : Cilallocs} `{F : Callees}.
Context (uniqtype_of : typsig -> option uniqtype) (site : Z).
Context (callee_checks : Z -> list Z -> pstate -> runtime -> outcome runtime).
Context (env : options) (null zero : exp -> bool).
Implicit Types (p : pstate) (tm : nat -> Z) (st : runtime) (e : exp) (lv : lval).
Abbreviation effects := (run_effects site callee_checks).
Abbreviation run_code := (run_code uniqtype_of site callee_checks).
Abbreviation run_tinstr := (run_tinstr uniqtype_of site callee_checks).
Abbreviation run_target := (run_target uniqtype_of site callee_checks).
Abbreviation call_of := (call_of uniqtype_of).
Abbreviation checks_of := (checks_of uniqtype_of env null zero).
Abbreviation lval_checks := (lval_checks uniqtype_of env null zero).
Abbreviation fexp_checks := (fexp_checks uniqtype_of env null zero).
Abbreviation again := (again env null zero).
Abbreviation vexpr := (vexpr env null zero).

(** ** Running code *)
Definition performs (ev : pstate -> (nat -> Z) -> exp -> Z) (ts : list tinstr) p tm p' tm' (es : list effect) : Prop :=
  forall st, run_code ev ts (CState p tm st) = (st ← effects st es; Ret (CState p' tm' st)).
Definition reads_tmps (ev : pstate -> (nat -> Z) -> exp -> Z) : Prop := forall p tm n t, ev p tm (ETmp n t) = tm n.
Lemma eval_reads_tmps : reads_tmps eval.
Proof. done. Qed.
Lemma again_reads_tmps p : reads_tmps (again p).
Proof. done. Qed.

Lemma run_code_app ev ts1 ts2 s : run_code ev (ts1 ++ ts2) s = (s ← run_code ev ts1 s; run_code ev ts2 s).
Proof.
  revert s. induction ts1 as [|i ts1 IH]; intros s; cbn [Casts.run_code app]; [done|].
  destruct (run_tinstr _ i s) as [s'| |]; cbn [mbind outcome_bind]; [by rewrite IH|done..].
Qed.
Lemma effects_app es1 es2 st : effects st (es1 ++ es2) = (st ← effects st es1; effects st es2).
Proof.
  revert st. induction es1 as [|e es1 IH]; intros st; cbn [Casts.run_effects app]; [done|].
  destruct (run_effect _ _ st e) as [st'| |]; cbn [mbind outcome_bind]; [by rewrite IH|done..].
Qed.
Lemma performs_nil ev p tm : performs ev [] p tm p tm [].
Proof. done. Qed.
Lemma performs_app ev ts1 ts2 p tm p1 tm1 p2 tm2 es1 es2 :
  performs ev ts1 p tm p1 tm1 es1 -> performs ev ts2 p1 tm1 p2 tm2 es2 ->
  performs ev (ts1 ++ ts2) p tm p2 tm2 (es1 ++ es2).
Proof.
  intros H1 H2 st. rewrite run_code_app, H1, effects_app.
  destruct (effects st es1) as [st'| |]; cbn [mbind outcome_bind]; [by rewrite H2|done..].
Qed.

(** Also without checks in the inlines, the result is 1. *)
Lemma run_check_one st obj call site' r st' : run_check st obj call site' = Ret (r, st') -> r = 1.
Proof.
  intros Hr. destruct noop_inlines eqn:Hn; [|by apply run_check_counted in Hr as [-> _]].
  revert Hr. destruct call; cbn [run_check]; unfold is_aU, is_aS, like_aU, loosely_like_aU, named_aU,
    is_a_function_refiningU, is_a_pointer_of_degree, can_hold_pointer, checked_entry; rewrite Hn; by intros [= <- _].
Qed.

Lemma performs_mkCheckInstrs ev n e f pt p tm :
  reads_tmps ev ->
  performs ev (mkCheckInstrs n e f pt) p tm p (<[S n := 1]> (<[n := ev p tm e]> tm))
    [Checks (ev p tm e) (call_of f pt)].
Proof.
  intros Hev st. cbn [mkCheckInstrs Casts.run_code Casts.run_tinstr run_effects run_effect mbind outcome_bind].
  rewrite Hev, fn_lookup_insert.
  destruct (run_check st _ _ site) as [[r st']| |] eqn:Hc; cbn [mbind outcome_bind]; [|done..].
  apply run_check_one in Hc as ->. cbn [Casts.run_tinstr]. unfold inline_assert. by rewrite fn_lookup_insert.
Qed.

(** ** Values *)
Lemma eval_source p tm tm' e : source_exp e = true -> eval p tm e = eval p tm' e.
Proof.
  induction e as [| | |a IH off t| |a IH off t|t e IH]; cbn; intros He; [done..|by rewrite IH|done|by rewrite IH|by apply IH].
Qed.
Lemma again_source p p' tm tm' e : source_exp e = true -> again p p' tm e = again p p' tm' e.
Proof.
  induction e as [| | |a IH off t| |a IH off t|t e IH]; cbn; intros He; [done..|by rewrite IH|done|by rewrite IH|].
  destruct (vexpr_CastE _ _ _ t e) as [[]|]; [by apply IH|done|done|by apply IH].
Qed.
Lemma again_same p tm e : source_exp e = true -> again p p tm e = eval p no_tmps e.
Proof.
  induction e as [| | |a IH off t| |a IH off t|t e IH]; cbn; intros He; [done..|by rewrite IH|done|by rewrite IH|].
  destruct (vexpr_CastE _ _ _ t e) as [[]|]; by rewrite ?IH.
Qed.
Lemma again_same_list p tm es :
  forallb source_exp es = true -> map (again p p tm) es = map (eval p no_tmps) es.
Proof. intros Hes. apply map_ext_in. intros e He. apply again_same. rewrite List.forallb_forall in Hes. by apply Hes. Qed.
Lemma fagain_same p tm f : source_fexp f = true -> feval (again p) p tm f = feval eval p no_tmps f.
Proof. destruct f; cbn; [done|]. apply again_same. Qed.
Lemma write_again p p' tm tm' lv v : source_lval lv = true -> write (again p) p' tm lv v = write (again p) p' tm' lv v.
Proof. destruct lv; cbn; [done|]. intros Ha. by rewrite (again_source p p' tm tm'). Qed.
Lemma write_again_same p tm lv v : source_lval lv = true -> write (again p) p tm lv v = write eval p no_tmps lv v.
Proof. destruct lv; cbn; [done|]. intros Ha. by rewrite again_same. Qed.
Lemma source_exp_of_lval lv : source_exp (exp_of_lval lv) = source_lval lv.
Proof. by destruct lv. Qed.
Lemma source_makeCheckArgArg e : source_exp e = true -> source_exp (makeCheckArgArg e) = true.
Proof. unfold makeCheckArgArg. by destruct (typeSig _). Qed.
Lemma source_AddrOf_pointer e e' pt : AddrOf_pointer e = Some (e', pt) -> source_exp e' = source_exp e.
Proof. by destruct e as [| | | |x []|a off []|]; intros [= <- <-]. Qed.
Lemma source_va_arg_written f args e pt :
  va_arg_written f args = Some (e, pt) -> forallb source_exp args = true -> source_exp e = true.
Proof.
  destruct f as [v|]; [|done]. destruct args as [|a1 [|a2 [|a3 []]]]; try done. cbn [va_arg_written].
  destruct (_ || _); [|done]. intros Hw Hs. cbn in Hs. rewrite !andb_true_iff in Hs. destruct Hs as (_ & _ & Hs & _).
  destruct a3 as [| | | |x t|a off t|t e3]; cbn [writtenVar] in Hw; try by apply source_AddrOf_pointer in Hw as ->.
  destruct t as [| | |[]| | | | | |]; try done. by apply source_AddrOf_pointer in Hw as ->.
Qed.

(** ** The visit of the children

    [queues q n n' cs good]: the code queued makes the checks and nothing else,
    but for temporaries from [n] to [n']; and whenever these are kept, what was
    visited is [good] in place of what it was. *)
Definition queues (q : list tinstr) (n n' : nat) (cs : pstate -> list effect) (good : pstate -> (nat -> Z) -> Prop) : Prop :=
  (n <= n')%nat /\ forall p tm, exists tm1,
    performs eval q p tm p tm1 (cs p) /\ (forall k, (k < n \/ n' <= k)%nat -> tm1 k = tm k) /\
    forall tm2, (forall k, (n <= k < n')%nat -> tm2 k = tm1 k) -> good p tm2.

Lemma queues_nothing n good : (forall p tm, good p tm) -> queues [] n n (fun _ => []) good.
Proof. intros Hg. split; [done|]. intros p tm. exists tm. split; [done|]. by split. Qed.
Lemma queues_app q1 q2 n1 n2 n3 cs1 cs2 good1 good2 :
  queues q1 n1 n2 cs1 good1 -> queues q2 n2 n3 cs2 good2 ->
  queues (q1 ++ q2) n1 n3 (fun p => cs1 p ++ cs2 p) (fun p tm => good1 p tm /\ good2 p tm).
Proof.
  intros [Hn1 H1] [Hn2 H2]. split; [lia|]. intros p tm.
  destruct (H1 p tm) as (tm1 & R1 & O1 & G1). destruct (H2 p tm1) as (tm2 & R2 & O2 & G2).
  exists tm2. split; [by eapply performs_app|]. split; [intros k Hk; rewrite O2, O1 by lia; done|].
  intros tm3 H3. split; [apply G1|apply G2]; intros k Hk; rewrite H3 by lia; [by apply O2; lia|done].
Qed.
Lemma queues_impl q n n' (cs cs' : pstate -> list effect) (good good' : pstate -> (nat -> Z) -> Prop) :
  queues q n n' cs good -> (forall p, cs p = cs' p) -> (forall p tm, good p tm -> good' p tm) ->
  queues q n n' cs' good'.
Proof.
  intros [Hn H] Hcs Hg. split; [done|]. intros p tm. destruct (H p tm) as (tm1 & R & O & G).
  exists tm1. rewrite <- Hcs. split; [done|]. split; [done|]. intros tm2 H2. by apply Hg, G.
Qed.
(** Later changes to older temporaries do not matter. *)
Lemma queues_stable n0 q n n' cs good :
  queues q n n' cs good -> (n0 <= n)%nat ->
  queues q n n' cs (fun p tm => forall tm', (forall k, (n0 <= k)%nat -> tm' k = tm k) -> good p tm').
Proof.
  intros [Hn H] H0. split; [done|]. intros p tm. destruct (H p tm) as (tm1 & R & O & G).
  exists tm1. split; [done|]. split; [done|]. intros tm2 H2 tm3 H3. apply G. intros k Hk. rewrite H3 by lia. by apply H2.
Qed.
Lemma queues_trace (b : bool) e q n n' cs good :
  queues q n n' cs good -> queues ((if b then [TTraceWiden e] else []) ++ q) n n' cs good.
Proof.
  intros [Hn H]. split; [done|]. intros p tm. destruct (H p tm) as (tm1 & R & O & G).
  exists tm1. split; [|done]. intros st. destruct b; [apply R|apply R].
Qed.
Lemma queues_cast n t e f pt (good : pstate -> (nat -> Z) -> Prop) :
  source_exp e = true ->
  (forall p tm, tm n = eval p no_tmps e -> good p tm) ->
  queues (mkCheckInstrs n (ECast t e) f pt) n (S (S n)) (fun p => [Checks (eval p no_tmps e) (call_of f pt)]) good.
Proof.
  intros He Hg. split; [lia|]. intros p tm. eexists. split.
  - rewrite <- (eval_source p tm no_tmps e He). by apply (performs_mkCheckInstrs eval n (ECast t e)).
  - split; [intros k Hk; by rewrite !fn_lookup_insert_ne by lia|].
    intros tm2 H2. apply Hg. rewrite H2, fn_lookup_insert_ne, fn_lookup_insert by lia. cbn. by apply eval_source.
Qed.

(** What an instruction visits. *)
Definition visited_ok (e : exp) : bool := source_exp e || match e with ETmp _ _ => true | _ => false end.
Definition tinstr_ok (n : nat) (t : tinstr) : bool :=
  match t with
  | TSet k e | TCheck k _ e _ => (k <? n)%nat && visited_ok e
  | TWrite lv e => source_lval lv && visited_ok e
  | TCanHold k lv e => (k <? n)%nat && source_lval lv && visited_ok e
  | TCheckArgs k f args => (k <? n)%nat && source_fexp f && forallb source_exp args
  | TCall k f args => match k with Some k => (k <? n)%nat | None => true end && source_fexp f && forallb source_exp args
  | TAssert k | TAssertEq k _ => (k <? n)%nat
  | TTraceWiden _ => true
  end.
Definition tinstr_checks p (t : tinstr) : list effect :=
  match t with
  | TSet _ e | TCheck _ _ e _ => checks_of p e
  | TWrite lv e | TCanHold _ lv e => lval_checks p lv ++ checks_of p e
  | TCheckArgs _ f args | TCall _ f args => fexp_checks p f ++ flat_map (checks_of p) args
  | TAssert _ | TAssertEq _ _ | TTraceWiden _ => []
  end.

Lemma vexpr_queues e : forall n q e' n',
  vexpr n e = Some (q, e', n') -> visited_ok e = true ->
  queues q n n' (fun p => checks_of p e) (fun p tm => forall p', eval p' tm e' = again p p' tm e).
Proof.
  assert (forall e n q e' n', vexpr n e = Some (q, e', n') -> source_exp e = true ->
    queues q n n' (fun p => checks_of p e) (fun p tm => forall p', eval p' tm e' = again p p' tm e)) as Hsrc.
  { clear e. induction e as [z t|x t|m t|a IH off t|x t|a IH off t|t e IH]; intros n q e' n'; cbn [Casts.vexpr source_exp Casts.checks_of];
      try (intros [= <- <- <-] _; by apply queues_nothing); try done.
    1, 2: intros ([[q1 a'] n1] & Ha & [= <- <- <-])%bind_Some Hs;
      (eapply queues_impl; [exact (IH _ _ _ _ Ha Hs)|done|]); intros p tm Hg p'; cbn [eval Casts.again]; by rewrite Hg.
    intros (c & Hc & Hrest)%bind_Some Hs. cbn [Casts.again]. rewrite Hc. destruct c as [|pt|f pt].
    - apply bind_Some in Hrest as ([[q1 e1] n1] & He & [= <- <- <-]). apply queues_trace.
      exact (IH _ _ _ _ He Hs).
    - injection Hrest as <- <- <-. apply queues_trace, queues_cast; [done|]. intros p tm _ p'. cbn [eval]. by apply eval_source.
    - injection Hrest as <- <- <-. apply queues_trace, queues_cast; [done|]. intros p tm Htm p'. cbn [eval]. done. }
  intros n q e' n' He Hok. unfold visited_ok in Hok. destruct (source_exp e) eqn:Hs; [by eapply Hsrc|].
  destruct e; try done. injection He as <- <- <-. by apply queues_nothing.
Qed.
Lemma visited_source e : source_exp e = true -> visited_ok e = true.
Proof. unfold visited_ok. by intros ->. Qed.

Lemma vexprs_queues es : forall n q es' n',
  vexprs env null zero n es = Some (q, es', n') -> forallb source_exp es = true ->
  queues q n n' (fun p => flat_map (checks_of p) es) (fun p tm => forall p', map (eval p' tm) es' = map (again p p' tm) es).
Proof.
  induction es as [|e es IH]; intros n q es' n'; cbn [vexprs forallb].
  { intros [= <- <- <-] _. by apply queues_nothing. }
  intros ([[q1 e1] n1] & He & ([[q2 es2] n2] & Hes & [= <- <- <-])%bind_Some)%bind_Some [Hse Hses]%andb_prop.
  eapply queues_impl; [exact (queues_app _ _ _ _ _ _ _ _ _ (vexpr_queues _ _ _ _ _ He (visited_source _ Hse)) (IH _ _ _ _ Hes Hses))|done|].
  intros p tm [Hg1 Hg2] p'. cbn [map]. by rewrite Hg1, Hg2.
Qed.
Lemma vfexp_queues f n q f' n' :
  vfexp env null zero n f = Some (q, f', n') -> source_fexp f = true ->
  queues q n n' (fun p => fexp_checks p f) (fun p tm => forall p', feval eval p' tm f' = feval (again p) p' tm f).
Proof.
  destruct f as [v|e]; cbn [vfexp source_fexp].
  - intros [= <- <- <-] _. by apply queues_nothing.
  - intros ([[q1 e1] n1] & He & [= <- <- <-])%bind_Some Hs.
    exact (vexpr_queues _ _ _ _ _ He (visited_source _ Hs)).
Qed.
(** The same place. *)
Definition same_lval (lv lv' : lval) p tm : Prop :=
  match lv, lv' with
  | LVar x t, LVar x' t' => x' = x /\ t' = t
  | LMem a pt off t, LMem a' pt' off' t' =>
      pt' = pt /\ off' = off /\ t' = t /\ forall p', eval p' tm a' = again p p' tm a
  | _, _ => False
  end.
Lemma vlval_queues lv n q lv' n' :
  vlval env null zero n lv = Some (q, lv', n') -> source_lval lv = true ->
  queues q n n' (fun p => lval_checks p lv) (same_lval lv lv').
Proof.
  destruct lv as [x t|a pointee off t]; cbn [vlval source_lval].
  - intros [= <- <- <-] _. by apply queues_nothing.
  - intros ([[q1 a'] n1] & Ha & [= <- <- <-])%bind_Some Hs.
    eapply queues_impl; [exact (vexpr_queues _ _ _ _ _ Ha (visited_source _ Hs))|done|].
    intros p tm Hg. by repeat split.
Qed.
Lemma same_lval_write lv lv' p tm p' v : same_lval lv lv' p tm -> write eval p' tm lv' v = write (again p) p' tm lv v.
Proof. destruct lv, lv'; cbn; [by intros [-> ->]|done|done|]. intros (-> & -> & -> & Ha). by rewrite Ha. Qed.

Lemma visit_children_queues n0 t n q t' n' :
  visit_children env null zero n t = Some (q, t', n') -> tinstr_ok n0 t = true ->
  queues q n n' (fun p => tinstr_checks p t)
    (fun p tm => forall p' st, run_tinstr eval t' (CState p' tm st) = run_tinstr (again p) t (CState p' tm st)).
Proof.
  destruct t as [k e|lv e|k f e pt|k lv e|k f args|k f args|k|k m|e]; cbn [visit_children tinstr_ok];
    rewrite ?andb_true_iff.
  7-9: intros [= <- <- <-] _; by apply queues_nothing.
  1, 3: intros ([[q1 e1] n1] & He & [= <- <- <-])%bind_Some [_ Hok];
    (eapply queues_impl; [by eapply vexpr_queues|done|]); intros p tm Hg p' st; cbn [Casts.run_tinstr]; by rewrite Hg.
  - intros ([[q1 lv1] n1] & Hlv & ([[q2 e2] n2] & He & [= <- <- <-])%bind_Some)%bind_Some [Hl Hok].
    eapply queues_impl; [exact (queues_app _ _ _ _ _ _ _ _ _ (vlval_queues _ _ _ _ _ Hlv Hl) (vexpr_queues _ _ _ _ _ He Hok))|done|].
    intros p tm [Hg1 Hg2] p' st. cbn [Casts.run_tinstr]. by rewrite Hg2, (same_lval_write _ _ _ _ _ _ Hg1).
  - intros ([[q1 lv1] n1] & Hlv & ([[q2 e2] n2] & He & [= <- <- <-])%bind_Some)%bind_Some [[_ Hl] Hok].
    eapply queues_impl; [exact (queues_app _ _ _ _ _ _ _ _ _ (vlval_queues _ _ _ _ _ Hlv Hl) (vexpr_queues _ _ _ _ _ He Hok))|done|].
    intros p tm [Hg1 Hg2] p' st. destruct lv as [|a pointee off t], lv1 as [|a1 pointee1 off1 t1]; try done.
    destruct Hg1 as (-> & -> & -> & Ha). cbn [Casts.run_tinstr]. by rewrite Ha, Hg2.
  - intros ([[q1 f1] n1] & Hf & ([[q2 args2] n2] & He & [= <- <- <-])%bind_Some)%bind_Some [[_ Hsf] Hsa].
    eapply queues_impl; [exact (queues_app _ _ _ _ _ _ _ _ _ (vfexp_queues _ _ _ _ _ Hf Hsf) (vexprs_queues _ _ _ _ _ He Hsa))|done|].
    intros p tm [Hg1 Hg2] p' st. cbn [Casts.run_tinstr]. by rewrite Hg1, Hg2.
  - intros ([[q1 f1] n1] & Hf & ([[q2 args2] n2] & He & [= <- <- <-])%bind_Some)%bind_Some [[_ Hsf] Hsa].
    eapply queues_impl; [exact (queues_app _ _ _ _ _ _ _ _ _ (vfexp_queues _ _ _ _ _ Hf Hsf) (vexprs_queues _ _ _ _ _ He Hsa))|done|].
    intros p tm [Hg1 Hg2] p' st. cbn [Casts.run_tinstr]. by rewrite Hg1, Hg2.
Qed.

(** Instructions change no other temporaries than their own. *)
Lemma run_tinstr_keeps ev n0 t s s' :
  run_tinstr ev t s = Ret s' -> tinstr_ok n0 t = true -> forall k, (n0 <= k)%nat -> tmps s' k = tmps s k.
Proof.
  destruct s as [p tm st], t as [k e|lv e|k f e pt|k lv e|k f args|k f args|k|k m|e];
    cbn [Casts.run_tinstr tinstr_ok]; rewrite ?andb_true_iff.
  - intros [= <-] [Hk%Nat.ltb_lt _] k' Hk'. cbn [tmps]. by rewrite fn_lookup_insert_ne by lia.
  - by intros [= <-].
  - intros ([r st'] & _ & [= <-])%bind_Ret [Hk%Nat.ltb_lt _] k' Hk'. cbn [tmps]. by rewrite fn_lookup_insert_ne by lia.
  - destruct lv; [done|]. intros ([r st'] & _ & [= <-])%bind_Ret [[Hk%Nat.ltb_lt _] _] k' Hk'. cbn [tmps].
    by rewrite fn_lookup_insert_ne by lia.
  - intros ([r st'] & _ & [= <-])%bind_Ret [[Hk%Nat.ltb_lt _] _] k' Hk'. cbn [tmps]. by rewrite fn_lookup_insert_ne by lia.
  - intros (st' & _ & Hr)%bind_Ret [[Hk _] _] k' Hk'. destruct (callee _ _ _) as [v p']. injection Hr as <-. cbn [tmps].
    destruct k as [k|]; [apply Nat.ltb_lt in Hk; by rewrite fn_lookup_insert_ne by lia|done].
  - unfold inline_assert. destruct (negb (negb _)); [done|]. by intros [= <-].
  - unfold inline_assert. destruct (negb _); [done|]. by intros [= <-].
  - by intros [= <-].
Qed.

(** A list of instructions runs, after its queue, like the instructions that were
    visited. *)
Lemma visit_list_queues n0 ts : forall n q ts' n',
  visit_list env null zero n ts = Some (q, ts', n') -> forallb (tinstr_ok n0) ts = true -> (n0 <= n)%nat ->
  queues q n n' (fun p => flat_map (tinstr_checks p) ts)
    (fun p tm => forall tm' p' st, (forall k, (n0 <= k)%nat -> tm' k = tm k) ->
       run_code eval ts' (CState p' tm' st) = run_code (again p) ts (CState p' tm' st)).
Proof.
  induction ts as [|t ts IH]; intros n q ts' n'; cbn [visit_list forallb].
  { intros [= <- <- <-] _ _. by apply queues_nothing. }
  intros ([[q1 t1] n1] & Ht & ([[q2 ts2] n2] & Hts & [= <- <- <-])%bind_Some)%bind_Some [Hok Hoks]%andb_prop Hn.
  pose proof (visit_children_queues _ _ _ _ _ _ Ht Hok) as Qt.
  assert (Hn1 : (n0 <= n1)%nat) by (destruct Qt; lia).
  eapply queues_impl;
    [exact (queues_app _ _ _ _ _ _ _ _ _ (queues_stable n0 _ _ _ _ _ Qt Hn) (IH _ _ _ _ Hts Hoks Hn1))|done|].
  intros p tm [Hg1 Hg2] tm' p' st Htm. cbn [Casts.run_code]. rewrite (Hg1 tm' Htm).
  destruct (run_tinstr (again p) t (CState p' tm' st)) as [[p2 tm2 st2]| |] eqn:Hr; cbn [mbind outcome_bind]; [|done..].
  apply Hg2. intros k Hk. pose proof (run_tinstr_keeps _ _ _ _ _ Hr Hok k Hk) as Hkeep. cbn [tmps] in Hkeep. by rewrite Hkeep, Htm.
Qed.

(** ** One instruction, before the visit *)
Section one_instruction.
Context (k : temps).

Lemma precond_performs p tm ret f args :
  source_fexp f = true -> forallb source_exp args = true ->
  exists tm', performs (again p) (precondCheckInstrs env k (Call ret f args)) p tm p tm'
    (repeated (checks_args env f) [ChecksArgs (feval eval p no_tmps f) (map (fun e => eval p no_tmps (makeCheckArgArg e)) args)]).
Proof.
  intros Hf Ha. cbn [precondCheckInstrs]. destruct (checks_args env f); [|by exists tm].
  exists (<[t_args k := 0]> tm). intros st.
  cbn [repeated Casts.run_code Casts.run_tinstr run_effects run_effect mbind outcome_bind].
  rewrite (fagain_same p tm f Hf), again_same_list, map_map
    by (rewrite List.forallb_forall in *; intros e (e' & <- & He)%in_map_iff; by apply source_makeCheckArgArg, Ha).
  destruct (check_args_internal _ _ _ _) as [[r st']| |]; cbn [mbind outcome_bind]; [|done..].
  cbn [Casts.run_tinstr]. unfold inline_assert. rewrite fn_lookup_insert.
  destruct (Z.eqb_spec r 0) as [->|]; done.
Qed.

Lemma action_set_performs p tm lv e :
  source_lval lv = true -> source_exp e = true ->
  performs (again p) (actionInstrs k (Set_ lv e)) p tm (plain_step again p (Set_ lv e))
    (<[t_written k := eval p no_tmps e]> tm) [].
Proof.
  intros Hl He st. cbn [actionInstrs Casts.run_code Casts.run_tinstr run_effects mbind outcome_bind plain_step].
  by rewrite again_same, again_reads_tmps, fn_lookup_insert, write_again_same by done.
Qed.

Definition call_result p (f : fexp) (args : list exp) : Z :=
  (callee (feval eval p no_tmps f) (map (eval p no_tmps) args) p).1.
Lemma action_call_performs p tm ret f args :
  match ret with Some lv => source_lval lv | None => true end = true ->
  source_fexp f = true -> forallb source_exp args = true ->
  performs (again p) (actionInstrs k (Call ret f args)) p tm (plain_step again p (Call ret f args))
    (match ret with Some _ => <[t_written k := call_result p f args]> tm | None => tm end)
    [Calls (feval eval p no_tmps f) (map (eval p no_tmps) args) p].
Proof.
  intros Hl Hf Ha st. unfold call_result. cbn [plain_step].
  destruct ret as [lv|]; cbn [actionInstrs Casts.run_code Casts.run_tinstr run_effects run_effect mbind outcome_bind];
    rewrite fagain_same, again_same_list by done;
    (destruct (callee_checks _ _ _ st) as [st'| |]; cbn [mbind outcome_bind]; [|done..]);
    destruct (callee _ _ p) as [v p']; cbn [fst mbind outcome_bind Casts.run_tinstr]; [|done].
  rewrite again_reads_tmps, fn_lookup_insert. by rewrite (write_again p p' _ no_tmps).
Qed.

Lemma store_performs p p' tm lv v :
  source_lval lv = true -> tm (t_written k) = v ->
  exists tm', performs (again p) (storeCheckInstrs env k lv) p' tm p' tm' (store_check env null zero p p' lv v).
Proof.
  intros Hl Hv. unfold storeCheckInstrs, store_check. destruct (checks_store env lv) eqn:Hc; [|by exists tm; destruct lv].
  destruct lv as [|a pointee off t]; [by unfold checks_store in Hc; rewrite andb_false_r in Hc|].
  exists (<[t_store k := 1]> tm). intros st.
  cbn [Casts.run_code Casts.run_tinstr run_effects run_effect mbind outcome_bind].
  rewrite again_reads_tmps, Hv, (again_source p p' tm no_tmps) by done.
  destruct (run_check st _ _ site) as [[r st']| |] eqn:Hr; cbn [mbind outcome_bind]; [|done..].
  apply run_check_one in Hr as ->. cbn [Casts.run_tinstr]. unfold inline_assert. by rewrite fn_lookup_insert.
Qed.

Lemma later_check_performs p p' tm n e f pt :
  source_exp e = true ->
  exists tm', performs (again p) (mkCheckInstrs n e f pt) p' tm p' tm' [Checks (again p p' no_tmps e) (call_of f pt)].
Proof.
  intros He. eexists. rewrite <- (again_source p p' tm no_tmps e He). by apply performs_mkCheckInstrs.
Qed.
Lemma return_performs p p' tm lv f :
  source_lval lv = true ->
  exists tm', performs (again p) (returnCheckInstrs env k lv f) p' tm p' tm' (return_check uniqtype_of env null zero p p' lv f).
Proof.
  intros Hl. unfold returnCheckInstrs, return_check. destruct (return_target env lv f) as [pt|]; [|by exists tm].
  apply later_check_performs. by rewrite source_exp_of_lval.
Qed.
Lemma va_arg_performs p p' tm f args :
  forallb source_exp args = true ->
  exists tm', performs (again p) (vaArgCheckInstrs env k f args) p' tm p' tm' (va_arg_check uniqtype_of env null zero p p' f args).
Proof.
  intros Ha. unfold vaArgCheckInstrs, va_arg_check. destruct (va_arg_written f args) as [[e pt]|] eqn:Hw; [|by exists tm].
  apply later_check_performs. by eapply source_va_arg_written.
Qed.
End one_instruction.

Definition newList (k : temps) (i : instr) : list tinstr :=
  precondCheckInstrs env k i ++ actionInstrs k i ++ postcondCheckInstrs env k i.

Lemma newList_performs k p tm i :
  source_instr i = true ->
  exists tm', performs (again p) (newList k i) p tm (plain_step again p i) tm'
    (match i with
     | Set_ lv e => store_check env null zero p (plain_step again p i) lv (eval p no_tmps e)
     | Call ret f args =>
         repeated (checks_args env f) [ChecksArgs (feval eval p no_tmps f) (map (fun e => eval p no_tmps (makeCheckArgArg e)) args)] ++
         [Calls (feval eval p no_tmps f) (map (eval p no_tmps) args) p] ++
         match ret with
         | Some lv =>
             store_check env null zero p (plain_step again p i) lv (call_result p f args) ++
             return_check uniqtype_of env null zero p (plain_step again p i) lv f
         | None => []
         end ++ va_arg_check uniqtype_of env null zero p (plain_step again p i) f args
     end).
Proof.
  destruct i as [lv e|ret f args]; cbn [source_instr]; rewrite ?andb_true_iff.
  - intros [Hl He].
    destruct (store_performs k p (plain_step again p (Set_ lv e)) (<[t_written k := eval p no_tmps e]> tm) lv
      (eval p no_tmps e) Hl) as (tm' & Hs); [by rewrite fn_lookup_insert|].
    exists tm'. exact (performs_app _ _ _ _ _ _ _ _ _ _ _ (action_set_performs k p tm lv e Hl He) Hs).
  - intros [[Hl Hf] Ha]. destruct (precond_performs k p tm ret f args Hf Ha) as (tm1 & H1).
    pose proof (action_call_performs k p tm1 ret f args Hl Hf Ha) as H2.
    set (p' := plain_step again p (Call ret f args)) in *.
    destruct ret as [lv|].
    + destruct (store_performs k p p' _ lv (call_result p f args) Hl (fn_lookup_insert tm1 _ _)) as (tm3 & H3).
      destruct (return_performs k p p' tm3 lv f Hl) as (tm4 & H4).
      destruct (va_arg_performs k p p' tm4 f args Ha) as (tm5 & H5). exists tm5.
      rewrite <- (app_assoc (store_check _ _ _ _ _ _ _)).
      exact (performs_app _ _ _ _ _ _ _ _ _ _ _ H1 (performs_app _ _ _ _ _ _ _ _ _ _ _ H2
        (performs_app _ _ _ _ _ _ _ _ _ _ _ H3 (performs_app _ _ _ _ _ _ _ _ _ _ _ H4 H5)))).
    + destruct (va_arg_performs k p p' tm1 f args Ha) as (tm5 & H5). exists tm5.
      exact (performs_app _ _ _ _ _ _ _ _ _ _ _ H1 (performs_app _ _ _ _ _ _ _ _ _ _ _ H2 H5)).
Qed.

Lemma newList_ok n i : source_instr i = true -> forallb (tinstr_ok (n + temps_made)) (newList (first_temps n) i) = true.
Proof.
  intros Hs.
  assert (Hlt : forall m, (m < temps_made)%nat -> (n + m <? n + temps_made)%nat = true) by (intros; apply Nat.ltb_lt; lia).
  assert (H0 : (n <? n + temps_made)%nat = true) by (apply Nat.ltb_lt; unfold temps_made; lia).
  assert (HS : forall m, (S m < temps_made)%nat -> (S (n + m) <? n + temps_made)%nat = true) by (intros; apply Nat.ltb_lt; lia).
  assert (Hmk : forall m e f pt, (S m < temps_made)%nat -> source_exp e = true ->
    forallb (tinstr_ok (n + temps_made)) (mkCheckInstrs (n + m) e f pt) = true).
  { intros m e f pt Hm He. cbn [mkCheckInstrs forallb tinstr_ok]. by rewrite (visited_source _ He), Hlt, HS by lia. }
  assert (Hst : forall lv, source_lval lv = true ->
    forallb (tinstr_ok (n + temps_made)) (storeCheckInstrs env (first_temps n) lv) = true).
  { intros lv Hl. unfold storeCheckInstrs. destruct (checks_store env lv); [|done].
    cbn [forallb tinstr_ok first_temps t_store t_written]. by rewrite Hl, Hlt by (unfold temps_made; lia). }
  assert (Hva : forall f args, forallb source_exp args = true ->
    forallb (tinstr_ok (n + temps_made)) (vaArgCheckInstrs env (first_temps n) f args) = true).
  { intros f args Ha. unfold vaArgCheckInstrs. destruct (va_arg_written f args) as [[e pt]|] eqn:Hw; [|done].
    apply Hmk; [unfold temps_made; lia|by eapply source_va_arg_written]. }
  unfold newList. rewrite !forallb_app.
  destruct i as [lv e|ret f args]; cbn [source_instr] in Hs; rewrite ?andb_true_iff in Hs.
  - destruct Hs as [Hl He]. cbn [precondCheckInstrs actionInstrs postcondCheckInstrs forallb tinstr_ok first_temps t_written].
    by rewrite Hst, Hlt, Hl, (visited_source _ He) by (done || unfold temps_made; lia).
  - destruct Hs as [[Hl Hf] Ha]. rewrite !andb_true_iff. split; [|split].
    + cbn [precondCheckInstrs]. destruct (checks_args env f); [|done]. cbn [forallb tinstr_ok first_temps t_args].
      rewrite H0, Hf. cbn [andb]. rewrite List.forallb_forall in *. apply andb_true_iff. split; [|done].
      apply List.forallb_forall. intros e (e' & <- & He)%in_map_iff. by apply source_makeCheckArgArg, Ha.
    + destruct ret as [lv|]; cbn [actionInstrs forallb tinstr_ok first_temps t_written].
      * by rewrite Hlt, Hl, Hf, Ha by (unfold temps_made; lia).
      * by rewrite Hf, Ha.
    + destruct ret as [lv|]; cbn [postcondCheckInstrs]; [|by apply Hva].
      rewrite !forallb_app, Hst, Hva, andb_true_r by done. cbn [andb]. unfold returnCheckInstrs.
      destruct (return_target env lv f); [|done]. apply Hmk; [unfold temps_made; lia|by rewrite source_exp_of_lval].
Qed.

Lemma newList_checks k p i : flat_map (tinstr_checks p) (newList k i) = casts_before uniqtype_of env null zero p i.
Proof.
  assert (Hst : forall lv, flat_map (tinstr_checks p) (storeCheckInstrs env k lv) =
    repeated (checks_store env lv) (lval_checks p lv)).
  { intros lv. unfold storeCheckInstrs. destruct (checks_store env lv); [|done]. cbn. by rewrite !app_nil_r. }
  assert (Hva : forall f args, flat_map (tinstr_checks p) (vaArgCheckInstrs env k f args) =
    match va_arg_written f args with Some (e, _) => checks_of p e | None => [] end).
  { intros f args. unfold vaArgCheckInstrs. destruct (va_arg_written f args) as [[e pt]|]; [|done].
    cbn. by rewrite app_nil_r. }
  unfold newList. rewrite !flat_map_app. destruct i as [lv e|ret f args]; cbn [casts_before postcondCheckInstrs].
  - rewrite Hst. cbn. by rewrite !app_nil_r, !app_assoc.
  - assert (Hpre : flat_map (tinstr_checks p) (precondCheckInstrs env k (Call ret f args)) =
      repeated (checks_args env f) (fexp_checks p f ++ flat_map (checks_of p) (map makeCheckArgArg args)))
      by (cbn; destruct (checks_args env f); [cbn; by rewrite app_nil_r|done]).
    rewrite Hpre. destruct ret as [lv|]; rewrite ?flat_map_app, Hva, ?Hst.
    + assert (Hret : flat_map (tinstr_checks p) (returnCheckInstrs env k lv f) =
        repeated (bool_decide (is_Some (return_target env lv f))) (lval_checks p lv)).
      { unfold returnCheckInstrs. destruct (return_target env lv f) as [pt|]; [|done].
        cbn. rewrite app_nil_r. by destruct lv. }
      rewrite Hret. cbn [actionInstrs flat_map tinstr_checks Casts.checks_of]. by rewrite !app_nil_r, <- !app_assoc.
    + cbn [actionInstrs flat_map tinstr_checks app]. by rewrite app_nil_r, <- !app_assoc.
Qed.

(** ** Programs *)
Lemma vinst_runs n i ts n' p tm :
  vinst env null zero n i = Some (ts, n') -> source_instr i = true ->
  exists tm', performs eval ts p tm (plain_step again p i) tm'
    (instr_effects uniqtype_of env null zero p (plain_step again p i) i).
Proof.
  intros ([[q ts1] n1] & Hv & [= <- <-])%bind_Some Hs. cbn zeta in Hv.
  destruct (visit_list_queues (n + temps_made) _ _ _ _ _ Hv (newList_ok n i Hs) (le_n _)) as [_ HQ].
  destruct (HQ p tm) as (tm1 & Hq & _ & Hgood).
  destruct (newList_performs (first_temps n) p tm1 i Hs) as (tm2 & Hlist). exists tm2.
  unfold instr_effects. rewrite <- (newList_checks (first_temps n)).
  eapply performs_app; [exact Hq|]. intros st. rewrite (Hgood tm1) by done.
  etransitivity; [exact (Hlist st)|]. by destruct i.
Qed.

Lemma instrument_runs prog : forall n ts p tm,
  instrument env null zero n prog = Some ts -> forallb source_instr prog = true ->
  exists tm', performs eval ts p tm (plain_run again prog p) tm' (program_effects uniqtype_of env null zero prog p).
Proof.
  induction prog as [|i prog IH]; intros n ts p tm; cbn [instrument forallb program_effects].
  { intros [= <-] _. by exists tm. }
  intros ([ts1 n1] & Hi & Hrest)%bind_Some [Hsi Hsp]%andb_prop.
  apply bind_Some in Hrest as (ts2 & Hp & [= <-]).
  destruct (vinst_runs _ _ _ _ p tm Hi Hsi) as (tm1 & H1).
  destruct (IH _ _ (plain_step again p i) tm1 Hp Hsp) as (tm2 & H2). exists tm2. by eapply performs_app.
Qed.
(** A counted failure shows in the counters. *)
Lemma bump_moves k (f : counter -> Z) : bump k f k <> f k.
Proof. unfold bump. rewrite decide_True by done. unfold wrap64. mod_lia. Qed.
Lemma count_failure_moves st site' k f t u st' :
  count_failure st site' k f t u = Ret st' ->
  counters st' failed = counters st failed -> counters st' failed_in_alloc = counters st failed_in_alloc -> False.
Proof.
  intros [Hc|Hc]%count_failure_counters; rewrite Hc; cbn [tally]; intros H1 H2; by eapply bump_moves.
Qed.
Lemma search_counters st info obj test st' u m :
  is_a_search st info obj test st' u m -> counters st' = counters st.
Proof. intros [_|st2 u2 _ Hp]; [done|]. by apply precisify_counters in Hp. Qed.

(** The check of the arguments passes only for a function that liballocs knows. *)
Lemma check_args_passed st obj args st' :
  check_args_internal st obj args site = Ret (0, st') ->
  exists info fun_type, (get_alloc_info (lib st) obj).2 = Some info /\ alloc_start info = obj /\
    alloc_uniqtype info = Some fun_type /\ is_subprogram_type (Some fun_type) = true.
Proof.
  unfold check_args_internal, do_query. destruct (get_alloc_info (lib st) obj) as [l [info|]]; [|done]. cbn [snd].
  destruct (alloc_uniqtype info) as [ft|] eqn:Hu; [|done].
  destruct (is_subprogram_type (Some ft)) eqn:Hs; [|done].
  destruct (Z.eqb_spec (alloc_start info) obj) as [Ho|]; [|done]. cbn [negb]. intros _.
  by exists info, ft.
Qed.
Lemma check_args_unknown st obj args :
  (get_alloc_info (lib st) obj).2 = None -> exists st', check_args_internal st obj args site = Ret (1, st').
Proof.
  unfold check_args_internal, do_query. destruct (get_alloc_info (lib st) obj) as [l [info|]]; [done|].
  intros _. by eexists.
Qed.

(** ** Properties *)

(** The target of a pointer is what it is cast to: by the subobject search, or as
    an allocation of unspecific type that can become an array. *)
Definition target_is_a (st : runtime) info obj test : Prop :=
  exists st' u m, is_a_search st info obj test st' u m /\ (match_ok m = true \/ retypable st' u).

(** C8. A cast to a pointer to an ordinary type, all the way, for [x = (T * ) y]
    and a target of [y] in an allocation that liballocs knows, with a known
    allocator, when the inlines check, the cache has no answer, no suppressions
    are loaded, [T] has a size other than zero (retyping divides by it), and, if
    the allocator can retype, the insert that the retyping asserts is there
    whenever the search ends: the generated code runs on, [x] has the value of
    [y], and the run-time is left as its decision demands; and if neither of
    the counters of failures moves, then the target is a [T] by the subobject
    search, or its allocation, of unspecific type, has become an array of [T]. *)
Theorem unreported_cast_holds `{LL : !LiballocsLaws L} (W : wf_types) n x y T ty pt test ts p tm st c st1 info a :
  noop_inlines = false ->
  instrument env null zero n [Set_ (LVar x T) (ECast T (EVar y ty))] = Some ts ->
  vexpr_CastE env null zero T (EVar y ty) = Some (CheckTarget IsAU pt) -> uniqtype_of pt = Some test ->
  let v := vars p y in
  trivial_pointer v = false -> cache_lookup (ool_cache (inc begun st)) v test 0 = (c, None) ->
  do_query (set_ool_cache c (inc begun st)) (libcrunch_detrap v) = (st1, Some info) ->
  unsuppressed st -> alloc_a info = Some a -> pos_maxoff test <> 0 ->
  (set_type a <> None -> forall st' u m, is_a_search st1 info (libcrunch_detrap v) test st' u m ->
     get_insert (lib st') (libcrunch_detrap v) <> None) ->
  exists s', run_target ts (CState p tm st) = Ret s' /\
    prog s' = PState (<[x := v]> (vars p)) (memory p) /\
    is_a_end st1 info (libcrunch_detrap v) test site (rt s') /\
    (counters (rt s') failed = counters st failed ->
     counters (rt s') failed_in_alloc = counters st failed_in_alloc ->
     target_is_a st1 info (libcrunch_detrap v) test).
Proof.
  intros Hn Hts Hcast Hu v Ht Hc Hq Hs Ha Hsz Hins.
  destruct (instrument_runs _ _ _ p tm Hts eq_refl) as (tm' & Hrun). unfold performs in Hrun.
  destruct (is_a_decided W (set_ool_cache c (inc begun st)) _ _ test site info a Hs Hq Ha Hsz Hins) as (st' & His & Hend).
  eexists. unfold Casts.run_target. rewrite Hrun.
  cbn [program_effects]. unfold instr_effects, casts_before, checks_store.
  cbn [Casts.checks_of Casts.lval_checks store_check lvalueNamesPointerThroughPtrToLooseGPCOT].
  rewrite Hcast, andb_false_r. cbn [app repeated run_effects run_effect run_check Casts.call_of]. rewrite Hu. cbn [eval]. fold v.
  unfold TypeChecks.is_aU. rewrite Hn, Ht, Hc, His. cbn [mbind outcome_bind]. split; [reflexivity|].
  split; [done|]. split; [exact Hend|]. cbn [rt].
  apply do_query_counters in Hq as [Hq _].
  assert (Hf : forall k, k <> begun -> counters st1 k = counters st k).
  { intros k Hk. rewrite Hq. change (bump begun (counters st) k = counters st k). unfold bump. by rewrite decide_False. }
  rewrite <- !Hf by done. intros H1 H2.
  destruct Hend as [st2 u m Hsm Hse Hm|st2 u m b f l arr Hsm Hse Hm Hb Hset Hre Harr|st2 Hsm Hcf|st2 u m b st3 Hsm Hse Hm Hb Hno Hcf].
  - exists st2, u, m. split; [done|by left].
  - exists st2, u, m. split; [done|by right].
  - destruct (count_failure_moves _ _ _ _ _ _ _ Hcf H1 H2).
  - rewrite <- (search_counters _ _ _ _ _ _ _ Hse) in H1, H2.
    destruct (count_failure_moves _ _ _ _ _ _ _ Hcf H1 H2).
Qed.

(** C9. With sloppy function pointers an indirect call gets through only to a
    function: the checks of the casts in it done, liballocs knows an allocation
    that starts at the address called, its type is that of a function, and this
    takes as many arguments as are passed - unless it takes none or none are
    passed.  The program then is where it would be without the checks.  A call to
    an address that liballocs does not know ends the program. *)
Theorem indirect_call_guarded n ret f args ts n' p tm st s' st1 :
  sloppyFps env = true ->
  vinst env null zero n (Call ret (FMem f) args) = Some (ts, n') -> source_instr (Call ret (FMem f) args) = true ->
  effects st (casts_before uniqtype_of env null zero p (Call ret (FMem f) args)) = Ret st1 ->
  let fp := eval p no_tmps f in
  (run_target ts (CState p tm st) = Ret s' ->
   (exists info fun_type, (get_alloc_info (lib st1) fp).2 = Some info /\ alloc_start info = fp /\
      alloc_uniqtype info = Some fun_type /\ is_subprogram_type (Some fun_type) = true /\
      (0 <= subprogram_narg fun_type ->
       Z.of_nat (length args) = subprogram_narg fun_type \/ args = [] \/ subprogram_narg fun_type = 0))  /\
   prog s' = plain_step again p (Call ret (FMem f) args)) /\
  ((get_alloc_info (lib st1) fp).2 = None -> run_target ts (CState p tm st) = Abort).
Proof.
  intros Hs Hv Hsrc Hcasts fp. destruct (vinst_runs _ _ _ _ p tm Hv Hsrc) as (tm' & Hrun).
  specialize (Hrun st). unfold Casts.run_target. rewrite Hrun. unfold instr_effects. rewrite effects_app, Hcasts.
  cbn [mbind outcome_bind]. unfold checks_args. rewrite Hs. cbn [callIsIndirect andb repeated app run_effects run_effect feval].
  fold fp. split.
  - intros (st4 & (st2 & Hargs & _)%bind_Ret & [= <-])%bind_Ret.
    apply bind_Ret in Hargs as ([r st3] & Hargs & Hr). destruct (Z.eqb_spec r 0) as [->|]; [|done].
    split; [|done]. destruct (check_args_passed _ _ _ _ Hargs) as (info & ft & Hi & Hstart & Hu & Hsub).
    exists info, ft. do 4 (split; [done|]). intros Hn.
    destruct (check_args_result _ _ _ _ _ _ ltac:(by rewrite Hi) Hargs) as (ft' & Hft & Hres).
    rewrite Hi in Hft. cbn in Hft. rewrite Hu in Hft. injection Hft as <-. specialize (Hres Hn).
    rewrite length_map in Hres. destruct (Z.eqb_spec (Z.of_nat (length args)) (subprogram_narg ft)); [by left|].
    destruct args; cbn [length] in Hres; [by right; left|right; right; lia].
  - intros Hu. destruct (check_args_unknown _ _ (map (fun e => eval p no_tmps (makeCheckArgArg e)) args) Hu) as (st2 & ->).
    done.
Qed.
End correctness.


(** ** A concrete front end *)
Fixpoint ex_typeSig (t : typ) : typsig :=
  match t with
  | TVoid => TSBase BVoid [] | TInt k => TSBase (BInt k) [] | TFloat => TSBase BFloat []
  | TPtr t => TSPtr (ex_typeSig t) [] | TArray t => TSArray (ex_typeSig t) 0 | TFun f => TSFun f
  | TNamed t => ex_typeSig t | TComp c _ => TSComp c | TEnum => TSEnum "" | TBuiltin_va_list => TSComp "va_list"
  end.
Fixpoint ex_degree (ts : typsig) : Z := match ts with TSPtr ts _ => 1 + ex_degree ts | _ => 0 end.
Fixpoint ex_generic (ts : typsig) : bool :=
  match ts with TSPtr (TSBase BVoid _) _ => true | TSPtr ts _ => ex_generic ts | _ => false end.
Fixpoint ex_ultimate (t : typ) : typ := match t with TPtr t | TNamed t => ex_ultimate t | _ => t end.
#[local] Instance ex_cil : Cilallocs := {|
  typeSig := ex_typeSig;
  getConcreteType ts := ts;
  isPointerType t := match ex_typeSig t with TSPtr _ _ => true | _ => false end;
  isGenericPointerType t := ex_generic (ex_typeSig t);
  ultimatePointeeT := ex_ultimate;
  indirectionLevel := ex_degree;
  tsIsPointer ts := match ts with TSPtr _ _ => true | _ => false end;
  tsIsFunction := is_TSFun;
  tsIsFunctionPointer ts := match ts with TSPtr (TSFun _) _ => true | _ => false end;
  tsIsMultiplyIndirectedGenericPointer ts := ex_generic ts && (2 <=? ex_degree ts);
  tsIsUndefinedType ts := bool_decide (ts = TSComp "undefined");
  barenameFromSig ts := match ts with TSComp c => c | _ => ""%string end;
  userTypeNameToBareName s := s;
|}.
Definition ex_options : options := Options false false ["likely"%string] [].
Definition sloppy_options : options := Options true false ["likely"%string] [].
(** A function returns its first argument, and changes and checks nothing. *)
#[local] Instance ex_callees : Callees := {|
  variable_address x := 0x5000 + 8 * Z.of_nat x;
  function_address _ := 0x3000;
  callee _ args p := (default 0 (head args), p);
|}.
Definition ex_checks (fp : Z) (args : list Z) (p : pstate) (st : @runtime tiny) : outcome (@runtime tiny) := Ret st.
Definition ex_uniqtype (ts : typsig) : option (@uniqtype tiny) :=
  match ts with
  | TSBase (BInt IInt) _ => Some TinyAllocs.TInt
  | TSBase BFloat _ => Some TinyAllocs.TFloat
  | TSPtr (TSBase BVoid _) _ => Some (TinyAllocs.TPtr TinyAllocs.TVoid)
  | _ => None
  end.
Definition ex_no (e : exp) : bool := false.
Definition float_ptr : typ := TPtr TFloat.
Definition void_ptr : typ := TPtr TVoid.
Definition int_ptr : typ := TPtr (TInt IInt).
Definition fun_type : typ := TFun "f".

(** [x1 = (float * ) x0; *x2 = x1; x3 = ( *x4)((int * ) x5, 7);] where [x2] is a
    [void **]: a cast, a store and an indirect call are checked, the cast of the
    argument twice. *)
Definition ex_call : instr :=
  Call (Some (LVar 3 int_ptr)) (FMem (EVar 4 (TPtr fun_type)))
    [ECast int_ptr (EVar 5 void_ptr); EConst 7 (TInt IInt)].
Definition ex_program : list instr :=
  [Set_ (LVar 1 float_ptr) (ECast float_ptr (EVar 0 void_ptr));
   Set_ (LMem (EVar 2 (TPtr void_ptr)) void_ptr 0 void_ptr) (EVar 1 float_ptr);
   ex_call].
Definition ex_start : pstate :=
  PState (fun x => match x with O => 0x1004 | 4%nat => 0x3000 | 5%nat => 0x1000 | _ => 0x4008 end) (fun _ => 0).
Definition ex_code (prog : list instr) : list tinstr := default [] (instrument sloppy_options ex_no ex_no 0 prog).
Example ex_program_runs :
  instrument sloppy_options ex_no ex_no 0 ex_program = Some (ex_code ex_program) /\
  let after_store := plain_run (again sloppy_options ex_no ex_no) (take 2 ex_program) ex_start in
  program_effects (L := tiny) ex_uniqtype sloppy_options ex_no ex_no ex_program ex_start =
    [Checks 0x1004 (CallIsA (Some TinyAllocs.TFloat)); Checks 0x4008 (CallCanHoldPointer 0x1004);
     Checks 0x1000 (CallIsA (Some TinyAllocs.TInt)); Checks 0x1000 (CallIsA (Some TinyAllocs.TInt));
     ChecksArgs 0x3000 [0x1000; 7]; Calls 0x3000 [0x1000; 7] after_store;
     Checks 0x1000 (CallIsA (Some TinyAllocs.TInt))].
Proof. split; reflexivity. Qed.

Definition ex_call_code : list tinstr :=
  default [] (fst <$> vinst sloppy_options ex_no ex_no 0 ex_call).
Lemma indirect_call_guarded_witness :
  exists s', run_target (C := config_p) (L := tiny) ex_uniqtype 1 ex_checks ex_call_code (CState ex_start no_tmps tiny_runtime) = Ret s' /\
    prog s' = plain_step (again sloppy_options ex_no ex_no) ex_start ex_call.
Proof.
  assert (match run_target (C := config_p) (L := tiny) ex_uniqtype 1 ex_checks ex_call_code
    (CState ex_start no_tmps tiny_runtime) with Ret _ => true | _ => false end = true) as Hok by (vm_compute; reflexivity).
  destruct (run_target (C := config_p) (L := tiny) ex_uniqtype 1 ex_checks ex_call_code
    (CState ex_start no_tmps tiny_runtime)) as [s'| |] eqn:Hrun; [|discriminate Hok..].
  exists s'. split; [reflexivity|].
  assert (match run_effects (C := config_p) (L := tiny) 1 ex_checks tiny_runtime
    (casts_before (L := tiny) ex_uniqtype sloppy_options ex_no ex_no ex_start ex_call) with Ret _ => true | _ => false end = true)
    as Hcasts by (vm_compute; reflexivity).
  destruct (run_effects (C := config_p) (L := tiny) 1 ex_checks tiny_runtime
    (casts_before (L := tiny) ex_uniqtype sloppy_options ex_no ex_no ex_start ex_call)) as [st1| |] eqn:Hst1; [|discriminate Hcasts..].
  destruct (indirect_call_guarded (C := config_p) (L := tiny) ex_uniqtype 1 ex_checks sloppy_options ex_no ex_no 0
    (Some (LVar 3 int_ptr)) (EVar 4 (TPtr fun_type)) [ECast int_ptr (EVar 5 void_ptr); EConst 7 (TInt IInt)]
    ex_call_code 11 ex_start no_tmps tiny_runtime s' st1) as [Hgood _];
    [reflexivity|vm_compute; reflexivity|reflexivity|exact Hst1|].
  exact (proj2 (Hgood Hrun)).
Defined.

Definition ex_cast : list instr := [Set_ (LVar 1 float_ptr) (ECast float_ptr (EVar 0 void_ptr))].
Definition plain_code (prog : list instr) : list tinstr := default [] (instrument ex_options ex_no ex_no 0 prog).
Lemma unreported_cast_holds_witness :
  exists s', run_target (C := config_p) (L := tiny) ex_uniqtype 1 ex_checks (plain_code ex_cast) (CState ex_start no_tmps tiny_runtime) = Ret s' /\
    vars (prog s') 1 = 0x1004 /\
    target_is_a (L := tiny) (queried (inc (L := tiny) begun tiny_runtime) 0x1004)
      (AllocInfo (Some Stack) 0x1000 16 (Some (TArr 2 (TPair TinyAllocs.TInt 4 TinyAllocs.TFloat))) 0)
      0x1004 TinyAllocs.TFloat.
Proof.
  destruct (unreported_cast_holds (C := config_p) (L := tiny) ex_uniqtype 1 ex_checks ex_options ex_no ex_no tiny_wf 0 1 0
    float_ptr void_ptr (TSBase BFloat []) TinyAllocs.TFloat (plain_code ex_cast) ex_start no_tmps tiny_runtime []
    (queried (inc (L := tiny) begun tiny_runtime) 0x1004)
    (AllocInfo (Some Stack) 0x1000 16 (Some (TArr 2 (TPair TinyAllocs.TInt 4 TinyAllocs.TFloat))) 0) Stack)
    as (s' & Hrun & Hp & _ & Hgood).
  - reflexivity.
  - vm_compute; reflexivity.
  - vm_compute; reflexivity.
  - reflexivity.
  - reflexivity.
  - reflexivity.
  - reflexivity.
  - reflexivity.
  - reflexivity.
  - cbn. lia.
  - intros Hs. destruct (Hs eq_refl).
  - exists s'. split; [exact Hrun|]. split; [rewrite Hp; reflexivity|].
    assert (forall k, match run_target (C := config_p) (L := tiny) ex_uniqtype 1 ex_checks (plain_code ex_cast)
        (CState ex_start no_tmps tiny_runtime) with Ret s => counters (rt s) k | _ => 1 end =
      match k with begun | succeeded => 1 | _ => 0 end) as Hk by (intros []; vm_compute; reflexivity).
    rewrite Hrun in Hk. apply Hgood; rewrite Hk; reflexivity.
Defined.

(** ** What the pass leaves unchecked *)

(** A cast inside a checked one is not visited: of [(float * ) *(int ** ) l],
    with a [long] [l], only the value loaded is checked, although the load goes
    through the pointer that was made of [l]. *)
Theorem inner_cast_unchecked p :
  program_effects (L := tiny) ex_uniqtype ex_options ex_no ex_no
    [Set_ (LVar 1 float_ptr) (ECast float_ptr (EMem (ECast (TPtr int_ptr) (EVar 0 (TInt ILong))) 0 int_ptr))] p =
    [Checks (memory p (vars p 0%nat +w 0)) (CallIsA (Some TinyAllocs.TFloat))] /\
  program_effects (L := tiny) ex_uniqtype ex_options ex_no ex_no
    [Set_ (LVar 1 int_ptr) (EMem (ECast (TPtr int_ptr) (EVar 0 (TInt ILong))) 0 int_ptr)] p =
    [Checks (vars p 0%nat) (CallIsA None)].
Proof. done. Qed.

(** The check on a store evaluates the lvalue again, after the store: when the
    store changes the pointer that it goes through, another slot is checked.
    ([x0] points to a [void **] that points to itself.) *)
Theorem store_check_rereads v :
  program_effects (L := tiny) ex_uniqtype ex_options ex_no ex_no
    [Set_ (LMem (EMem (EVar 0 (TPtr (TPtr void_ptr))) 0 (TPtr void_ptr)) void_ptr 0 void_ptr) (EConst v void_ptr)]
    (PState (fun _ => 0x4000) (fun _ => 0x4000)) = [Checks (v +w 0) (CallCanHoldPointer v)].
Proof. done. Qed.

(** The check on the result of an indirect call reads the place again too,
    instead of the temporary: here the pointer returned is written over the
    pointer that the place is reached through, and what it points to is checked. *)
Theorem return_check_rereads v args :
  let late := again sloppy_options ex_no ex_no in
  let place := LMem (EMem (EVar 0 (TPtr (TPtr int_ptr))) 0 (TPtr int_ptr)) int_ptr 0 int_ptr in
  let p := PState (fun _ => 0x4000) (fun _ => 0x4000) in
  let i := Call (Some place) (FMem (EVar 4 (TPtr fun_type))) args in
  let p' := write (late p) p no_tmps place v in
  return_check (L := tiny) ex_uniqtype sloppy_options ex_no ex_no p p' place (FMem (EVar 4 (TPtr fun_type))) =
    [Checks (memory p' (v +w 0)) (CallIsA (Some TinyAllocs.TInt))].
Proof. done. Qed.

(** The pointers that [va_arg] yields are checked, whatever they point to: casts
    to [char *] are not.  Pointers under another name are not checked. *)
Theorem va_arg_checks p (ap size : exp) :
  let va t := Call None (FVar "__builtin_va_arg") [ap; size; ECast void_ptr (EAddrVar 1 t)] in
  let checks t p' := va_arg_check (L := tiny) ex_uniqtype ex_options ex_no ex_no p p' (FVar "__builtin_va_arg")
    [ap; size; ECast void_ptr (EAddrVar 1 t)] in
  (forall p', checks (TPtr (TInt IChar)) p' = [Checks (vars p' 1%nat) (CallIsA None)]) /\
  (forall p', checks (TNamed (TPtr (TInt IChar))) p' = []) /\
  vexpr_CastE ex_options ex_no ex_no (TPtr (TInt IChar)) (EVar 0 int_ptr) = Some DoChildren.
Proof. done. Qed.

(** Casts that lose levels of a generic pointer are not checked, casts that gain
    some are; nor are casts to [void *] or [char *]. *)
Example generic_casts :
  let c from to := vexpr_CastE ex_options ex_no ex_no to (EVar 0 from) in
  c (TPtr (TPtr (TPtr TFloat))) (TPtr void_ptr) = Some DoChildren /\
  c float_ptr (TPtr void_ptr) = Some (CheckLooselyLike (TSPtr (TSBase BVoid []) [])) /\
  c (TInt ILong) void_ptr = Some DoChildren /\
  c (TInt ILong) (TPtr (TComp "likely" [])) = Some (CheckTarget LikeAU (TSComp "likely")) /\
  c (TInt ILong) (TPtr (TComp "undefined" [])) = Some (CheckTarget NamedAU (TSComp "undefined")) /\
  c void_ptr (TPtr (TFun "f")) = Some (CheckTarget FunctionRefiningU (TSFun "f")).
Proof. done. Qed.
