(* ===== verification/CastRules.v ===== *)
(** * Which casts are checked

    What the pass [trumptr.ml] promises about the programs it instruments,
    stated by rules on types and values alone, without the functions of
    [Casts.v] by which it decides: which casts need no check and which check
    the others get ([unchecked], [loosely_checked], [tested]); what is checked
    of a store, of the arguments and the result of an indirect call and of what
    [va_arg] yields; and the effects of a program, instruction by instruction
    ([program_requires]).  The rules leave nothing open, and the code the pass
    generates does what they say.  They also say where the pass falls short of
    what one would think: a cast inside a checked cast is not looked at, and
    the checks after an instruction find their object by reading its place once
    more ([late]). *)
From stdpp Require Import functions.
From S2P Require Import Prelude Config TrapPtr Bounds Derive Memory ShadowSpace BoundsStack Report.
From S2P Require Import Runtime TinyAllocs TypeChecks Verdicts Init Casts CastChecks.

Section rules.
Context `{C : Config} `{L : Liballocs} `{A : Cilallocs} `{F : Callees}.
Context (uniqtype_of : typsig -> option uniqtype) (env : options) (null zero : exp -> bool).
Implicit Types (p : pstate) (e : exp) (t : typ).

(** ** Types *)

(** A generic pointer, or something that has one in it, or points to one. *)
Inductive holds_generic : typ -> Prop :=
| generic_itself t : isGenericPointerType t = true -> holds_generic t
| generic_behind t : isGenericPointerType t = true -> holds_generic (TPtr t)
| generic_elements t : holds_generic t -> holds_generic (TArray t)
| generic_named t : holds_generic t -> holds_generic (TNamed t)
| generic_field name fields t : In t fields -> holds_generic t -> holds_generic (TComp name fields).

(** Types that are taken loosely: generic pointers, unless the user is strict
    about them, and types that the user listed. *)
Inductive loose t : Prop :=
| loose_pointer : isGenericPointerType t = true -> strictVoidpps env = false -> loose t
| loose_listed : holds_generic t -> barenameFromSig (concrete t) ∈ looseGPCOTTypeNames env -> loose t.

(** Pointers to such things. *)
Inductive indirectly_loose t : Prop :=
| indirect_levels : isPointerType t = true -> isGenericPointerType t = true ->
    2 <= indirectionLevel (typeSig t) -> strictVoidpps env = false -> indirectly_loose t
| indirect_target : isPointerType t = true -> loose (ultimatePointeeT t) -> indirectly_loose t.

(** Plain [void *] and [char *]. *)
Inductive raw_memory : typsig -> Prop :=
| raw_void : raw_memory (TSPtr (TSBase BVoid []) [])
| raw_char k : k ∈ [IChar; ISChar; IUChar] -> raw_memory (TSPtr (TSBase (BInt k) []) []).

(** ** Casts *)

(** Casts that change nothing, or of nothing. *)
Inductive trivially_safe t e : Prop :=
| same_type : concrete t = concrete (typeOf e) -> trivially_safe t e
| sloppy_function : sloppyFps env = true -> tsIsFunctionPointer (concrete t) = true -> trivially_safe t e
| null_pointer : null e = true -> trivially_safe t e
| zero_value : zero e = true -> trivially_safe t e.

(** A [void ** ] from a pointer of as many levels or more. *)
Definition loses_levels t e : Prop :=
  indirectionLevel (concrete t) <= indirectionLevel (concrete (typeOf e)) /\
  tsIsMultiplyIndirectedGenericPointer (concrete t) = true.

(** No check is needed. *)
Inductive unchecked t e : Prop :=
| unchecked_trivial : trivially_safe t e -> unchecked t e
| unchecked_levels : indirectly_loose t -> loses_levels t e -> unchecked t e
| unchecked_raw : ~ indirectly_loose t -> raw_memory (concrete t) -> unchecked t e
| unchecked_value : ~ indirectly_loose t -> (forall pt attrs, concrete t <> TSPtr pt attrs) -> unchecked t e.

(** The test for the target of a pointer: by name if the type is incomplete, by
    refinement if it is a function's, by likeness if the user listed it, and by
    identity otherwise. *)
Inductive test_for (ts : typsig) : check_call -> Prop :=
| by_name : tsIsUndefinedType ts = true -> test_for ts (CallNamedA (Some (barenameFromSig ts)))
| by_refinement : tsIsUndefinedType ts = false -> tsIsFunction ts = true ->
    test_for ts (CallFunctionRefining (uniqtype_of ts))
| by_likeness name : tsIsUndefinedType ts = false -> tsIsFunction ts = false ->
    name ∈ likeATypeNames env -> userTypeNameToBareName name = barenameFromSig ts ->
    test_for ts (CallLikeA (uniqtype_of ts))
| by_identity : tsIsUndefinedType ts = false -> tsIsFunction ts = false ->
    (forall name, name ∈ likeATypeNames env -> userTypeNameToBareName name <> barenameFromSig ts) ->
    test_for ts (CallIsA (uniqtype_of ts)).

(** The check a cast gets. *)
Inductive loosely_checked t e : check_call -> Prop :=
| LooselyChecked pt attrs :
    ~ trivially_safe t e -> indirectly_loose t -> ~ loses_levels t e -> concrete t = TSPtr pt attrs ->
    loosely_checked t e (CallLooselyLikeA (uniqtype_of (getConcreteType pt))).
Inductive tested t e : check_call -> Prop :=
| Tested pt attrs call :
    ~ trivially_safe t e -> ~ indirectly_loose t -> ~ raw_memory (concrete t) ->
    concrete t = TSPtr pt attrs -> test_for (getConcreteType pt) call -> tested t e call.

(** *** The rules agree with the pass *)
Lemma findLikeA_spec name l :
  match findLikeA name l with
  | Some _ => exists x, x ∈ l /\ userTypeNameToBareName x = name
  | None => forall x, x ∈ l -> userTypeNameToBareName x <> name
  end.
Proof.
  induction l as [|x l IH]; cbn [findLikeA]; [set_solver|].
  destruct (String.eqb_spec (userTypeNameToBareName x) name) as [He|Hne]; [set_solver|].
  destruct (findLikeA name l).
  - destruct IH as (y & Hy & He). exists y. split; [by right|done].
  - intros y [->|Hy]%elem_of_cons; [done|by apply IH].
Qed.

Lemma test_for_testFunName ts : test_for ts (call_of uniqtype_of (FnTest (testFunName env ts)) ts).
Proof.
  unfold testFunName. destruct (tsIsUndefinedType ts) eqn:Hu; [by apply by_name|].
  destruct (tsIsFunction ts) eqn:Hf; [by apply by_refinement|].
  pose proof (findLikeA_spec (barenameFromSig ts) (likeATypeNames env)) as Hl.
  destruct (findLikeA _ _); [destruct Hl as (x & Hx & He); by apply (by_likeness _ x)|by apply by_identity].
Qed.

Lemma existsb_fold (f : typ -> bool) l b : fold_left (fun acc ft => acc || f ft) l b = b || existsb f l.
Proof.
  revert b. induction l as [|x l IH]; intros b; cbn; [by rewrite orb_false_r|]. by rewrite IH, orb_assoc.
Qed.

Lemma typ_nested_ind (P : typ -> Prop) :
  (forall t, match t with
             | TPtr t | TArray t | TNamed t => P t
             | TComp _ fields => forall x, In x fields -> P x
             | _ => True
             end -> P t) -> forall t, P t.
Proof.
  intros H. fix IH 1. intros t. apply H.
  destruct t as [|k| |pt|at_|f|ttype|name fields| |]; try exact I; try apply IH.
  induction fields as [|y fields IHf]; intros x Hx; [destruct Hx|].
  destruct Hx as [<-|Hx]; [apply IH|exact (IHf x Hx)].
Qed.

Lemma isGPCOT_spec t : isGPCOT t = true <-> holds_generic t.
Proof.
  assert (Hp : forall t (P : bool), (P = true -> holds_generic t) ->
    (holds_generic t -> isGenericPointerType t = false -> P = true) ->
    (isGenericPointerType t || P = true <-> holds_generic t)).
  { clear. intros t P HP HQ. destruct (isGenericPointerType t) eqn:Hg; cbn [orb]; [by split; [constructor|]|].
    split; [done|]. intros Hh. by apply HQ. }
  revert t. apply typ_nested_ind. intros t IH.
  destruct t as [|k| |pt|at_|f|ttype|name fields| |]; cbn [isGPCOT]; apply Hp;
    try done; try (intros Hh Hg; inversion Hh; congruence).
  - apply generic_behind.
  - intros Ha. apply generic_elements. by apply IH.
  - intros Hh Hg. inversion Hh; [congruence|]. by apply IH.
  - intros Ha. apply generic_named. by apply IH.
  - intros Hh Hg. inversion Hh; [congruence|]. by apply IH.
  - rewrite existsb_fold. cbn [orb]. intros Hf.
    apply existsb_exists in Hf as (x & Hx & Hg). apply (generic_field _ _ x); [done|]. by apply IH.
  - intros Hh Hg. inversion Hh as [| | | |n0 fs t0 Hin Ht]; subst; [congruence|].
    rewrite existsb_fold. cbn [orb]. apply existsb_exists. exists t0. split; [done|]. by apply IH.
Qed.

Lemma isLooseGPCOT_spec t : isLooseGPCOT env t = true <-> loose t.
Proof.
  unfold isLooseGPCOT. rewrite andb_true_iff, orb_true_iff, andb_true_iff, negb_true_iff,
    bool_decide_eq_true, isGPCOT_spec. split.
  - intros [Hh [[Hg Hs]|Hl]]; [by apply loose_pointer|by apply loose_listed].
  - intros [Hg Hs|Hh Hl]; [split; [by apply generic_itself|by left]|auto].
Qed.

Lemma tIsIndirectedLooseGPCOT_spec t : tIsIndirectedLooseGPCOT env t = true <-> indirectly_loose t.
Proof.
  unfold tIsIndirectedLooseGPCOT. rewrite andb_true_iff, orb_true_iff, !andb_true_iff, negb_true_iff,
    isLooseGPCOT_spec, Z.leb_le. split.
  - intros [Hp [[[Hg Hl] Hs]|Ht]]; [by apply indirect_levels|by apply indirect_target].
  - intros [Hp Hg Hl Hs|Hp Ht]; tauto.
Qed.

Lemma raw_memory_spec pt attrs : raw_memory (TSPtr pt attrs) <-> void_or_char pt attrs = true.
Proof.
  split.
  - inversion 1 as [|k Hk]; subst; [done|]. revert Hk. rewrite !elem_of_cons, elem_of_nil.
    by intros [->|[->|[->|[]]]].
  - intros Hr. assert (exists b, pt = TSBase b [] /\ attrs = []) as (b & -> & ->).
    { destruct pt as [b as_| | | | |]; try done. exists b. destruct b as [|[]|], as_, attrs; done. }
    destruct b as [|k|]; [constructor| |done]. constructor. rewrite !elem_of_cons. destruct k; done || tauto.
Qed.

(** What the pass decides about a cast is what the rules say. *)
Lemma vexpr_CastE_rules t e c :
  vexpr_CastE env null zero t e = Some c ->
  match c with
  | DoChildren => unchecked t e
  | CheckLooselyLike pt => loosely_checked t e (call_of uniqtype_of FnLooselyLikeA pt)
  | CheckTarget f pt => tested t e (call_of uniqtype_of (FnTest f) pt)
  end.
Proof.
  unfold vexpr_CastE. cbn zeta.
  destruct (bool_decide_reflect (concrete t = concrete (typeOf e))) as [Hsame|Hdiff].
  { intros [= <-]. by apply unchecked_trivial, same_type. }
  destruct (sloppyFps env && tsIsFunctionPointer (concrete t)) eqn:Hfp.
  { intros [= <-]. apply andb_true_iff in Hfp as [? ?]. by apply unchecked_trivial, sloppy_function. }
  destruct (null e || zero e) eqn:Hnz.
  { intros [= <-]. apply unchecked_trivial.
    apply orb_true_iff in Hnz as [?|?]; [by apply null_pointer|by apply zero_value]. }
  assert (Hts : ~ trivially_safe t e).
  { intros [?|Hs Hp|Hn|Hz]; [done|by rewrite Hs, Hp in Hfp|by rewrite Hn in Hnz|].
    rewrite Hz in Hnz. by destruct (null e). }
  destruct (tIsIndirectedLooseGPCOT env t) eqn:Hi.
  - apply tIsIndirectedLooseGPCOT_spec in Hi.
    destruct (_ && tsIsMultiplyIndirectedGenericPointer (concrete t)) eqn:Hl.
    { intros [= <-]. apply andb_true_iff in Hl as [Hl%Z.leb_le Hm]. by apply unchecked_levels. }
    destruct (concrete t) as [| | | | |pt attrs] eqn:Ht; try done. intros [= <-].
    apply (LooselyChecked _ _ pt attrs); [done|done| |done].
    unfold loses_levels. rewrite Ht. intros [Hle%Z.leb_le Hm]. by rewrite Hle, Hm in Hl.
  - assert (Hni : ~ indirectly_loose t) by (intros Hi'%tIsIndirectedLooseGPCOT_spec; congruence).
    destruct (concrete t) as [| | | | |pt attrs] eqn:Ht;
      try (intros [= <-]; apply unchecked_value; [done|congruence]).
    destruct (sloppyFps env && is_TSFun pt); [done|].
    destruct (void_or_char pt attrs) eqn:Hr.
    { intros [= <-]. apply unchecked_raw; [done|]. rewrite Ht. by apply raw_memory_spec. }
    intros [= <-]. apply (Tested _ _ pt attrs); [done|done| |done|apply test_for_testFunName].
    rewrite Ht, raw_memory_spec. congruence.
Qed.

(** *** The rules leave nothing open *)
Lemma test_for_unique ts call1 call2 : test_for ts call1 -> test_for ts call2 -> call1 = call2.
Proof. intros [] []; done || congruence || naive_solver. Qed.
Lemma checked_unique t e call1 call2 :
  loosely_checked t e call1 \/ tested t e call1 -> loosely_checked t e call2 \/ tested t e call2 -> call1 = call2.
Proof.
  intros [[pt1 a1 _ Hi1 _ H1]|[pt1 a1 c1 _ Hi1 _ H1 Hc1]] [[pt2 a2 _ Hi2 _ H2]|[pt2 a2 c2 _ Hi2 _ H2 Hc2]]; try done;
    rewrite H1 in H2; injection H2 as -> ->; [done|by eapply test_for_unique].
Qed.
Lemma unchecked_not_loosely t e call : unchecked t e -> ~ loosely_checked t e call.
Proof. intros [] []; naive_solver. Qed.
Lemma unchecked_not_tested t e call : unchecked t e -> ~ tested t e call.
Proof. intros [] []; naive_solver. Qed.
Lemma loosely_not_tested t e call1 call2 : loosely_checked t e call1 -> ~ tested t e call2.
Proof. intros [] []; naive_solver. Qed.

(** ** Expressions *)

(** The checks of the casts in an expression: of a cast that is not checked,
    those inside it; of a cast that is, its own alone. *)
Inductive exp_checks p : exp -> list effect -> Prop :=
| checks_const z t : exp_checks p (EConst z t) []
| checks_var x t : exp_checks p (EVar x t) []
| checks_mem a off t cs : exp_checks p a cs -> exp_checks p (EMem a off t) cs
| checks_addr_var x t : exp_checks p (EAddrVar x t) []
| checks_addr_mem a off t cs : exp_checks p a cs -> exp_checks p (EAddrMem a off t) cs
| checks_inside t e cs : unchecked t e -> exp_checks p e cs -> exp_checks p (ECast t e) cs
| checks_cast t e call :
    loosely_checked t e call \/ tested t e call -> exp_checks p (ECast t e) [Checks (eval p no_tmps e) call].
Inductive exps_checks p : list exp -> list effect -> Prop :=
| checks_nil : exps_checks p [] []
| checks_cons e es cs cs' : exp_checks p e cs -> exps_checks p es cs' -> exps_checks p (e :: es) (cs ++ cs').
Inductive fexp_casts p : fexp -> list effect -> Prop :=
| casts_direct name : fexp_casts p (FVar name) []
| casts_through e cs : exp_checks p e cs -> fexp_casts p (FMem e) cs.

(** What reading an expression gives in state [p'], after its casts were
    checked in state [p]: what was tested is not read again. *)
Inductive late p p' : exp -> Z -> Prop :=
| late_const z t : late p p' (EConst z t) z
| late_var x t : late p p' (EVar x t) (vars p' x)
| late_mem a off t v : late p p' a v -> late p p' (EMem a off t) (memory p' (v +w off))
| late_addr_var x t : late p p' (EAddrVar x t) (variable_address x)
| late_addr_mem a off t v : late p p' a v -> late p p' (EAddrMem a off t) (v +w off)
| late_inside t e v : unchecked t e -> late p p' e v -> late p p' (ECast t e) v
| late_loosely t e call : loosely_checked t e call -> late p p' (ECast t e) (eval p' no_tmps e)
| late_tested t e call : tested t e call -> late p p' (ECast t e) (eval p no_tmps e).

Lemma exp_checks_unique p e cs1 cs2 : exp_checks p e cs1 -> exp_checks p e cs2 -> cs1 = cs2.
Proof.
  intros H1. revert cs2. induction H1 as [| |a off t cs H IH| |a off t cs H IH|t e cs Hu H IH|t e call Hc];
    intros cs2 H2; inversion H2 as [| | | | |t2 e2 cs2' Hu2 H2'|t2 e2 call2 Hc2]; subst; auto.
  - destruct Hc2 as [Hc2|Hc2]; [by eapply unchecked_not_loosely in Hc2|by eapply unchecked_not_tested in Hc2].
  - destruct Hc as [Hc|Hc]; [by eapply unchecked_not_loosely in Hc|by eapply unchecked_not_tested in Hc].
  - by rewrite (checked_unique _ _ _ _ Hc Hc2).
Qed.
Lemma exps_checks_unique p es cs1 cs2 : exps_checks p es cs1 -> exps_checks p es cs2 -> cs1 = cs2.
Proof.
  intros H1. revert cs2. induction H1; intros cs2 H2; inversion H2; subst; [done|].
  f_equal; [by eapply exp_checks_unique|auto].
Qed.
Lemma fexp_casts_unique p f cs1 cs2 : fexp_casts p f cs1 -> fexp_casts p f cs2 -> cs1 = cs2.
Proof. intros [] H2; inversion H2; subst; [done|by eapply exp_checks_unique]. Qed.

Lemma late_unique p p' e v1 v2 : late p p' e v1 -> late p p' e v2 -> v1 = v2.
Proof.
  intros H1. revert v2.
  induction H1 as [| |a off t v H IH| |a off t v H IH|t e v Hu H IH|t e call Hl|t e call Ht];
    intros v2 H2; inversion H2 as [| | | | |t2 e2 v2' Hu2 H2'|t2 e2 call2 Hl2|t2 e2 call2 Ht2]; subst; auto;
    first [by f_equal; f_equal; auto | exfalso;
    first [by eapply unchecked_not_loosely | by eapply unchecked_not_tested | by eapply loosely_not_tested]].
Qed.

(** ** Instructions *)

(** Writing [v] to a place that is evaluated in [p0], the checks of its casts
    made in [p]. *)
Inductive written p p0 (v : Z) : lval -> pstate -> Prop :=
| written_var x t : written p p0 v (LVar x t) (PState (<[x := v]> (vars p0)) (memory p0))
| written_mem a pointee off t addr :
    late p p0 a addr ->
    written p p0 v (LMem a pointee off t) (PState (vars p0) (<[addr +w off := v]> (memory p0))).

(** The arguments of an indirect call, with sloppy function pointers: the casts
    checked for it, and the check itself, on the arguments as words. *)
Inductive scalar : typsig -> Prop :=
| scalar_base b attrs : scalar (TSBase b attrs)
| scalar_pointer pt attrs : scalar (TSPtr pt attrs)
| scalar_enum name : scalar (TSEnum name).
Inductive as_word e : exp -> Prop :=
| word_itself : scalar (typeSig (typeOf e)) -> as_word e (ECast (TInt ILong) e)
| word_zero : ~ scalar (typeSig (typeOf e)) -> as_word e (EConst 0 (TInt IInt)).
Inductive args_rule p : fexp -> list exp -> list effect -> list effect -> Prop :=
| args_checked e args words cf ca :
    sloppyFps env = true -> Forall2 as_word args words -> exp_checks p e cf -> exps_checks p words ca ->
    args_rule p (FMem e) args (cf ++ ca) [ChecksArgs (eval p no_tmps e) (map (eval p no_tmps) words)]
| args_direct name args : args_rule p (FVar name) args [] []
| args_strict f args : sloppyFps env = false -> args_rule p f args [] [].

(** A store through a pointer to something loose, of a generic pointer: the
    slot written to, found by reading the place after the store, has to be able
    to hold the pointer. *)
Inductive store_rule p p' (v : Z) : lval -> list effect -> list effect -> Prop :=
| store_checked a pointee off t cs addr :
    strictVoidpps env = false -> isGenericPointerType t = true -> loose pointee ->
    exp_checks p a cs -> late p p' a addr ->
    store_rule p p' v (LMem a pointee off t) cs [Checks (addr +w off) (CallCanHoldPointer v)]
| store_variable x t : store_rule p p' v (LVar x t) [] []
| store_ordinary a pointee off t :
    strictVoidpps env = true \/ isGenericPointerType t = false \/ ~ loose pointee ->
    store_rule p p' v (LMem a pointee off t) [] [].

(** The result of an indirect call, with sloppy function pointers: written to a
    place for pointers other than to [void], what is read there has to point to
    what the place says. *)
Inductive return_rule p p' : lval -> fexp -> list effect -> list effect -> Prop :=
| return_checked lv e pt attrs cs v :
    sloppyFps env = true -> concrete (lval_type lv) = TSPtr pt attrs -> (forall a, pt <> TSBase BVoid a) ->
    exp_checks p (exp_of_lval lv) cs -> late p p' (exp_of_lval lv) v ->
    return_rule p p' lv (FMem e) cs [Checks v (CallIsA (uniqtype_of (getConcreteType pt)))]
| return_strict lv f : sloppyFps env = false -> return_rule p p' lv f [] []
| return_direct lv name : return_rule p p' lv (FVar name) [] []
| return_other lv f :
    (forall pt attrs, concrete (lval_type lv) = TSPtr pt attrs -> exists a, pt = TSBase BVoid a) ->
    return_rule p p' lv f [] [].

(** The pointer that [va_arg] puts where its third argument points to, if that
    is the address of a pointer, cast to [void *] or not: it has to pass the
    test for its own target. *)
Inductive address_of : exp -> exp -> typ -> Prop :=
| address_of_var x t : address_of (EAddrVar x (TPtr t)) (EVar x (TPtr t)) t
| address_of_mem a off t : address_of (EAddrMem a off (TPtr t)) (EMem a off (TPtr t)) t.
Inductive va_arg_reads : fexp -> list exp -> exp -> typ -> Prop :=
| va_reads name a1 a2 a3 a e t :
    name ∈ ["__builtin_va_arg"%string; "va_arg"%string] ->
    a3 = a \/ a3 = ECast (TPtr TVoid) a -> address_of a e t ->
    va_arg_reads (FVar name) [a1; a2; a3] e t.
Inductive va_rule p p' (f : fexp) (args : list exp) : list effect -> list effect -> Prop :=
| va_checked e t call cs v :
    va_arg_reads f args e t -> test_for (typeSig t) call -> exp_checks p e cs -> late p p' e v ->
    va_rule p p' f args cs [Checks v call]
| va_none : (forall e t, ~ va_arg_reads f args e t) -> va_rule p p' f args [] [].

(** The effects of an instruction that takes the program from [p] to [p']: the
    casts are checked first, those of a part that is used twice twice. *)
Inductive instr_requires p : instr -> list effect -> pstate -> Prop :=
| requires_set lv e ce cl cs es p' :
    exp_checks p e ce -> exp_checks p (exp_of_lval lv) cl ->
    written p p (eval p no_tmps e) lv p' -> store_rule p p' (eval p no_tmps e) lv cs es ->
    instr_requires p (Set_ lv e) (ce ++ cl ++ cs ++ es) p'
| requires_call_void f args ck ek cf ca cv ev v p' :
    args_rule p f args ck ek -> fexp_casts p f cf -> exps_checks p args ca ->
    callee (feval eval p no_tmps f) (map (eval p no_tmps) args) p = (v, p') ->
    va_rule p p' f args cv ev ->
    instr_requires p (Call None f args)
      (ck ++ cf ++ ca ++ cv ++
       ek ++ [Calls (feval eval p no_tmps f) (map (eval p no_tmps) args) p] ++ ev) p'
| requires_call lv f args ck ek cf ca cl cs es cr er cv ev v p0 p' :
    args_rule p f args ck ek -> fexp_casts p f cf -> exps_checks p args ca ->
    exp_checks p (exp_of_lval lv) cl ->
    callee (feval eval p no_tmps f) (map (eval p no_tmps) args) p = (v, p0) ->
    written p p0 v lv p' ->
    store_rule p p' v lv cs es -> return_rule p p' lv f cr er -> va_rule p p' f args cv ev ->
    instr_requires p (Call (Some lv) f args)
      (ck ++ cf ++ ca ++ cl ++ cs ++ cr ++ cv ++
       ek ++ [Calls (feval eval p no_tmps f) (map (eval p no_tmps) args) p] ++ es ++ er ++ ev) p'.

(** The effects of a program, and where it ends. *)
Inductive program_requires : list instr -> pstate -> list effect -> pstate -> Prop :=
| requires_nil p : program_requires [] p [] p
| requires_cons i prog p p1 p2 es1 es2 :
    instr_requires p i es1 p1 -> program_requires prog p1 es2 p2 ->
    program_requires (i :: prog) p (es1 ++ es2) p2.

(** *** The rules determine the effects *)
Lemma written_unique p p0 v lv p1 p2 : written p p0 v lv p1 -> written p p0 v lv p2 -> p1 = p2.
Proof.
  intros [x t|a pointee off t addr Ha] H2; inversion H2 as [|a2 pt2 off2 t2 addr2 Ha2]; subst; [done|].
  by rewrite (late_unique _ _ _ _ _ Ha Ha2).
Qed.
Lemma as_words_unique args words1 words2 :
  Forall2 as_word args words1 -> Forall2 as_word args words2 -> words1 = words2.
Proof.
  intros H1. revert words2. induction H1 as [|e w args words Hw _ IH]; intros words2 H2; inversion H2; subst; [done|].
  f_equal; [|auto]. destruct Hw as [Hs|Hs]; match goal with H : as_word _ _ |- _ => destruct H end; done.
Qed.
Lemma args_rule_unique p f args cs1 es1 cs2 es2 :
  args_rule p f args cs1 es1 -> args_rule p f args cs2 es2 -> cs1 = cs2 /\ es1 = es2.
Proof.
  intros [e a w cf ca Hs Hw Hf Ha|name a|f' a Hs] H2;
    inversion H2 as [e2 a2 w2 cf2 ca2 Hs2 Hw2 Hf2 Ha2| |]; subst; try done; try congruence.
  pose proof (as_words_unique _ _ _ Hw Hw2) as ->.
  by rewrite (exp_checks_unique _ _ _ _ Hf Hf2), (exps_checks_unique _ _ _ _ Ha Ha2).
Qed.
Lemma store_rule_unique p p' v lv cs1 es1 cs2 es2 :
  store_rule p p' v lv cs1 es1 -> store_rule p p' v lv cs2 es2 -> cs1 = cs2 /\ es1 = es2.
Proof.
  intros [a pt off t cs addr Hs Hg Hl Hc Ha|x t|a pt off t Hn] H2;
    inversion H2 as [a2 pt2 off2 t2 cs2' addr2 Hs2 Hg2 Hl2 Hc2 Ha2| |a2 pt2 off2 t2 Hn2]; subst; try done.
  - by rewrite (exp_checks_unique _ _ _ _ Hc Hc2), (late_unique _ _ _ _ _ Ha Ha2).
  - destruct Hn2 as [|[|]]; [congruence..|done].
  - destruct Hn as [|[|]]; [congruence..|done].
Qed.
Lemma return_rule_unique p p' lv f cs1 es1 cs2 es2 :
  return_rule p p' lv f cs1 es1 -> return_rule p p' lv f cs2 es2 -> cs1 = cs2 /\ es1 = es2.
Proof.
  intros [lv1 e1 pt attrs cs v Hs Ht Hv Hc Hl| | |lv1 f1 Ho] H2;
    inversion H2 as [lv2 e2 pt2 attrs2 cs2' v2 Hs2 Ht2 Hv2 Hc2 Hl2| | |lv2 f2 Ho2]; subst; try done; try congruence.
  - rewrite Ht in Ht2. injection Ht2 as -> ->.
    by rewrite (exp_checks_unique _ _ _ _ Hc Hc2), (late_unique _ _ _ _ _ Hl Hl2).
  - destruct (Ho2 _ _ Ht) as [a ->]. by destruct (Hv a).
  - destruct (Ho _ _ Ht2) as [a ->]. by destruct (Hv2 a).
Qed.
Lemma va_arg_reads_unique f args e1 t1 e2 t2 :
  va_arg_reads f args e1 t1 -> va_arg_reads f args e2 t2 -> e1 = e2 /\ t1 = t2.
Proof.
  intros [name a1 a2 a3 a e t _ Ha He] H2. inversion H2 as [name' b1 b2 b3 b e' t' _ Hb He']; subst.
  destruct Ha as [->| ->], Hb as [Hb|Hb]; destruct He; inversion He'; subst; simplify_eq; done.
Qed.
Lemma va_rule_unique p p' f args cs1 es1 cs2 es2 :
  va_rule p p' f args cs1 es1 -> va_rule p p' f args cs2 es2 -> cs1 = cs2 /\ es1 = es2.
Proof.
  intros [e t call cs v Hr Ht Hc Hl|Hn] H2; inversion H2 as [e2 t2 call2 cs2' v2 Hr2 Ht2 Hc2 Hl2|Hn2]; subst; try done.
  - destruct (va_arg_reads_unique _ _ _ _ _ _ Hr Hr2) as [-> ->].
    by rewrite (exp_checks_unique _ _ _ _ Hc Hc2), (late_unique _ _ _ _ _ Hl Hl2), (test_for_unique _ _ _ Ht Ht2).
  - by apply Hn2 in Hr.
  - by apply Hn in Hr2.
Qed.

(** Two derivations with the same conclusion but for the result. *)
Ltac same_result :=
  repeat match goal with
  | H1 : exp_checks ?p ?e ?a, H2 : exp_checks ?p ?e ?b |- _ => pose proof (exp_checks_unique _ _ _ _ H1 H2); clear H2; subst
  | H1 : exps_checks ?p ?e ?a, H2 : exps_checks ?p ?e ?b |- _ => pose proof (exps_checks_unique _ _ _ _ H1 H2); clear H2; subst
  | H1 : fexp_casts ?p ?e ?a, H2 : fexp_casts ?p ?e ?b |- _ => pose proof (fexp_casts_unique _ _ _ _ H1 H2); clear H2; subst
  | H1 : written ?p ?q ?v ?lv ?a, H2 : written ?p ?q ?v ?lv ?b |- _ => pose proof (written_unique _ _ _ _ _ _ H1 H2); clear H2; subst
  | H1 : callee ?f ?a ?p = _, H2 : callee ?f ?a ?p = _ |- _ => rewrite H1 in H2; injection H2 as ? ?; subst
  | H1 : args_rule ?p ?f ?a _ _, H2 : args_rule ?p ?f ?a _ _ |- _ => destruct (args_rule_unique _ _ _ _ _ _ _ H1 H2); clear H2; subst
  | H1 : store_rule ?p ?q ?v ?lv _ _, H2 : store_rule ?p ?q ?v ?lv _ _ |- _ => destruct (store_rule_unique _ _ _ _ _ _ _ _ H1 H2); clear H2; subst
  | H1 : return_rule ?p ?q ?lv ?f _ _, H2 : return_rule ?p ?q ?lv ?f _ _ |- _ => destruct (return_rule_unique _ _ _ _ _ _ _ _ H1 H2); clear H2; subst
  | H1 : va_rule ?p ?q ?f ?a _ _, H2 : va_rule ?p ?q ?f ?a _ _ |- _ => destruct (va_rule_unique _ _ _ _ _ _ _ _ H1 H2); clear H2; subst
  end.

Lemma instr_requires_unique p i es1 p1 es2 p2 :
  instr_requires p i es1 p1 -> instr_requires p i es2 p2 -> es1 = es2 /\ p1 = p2.
Proof. intros H1 H2. destruct H1; inversion H2; subst; same_result; done. Qed.
Lemma program_requires_unique prog p es1 p1 es2 p2 :
  program_requires prog p es1 p1 -> program_requires prog p es2 p2 -> es1 = es2 /\ p1 = p2.
Proof.
  intros H1. revert es2 p2. induction H1 as [|p i prog q1 q2 fs1 fs2 Hi _ IH]; intros es2 p2 H2;
    inversion H2 as [|p' i' prog' r1 r2 gs1 gs2 Hi2 H2']; subst; [done|].
  destruct (instr_requires_unique _ _ _ _ _ _ Hi Hi2) as [-> ->]. by destruct (IH _ _ H2') as [-> ->].
Qed.

(** ** C's own order

    The place that takes the result of a call is evaluated in any order that C
    allows: every variable and every part of memory in it is read before the
    call, or after it. *)
Inductive may_evaluate (p p' : pstate) : exp -> Z -> Prop :=
| may_const z t : may_evaluate p p' (EConst z t) z
| may_var_before x t : may_evaluate p p' (EVar x t) (vars p x)
| may_var_after x t : may_evaluate p p' (EVar x t) (vars p' x)
| may_mem_before a off t v : may_evaluate p p' a v -> may_evaluate p p' (EMem a off t) (memory p (v +w off))
| may_mem_after a off t v : may_evaluate p p' a v -> may_evaluate p p' (EMem a off t) (memory p' (v +w off))
| may_addr_var x t : may_evaluate p p' (EAddrVar x t) (variable_address x)
| may_addr_mem a off t v : may_evaluate p p' a v -> may_evaluate p p' (EAddrMem a off t) (v +w off)
| may_cast t e v : may_evaluate p p' e v -> may_evaluate p p' (ECast t e) v.
Lemma may_evaluate_eval p p' e :
  source_exp e = true -> may_evaluate p p' e (eval p no_tmps e) /\ may_evaluate p p' e (eval p' no_tmps e).
Proof.
  induction e as [| | |a IH off t| |a IH off t|t e IH]; cbn; intros He; try done;
    try (split; by constructor); destruct (IH He); split; by constructor.
Qed.

(** An instruction and a program as C has them. *)
Inductive c_written p p0 (v : Z) : lval -> pstate -> Prop :=
| c_written_var x t : c_written p p0 v (LVar x t) (PState (<[x := v]> (vars p0)) (memory p0))
| c_written_mem a pointee off t addr :
    may_evaluate p p0 a addr ->
    c_written p p0 v (LMem a pointee off t) (PState (vars p0) (<[addr +w off := v]> (memory p0))).
Inductive c_step p : instr -> pstate -> Prop :=
| c_set lv e p' : c_written p p (eval p no_tmps e) lv p' -> c_step p (Set_ lv e) p'
| c_call_void f args v p' :
    callee (feval eval p no_tmps f) (map (eval p no_tmps) args) p = (v, p') -> c_step p (Call None f args) p'
| c_call lv f args v p0 p' :
    callee (feval eval p no_tmps f) (map (eval p no_tmps) args) p = (v, p0) ->
    c_written p p0 v lv p' -> c_step p (Call (Some lv) f args) p'.
Inductive c_run : list instr -> pstate -> pstate -> Prop :=
| c_run_nil p : c_run [] p p
| c_run_cons i prog p p1 p2 : c_step p i p1 -> c_run prog p1 p2 -> c_run (i :: prog) p p2.

Lemma late_may_evaluate p p' e v : source_exp e = true -> late p p' e v -> may_evaluate p p' e v.
Proof. intros Hs Hl. induction Hl; cbn in Hs; try (by constructor; auto); constructor; by apply may_evaluate_eval. Qed.
Lemma instr_requires_c_step p i es p' : source_instr i = true -> instr_requires p i es p' -> c_step p i p'.
Proof.
  assert (Hw : forall p0 v lv p1, source_lval lv = true -> written p p0 v lv p1 -> c_written p p0 v lv p1).
  { intros p0 v lv p1 Hs Hw. destruct Hw; constructor. by apply late_may_evaluate. }
  intros Hs Hr.
  destruct Hr as [lv e ce cl cs es1 p1 _ _ Hp _|f args ck ek cf ca cv ev v p1 _ _ _ Hcall _
    |lv f args ck ek cf ca cl cs es1 cr er cv ev v p0 p1 _ _ _ _ Hcall Hp _ _ _]; cbn [source_instr] in Hs;
    rewrite ?andb_true_iff in Hs.
  - apply c_set, Hw; tauto.
  - by eapply c_call_void.
  - eapply c_call; [exact Hcall|]. apply Hw; tauto.
Qed.
Lemma program_requires_c_run prog p es p' :
  forallb source_instr prog = true -> program_requires prog p es p' -> c_run prog p p'.
Proof.
  intros Hs Hr. induction Hr as [|p i prog p1 p2 es1 es2 Hi _ IH]; [constructor|].
  apply andb_prop in Hs as [Hsi Hsp]. econstructor; [by eapply instr_requires_c_step|auto].
Qed.

(** ** What the pass accepts is covered by the rules *)
Abbreviation again := (again env null zero).
Abbreviation checks_of := (checks_of uniqtype_of env null zero).
Definition accepted e : Prop := exists n r, vexpr env null zero n e = Some r.

Lemma exp_checks_exists p e : accepted e -> source_exp e = true -> exp_checks p e (checks_of p e).
Proof.
  intros (n & r & Hv) Hs. revert n r Hv.
  induction e as [z t|x t|m t|a IH off t|x t|a IH off t|t e IH]; intros n r; cbn [vexpr source_exp Casts.checks_of] in *;
    try done; try (by constructor).
  1, 2: intros ([[q a'] n'] & Ha & _)%bind_Some; constructor; by eapply IH.
  intros (c & Hc & Hr)%bind_Some. pose proof (vexpr_CastE_rules _ _ _ Hc) as Hrule. rewrite Hc.
  destruct c as [|pt|f pt]; [|by apply checks_cast; left|by apply checks_cast; right].
  apply bind_Some in Hr as ([[q a'] n'] & Ha & _). apply checks_inside; [done|]. by eapply IH.
Qed.
Lemma late_exists p p' e : accepted e -> source_exp e = true -> late p p' e (again p p' no_tmps e).
Proof.
  intros (n & r & Hv) Hs. revert n r Hv.
  induction e as [z t|x t|m t|a IH off t|x t|a IH off t|t e IH]; intros n r; cbn [vexpr source_exp Casts.again] in *;
    try done; try (by constructor).
  1, 2: intros ([[q a'] n'] & Ha & _)%bind_Some; constructor; by eapply IH.
  intros (c & Hc & Hr)%bind_Some. pose proof (vexpr_CastE_rules _ _ _ Hc) as Hrule. rewrite Hc.
  destruct c as [|pt|f pt]; [|by eapply late_loosely|by eapply late_tested].
  apply bind_Some in Hr as ([[q a'] n'] & Ha & _). apply late_inside; [done|]. by eapply IH.
Qed.
Lemma exps_checks_exists p es :
  Forall accepted es -> forallb source_exp es = true -> exps_checks p es (flat_map (checks_of p) es).
Proof.
  induction 1 as [|e es He _ IH]; cbn [forallb flat_map]; [constructor|].
  intros [Hs Hss]%andb_prop. constructor; [by apply exp_checks_exists|auto].
Qed.

(** What the visit of an instruction's code went through. *)
Definition lval_accepted (lv : lval) : Prop := accepted (exp_of_lval lv).
Definition fexp_accepted (f : fexp) : Prop := match f with FVar _ => True | FMem e => accepted e end.
Lemma vexprs_accepted n es r : vexprs env null zero n es = Some r -> Forall accepted es.
Proof.
  revert n r. induction es as [|e es IH]; intros n r; [constructor|]. cbn [vexprs].
  intros ([[q1 e1] n1] & He & ([[q2 es2] n2] & Hes & _)%bind_Some)%bind_Some.
  constructor; [by eexists _, _|by eapply IH].
Qed.
Lemma vlval_accepted n lv r : vlval env null zero n lv = Some r -> lval_accepted lv.
Proof.
  destruct lv as [x t|a pointee off t]; cbn [vlval]; [by exists n; eexists|].
  intros ([[q1 a'] n1] & Ha & _)%bind_Some. exists n. eexists. cbn [exp_of_lval vexpr]. by rewrite Ha.
Qed.
Lemma vfexp_accepted n f r : vfexp env null zero n f = Some r -> fexp_accepted f.
Proof. destruct f as [v|e]; cbn [vfexp]; [done|]. intros ([[q1 e1] n1] & He & _)%bind_Some. by eexists _, _. Qed.

Definition tinstr_accepted (t : tinstr) : Prop :=
  match t with
  | TSet _ e | TCheck _ _ e _ => accepted e
  | TWrite lv e | TCanHold _ lv e => lval_accepted lv /\ accepted e
  | TCheckArgs _ f args | TCall _ f args => fexp_accepted f /\ Forall accepted args
  | TAssert _ | TAssertEq _ _ | TTraceWiden _ => True
  end.
Lemma visit_list_accepted n ts r : visit_list env null zero n ts = Some r -> Forall tinstr_accepted ts.
Proof.
  revert n r. induction ts as [|t ts IH]; intros n r; [constructor|]. cbn [visit_list].
  intros ([[q1 t1] n1] & Ht & ([[q2 ts2] n2] & Hts & _)%bind_Some)%bind_Some.
  constructor; [|by eapply IH].
  destruct t; cbn [visit_children tinstr_accepted] in *; try done;
    repeat match goal with
    | H : _ ≫= _ = Some _ |- _ => apply bind_Some in H as ([[??]?] & ? & ?)
    end; repeat split;
    solve [by eexists _, _ | by eapply vlval_accepted | by eapply vfexp_accepted | by eapply vexprs_accepted].
Qed.

(** ** The rules of an instruction *)
Lemma written_exists p p0 v lv :
  lval_accepted lv -> source_lval lv = true -> written p p0 v lv (write (again p) p0 no_tmps lv v).
Proof.
  destruct lv as [x t|a pointee off t]; [constructor|]. cbn [write source_lval]. intros (n & r & Ha) Hs.
  cbn [exp_of_lval vexpr] in Ha. apply bind_Some in Ha as (r' & Ha & _).
  constructor. apply late_exists; [by eexists _, _|done].
Qed.
Lemma scalar_cases e : as_word e (makeCheckArgArg e).
Proof.
  unfold makeCheckArgArg. destruct (typeSig (typeOf e)) eqn:Ht;
    (apply word_itself || apply word_zero); rewrite Ht; try by constructor.
  all: by inversion 1.
Qed.
Lemma as_words_exist args : Forall2 as_word args (map makeCheckArgArg args).
Proof. induction args; constructor; [apply scalar_cases|done]. Qed.

Lemma fexp_casts_exists p f :
  fexp_accepted f -> source_fexp f = true -> fexp_casts p f (fexp_checks uniqtype_of env null zero p f).
Proof. destruct f as [v|e]; constructor. by apply exp_checks_exists. Qed.
Lemma lval_casts_exist p lv :
  lval_accepted lv -> source_lval lv = true ->
  exp_checks p (exp_of_lval lv) (lval_checks uniqtype_of env null zero p lv).
Proof.
  intros Ha Hs. pose proof (exp_checks_exists p _ Ha (eq_trans (source_exp_of_lval lv) Hs)) as H. by destruct lv.
Qed.

Lemma args_rule_exists p f args :
  (checks_args env f = true -> fexp_accepted f /\ Forall accepted (map makeCheckArgArg args)) ->
  source_fexp f = true -> forallb source_exp args = true ->
  args_rule p f args
    (repeated (checks_args env f) (fexp_checks uniqtype_of env null zero p f ++ flat_map (checks_of p) (map makeCheckArgArg args)))
    (repeated (checks_args env f) [ChecksArgs (feval eval p no_tmps f) (map (fun e => eval p no_tmps (makeCheckArgArg e)) args)]).
Proof.
  intros Ha Hf Hs. rewrite <- (map_map makeCheckArgArg (eval p no_tmps)). unfold checks_args in *.
  destruct (sloppyFps env) eqn:Hsl; [|by apply args_strict].
  destruct f as [v|e]; [by apply args_direct|]. destruct (Ha eq_refl) as [Hfa Haa].
  apply args_checked; [done|apply as_words_exist|by apply exp_checks_exists|].
  apply exps_checks_exists; [done|]. rewrite List.forallb_forall in *.
  intros w (e' & <- & He)%in_map_iff. by apply source_makeCheckArgArg, Hs.
Qed.

Lemma store_rule_exists p p' v lv :
  lval_accepted lv -> source_lval lv = true ->
  store_rule p p' v lv (repeated (checks_store env lv) (lval_checks uniqtype_of env null zero p lv))
    (store_check env null zero p p' lv v).
Proof.
  intros Ha Hs. unfold checks_store, store_check. destruct lv as [x t|a pointee off t].
  { rewrite andb_false_r. apply store_variable. }
  unfold checks_store. cbn [lvalueNamesPointerThroughPtrToLooseGPCOT].
  destruct (negb (strictVoidpps env) && (isGenericPointerType t && isLooseGPCOT env pointee)) eqn:Hb.
  - apply andb_true_iff in Hb as [Hst%negb_true_iff [Hg Hl%isLooseGPCOT_spec]%andb_true_iff].
    pose proof (lval_casts_exist p _ Ha Hs) as Hc. inversion Hc; subst.
    apply store_checked; [done..|]. destruct Ha as (n & r & Ha).
    cbn [exp_of_lval vexpr] in Ha. apply bind_Some in Ha as (r' & Ha & _).
    apply late_exists; [by eexists _, _|done].
  - apply store_ordinary. rewrite <- isLooseGPCOT_spec.
    destruct (strictVoidpps env); [by left|]. destruct (isGenericPointerType t); [|by right; left].
    cbn in Hb. right; right. congruence.
Qed.

Lemma return_rule_exists p p' lv f :
  lval_accepted lv -> source_lval lv = true ->
  return_rule p p' lv f
    (repeated (bool_decide (is_Some (return_target env lv f))) (lval_checks uniqtype_of env null zero p lv))
    (return_check uniqtype_of env null zero p p' lv f).
Proof.
  intros Ha Hs. unfold return_check. destruct (return_target env lv f) as [pt|] eqn:Hr; cbn [repeated].
  - rewrite bool_decide_true by done. cbn [repeated]. revert Hr. unfold return_target, checks_args.
    destruct (sloppyFps env) eqn:Hsl; [|done]. destruct f as [v|e]; [done|]. cbn [callIsIndirect andb].
    destruct (concrete (lval_type lv)) as [| | | | |tgt attrs] eqn:Ht; try done. intros Hr.
    assert ((forall a, tgt <> TSBase BVoid a) /\ getConcreteType tgt = pt) as [Hv <-]
      by (destruct tgt as [[]| | | | |]; naive_solver).
    eapply return_checked; try done; [by apply lval_casts_exist|].
    apply late_exists; [done|by rewrite source_exp_of_lval].
  - rewrite bool_decide_false by (by intros [? ?]). cbn [repeated]. revert Hr. unfold return_target, checks_args.
    destruct (sloppyFps env) eqn:Hsl; [|by intros _; apply return_strict].
    destruct f as [v|e]; [by intros _; apply return_direct|]. cbn [callIsIndirect andb]. intros Hr.
    apply return_other. intros pt attrs Ht. rewrite Ht in Hr.
    destruct pt as [[]| | | | |]; try done. by eexists.
Qed.

Lemma AddrOf_pointer_spec a :
  match AddrOf_pointer a with
  | Some (e, ts) => exists t, address_of a e t /\ ts = typeSig t
  | None => forall e t, ~ address_of a e t
  end.
Proof.
  destruct a as [| | | |x []|b off []|]; cbn [AddrOf_pointer];
    try (by intros ?? Hao; inversion Hao); eexists; by split; [constructor|].
Qed.
Lemma writtenVar_spec a3 :
  match writtenVar a3 with
  | Some (e, ts) => exists a t, (a3 = a \/ a3 = ECast (TPtr TVoid) a) /\ address_of a e t /\ ts = typeSig t
  | None => forall a e t, a3 = a \/ a3 = ECast (TPtr TVoid) a -> ~ address_of a e t
  end.
Proof.
  assert ((exists a, a3 = ECast (TPtr TVoid) a) \/ writtenVar a3 = AddrOf_pointer a3 /\
      forall a, a3 <> ECast (TPtr TVoid) a) as [[a ->]|[-> Hno]].
  { destruct a3 as [| | | | | |[| | |[]| | | | | |] a]; (left; by eexists) || (right; done). }
  - cbn [writtenVar]. pose proof (AddrOf_pointer_spec a) as Ha. destruct (AddrOf_pointer a) as [[e ts]|].
    + destruct Ha as (t & Ha & ->). exists a, t. auto.
    + intros a' e t [<-|[= <-]]; [by inversion 1|apply Ha].
  - pose proof (AddrOf_pointer_spec a3) as Ha. destruct (AddrOf_pointer a3) as [[e ts]|].
    + destruct Ha as (t & Ha & ->). exists a3, t. auto.
    + intros a' e t [<-|Hc]; [apply Ha|by apply Hno in Hc].
Qed.
Lemma va_arg_written_spec f args :
  match va_arg_written f args with
  | Some (e, ts) => exists t, va_arg_reads f args e t /\ ts = typeSig t
  | None => forall e t, ~ va_arg_reads f args e t
  end.
Proof.
  destruct f as [name|]; [|by intros ?? Hr; inversion Hr].
  destruct args as [|a1 [|a2 [|a3 []]]]; try by (intros ?? Hr; inversion Hr). cbn [va_arg_written].
  destruct (String.eqb name "__builtin_va_arg" || String.eqb name "va_arg") eqn:Hname.
  - pose proof (writtenVar_spec a3) as Hw. destruct (writtenVar a3) as [[e ts]|].
    + destruct Hw as (a & t & Ha & Hao & ->). exists t. split; [|done]. eapply va_reads; [|done|done].
      rewrite !elem_of_cons. by apply orb_true_iff in Hname as [->%String.eqb_eq| ->%String.eqb_eq]; auto.
    + intros e t Hr. inversion Hr as [nm b1 b2 b3 b e' t' _ Hb Hao]; subst. by eapply Hw.
  - intros e t Hr. inversion Hr as [nm b1 b2 b3 b e' t' Hin _ _]; subst.
    apply orb_false_iff in Hname as [Hn1%String.eqb_neq Hn2%String.eqb_neq].
    rewrite !elem_of_cons, elem_of_nil in Hin. tauto.
Qed.

Lemma va_rule_exists p p' f args :
  (forall e ts, va_arg_written f args = Some (e, ts) -> accepted e) -> forallb source_exp args = true ->
  va_rule p p' f args
    (match va_arg_written f args with Some (e, _) => checks_of p e | None => [] end)
    (va_arg_check uniqtype_of env null zero p p' f args).
Proof.
  intros Ha Hs. unfold va_arg_check. pose proof (va_arg_written_spec f args) as Hw.
  destruct (va_arg_written f args) as [[e ts]|] eqn:Hwr; [|by apply va_none].
  destruct Hw as (t & Hr & ->). specialize (Ha _ _ eq_refl).
  assert (source_exp e = true) by (by eapply source_va_arg_written).
  eapply va_checked; [done|apply test_for_testFunName|by apply exp_checks_exists|by apply late_exists].
Qed.

(** ** Programs *)
Abbreviation instr_effects := (instr_effects uniqtype_of env null zero).
Lemma vinst_visits n i r :
  vinst env null zero n i = Some r -> Forall tinstr_accepted (newList env (first_temps n) i).
Proof. intros ([[q ts] m] & Hv & _)%bind_Some. by eapply visit_list_accepted. Qed.

Lemma instr_requires_exists n i r p :
  vinst env null zero n i = Some r -> source_instr i = true ->
  instr_requires p i (instr_effects p (plain_step again p i) i) (plain_step again p i).
Proof.
  intros Hv%vinst_visits Hs. unfold newList in Hv. rewrite !Forall_app in Hv. destruct Hv as (Hpre & Hact & Hpost).
  unfold Casts.instr_effects, casts_before.
  destruct i as [lv e|ret f args]; cbn [source_instr] in Hs; rewrite ?andb_true_iff in Hs.
  - destruct Hs as [Hsl Hse]. cbn [actionInstrs] in Hact.
    apply Forall_cons in Hact as [He Hact]. apply Forall_cons in Hact as [[Hlv _] _].
    rewrite <- !app_assoc. apply requires_set;
      [by apply exp_checks_exists|by apply lval_casts_exist| |by apply store_rule_exists].
    cbn [plain_step]. rewrite <- (write_again_same env null zero p no_tmps lv _ Hsl). by apply written_exists.
  - destruct Hs as [[Hsl Hsf] Hsa].
    assert (Hargs : checks_args env f = true -> fexp_accepted f /\ Forall accepted (map makeCheckArgArg args)).
    { cbn [precondCheckInstrs] in Hpre. intros Hc. rewrite Hc in Hpre. by apply Forall_cons in Hpre as [H _]. }
    assert (Hva : Forall tinstr_accepted (vaArgCheckInstrs env (first_temps n) f args) ->
      forall e ts, va_arg_written f args = Some (e, ts) -> accepted e).
    { intros Hva e ts Hw. unfold vaArgCheckInstrs in Hva. rewrite Hw in Hva. by apply Forall_cons in Hva as [H _]. }
    destruct (callee (feval eval p no_tmps f) (map (eval p no_tmps) args) p) as [v p0] eqn:Hcall.
    cbn [plain_step]. rewrite Hcall. cbn [fst].
    destruct ret as [lv|]; cbn [actionInstrs postcondCheckInstrs] in Hact, Hpost.
    + apply Forall_cons in Hact as [[Hf Ha] Hact]. apply Forall_cons in Hact as [[Hlv _] _].
      rewrite !Forall_app in Hpost. destruct Hpost as (_ & _ & Hpost). rewrite <- !app_assoc.
      eapply requires_call; [by apply args_rule_exists|by apply fexp_casts_exists|by apply exps_checks_exists|
        by apply lval_casts_exist|exact Hcall|by apply written_exists|by apply store_rule_exists|
        by apply return_rule_exists|apply va_rule_exists; [by apply Hva|done]].
    + apply Forall_cons in Hact as [[Hf Ha] _]. rewrite <- !app_assoc. cbn [app].
      eapply requires_call_void; [by apply args_rule_exists|by apply fexp_casts_exists|by apply exps_checks_exists|
        exact Hcall|apply va_rule_exists; [by apply Hva|done]].
Qed.

Lemma program_requires_exists prog : forall n ts p,
  instrument env null zero n prog = Some ts -> forallb source_instr prog = true ->
  program_requires prog p (program_effects uniqtype_of env null zero prog p) (plain_run again prog p).
Proof.
  induction prog as [|i prog IH]; intros n ts p; cbn [instrument forallb program_effects].
  { intros _ _. constructor. }
  intros ([ts1 n1] & Hi & Hrest)%bind_Some [Hsi Hsp]%andb_prop.
  apply bind_Some in Hrest as (ts2 & Hp & _). econstructor; [by eapply instr_requires_exists|by eapply IH].
Qed.


End rules.

(** ** An example: the program of [CastChecks.v] *)
#[local] Existing Instance ex_cil.
#[local] Existing Instance ex_callees.
Abbreviation ex_requires := (program_requires (L := tiny) ex_uniqtype sloppy_options ex_no ex_no).

