(* ===== verification/AddrBounds.v ===== *)
(** * Bounds that the front end computes itself

    The bounds of the address of a variable or of a part of it, and of a string
    literal, need no fetching: the front end
    ([src/frontend/c/crunchbound/crunchbound.ml], [handleAddrOfVarOrField] and
    the cases for literals in [boundsDescrForExpr]) writes down expressions for
    base and limit.  The file models these, and the code that it emits for
    pointer differences, and evaluates them.  The types and addresses of lvalues
    are CIL's and the compiler's: parameters. *)
From S2P Require Import Prelude Config TrapPtr Bounds Init BoundsLayout.

(** ** The address of a variable or a part of it *)

(** [multiplyAccumulateArrayBounds] may raise [Not_found], or fail. *)
Inductive accumulated := Accumulated (count : Z) (elt : ctype) | NotFound | Failure.
Fixpoint multiplyAccumulateArrayBounds (acc : Z) (t : ctype) : accumulated :=
  match t with
  | TArray _ Unbounded => NotFound
  | TArray at_ (Constant n) => multiplyAccumulateArrayBounds (int64 (acc * n)) at_
  | TArray _ NonConstant => Failure
  | TNamed ttype => multiplyAccumulateArrayBounds acc ttype
  | _ => Accumulated acc t
  end.

(** The indexes at the end of an offset, and what is before them. *)
Section split.
Context {I : Type}.

Fixpoint splitLeadingIndexesAndReverse (revAccIndexes offlist : list (step I)) : list (step I) * list (step I) :=
  match offlist with
  | [] => (revAccIndexes, [])
  | Field _ _ :: _ => (revAccIndexes, rev offlist)
  | Index intExp :: more => splitLeadingIndexesAndReverse (Index intExp :: revAccIndexes) more
  end.
Definition splitTrailingIndexes (offlist : list (step I)) : list (step I) * list (step I) :=
  splitLeadingIndexesAndReverse [] (rev offlist).
End split.

Section address.
Context {E : Type} (user : E -> Z).
Abbreviation offset := (list (step (iexp E))).
Implicit Types (o : offset).

(** The lvalues of one host: their types, the sizes of types, and addresses.
    [undefined] is [tsIsUndefinedType]. *)
Context (typeOf : ctype -> offset -> ctype) (undefined : ctype -> bool) (sizeof : ctype -> Z).
Context (host : ctype) (address : offset -> Z).

(** The values of the two expressions, as [unsigned long]s; [None] inside is
    [MustFetch(UnknownOrigin)], outside a failure. *)
Definition handleAddrOfVarOrField (someOffset : offset) : option (option (Z * Z)) :=
  let '(trailingIndexes, leadingOthers) := splitTrailingIndexes someOffset in
  let indexedType := typeOf host leadingOthers in
  match multiplyAccumulateArrayBounds 1 indexedType with
  | Accumulated arrayElementCount arrayElementT =>
      let baseExpr := address leadingOthers in
      let limitExpr := baseExpr +w
        wrap64 (arrayElementCount * (if undefined arrayElementT then 1 else sizeof arrayElementT)) in
      Some (Some (baseExpr, limitExpr))
  | NotFound => Some None
  | Failure => None
  end.

(** [AddrOf] takes the offset as it is; [StartOf] that of the first element. *)
Definition boundsDescr_AddrOf (someOffset : offset) : option (option (Z * Z)) :=
  handleAddrOfVarOrField someOffset.
Definition boundsDescr_StartOf (someOffset : offset) : option (option (Z * Z)) :=
  handleAddrOfVarOrField (someOffset ++ [Index (IConst 0)]).
End address.

(** The values of the expressions for literals: an address, the characters,
    and for wide ones the size of a character ([wchar_t]). *)
Definition boundsDescr_CStr (addr : Z) (s : string) : Z * Z :=
  (addr, addr +w Z.of_nat (1 + String.length s)).
Definition boundsDescr_CWStr (addr sizeof_wchar : Z) (s : list Z) : Z * Z :=
  (addr, addr +w Z.of_nat (1 + length s) * sizeof_wchar).

(** ** Pointer differences

    [BinOp(MinusPP, e1, e2)] becomes a division of the difference of the
    addresses, trapped pointers detrapped first, by the size of what they point
    to.  All of it is [unsigned long], since [sizeof] is; the surrounding program
    reads the quotient as a [long]. *)
Definition minusPP `{Config} (might1 might2 : bool) (e1 e2 size_of_target : Z) : outcome Z :=
  if might1 || might2 then
    let e1ToUse := if might1 then libcrunch_detrap e1 else e1 in
    let e2ToUse := if might2 then libcrunch_detrap e2 else e2 in
    if size_of_target =? 0 then Unreachable
    else Ret (signed64 ((e1ToUse -w e2ToUse) / size_of_target))
  else if size_of_target =? 0 then Unreachable
  else Ret ((e1 - e2) ÷ size_of_target).

(** ** What is taken of types and addresses *)
Class CilSizes (sizeof : ctype -> Z) : Prop := {
  sizeof_nonneg t : 0 <= sizeof t;
  sizeof_named t : sizeof (TNamed t) = sizeof t;
  sizeof_array t n : 0 <= n -> sizeof (TArray t (Constant n)) = n * sizeof t;
}.
Class CilAddresses {E : Type} (user : E -> Z) (typeOf : ctype -> list (step (iexp E)) -> ctype)
    (sizeof : ctype -> Z) (host : ctype) (address : list (step (iexp E)) -> Z) : Prop := {
  addr_types :: CilTypes typeOf;
  addr_sizes :: CilSizes sizeof;
  address_index o i : address (o ++ [Index i]) = address o + eval user i * sizeof (typeOf host (o ++ [Index i]));
}.

(** ** Taking an offset apart *)
Section split_spec.
Context {I : Type}.
Implicit Types (o lead tr : list (step I)).

(** The arrays at the end of an offset that are indexed. *)
Definition is_index (s : step I) : bool := match s with Index _ => true | _ => false end.

Lemma split_indexes tr : forall acc rest,
  forallb is_index tr = true -> (rest = [] \/ exists fs fi rest', rest = Field fs fi :: rest') ->
  splitLeadingIndexesAndReverse acc (rev tr ++ rest) = (tr ++ acc, rev rest).
Proof.
  induction tr as [|s tr IH] using rev_ind; intros acc rest Hall Hrest.
  - cbn [rev app]. destruct Hrest as [->|(fs & fi & rest' & ->)]; done.
  - rewrite forallb_app in Hall. apply andb_true_iff in Hall as [Htr Hs]. cbn in Hs.
    destruct s as [|i]; [done|]. rewrite rev_app_distr. cbn [rev app splitLeadingIndexesAndReverse].
    rewrite IH by done. by rewrite <- app_assoc.
Qed.

(** An offset is a part that ends in a field, or nothing, and indexes. *)
Definition no_trailing_index o : Prop := o = [] \/ exists o' fs fi, o = o' ++ [Field fs fi].
Lemma split_trailing lead tr :
  no_trailing_index lead -> forallb is_index tr = true -> splitTrailingIndexes (lead ++ tr) = (tr, lead).
Proof.
  intros Hl Htr. unfold splitTrailingIndexes. rewrite rev_app_distr, split_indexes; [by rewrite app_nil_r, rev_involutive|done|].
  destruct Hl as [->|(o & fs & fi & ->)]; [by left|]. right. rewrite rev_app_distr. by eexists _, _, _.
Qed.
End split_spec.

(** ** The elements of nested arrays *)
Section elements.
Context (sizeof : ctype -> Z) `{!CilSizes sizeof}.

(** The elements of all nested arrays make up the array. *)
Fixpoint bounded_array (t : ctype) : bool :=
  match t with
  | TArray t (Constant n) => (0 <=? n) && bounded_array t
  | TArray _ _ => false
  | TNamed t => bounded_array t
  | _ => true
  end.
Fixpoint element (t : ctype) : ctype :=
  match t with TArray t _ => element t | TNamed t => element t | _ => t end.
Fixpoint elements (t : ctype) : Z :=
  match t with TArray t (Constant n) => n * elements t | TArray _ _ => 0 | TNamed t => elements t | _ => 1 end.

Lemma elements_nonneg t : bounded_array t = true -> 0 <= elements t.
Proof.
  induction t as [| | | | | |p|t b IH|t IH|s fs _] using ctype_ind'; cbn; intros Ht; try lia; [|by auto].
  destruct b; [done..|]. apply andb_true_iff in Ht as [?%Z.leb_le ?]. specialize (IH ltac:(done)). nia.
Qed.
Lemma sizeof_elements t : bounded_array t = true -> sizeof t = elements t * sizeof (element t).
Proof.
  induction t as [| | | | | |p|t b IH|t IH|s fs _] using ctype_ind'; cbn [elements element bounded_array]; try lia.
  - destruct b; [done..|]. intros [?%Z.leb_le Ht]%andb_true_iff. rewrite sizeof_array, IH by done. lia.
  - intros Ht. by rewrite sizeof_named, IH.
Qed.

Lemma int64_mul a n : int64 (int64 a * n) = int64 (a * n).
Proof.
  unfold int64. f_equal. rewrite Z.mul_sub_distr_r.
  rewrite <- (Z.mod_add (a * n + 2 ^ 63) (- 2 ^ 63 * n) (2 ^ 64)) by lia.
  replace (a * n + 2 ^ 63 + - 2 ^ 63 * n * 2 ^ 64) with ((a * n + 2 ^ 63) + (- (2 ^ 63 * n)) * 2 ^ 64) by lia.
  rewrite Z.mod_add by lia.
  rewrite (Z.mod_eq (a + 2 ^ 63)) by lia.
  replace (_ * n - 2 ^ 63 * n + 2 ^ 63) with ((a * n + 2 ^ 63) + (- ((a + 2 ^ 63) / 2 ^ 64 * n)) * 2 ^ 64) by lia.
  by rewrite Z.mod_add.
Qed.
Lemma accumulate t : forall acc,
  bounded_array t = true ->
  multiplyAccumulateArrayBounds (int64 acc) t = Accumulated (int64 (acc * elements t)) (element t).
Proof.
  induction t as [| | | | | |p|t b IH|t IH|s fs _] using ctype_ind'; intros acc Ht;
    cbn [multiplyAccumulateArrayBounds elements element bounded_array] in *; rewrite ?Z.mul_1_r; try done.
  - destruct b; [done..|]. apply andb_true_iff in Ht as [_ Ht]. rewrite int64_mul, IH by done. do 2 f_equal. lia.
  - by apply IH.
Qed.
End elements.

Section correctness.
Context {E : Type} (user : E -> Z) (typeOf : ctype -> list (step (iexp E)) -> ctype) (undefined : ctype -> bool).
Context (sizeof : ctype -> Z) (host : ctype) (address : list (step (iexp E)) -> Z).
Context `{A : !CilAddresses user typeOf sizeof host address}.
Implicit Types (o lead tr : list (step (iexp E))).

(** Indexing stays inside the array. *)
Lemma index_inside t (p : list (step Z)) t' :
  lands t p t' -> forall lead tr, map (step_value user) tr = p -> forallb is_index tr = true ->
  unroll (typeOf host lead) = unroll t ->
  exists d, address (lead ++ tr) = address lead + d /\ 0 <= d /\ d + sizeof t' <= sizeof t.
Proof.
  induction 1 as [t|t p t' _ IH|t n i p t' Hi _ IH|s fs fi p t' _ _ _]; intros lead tr Ho Htr Hty.
  - destruct tr; [|done]. exists 0. rewrite app_nil_r. lia.
  - rewrite sizeof_named. by apply IH.
  - destruct tr as [|[|ie] tr]; [done|done|]. cbn [map step_value] in Ho. injection Ho as <- Ho.
    cbn [forallb is_index andb] in Htr. cbn [unroll] in Hty.
    pose proof (typeOf_index host lead ie _ _ Hty) as Hel.
    destruct (IH (lead ++ [Index ie]) tr Ho Htr ltac:(by rewrite Hel)) as (d & Hd & H0 & Hlt).
    rewrite <- app_assoc in Hd. cbn [app] in Hd. rewrite address_index, Hel in Hd.
    pose proof (sizeof_nonneg t). exists (eval user ie * sizeof t + d). rewrite sizeof_array by lia.
    split; [rewrite Hd; lia|]. nia.
  - destruct tr as [|[|] tr]; done.
Qed.

(** C15. The bounds that the front end writes for the address of (a part of) a
    variable or of a field are those of the largest array around it that stays
    inside the variable or field: [lead] is the offset without its trailing
    indexes, and the bounds made from the two expressions are exactly the bytes
    of the object there, whatever the trailing indexes are.  When these are in
    range, the object whose address is taken lies inside. *)
Theorem address_of_bounds_exact `{WB : WideBounds} lead tr addr :
  no_trailing_index lead -> forallb is_index tr = true ->
  bounded_array (typeOf host lead) = true -> undefined (element (typeOf host lead)) = false ->
  elements (typeOf host lead) < 2 ^ 63 -> u64 (address lead) ->
  address lead + sizeof (typeOf host lead) < 2 ^ 64 -> u64 addr ->
  exists b l, boundsDescr_AddrOf typeOf undefined sizeof host address (lead ++ tr) = Some (Some (b, l)) /\
    boundsDescr_StartOf typeOf undefined sizeof host address (lead ++ tr) = Some (Some (b, l)) /\
    b = address lead /\ l = address lead + sizeof (typeOf host lead) /\
    (austin addr (base (make_bounds b l)) (size (make_bounds b l)) = true <->
       address lead <= addr < address lead + sizeof (typeOf host lead)) /\
    (forall t', lands (typeOf host lead) (map (step_value user) tr) t' ->
       b <= address (lead ++ tr) /\ address (lead ++ tr) + sizeof t' <= l).
Proof.
  intros Hlead Htr Hb Hun Hel Hu Hlt Ha. set (t := typeOf host lead) in *.
  pose proof (elements_nonneg t Hb) as H0. pose proof (sizeof_nonneg t) as Hs.
  pose proof (sizeof_elements sizeof t Hb) as Hse.
  assert (Hacc : multiplyAccumulateArrayBounds 1 t = Accumulated (elements t) (element t)).
  { change 1 with (int64 1). rewrite accumulate, Z.mul_1_l, int64_small by (done || lia). done. }
  assert (Hd : handleAddrOfVarOrField typeOf undefined sizeof host address (lead ++ tr) =
    Some (Some (address lead, address lead + sizeof t))).
  { unfold handleAddrOfVarOrField. rewrite split_trailing by done. fold t. rewrite Hacc, Hun, <- Hse.
    unfold u64 in Hu. rewrite (wrap64_small (sizeof t)) by (unfold u64; lia).
    unfold add64. rewrite wrap64_small by (unfold u64; lia). done. }
  exists (address lead), (address lead + sizeof t). split; [exact Hd|]. split.
  { unfold boundsDescr_StartOf. rewrite <- Hd, <- app_assoc. unfold handleAddrOfVarOrField.
    rewrite !split_trailing; rewrite ?forallb_app, ?Htr; done. }
  split; [done|]. split; [done|]. split.
  - unfold u64 in Hu. rewrite make_bounds_wide by (unfold u64; lia). cbn [base size].
    rewrite austin_spec by (unfold u64; lia || done). lia.
  - intros t' Hl. destruct (index_inside t _ t' Hl lead tr eq_refl Htr eq_refl) as (d & -> & ? & ?). lia.
Qed.
End correctness.

(** An array whose length is unknown: the bounds are fetched. *)
Theorem unbounded_array_fetched {E} (typeOf : ctype -> list (step (iexp E)) -> ctype) undefined sizeof host address o t :
  typeOf host (splitTrailingIndexes o).2 = TArray t Unbounded ->
  boundsDescr_AddrOf typeOf undefined sizeof host address o = Some None.
Proof.
  intros Ht. unfold boundsDescr_AddrOf, handleAddrOfVarOrField. destruct (splitTrailingIndexes o); cbn in *.
  by rewrite Ht.
Qed.

(** The bounds of a literal are its characters with the terminating one,
    narrow or wide. *)
Theorem literal_terminators addr s ws w :
  0 <= addr -> addr + Z.of_nat (1 + String.length s) < 2 ^ 64 -> 0 < w ->
  addr + Z.of_nat (1 + length ws) * w < 2 ^ 64 ->
  boundsDescr_CStr addr s = (addr, addr + Z.of_nat (String.length s) + 1) /\
  boundsDescr_CWStr addr w ws = (addr, addr + Z.of_nat (length ws) * w + w).
Proof.
  intros H0 Hs Hw Hws. unfold boundsDescr_CStr, boundsDescr_CWStr, add64.
  rewrite !wrap64_small by (unfold u64; nia). split; f_equal; lia.
Qed.

(** ** Differences *)
Section differences.
Context `{T : TrapConfig}.

(** The code emitted for a pointer difference ignores the tags of the
    operands and is right when the difference is not negative.  It is wrong when
    it is negative, unless the pointers are to single bytes: the division is
    unsigned, so that the result is a large positive number. *)
Theorem minusPP_spec a1 a2 t1 t2 s q :
  user_addr a1 -> user_addr a2 -> 0 <= t1 < 4 -> 0 <= t2 < 4 -> 0 < s < 2 ^ 31 -> a1 - a2 = q * s ->
  minusPP true true (libcrunch_trap a1 t1) (libcrunch_trap a2 t2) s = Ret q <-> 0 <= q \/ s = 1.
Proof.
  intros H1 H2 Ht1 Ht2 Hs Hq. unfold minusPP. cbn [orb].
  rewrite !detrap_trap_low, !detrap_id by (by left).
  rewrite (proj2 (Z.eqb_neq s 0)) by lia. unfold user_addr in *.
  destruct (Z.le_gt_cases 0 q) as [Hq0|Hq0].
  - rewrite sub64_exact by (unfold u64; nia). rewrite Hq, Z.div_mul by lia. unfold signed64.
    rewrite (proj2 (Z.ltb_lt _ _)) by nia. split; [by left|done].
  - rewrite sub64_borrow by (unfold u64; nia). rewrite Hq.
    destruct (decide (s = 1)) as [->|Hne].
    + rewrite Z.mul_1_r, Z.div_1_r. unfold signed64. rewrite (proj2 (Z.ltb_ge _ _)) by lia.
      split; [by right|]. intros _. f_equal. lia.
    + split; [|intros [?|?]; lia]. intros [= Hr]. exfalso.
      assert (0 <= (q * s + 2 ^ 64) / s < 2 ^ 63) as Hd.
      { split; [apply Z.div_pos; nia|]. apply Z.div_lt_upper_bound; nia. }
      unfold signed64 in Hr. rewrite (proj2 (Z.ltb_lt _ _)) in Hr by lia. lia.
Qed.
End differences.

(** ** Examples *)
Fixpoint ex_sizeof (t : ctype) : Z :=
  match t with
  | TInt => 4 | TPtr _ => 8 | TNamed t => ex_sizeof t
  | TArray t (Constant n) => Z.max 0 n * ex_sizeof t
  | _ => 0
  end.
#[local] Instance ex_sizes : CilSizes ex_sizeof.
Proof.
  split; [|done|].
  - intros t. induction t as [| | | | | |p|t b IH|t IH|s fs _] using ctype_ind'; cbn; try lia.
    destruct b; lia.
  - intros t n Hn. cbn. by rewrite Z.max_r.
Qed.
(** The addresses of the parts of a variable at 0x1000, fields aside. *)
Definition ex_address (host : ctype) (o : list (step (iexp unit))) : Z :=
  (fold_left (fun (ta : ctype * Z) s =>
     match s with
     | Field _ fi => (fi.2, ta.2)
     | Index i =>
         let t := match unroll ta.1 with TArray at_ _ => at_ | u => u end in
         (t, ta.2 + eval (fun _ => 2) i * ex_sizeof t)
     end) o (host, 0x1000)).2.
#[local] Instance ex_addresses host :
  CilAddresses (fun _ : unit => 2) ex_typeOf ex_sizeof host (ex_address host).
Proof.
  split; [apply _..|].
  - intros o i. unfold ex_address, ex_typeOf. rewrite !fold_left_app. cbn [fold_left].
    set (ta := fold_left _ o (host, 0x1000)). cbn [snd].
    assert (ta.1 = fold_left (fun t s => match s, unroll t with
      | Field _ fi, _ => fi.2 | Index _, TArray at_ _ => at_ | Index _, u => u end) o host) as <-; [|done].
    unfold ta. clear ta. generalize 0x1000 as a. revert host. induction o as [|s o IH]; intros host a; cbn [fold_left]; [done|].
    destruct s as [fs fi|j]; cbn [fst snd]; by rewrite IH.
Qed.

(** [&a[1][i]] with [int a[3][4]] and [i] = 2. *)
Definition ex_matrix : ctype := TArray (TNamed (TArray TInt (Constant 4))) (Constant 3).
Lemma address_of_bounds_exact_witness :
  exists b l, boundsDescr_AddrOf ex_typeOf (fun _ => false) ex_sizeof ex_matrix (ex_address ex_matrix)
      [Index (IConst 1); Index (IUser tt)] = Some (Some (b, l)) /\ b = 0x1000 /\ l = 0x1030.
Proof.
  destruct (address_of_bounds_exact (WB := split_wide (SplitConfig := config_p_split)) (fun _ : unit => 2) ex_typeOf (fun _ => false) ex_sizeof
    ex_matrix (ex_address ex_matrix) [] [Index (IConst 1); Index (IUser tt)] 0x1018)
    as (b & l & Hd & _ & Hb & Hl & _); try reflexivity.
  - left. reflexivity.
  - split; vm_compute; [discriminate|reflexivity].
  - unfold u64. lia.
  - exists b, l. split; [exact Hd|]. split; [exact Hb|exact Hl].
Defined.

(** [p - q] for [int]s, with [p] one element below [q] and tagged. *)
Lemma minusPP_spec_witness :
  @minusPP config_p true true (@libcrunch_trap config_p 0x1000 2) (@libcrunch_trap config_p 0x1004 0) 4 <> Ret (-1).
Proof.
  intros H. destruct (proj1 (minusPP_spec (T := split_trap (SplitConfig := config_p_split)) 0x1000 0x1004 2 0 4 (-1) ltac:(unfold user_addr; lia)
    ltac:(unfold user_addr; lia) ltac:(lia) ltac:(lia) ltac:(lia) ltac:(lia)) H); lia.
Defined.
