(* ===== verification/BoundsDescr.v ===== *)
(** * Where the bounds of a pointer expression come from

    For a pointer that is written, derived from or passed, the front end
    ([src/frontend/c/crunchbound/crunchbound.ml]) decides whether its bounds are
    in a bounds variable, can be written down, or must be fetched, and from where
    ([boundsDescrForExpr]), having simplified the expression;
    [localBoundsUpdateInstrs] is the code that then sets a bounds variable.  The
    file models these on CIL's expressions and proves that the bounds are those of
    the object that the pointer is derived from.

    CIL and liballocs' helpers for it are submodules: CIL's types, [typeOf], the
    sizes of types, the constructor [mkAddrOrStartOf] and the recognition of null
    pointers are parameters ([Cil]), and so is the simplification ([Simplifier]),
    which must keep the object a pointer belongs to.  The one in
    [src/frontend/c/shadow/shadow.ml] ([simplifyPtrExprs]) does.  An index carries
    the type of the element that it selects, which CIL finds with [typeOf]. *)
From stdpp Require Import functions.
From S2P Require Import Prelude Config TrapPtr Bounds Derive Memory ShadowSpace Runtime TinyAllocs Fetch.
From S2P Require Import Init BoundsLayout AddrBounds.

(** ** CIL's expressions *)
Record varinfo := Varinfo { vname : nat; vglob : bool; vextern : bool; vtype : ctype }.
Inductive binop := PlusPI | MinusPI | PlusA | Mult | OtherOp (n : nat).
Inductive exp (T : Type) :=
| CInt (n : Z)
| CStr (s : string) | CWStr (s : list Z)
| Lval (h : lhost T) (o : offset T) | AddrOf (h : lhost T) (o : offset T) | StartOf (h : lhost T) (o : offset T)
| SizeOf (t : ctype)
| UnOp (op : nat) (e : exp T) (t : T)
| BinOp (op : binop) (e1 e2 : exp T) (t : T)
| CastE (t : T) (e : exp T)
with lhost (T : Type) := Var (v : varinfo) | Mem (e : exp T)
with offset (T : Type) :=
| NoOffset | FieldOff (fcomp : list fieldinfo) (fi : fieldinfo) (o : offset T)
| IndexOff (elt : ctype) (e : exp T) (o : offset T).
Arguments CInt {T}. Arguments CStr {T}. Arguments CWStr {T}.
Arguments Lval {T}. Arguments AddrOf {T}. Arguments StartOf {T}. Arguments SizeOf {T}.
Arguments UnOp {T}. Arguments BinOp {T}. Arguments CastE {T}.
Arguments Var {T}. Arguments Mem {T}.
Arguments NoOffset {T}. Arguments FieldOff {T}. Arguments IndexOff {T}.

Scheme exp_mut := Induction for exp Sort Prop
  with lhost_mut := Induction for lhost Sort Prop
  with offset_mut := Induction for offset Sort Prop.
Combined Scheme exp_mutind from exp_mut, lhost_mut, offset_mut.

(** What the code takes of CIL and of its helpers: [same] tells types apart by
    their concrete signatures, [same_decayed] after decaying arrays. *)
Class Cil (T : Type) := {
  typeOf : exp T -> T;
  layout : T -> ctype;
  isPointerType : T -> bool;
  same : T -> T -> bool;
  same_decayed : T -> T -> bool;
  ulongType : T;
  pointee : exp T -> ctype;
  typeOfOffset : ctype -> list (step (iexp (ctype * exp T))) -> ctype;
  mkAddrOrStartOf : lhost T -> offset T -> exp T;
  isStaticallyNullPtr : exp T -> bool;
  isStaticallyZero : exp T -> bool;
  undefined : ctype -> bool;
}.

Definition step_map {I J : Type} (f : I -> J) (s : step I) : step J :=
  match s with Field fcomp fi => Field fcomp fi | Index i => Index (f i) end.

(** What simplifies pointer expressions. *)
Class Simplifier (T : Type) := simplify : exp T -> exp T.

Section offsets.
Context {T : Type}.
Implicit Types (o : offset T).

Fixpoint offsetToList o : list (step (ctype * exp T)) :=
  match o with
  | NoOffset => []
  | FieldOff fcomp fi o => Field fcomp fi :: offsetToList o
  | IndexOff elt e o => Index (elt, e) :: offsetToList o
  end.
Fixpoint offsetFromList (l : list (step (ctype * exp T))) : offset T :=
  match l with
  | [] => NoOffset
  | Field fcomp fi :: l => FieldOff fcomp fi (offsetFromList l)
  | Index (elt, e) :: l => IndexOff elt e (offsetFromList l)
  end.
Definition appended o1 o2 : offset T := offsetFromList (offsetToList o1 ++ offsetToList o2).

(** The offset as [BoundsLayout.v] has it. *)
Definition lift : step (ctype * exp T) -> step (iexp (ctype * exp T)) := step_map IUser.

Fixpoint offsetContainsField o : bool :=
  match o with NoOffset => false | FieldOff _ _ _ => true | IndexOff _ _ rest => offsetContainsField rest end.

Fixpoint uncastExpr (e : exp T) : exp T := match e with CastE _ sub => uncastExpr sub | _ => e end.
End offsets.

(** ** Simplification

    [simplifyPtrExprs] of [shadow.ml]. *)
Section simplification.
Context {T : Type} `{Cil T}.

Definition simplifyTop (w : exp T) : exp T :=
  match w with
  | Lval (Mem (AddrOf (Mem a) aoff)) off => Lval (Mem a) (appended aoff off)
  | Lval (Mem (AddrOf (Var v) aoff)) off => Lval (Var v) (appended aoff off)
  | AddrOf (Mem a) NoOffset => a
  | StartOf (Mem s) NoOffset => s
  | _ => w
  end.
Fixpoint simplifyPtrExprs (someE : exp T) : exp T :=
  simplifyTop
    match someE with
    | Lval h o => Lval (simplifyHost h) (simplifyOffset o)
    | UnOp op sub t => UnOp op (simplifyPtrExprs sub) t
    | BinOp op sub1 sub2 t => BinOp op (simplifyPtrExprs sub1) (simplifyPtrExprs sub2) t
    | CastE t sub =>
        let simplifiedSubE := simplifyPtrExprs sub in
        if same t (typeOf simplifiedSubE) then simplifiedSubE else CastE t simplifiedSubE
    | AddrOf h o => AddrOf (simplifyHost h) (simplifyOffset o)
    | StartOf h o => StartOf (simplifyHost h) (match h with Var _ => simplifyOffset o | Mem _ => o end)
    | e => e
    end
with simplifyHost (h : lhost T) : lhost T :=
  match h with Var v => Var v | Mem sub => Mem (simplifyPtrExprs sub) end
with simplifyOffset (o : offset T) : offset T :=
  match o with
  | NoOffset => NoOffset
  | FieldOff fcomp fi rest => FieldOff fcomp fi (simplifyOffset rest)
  | IndexOff elt intExp rest => IndexOff elt (simplifyPtrExprs intExp) (simplifyOffset rest)
  end.

(** Its equations. *)
Lemma simplify_Lval h o : simplifyPtrExprs (Lval h o) = simplifyTop (Lval (simplifyHost h) (simplifyOffset o)).
Proof. done. Qed.
Lemma simplify_AddrOf h o : simplifyPtrExprs (AddrOf h o) = simplifyTop (AddrOf (simplifyHost h) (simplifyOffset o)).
Proof. done. Qed.
Lemma simplify_StartOf h o :
  simplifyPtrExprs (StartOf h o) =
  simplifyTop (StartOf (simplifyHost h) (match h with Var _ => simplifyOffset o | Mem _ => o end)).
Proof. done. Qed.
Lemma simplify_UnOp op e t : simplifyPtrExprs (UnOp op e t) = UnOp op (simplifyPtrExprs e) t.
Proof. done. Qed.
Lemma simplify_BinOp op e1 e2 t :
  simplifyPtrExprs (BinOp op e1 e2 t) = BinOp op (simplifyPtrExprs e1) (simplifyPtrExprs e2) t.
Proof. done. Qed.
Lemma simplify_CastE t e :
  simplifyPtrExprs (CastE t e) =
  simplifyTop (if same t (typeOf (simplifyPtrExprs e)) then simplifyPtrExprs e else CastE t (simplifyPtrExprs e)).
Proof. done. Qed.
Lemma simplifyHost_Mem e : simplifyHost (Mem e) = Mem (simplifyPtrExprs e).
Proof. done. Qed.
Lemma simplifyOffset_Index t e o :
  simplifyOffset (IndexOff t e o) = IndexOff t (simplifyPtrExprs e) (simplifyOffset o).
Proof. done. Qed.
End simplification.
Create Rewrite HintDb simplified.
#[export] Hint Rewrite @simplify_Lval @simplify_AddrOf @simplify_StartOf @simplify_UnOp @simplify_BinOp @simplify_CastE
  @simplifyHost_Mem @simplifyOffset_Index : simplified.

(** ** Descriptions *)
Inductive bounds_fetch_origin (T : Type) :=
| UnknownOrigin | LoadedFrom (h : lhost T) (o : offset T) | ExternArray (v : varinfo).
Arguments UnknownOrigin {T}. Arguments LoadedFrom {T}. Arguments ExternArray {T}.
(** An element of a bounds variable; [None] is the whole of it. *)
Definition bounds_lval (T : Type) : Type := varinfo * option (iexp (ctype * exp T)).
Inductive bounds_expr (T : Type) :=
| BoundsLval (blv : bounds_lval T)
| BoundsBaseLimitRvals (baseExpr limitExpr : exp T)
| MustFetch (from : bounds_fetch_origin T).
Arguments BoundsLval {T}. Arguments BoundsBaseLimitRvals {T}. Arguments MustFetch {T}.

(** An OCaml function returns, fails ([failwith]), or raises [Not_found];
    [NoFuel] is none of the program's. *)
Inductive answer (A : Type) := Answer (a : A) | Failwith | Not_found | NoFuel.
Arguments Answer {A}. Arguments Failwith {A}. Arguments Not_found {A}. Arguments NoFuel {A}.
#[export] Instance answer_bind : MBind answer := fun A B f m =>
  match m with Answer a => f a | Failwith => Failwith | Not_found => Not_found | NoFuel => NoFuel end.
Definition or_failwith {A} (o : option A) : answer A := match o with Some a => Answer a | None => Failwith end.
(** [try m with Not_found -> d] *)
Definition try_with {A} (m : answer A) (d : A) : answer A := match m with Not_found => Answer d | m => m end.

Section descriptions.
Context {T : Type} `{Cil T} `{Simplifier T}.
(** The options [--no-object-type-info], [--void-ptr-has-bounds]; the names of
    the address-taken locals of the current function. *)
Context (noObjectTypeInfo voidPtrHasBounds : bool) (currentFuncAddressTakenLocalNames : list nat).
Abbreviation zero := (@CInt T 0).
Abbreviation one := (@CInt T 1).

Definition varinfoIsLocal (vi : varinfo) : bool :=
  negb (vglob vi) && negb (bool_decide (vname vi ∈ currentFuncAddressTakenLocalNames)).
Definition hostIsLocal (h : lhost T) : bool := match h with Var vi => varinfoIsLocal vi | Mem _ => false end.

Definition isPointerTypeNeedingBounds (t : T) : option bool :=
  if isPointerType t then typeNeedsBounds voidPtrHasBounds (layout t) else Some false.

Definition castNeedsFreshBounds (sourceE : exp T) (targetT : T) : option bool :=
  let sourceT := typeOf sourceE in
  if noObjectTypeInfo && isPointerType sourceT then Some false
  else
    needs ← typeNeedsBounds voidPtrHasBounds (layout targetT);
    if negb needs then Some false
    else if isStaticallyNullPtr sourceE || isStaticallyZero sourceE then Some false
    else if negb (same_decayed sourceT targetT) then Some true
    else had ← typeNeedsBounds voidPtrHasBounds (layout sourceT); Some (negb had).

(** The lvalue that a pointer was loaded from. *)
Fixpoint getStoredPtrLvalForPtrExp (ptrE : exp T) : option (option (lhost T * offset T)) :=
  match ptrE with
  | Lval lh lo => Some (Some (lh, lo))
  | StartOf (Mem memExp) NoOffset => getStoredPtrLvalForPtrExp memExp
  | CastE _ subE =>
      if noObjectTypeInfo then
        b ← isPointerTypeNeedingBounds (typeOf subE);
        if (b : bool) then getStoredPtrLvalForPtrExp subE else Some None
      else Some None
  | _ => Some None
  end.

Definition localLvalToBoundsFun (vi : varinfo) (o : offset T) : answer (bounds_expr T) :=
  match boundsLvalForLocalLval voidPtrHasBounds typeOfOffset (vtype vi) (map lift (offsetToList o)) with
  | Some index => Answer (BoundsLval (vi, index))
  | None => Failwith
  end.

Definition hostType (h : lhost T) : ctype := match h with Var vi => vtype vi | Mem e => pointee e end.
Definition handleAddrOfVarOrField (someHost : lhost T) (someOffset : offset T) : answer (bounds_expr T) :=
  let '(trailingIndexes, leadingOthers) := splitTrailingIndexes (offsetToList someOffset) in
  match multiplyAccumulateArrayBounds 1 (typeOfOffset (hostType someHost) (map lift leadingOthers)) with
  | Accumulated arrayElementCount arrayElementT =>
      let baseExpr := CastE ulongType (mkAddrOrStartOf someHost (offsetFromList leadingOthers)) in
      let limitExpr := BinOp PlusA baseExpr
        (BinOp Mult (CInt arrayElementCount) (if undefined arrayElementT then one else SizeOf arrayElementT)
           ulongType) ulongType in
      Answer (BoundsBaseLimitRvals baseExpr limitExpr)
  | NotFound => Not_found
  | Failure => Failwith
  end.

(** [someOffset @ [Index(zero, NoOffset)]]. *)
Definition atFirstElement (h : lhost T) (o : offset T) : offset T :=
  let elt := match unroll (typeOfOffset (hostType h) (map lift (offsetToList o))) with TArray t _ => t | t => t end in
  offsetFromList (offsetToList o ++ [Index (elt, zero)]).

Definition isExternUnbounded (vi : varinfo) : bool :=
  vextern vi && match unroll (vtype vi) with TArray _ Unbounded => true | _ => false end.

(** The object that a local pointer points to, or an element of it. *)
Definition dereferenced_local (default : bounds_expr T) (memExp : exp T) : answer (bounds_expr T) :=
  match memExp with
  | Lval (Var lvi) varOff => if varinfoIsLocal lvi then localLvalToBoundsFun lvi varOff else Answer default
  | _ => Answer default
  end.

(** The literal's characters, the terminating one included. *)
Definition literal_rvals (lit : exp T) (len : exp T) : bounds_expr T :=
  BoundsBaseLimitRvals (CastE ulongType lit) (BinOp PlusA (CastE ulongType lit) len ulongType).

(** The type of wide characters, and [int], the type of the product. *)
Context (wcharType : ctype) (intType : T).

(** What a pointer that is not local was loaded from. *)
Definition maybeLoadedFromLv (simplifiedPtrExp : exp T) : answer (option (lhost T * offset T)) :=
  stored ← or_failwith (getStoredPtrLvalForPtrExp simplifiedPtrExp);
  match stored with
  | Some (loadHost, _) => if hostIsLocal loadHost then Failwith else Answer stored
  | None => Answer None
  end.

(** The cases, [boundsDescr] being the recursive call.  The patterns for local
    lvalues and additions to them, which the code repeats after
    [maybeLoadedFromLv], have been taken before. *)
Definition boundsDescr_cases (boundsDescr : exp T -> answer (bounds_expr T)) (e : exp T) : answer (bounds_expr T) :=
  if isStaticallyNullPtr e then Answer (BoundsBaseLimitRvals zero one)
  else
    let simplifiedPtrExp := if noObjectTypeInfo then uncastExpr (simplify e) else simplify e in
    let no_local_bounds :=
      maybe ← maybeLoadedFromLv simplifiedPtrExp;
      let default :=
        MustFetch match maybe with None => UnknownOrigin | Some (lh, lo) => LoadedFrom lh lo end in
      match simplifiedPtrExp with
      | AddrOf (Var someVi) someOffset =>
          try_with (handleAddrOfVarOrField (Var someVi) someOffset) (MustFetch UnknownOrigin)
      | StartOf (Var someVi) someOffset =>
          try_with (handleAddrOfVarOrField (Var someVi) (atFirstElement (Var someVi) someOffset))
            (MustFetch (if isExternUnbounded someVi then ExternArray someVi else UnknownOrigin))
      | AddrOf (Mem memExp) someOffset =>
          if offsetContainsField someOffset then handleAddrOfVarOrField (Mem memExp) someOffset
          else dereferenced_local default memExp
      | StartOf (Mem memExp) someOffset =>
          if offsetContainsField someOffset
          then handleAddrOfVarOrField (Mem memExp) (atFirstElement (Mem memExp) someOffset)
          else dereferenced_local default memExp
      | CastE targetT subE =>
          fresh ← or_failwith (castNeedsFreshBounds subE targetT);
          if (fresh : bool) then Answer default else boundsDescr subE
      | CStr s => Answer (literal_rvals (CStr s) (CInt (Z.of_nat (1 + String.length s))))
      | CWStr s =>
          Answer (literal_rvals (CWStr s) (BinOp Mult (CInt (Z.of_nat (1 + length s))) (SizeOf wcharType) intType))
      | _ => Answer default
      end in
    match simplifiedPtrExp with
    | Lval (Var vi) offs => if varinfoIsLocal vi then localLvalToBoundsFun vi offs else no_local_bounds
    | BinOp PlusPI ptrE _ _ | BinOp MinusPI ptrE _ _ => boundsDescr ptrE
    | _ => no_local_bounds
    end.
Fixpoint boundsDescrForExpr (fuel : nat) (e : exp T) : answer (bounds_expr T) :=
  match fuel with O => NoFuel | S fuel => boundsDescr_cases (boundsDescrForExpr fuel) e end.

(** [hoistCast] gives up unless the description of its cast is [UnknownOrigin]. *)
Definition hoistCast_accepts (d : answer (bounds_expr T)) : bool :=
  match d with Answer (MustFetch UnknownOrigin) => true | _ => false end.

(** Which pointers are detrapped before they become integers. *)
Definition mightBeTrappedPointer (ptrE : exp T) : bool :=
  match ptrE with
  | AddrOf (Var _) _ | StartOf (Var _) _ => false
  | CastE _ (AddrOf (Var _) _) | CastE _ (StartOf _ _) => false
  | CInt _ | CStr _ | CWStr _ => false
  | _ => true
  end.
End descriptions.

(** ** Updates *)
Inductive bounds_instr (T : Type) :=
| CallMakeBounds (blv : bounds_lval T) (baseExpr limitExpr : exp T)
| SetBounds (blv otherBlv : bounds_lval T)
| CallFetchInl (blv : bounds_lval T) (ptrE : exp T) (h : lhost T) (o : offset T)
| CallFetchOol (blv : bounds_lval T) (ptrE loaded_from : exp T)
| CallMakeInvalid (blv : bounds_lval T) (ptrE : exp T).
Arguments CallMakeBounds {T}. Arguments SetBounds {T}. Arguments CallFetchInl {T}.
Arguments CallFetchOol {T}. Arguments CallMakeInvalid {T}.

(** Whether two elements are recognised as the same one; that the code also
    takes physically equal ones for the same only saves an assignment of an
    element to itself. *)
Definition sameVi {T} (blv otherBlv : bounds_lval T) : bool :=
  match blv, otherBlv with
  | (vi1, None), (vi2, None) => bool_decide (vname vi1 = vname vi2)
  | (vi1, Some (IConst n1)), (vi2, Some (IConst n2)) => bool_decide (vname vi1 = vname vi2) && (n1 =? n2)
  | _, _ => false
  end.
Definition makeCallToMakeBounds {T} `{Cil T} (blv : bounds_lval T) (baseExpr limitExpr : exp T) : bounds_instr T :=
  CallMakeBounds blv (CastE ulongType baseExpr) (CastE ulongType limitExpr).
Definition localBoundsUpdateInstrs {T} `{Cil T} (doFetchOol : bool) (blv : bounds_lval T) (ptrE : exp T)
    (boundsDescr : bounds_expr T) : list (bounds_instr T) :=
  match boundsDescr with
  | BoundsBaseLimitRvals baseExpr limitExpr => [makeCallToMakeBounds blv baseExpr limitExpr]
  | BoundsLval otherBlv => if sameVi blv otherBlv then [] else [SetBounds blv otherBlv]
  | MustFetch (LoadedFrom lh lo) => [CallFetchInl blv ptrE lh lo]
  | MustFetch _ => if doFetchOol then [CallFetchOol blv ptrE (CInt 0)] else [CallMakeInvalid blv ptrE]
  end.

(** ** The values of expressions

    Pointers are addresses here, and what is loaded is a word of memory.  The
    rest of C's arithmetic, the conversions, and where variables, literals and
    fields are, is the compiler's. *)
Class Compiled (T : Type) := {
  sizeof : ctype -> Z;
  variable_address : varinfo -> Z;
  narrow_literal : string -> Z;
  wide_literal : list Z -> Z;
  field_offset : list fieldinfo -> fieldinfo -> Z;
  convert : T -> Z -> Z;
  unary : nat -> T -> Z -> Z;
  binary : binop -> T -> Z -> Z -> Z;
}.

Section values.
Context {T : Type} `{Compiled T} (m : mem).

Fixpoint value (e : exp T) : Z :=
  match e with
  | CInt n => n
  | CStr s => narrow_literal s
  | CWStr s => wide_literal s
  | Lval h o => load8 m (host_value h + offset_value o)
  | AddrOf h o | StartOf h o => host_value h + offset_value o
  | SizeOf t => sizeof t
  | UnOp op e t => unary op t (value e)
  | BinOp op e1 e2 t => binary op t (value e1) (value e2)
  | CastE t e => convert t (value e)
  end
with host_value (h : lhost T) : Z := match h with Var v => variable_address v | Mem e => value e end
with offset_value (o : offset T) : Z :=
  match o with
  | NoOffset => 0
  | FieldOff fcomp fi o => field_offset fcomp fi + offset_value o
  | IndexOff elt e o => value e * sizeof elt + offset_value o
  end.

(** The equations of the values. *)
Lemma value_Lval h o : value (Lval h o) = load8 m (host_value h + offset_value o).
Proof. done. Qed.
Lemma value_AddrOf h o : value (AddrOf h o) = host_value h + offset_value o.
Proof. done. Qed.
Lemma value_StartOf h o : value (StartOf h o) = host_value h + offset_value o.
Proof. done. Qed.
Lemma value_UnOp op e t : value (UnOp op e t) = unary op t (value e).
Proof. done. Qed.
Lemma value_BinOp op e1 e2 t : value (BinOp op e1 e2 t) = binary op t (value e1) (value e2).
Proof. done. Qed.
Lemma value_CastE t e : value (CastE t e) = convert t (value e).
Proof. done. Qed.
Lemma host_value_Mem e : host_value (Mem e) = value e.
Proof. done. Qed.
Lemma offset_value_Field fs fi o : offset_value (FieldOff fs fi o) = field_offset fs fi + offset_value o.
Proof. done. Qed.
Lemma offset_value_Index elt e o : offset_value (IndexOff elt e o) = value e * sizeof elt + offset_value o.
Proof. done. Qed.

Definition place (h : lhost T) (o : offset T) : Z := host_value h + offset_value o.
Definition index_value (i : ctype * exp T) : Z := value i.2.

(** ** Which object a pointer belongs to

    The pointer stored at an address, a variable or field with all of its
    elements, or a literal. *)
Inductive origin := Stored (a : Z) | Part (a : Z) (t : ctype) | Literal (a n : Z) | Elsewhere.
Definition lead (o : offset T) : list (step (ctype * exp T)) := (splitTrailingIndexes (offsetToList o)).2.
Definition part_of (h : lhost T) (whole : ctype) (o : offset T) : origin :=
  Part (place h (offsetFromList (lead o)))
    match last (lead o) with Some (Field _ fi) => fi.2 | _ => whole end.
Context (wcharType : ctype).
Fixpoint origin_of (e : exp T) : origin :=
  match e with
  | Lval h o => Stored (place h o)
  | AddrOf h o | StartOf h o =>
      match h with
      | Var v => part_of h (vtype v) o
      | Mem e => if offsetContainsField o then part_of h TVoid o else origin_of e
      end
  | BinOp PlusPI e _ _ | BinOp MinusPI e _ _ | CastE _ e => origin_of e
  | CStr s => Literal (narrow_literal s) (Z.of_nat (String.length s) + 1)
  | CWStr s => Literal (wide_literal s) ((Z.of_nat (length s) + 1) * sizeof wcharType)
  | _ => Elsewhere
  end.

(** Their equations. *)
Lemma origin_Lval h o : origin_of (Lval h o) = Stored (place h o).
Proof. done. Qed.
Lemma origin_BinOp op e1 e2 t :
  origin_of (BinOp op e1 e2 t) = match op with PlusPI | MinusPI => origin_of e1 | _ => Elsewhere end.
Proof. by destruct op. Qed.
Lemma origin_CastE t e : origin_of (CastE t e) = origin_of e.
Proof. done. Qed.
Lemma origin_AddrOf_Mem e o :
  origin_of (AddrOf (Mem e) o) = if offsetContainsField o then part_of (Mem e) TVoid o else origin_of e.
Proof. done. Qed.
Lemma origin_StartOf_Mem e o :
  origin_of (StartOf (Mem e) o) = if offsetContainsField o then part_of (Mem e) TVoid o else origin_of e.
Proof. done. Qed.
End values.
Create Rewrite HintDb values.
#[export] Hint Rewrite @value_Lval @value_AddrOf @value_StartOf @value_UnOp @value_BinOp @value_CastE @host_value_Mem
  @offset_value_Field @offset_value_Index @origin_Lval @origin_BinOp @origin_CastE @origin_AddrOf_Mem
  @origin_StartOf_Mem : values.

(** What is taken of CIL and the compiler: a value converted to its own type
    stays what it is; [unsigned long] arithmetic wraps ([sizeof] makes that of
    the size of a wide literal [unsigned long] too); the type of an lvalue that
    ends in a field is the field's. *)
Class CompiledLaws (T : Type) `{Cil T} `{Compiled T} (intType : T) : Prop := {
  compiled_sizes :: CilSizes sizeof;
  typeOfOffset_nil t : typeOfOffset t [] = t;
  typeOfOffset_field t o fs fi : typeOfOffset t (o ++ [Field fs fi]) = fi.2;
  convert_same m e t : same t (typeOf e) = true -> convert t (value m e) = value m e;
  convert_ulong a : u64 a -> convert ulongType a = a;
  plus_ulong a b : binary PlusA ulongType a b = a +w b;
  mult_ulong a b : binary Mult ulongType a b = wrap64 (a * b);
  mult_sizeof a b : binary Mult intType a b = wrap64 (a * b);
  value_mkAddrOrStartOf m h o : value m (mkAddrOrStartOf h o) = place m h o;
}.

(** ** Offsets *)
Section offset_lemmas.
Context {I J : Type} (f : I -> J).

Lemma split_decompose (o : list (step I)) :
  exists l tr, o = l ++ tr /\ no_trailing_index l /\ forallb is_index tr = true.
Proof.
  induction o as [|s o (l & tr & -> & Hl & Htr)] using rev_ind.
  - exists [], []. split; [done|]. split; [by left|done].
  - destruct s as [fs fi|i].
    + exists ((l ++ tr) ++ [Field fs fi]), []. rewrite app_nil_r. split; [done|]. split; [|done].
      right. by eexists _, _, _.
    + exists l, (tr ++ [Index i]). rewrite app_assoc, forallb_app, Htr. done.
Qed.
Lemma split_spec (o : list (step I)) :
  exists l tr, o = l ++ tr /\ splitTrailingIndexes o = (tr, l) /\ no_trailing_index l /\ forallb is_index tr = true.
Proof.
  destruct (split_decompose o) as (l & tr & -> & Hl & Htr). exists l, tr. by rewrite split_trailing.
Qed.
Lemma split_map (o : list (step I)) :
  (splitTrailingIndexes (map (step_map f) o)).2 = map (step_map f) (splitTrailingIndexes o).2.
Proof.
  destruct (split_spec o) as (l & tr & -> & -> & Hl & Htr). rewrite map_app, split_trailing; [done|..].
  - destruct Hl as [->|(o & fs & fi & ->)]; [by left|]. right. rewrite map_app. by eexists _, _, _.
  - rewrite <- Htr. clear Htr. induction tr as [|[] tr IH]; cbn; by rewrite ?IH.
Qed.
Lemma split_snoc (o : list (step I)) i : (splitTrailingIndexes (o ++ [Index i])).2 = (splitTrailingIndexes o).2.
Proof.
  destruct (split_spec o) as (l & tr & -> & -> & Hl & Htr).
  rewrite <- app_assoc, split_trailing by (rewrite ?forallb_app, ?Htr; done). done.
Qed.
End offset_lemmas.

Section simplified.
Context {T : Type} `{CL : CompiledLaws T} (m : mem).
Implicit Types (e : exp T) (h : lhost T) (o : offset T) (l : list (step (ctype * exp T))).
Abbreviation value := (value m).
Abbreviation offset_value := (offset_value m).
Abbreviation origin_of := (origin_of m).
Context (wcharType : ctype).

Lemma offsetFromToList o : offsetFromList (offsetToList o) = o.
Proof. induction o as [|fs fi o IH|t e o IH]; cbn; by rewrite ?IH. Qed.
Lemma offsetToFromList l : offsetToList (offsetFromList l) = l.
Proof. induction l as [|[fs fi|[t e]] l IH]; cbn; by rewrite ?IH. Qed.
Lemma offset_value_app l1 l2 :
  offset_value (offsetFromList (l1 ++ l2)) = offset_value (offsetFromList l1) + offset_value (offsetFromList l2).
Proof.
  induction l1 as [|[fs fi|[t e]] l1 IH]; cbn [app offsetFromList]; [done|..]; autorewrite with values; rewrite IH; lia.
Qed.
Lemma offset_value_appended o1 o2 : offset_value (appended o1 o2) = offset_value o1 + offset_value o2.
Proof. unfold appended. by rewrite offset_value_app, !offsetFromToList. Qed.
Lemma contains_field o : offsetContainsField o = existsb (fun s => negb (is_index s)) (offsetToList o).
Proof. induction o as [|fs fi o IH|t e o IH]; cbn; by rewrite ?IH. Qed.

(** Simplification changes the expressions of indexes only, and not their
    values. *)
Definition same_value e : Prop := value (simplifyPtrExprs e) = value e.
Definition steps_same l : Prop :=
  Forall (fun s => match s with Index i => same_value i.2 | Field _ _ => True end) l.
Definition simplify_index (i : ctype * exp T) : ctype * exp T := (i.1, simplifyPtrExprs i.2).

Lemma simplifyOffset_list o : offsetToList (simplifyOffset o) = map (step_map simplify_index) (offsetToList o).
Proof. induction o as [|fs fi o IH|t e o IH]; cbn; by rewrite ?IH. Qed.
Lemma simplified_offset_value l :
  steps_same l -> offset_value (offsetFromList (map (step_map simplify_index) l)) = offset_value (offsetFromList l).
Proof.
  induction 1 as [|s l Hs _ IH]; [done|]. destruct s as [fs fi|[t e]]; cbn [map step_map simplify_index fst snd offsetFromList];
    autorewrite with values; rewrite IH; [done|]. cbn [snd] in Hs. by rewrite Hs.
Qed.
Lemma simplifyOffset_value o : steps_same (offsetToList o) -> offset_value (simplifyOffset o) = offset_value o.
Proof.
  intros Ho. rewrite <- (offsetFromToList (simplifyOffset o)), simplifyOffset_list, simplified_offset_value by done.
  by rewrite offsetFromToList.
Qed.
Lemma simplifyOffset_field o : offsetContainsField (simplifyOffset o) = offsetContainsField o.
Proof. rewrite !contains_field, simplifyOffset_list. induction (offsetToList o) as [|[] l IH]; cbn; by rewrite ?IH. Qed.
Lemma simplifyOffset_part h h' whole o :
  host_value m h' = host_value m h -> steps_same (offsetToList o) ->
  part_of m h' whole (simplifyOffset o) = part_of m h whole o.
Proof.
  intros Hh Ho. unfold part_of, lead, place. rewrite simplifyOffset_list, split_map, Hh.
  destruct (split_spec (offsetToList o)) as (l & tr & Hl & -> & _). cbn [snd].
  rewrite simplified_offset_value by (rewrite Hl in Ho; by apply Forall_app in Ho as [? _]).
  f_equal. change (map (step_map simplify_index) l) with (step_map simplify_index <$> l).
  rewrite fmap_last. by destruct (last l) as [[]|].
Qed.

(** *** Simplification keeps the value and the object *)
Lemma simplifyTop_same e : value (simplifyTop e) = value e /\ origin_of wcharType (simplifyTop e) = origin_of wcharType e.
Proof.
  destruct e as [n|s|s|h o|h o|h o|t|op e t|op e1 e2 t|t e]; try done.
  - destruct h as [v|[n|s|s|h o'|[v|a] aoff|h o'|t|op e t|op e1 e2 t|t e]]; try done; cbn [simplifyTop];
      autorewrite with values; unfold place; rewrite offset_value_appended; autorewrite with values;
      by rewrite Z.add_assoc.
  - destruct h as [v|a], o; try done. cbn [simplifyTop]. autorewrite with values. split; [|done]. symmetry. apply Z.add_0_r.
  - destruct h as [v|a], o; try done. cbn [simplifyTop]. autorewrite with values. split; [|done]. symmetry. apply Z.add_0_r.
Qed.
Ltac at_top := match goal with |- context [simplifyTop ?w] => destruct (simplifyTop_same w) as [-> ->] end.
Lemma simplify_same :
  (forall e, value (simplifyPtrExprs e) = value e /\ origin_of wcharType (simplifyPtrExprs e) = origin_of wcharType e) /\
  (forall h, host_value m (simplifyHost h) = host_value m h /\
     match h with Var _ => True | Mem e => origin_of wcharType (simplifyPtrExprs e) = origin_of wcharType e end) /\
  (forall o, steps_same (offsetToList o)).
Proof.
  apply exp_mutind; try done.
  - intros h [Hh _] o Ho. autorewrite with simplified. at_top. autorewrite with values. unfold place.
    by rewrite Hh, simplifyOffset_value.
  - intros h [Hh Hor] o Ho. autorewrite with simplified. at_top. autorewrite with values.
    rewrite Hh, simplifyOffset_value by done. split; [done|].
    destruct h as [v|e]; autorewrite with simplified in *; [by apply simplifyOffset_part|]. autorewrite with values.
    rewrite simplifyOffset_field. destruct (offsetContainsField o); [by apply simplifyOffset_part|done].
  - intros h [Hh Hor] o Ho. autorewrite with simplified. at_top. autorewrite with values.
    destruct h as [v|e]; autorewrite with simplified in *.
    + rewrite simplifyOffset_value by done. split; [done|]. by apply simplifyOffset_part.
    + rewrite Hh. split; [done|]. autorewrite with values. destruct (offsetContainsField o); [|done].
      unfold part_of, place. by rewrite Hh.
  - intros op e [He _] t. autorewrite with simplified values. by rewrite He.
  - intros op e1 [H1 Ho1] e2 [H2 _] t. autorewrite with simplified values.
    rewrite H1, H2. split; [done|]. by destruct op.
  - intros t e [He Ho]. autorewrite with simplified. at_top.
    destruct (same t (typeOf (simplifyPtrExprs e))) eqn:Hs; autorewrite with values; rewrite ?He, Ho; [|done].
    split; [|done]. rewrite <- He. by rewrite convert_same.
  - constructor.
  - intros fs fi o Ho. by constructor.
  - intros t e [He _] o Ho. by constructor.
Qed.
End simplified.

(** ** Sizes *)
Section sizes.
Context {T : Type}.

Fixpoint exp_size (e : exp T) : nat :=
  match e with
  | Lval h o | AddrOf h o | StartOf h o => S (lhost_size h + offset_size o)
  | UnOp _ e _ | CastE _ e => S (exp_size e)
  | BinOp _ e1 e2 _ => S (exp_size e1 + exp_size e2)
  | _ => 1
  end
with lhost_size (h : lhost T) : nat := match h with Var _ => 1 | Mem e => S (exp_size e) end
with offset_size (o : offset T) : nat :=
  match o with
  | NoOffset => 0
  | FieldOff _ _ o => S (offset_size o)
  | IndexOff _ e o => S (exp_size e + offset_size o)
  end.

Lemma offset_size_app l1 l2 :
  offset_size (offsetFromList (l1 ++ l2)) = (offset_size (offsetFromList l1) + offset_size (offsetFromList l2))%nat.
Proof.
  induction l1 as [|[fs fi|[t e]] l1 IH]; cbn [app offsetFromList]; [done|..]; cbn [offset_size];
    fold (offset_size (offsetFromList (l1 ++ l2))); fold (offset_size (offsetFromList l1)); rewrite IH; lia.
Qed.
Lemma offset_size_appended o1 o2 : offset_size (appended o1 o2) = (offset_size o1 + offset_size o2)%nat.
Proof. unfold appended. by rewrite offset_size_app, !offsetFromToList. Qed.

Context `{Cil T}.
Lemma simplifyTop_size e : (exp_size (simplifyTop e) <= exp_size e)%nat.
Proof.
  destruct e as [n|s|s|h o|h o|h o|t|op e t|op e1 e2 t|t e]; try done.
  - destruct h as [v|[n|s|s|h o'|[v|a] aoff|h o'|t|op e t|op e1 e2 t|t e]]; try done; cbn [simplifyTop exp_size lhost_size];
      rewrite offset_size_appended; lia.
  - destruct h as [v|a], o; try done. cbn. lia.
  - destruct h as [v|a], o; try done. cbn. lia.
Qed.
Lemma simplify_size :
  (forall e, exp_size (simplifyPtrExprs e) <= exp_size e)%nat /\
  (forall h, lhost_size (simplifyHost h) <= lhost_size h)%nat /\
  (forall o, offset_size (simplifyOffset o) <= offset_size o)%nat.
Proof.
  apply exp_mutind; try done; intros; autorewrite with simplified; try (etransitivity; [apply simplifyTop_size|]).
  all: try (cbn; lia).
  - cbn. destruct h; cbn in *; lia.
  - destruct (same _ _); cbn; lia.
Qed.
End sizes.

(** Simplification is meant to keep the object that a pointer belongs to, and to
    make expressions no larger. *)
Class SimplifierLaws (T : Type) `{Cil T} `{Compiled T} `{Simplifier T} : Prop := {
  simplify_origin m wcharType (e : exp T) : origin_of m wcharType (simplify e) = origin_of m wcharType e;
  simplify_shrinks (e : exp T) : (exp_size (simplify e) <= exp_size e)%nat;
}.

(** [shadow.ml]'s does. *)
Lemma simplifyPtrExprs_laws {T : Type} `{CL : CompiledLaws T} : SimplifierLaws T (H1 := simplifyPtrExprs).
Proof.
  split; [intros m w e; apply (proj1 (simplify_same m w))|intros e; apply (proj1 simplify_size)].
Qed.

(** ** The description of every expression is found *)
Section fuel.
Context {T : Type} `{SL : SimplifierLaws T}.

Lemma uncast_size (e : exp T) : (exp_size (uncastExpr e) <= exp_size e)%nat.
Proof. induction e; cbn; try lia. Qed.

Context (noObjectTypeInfo voidPtrHasBounds : bool) (names : list nat) (wcharType : ctype) (intType : T).
Abbreviation boundsDescr_cases := (boundsDescr_cases noObjectTypeInfo voidPtrHasBounds names wcharType intType).
Abbreviation boundsDescrForExpr := (boundsDescrForExpr noObjectTypeInfo voidPtrHasBounds names wcharType intType).
Implicit Types (e : exp T).

(** Nothing but a recursive call can be without fuel. *)
Lemma local_fuel vi (o : offset T) : localLvalToBoundsFun voidPtrHasBounds vi o <> NoFuel.
Proof. unfold localLvalToBoundsFun. by destruct (boundsLvalForLocalLval _ _ _ _). Qed.
Lemma handle_fuel (h : lhost T) o : handleAddrOfVarOrField h o <> NoFuel.
Proof.
  unfold handleAddrOfVarOrField. destruct (splitTrailingIndexes _).
  by destruct (multiplyAccumulateArrayBounds _ _).
Qed.
Lemma try_fuel {A} (w : answer A) d : w <> NoFuel -> try_with w d <> NoFuel.
Proof. by destruct w. Qed.
Lemma dereferenced_fuel d (e : exp T) : dereferenced_local voidPtrHasBounds names d e <> NoFuel.
Proof.
  destruct e as [| | |[v|]| | | | | |]; try done. cbn. destruct (varinfoIsLocal names v); [apply local_fuel|done].
Qed.
Lemma or_failwith_fuel {A} (x : option A) : or_failwith x <> NoFuel.
Proof. by destruct x. Qed.
Lemma bind_fuel {A B} (x : answer A) (k : A -> answer B) : x <> NoFuel -> (forall a, k a <> NoFuel) -> x ≫= k <> NoFuel.
Proof. destruct x; [intros _ Hk; apply Hk|done..]. Qed.
Hint Resolve local_fuel handle_fuel try_fuel dereferenced_fuel or_failwith_fuel bind_fuel : core.

Lemma exp_size_BinOp op e1 e2 t : exp_size (BinOp op e1 e2 t) = S (exp_size e1 + exp_size e2).
Proof. done. Qed.
Lemma exp_size_CastE t e : exp_size (CastE t e) = S (exp_size e).
Proof. done. Qed.

(** Every recursive call is on a smaller expression. *)
Lemma cases_ext r1 r2 e :
  (forall e', (exp_size e' < exp_size e)%nat -> r1 e' = r2 e' /\ r1 e' <> NoFuel) ->
  boundsDescr_cases r1 e = boundsDescr_cases r2 e /\ boundsDescr_cases r1 e <> NoFuel.
Proof.
  intros Hr. unfold boundsDescr_cases. destruct (isStaticallyNullPtr e); [done|].
  set (s := if noObjectTypeInfo then _ else _).
  assert (Hs : (exp_size s <= exp_size e)%nat).
  { pose proof (simplify_shrinks e). unfold s. destruct noObjectTypeInfo; [|done].
    pose proof (uncast_size (simplify e)). lia. }
  clearbody s.
  assert (Hlf : maybeLoadedFromLv noObjectTypeInfo voidPtrHasBounds names s <> NoFuel).
  { unfold maybeLoadedFromLv. apply bind_fuel; [done|]. intros [[h o]|]; [|done]. by destruct (hostIsLocal names h). }
  destruct s as [n|l|l|[v|s] o|[v|s] o|[v|s] o|t|op s t|op s1 s2 t|t s];
    rewrite ?exp_size_BinOp, ?exp_size_CastE in Hs;
    try (split; [done|apply bind_fuel; by auto]).
  - split; [done|]. destruct (varinfoIsLocal names v); [auto|apply bind_fuel; by auto].
  - split; [done|]. apply bind_fuel; [done|]. intros a. destruct (offsetContainsField o); auto.
  - split; [done|]. apply bind_fuel; [done|]. intros a. destruct (offsetContainsField o); auto.
  - destruct op; try apply Hr; try lia; (split; [done|apply bind_fuel; by auto]).
  - destruct (maybeLoadedFromLv _ _ _ _); cbn; try done.
    destruct (castNeedsFreshBounds _ _ s t) as [[]|]; cbn; try done. apply Hr. lia.
Qed.

(** As much fuel as the expression is large is enough, and more changes nothing. *)
Lemma boundsDescr_fuel n : forall n' e,
  (exp_size e < n)%nat -> (exp_size e < n')%nat ->
  boundsDescrForExpr n e = boundsDescrForExpr n' e /\ boundsDescrForExpr n e <> NoFuel.
Proof.
  induction n as [|n IH]; intros n' e Hn Hn'; [lia|]. destruct n' as [|n']; [lia|]. cbn [BoundsDescr.boundsDescrForExpr].
  apply cases_ext. intros e' He'. apply IH; lia.
Qed.
End fuel.

(** ** Descriptions are right *)
Section sound.
Context {T : Type} `{SI : Simplifier T} `{CL : CompiledLaws T} `{SL : !SimplifierLaws T} (m : mem).
Context (noObjectTypeInfo voidPtrHasBounds : bool) (names : list nat) (wcharType : ctype).
Implicit Types (e : exp T) (h : lhost T) (o : offset T) (d : bounds_expr T) (og : origin).
Abbreviation value := (value m).
Abbreviation place := (place m).
Abbreviation origin_of := (origin_of m wcharType).
Abbreviation localLvalToBoundsFun := (localLvalToBoundsFun voidPtrHasBounds).
Abbreviation boundsDescr_cases := (boundsDescr_cases noObjectTypeInfo voidPtrHasBounds names wcharType intType).
Abbreviation boundsDescrForExpr := (boundsDescrForExpr noObjectTypeInfo voidPtrHasBounds names wcharType intType).

(** The first byte and the length of an object that is known: of something of
    incomplete type a byte for each element. *)
Definition extent og : option (Z * Z) :=
  match og with
  | Part a t => Some (a, if undefined (element t) then elements t else sizeof t)
  | Literal a n => Some (a, n)
  | _ => None
  end.
(** Such an object fits into memory, and the lengths of arrays are lengths. *)
Fixpoint proper_lengths (t : ctype) : bool :=
  match t with
  | TArray t b => match b with Constant n => 0 <=? n | _ => true end && proper_lengths t
  | TNamed t => proper_lengths t
  | _ => true
  end.
Definition fits og : Prop :=
  match og with
  | Part _ t => proper_lengths t = true /\ elements t < 2 ^ 63
  | Literal _ n => 0 <= n
  | _ => True
  end /\ match extent og with Some (a, n) => u64 a /\ a + n < 2 ^ 64 | None => True end.

(** ** What an expression says about its object

    The expression as the front end looks at it. *)
Definition simplified e : exp T := if noObjectTypeInfo then uncastExpr (simplify e) else simplify e.

(** A cast that makes a pointer that needs bounds out of something else. *)
Inductive fresh (t : T) e : Prop :=
| Fresh :
    noObjectTypeInfo = false \/ isPointerType (typeOf e) = false ->
    typeNeedsBounds voidPtrHasBounds (layout t) = Some true ->
    isStaticallyNullPtr e = false -> isStaticallyZero e = false ->
    same_decayed (typeOf e) t = false \/ typeNeedsBounds voidPtrHasBounds (layout (typeOf e)) = Some false ->
    fresh t e.

(** The pointer is the null pointer, or computed from it. *)
Inductive from_null : exp T -> Prop :=
| null_itself e : isStaticallyNullPtr e = true -> from_null e
| null_shifted e op p i t : op = PlusPI \/ op = MinusPI -> simplified e = BinOp op p i t -> from_null p -> from_null e
| null_cast e t p : simplified e = CastE t p -> ~ fresh t p -> from_null p -> from_null e.

(** The pointer is read from a place in memory. *)
Inductive loaded : exp T -> lhost T -> offset T -> Prop :=
| loaded_lval h o : loaded (Lval h o) h o
| loaded_start e h o : loaded e h o -> loaded (StartOf (Mem e) NoOffset) h o
| loaded_cast t e h o :
    noObjectTypeInfo = true -> isPointerTypeNeedingBounds voidPtrHasBounds (typeOf e) = Some true ->
    loaded e h o -> loaded (CastE t e) h o.

(** An array of unknown length, or an array of these. *)
Inductive open_array : ctype -> Prop :=
| open_here t : open_array (TArray t Unbounded)
| open_inside t n : open_array t -> open_array (TArray t (Constant n))
| open_named t : open_array t -> open_array (TNamed t).
(** The type of what [part_of] is. *)
Definition part_type (whole : ctype) o : ctype :=
  match last (lead o) with Some (Field _ fi) => fi.2 | _ => whole end.

Inductive only_indexes : offset T -> Prop :=
| indexes_none : only_indexes NoOffset
| indexes_more elt e o : only_indexes o -> only_indexes (IndexOff elt e o).
Inductive local_lval : exp T -> Prop :=
| local_variable v o : varinfoIsLocal names v = true -> local_lval (Lval (Var v) o).

(** An expression, simplified, that says neither where the bounds of the pointer
    are nor which object they are of: an integer; a cast that makes a pointer;
    the address of a variable, or of a field of one, that is an array of unknown
    length; an element of what a pointer that is not local points to; and what
    is derived from such a pointer, for [below]. *)
Inductive silent (below : exp T -> Prop) : exp T -> Prop :=
| silent_int n : silent below (CInt n)
| silent_sizeof t : silent below (SizeOf t)
| silent_unop op e t : silent below (UnOp op e t)
| silent_binop op e1 e2 t : op <> PlusPI -> op <> MinusPI -> silent below (BinOp op e1 e2 t)
| silent_shifted op p i t : op = PlusPI \/ op = MinusPI -> below p -> silent below (BinOp op p i t)
| silent_fresh t e : fresh t e -> (forall h o, ~ loaded (CastE t e) h o) -> silent below (CastE t e)
| silent_cast t e : ~ fresh t e -> below e -> silent below (CastE t e)
| silent_address v o : open_array (part_type (vtype v) o) -> silent below (AddrOf (Var v) o)
| silent_start v o : open_array (part_type (vtype v) o) -> silent below (StartOf (Var v) o)
| silent_element e o : only_indexes o -> ~ local_lval e -> silent below (AddrOf (Mem e) o)
| silent_first e o :
    only_indexes o -> ~ local_lval e -> (forall h o', ~ loaded (StartOf (Mem e) o) h o') ->
    silent below (StartOf (Mem e) o).
#[warnings="-register-all"]
Inductive undescribed e : Prop :=
| Undescribed : isStaticallyNullPtr e = false -> silent undescribed (simplified e) -> undescribed e.

(** A description fits an object: the bounds variable is that of the local
    pointer stored there, the two expressions give the extent of the object (or
    of the byte at zero, where [null] allows it), and what is fetched are the
    bounds stored with the pointer in memory; or the run-time is asked, just
    when the expression does not say, [mute]. *)
Definition fetched_out_of_line d : bool :=
  match d with MustFetch UnknownOrigin | MustFetch (ExternArray _) => true | _ => false end.
Definition describes (null mute : Prop) og d : Prop :=
  (fetched_out_of_line d = true <-> mute) /\
  match d with
  | BoundsLval blv =>
      exists vi o, varinfoIsLocal names vi = true /\ localLvalToBoundsFun vi o = Answer d /\
        og = Stored (place (Var vi) o)
  | BoundsBaseLimitRvals b l =>
      (null /\ b = CInt 0 /\ l = CInt 1) \/
      exists a n, extent og = Some (a, n) /\ (fits og -> value b = a /\ value l = a + n /\ 0 <= n)
  | MustFetch (LoadedFrom h o) => hostIsLocal names h = false /\ og = Stored (place h o)
  | MustFetch _ => True
  end.
Lemma describes_impl (null null' mute mute' : Prop) og d :
  (null -> null') -> (mute <-> mute') -> describes null mute og d -> describes null' mute' og d.
Proof. intros Hn Hm [Hf Hd]. split; [tauto|]. destruct d as [blv|b l|[]]; try done. destruct Hd as [[? ?]|?]; auto. Qed.

Lemma local_describes (null mute : Prop) vi o d :
  ~ mute -> varinfoIsLocal names vi = true -> localLvalToBoundsFun vi o = Answer d ->
  describes null mute (Stored (place (Var vi) o)) d.
Proof.
  intros Hm Hl Hd. pose proof Hd as Hd'. unfold BoundsDescr.localLvalToBoundsFun in Hd.
  destruct (boundsLvalForLocalLval _ _ _ _) as [i|]; [|done]. injection Hd as <-.
  split; [by split|]. by exists vi, o.
Qed.

(** *** Reading the rules off the code *)
Lemma castNeedsFreshBounds_spec t e b :
  castNeedsFreshBounds noObjectTypeInfo voidPtrHasBounds e t = Some b -> (b = true <-> fresh t e).
Proof.
  unfold castNeedsFreshBounds. destruct (noObjectTypeInfo && isPointerType (typeOf e)) eqn:Hno.
  { intros [= <-]. apply andb_true_iff in Hno as [Hno Hp]. split; [done|]. intros [[?|?] _ _ _ _]; congruence. }
  destruct (typeNeedsBounds voidPtrHasBounds (layout t)) as [needs|] eqn:Ht; cbn [mbind option_bind]; [|done].
  destruct needs; cbn [negb]; [|intros [= <-]; split; [done|intros []; congruence]].
  destruct (isStaticallyNullPtr e) eqn:Hn; cbn [orb]; [intros [= <-]; split; [done|intros []; congruence]|].
  destruct (isStaticallyZero e) eqn:Hz; [intros [= <-]; split; [done|intros []; congruence]|].
  assert (noObjectTypeInfo = false \/ isPointerType (typeOf e) = false) as Hk
    by (destruct noObjectTypeInfo; [by right|by left]).
  destruct (same_decayed (typeOf e) t) eqn:Hs; cbn [negb]; [|intros [= <-]; split; [by intros _; constructor; auto|done]].
  destruct (typeNeedsBounds voidPtrHasBounds (layout (typeOf e))) as [[]|] eqn:Hh; cbn; [| |done]; intros [= <-].
  - split; [done|]. intros [_ _ _ _ [?|?]]; congruence.
  - split; [|done]. intros _. constructor; auto.
Qed.
Lemma accumulate_open t : forall acc, multiplyAccumulateArrayBounds acc t = NotFound <-> open_array t.
Proof.
  induction t as [| | | | | |p|t b IH|t IH|s fs _] using ctype_ind'; intros acc; cbn [multiplyAccumulateArrayBounds];
    try (split; [done|by inversion 1]).
  - destruct b as [| |n]; [by split; [intros _; apply open_here|]|by split; [|inversion 1]|rewrite IH].
    split; [by constructor|by inversion 1].
  - rewrite IH. split; [by constructor|by inversion 1].
Qed.
Lemma accumulate_bounded t : forall acc n elt,
  multiplyAccumulateArrayBounds acc t = Accumulated n elt -> proper_lengths t = true -> bounded_array t = true.
Proof.
  induction t as [| | | | | |p|t b IH|t IH|s fs _] using ctype_ind'; intros acc n elt;
    cbn [multiplyAccumulateArrayBounds proper_lengths bounded_array]; try done; [|by apply IH].
  destruct b as [| |k]; [done..|]. intros Ha [Hk Hp]%andb_true_iff. apply IH in Ha; [|done]. by rewrite Hk, Ha.
Qed.
Lemma contains_no_field o : offsetContainsField o = false <-> only_indexes o.
Proof.
  induction o as [|fs fi o IH|elt e o IH]; cbn [offsetContainsField].
  - by split; [constructor|].
  - by split; [|inversion 1].
  - rewrite IH. split; [by constructor|by inversion 1].
Qed.

(** The type of a part ends the offset before its trailing indexes. *)
Lemma lead_type h o :
  typeOfOffset (hostType h) (map lift (lead o)) = part_type (hostType h) o.
Proof.
  unfold part_type, lead. destruct (split_spec (offsetToList o)) as (l & tr & _ & -> & Hl & _). cbn [snd].
  destruct Hl as [->|(l' & fs & fi & ->)]; [apply typeOfOffset_nil|]. rewrite last_snoc, map_app. apply typeOfOffset_field.
Qed.
Lemma lead_field o : offsetContainsField o = true -> exists fs fi, last (lead o) = Some (Field fs fi).
Proof.
  rewrite contains_field. unfold lead. destruct (split_spec (offsetToList o)) as (l & tr & -> & -> & Hl & Htr). cbn [snd].
  rewrite existsb_app, orb_true_iff. destruct Hl as [->|(l' & fs & fi & ->)]; [|intros _; rewrite last_snoc; by eexists _, _].
  intros [|(s & Hs & Hi)%existsb_exists]; [done|]. rewrite forallb_forall in Htr. by rewrite (Htr s Hs) in Hi.
Qed.
Lemma lead_first_element h o : lead (atFirstElement h o) = lead (T := T) o.
Proof. unfold lead, atFirstElement. by rewrite offsetToFromList, split_snoc. Qed.
Lemma part_first_element h o : part_of m h (hostType h) (atFirstElement h o) = part_of m h (hostType h) o.
Proof. unfold part_of. by rewrite lead_first_element. Qed.
Lemma part_type_first_element h o : part_type (hostType h) (atFirstElement h o) = part_type (hostType h) o.
Proof. unfold part_type. by rewrite lead_first_element. Qed.

Lemma part_whole h whole o : offsetContainsField o = true -> part_of m h whole o = part_of m h (hostType h) o.
Proof. intros (fs & fi & Hf)%lead_field. unfold part_of. by rewrite Hf. Qed.

Lemma handle_not_found h o : handleAddrOfVarOrField h o = Not_found <-> open_array (part_type (hostType h) o).
Proof.
  unfold handleAddrOfVarOrField. pose proof (lead_type h o) as Ht. unfold lead in Ht.
  destruct (splitTrailingIndexes (offsetToList o)) as [tr l]; cbn [snd] in *. rewrite Ht, <- (accumulate_open _ 1).
  by destruct (multiplyAccumulateArrayBounds 1 _).
Qed.
Lemma handle_describes (null mute : Prop) h o d :
  ~ mute -> handleAddrOfVarOrField h o = Answer d -> describes null mute (part_of m h (hostType h) o) d.
Proof.
  intros Hm. unfold handleAddrOfVarOrField. pose proof (lead_type h o) as Ht. unfold lead in Ht. unfold part_of, lead.
  unfold part_type, lead in Ht.
  destruct (splitTrailingIndexes (offsetToList o)) as [tr l]; cbn [snd] in *. rewrite Ht.
  set (t := match last l with Some (Field _ fi) => fi.2 | _ => hostType h end). clearbody t.
  destruct (multiplyAccumulateArrayBounds 1 t) as [n elt| |] eqn:Hacc; [|done..]. intros [= <-].
  split; [by split|]. right. eexists _, _. split; [done|]. intros ((Hp & Hel) & Hu & Hlt).
  pose proof (accumulate_bounded _ _ _ _ Hacc Hp) as Hb.
  rewrite !value_BinOp, !value_CastE, value_mkAddrOrStartOf, convert_ulong by done. split; [done|].
  pose proof (elements_nonneg t Hb). pose proof (sizeof_elements sizeof t Hb) as Hs. pose proof (sizeof_nonneg t).
  change 1 with (int64 1) in Hacc. rewrite accumulate, Z.mul_1_l, int64_small in Hacc by (done || lia).
  injection Hacc as <- <-. rewrite plus_ulong, mult_ulong. change (value (CInt ?n)) with n. unfold u64 in Hu.
  destruct (undefined (element t)); [change (value (CInt 1)) with 1; rewrite Z.mul_1_r|
    change (value (SizeOf ?t)) with (sizeof t); rewrite <- Hs];
    rewrite (wrap64_small (_ : Z)) by (unfold u64; lia); unfold add64; rewrite wrap64_small by (unfold u64; lia);
    (split; [done|lia]).
Qed.

(** What a pointer was loaded from is where it is stored. *)
Lemma loaded_origin e h o : loaded e h o -> origin_of e = Stored (place h o).
Proof. by induction 1. Qed.
Lemma stored_loaded :
  (forall e, match getStoredPtrLvalForPtrExp noObjectTypeInfo voidPtrHasBounds e with
     | Some (Some (h, o)) => loaded e h o | Some None => forall h o, ~ loaded e h o | None => True end) /\
  (forall h0 : lhost T, match h0 with Var _ => True | Mem e =>
     match getStoredPtrLvalForPtrExp noObjectTypeInfo voidPtrHasBounds e with
     | Some (Some (h, o)) => loaded e h o | Some None => forall h o, ~ loaded e h o | None => True end end) /\
  (forall o : offset T, True).
Proof.
  apply exp_mutind; try done; try (by intros; inversion 1).
  - intros h _ o _. constructor.
  - intros [v|e] IH o0 _; cbn [getStoredPtrLvalForPtrExp]; [by intros h o; inversion 1|].
    destruct o0; [|by intros h o; inversion 1..].
    destruct (getStoredPtrLvalForPtrExp _ _ e) as [[[h o]|]|]; [by constructor| |done].
    intros h o Hl. inversion Hl; subst. by eapply IH.
  - intros t e IH. cbn [getStoredPtrLvalForPtrExp].
    destruct noObjectTypeInfo eqn:Hno; [|intros h o Hl; inversion Hl; congruence].
    destruct (isPointerTypeNeedingBounds voidPtrHasBounds (typeOf e)) as [[]|] eqn:Hp; cbn [mbind option_bind];
      [| |done]; [|intros h o Hl; inversion Hl; congruence].
    destruct (getStoredPtrLvalForPtrExp _ _ e) as [[[h o]|]|]; [by apply loaded_cast| |done].
    intros h o Hl. inversion Hl; subst. by eapply IH.
Qed.
Lemma uncast_origin e : origin_of (uncastExpr e) = origin_of e.
Proof. induction e; cbn; done. Qed.

Lemma default_describes (null mute : Prop) s maybe :
  (mute <-> forall h o, ~ loaded s h o) ->
  maybeLoadedFromLv noObjectTypeInfo voidPtrHasBounds names s = Answer maybe ->
  describes null mute (origin_of s)
    (MustFetch match maybe with None => UnknownOrigin | Some (lh, lo) => LoadedFrom lh lo end).
Proof.
  intros Hm. unfold maybeLoadedFromLv. pose proof (proj1 stored_loaded s) as Hs.
  destruct (getStoredPtrLvalForPtrExp _ _ s) as [[[h o]|]|]; cbn.
  - destruct (hostIsLocal names h) eqn:Hh; [done|]. intros [= <-]. split; [|split; [done|by apply loaded_origin]].
    split; [done|]. intros Hn. destruct (proj1 Hm Hn _ _ Hs).
  - intros [= <-]. by split; [tauto|].
  - done.
Qed.
Lemma dereferenced_describes (null mute : Prop) default e d :
  (local_lval e -> ~ mute) -> (~ local_lval e -> describes null mute (origin_of e) default) ->
  dereferenced_local voidPtrHasBounds names default e = Answer d -> describes null mute (origin_of e) d.
Proof.
  intros Hm Hd. destruct e as [| | |[v|]| | | | | |]; cbn [dereferenced_local];
    try (intros [= <-]; apply Hd; by inversion 1).
  destruct (varinfoIsLocal names v) eqn:Hl.
  - apply local_describes; [|done]. apply Hm. by constructor.
  - intros [= <-]. apply Hd. inversion 1. congruence.
Qed.
Lemma literal_describes (null mute : Prop) a n lit len :
  ~ mute -> (fits (Literal a n) -> value lit = a /\ value len = n) ->
  describes null mute (Literal a n) (literal_rvals lit len).
Proof.
  intros Hm Hok. split; [by split|]. right. exists a, n. split; [done|]. intros Hf. destruct (Hok Hf) as [Hl Hln].
  destruct Hf as (Hn & Hu & Hlt). rewrite value_BinOp, value_CastE, Hl, Hln, convert_ulong, plus_ulong by done.
  split; [done|]. unfold u64 in Hu. unfold add64. rewrite wrap64_small by (unfold u64; lia). done.
Qed.
Lemma narrow_describes (null mute : Prop) s :
  ~ mute -> describes null mute (origin_of (CStr s)) (literal_rvals (CStr s) (CInt (Z.of_nat (1 + String.length s)))).
Proof.
  intros Hm. apply literal_describes; [done|]. intros _. split; [done|].
  change (Z.of_nat (1 + String.length s) = Z.of_nat (String.length s) + 1). lia.
Qed.
Lemma wide_describes (null mute : Prop) s :
  ~ mute -> describes null mute (origin_of (CWStr s)) (literal_rvals (CWStr s)
    (BinOp Mult (CInt (Z.of_nat (1 + length s))) (SizeOf wcharType) intType)).
Proof.
  intros Hm. apply literal_describes; [done|]. intros (Hn & Hu & Hlt). split; [done|]. rewrite value_BinOp, mult_sizeof.
  change (wrap64 (Z.of_nat (1 + length s) * sizeof wcharType) = (Z.of_nat (length s) + 1) * sizeof wcharType).
  unfold u64 in Hu. rewrite wrap64_small by (unfold u64; nia). nia.
Qed.

(** The description of the address of a variable, and of a part of something
    else. *)
Lemma address_describes (null mute : Prop) v o whole_origin og_mute d :
  (mute <-> open_array (part_type (vtype v) o)) -> fetched_out_of_line og_mute = true ->
  (match og_mute with MustFetch (LoadedFrom _ _) | BoundsLval _ | BoundsBaseLimitRvals _ _ => False | _ => True end) ->
  whole_origin = part_of m (Var v) (vtype v) o ->
  try_with (handleAddrOfVarOrField (Var v) o) og_mute = Answer d -> describes null mute whole_origin d.
Proof.
  intros Hm Hf Hog ->. pose proof (handle_not_found (Var v) o) as Hnf. cbn [hostType] in Hnf.
  destruct (handleAddrOfVarOrField (Var v) o) as [d'| | |] eqn:Hh; cbn [try_with]; intros [= <-].
  - apply (handle_describes null mute (Var v)); [|done]. intros Hmute. by apply Hm, Hnf in Hmute.
  - split; [by rewrite Hm, <- Hnf|]. by destruct og_mute as [| |[]].
Qed.
Lemma field_describes (null mute : Prop) e o whole d :
  ~ mute -> offsetContainsField o = true ->
  handleAddrOfVarOrField (Mem e) o = Answer d -> describes null mute (part_of m (Mem e) whole o) d.
Proof. intros Hm Hf Hh. rewrite (part_whole _ _ _ Hf). by apply handle_describes. Qed.

(** What the rules say of an expression, by its simplified form. *)
Definition null_below (s : exp T) : Prop :=
  (exists op p i t, (op = PlusPI \/ op = MinusPI) /\ s = BinOp op p i t /\ from_null p) \/
  (exists t p, s = CastE t p /\ ~ fresh t p /\ from_null p).
Lemma null_below_from_null e : null_below (simplified e) -> from_null e.
Proof. intros [(op & p & i & t & Hop & He & Hp)|(t & p & He & Hf & Hp)]; [by eapply null_shifted|by eapply null_cast]. Qed.

(** Part by part, for the recursive calls. *)
Lemma cases_describe rec e d :
  (forall e' d', rec e' = Answer d' -> describes (from_null e') (undescribed e') (origin_of e') d') ->
  boundsDescr_cases rec e = Answer d -> describes (from_null e) (undescribed e) (origin_of e) d.
Proof.
  intros Hrec. unfold BoundsDescr.boundsDescr_cases. destruct (isStaticallyNullPtr e) eqn:Hnull.
  { intros [= <-]. split; [by split; [|intros [? _]; congruence]|]. left. split; [by apply null_itself|done]. }
  fold (simplified e).
  assert (Ho : origin_of (simplified e) = origin_of e).
  { unfold simplified. destruct noObjectTypeInfo; rewrite ?uncast_origin; apply simplify_origin. }
  intros Hd. rewrite <- Ho. apply (describes_impl (null_below (simplified e)) _ (silent undescribed (simplified e)) _);
    [apply null_below_from_null|split; [by constructor|by intros []]|].
  revert Hd. set (s := simplified e). clearbody s. clear Hnull Ho. revert d.
  assert (Hdef : forall f, (forall maybe d, maybeLoadedFromLv noObjectTypeInfo voidPtrHasBounds names s = Answer maybe ->
        f maybe = Answer d -> describes (null_below s) (silent undescribed s) (origin_of s) d) ->
      forall d, (maybeLoadedFromLv noObjectTypeInfo voidPtrHasBounds names s ≫= f) = Answer d ->
        describes (null_below s) (silent undescribed s) (origin_of s) d).
  { intros f Hf d. destruct (maybeLoadedFromLv _ _ _ s) eqn:Hm; cbn; [|done..]. by apply Hf. }
  assert (Hplain : (silent undescribed s <-> forall h o, ~ loaded s h o) -> forall d,
      (maybe ← maybeLoadedFromLv noObjectTypeInfo voidPtrHasBounds names s;
       Answer (MustFetch match maybe with None => UnknownOrigin | Some (lh, lo) => LoadedFrom lh lo end)) = Answer d ->
      describes (null_below s) (silent undescribed s) (origin_of s) d).
  { intros Hs. apply Hdef. intros maybe d Hm [= <-]. by apply default_describes. }
  destruct s as [n|l|l|[v|s] o|[v|s] o|[v|s] o|t|op s t|op s1 s2 t|t s].
  - apply Hplain. split; [by intros _; inversion 1|by constructor].
  - apply Hdef. intros maybe d _ [= <-]. apply narrow_describes. by inversion 1.
  - apply Hdef. intros maybe d _ [= <-]. apply wide_describes. by inversion 1.
  - destruct (varinfoIsLocal names v) eqn:Hl; [intros d; apply local_describes; [by inversion 1|done]|].
    apply Hplain. split; [by inversion 1|]. intros Hn. destruct (Hn (Var v) o). constructor.
  - apply Hplain. split; [by inversion 1|]. intros Hn. destruct (Hn (Mem s) o). constructor.
  - apply Hdef. intros maybe d _. apply address_describes; [|done..].
    split; [by inversion 1|by constructor].
  - apply Hdef. intros maybe d Hm. cbn [BoundsDescr.origin_of]. destruct (offsetContainsField o) eqn:Hf.
    + apply field_describes; [|done]. inversion 1 as [| | | | | | | | |? ? Hi%contains_no_field|]; congruence.
    + apply contains_no_field in Hf. apply dereferenced_describes; [intros Hloc; by inversion 1|]. intros Hloc.
      assert (Ha : origin_of (AddrOf (Mem s) o) = origin_of s)
        by (rewrite origin_AddrOf_Mem; by rewrite (proj2 (contains_no_field o) Hf)).
      rewrite <- Ha. apply default_describes; [|done]. split; [by intros _; inversion 1|by constructor].
  - apply Hdef. intros maybe d _. apply address_describes;
      [|by destruct (isExternUnbounded v)|by destruct (isExternUnbounded v)|].
    + rewrite (part_type_first_element (Var v)). split; [by inversion 1|by constructor].
    + symmetry. exact (part_first_element (Var v) o).
  - apply Hdef. intros maybe d Hm. cbn [BoundsDescr.origin_of]. destruct (offsetContainsField o) eqn:Hf.
    + intros Hh%(handle_describes (null_below (StartOf (Mem s) o)) (silent undescribed (StartOf (Mem s) o))).
      * rewrite part_first_element in Hh. by rewrite (part_whole _ _ _ Hf).
      * inversion 1 as [| | | | | | | | | |? ? Hi%contains_no_field]; congruence.
    + apply contains_no_field in Hf. apply dereferenced_describes; [intros Hloc; by inversion 1|]. intros Hloc.
      assert (Ha : origin_of (StartOf (Mem s) o) = origin_of s)
        by (rewrite origin_StartOf_Mem; by rewrite (proj2 (contains_no_field o) Hf)).
      rewrite <- Ha. apply default_describes; [|done]. split; [by inversion 1|by constructor].
  - apply Hplain. split; [by intros _; inversion 1|by constructor].
  - apply Hplain. split; [by intros _; inversion 1|by constructor].
  - assert (Hshift : (op = PlusPI \/ op = MinusPI) -> forall d, rec s1 = Answer d ->
      describes (null_below (BinOp op s1 s2 t)) (silent undescribed (BinOp op s1 s2 t)) (origin_of (BinOp op s1 s2 t)) d).
    { intros Hop d Hd%Hrec. rewrite origin_BinOp. replace (match op with PlusPI | MinusPI => origin_of s1 | _ => Elsewhere end) with (origin_of s1) by (by destruct Hop as [->| ->]).
      apply (describes_impl (from_null s1) _ (undescribed s1) _); [..|done].
      - intros Hn. left. by exists op, s1, s2, t.
      - split; [by constructor|]. inversion 1; subst; [by destruct Hop|done]. }
    destruct op; try (apply Hplain; split; [by intros _; inversion 1|by constructor]); apply Hshift; auto.
  - apply Hdef. intros maybe d Hm.
    destruct (castNeedsFreshBounds _ _ s t) as [b|] eqn:Hfresh; cbn; [|done].
    apply castNeedsFreshBounds_spec in Hfresh. destruct b.
    + intros [= <-]. apply (default_describes _ _ (CastE t s)); [|done].
      split; [inversion 1; subst; [done|tauto]|]. intros Hl. apply silent_fresh; [exact (proj1 Hfresh eq_refl)|done].
    + assert (~ fresh t s) as Hnf by (intros Hfr; by apply Hfresh in Hfr).
      intros Hd%Hrec. apply (describes_impl (from_null s) _ (undescribed s) _); [..|done].
      * intros Hn. right. by exists t, s.
      * split; [by apply silent_cast|]. inversion 1; subst; [tauto|done].
Qed.

Lemma describes_all n : forall e d, boundsDescrForExpr n e = Answer d ->
  describes (from_null e) (undescribed e) (origin_of e) d.
Proof.
  induction n as [|n IH]; intros e d; [done|]. apply cases_describe. exact IH.
Qed.
End sound.

(** ** The updates run

    [locals] are the bounds variables of the function, [fetchBoundsOol] is
    [__fetch_bounds_ool] or, without type information,
    [__fetch_bounds_ool_via_dladdr]; [t] is the type of what the pointer points
    to. *)
Section run.
Context `{C : Config} {St U : Type} `{ShadowEnv St U} {T : Type} `{SI : Simplifier T} `{CL : CompiledLaws T} `{SL : !SimplifierLaws T}.
Context (fetchBoundsOol : St -> Z -> Z -> option U -> outcome (St * bounds)).
Context (noObjectTypeInfo voidPtrHasBounds : bool) (names : list nat) (wcharType : ctype).
Implicit Types (st : St) (e : exp T) (locals : nat * Z -> bounds) (blv : bounds_lval T).

Definition blv_key m blv : nat * Z :=
  (vname blv.1, match blv.2 with None => 0 | Some i => eval (index_value m) i end).
Definition run_bounds_instr (t : option U) (i : bounds_instr T) locals st : outcome ((nat * Z -> bounds) * St) :=
  let m := st_mem st in
  match i with
  | CallMakeBounds blv b l => Ret (<[blv_key m blv := make_bounds (value m b) (value m l)]> locals, st)
  | SetBounds blv other => Ret (<[blv_key m blv := locals (blv_key m other)]> locals, st)
  | CallFetchInl blv p h o =>
      Ret (<[blv_key m blv := fetch_bounds_inl m (value m p) (place m h o)]> locals, st)
  | CallFetchOol blv p loaded_from =>
      '(st, B) ← fetchBoundsOol st (value m p) (value m loaded_from) t;
      Ret (<[blv_key m blv := B]> locals, st)
  | CallMakeInvalid blv p => Ret (<[blv_key m blv := libcrunch_make_invalid_bounds (value m p)]> locals, st)
  end.
Fixpoint run_bounds_instrs (t : option U) (instrs : list (bounds_instr T)) locals st : outcome ((nat * Z -> bounds) * St) :=
  match instrs with
  | [] => Ret (locals, st)
  | i :: instrs => '(locals, st) ← run_bounds_instr t i locals st; run_bounds_instrs t instrs locals st
  end.

(** The description that the front end finds; more fuel changes nothing. *)
Definition boundsDescr e : answer (bounds_expr T) :=
  boundsDescrForExpr noObjectTypeInfo voidPtrHasBounds names wcharType intType (S (exp_size e)) e.
Lemma boundsDescr_found n e :
  (exp_size e < n)%nat ->
  boundsDescrForExpr noObjectTypeInfo voidPtrHasBounds names wcharType intType n e = boundsDescr e /\ boundsDescr e <> NoFuel.
Proof.
  intros Hn. destruct (boundsDescr_fuel noObjectTypeInfo voidPtrHasBounds names wcharType intType n (S (exp_size e)) e Hn) as [Heq Hf];
    [lia|]. unfold boundsDescr. by rewrite <- Heq.
Qed.

(** The bounds of the object that a pointer belongs to. *)
Abbreviation from_null := (from_null noObjectTypeInfo voidPtrHasBounds).
Inductive right_bounds locals m e : bounds -> Prop :=
| local_pointer_bounds vi o index :
    varinfoIsLocal names vi = true ->
    localLvalToBoundsFun voidPtrHasBounds vi o = Answer (BoundsLval (vi, index)) ->
    origin_of m wcharType e = Stored (place m (Var vi) o) ->
    right_bounds locals m e (locals (blv_key m (vi, index)))
| stored_pointer_bounds h o :
    hostIsLocal names h = false -> origin_of m wcharType e = Stored (place m h o) ->
    right_bounds locals m e (fetch_bounds_inl m (value m e) (place m h o))
| object_bounds a n :
    extent (origin_of m wcharType e) = Some (a, n) -> right_bounds locals m e (make_bounds a (a + n))
| null_bounds : from_null e -> right_bounds locals m e (make_bounds 0 1).

(** For a pointer into an object that is known these are its extent. *)
Lemma right_bounds_object locals m e B a n :
  right_bounds locals m e B -> extent (origin_of m wcharType e) = Some (a, n) -> ~ from_null e -> B = make_bounds a (a + n).
Proof.
  intros [vi o i _ _ Ho|h o _ Ho|a' n' He'|Hn] He Hnull; [by rewrite Ho in He..| |done].
  rewrite He in He'. by injection He' as <- <-.
Qed.

Lemma sameVi_key m blv other : sameVi blv other = true -> blv_key m blv = blv_key m other.
Proof.
  destruct blv as [v1 [[n1| | |]|]], other as [v2 [[n2| | |]|]]; try done; cbn.
  - intros [Hv%bool_decide_eq_true Hn%Z.eqb_eq]%andb_true_iff. unfold blv_key. cbn [fst snd]. by rewrite Hv, Hn.
  - intros Hv%bool_decide_eq_true. unfold blv_key. cbn [fst snd]. by rewrite Hv.
Qed.
(** What gives a description with two expressions is within memory. *)
Lemma fits_extent og a n :
  0 <= n -> fits (T := T) og -> extent og = Some (a, n) -> u64 a /\ u64 (a + n).
Proof. intros Hn [_ Hf] He. rewrite He in Hf. destruct Hf as [Hu Hlt]. split; [done|]. unfold u64 in *. lia. Qed.

End run.

(** ** Around the descriptions *)
Section around.
Context {T : Type} `{SI : Simplifier T} `{CL : CompiledLaws T} `{SL : !SimplifierLaws T} (noObjectTypeInfo voidPtrHasBounds : bool) (names : list nat).
Context (wcharType : ctype).
Abbreviation boundsDescr := (boundsDescr (intType := intType) noObjectTypeInfo voidPtrHasBounds names wcharType).

(** [hoistCast] never gives up on a cast in which there is nothing to simplify:
    bounds that must be fresh are fetched. *)
Theorem hoisted_cast_fetched t (e : exp T) :
  noObjectTypeInfo = false -> simplify (CastE t e) = CastE t e -> isStaticallyNullPtr (CastE t e) = false ->
  castNeedsFreshBounds noObjectTypeInfo voidPtrHasBounds e t = Some true ->
  hoistCast_accepts (boundsDescr (CastE t e)) = true.
Proof.
  intros Hno Hs Hnull Hf. unfold BoundsDescr.boundsDescr. cbn [boundsDescrForExpr].
  unfold boundsDescr_cases. rewrite Hnull, Hs. clear Hs. subst.
  cbn [maybeLoadedFromLv getStoredPtrLvalForPtrExp or_failwith mbind answer_bind]. by rewrite Hf.
Qed.

(** A flexible array member of an object that a pointer points to ends the
    front end: nobody handles the [Not_found] that the missing length raises, as is
    done for variables. *)
Theorem flexible_member_raises (e p : exp T) fs fi elt :
  simplify e = StartOf (Mem p) (FieldOff fs fi NoOffset) -> fi.2 = TArray elt Unbounded ->
  isStaticallyNullPtr e = false -> boundsDescr e = Not_found.
Proof.
  intros He Hfi Hnull. unfold BoundsDescr.boundsDescr. cbn [boundsDescrForExpr]. unfold boundsDescr_cases.
  rewrite Hnull, He. pose proof (typeOfOffset_field (pointee p) [] fs fi) as Ht. cbn [app] in Ht.
  destruct noObjectTypeInfo; cbn; by rewrite Ht, Hfi.
Qed.
End around.

(** *** The null pointer in the place of the derived one

    [__fetch_bounds_ool] takes the pointer that is being derived as its second
    argument; the updates pass null, as if it were where the pointer was loaded
    from.  For a pointer that liballocs does not know the run-time then remembers
    that everything from zero up to there has no known bounds. *)
Theorem unknown_fetch_covers_all_below `{C : Config} `{L : Liballocs} st (ptr : Z) (ty : uniqtype) st1 B st2 :
  u64 ptr -> ptr <> 0 -> libcrunch_ptr_trap_bits ptr <> LIBCRUNCH_TRAP_ONE_PAST ->
  libcrunch_ptr_trap_bits 0 <> LIBCRUNCH_TRAP_ONE_PAST ->
  fetch_bounds_from_cache (inc fetch_bounds_called st) ptr 0 (pos_maxoff ty) = (st1, B) ->
  libcrunch_bounds_invalid B ptr = true -> do_query (inc fetch_bounds_missed_cache st1) ptr = (st2, None) ->
  fetch_bounds_ool_rt st ptr 0 (Some ty) =
    Ret (cache_fake_bounds st2 0 (ptr +w pos_maxoff ty) (Some ty) 1 (pos_maxoff ty) 0, libcrunch_max_bounds ptr).
Proof.
  intros Hu Hp Ht H0 Hc Hi Hq. unfold fetch_bounds_ool_rt.
  rewrite !(proj2 (Z.eqb_neq _ LIBCRUNCH_TRAP_ONE_PAST)) by done. rewrite Hc, Hi. cbn [negb].
  unfold fetch_bounds_internal. rewrite (proj2 (Z.eqb_neq _ _) Hp), Hq. unfold return_max_bounds.
  unfold u64 in Hu. by rewrite Z.min_r, Z.max_l by lia.
Qed.

(** A [float] in a known array: its bounds, after the bounds of a pointer above
    have been asked for in vain, with that pointer as the derived one, and with
    null. *)
Definition bounds_after (derived : Z) : option bounds :=
  match fetch_bounds_ool_rt (C := config_libcrunch) (L := tiny) tiny_runtime 0x9000 derived (Some TinyAllocs.TFloat) with
  | Ret (st, _) =>
      match fetch_bounds_ool_rt (C := config_libcrunch) (L := tiny) st 0x1004 0x1004 (Some TinyAllocs.TFloat) with
      | Ret (_, B) => Some B
      | _ => None
      end
  | _ => None
  end.
Example null_derived_loses_bounds :
  bounds_after 0x9000 = Some (Bounds 0x1004 4) /\ bounds_after 0 = Some (Bounds 0 (2 ^ 64 - 1)).
Proof. vm_compute. by split. Qed.

(** ** A concrete compiler

    Types are their layouts; a null pointer is the constant zero. *)
#[local] Instance ex_cil : Cil ctype := {|
  typeOf e := match e with CastE t _ | BinOp _ _ _ t | UnOp _ _ t => t | Lval (Var v) NoOffset => vtype v | _ => TInt end;
  layout t := t;
  isPointerType t := match unroll t with TPtr _ => true | _ => false end;
  same t1 t2 := match t1, t2 with TPtr v1, TPtr v2 => Bool.eqb v1 v2 | TInt, TInt => true | _, _ => false end;
  same_decayed t1 t2 := match t1, t2 with TPtr v1, TPtr v2 => Bool.eqb v1 v2 | TInt, TInt => true | _, _ => false end;
  ulongType := TInt;
  pointee _ := TInt;
  typeOfOffset := ex_typeOf;
  mkAddrOrStartOf := AddrOf;
  isStaticallyNullPtr e := match e with CInt 0 => true | _ => false end;
  isStaticallyZero e := match e with CInt 0 => true | _ => false end;
  undefined _ := false;
|}.
#[local] Instance ex_simplifier : Simplifier ctype := simplifyPtrExprs.
#[local] Instance ex_compiled : Compiled ctype := {|
  sizeof := ex_sizeof;
  variable_address v := 0x7000 + 0x100 * Z.of_nat (vname v);
  narrow_literal _ := 0x4000; wide_literal _ := 0x4800;
  field_offset _ fi := if bool_decide (fi.1.1 = "a"%string) then 8 else 0;
  convert _ a := a;
  unary _ _ a := a;
  binary op _ a b := match op with PlusA | PlusPI => a +w b | Mult => wrap64 (a * b) | _ => 0 end;
|}.
#[local] Instance ex_compiled_laws : CompiledLaws ctype TInt.
Proof.
  split; try done; [exact ex_sizes|].
  - intros t o fs fi. unfold typeOfOffset, ex_cil, ex_typeOf. by rewrite fold_left_app.
Qed.

#[local] Instance ex_simplifier_laws : SimplifierLaws ctype := simplifyPtrExprs_laws.

(** [&p->a[2] + 1], with [p] a local pointer to [struct { char *n; int a[4]; }]
    that is 0x1000. *)
Definition ex_fields : list fieldinfo := [(("n"%string, 1), TPtr false); (("a"%string, 2), TArray TInt (Constant 4))].
Definition ex_p : varinfo := Varinfo 1 false false (TPtr false).
Definition ex_member : exp ctype :=
  BinOp PlusPI (AddrOf (Mem (Lval (Var ex_p) NoOffset))
    (FieldOff ex_fields (("a"%string, 2), TArray TInt (Constant 4)) (IndexOff TInt (CInt 2) NoOffset))) (CInt 1) (TPtr false).
Definition ex_process : process (H := tiny) :=
  Process tiny (set_rt_mem (L := tiny) (store8 ∅ 0x7100 0x1000) tiny_runtime) false.
Definition ex_describe (e : exp ctype) : answer (bounds_expr ctype) :=
  boundsDescr (intType := TInt) false false [] TInt e.

(** What the other kinds of pointers give: a local and a stored pointer, a
    literal, a cast whose bounds must be fresh, and [p->c] for a flexible [c]. *)
Definition ex_global : varinfo := Varinfo 2 true false (TPtr false).
Example ex_kinds :
  ex_describe (Lval (Var ex_p) NoOffset) = Answer (BoundsLval (ex_p, None)) /\
  ex_describe (BinOp MinusPI (CastE (TPtr false) (Lval (Var ex_global) NoOffset)) (CInt 3) (TPtr false)) =
    Answer (MustFetch (LoadedFrom (Var ex_global) NoOffset)) /\
  ex_describe (CStr "abc") = Answer (literal_rvals (CStr "abc") (CInt 4)) /\
  ex_describe (CastE (TPtr false) (BinOp PlusA (CInt 1) (CInt 2) TInt)) = Answer (MustFetch UnknownOrigin) /\
  ex_describe (StartOf (Mem (Lval (Var ex_p) NoOffset)) (FieldOff ex_fields (("c"%string, 3), TArray TInt Unbounded) NoOffset)) =
    Not_found.
Proof. repeat split. Qed.

Lemma ex_not_null : ~ from_null (T := ctype) false false ex_member.
Proof.
  assert (forall e : exp ctype, match e with AddrOf (Mem (Lval (Var _) NoOffset)) _ => True | _ => False end ->
    simplify e = e -> ~ from_null (T := ctype) false false e) as Hno.
  { intros e He Hs Hn. destruct Hn as [e Hn|e op p i t _ Hsi _|e t p Hsi _ _]; destruct e; try done;
      unfold simplified in Hsi; rewrite Hs in Hsi; discriminate Hsi. }
  intros Hn. inversion Hn as [e He|e op p i t _ Hs Hp|e t p Hs _ _]; subst; [discriminate He| |discriminate Hs].
  injection Hs as <- <- <- <-. revert Hp. apply Hno; [exact I|reflexivity].
Qed.

