(* ===== verification/PtrIntArith.v ===== *)
(** * Pointer arithmetic in the integer domain

    Before the bounds instrumentation the front end runs a pass that turns
    nests of pointer additions into a single one, so that only one derivation
    has to be checked ([src/frontend/c/ptrintarith/ptrintarith.ml]).  The file
    models the visitor on an expression language with C's evaluation of
    integers: the usual conversions, unsigned arithmetic that wraps, signed
    overflow undefined.  The pass is correct when the integer arithmetic that it
    introduces is exact, in particular for indexes of type [unsigned long]; it
    changes the meaning of [p - 1u]. *)
From S2P Require Import Prelude.

(** ** Expressions

    Integer types after promotion, on a 64-bit machine; a pointer type is the
    size of what it points to. *)
Inductive ikind := IInt | IUInt | ILong | IULong.
#[export] Instance ikind_eq_dec : EqDecision ikind.
Proof. solve_decision. Defined.
Inductive ctyp := TInt (k : ikind) | TPtr (elt : Z).

Inductive unop := Neg.
Inductive binop := PlusA | MinusA | Mult | PlusPI | MinusPI | IndexPI.
Inductive exp :=
| Const (n : Z) (k : ikind)
| LvalVar (x : nat) (t : ctyp)
| LvalMem (e : exp) (t : ctyp)
| UnOp (op : unop) (e : exp) (t : ctyp)
| BinOp (op : binop) (e1 e2 : exp) (t : ctyp)
| CastE (t : ctyp) (e : exp).

(** ** The visitor *)
Section visitor.
(** [Cil.typeOf]; it only decides the annotations of the new nodes. *)
Context (typeOf : exp -> ctyp).

(** The replacement on the way down, and on the way up. *)
Definition vexpr_pre (outerE : exp) : exp :=
  match outerE with
  | BinOp MinusPI subEP subEI t => BinOp PlusPI subEP (UnOp Neg subEI (typeOf subEI)) t
  | BinOp IndexPI subEP subEI t => BinOp PlusPI subEP subEI t
  | _ => outerE
  end.
Definition vexpr_post (e : exp) : exp :=
  match e with
  | BinOp PlusPI (BinOp PlusPI subEP subEI1 _) subEI2 ptrTOuter =>
      BinOp PlusPI subEP (BinOp PlusA subEI1 subEI2 (typeOf subEI1)) ptrTOuter
  | _ => e
  end.

(** The subexpressions of an expression. *)
Definition map_children (f : exp -> exp) (e : exp) : exp :=
  match e with
  | Const _ _ | LvalVar _ _ => e
  | LvalMem e t => LvalMem (f e) t
  | UnOp op e t => UnOp op (f e) t
  | BinOp op e1 e2 t => BinOp op (f e1) (f e2) t
  | CastE t e => CastE t (f e)
  end.

Fixpoint vexpr (e : exp) : exp :=
  match e with
  | Const _ _ | LvalVar _ _ => vexpr_post e
  | LvalMem e t => vexpr_post (LvalMem (vexpr e) t)
  | UnOp op e t => vexpr_post (UnOp op (vexpr e) t)
  | BinOp MinusPI e1 e2 t => vexpr_post (BinOp PlusPI (vexpr e1) (UnOp Neg (vexpr e2) (typeOf e2)) t)
  | BinOp IndexPI e1 e2 t => vexpr_post (BinOp PlusPI (vexpr e1) (vexpr e2) t)
  | BinOp op e1 e2 t => vexpr_post (BinOp op (vexpr e1) (vexpr e2) t)
  | CastE t e => vexpr_post (CastE t (vexpr e))
  end.

(** [vexpr] is what CIL makes of [ChangeDoChildrenPost]: replace, visit the
    children of the replacement, and apply the function to the outcome. *)
Lemma vexpr_ChangeDoChildrenPost e : vexpr e = vexpr_post (map_children vexpr (vexpr_pre e)).
Proof. by destruct e as [| | | |[] ? ? ?|]. Qed.
End visitor.

(** ** Evaluation *)
Definition bits (k : ikind) : Z := match k with IInt | IUInt => 32 | _ => 64 end.
Definition signed (k : ikind) : bool := match k with IInt | ILong => true | _ => false end.
Definition in_range (k : ikind) (z : Z) : bool :=
  if signed k then (- 2 ^ (bits k - 1) <=? z) && (z <? 2 ^ (bits k - 1))
  else (0 <=? z) && (z <? 2 ^ bits k).

(** Conversion to a type, and the result of an operation in it. *)
Definition convert (k : ikind) (z : Z) : Z :=
  let m := z mod 2 ^ bits k in
  if signed k && (2 ^ (bits k - 1) <=? m) then m - 2 ^ bits k else m.
Definition arith (k : ikind) (z : Z) : option Z :=
  if signed k then (if in_range k z then Some z else None) else Some (z mod 2 ^ bits k).

(** The usual arithmetic conversions. *)
Definition usual (k1 k2 : ikind) : ikind :=
  match k1, k2 with
  | IULong, _ | _, IULong => IULong
  | ILong, _ | _, ILong => ILong
  | IUInt, _ | _, IUInt => IUInt
  | _, _ => IInt
  end.

Inductive val := VInt (z : Z) (k : ikind) | VPtr (a elt : Z).

Definition add_ptr (a elt i : Z) : val := VPtr (wrap64 (a + i * elt)) elt.
Definition apply_binop (op : binop) (v1 v2 : val) : option val :=
  match op, v1, v2 with
  | PlusPI, VPtr a elt, VInt i _ | IndexPI, VPtr a elt, VInt i _ => Some (add_ptr a elt i)
  | MinusPI, VPtr a elt, VInt i _ => Some (add_ptr a elt (- i))
  | PlusA, VInt i k1, VInt j k2 =>
      let k := usual k1 k2 in z ← arith k (convert k i + convert k j); Some (VInt z k)
  | MinusA, VInt i k1, VInt j k2 =>
      let k := usual k1 k2 in z ← arith k (convert k i - convert k j); Some (VInt z k)
  | Mult, VInt i k1, VInt j k2 =>
      let k := usual k1 k2 in z ← arith k (convert k i * convert k j); Some (VInt z k)
  | _, _, _ => None
  end.

(** A word read as a value of a type. *)
Definition word_value (t : ctyp) (z : Z) : val :=
  match t with TInt k => VInt (convert k z) k | TPtr elt => VPtr (wrap64 z) elt end.

Section evaluation.
(** The variables and the memory, as words; [None] is undefined behaviour. *)
Context (vars : nat -> Z) (memory : Z -> Z).

Fixpoint eval (e : exp) : option val :=
  match e with
  | Const n k => Some (VInt (convert k n) k)
  | LvalVar x t => Some (word_value t (vars x))
  | LvalMem e t => v ← eval e; match v with VPtr a _ => Some (word_value t (memory a)) | _ => None end
  | UnOp Neg e _ => v ← eval e; match v with VInt i k => z ← arith k (- i); Some (VInt z k) | _ => None end
  | BinOp op e1 e2 _ => v1 ← eval e1; v2 ← eval e2; apply_binop op v1 v2
  | CastE t e =>
      v ← eval e; Some (word_value t (match v with VInt z _ => z | VPtr a _ => a end))
  end.

(** ** When the pass is exact

    [exact_neg] and [exact_sum]: negating, or adding, indexes of the values and
    types given is exact as far as a 64-bit address is concerned. *)
Definition exact_neg (i : Z) (k : ikind) : bool :=
  match k with IULong => true | IUInt => i =? 0 | _ => in_range k (- i) end.
Definition exact_sum (i : Z) (k1 : ikind) (j : Z) (k2 : ikind) : bool :=
  let k := usual k1 k2 in
  match k with IULong => true | _ => in_range k i && in_range k j && in_range k (i + j) end.

(** The index of the single addition that a pointer expression becomes, with
    its type; [None] for an expression that does not become one. *)
Definition index_of (e : exp) : option (Z * ikind) :=
  match e with
  | BinOp PlusPI _ i _ => match eval i with Some (VInt z k) => Some (z, k) | _ => None end
  | _ => None
  end.

(** The conditions at every node of an expression. *)
Definition merge_ok (typeOf : exp -> ctyp) (p : exp) (i : option val) : bool :=
  match index_of (vexpr typeOf p), i with
  | Some (z1, k1), Some (VInt z2 k2) => exact_sum z1 k1 z2 k2
  | _, _ => true
  end.
Fixpoint exact (typeOf : exp -> ctyp) (e : exp) : bool :=
  match e with
  | Const _ _ | LvalVar _ _ => true
  | LvalMem e _ | UnOp _ e _ | CastE _ e => exact typeOf e
  | BinOp MinusPI p i _ =>
      exact typeOf p && exact typeOf i &&
      match eval i with
      | Some (VInt z k) => exact_neg z k && merge_ok typeOf p (eval (UnOp Neg i (typeOf i)))
      | _ => true
      end
  | BinOp IndexPI p i _ | BinOp PlusPI p i _ => exact typeOf p && exact typeOf i && merge_ok typeOf p (eval i)
  | BinOp _ e1 e2 _ => exact typeOf e1 && exact typeOf e2
  end.
End evaluation.

(** No additions under additions, and no other pointer arithmetic. *)
Fixpoint flat_arith (e : exp) : bool :=
  match e with
  | Const _ _ | LvalVar _ _ => true
  | LvalMem e _ | UnOp _ e _ | CastE _ e => flat_arith e
  | BinOp MinusPI _ _ _ | BinOp IndexPI _ _ _ => false
  | BinOp PlusPI (BinOp PlusPI _ _ _) _ _ => false
  | BinOp _ e1 e2 _ => flat_arith e1 && flat_arith e2
  end.

(** ** Lemmas *)
Lemma convert_small k z : in_range k z = true -> convert k z = z.
Proof.
  unfold in_range, convert. destruct k; cbn [signed bits]; rewrite andb_true_iff, Z.leb_le, Z.ltb_lt; intros Hz;
    cbn [andb]; zcases; eval_pow2; mod_lia.
Qed.
Lemma convert_range k z : in_range k (convert k z) = true.
Proof.
  unfold in_range, convert.
  destruct k; cbn [signed bits andb]; apply andb_true_iff; rewrite Z.leb_le, Z.ltb_lt; zcases; eval_pow2; mod_lia.
Qed.
Lemma arith_range k z z' : arith k z = Some z' -> in_range k z' = true.
Proof.
  unfold arith. destruct k; cbn [signed]; try (destruct (in_range _ z) eqn:Hz; [by intros [= <-]|done]);
    intros [= <-]; unfold in_range; cbn [signed bits]; eval_pow2; apply andb_true_iff;
    rewrite Z.leb_le, Z.ltb_lt; mod_lia.
Qed.

(** Equal indexes modulo 2^64 give the same address. *)
Lemma add_ptr_congr a elt i j : i mod 2 ^ 64 = j mod 2 ^ 64 -> add_ptr a elt i = add_ptr a elt j.
Proof.
  intros Hij. unfold add_ptr, wrap64. f_equal. rewrite (Z.add_mod _ (i * _)), (Z.add_mod _ (j * _)) by lia.
  do 2 f_equal. rewrite (Z.mul_mod i), (Z.mul_mod j) by lia. by rewrite Hij.
Qed.
Lemma add_ptr_add a elt i j :
  (match add_ptr a elt i with VPtr a elt => add_ptr a elt j | v => v end) = add_ptr a elt (i + j).
Proof.
  unfold add_ptr, wrap64. f_equal. rewrite Zplus_mod_idemp_l. f_equal. lia.
Qed.

Lemma mod64_mod64 z : (z mod 2 ^ 64) mod 2 ^ 64 = z mod 2 ^ 64.
Proof. by rewrite Z.mod_mod. Qed.

(** Exact negations and sums. *)
Lemma exact_neg_ok i k :
  in_range k i = true -> exact_neg i k = true ->
  exists z, arith k (- i) = Some z /\ z mod 2 ^ 64 = (- i) mod 2 ^ 64.
Proof.
  intros Hr He. unfold exact_neg in He. destruct k; unfold arith; cbn [signed bits]; rewrite ?He.
  1,3: by eexists. - apply Z.eqb_eq in He as ->. by eexists. - eexists; split; [done|]. apply mod64_mod64.
Qed.
Lemma exact_sum_ok i k1 j k2 :
  in_range k1 i = true -> in_range k2 j = true -> exact_sum i k1 j k2 = true ->
  let k := usual k1 k2 in
  exists z, arith k (convert k i + convert k j) = Some z /\ z mod 2 ^ 64 = (i + j) mod 2 ^ 64.
Proof.
  intros Hi Hj He k. unfold exact_sum in He. fold k in He.
  destruct k.
  4: { unfold arith, convert; cbn [signed bits andb]. eexists; split; [done|].
       by rewrite mod64_mod64, <- Z.add_mod. }
  all: apply andb_true_iff in He as [[H1 H2]%andb_true_iff H3]; rewrite !convert_small by done;
    unfold arith; cbn [signed bits]; rewrite ?H3; eexists; split; try done.
  unfold in_range in H3. cbn [signed bits] in H3. apply andb_true_iff in H3 as [?%Z.leb_le ?%Z.ltb_lt].
  by rewrite (Z.mod_small (i + j) (2 ^ 32)).
Qed.

Section correctness.
Context (typeOf : exp -> ctyp) (vars : nat -> Z) (memory : Z -> Z).
Abbreviation eval := (eval vars memory).
Implicit Types (e p i : exp).

Lemma eval_range e z k : eval e = Some (VInt z k) -> in_range k z = true.
Proof.
  assert (Hw : forall t z0 z k, word_value t z0 = VInt z k -> in_range k z = true).
  { intros [k0|] z0 z1 k1; cbn; [|done]. intros [= <- <-]. apply convert_range. }
  destruct e as [n k0|x t|e t|[] e t|op e1 e2 t|t e]; cbn [PtrIntArith.eval].
  - intros [= <- <-]. apply convert_range.
  - intros [= H]. by apply (Hw _ _ _ _ H).
  - destruct (eval e) as [[]|]; cbn; try done. intros [= H]. by apply (Hw _ _ _ _ H).
  - destruct (eval e) as [[i k0|]|]; cbn; try done. destruct (arith k0 (- i)) eqn:Ha; cbn; [|done].
    intros [= <- <-]. by eapply arith_range.
  - destruct (eval e1) as [v1|], (eval e2) as [v2|]; cbn; try done.
    destruct op, v1 as [i1 k1|], v2 as [i2 k2|]; cbn; try done;
      match goal with |- context [arith ?k ?x] => destruct (arith k x) eqn:Ha end; cbn; try done;
      intros [= <- <-]; by eapply arith_range.
  - destruct (eval e) as [v|]; cbn; [|done]. intros [= H]. by apply (Hw _ _ _ _ H).
Qed.

(** The step on the way up, when the sum of the indexes is exact. *)
Lemma post_eval e v :
  eval e = Some v ->
  (forall p i1 t1 i2 t z1 k1 z2 k2, e = BinOp PlusPI (BinOp PlusPI p i1 t1) i2 t ->
     eval i1 = Some (VInt z1 k1) -> eval i2 = Some (VInt z2 k2) -> exact_sum z1 k1 z2 k2 = true) ->
  eval (vexpr_post typeOf e) = Some v.
Proof.
  intros He Hs. destruct e as [| | | |op e1 i2 t|]; try exact He. destruct op; try exact He.
  destruct e1 as [| | | |op p i1 t1|]; try exact He. destruct op; try exact He. cbn [vexpr_post].
  cbn [PtrIntArith.eval] in *. destruct (eval p) as [vp|]; [|done]. destruct (eval i1) as [v1|] eqn:H1; [|done].
  cbn [mbind option_bind] in *. destruct vp as [|a elt], v1 as [z1 k1|]; try done.
  cbn [apply_binop mbind option_bind] in He.
  destruct (eval i2) as [v2|] eqn:H2; [|done]. cbn [mbind option_bind] in *.
  destruct v2 as [z2 k2|]; [|done]. injection He as <-.
  specialize (Hs p i1 t1 i2 t z1 k1 z2 k2 eq_refl H1 H2).
  destruct (exact_sum_ok z1 k1 z2 k2 (eval_range _ _ _ H1) (eval_range _ _ _ H2) Hs) as (z & Hz & Hc).
  cbn [apply_binop]. cbv zeta. rewrite Hz. cbn [mbind option_bind apply_binop]. f_equal.
  rewrite (add_ptr_congr a elt z (z1 + z2) Hc). symmetry. apply (add_ptr_add a elt z1 z2).
Qed.

Lemma post_sum p i tp v t vi :
  eval (vexpr typeOf p) = Some vi ->
  merge_ok vars memory typeOf p (eval i) = true ->
  eval (BinOp PlusPI (vexpr typeOf p) i tp) = Some v ->
  eval (vexpr_post typeOf (BinOp PlusPI (vexpr typeOf p) i t)) = Some v.
Proof.
  intros Hp Hm He. apply post_eval; [exact He|].
  intros p' i1 t1 i2 t2 z1 k1 z2 k2 [= Hvp <- _] H1 H2. unfold merge_ok in Hm. rewrite Hvp, H2 in Hm.
  cbn [index_of] in Hm. by rewrite H1 in Hm.
Qed.

(** C17. The pass that merges pointer additions preserves the meaning of
    expressions: whenever an expression has a value, the rewritten one has the
    same value, provided that the additions and negations of indexes that the
    pass introduces are exact. *)
Theorem ptrintarith_preserves e v :
  eval e = Some v -> exact vars memory typeOf e = true -> eval (vexpr typeOf e) = Some v.
Proof.
  revert v. induction e as [n k|x t|e IH t|[] e IH t|op e1 IH1 e2 IH2 t|t e IH]; intros v He Hx;
    try exact He; cbn [PtrIntArith.eval exact vexpr vexpr_post] in *.
  - destruct (eval e) as [ve|]; [|done]. by rewrite (IH ve).
  - destruct (eval e) as [ve|]; [|done]. by rewrite (IH ve).
  - destruct (eval e1) as [v1|] eqn:H1; [|done]. destruct (eval e2) as [v2|] eqn:H2; [|done].
    cbn [mbind option_bind] in He.
    assert (Harith : op <> PlusPI -> op <> MinusPI -> op <> IndexPI ->
      exact vars memory typeOf e1 && exact vars memory typeOf e2 = true ->
      eval (BinOp op (vexpr typeOf e1) (vexpr typeOf e2) t) = Some v).
    { intros _ _ _ [Hx1 Hx2]%andb_true_iff. cbn [PtrIntArith.eval].
      by rewrite (IH1 v1 eq_refl Hx1), (IH2 v2 eq_refl Hx2). }
    destruct op; try by apply Harith.
    + apply andb_true_iff in Hx as [[Hx1 Hx2]%andb_true_iff Hm].
      apply (post_sum e1 _ t _ _ v1); [by apply IH1|by rewrite (IH2 v2)|].
      cbn [PtrIntArith.eval]. by rewrite (IH1 v1 eq_refl Hx1), (IH2 v2 eq_refl Hx2).
    + apply andb_true_iff in Hx as [[Hx1 Hx2]%andb_true_iff Hm].
      destruct v1 as [|a elt]; [by destruct v2|]. destruct v2 as [i k|]; [|done].
      apply andb_true_iff in Hm as [Hn Hm]. cbn [PtrIntArith.eval mbind option_bind apply_binop] in He, Hm.
      destruct (exact_neg_ok i k (eval_range _ _ _ H2) Hn) as (z & Hz & Hc).
      rewrite Hz in Hm. cbn [mbind option_bind] in Hm. injection He as <-.
      assert (eval (UnOp Neg (vexpr typeOf e2) (typeOf e2)) = Some (VInt z k)) as Hneg.
      { cbn [PtrIntArith.eval]. rewrite (IH2 _ eq_refl Hx2). cbn [mbind option_bind]. by rewrite Hz. }
      apply (post_sum e1 _ t _ _ (VPtr a elt)); [by apply IH1|by rewrite Hneg|].
      cbn [PtrIntArith.eval] in *. rewrite (IH1 _ eq_refl Hx1), Hneg. cbn [mbind option_bind apply_binop].
      f_equal. by apply add_ptr_congr.
    + apply andb_true_iff in Hx as [[Hx1 Hx2]%andb_true_iff Hm].
      apply (post_sum e1 _ t _ _ v1); [by apply IH1|by rewrite (IH2 v2)|].
      cbn [PtrIntArith.eval]. rewrite (IH1 v1 eq_refl Hx1), (IH2 v2 eq_refl Hx2). exact He.
  - destruct (eval e) as [ve|]; [|done]. by rewrite (IH ve).
Qed.

(** The conditions hold when all indexes are cast to [unsigned long]. *)
Fixpoint ulong_indexes (e : exp) : bool :=
  match e with
  | Const _ _ | LvalVar _ _ => true
  | LvalMem e _ | UnOp _ e _ | CastE _ e => ulong_indexes e
  | BinOp (MinusPI | PlusPI | IndexPI) p i _ =>
      ulong_indexes p && ulong_indexes i && match i with CastE (TInt IULong) _ => true | _ => false end
  | BinOp _ e1 e2 _ => ulong_indexes e1 && ulong_indexes e2
  end.

Lemma merge_ulong p z : merge_ok vars memory typeOf p (Some (VInt z IULong)) = true.
Proof. unfold merge_ok, exact_sum. destruct (index_of _ _ _) as [[z1 k1]|]; [|done]. by destruct k1. Qed.

Theorem ulong_exact e : ulong_indexes e = true -> exact vars memory typeOf e = true.
Proof.
  induction e as [n k|x t|e IH t|op e IH t|op e1 IH1 e2 IH2 t|t e IH]; cbn [ulong_indexes exact]; try done.
  assert (Hval : forall e, match e with CastE (TInt IULong) _ => true | _ => false end = true ->
    eval e = None \/ exists z, eval e = Some (VInt z IULong)).
  { intros e He. destruct e as [| | | | |[[]|] e]; try done. cbn [PtrIntArith.eval].
    destruct (eval e) as [ve|]; [right; by eexists|by left]. }
  assert (Hnone : forall p, merge_ok vars memory typeOf p None = true).
  { intros p. unfold merge_ok. by destruct (index_of _ _ _) as [[]|]. }
  destruct op; try (intros [H1 H2]%andb_true_iff; by rewrite IH1, IH2).
  all: intros [[H1 H2]%andb_true_iff H3]%andb_true_iff; rewrite IH1, IH2 by done; cbn [andb];
    cbn [PtrIntArith.eval]; destruct (Hval e2 H3) as [Hv|[z Hv]]; rewrite Hv; try apply Hnone;
    try apply merge_ulong; cbn [mbind option_bind]; done.
Qed.

(** After the pass no pointer addition is the operand of another, and no
    other pointer arithmetic is left, so that a nest of derivations costs one
    check. *)
Theorem ptrintarith_flattens e : flat_arith (vexpr typeOf e) = true.
Proof.
  assert (Hpost : forall p i t, flat_arith p = true -> flat_arith i = true ->
    flat_arith (vexpr_post typeOf (BinOp PlusPI p i t)) = true).
  { intros p i t Hp Hi. destruct p as [| | | |op p i1 t1|]; cbn [vexpr_post flat_arith] in *;
      try (by rewrite ?Hp, ?Hi).
    destruct op; cbn [flat_arith] in *; try (by rewrite ?Hp, ?Hi).
    destruct p as [| | | |[] p i2 t2|]; cbn [flat_arith] in *; rewrite ?Hi, ?andb_true_r; done. }
  induction e as [n k|x t|e IH t|op e IH t|op e1 IH1 e2 IH2 t|t e IH]; try done.
  destruct op; cbn [vexpr]; try (cbn [vexpr_post flat_arith]; by rewrite IH1, IH2).
  all: by apply Hpost.
Qed.
End correctness.

(** ** Examples *)
Definition ex_typeOf (e : exp) : ctyp :=
  match e with
  | Const _ k => TInt k | LvalVar _ t | LvalMem _ t | UnOp _ _ t | BinOp _ _ _ t | CastE t _ => t
  end.
Definition p_var : exp := LvalVar 0 (TPtr 4).
Definition i_var : exp := LvalVar 1 (TInt IInt).
(** [p + i - 2] on ints. *)
Definition ex_nest : exp := BinOp MinusPI (BinOp PlusPI p_var i_var (TPtr 4)) (Const 2 IInt) (TPtr 4).
Definition ex_vars (x : nat) : Z := match x with O => 0x1000 | _ => 5 end.

Lemma ptrintarith_preserves_witness :
  eval ex_vars (fun _ => 0) (vexpr ex_typeOf ex_nest) = Some (VPtr 0x100c 4).
Proof. apply (ptrintarith_preserves ex_typeOf ex_vars (fun _ => 0) ex_nest); vm_compute; reflexivity. Defined.

Lemma ulong_exact_witness :
  exact ex_vars (fun _ => 0) ex_typeOf (BinOp MinusPI p_var (CastE (TInt IULong) i_var) (TPtr 4)) = true.
Proof. apply ulong_exact. reflexivity. Defined.

(** The pass is wrong for [p - 1u]: it becomes [p + -1u], where the negation is
    done in 32 bits, so that the pointer moves up by nearly 16 gigabytes. *)
Theorem minus_unsigned_miscompiled :
  let e := BinOp MinusPI p_var (Const 1 IUInt) (TPtr 4) in
  eval ex_vars (fun _ => 0) e = Some (VPtr 0xffc 4) /\
  eval ex_vars (fun _ => 0) (vexpr ex_typeOf e) = Some (VPtr (0x1000 + 4 * (2 ^ 32 - 1)) 4).
Proof. by vm_compute. Qed.

(** And for [p + i + n] with [i] = -1 and an [unsigned] [n] = 0. *)
Theorem mixed_signs_miscompiled :
  let e := BinOp PlusPI (BinOp PlusPI p_var (Const (-1) IInt) (TPtr 4)) (Const 0 IUInt) (TPtr 4) in
  eval ex_vars (fun _ => 0) e = Some (VPtr 0xffc 4) /\
  eval ex_vars (fun _ => 0) (vexpr ex_typeOf e) = Some (VPtr (0x1000 + 4 * (2 ^ 32 - 1)) 4).
Proof. by vm_compute. Qed.
