(* ===== verification/FaultText.v ===== *)
(** * What the fault handler writes

    The handler of [Fault.v] runs in a signal context, where it cannot use
    [printf]: it writes its messages to standard error byte by byte, with macros
    for addresses and short numbers ([MSGADDR], [MSGSHORT], [src/libcrunch.c]).
    This file models the handler again with its output, proves that the output
    is all that is added, and that a message can be read back: it says which
    register was changed, from what and to what. *)
From Stdlib Require Import Ascii.
From S2P Require Import Prelude Config TrapPtr Fault.

(** Bytes written to file descriptor 2. *)
Abbreviation text := (list Z).
Definition byte_of (c : ascii) : Z := Z.of_N (N_of_ascii c).
Definition MSGLIT (s : string) : text := map byte_of (String.list_ascii_of_string s).
Arguments MSGLIT s%_string.
Definition MSGBUF (s : string) : text := MSGLIT s.
Definition MSGCHAR (c : Z) : text := [c].
Definition HEXCHAR (n : Z) : Z := if 9 <? n then byte_of "a" + (n - 10) else byte_of "0" + n.
Definition DECCHAR (n : Z) : Z := byte_of "0" + n.
Definition hex_shifts : list Z := [60; 56; 52; 48; 44; 40; 36; 32; 28; 24; 20; 16; 12; 8; 4; 0].
Definition MSGADDR (a : Z) : text := flat_map (fun k => MSGCHAR (HEXCHAR (shr64 a k mod 16))) hex_shifts.
(** C's division and remainder truncate. *)
Definition dec_divisors : list Z := [10000; 1000; 100; 10; 1].
Definition MSGSHORT (a : Z) : text := flat_map (fun d => MSGCHAR (DECCHAR (Z.rem (a ÷ d) 10))) dec_divisors.
(** The cast to [short]. *)
Definition to_short (n : Z) : Z := (n + 2 ^ 15) mod 2 ^ 16 - 2 ^ 15.

(** ** The handler with its output *)

(** The names of the tags. *)
Definition kindstr (tag : Z) : option string :=
  if tag =? 1 then Some "one-past"%string
  else if tag =? 2 then Some "one-before"%string
  else if tag =? 3 then Some "type-invalid"%string
  else None.

Definition try_register_fixup_text (regnum : Z) (s : bool * gregs) : text * (bool * gregs) :=
  match lookup_reg regnum with
  | None => (MSGLIT "register mapping error", s)
  | Some r =>
      let savedval := s.2 r in
      let said := MSGLIT "register " ++ MSGSHORT regnum ++ MSGLIT " contents 0x" ++ MSGADDR savedval ++ MSGLIT " are " in
      match kindstr (shr64 savedval LIBCRUNCH_TRAP_TAG_SHIFT) with
      | None => (said ++ MSGLIT "not a trap pointer" ++ [10], s)
      | Some kind =>
          let newval := fixup_value savedval in
          (said ++ MSGLIT "possibly a " ++ MSGBUF kind
             ++ MSGLIT " trap pointer, so detrapping them; new value is " ++ MSGADDR newval ++ [10],
           (true, set_greg s.2 r newval))
      end
  end.

Definition fixup_from_text (reg : option Z) (s : bool * gregs) : text * (bool * gregs) :=
  match reg with
  | Some n => if negb (n =? -1) then try_register_fixup_text n s else ([], s)
  | None => ([], s)
  end.

Definition saw_operand_cb_text (o : operand) (s : bool * gregs) : text * (bool * gregs) :=
  if negb (op_type o =? OP_mem) then ([], s)
  else
    let intro := MSGLIT "*** memory operand was computed from " in
    match fromreg1 o, fromreg2 o with
    | None, None => (intro ++ MSGLIT "unknown values" ++ [10], s)
    | r1, r2 =>
        let said1 :=
          match r1 with
          | Some n =>
              (if n =? -1 then MSGLIT "unknown register" else MSGLIT "register " ++ MSGSHORT (to_short n))
              ++ match r2 with Some _ => MSGLIT " and " | None => [] end
          | None => []
          end in
        let said2 :=
          match r2 with
          | Some n =>
              if n =? -1 then MSGLIT "unknown register" ++ [10]
              else MSGLIT "register " ++ MSGSHORT (to_short n) ++ [10]
          | None => []
          end in
        let '(t1, s) := fixup_from_text r1 s in
        let '(t2, s) := fixup_from_text r2 s in
        (intro ++ said1 ++ said2 ++ t1 ++ t2, s)
    end.

Definition operands_text (ops : list operand) (ts : text * (bool * gregs)) : text * (bool * gregs) :=
  fold_left (fun ts o => let '(t, s) := saw_operand_cb_text o ts.2 in (ts.1 ++ t, s)) ops ts.

Definition handle_sigsegv_text (enumerate_operands : Z -> list operand) (g : gregs) (fixups : Z) : text * handled :=
  let faulting_code_address := g RIP in
  let said := MSGLIT "*** libcrunch caught segmentation fault" ++ [10] in
  let '(t, (did_fixup, g)) := operands_text (enumerate_operands faulting_code_address) (said, (false, g)) in
  if did_fixup then (t, Resume g (wrap64 (fixups + 1)))
  else (t ++ MSGLIT "*** libcrunch did not recover from segmentation fault, so terminating program" ++ [10],
        Exit (128 + SIGSEGV)).

(** [handle_sigbus] sleeps for ten seconds and gives up. *)
Definition SIGBUS : Z := 7.
Definition handle_sigbus : text * Z * handled :=
  (MSGLIT "*** libcrunch caught SIGBUS; sleeping for 10 seconds", 10, Exit (128 + SIGBUS)).

(** ** Reading it back *)
Definition unhex (c : Z) : option Z :=
  if (byte_of "0" <=? c) && (c <=? byte_of "9") then Some (c - byte_of "0")
  else if (byte_of "a" <=? c) && (c <=? byte_of "f") then Some (c - byte_of "a" + 10)
  else None.
Definition read_digits (base : Z) (t : text) : option Z :=
  foldl (fun acc c => a ← acc; d ← unhex c; if d <? base then Some (base * a + d) else None) (Some 0) t.
Definition read_addr (t : text) : option Z := read_digits 16 t.
Definition read_short (t : text) : option Z := read_digits 10 t.
(** Skipping a literal. *)
Definition skip (lit : text) (t : text) : option text :=
  if bool_decide (take (length lit) t = lit) then Some (drop (length lit) t) else None.

(** The line about a register: its number and contents, and the new contents
    with the tag when it was changed. *)
Definition parse_report (t : text) : option (Z * Z * option (Z * Z)) :=
  t ← skip (MSGLIT "register ") t;
  n ← read_short (take 5 t);
  t ← skip (MSGLIT " contents 0x") (drop 5 t);
  old ← read_addr (take 16 t);
  t ← skip (MSGLIT " are ") (drop 16 t);
  if bool_decide (t = MSGLIT "not a trap pointer" ++ [10]) then Some (n, old, None)
  else
    t ← skip (MSGLIT "possibly a ") t;
    let kinds := omap (fun tag => k ← kindstr tag; t ← skip (MSGBUF k) t; Some (tag, t)) [1; 2; 3] in
    '(tag, t) ← head kinds;
    t ← skip (MSGLIT " trap pointer, so detrapping them; new value is ") t;
    new ← read_addr (take 16 t);
    Some (n, old, Some (tag, new)).

(** ** Properties *)

Lemma kindstr_tag tag : is_our_tag tag = match kindstr tag with Some _ => true | None => false end.
Proof.
  unfold is_our_tag, kindstr. by destruct (tag =? 1), (tag =? 2), (tag =? 3).
Qed.

Lemma try_register_text_erases n s : (try_register_fixup_text n s).2 = try_register_fixup n s.
Proof.
  unfold try_register_fixup_text, try_register_fixup. destruct s as [did g]. cbn [snd].
  destruct (lookup_reg n) as [r|]; [|done]. rewrite kindstr_tag. by destruct (kindstr _).
Qed.
Lemma fixup_from_text_erases r s : (fixup_from_text r s).2 = fixup_from r s.
Proof.
  unfold fixup_from_text, fixup_from. destruct r as [n|]; [|done]. destruct (n =? -1); [done|].
  apply try_register_text_erases.
Qed.
Lemma saw_operand_text_erases o s : (saw_operand_cb_text o s).2 = saw_operand_cb o s.
Proof.
  unfold saw_operand_cb_text, saw_operand_cb. destruct (negb (op_type o =? OP_mem)); [done|].
  assert (forall r1 r2, (let '(t1, s1) := fixup_from_text r1 s in fixup_from_text r2 s1).2 =
    fixup_from r2 (fixup_from r1 s)) as Hboth.
  { intros r1 r2. rewrite <- (fixup_from_text_erases r1 s). destruct (fixup_from_text r1 s) as [t1 s1].
    apply fixup_from_text_erases. }
  specialize (Hboth (fromreg1 o) (fromreg2 o)). destruct (fromreg1 o), (fromreg2 o); try done;
    rewrite <- Hboth; destruct (fixup_from_text _ s) as [t1 s1]; by destruct (fixup_from_text _ s1).
Qed.
Lemma operands_text_erases ops : forall ts,
  (operands_text ops ts).2 = fold_left (fun s o => saw_operand_cb o s) ops ts.2.
Proof.
  unfold operands_text. induction ops as [|o ops IH]; intros ts; [done|]. cbn [fold_left]. rewrite IH.
  f_equal. rewrite <- saw_operand_text_erases. by destruct (saw_operand_cb_text o ts.2).
Qed.

(** The output is all that distinguishes the two models of the handler. *)
Theorem handle_sigsegv_text_erases enumerate_operands g fixups :
  (handle_sigsegv_text enumerate_operands g fixups).2 = handle_sigsegv enumerate_operands g fixups.
Proof.
  unfold handle_sigsegv_text, handle_sigsegv.
  set (said := MSGLIT "*** libcrunch caught segmentation fault" ++ [10]). clearbody said.
  pose proof (operands_text_erases (enumerate_operands (g RIP)) (said, (false, g))) as He. cbn [snd] in He.
  rewrite <- He. destruct (operands_text _ _) as [t [did g']]. cbn [snd]. by destruct did.
Qed.

(** *** Digits *)
Lemma unhex_HEXCHAR d : 0 <= d < 16 -> unhex (HEXCHAR d) = Some d.
Proof.
  intros Hd. assert (d ∈ [0; 1; 2; 3; 4; 5; 6; 7; 8; 9; 10; 11; 12; 13; 14; 15]) as Hin.
  { rewrite !elem_of_cons. lia. }
  repeat (apply elem_of_cons in Hin as [->|Hin]; [reflexivity|]). by apply not_elem_of_nil in Hin.
Qed.
Lemma DECCHAR_HEXCHAR d : 0 <= d < 10 -> DECCHAR d = HEXCHAR d.
Proof. intros Hd. unfold DECCHAR, HEXCHAR. by rewrite (proj2 (Z.ltb_ge _ _)) by lia. Qed.

(** Reading the digits of [a] from the position [n] down. *)
Fixpoint digits (base a : Z) (n : nat) : list Z :=
  match n with O => [] | S n => (a / base ^ Z.of_nat n) mod base :: digits base a n end.
Lemma read_digits_from base a n : forall acc,
  2 <= base <= 16 -> acc = a / base ^ Z.of_nat n ->
  foldl (fun acc c => a ← acc; d ← unhex c; if d <? base then Some (base * a + d) else None)
    (Some acc) (map HEXCHAR (digits base a n)) = Some a.
Proof.
  induction n as [|n IH]; intros acc Hb ->; cbn [digits map foldl].
  { by rewrite Z.pow_0_r, Z.div_1_r. }
  pose proof (Z.mod_pos_bound (a / base ^ Z.of_nat n) base ltac:(lia)).
  cbn [mbind option_bind]. rewrite unhex_HEXCHAR by lia. cbn [mbind option_bind].
  rewrite (proj2 (Z.ltb_lt _ _)) by lia. apply IH; [done|].
  rewrite Nat2Z.inj_succ, Z.pow_succ_r, (Z.mul_comm base (base ^ _)), <- Z.div_div by lia.
  symmetry. apply Z.div_mod. lia.
Qed.
Lemma read_digits_all base a n :
  2 <= base <= 16 -> 0 <= a < base ^ Z.of_nat n -> read_digits base (map HEXCHAR (digits base a n)) = Some a.
Proof. intros Hb Ha. apply read_digits_from; [done|]. by rewrite Z.div_small. Qed.

Lemma MSGADDR_digits a : u64 a -> MSGADDR a = map HEXCHAR (digits 16 a 16).
Proof.
  intros Ha. unfold MSGADDR, hex_shifts, MSGCHAR. cbn [flat_map app digits map].
  unfold shr64. rewrite !Z.shiftr_div_pow2 by lia. reflexivity.
Qed.
Lemma MSGSHORT_digits a : 0 <= a -> MSGSHORT a = map HEXCHAR (digits 10 a 5).
Proof.
  intros Ha. unfold MSGSHORT, dec_divisors, MSGCHAR. cbn [flat_map app digits map].
  assert (Hd : forall d, 0 < d -> DECCHAR (Z.rem (a ÷ d) 10) = HEXCHAR ((a / d) mod 10)).
  { intros d Hd. rewrite Z.quot_div_nonneg by lia. pose proof (Z.div_pos a d Ha Hd).
    rewrite Z.rem_mod_nonneg by lia. apply DECCHAR_HEXCHAR. by apply Z.mod_pos_bound. }
  rewrite !Hd by lia. reflexivity.
Qed.
Lemma read_MSGADDR a : u64 a -> read_addr (MSGADDR a) = Some a.
Proof. intros Ha. rewrite MSGADDR_digits by done. apply (read_digits_all 16 a 16); [lia|exact Ha]. Qed.
Lemma read_MSGSHORT a : 0 <= a < 100000 -> read_short (MSGSHORT a) = Some a.
Proof. intros Ha. rewrite MSGSHORT_digits by lia. apply (read_digits_all 10 a 5); [lia|exact Ha]. Qed.

(** *** Lines *)
Lemma skip_app lit t : skip lit (lit ++ t) = Some t.
Proof. unfold skip. by rewrite take_app_length, bool_decide_true, drop_app_length. Qed.
Lemma split_short n t : take 5 (MSGSHORT n ++ t) = MSGSHORT n /\ drop 5 (MSGSHORT n ++ t) = t.
Proof. done. Qed.
Lemma split_addr a t : take 16 (MSGADDR a ++ t) = MSGADDR a /\ drop 16 (MSGADDR a ++ t) = t.
Proof. done. Qed.
Lemma lookup_reg_range n r : lookup_reg n = Some r -> 0 <= n < 17.
Proof.
  unfold lookup_reg. destruct (Z.ltb_spec n 0); [done|]. destruct (dwarf_regs !! Z.to_nat n) eqn:Hn; [|done].
  intros _. apply lookup_lt_Some in Hn. change (length dwarf_regs) with 17%nat in Hn. lia.
Qed.

(** C32. The handler's message about a register can be read back.  For every
    register that it can change, the line gives the number of the register and
    its 64-bit contents; and it says "possibly a ... trap pointer" exactly when
    the contents are tagged and the register was changed, with the kind of tag
    and the new contents. *)
Theorem fixup_message_roundtrip n r s :
  lookup_reg n = Some r -> u64 (s.2 r) ->
  parse_report (try_register_fixup_text n s).1 =
    Some (n, s.2 r,
      if tagged (s.2 r)
      then Some (shr64 (s.2 r) LIBCRUNCH_TRAP_TAG_SHIFT, (try_register_fixup n s).2 r) else None).
Proof.
  intros Hn Hu. unfold try_register_fixup_text, tagged, try_register_fixup. rewrite Hn.
  destruct s as [did g]. cbn [snd] in *. rewrite kindstr_tag.
  pose proof (lookup_reg_range n r Hn) as Hr.
  assert (Hpre : forall t, parse_report (((MSGLIT "register " ++ MSGSHORT n ++ MSGLIT " contents 0x" ++ MSGADDR (g r) ++
      MSGLIT " are ") ++ t)) =
    if bool_decide (t = MSGLIT "not a trap pointer" ++ [10]) then Some (n, g r, None)
    else
      t ← skip (MSGLIT "possibly a ") t;
      let kinds := omap (fun tag => k ← kindstr tag; t ← skip (MSGBUF k) t; Some (tag, t)) [1; 2; 3] in
      '(tag, t) ← head kinds;
      t ← skip (MSGLIT " trap pointer, so detrapping them; new value is ") t;
      new ← read_addr (take 16 t);
      Some (n, g r, Some (tag, new))).
  { intros t. rewrite <- !app_assoc. unfold parse_report. rewrite skip_app. cbn [mbind option_bind].
    destruct (split_short n (MSGLIT " contents 0x" ++ MSGADDR (g r) ++ MSGLIT " are " ++ t)) as [-> ->].
    rewrite read_MSGSHORT by lia. cbn [mbind option_bind]. rewrite skip_app. cbn [mbind option_bind].
    destruct (split_addr (g r) (MSGLIT " are " ++ t)) as [-> ->]. rewrite read_MSGADDR by done.
    cbn [mbind option_bind]. rewrite skip_app. reflexivity. }
  destruct (kindstr (shr64 (g r) LIBCRUNCH_TRAP_TAG_SHIFT)) as [kind|] eqn:Hk; cbn [fst snd]; rewrite Hpre.
  2: by rewrite bool_decide_true.
  rewrite bool_decide_false by (intros Heq; by apply (f_equal head) in Heq).
  rewrite skip_app. cbn [mbind option_bind].
  assert (Hnew : u64 (fixup_value (g r))) by (rewrite fixup_value_mod; unfold u64; pose proof (Z.mod_pos_bound (g r) (2 ^ 49)); lia).
  set (t := MSGLIT " trap pointer, so detrapping them; new value is " ++ MSGADDR (fixup_value (g r)) ++ [10]).
  set (tag := shr64 (g r) LIBCRUNCH_TRAP_TAG_SHIFT) in *.
  assert (head (omap (fun tag => k ← kindstr tag; t ← skip (MSGBUF k) (MSGBUF kind ++ t); Some (tag, t)) [1; 2; 3]) =
    Some (tag, t)) as Hh.
  { clearbody tag t. unfold kindstr in Hk. destruct (Z.eqb_spec tag 1) as [Ht|]; [injection Hk as <-; rewrite Ht; reflexivity|].
    destruct (Z.eqb_spec tag 2) as [Ht|]; [injection Hk as <-; rewrite Ht; reflexivity|].
    destruct (Z.eqb_spec tag 3) as [Ht|]; [injection Hk as <-; rewrite Ht; reflexivity|done]. }
  rewrite Hh. cbn [mbind option_bind]. unfold t. rewrite skip_app. cbn [mbind option_bind].
  rewrite (proj1 (split_addr (fixup_value (g r)) [10])), read_MSGADDR by done. cbn [mbind option_bind].
  unfold set_greg. by rewrite decide_True.
Qed.

(** *** Examples *)
Lemma fixup_message_roundtrip_witness :
  parse_report (try_register_fixup_text 0 (false, ex_gregs)).1 = Some (0, 2 ^ 49 + 0x1040, Some (1, 0x1040)).
Proof.
  etransitivity; [apply (fixup_message_roundtrip 0 RAX (false, ex_gregs)); [reflexivity|]|reflexivity].
  unfold u64. cbn. lia.
Defined.

(** A register number that is none is cut to 16 bits before it is printed. *)
Example short_cast : to_short 65536 = 0.
Proof. reflexivity. Qed.
