(* ===== verification/StubgenWrappers.v ===== *)
(** * Generated wrappers of allocation functions

    When [void *] carries bounds, the wrappers that liballocs generates around a
    program's allocation functions pass bounds on: the macros that they expand
    are in [include/stubgen_softbound.h].  The wrapper itself is generated code;
    what comes between the macros for its arguments and the one for its result
    (the pushes for the real function and its call) is a parameter of the
    theorems.  The size of the allocation is liballocs'. *)
From S2P Require Import Prelude Config TrapPtr Bounds Derive Memory ShadowSpace BoundsStack.

(** The local variables that the macros share. *)
Record wrapper_locals := WrapperLocals {
  caller_is_inst : bool;
  argi : Z;
  argpeek_off : Z;
  realarg_off : Z;
  saved_bsp : Z;
}.

Section macros.
Context `{C : Config} {St U : Type} `{StackEnv St U}.
(** [__liballocs_get_alloc_size]. *)
Context (get_alloc_size : St -> Z -> Z).
Implicit Types (st : St).

Definition do_caller_wrapper_init (wrap_name : Z) st : wrapper_locals * St :=
  let '(inst, st) := tweak_argument_bounds_cookie st wrap_name in
  (WrapperLocals inst 0 0 0 (bounds_sp st), st).

Definition round_down_size (sz round_to : Z) : outcome Z :=
  if round_to =? 0 then Unreachable else Ret (wrap64 (round_to * (sz / round_to))).

Definition do_arginit_p (name : Z) (l : wrapper_locals) st : bounds * wrapper_locals :=
  (peek_argument_bounds st (caller_is_inst l) (argpeek_off l) name,
   WrapperLocals (caller_is_inst l) (argi l) (argpeek_off l + 1) (realarg_off l) (saved_bsp l)).
(** [do_arginit_p] for all the pointer arguments. *)
Fixpoint do_arginits (names : list Z) (l : wrapper_locals) st : list bounds * wrapper_locals :=
  match names with
  | [] => ([], l)
  | name :: names =>
      let '(B, l) := do_arginit_p name l st in
      let '(Bs, l) := do_arginits names l st in (B :: Bs, l)
  end.

Definition pre_realarg_p (argbound : bounds) st : St := push_local_argument_bounds st argbound.
Definition pre_realcall (callee : Z) st : St := push_argument_bounds_cookie st callee.

Definition do_ret_p (real_retval size_arg : Z) (l : wrapper_locals) st : outcome St :=
  let st := set_bounds_sp (saved_bsp l) st in
  let result_sz := get_alloc_size st real_retval in
  result_sz_rounded ← round_down_size result_sz size_arg;
  let result_bounds := make_bounds real_retval (real_retval +w result_sz_rounded) in
  Ret (push_local_result_bounds st (caller_is_inst l) result_bounds).
Definition do_ret_other (l : wrapper_locals) st : St := set_bounds_sp (saved_bsp l) st.

(** A wrapper of a function that returns a pointer; [middle] is the code for
    the real call, which gets the bounds of the arguments. *)
Definition stubgen_wrapper (wrap_name : Z) (names : list Z)
    (middle : list bounds -> St -> outcome (Z * St)) (size_arg : Z) st : outcome (Z * St) :=
  let '(l, st) := do_caller_wrapper_init wrap_name st in
  let '(Bs, l) := do_arginits names l st in
  '(real_retval, st) ← middle Bs st;
  st ← do_ret_p real_retval size_arg l st;
  Ret (real_retval, st).
End macros.

Section properties.
Context `{C : Config} {St U : Type} `{SL : StackEnvLaws St U}.
Hypothesis stack_on : no_bounds_stack = false.
Context (get_alloc_size : St -> Z -> Z).
Implicit Types (st : St).

(** The macros number the pointer arguments. *)
Lemma arginits_peek names : forall l st,
  do_arginits names l st =
    (imap (fun i name => peek_argument_bounds st (caller_is_inst l) (argpeek_off l + Z.of_nat i) name) names,
     WrapperLocals (caller_is_inst l) (argi l) (argpeek_off l + Z.of_nat (length names)) (realarg_off l) (saved_bsp l)).
Proof.
  induction names as [|name names IH]; intros l st; cbn [do_arginits imap length].
  { rewrite Z.add_0_r. by destruct l. }
  unfold do_arginit_p. rewrite IH. cbn [caller_is_inst argpeek_off argi realarg_off saved_bsp].
  rewrite Z.add_0_r. f_equal; [|f_equal; lia]. f_equal. apply imap_ext. intros i n _. cbn. f_equal. lia.
Qed.

Lemma round_down_spec sz r :
  u64 sz -> 0 < r -> exists n, round_down_size sz r = Ret n /\ n <= sz < n + r /\ (r | n) /\ 0 <= n.
Proof.
  intros Hu Hr. unfold round_down_size. rewrite (proj2 (Z.eqb_neq r 0)) by lia.
  pose proof (Z.div_mod sz r ltac:(lia)). pose proof (Z.mod_pos_bound sz r Hr). pose proof (Z.div_pos sz r ltac:(unfold u64 in *; lia) Hr).
  rewrite wrap64_small by (unfold u64 in *; nia). eexists. split; [done|]. split; [nia|].
  split; [by exists (sz / r); lia|nia].
Qed.

(** C20. A generated allocation wrapper called by instrumented code.  Its middle
    gets the caller's bounds for every pointer argument, in order; whatever it
    does below the saved stack pointer, without restoring it, the caller gets
    bounds that start at the result and are as long as the allocation, rounded
    down to a multiple of the size argument; and the bounds stack is as before
    the call. *)
Theorem stubgen_wrapper_delivers st c names Bs (ret : list bounds -> Z) (middle : list bounds -> St -> St)
    asz size_arg hi :
  0 <= c < 2 ^ 47 -> length names = length Bs -> Forall wf_bounds Bs -> u64 (ret Bs) ->
  u64 (bounds_sp st) -> bounds_sp st <= hi ->
  sizeof_bounds * (Z.of_nat (length Bs) + 1) + 8 <= bounds_sp st ->
  (forall st i, bounds_sp st <= i < hi -> byte (st_mem (middle Bs st)) i = byte (st_mem st) i) ->
  (forall st sp, get_alloc_size (set_bounds_sp sp (middle Bs st)) (ret Bs) = asz) ->
  u64 asz -> 0 < size_arg ->
  exists st' n, instrumented_call st c Bs
      (stubgen_wrapper get_alloc_size c names (fun Bs st => Ret (ret Bs, middle Bs st)) size_arg)
      = Ret (ret Bs, make_bounds (ret Bs) (ret Bs +w n), st') /\
    n <= asz < n + size_arg /\ (size_arg | n) /\ bounds_sp st' = bounds_sp st /\
    forall i, bounds_sp st <= i < hi -> byte (st_mem st') i = byte (st_mem st) i.
Proof.
  intros Hc Hl Hwf Hp Hu Hhi Hr Hm Hsz Hasz Hpos. pose proof sizeof_pos as Hso.
  destruct (caller_enters stack_on st c Bs) as (Hsp & He & Hfr); [done|unfold u64; lia|lia|done|].
  unfold instrumented_call. set (st1 := push_argument_bounds_cookie (push_arguments st Bs) c) in *.
  assert (Hu1 : u64 (bounds_sp st1)) by (rewrite Hsp; unfold u64 in *; lia).
  destruct (tweak_entered stack_on st1 c Bs Hc Hu1 He) as (stt & Htw & Hspt & Het & _).
  destruct (round_down_spec asz size_arg Hasz Hpos) as (n & Hn & Hn1 & Hn2 & _).
  set (inner := fun st => Ret (set_bounds_sp (bounds_sp stt) (middle Bs st))).
  set (result := fun Bs => (ret Bs, make_bounds (ret Bs) (ret Bs +w n))).
  assert (Hw : stubgen_wrapper get_alloc_size c names (fun Bs st => Ret (ret Bs, middle Bs st)) size_arg st1 =
    instrumented_callee c names inner result st1).
  { unfold stubgen_wrapper, instrumented_callee, do_caller_wrapper_init. rewrite Htw, arginits_peek.
    cbn [caller_is_inst argpeek_off saved_bsp argi realarg_off].
    assert (imap (fun (i : nat) (ptr : Z) => peek_argument_bounds stt true (Z.of_nat i) ptr) names = Bs) as Hpk.
    { apply (peek_all_entered stack_on stt (Z.lor c 0x800000000000)); rewrite ?Hspt, ?Hsp;
        first [exact Het|exact Hl|unfold u64 in *; lia]. }
    change (imap (fun (i : nat) (name : Z) => peek_argument_bounds stt true (0 + Z.of_nat i) name) names) with
      (imap (fun (i : nat) (ptr : Z) => peek_argument_bounds stt true (Z.of_nat i) ptr) names).
    rewrite Hpk. unfold inner, do_ret_p. cbn [mbind outcome_bind saved_bsp caller_is_inst].
    rewrite Hsz, Hn. reflexivity. }
  rewrite Hw.
  destruct (callee_run stack_on st1 c Bs names inner result hi (set_bounds_sp (bounds_sp stt) (middle Bs stt)))
    as (st2 & Hrun & Hck & Hpk & Hfr2); rewrite ?Htw; cbn [fst snd]; rewrite ?bounds_sp_set, ?st_mem_set_sp;
    try done; try (rewrite Hsp; unfold u64 in *; lia).
  { by apply make_bounds_wf. }
  { intros i Hi. apply Hm. by rewrite Hspt. }
  rewrite Hrun. cbn [mbind outcome_bind]. rewrite Hck, Hpk. eexists _, n. split; [reflexivity|].
  split; [done|]. split; [done|]. unfold cleanup_bounds_stack. rewrite stack_on, bounds_sp_set.
  split; [done|]. intros i Hi. rewrite st_mem_set_sp, Hfr2 by (rewrite Hsp; lia). apply Hfr. lia.
Qed.

(** Called by other code, the middle gets invalid bounds, and nothing is left on
    the bounds stack. *)
Theorem stubgen_wrapper_uninstrumented st c names ret (middle : list bounds -> St -> St) asz size_arg :
  load8 (st_mem st) (bounds_sp st) <> c -> u64 asz -> 0 < size_arg ->
  (forall st sp, get_alloc_size (set_bounds_sp sp (middle (libcrunch_make_invalid_bounds <$> names) st)) ret = asz) ->
  stubgen_wrapper get_alloc_size c names (fun Bs st => Ret (ret, middle Bs st)) size_arg st =
    Ret (ret, set_bounds_sp (bounds_sp st) (middle (libcrunch_make_invalid_bounds <$> names) st)).
Proof.
  intros Hne Hu Hpos Hsz. unfold stubgen_wrapper, do_caller_wrapper_init. rewrite tweak_other, arginits_peek by done.
  cbn [caller_is_inst argpeek_off saved_bsp argi realarg_off].
  assert (imap (fun (i : nat) (name : Z) => peek_argument_bounds st false (0 + Z.of_nat i) name) names =
    libcrunch_make_invalid_bounds <$> names) as ->.
  { apply list_eq. intros i. rewrite list_lookup_imap, list_lookup_fmap. unfold peek_argument_bounds. by rewrite stack_on. }
  cbn [mbind outcome_bind]. unfold do_ret_p. cbn [saved_bsp caller_is_inst]. rewrite Hsz.
  destruct (round_down_spec asz size_arg Hu Hpos) as (n & -> & _). cbn [mbind outcome_bind].
  unfold push_local_result_bounds. by rewrite stack_on.
Qed.

(** A size argument of zero ([malloc(0)], [calloc(n, 0)]) divides by zero, for
    any caller. *)
Theorem zero_size_divides c names middle st :
  stubgen_wrapper get_alloc_size c names middle 0 st =
    let '(l, st') := do_caller_wrapper_init c st in
    '(_, _) ← middle (do_arginits names l st').1 st'; Unreachable.
Proof.
  unfold stubgen_wrapper. destruct (do_caller_wrapper_init c st) as [l st'].
  destruct (do_arginits names l st') as [Bs l']. cbn [fst].
  destruct (middle Bs st') as [[p st2]| |]; done.
Qed.
End properties.

(** ** A concrete environment: memory and stack pointer. *)
#[local] Instance stub_env : StackEnv (mem * Z) unit := {|
  stack_shadow := {|
    shadow_derive := {|
      count_ptr_derivation st := st; count_ptr_deref st := st; count_transition st := st;
      bounds_error st _ _ _ := st; soft_deref_error_at st _ _ := st;
      fetch_bounds_ool_to_use st _ _ _ := Ret (st, Bounds 0x1000 0x40) |};
    st_mem st := st.1; set_mem m st := (m, st.2); count_ptr_store st := st;
    fetch_bounds_ool st _ _ _ := Ret (st, Bounds 0x1000 0x40) |};
  bounds_sp st := st.2; set_bounds_sp sp st := (st.1, sp);
|}.
#[local] Instance stub_env_laws : StackEnvLaws (mem * Z) unit.
Proof. by split. Qed.

(** [realloc(p, 24)] with the real function's arguments pushed and left there;
    the allocator rounded the size up to 40. *)
Lemma stubgen_wrapper_delivers_witness :
  exists st' n,
    @instrumented_call config_s (mem * Z) unit _ (∅, 0x7f0000010000) 0x401000 [Bounds 0x1000 0x40]
      (@stubgen_wrapper config_s (mem * Z) unit _ (fun _ _ => 40) 0x401000 [0x1000]
        (fun Bs st => Ret (0x2000, (st.1, st.2 - 24))) 24)
    = Ret (0x2000, Bounds 0x2000 24, st') /\ n = 24.
Proof.
  destruct (@stubgen_wrapper_delivers config_s (mem * Z) unit _ _ eq_refl (fun _ _ => 40) (∅, 0x7f0000010000)
    0x401000 [0x1000] [Bounds 0x1000 0x40] (fun _ => 0x2000) (fun _ st => (st.1, st.2 - 24)) 40 24 0x7f0000010000)
    as (st' & n & Hr & Hn & [k Hk] & _).
  - lia.
  - reflexivity.
  - apply (bool_decide_unpack _); vm_compute; done.
  - unfold u64; lia.
  - unfold u64; cbn; lia.
  - vm_compute; discriminate.
  - vm_compute; discriminate.
  - reflexivity.
  - reflexivity.
  - unfold u64; lia.
  - lia.
  - exists st', n. assert (n = 24) as -> by lia. split; [exact Hr|reflexivity].
Defined.
Lemma stubgen_wrapper_uninstrumented_witness :
  @stubgen_wrapper config_s (mem * Z) unit _ (fun _ _ => 40) 0x401000 [0x1000]
    (fun Bs st => Ret (0x2000, (st.1, st.2 - 24))) 24 (∅, 0x7f0000010000) = Ret (0x2000, (∅, 0x7f0000010000)).
Proof.
  etransitivity; [apply (stubgen_wrapper_uninstrumented (C := config_s) (St := mem * Z) (U := unit) eq_refl
    (fun _ _ => 40) (∅, 0x7f0000010000) 0x401000 [0x1000] 0x2000 (fun _ st => (st.1, st.2 - 24)) 40 24)|reflexivity].
  - vm_compute. discriminate.
  - unfold u64; lia.
  - lia.
  - reflexivity.
Defined.
