(* ===== verification/Plugin.v ===== *)
(** * The linker plug-in of the provenance mode

    Programs in the shadow-provenance mode are linked with a plug-in that adds
    the stubs, the runtime and the instrumented sort to the link
    ([src/frontend/c/shadowprov/gold-plugin.cpp]).  The linker hands the plug-in
    a vector of tagged values ([onload]), calls back the handlers that it
    registers, and offers functions through the pointers of the vector.  The file
    models [onload] and the three handlers; what the linker does when called is
    recorded as a list of calls. *)
From Stdlib Require Import Ascii.
From S2P Require Import Prelude.


(** The tags of the vector, [LDPT_*] ([plugin-api.h]).  [FP] tags carry a
    function pointer, those of [REGISTER] hooks included. *)
Inductive hook :=
| add_symbols | get_symbols | add_input_file | message | get_input_file | release_input_file
| add_input_library | set_extra_library_path | get_view | get_input_section_count
| get_input_section_type | get_input_section_name | get_input_section_contents
| update_section_order | allow_section_ordering | allow_unique_segment_for_sections
| unique_segment_for_sections | get_input_section_alignment | get_input_section_size
| register_claim_file | register_all_symbols_read | register_cleanup.
#[export] Instance hook_eq_dec : EqDecision hook.
Proof. solve_decision. Defined.

Inductive tag :=
| LDPT_NULL | LDPT_API_VERSION | LDPT_GOLD_VERSION | LDPT_LINKER_OUTPUT | LDPT_OPTION
| LDPT_REGISTER_CLAIM_FILE_HOOK | LDPT_REGISTER_ALL_SYMBOLS_READ_HOOK | LDPT_REGISTER_CLEANUP_HOOK
| LDPT_ADD_SYMBOLS | LDPT_GET_SYMBOLS | LDPT_ADD_INPUT_FILE | LDPT_MESSAGE | LDPT_GET_INPUT_FILE
| LDPT_RELEASE_INPUT_FILE | LDPT_ADD_INPUT_LIBRARY | LDPT_OUTPUT_NAME | LDPT_SET_EXTRA_LIBRARY_PATH
| LDPT_GNU_LD_VERSION | LDPT_GET_VIEW | LDPT_GET_INPUT_SECTION_COUNT | LDPT_GET_INPUT_SECTION_TYPE
| LDPT_GET_INPUT_SECTION_NAME | LDPT_GET_INPUT_SECTION_CONTENTS | LDPT_UPDATE_SECTION_ORDER
| LDPT_ALLOW_SECTION_ORDERING | LDPT_GET_SYMBOLS_V2 | LDPT_ALLOW_UNIQUE_SEGMENT_FOR_SECTIONS
| LDPT_UNIQUE_SEGMENT_FOR_SECTIONS | LDPT_GET_SYMBOLS_V3 | LDPT_GET_INPUT_SECTION_ALIGNMENT
| LDPT_GET_INPUT_SECTION_SIZE | LDPT_other (n : Z).

(** An entry of the vector: its tag and its value or pointer. *)
Record ld_plugin_tv := TV { tv_tag : tag; tv_u : Z }.

(** The calls the plug-in makes, of the linker and of the system. *)
Inductive handler := claim_file | all_symbols_read | cleanup.
#[export] Instance handler_eq_dec : EqDecision handler.
Proof. solve_decision. Defined.
Inductive call :=
| Printed (about : option tag)
| Slept (seconds : Z)
| Registered (h : handler)
| AddedInputFile (pathname : string)
| AddedInputLibrary (libname : string).

(** The globals of the plug-in, and the calls made so far.  [paths] are the
    static strings of [all_symbols_read_handler]. *)
Record plugin := Plugin {
  output_file_type : Z;
  api_version : Z;
  gold_version : Z;
  gnu_ld_version : Z;
  debug_level : Z;
  hooks : hook -> Z;
  paths : option (string * string * string);
  calls : list call;
}.
Definition initial : plugin := Plugin (-1) 0 0 0 0 (fun _ => 0) None [].

Definition set_ints (o a g l : Z) (s : plugin) : plugin :=
  Plugin o a g l (debug_level s) (hooks s) (paths s) (calls s).
Definition set_hook (h : hook) (v : Z) (s : plugin) : plugin :=
  Plugin (output_file_type s) (api_version s) (gold_version s) (gnu_ld_version s) (debug_level s)
    (fun h' => if decide (h' = h) then v else hooks s h') (paths s) (calls s).
Definition set_debug (d : Z) (s : plugin) : plugin :=
  Plugin (output_file_type s) (api_version s) (gold_version s) (gnu_ld_version s) d (hooks s) (paths s) (calls s).
Definition make_call (c : call) (s : plugin) : plugin :=
  Plugin (output_file_type s) (api_version s) (gold_version s) (gnu_ld_version s) (debug_level s)
    (hooks s) (paths s) (calls s ++ [c]).
Definition set_paths (ps : string * string * string) (s : plugin) : plugin :=
  Plugin (output_file_type s) (api_version s) (gold_version s) (gnu_ld_version s) (debug_level s)
    (hooks s) (Some ps) (calls s).

(** [debug_printf]. *)
Definition debug_printf (lvl : Z) (about : option tag) (s : plugin) : plugin :=
  if lvl <=? debug_level s then make_call (Printed about) s else s.

(** ** [onload] *)

(** The pointer that a tag sets: [CASE_FP] and [CASE_FP_REGISTER]. *)
Definition hook_of (t : tag) : option hook :=
  match t with
  | LDPT_REGISTER_CLAIM_FILE_HOOK => Some register_claim_file
  | LDPT_REGISTER_ALL_SYMBOLS_READ_HOOK => Some register_all_symbols_read
  | LDPT_REGISTER_CLEANUP_HOOK => Some register_cleanup
  | LDPT_ADD_SYMBOLS => Some add_symbols
  | LDPT_GET_SYMBOLS | LDPT_GET_SYMBOLS_V2 => Some get_symbols
  | LDPT_ADD_INPUT_FILE => Some add_input_file
  | LDPT_MESSAGE => Some message
  | LDPT_GET_INPUT_FILE => Some get_input_file
  | LDPT_RELEASE_INPUT_FILE => Some release_input_file
  | LDPT_ADD_INPUT_LIBRARY => Some add_input_library
  | LDPT_SET_EXTRA_LIBRARY_PATH => Some set_extra_library_path
  | LDPT_GET_VIEW => Some get_view
  | LDPT_GET_INPUT_SECTION_COUNT => Some get_input_section_count
  | LDPT_GET_INPUT_SECTION_TYPE => Some get_input_section_type
  | LDPT_GET_INPUT_SECTION_NAME => Some get_input_section_name
  | LDPT_GET_INPUT_SECTION_CONTENTS => Some get_input_section_contents
  | LDPT_UPDATE_SECTION_ORDER => Some update_section_order
  | LDPT_ALLOW_SECTION_ORDERING => Some allow_section_ordering
  | LDPT_ALLOW_UNIQUE_SEGMENT_FOR_SECTIONS => Some allow_unique_segment_for_sections
  | LDPT_UNIQUE_SEGMENT_FOR_SECTIONS => Some unique_segment_for_sections
  | LDPT_GET_INPUT_SECTION_ALIGNMENT => Some get_input_section_alignment
  | LDPT_GET_INPUT_SECTION_SIZE => Some get_input_section_size
  | _ => None
  end.

(** The body of the [switch]: every case prints, some set a variable. *)
Definition tv_case (tv : ld_plugin_tv) (s : plugin) : plugin :=
  let s := debug_printf 1 (Some (tv_tag tv)) s in
  match tv_tag tv with
  | LDPT_API_VERSION => set_ints (output_file_type s) (tv_u tv) (gold_version s) (gnu_ld_version s) s
  | LDPT_GOLD_VERSION => set_ints (output_file_type s) (api_version s) (tv_u tv) (gnu_ld_version s) s
  | LDPT_LINKER_OUTPUT => set_ints (tv_u tv) (api_version s) (gold_version s) (gnu_ld_version s) s
  | LDPT_GNU_LD_VERSION => set_ints (output_file_type s) (api_version s) (gold_version s) (tv_u tv) s
  | t => match hook_of t with Some h => set_hook h (tv_u tv) s | None => s end
  end.

(** The loop over the vector; without a null tag it runs off its end. *)
Fixpoint walk_tv (tv : list ld_plugin_tv) (s : plugin) : outcome plugin :=
  match tv with
  | [] => Unreachable
  | i_tv :: tv =>
      match tv_tag i_tv with LDPT_NULL => Ret s | _ => walk_tv tv (tv_case i_tv s) end
  end.

Definition register_if (h : hook) (f : handler) (s : plugin) : plugin :=
  if negb (hooks s h =? 0) then make_call (Registered f) s else s.

(** The environment variables [DEBUG_CC] and [LD_DELAY_STARTUP] are set or
    not. *)
Definition onload (DEBUG_CC LD_DELAY_STARTUP : bool) (tv : list ld_plugin_tv) (s : plugin) : outcome plugin :=
  let s := if DEBUG_CC then set_debug 1 s else s in
  let s := if LD_DELAY_STARTUP then make_call (Slept 12) (debug_printf 1 None s) else s in
  s ← walk_tv tv s;
  Ret (register_if register_cleanup cleanup
        (register_if register_all_symbols_read all_symbols_read
          (register_if register_claim_file claim_file s))).

(** ** The handlers *)
Section handlers.
(** [LDPO_REL] of [plugin-api.h], and the file the plug-in was loaded from
    ([get_plugin_path]). *)
Context (LDPO_REL : Z) (plugin_path : string).

(** The new value of [*claimed], beside the state. *)
Definition claim_file_handler (claimed : Z) (s : plugin) : Z * plugin :=
  let s := debug_printf 1 None s in
  if output_file_type s =? LDPO_REL then (0, s)
  else
    let should_claim := false in
    if should_claim then (1, s) else (claimed, s).

(** libc's [dirname]. *)
Fixpoint drop_while (f : ascii -> bool) (l : list ascii) : list ascii :=
  match l with [] => [] | c :: r => if f c then drop_while f r else l end.
Definition is_slash (c : ascii) : bool := Ascii.eqb c "/".
Definition slashes (n : nat) : string := if Nat.eqb n 2 then "//" else "/".
Definition dirname (str : string) : string :=
  let l := rev (String.list_ascii_of_string str) in
  let base := drop_while is_slash l in
  if Nat.eqb (length l) 0 then "."%string
  else if Nat.eqb (length base) 0 then slashes (length l)
  else
    let rest := drop_while (fun c => negb (is_slash c)) base in
    let dir := drop_while is_slash rest in
    if Nat.eqb (length rest) 0 then "."%string
    else if Nat.eqb (length dir) 0 then slashes (length rest)
    else String.string_of_list_ascii (rev dir).
Definition get_plugin_dir : string := dirname plugin_path.

Definition call_hook (h : hook) (c : call) (s : plugin) : outcome plugin :=
  if hooks s h =? 0 then Unreachable else Ret (make_call c s).

Definition all_symbols_read_handler (s : plugin) : outcome plugin :=
  let s := debug_printf 1 None s in
  let '(stubs, runtime, qsort) :=
    match paths s with
    | Some ps => ps
    | None => (get_plugin_dir +:+ "/stubs.o", get_plugin_dir +:+ "/runtime.so", get_plugin_dir +:+ "/qsort.o")%string
    end in
  let s := set_paths (stubs, runtime, qsort) s in
  s ← call_hook add_input_file (AddedInputFile stubs) s;
  s ← call_hook add_input_file (AddedInputFile runtime) s;
  s ← call_hook add_input_file (AddedInputFile qsort) s;
  call_hook add_input_library (AddedInputLibrary "dl") s.

Definition cleanup_handler (s : plugin) : plugin := debug_printf 1 None s.
End handlers.

(** ** What the linker sees

    A link: [onload], the claim handler for every input file (the linker has
    [*claimed] at 0), the handler for the end of the symbols, and clean-up; each
    of them if it was registered.  Claimed files are those with [*claimed] set. *)
Definition registered (s : plugin) (f : handler) : bool :=
  existsb (fun c => match c, f with
    | Registered claim_file, claim_file | Registered all_symbols_read, all_symbols_read
    | Registered cleanup, cleanup => true
    | _, _ => false end) (calls s).
Definition claim_all (LDPO_REL : Z) (files : list string) (s : plugin) : list string * plugin :=
  fold_left (fun cs file =>
    if registered cs.2 claim_file then
      let '(claimed, s) := claim_file_handler LDPO_REL 0 cs.2 in
      (if negb (claimed =? 0) then cs.1 ++ [file] else cs.1, s)
    else cs) files ([], s).
Definition link (LDPO_REL : Z) (plugin_path : string) (DEBUG_CC LD_DELAY_STARTUP : bool)
    (tv : list ld_plugin_tv) (files : list string) : outcome (list string * plugin) :=
  s ← onload DEBUG_CC LD_DELAY_STARTUP tv initial;
  let '(claimed, s) := claim_all LDPO_REL files s in
  s ← (if registered s all_symbols_read then all_symbols_read_handler plugin_path s else Ret s);
  Ret (claimed, if registered s cleanup then cleanup_handler s else s).

(** The calls that matter to the link. *)
Definition added (c : call) : option call :=
  match c with AddedInputFile _ | AddedInputLibrary _ => Some c | _ => None end.

(** ** Properties *)

(** The value of the last entry whose tag is selected. *)
Definition last_value (sel : tag -> bool) (tvs : list ld_plugin_tv) (d : Z) : Z :=
  fold_left (fun v tv => if sel (tv_tag tv) then tv_u tv else v) tvs d.
Definition is_tag (t t' : tag) : bool :=
  match t, t' with
  | LDPT_API_VERSION, LDPT_API_VERSION | LDPT_GOLD_VERSION, LDPT_GOLD_VERSION
  | LDPT_LINKER_OUTPUT, LDPT_LINKER_OUTPUT | LDPT_GNU_LD_VERSION, LDPT_GNU_LD_VERSION
  | LDPT_NULL, LDPT_NULL => true
  | _, _ => false
  end.
Definition sets (h : hook) (t : tag) : bool := bool_decide (hook_of t = Some h).
Definition not_null (tv : ld_plugin_tv) : bool := negb (is_tag LDPT_NULL (tv_tag tv)).

Lemma walk_fold pre u rest : forall s,
  forallb not_null pre = true ->
  walk_tv (pre ++ TV LDPT_NULL u :: rest) s = Ret (fold_left (fun s tv => tv_case tv s) pre s).
Proof.
  induction pre as [|[t v] pre IH]; intros s Hp; [done|]. cbn [forallb] in Hp.
  apply andb_true_iff in Hp as [Ht Hp]. cbn [app walk_tv fold_left]. rewrite <- IH by done. by destruct t.
Qed.

Lemma debug_printf_fields lvl a s :
  let s' := debug_printf lvl a s in
  output_file_type s' = output_file_type s /\ api_version s' = api_version s /\
  gold_version s' = gold_version s /\ gnu_ld_version s' = gnu_ld_version s /\
  hooks s' = hooks s /\ paths s' = paths s /\ debug_level s' = debug_level s.
Proof. unfold debug_printf. by destruct (lvl <=? debug_level s). Qed.

(** One case of the switch. *)
Lemma tv_case_fields tv s :
  let s' := tv_case tv s in
  (forall h, hooks s' h = if sets h (tv_tag tv) then tv_u tv else hooks s h) /\
  output_file_type s' = (if is_tag LDPT_LINKER_OUTPUT (tv_tag tv) then tv_u tv else output_file_type s) /\
  api_version s' = (if is_tag LDPT_API_VERSION (tv_tag tv) then tv_u tv else api_version s) /\
  gold_version s' = (if is_tag LDPT_GOLD_VERSION (tv_tag tv) then tv_u tv else gold_version s) /\
  gnu_ld_version s' = (if is_tag LDPT_GNU_LD_VERSION (tv_tag tv) then tv_u tv else gnu_ld_version s) /\
  paths s' = paths s.
Proof.
  unfold tv_case. destruct (debug_printf_fields 1 (Some (tv_tag tv)) s) as (H1 & H2 & H3 & H4 & H5 & H6 & _).
  set (s1 := debug_printf 1 (Some (tv_tag tv)) s) in *. rewrite <- H1, <- H2, <- H3, <- H4, <- H5, <- H6. clearbody s1.
  unfold sets. destruct tv as [t v]; cbn [tv_tag tv_u].
  destruct t; cbn [hook_of is_tag set_ints set_hook hooks output_file_type api_version gold_version gnu_ld_version paths];
    (split; [|by repeat split]); intros h; case_bool_decide as Hh; try discriminate Hh; try reflexivity;
    first [injection Hh as ->; by rewrite decide_True
          |rewrite decide_False; [reflexivity|]; intros ->; by apply Hh].
Qed.

Lemma fold_fields tvs : forall s,
  let s' := fold_left (fun s tv => tv_case tv s) tvs s in
  (forall h, hooks s' h = last_value (sets h) tvs (hooks s h)) /\
  output_file_type s' = last_value (is_tag LDPT_LINKER_OUTPUT) tvs (output_file_type s) /\
  api_version s' = last_value (is_tag LDPT_API_VERSION) tvs (api_version s) /\
  gold_version s' = last_value (is_tag LDPT_GOLD_VERSION) tvs (gold_version s) /\
  gnu_ld_version s' = last_value (is_tag LDPT_GNU_LD_VERSION) tvs (gnu_ld_version s) /\
  paths s' = paths s.
Proof.
  induction tvs as [|tv tvs IH]; intros s; [done|]. cbn [fold_left]. cbv zeta.
  destruct (tv_case_fields tv s) as (H1 & H2 & H3 & H4 & H5 & H6). cbv zeta in *.
  destruct (IH (tv_case tv s)) as (I1 & I2 & I3 & I4 & I5 & I6).
  unfold last_value in *. cbn [fold_left]. rewrite <- H2, <- H3, <- H4, <- H5, I2, I3, I4, I5, I6, H6.
  split; [|done]. intros h. by rewrite I1, H1.
Qed.

(** The calls of one case, and of the loop, are messages. *)
Definition printed (c : call) : bool := match c with Printed _ | Slept _ => true | _ => false end.
Lemma debug_printf_calls lvl a s :
  exists l, calls (debug_printf lvl a s) = calls s ++ l /\ forallb printed l = true.
Proof.
  unfold debug_printf. destruct (lvl <=? debug_level s); [by exists [Printed a]|exists []; by rewrite app_nil_r].
Qed.
Lemma tv_case_calls tv s : exists l, calls (tv_case tv s) = calls s ++ l /\ forallb printed l = true.
Proof.
  destruct (debug_printf_calls 1 (Some (tv_tag tv)) s) as (l & Hl & Hp). exists l. split; [|done]. rewrite <- Hl.
  unfold tv_case. destruct tv as [t v]; cbn [tv_tag tv_u]. by destruct t.
Qed.
Lemma fold_calls tvs : forall s,
  exists l, calls (fold_left (fun s tv => tv_case tv s) tvs s) = calls s ++ l /\ forallb printed l = true.
Proof.
  induction tvs as [|tv tvs IH]; intros s; cbn [fold_left]; [exists []; by rewrite app_nil_r|].
  destruct (tv_case_calls tv s) as (l1 & H1 & P1). destruct (IH (tv_case tv s)) as (l2 & H2 & P2).
  exists (l1 ++ l2). rewrite H2, H1, app_assoc, forallb_app, P1, P2. done.
Qed.

(** The handlers whose hooks the vector offers. *)
Definition offered (tvs : list ld_plugin_tv) : list handler :=
  map snd (filter (fun hf : hook * handler => last_value (sets hf.1) tvs 0 <> 0)
    [(register_claim_file, claim_file); (register_all_symbols_read, all_symbols_read); (register_cleanup, cleanup)]).

Lemma register_if_spec h f s :
  hooks (register_if h f s) = hooks s /\ output_file_type (register_if h f s) = output_file_type s /\
  paths (register_if h f s) = paths s /\
  calls (register_if h f s) = calls s ++ (if hooks s h =? 0 then [] else [Registered f]).
Proof. unfold register_if. destruct (hooks s h =? 0); cbn; by rewrite ?app_nil_r. Qed.

(** [onload] on a vector that ends: it keeps, for every variable, the last value
    of the vector, and registers exactly the handlers for which there is a
    hook, each once. *)
Lemma onload_run dbg delay pre u rest s0 :
  forallb not_null pre = true -> s0 = initial ->
  exists s, onload dbg delay (pre ++ TV LDPT_NULL u :: rest) s0 = Ret s /\
    (forall h, hooks s h = last_value (sets h) pre 0) /\
    output_file_type s = last_value (is_tag LDPT_LINKER_OUTPUT) pre (-1) /\ paths s = None /\
    exists l, calls s = l ++ map Registered (offered pre) /\ forallb printed l = true.
Proof.
  intros Hp ->. unfold onload.
  set (s1 := if dbg then set_debug 1 initial else initial).
  set (s2 := if delay then make_call (Slept 12) (debug_printf 1 None s1) else s1).
  assert (Hs2 : hooks s2 = hooks initial /\ output_file_type s2 = -1 /\ paths s2 = None /\
    exists l, calls s2 = l /\ forallb printed l = true).
  { unfold s2, s1. destruct dbg, delay; cbn; repeat split; by eexists. }
  destruct Hs2 as (Hh2 & Ho2 & Hp2 & l2 & Hc2 & Pl2).
  rewrite walk_fold by done. cbn [mbind outcome_bind].
  destruct (fold_fields pre s2) as (F1 & F2 & _ & _ & _ & F6). destruct (fold_calls pre s2) as (l3 & Hc3 & Pl3).
  set (s3 := fold_left _ pre s2) in *.
  destruct (register_if_spec register_claim_file claim_file s3) as (A1 & A2 & A3 & A4).
  set (s4 := register_if register_claim_file claim_file s3) in *.
  destruct (register_if_spec register_all_symbols_read all_symbols_read s4) as (B1 & B2 & B3 & B4).
  set (s5 := register_if register_all_symbols_read all_symbols_read s4) in *.
  destruct (register_if_spec register_cleanup cleanup s5) as (C1 & C2 & C3 & C4).
  eexists. split; [reflexivity|]. rewrite C1, B1, A1, C2, B2, A2, C3, B3, A3, F2, F6, Ho2, Hp2.
  split; [intros h; by rewrite F1, Hh2|]. split; [done|]. split; [done|].
  exists (l2 ++ l3). rewrite forallb_app, Pl2, Pl3. split; [|done].
  rewrite C4, B4, A4, Hc3, Hc2, B1, A1. rewrite <- !app_assoc. do 2 f_equal. unfold offered.
  rewrite !F1, Hh2. cbn [initial hooks]. rewrite !filter_cons, filter_nil. cbn [fst].
  destruct (Z.eqb_spec (last_value (sets register_claim_file) pre 0) 0),
    (Z.eqb_spec (last_value (sets register_all_symbols_read) pre 0) 0),
    (Z.eqb_spec (last_value (sets register_cleanup) pre 0) 0);
    repeat first [rewrite decide_True by done|rewrite decide_False by auto]; done.
Qed.

(** No file is ever claimed. *)
Lemma claim_none LDPO_REL files : forall s,
  exists s', claim_all LDPO_REL files s = ([], s') /\ hooks s' = hooks s /\ paths s' = paths s /\
    exists l, calls s' = calls s ++ l /\ forallb printed l = true.
Proof.
  unfold claim_all. induction files as [|f files IH]; intros s; cbn [fold_left fst snd].
  { exists s. repeat split; try done. exists []. by rewrite app_nil_r. }
  destruct (registered s claim_file); [|apply IH].
  destruct (debug_printf_fields 1 None s) as (_ & _ & _ & _ & H5 & H6 & _).
  destruct (debug_printf_calls 1 None s) as (l1 & H1 & P1). set (s1 := debug_printf 1 None s) in *.
  assert (claim_file_handler LDPO_REL 0 s = (0, s1)) as ->.
  { unfold claim_file_handler. fold s1. by destruct (output_file_type s1 =? LDPO_REL). }
  cbn [Z.eqb negb].
  destruct (IH s1) as (s' & -> & Hh & Hp & l2 & Hl2 & P2). exists s'. rewrite Hh, H5, Hp, H6.
  repeat split; try done. exists (l1 ++ l2). by rewrite Hl2, H1, app_assoc, forallb_app, P1, P2.
Qed.

Lemma printed_irrelevant l : forallb printed l = true ->
  omap added l = [] /\ forall f, existsb (fun c => match c, f with
    | Registered claim_file, claim_file | Registered all_symbols_read, all_symbols_read
    | Registered cleanup, cleanup => true
    | _, _ => false end) l = false.
Proof.
  induction l as [|c l IH]; [done|]. cbn [forallb]. intros [Hc Hl]%andb_true_iff. destruct (IH Hl) as [I1 I2].
  split; [destruct c; try done; by cbn|]. intros f. cbn [existsb]. rewrite I2. by destruct c.
Qed.

(** The handlers on a list of calls. *)
Lemma registered_offered s l pre :
  calls s = l ++ map Registered (offered pre) -> forallb printed l = true ->
  forall f, registered s f = bool_decide (f ∈ offered pre).
Proof.
  intros Hc Hp f. unfold registered. rewrite Hc, existsb_app. rewrite (proj2 (printed_irrelevant l Hp) f). cbn [orb].
  apply eq_true_iff_eq. rewrite existsb_exists, bool_decide_eq_true. split.
  - intros (c & (f' & <- & Hin)%in_map_iff & Hm). apply list_elem_of_In. by destruct f', f.
  - intros Hin. exists (Registered f). split; [apply in_map_iff; exists f; split; [done|by apply list_elem_of_In]|].
    by destruct f.
Qed.
Lemma offered_all_symbols_read pre :
  bool_decide (all_symbols_read ∈ offered pre) = negb (last_value (sets register_all_symbols_read) pre 0 =? 0).
Proof.
  unfold offered. rewrite !filter_cons, filter_nil. cbn [fst].
  destruct (Z.eqb_spec (last_value (sets register_claim_file) pre 0) 0),
    (Z.eqb_spec (last_value (sets register_all_symbols_read) pre 0) 0),
    (Z.eqb_spec (last_value (sets register_cleanup) pre 0) 0);
    repeat first [rewrite decide_True by done|rewrite decide_False by auto]; reflexivity.
Qed.

Lemma registered_printed s s' l :
  calls s' = calls s ++ l -> forallb printed l = true -> forall f, registered s' f = registered s f.
Proof.
  intros Hc Hp f. unfold registered. rewrite Hc, existsb_app. by rewrite (proj2 (printed_irrelevant l Hp) f), orb_false_r.
Qed.

(** What [all_symbols_read_handler] adds, in order. *)
Definition support (dir : string) : list call :=
  [AddedInputFile (dir +:+ "/stubs.o"); AddedInputFile (dir +:+ "/runtime.so");
   AddedInputFile (dir +:+ "/qsort.o"); AddedInputLibrary "dl"].
Lemma all_symbols_read_run plugin_path s :
  paths s = None ->
  if (hooks s add_input_file =? 0) || (hooks s add_input_library =? 0)
  then all_symbols_read_handler plugin_path s = Unreachable
  else exists s' l, all_symbols_read_handler plugin_path s = Ret s' /\
    calls s' = calls s ++ l ++ support (get_plugin_dir plugin_path) /\ forallb printed l = true.
Proof.
  intros Hp. unfold all_symbols_read_handler. destruct (debug_printf_fields 1 None s) as (_ & _ & _ & _ & H5 & H6 & _).
  destruct (debug_printf_calls 1 None s) as (l & Hl & Pl). set (s1 := debug_printf 1 None s) in *.
  rewrite H6, Hp. unfold call_hook. cbn [hooks set_paths]. rewrite H5.
  destruct (hooks s add_input_file =? 0) eqn:Ha; [done|].
  cbn [mbind outcome_bind make_call hooks set_paths]. rewrite H5, Ha.
  cbn [mbind outcome_bind make_call hooks set_paths]. rewrite H5, Ha.
  cbn [mbind outcome_bind make_call hooks set_paths]. rewrite H5.
  destruct (hooks s add_input_library =? 0); [done|]. cbn [orb].
  eexists _, l. split; [reflexivity|]. cbn [make_call calls set_paths]. rewrite Hl, <- !app_assoc. by split.
Qed.

(** libc's [dirname] of a file in a directory. *)
Lemma list_ascii_app s1 s2 :
  String.list_ascii_of_string (s1 +:+ s2) = String.list_ascii_of_string s1 ++ String.list_ascii_of_string s2.
Proof. induction s1 as [|c s1 IH]; [done|]. change (c :: String.list_ascii_of_string (s1 +:+ s2) =
  c :: String.list_ascii_of_string s1 ++ String.list_ascii_of_string s2). by rewrite IH. Qed.
Lemma drop_while_all f l r : forallb f l = true -> drop_while f (l ++ r) = drop_while f r.
Proof. induction l as [|c l IH]; [done|]. cbn [forallb app drop_while]. intros [-> Hl]%andb_true_iff. by apply IH. Qed.
Lemma dirname_file dir name :
  let d := String.list_ascii_of_string dir in let n := String.list_ascii_of_string name in
  n <> [] -> forallb (fun c => negb (is_slash c)) n = true ->
  (exists d' c, d = d' ++ [c] /\ is_slash c = false) ->
  dirname (dir +:+ "/" +:+ name) = dir.
Proof.
  intros d n Hn Hsl (d' & c & Hd & Hc). unfold dirname. rewrite !list_ascii_app. fold d n.
  change (String.list_ascii_of_string "/") with ["/"%char]. rewrite !rev_app_distr, Hd, rev_app_distr.
  cbn [rev app]. destruct (rev n) as [|a m] eqn:Hr; [by apply (f_equal (@rev _)) in Hr; rewrite rev_involutive in Hr|].
  assert (Hall : forallb (fun c => negb (is_slash c)) (a :: m) = true).
  { rewrite <- Hr. apply forallb_forall. intros x Hx. apply in_rev in Hx. rewrite forallb_forall in Hsl. by apply Hsl. }
  pose proof Hall as Ha. cbn [forallb] in Ha. apply andb_true_iff in Ha as [Ha _].
  assert (drop_while is_slash (((a :: m) ++ ["/"%char]) ++ c :: rev d') = ((a :: m) ++ ["/"%char]) ++ c :: rev d') as ->.
  { cbn [app drop_while]. by destruct (is_slash a). }
  rewrite <- app_assoc. rewrite (drop_while_all _ (a :: m)) by done.
  cbn [app drop_while is_slash negb Ascii.eqb Bool.eqb length Nat.eqb]. rewrite Hc.
  cbn [length Nat.eqb rev]. rewrite rev_involutive, <- Hd. apply String.string_of_list_ascii_of_string.
Qed.

(** What the plug-in contributes to a link.  It claims no input file.  If
    the linker lets it register for the end of the symbols, it adds the stubs,
    the runtime, the sort and libdl, in this order, from its own directory, and
    nothing else; if not, nothing at all; and it crashes if the linker lets it
    register but offers no function for adding files or libraries.  The last
    value in the vector counts for each pointer, and the type of the output
    makes no difference. *)
Theorem link_adds_support LDPO_REL dir name dbg delay pre u rest files :
  forallb not_null pre = true ->
  let d := String.list_ascii_of_string dir in let n := String.list_ascii_of_string name in
  n <> [] -> forallb (fun c => negb (is_slash c)) n = true ->
  (exists d' c, d = d' ++ [c] /\ is_slash c = false) ->
  let offers h := negb (last_value (sets h) pre 0 =? 0) in
  let run := link LDPO_REL (dir +:+ "/" +:+ name) dbg delay (pre ++ TV LDPT_NULL u :: rest) files in
  if offers register_all_symbols_read && negb (offers add_input_file && offers add_input_library)
  then run = Unreachable
  else exists s, run = Ret ([], s) /\
    omap added (calls s) = if offers register_all_symbols_read then support dir else [].
Proof.
  intros Hp d n Hn Hsl Hd offers run. unfold run, link.
  destruct (onload_run dbg delay pre u rest initial Hp eq_refl) as (s1 & -> & Hh & _ & Hpa & l1 & Hc1 & P1).
  cbn [mbind outcome_bind]. destruct (claim_none LDPO_REL files s1) as (s2 & -> & Hh2 & Hpa2 & l2 & Hc2 & P2).
  rewrite (registered_printed s1 s2 l2 Hc2 P2 all_symbols_read), (registered_offered s1 l1 pre Hc1 P1),
    offered_all_symbols_read. fold (offers register_all_symbols_read).
  assert (Hreg : forall fs, omap added (map Registered fs) = []).
  { induction fs as [|f fs IH]; [done|]. cbn. by rewrite IH. }
  assert (Hadd2 : omap added (calls s2) = []).
  { rewrite Hc2, Hc1, !omap_app, Hreg, (proj1 (printed_irrelevant l1 P1)), (proj1 (printed_irrelevant l2 P2)). done. }
  assert (Hclean : forall s, exists s', (if registered s cleanup then cleanup_handler s else s) = s' /\
    omap added (calls s') = omap added (calls s)).
  { intros s. eexists; split; [reflexivity|]. destruct (registered s cleanup); [|done]. unfold cleanup_handler.
    destruct (debug_printf_calls 1 None s) as (l & -> & Pl). by rewrite omap_app, (proj1 (printed_irrelevant l Pl)), app_nil_r. }
  destruct (offers register_all_symbols_read); cbn [andb].
  2: { cbn [mbind outcome_bind]. destruct (Hclean s2) as (s' & -> & Hs'). exists s'. by rewrite Hs'. }
  pose proof (all_symbols_read_run (dir +:+ "/" +:+ name) s2 ltac:(by rewrite Hpa2)) as Hrun.
  unfold get_plugin_dir in Hrun. rewrite (dirname_file dir name Hn Hsl Hd), Hh2, !Hh in Hrun.
  unfold offers. destruct (last_value (sets add_input_file) pre 0 =? 0), (last_value (sets add_input_library) pre 0 =? 0);
    cbn [negb andb orb] in *; try (by rewrite Hrun).
  destruct Hrun as (s3 & l3 & -> & Hc3 & P3). cbn [mbind outcome_bind]. destruct (Hclean s3) as (s' & -> & Hs').
  exists s'. split; [done|]. rewrite Hs', Hc3, !omap_app, Hadd2, (proj1 (printed_irrelevant l3 P3)). done.
Qed.

(** [onload] keeps, for every variable, the last value of the vector up to its
    end, and registers exactly the handlers for which there is a hook. *)
Theorem onload_keeps_last dbg delay pre u rest :
  forallb not_null pre = true ->
  exists s, onload dbg delay (pre ++ TV LDPT_NULL u :: rest) initial = Ret s /\
    (forall h, hooks s h = last_value (sets h) pre 0) /\
    output_file_type s = last_value (is_tag LDPT_LINKER_OUTPUT) pre (-1) /\
    forall f, registered s f = bool_decide (f ∈ offered pre).
Proof.
  intros Hp. destruct (onload_run dbg delay pre u rest initial Hp eq_refl) as (s & Hs & Hh & Ho & _ & l & Hc & Pl).
  exists s. split; [done|]. split; [done|]. split; [done|]. by eapply registered_offered.
Qed.

(** ** A link *)
Definition ex_vector : list ld_plugin_tv :=
  [TV LDPT_MESSAGE 0x400100; TV LDPT_API_VERSION 1; TV LDPT_LINKER_OUTPUT 1;
   TV LDPT_REGISTER_CLAIM_FILE_HOOK 0x400200; TV LDPT_REGISTER_ALL_SYMBOLS_READ_HOOK 0x400300;
   TV LDPT_GET_SYMBOLS 0x400400; TV LDPT_GET_SYMBOLS_V2 0x400500; TV (LDPT_other 99) 0;
   TV LDPT_ADD_INPUT_FILE 0x400600; TV LDPT_ADD_INPUT_LIBRARY 0x400700].
Lemma link_adds_support_witness :
  exists s, link 0 "/usr/lib/crunch/plugin.so" true false (ex_vector ++ [TV LDPT_NULL 0]) ["a.o"; "b.o"]%string
      = Ret ([], s) /\
    omap added (calls s) = support "/usr/lib/crunch".
Proof.
  apply (link_adds_support 0 "/usr/lib/crunch" "plugin.so" true false ex_vector 0 [] ["a.o"; "b.o"]%string).
  - reflexivity.
  - discriminate.
  - reflexivity.
  - exists (String.list_ascii_of_string "/usr/lib/crunc"), "h"%char. split; reflexivity.
Defined.
Lemma onload_keeps_last_witness :
  exists s, onload false false (ex_vector ++ [TV LDPT_NULL 0]) initial = Ret s /\ hooks s get_symbols = 0x400500.
Proof.
  destruct (onload_keeps_last false false ex_vector 0 [] eq_refl) as (s & Hs & Hh & _).
  exists s. split; [exact Hs|]. rewrite Hh. reflexivity.
Defined.

(** Also for a relocatable link ([ld -r]): the claim handler says that only
    final links are affected, but the support files are added to this one as
    well. *)
Theorem relocatable_link_gets_support :
  exists s, link 1 "/usr/lib/crunch/plugin.so" false false (ex_vector ++ [TV LDPT_NULL 0]) ["a.o"]%string = Ret ([], s) /\
    output_file_type s = 1 /\ omap added (calls s) = support "/usr/lib/crunch".
Proof. eexists. by vm_compute. Qed.
