(* ===== verification/MkstempStubs.v ===== *)
(** * The OCaml stubs of the preprocessor driver

    The CIL driver [frontend/cilpp/src/cilpp.ml] makes its temporary file
    through two C stubs ([frontend/cilpp/src/mkstemp_stubs.c]).  The OCaml
    runtime and libc are parameters, with the documented behaviour of the
    operations that the stubs use: a value is a word, an integer [n] the odd word
    [2n + 1], the rest are pointers to blocks, which stay where they are.  The
    name of the file arrives; its descriptor does not, because it is stored
    without that encoding, and neither do the arguments of the exception. *)
From stdpp Require Import gmap.
From S2P Require Import Prelude.

(** ** The OCaml runtime and libc *)
Definition Val_int (n : Z) : Z := wrap64 (Z.shiftl n 1 + 1).
(** How OCaml code takes a word: an integer, or a pointer to a block. *)
Inductive ocaml_value := Immediate (n : Z) | Pointer (v : Z).
Definition ocaml_view (v : Z) : ocaml_value :=
  if Z.odd v then Immediate (Z.shiftr (signed64 v) 1) else Pointer v.

Class CamlRuntime := {
  heap : Type;
  caml_alloc : heap -> Z -> Z -> heap * Z;
  caml_copy_string : heap -> string -> heap * Z;
  Store_field : heap -> Z -> Z -> Z -> heap;
  Field : heap -> Z -> Z -> Z;
  String_val : heap -> Z -> string;
  caml_named_value : heap -> string -> option Z;
  unix_error_of_code : heap -> Z -> heap * Z;
  (** Which words point to blocks. *)
  live : heap -> Z -> Prop;
}.
Class CamlLaws (R : CamlRuntime) : Prop := {
  alloc_fresh : forall h n t, live (caml_alloc h n t).1 (caml_alloc h n t).2;
  copy_string_fresh : forall h s, ~ live h (caml_copy_string h s).2;
  copy_string_live : forall h s v, live h v -> live (caml_copy_string h s).1 v;
  copy_string_field : forall h s v i, live h v -> Field (caml_copy_string h s).1 v i = Field h v i;
  copy_string_val : forall h s, String_val (caml_copy_string h s).1 (caml_copy_string h s).2 = s;
  store_live : forall h b i v w, live h w -> live (Store_field h b i v) w;
  store_field_same : forall h b i v, live h b -> Field (Store_field h b i v) b i = v;
  store_field_other : forall h b i v b' i', (b', i') <> (b, i) -> Field (Store_field h b i v) b' i' = Field h b' i';
  store_string : forall h b i v s, s <> b -> String_val (Store_field h b i v) s = String_val h s;
}.

(** [strdup] returns null when there is no memory; [mkstemps] changes its
    argument and returns a descriptor, or -1 with [errno] set. *)
Class Libc := {
  libc_state : Type;
  strdup : libc_state -> string -> option string;
  mkstemp : libc_state -> string -> libc_state * string * Z;
  mkstemps : libc_state -> string -> Z -> libc_state * string * Z;
  errno : libc_state -> Z;
}.

(** ** The stubs *)
Inductive stub_result := Returned (v : Z) | Raised (exn arg : Z).

Section stubs.
Context `{R : CamlRuntime} `{LC : Libc}.
Implicit Types (h : heap) (w : libc_state).

(** The part on failure: the tuple is made, but not passed on. *)
Definition raise_unix_error (syscall : string) h w (templ : Z) : outcome (stub_result * heap * libc_state) :=
  let '(h, tup) := caml_alloc h 3 0 in
  let '(h, code) := unix_error_of_code h (errno w) in
  let h := Store_field h tup 0 code in
  let '(h, name) := caml_copy_string h syscall in
  let h := Store_field h tup 1 name in
  let h := Store_field h tup 2 templ in
  match caml_named_value h "Unix.Unix_error" with
  | None => Unreachable
  | Some exn => Ret (Raised exn (Val_int (errno w)), h, w)
  end.
(** The part on success: [fd] becomes a [value] as it is. *)
Definition return_fd_name h w (fd : Z) (s_dup : string) : outcome (stub_result * heap * libc_state) :=
  let '(h, out) := caml_alloc h 2 0 in
  let h := Store_field h out 0 (wrap64 fd) in
  let '(h, name) := caml_copy_string h s_dup in
  let h := Store_field h out 1 name in
  Ret (Returned out, h, w).

Definition caml_mkstemp h w (templ : Z) : outcome (stub_result * heap * libc_state) :=
  match strdup w (String_val h templ) with
  | None => Unreachable
  | Some s_dup =>
      let '(w, s_dup, fd) := mkstemp w s_dup in
      if fd =? -1 then raise_unix_error "mkstemp" h w templ else return_fd_name h w fd s_dup
  end.

(** [Int_val]: the immediate value as a C [int]. *)
Definition Int_val (v : Z) : Z := let n := wrap32 (Z.shiftr v 1) in if n <? 2 ^ 31 then n else n - 2 ^ 32.
Definition caml_mkstemps h w (templ suffixlen : Z) : outcome (stub_result * heap * libc_state) :=
  let suffixl := Int_val suffixlen in
  match strdup w (String_val h templ) with
  | None => Unreachable
  | Some s_dup =>
      let '(w, s_dup, fd) := mkstemps w s_dup suffixl in
      if fd =? -1 then raise_unix_error "mkstemps" h w templ else return_fd_name h w fd s_dup
  end.
End stubs.

(** ** What arrives *)
Lemma Int_val_Val_int n : - 2 ^ 31 <= n < 2 ^ 31 -> Int_val (Val_int n) = n.
Proof.
  intros Hn. unfold Int_val, Val_int, wrap64, wrap32. rewrite Z.shiftl_mul_pow2, Z.shiftr_div_pow2 by lia.
  cbn zeta. assert (Hm : ((n * 2 ^ 1 + 1) mod 2 ^ 64 / 2 ^ 1) mod 2 ^ 32 = n mod 2 ^ 32) by mod_lia.
  rewrite Hm. destruct (Z.ltb_spec (n mod 2 ^ 32) (2 ^ 31)); mod_lia.
Qed.
Lemma ocaml_view_Val_int n : - 2 ^ 62 <= n < 2 ^ 62 -> ocaml_view (Val_int n) = Immediate n.
Proof.
  intros Hn. unfold ocaml_view, Val_int, wrap64, signed64. rewrite Z.shiftl_mul_pow2 by lia.
  assert (Ho : Z.odd ((n * 2 ^ 1 + 1) mod 2 ^ 64) = true).
  { rewrite Zodd_mod. apply Z.eqb_eq. mod_lia. }
  rewrite Ho. f_equal. rewrite Z.shiftr_div_pow2 by lia. destruct (Z.ltb_spec ((n * 2 ^ 1 + 1) mod 2 ^ 64) (2 ^ 63)); mod_lia.
Qed.

Section correctness.
Context `{R : CamlRuntime} `{RL : !CamlLaws R} `{LC : Libc}.
Implicit Types (h : heap) (w : libc_state).

Lemma return_fd_name_fields h w fd s :
  exists out h', return_fd_name h w fd s = Ret (Returned out, h', w) /\
    String_val h' (Field h' out 1) = s /\ Field h' out 0 = wrap64 fd.
Proof.
  unfold return_fd_name. pose proof (alloc_fresh h 2 0) as Hlive.
  destruct (caml_alloc h 2 0) as [h1 out]. cbn [fst snd] in Hlive.
  set (h2 := Store_field h1 out 0 (wrap64 fd)). assert (H2 : live h2 out) by by apply store_live.
  pose proof (copy_string_fresh h2 s) as Hf. pose proof (copy_string_live h2 s out H2) as H3.
  pose proof (copy_string_val h2 s) as Hs. pose proof (copy_string_field h2 s out 0 H2) as H0.
  destruct (caml_copy_string h2 s) as [h3 name]. cbn [fst snd] in *.
  exists out, (Store_field h3 out 1 name). split; [done|]. rewrite store_field_same by done. split.
  - rewrite store_string; [done|]. by intros ->.
  - rewrite store_field_other, H0 by congruence. by apply store_field_same.
Qed.

(** What the driver gets from [mkstemps]: the name of the new file, but as the
    descriptor half of it, rounded down, when it is odd, and otherwise what OCaml
    takes for a pointer to address [fd]. *)
Theorem mkstemps_loses_fd h w w' templ suffixl s name fd :
  strdup w (String_val h templ) = Some s -> mkstemps w s suffixl = (w', name, fd) ->
  - 2 ^ 31 <= suffixl < 2 ^ 31 -> 0 <= fd < 2 ^ 31 ->
  exists out h', caml_mkstemps h w templ (Val_int suffixl) = Ret (Returned out, h', w') /\
    String_val h' (Field h' out 1) = name /\
    ocaml_view (Field h' out 0) = if Z.odd fd then Immediate (fd / 2) else Pointer fd.
Proof.
  intros Hs Hm Hl Hfd. unfold caml_mkstemps. rewrite Int_val_Val_int, Hs, Hm by done.
  rewrite (proj2 (Z.eqb_neq fd (-1))) by lia.
  destruct (return_fd_name_fields h w' fd name) as (out & h' & -> & Hn & Hf).
  exists out, h'. split; [done|]. split; [done|]. rewrite Hf. unfold ocaml_view, wrap64, signed64.
  rewrite Z.mod_small, (proj2 (Z.ltb_lt fd (2 ^ 63))), Z.shiftr_div_pow2 by lia. done.
Qed.

(** A failure raises the exception with [errno] where its three arguments should
    be. *)
Theorem mkstemps_failure h w w' templ suffixl s name exn :
  strdup w (String_val h templ) = Some s -> mkstemps w s suffixl = (w', name, -1) ->
  - 2 ^ 31 <= suffixl < 2 ^ 31 -> (forall h, caml_named_value h "Unix.Unix_error" = Some exn) ->
  exists h', caml_mkstemps h w templ (Val_int suffixl) = Ret (Raised exn (Val_int (errno w')), h', w').
Proof.
  intros Hs Hm Hl Hx. unfold caml_mkstemps. rewrite Int_val_Val_int, Hs, Hm by done. cbn.
  unfold raise_unix_error. destruct (caml_alloc h 3 0) as [h1 tup].
  destruct (unix_error_of_code h1 (errno w')) as [h2 code]. destruct (caml_copy_string _ _) as [h3 nm].
  rewrite Hx. by eexists.
Qed.
End correctness.

(** ** A concrete runtime: blocks at the even addresses, in order *)
Inductive block := Fields (f : Z -> Z) | Bytes (s : string).
Definition ex_fields (b : option block) : Z -> Z := match b with Some (Fields f) => f | _ => fun _ => Val_int 0 end.
#[local] Instance ex_caml : CamlRuntime := {|
  heap := Z * gmap Z block;
  caml_alloc h _ _ := ((h.1 + 2, <[h.1 := Fields (fun _ => Val_int 0)]> h.2), h.1);
  caml_copy_string h s := ((h.1 + 2, <[h.1 := Bytes s]> h.2), h.1);
  Store_field h b i v := (h.1, <[b := Fields (fun j => if j =? i then v else ex_fields (h.2 !! b) j)]> h.2);
  Field h v i := ex_fields (h.2 !! v) i;
  String_val h v := match h.2 !! v with Some (Bytes s) => s | _ => ""%string end;
  caml_named_value _ _ := Some 2;
  unix_error_of_code h e := (h, Val_int e);
  live h v := v < h.1;
|}.
#[local] Instance ex_caml_laws : CamlLaws ex_caml.
Proof.
  split; cbn; intros; try lia.
  - rewrite lookup_insert_ne by lia. done.
  - by rewrite lookup_insert_eq.
  - rewrite lookup_insert_eq. cbn. by rewrite Z.eqb_refl.
  - destruct (decide (b' = b)) as [->|Hb].
    + rewrite lookup_insert_eq. cbn. destruct (Z.eqb_spec i' i) as [->|]; [congruence|done].
    + by rewrite lookup_insert_ne by done.
  - by rewrite lookup_insert_ne by done.
Qed.
#[local] Instance ex_libc : Libc := {|
  libc_state := unit;
  strdup _ s := Some s;
  mkstemp w s := (w, s, 4);
  mkstemps w s _ := (w, "/tmp/tmp.abcdef.cpp.i"%string, 3);
  errno _ := 17;
|}.
Lemma mkstemps_loses_fd_witness :
  exists out h', caml_mkstemps (R := ex_caml) (LC := ex_libc) (10, {[ 4 := Bytes "/tmp/tmp.XXXXXX.cpp.i" ]}) tt 4 (Val_int 6) = Ret (Returned out, h', tt) /\
    String_val h' (Field h' out 1) = "/tmp/tmp.abcdef.cpp.i"%string /\ ocaml_view (Field h' out 0) = Immediate 1.
Proof.
  apply (mkstemps_loses_fd (R := ex_caml) (LC := ex_libc) (10, {[ 4 := Bytes "/tmp/tmp.XXXXXX.cpp.i" ]}) tt tt 4 6 "/tmp/tmp.XXXXXX.cpp.i"
    "/tmp/tmp.abcdef.cpp.i" 3); [reflexivity|reflexivity|lia|lia].
Defined.
