(* ===== verification/Cilpp.v ===== *)
(** * The preprocessor driver

    [src/frontend/cilpp/src/cilpp.ml] stands in for the C preprocessor: it sorts
    out its command line, runs the real preprocessor into a temporary file, and
    the CIL passes asked for on that.  The file models the treatment of the
    command line, the commands built from it, and what becomes of the
    preprocessor's exit status; the processes and CIL itself are parameters. *)
From stdpp Require Import strings.
From S2P Require Import Prelude.

Inductive extra_arg := OutputFile | Plugin | Driver | DependencyOutputFile.

(** The references that the loop over the arguments updates ([seenMd] and
    [seenMf] are never read). *)
Record driver_state := DriverState {
  minusOPos : option nat;
  saveTemps : bool;
  seenStd : option string;
  readingExtraArg : option extra_arg;
  originalOutfile : option string;
  driver : option string;
  depsOutputFile : option string;
  cilPluginsToLoadReverse : list string;
  cilPassesToRunReverse : list string;
}.
Definition initial_state : driver_state := DriverState None false None None None None None [] [].

(** [String.sub] of a longer string, and the rest. *)
Definition starts_longer (pref s : string) : bool :=
  (String.length pref <? String.length s)%nat && String.eqb (String.substring 0 (String.length pref) s) pref.
Definition after (pref s : string) : string :=
  String.substring (String.length pref) (String.length s - String.length pref) s.

Section driver.
Context (newTempName : string).

(** What an argument is replaced by. *)
Definition process_arg (i : nat) (arg : string) (st : driver_state) : list string * driver_state :=
  let '(DriverState o sv sd rd outf drv deps plugins passes) := st in
  if decide (arg = "-o") then ([arg], DriverState (Some i) sv sd (Some OutputFile) outf drv deps plugins passes)
  else if decide (arg = "-save-temps") then ([], DriverState o true sd rd outf drv deps plugins passes)
  else if decide (arg = "-driver") then ([], DriverState o sv sd (Some Driver) outf drv deps plugins passes)
  else if decide (arg = "-plugin") then ([], DriverState o sv sd (Some Plugin) outf drv deps plugins passes)
  else if decide (arg ∈ ["-MD"; "-MMD"; "-MF"; "-MMF"])
  then ([], DriverState o sv sd (Some DependencyOutputFile) outf drv deps plugins passes)
  else if starts_longer "-fpass-" arg
  then ([], DriverState o sv sd rd outf drv deps plugins (after "-fpass-" arg :: passes))
  else if starts_longer "-std=" arg then ([arg], DriverState o sv (Some arg) rd outf drv deps plugins passes)
  else
    match rd with
    | None => ([arg], DriverState o sv sd None outf drv deps plugins passes)
    | Some Driver => ([], DriverState o sv sd None outf (Some arg) deps plugins passes)
    | Some OutputFile => ([newTempName], DriverState o sv sd None (Some arg) drv deps plugins passes)
    | Some Plugin => ([], DriverState o sv sd None outf drv deps (arg :: plugins) passes)
    | Some DependencyOutputFile =>
        ([], DriverState o sv sd None outf drv (match deps with None => Some arg | _ => deps end) plugins passes)
    end.

(** [rewrittenArgs]: all but the first, in order. *)
Fixpoint rewrite_args (i : nat) (args : list string) (st : driver_state) : list string * driver_state :=
  match args with
  | [] => ([], st)
  | arg :: args =>
      let '(out, st) := if (i =? 0)%nat then ([], st) else process_arg i arg st in
      let '(rest, st) := rewrite_args (S i) args st in (out ++ rest, st)
  end.

Definition cppCommandPrefix (st : driver_state) : option (list string) :=
  match seenStd st with
  | None => match driver st with None => None | Some d => Some [d; "-E"] end
  | Some _ => Some ["cpp"]
  end.
Definition depsArgs (st : driver_state) : list string :=
  match depsOutputFile st with None => [] | Some depsFile => ["-M"; "-MF"; depsFile] end.
Definition outArgs (st : driver_state) : list string :=
  match minusOPos st with None => ["-o"; newTempName] | _ => [] end.

(** The preprocessor's command line; [None] is a failure. *)
Definition allArgs (argv : list string) : option (list string * driver_state) :=
  let '(rewrittenArgs, st) := rewrite_args 0 argv initial_state in
  prefix ← cppCommandPrefix st;
  Some (prefix ++ rewrittenArgs ++ outArgs st ++ depsArgs st, st).

(** ** The run *)
Inductive process_status := WEXITED (status : Z) | WSIGNALED (signal : Z) | WSTOPPED (signal : Z).
(** What CIL is then asked to do: the input, the plug-ins to load and the passes
    to enable, in order, the output ([None] is the standard output), and whether
    the input is deleted. *)
Record cil_job := CilJob {
  input : string; plugins : list string; passes : list string; output : option string; unlinked : bool
}.
Inductive result := Failure (msg : string) | Done (command : list string) (job : cil_job).

Definition cpp_ok (s : process_status) : option string :=
  match s with
  | WEXITED 255 | WEXITED 0 => None
  | WEXITED _ => Some "cpp exited with nonzero code"
  | WSIGNALED _ => Some "cpp killed by signal"
  | WSTOPPED _ => Some "cpp stopped"
  end%string.

(** [run_cpp] is the child process: [execvp] of the command, or exit with 255
    when that fails. *)
Definition cilpp (run_cpp : list string -> process_status) (argv : list string) : result :=
  match allArgs argv with
  | None => Failure "cilpp needs a -std=xxx option or a -driver"
  | Some (command, st) =>
      match cpp_ok (run_cpp command) with
      | Some msg => Failure msg
      | None => Done command (CilJob newTempName (rev (cilPluginsToLoadReverse st)) (rev (cilPassesToRunReverse st))
                                (originalOutfile st) (negb (saveTemps st)))
      end
  end.

(** ** Command lines

    What the arguments of a command line mean; an option and its argument belong
    together. *)
Inductive item :=
| Plain (arg : string) | Out (file : string) | LoadPlugin (file : string) | UseDriver (d : string)
| Deps (opt file : string) | Pass (name : string) | Std (std : string) | SaveTemps.
Definition words (x : item) : list string :=
  match x with
  | Plain arg => [arg] | Out file => ["-o"; file] | LoadPlugin file => ["-plugin"; file] | UseDriver d => ["-driver"; d]
  | Deps opt file => [opt; file] | Pass name => ["-fpass-" ++ name]%string | Std std => ["-std=" ++ std]%string
  | SaveTemps => ["-save-temps"]
  end.
(** No argument looks like one of the driver's own options. *)
Definition ordinary (arg : string) : bool :=
  negb (bool_decide (arg ∈ ["-o"; "-save-temps"; "-driver"; "-plugin"; "-MD"; "-MMD"; "-MF"; "-MMF"])) &&
  negb (starts_longer "-fpass-" arg) && negb (starts_longer "-std=" arg).
Definition wf_item (x : item) : bool :=
  match x with
  | Plain arg | Out arg | LoadPlugin arg | UseDriver arg => ordinary arg
  | Deps opt file => bool_decide (opt ∈ ["-MD"; "-MMD"; "-MF"; "-MMF"]) && ordinary file
  | Pass s | Std s => (0 <? String.length s)%nat
  | SaveTemps => true
  end.

(** What the preprocessor gets of an item. *)
Definition cpp_words (x : item) : list string :=
  match x with
  | Plain arg => [arg] | Out _ => ["-o"; newTempName] | Std std => ["-std=" ++ std]%string | _ => []
  end.
Definition out_of (x : item) : option string := match x with Out f => Some f | _ => None end.
Definition std_of (x : item) : option string := match x with Std s => Some ("-std=" ++ s)%string | _ => None end.
Definition driver_of (x : item) : option string := match x with UseDriver d => Some d | _ => None end.
Definition deps_of (x : item) : option string := match x with Deps _ f => Some f | _ => None end.
Definition plugin_of (x : item) : option string := match x with LoadPlugin f => Some f | _ => None end.
Definition pass_of (x : item) : option string := match x with Pass n => Some n | _ => None end.
Definition keeps_temps (x : item) : bool := match x with SaveTemps => true | _ => false end.

(** The preprocessor command of a list of items. *)
Definition cpp_command (items : list item) : option (list string) :=
  prefix ← match last (omap std_of items), last (omap driver_of items) with
           | Some _, _ => Some ["cpp"%string]
           | None, Some d => Some [d; "-E"%string]
           | None, None => None
           end;
  Some (prefix ++ flat_map cpp_words items ++
        (if decide (omap out_of items = []) then ["-o"%string; newTempName] else []) ++
        match head (omap deps_of items) with Some f => ["-M"%string; "-MF"%string; f] | None => [] end).
Definition job_of (items : list item) : cil_job :=
  CilJob newTempName (omap plugin_of items) (omap pass_of items) (last (omap out_of items))
    (negb (existsb keeps_temps items)).

(** ** The command line is understood *)
Lemma substring_all s : String.substring 0 (String.length s) s = s.
Proof. induction s as [|c s IH]; cbn; [done|by rewrite IH]. Qed.
Lemma substring_prefix p s : String.substring 0 (String.length p) (p ++ s) = p.
Proof. induction p as [|c p IH]; simpl; [by destruct s|by f_equal]. Qed.
Lemma substring_suffix p s n : String.substring (String.length p) n (p ++ s) = String.substring 0 n s.
Proof. induction p as [|c p IH]; simpl; [done|by rewrite <- IH]. Qed.
Lemma string_length_app p s : String.length (p ++ s) = (String.length p + String.length s)%nat.
Proof. induction p as [|c p IH]; simpl; [done|by rewrite <- IH]. Qed.
Lemma starts_longer_app p s : (0 <? String.length s)%nat = true -> starts_longer p (p ++ s) = true.
Proof.
  intros Hs%Nat.ltb_lt. unfold starts_longer. rewrite substring_prefix, String.eqb_refl, andb_true_r, string_length_app.
  apply Nat.ltb_lt. lia.
Qed.
Lemma after_app p s : after p (p ++ s) = s.
Proof.
  unfold after. rewrite substring_suffix, string_length_app, Nat.add_comm, Nat.add_sub. apply substring_all.
Qed.

(** What an item does to the state. *)
Definition item_state (i : nat) (x : item) (st : driver_state) : driver_state :=
  let '(DriverState o sv sd rd outf drv deps plugins passes) := st in
  match x with
  | Plain _ => st
  | Out f => DriverState (Some i) sv sd rd (Some f) drv deps plugins passes
  | LoadPlugin f => DriverState o sv sd rd outf drv deps (f :: plugins) passes
  | UseDriver d => DriverState o sv sd rd outf (Some d) deps plugins passes
  | Deps _ f => DriverState o sv sd rd outf drv (match deps with None => Some f | _ => deps end) plugins passes
  | Pass n => DriverState o sv sd rd outf drv deps plugins (n :: passes)
  | Std s => DriverState o sv (Some ("-std=" ++ s)%string) rd outf drv deps plugins passes
  | SaveTemps => DriverState o true sd rd outf drv deps plugins passes
  end.

Ltac not_listed := rewrite !not_elem_of_cons; repeat split; [done..|apply not_elem_of_nil].
Lemma process_ordinary i arg st :
  ordinary arg = true ->
  process_arg i arg st =
    let '(DriverState o sv sd rd outf drv deps plugins passes) := st in
    match rd with
    | None => ([arg], DriverState o sv sd None outf drv deps plugins passes)
    | Some Driver => ([], DriverState o sv sd None outf (Some arg) deps plugins passes)
    | Some OutputFile => ([newTempName], DriverState o sv sd None (Some arg) drv deps plugins passes)
    | Some Plugin => ([], DriverState o sv sd None outf drv deps (arg :: plugins) passes)
    | Some DependencyOutputFile =>
        ([], DriverState o sv sd None outf drv (match deps with None => Some arg | _ => deps end) plugins passes)
    end.
Proof.
  unfold ordinary. rewrite !andb_true_iff, !negb_true_iff, bool_decide_eq_false. intros [[Hin Hp] Hs].
  destruct st as [o sv sd rd outf drv deps plugins passes]. unfold process_arg.
  rewrite !not_elem_of_cons in Hin. destruct_and!. rewrite !decide_False by (done || not_listed). by rewrite Hp, Hs.
Qed.

Lemma item_processed i x st rest :
  wf_item x = true -> readingExtraArg st = None -> (0 < i)%nat ->
  rewrite_args i (words x ++ rest) st =
    let '(out, st') := rewrite_args (i + length (words x)) rest (item_state i x st) in (cpp_words x ++ out, st').
Proof.
  destruct st as [o sv sd rd outf drv deps plugins passes]. cbn [readingExtraArg]. intros Hx -> Hi.
  assert (Hi1 : forall j, (0 < j)%nat -> (j =? 0)%nat = false) by (intros; apply Nat.eqb_neq; lia).
  destruct x as [arg|f|f|d|opt f|n|s|]; cbn [wf_item words app rewrite_args cpp_words length] in *;
    rewrite ?andb_true_iff, ?bool_decide_eq_true in Hx;
    rewrite !Hi1 by lia; rewrite ?Nat.add_1_r, ?(Nat.add_succ_r i 1), ?Nat.add_1_r.
  - rewrite process_ordinary by done. cbn. by destruct (rewrite_args _ _ _).
  - cbn [process_arg]. rewrite decide_True, process_ordinary by done. cbn. by destruct (rewrite_args _ _ _).
  - cbn [process_arg]. rewrite !decide_False, decide_True, process_ordinary by done. cbn. by destruct (rewrite_args _ _ _).
  - cbn [process_arg]. rewrite !decide_False, decide_True, process_ordinary by done. cbn. by destruct (rewrite_args _ _ _).
  - destruct Hx as [Hopt Hf]. unfold process_arg at 1.
    rewrite !(decide_False (P := opt = _)) by (intros ->; by apply (bool_decide_eq_true_2 _) in Hopt). rewrite decide_True by done.
    rewrite process_ordinary by done. cbn. by destruct (rewrite_args _ _ _).
  - unfold process_arg. rewrite !decide_False by (done || not_listed). rewrite starts_longer_app, after_app by done.
    cbn. by destruct (rewrite_args _ _ _).
  - unfold process_arg. rewrite !decide_False by (done || not_listed).
    assert (Hn : starts_longer "-fpass-" ("-std=" ++ s) = false) by (unfold starts_longer; apply andb_false_iff; by right).
    rewrite Hn, starts_longer_app by done. cbn. by destruct (rewrite_args _ _ _).
  - cbn [process_arg]. rewrite decide_False, decide_True by done. cbn. by destruct (rewrite_args _ _ _).
Qed.

Fixpoint items_state (i : nat) (items : list item) (st : driver_state) : driver_state :=
  match items with [] => st | x :: items => items_state (i + length (words x)) items (item_state i x st) end.
Lemma item_state_ready i x st : readingExtraArg st = None -> readingExtraArg (item_state i x st) = None.
Proof. by destruct st, x. Qed.
Lemma items_processed items : forall i st,
  forallb wf_item items = true -> readingExtraArg st = None -> (0 < i)%nat ->
  rewrite_args i (flat_map words items) st = (flat_map cpp_words items, items_state i items st).
Proof.
  induction items as [|x items IH]; intros i st; cbn [forallb flat_map items_state]; [done|].
  intros [Hx Hitems]%andb_prop Hst Hi. rewrite item_processed by done.
  rewrite IH by (done || lia || by apply item_state_ready). done.
Qed.

(** The state after a list of items. *)
Definition latest (new old : option string) : option string := match new with Some s => Some s | None => old end.
Lemma last_cons_latest {A : Type} (f : A -> option string) x xs old :
  latest (last (omap f (x :: xs))) old = latest (last (omap f xs)) (latest (f x) old).
Proof.
  cbn. destruct (f x) as [a|]; [|done]. rewrite last_cons. by destruct (last (omap f xs)).
Qed.
Lemma items_state_fields items : forall i st,
  let st' := items_state i items st in
  (minusOPos st' = None <-> minusOPos st = None /\ omap out_of items = []) /\
  saveTemps st' = saveTemps st || existsb keeps_temps items /\
  seenStd st' = latest (last (omap std_of items)) (seenStd st) /\
  originalOutfile st' = latest (last (omap out_of items)) (originalOutfile st) /\
  driver st' = latest (last (omap driver_of items)) (driver st) /\
  depsOutputFile st' = latest (depsOutputFile st) (head (omap deps_of items)) /\
  cilPluginsToLoadReverse st' = rev (omap plugin_of items) ++ cilPluginsToLoadReverse st /\
  cilPassesToRunReverse st' = rev (omap pass_of items) ++ cilPassesToRunReverse st.
Proof.
  induction items as [|x items IH]; intros i st; cbn [items_state].
  { cbn. rewrite orb_false_r. split; [tauto|]. do 4 (split; [done|]). by split; [destruct (depsOutputFile st)|]. }
  destruct (IH (i + length (words x))%nat (item_state i x st)) as (IH1 & IH2 & IH3 & IH4 & IH5 & IH6 & IH7 & IH8).
  cbn zeta. rewrite IH2, IH3, IH4, IH5, IH6, IH7, IH8, !last_cons_latest.
  split; [rewrite IH1|]; destruct st as [o sv sd rd outf drv deps plugins passes], x; cbn -[omap];
    rewrite ?orb_true_r, ?orb_false_r; try (split; intros [? ?]; by split); cbn;
    rewrite <- ?app_assoc; repeat (split; [by destruct deps || done|]); done.
Qed.

(** The driver understands its command line: whatever options, in whatever
    order - as long as no argument looks like an option of the driver itself - the
    preprocessor gets its own arguments in their order, its output goes to the
    temporary file, and to that only, the dependencies to the first file named;
    and when it succeeds, CIL reads the temporary file, loads the plug-ins and
    enables the passes in their order, and writes to the last output named.
    Without a standard and a driver named, it fails. *)
Theorem command_line_understood run_cpp argv0 items :
  forallb wf_item items = true ->
  cilpp run_cpp (argv0 :: flat_map words items) =
    match cpp_command items with
    | None => Failure "cilpp needs a -std=xxx option or a -driver"
    | Some command =>
        match cpp_ok (run_cpp command) with
        | Some msg => Failure msg
        | None => Done command (job_of items)
        end
    end.
Proof.
  intros Hwf. unfold cilpp, allArgs. cbn [rewrite_args Nat.eqb]. rewrite items_processed by (done || lia).
  destruct (items_state_fields items 1 initial_state) as (H1 & H2 & H3 & H4 & H5 & H6 & H7 & H8).
  assert (Ho : outArgs (items_state 1 items initial_state) =
    if decide (omap out_of items = []) then ["-o"%string; newTempName] else []).
  { unfold outArgs. destruct (minusOPos _) as [o|], (decide (omap out_of items = [])) as [He|He]; try done.
    - by assert (Some o = None) by by apply H1.
    - by assert (omap out_of items = []) by by apply H1. }
  unfold cppCommandPrefix, cpp_command, job_of. rewrite H3, H5. unfold latest. cbn [seenStd driver initial_state].
  destruct (last (omap std_of items)) as [s|]; [|destruct (last (omap driver_of items)) as [d|]; [|done]]; cbn;
    unfold depsArgs; rewrite Ho, H2, H4, H6, H7, H8; cbn; rewrite !app_nil_r, !rev_involutive;
    destruct (head (omap deps_of items)), (last (omap out_of items)); done.
Qed.

(** A preprocessor that cannot be started is taken for one that succeeded: the
    child says so with status 255. *)
Theorem exec_failure_ignored : cpp_ok (WEXITED 255) = cpp_ok (WEXITED 0) /\ cpp_ok (WEXITED 1) <> None.
Proof. by split. Qed.
End driver.

Lemma command_line_understood_witness run_cpp :
  let items := [Plain "-DX=1"; Std "c99"; LoadPlugin "p.cma"; Pass "trumptr"; Out "a.i"; Deps "-MMD" "a.d"; Plain "a.c"]%string in
  cilpp "/tmp/t.i" run_cpp ("cilpp"%string :: flat_map words items) =
    match cpp_ok (run_cpp ["cpp"; "-DX=1"; "-std=c99"; "-o"; "/tmp/t.i"; "a.c"; "-M"; "-MF"; "a.d"]%string) with
    | Some msg => Failure msg
    | None => Done ["cpp"; "-DX=1"; "-std=c99"; "-o"; "/tmp/t.i"; "a.c"; "-M"; "-MF"; "a.d"]%string
        (CilJob "/tmp/t.i" ["p.cma"%string] ["trumptr"%string] (Some "a.i"%string) true)
    end.
Proof. intros items. exact (command_line_understood "/tmp/t.i" run_cpp "cilpp" items eq_refl). Defined.
